(* ===== verification/_CoqProject ===== *)
-Q . S2P
Prelude.v
Kernel.v
Store.v
StoreProofs.v
StoreSpec.v
Rcu.v
RcuProofs.v
RcuSpec.v
Queue.v
Stats.v
Core.v
CoreProofs.v
CoreLive.v
CoreSpec.v
CoreFair.v
CoreLeak.v
Lock.v
CoreLock.v
Hook.v
HookSpec.v
Trampoline.v
Ioctl.v
Device.v
Unload.v
UnloadProofs.v
UnloadLive.v
UnloadSpec.v
UnloadCore.v
UnloadFair.v
UnloadLock.v
Protect.v
Log.v
UserLib.v
UserSpec.v
Build.v
ProcText.v
Client.v
ClientSpec.v
ClientModule.v
