(* ===== verification/Prelude.v ===== *)
(** * SysThrot: verification of the syscall-throttling kernel module

    ** The program

    SysThrot is a Linux kernel module that limits how many calls of selected
    system calls selected programs and users may make per epoch of one second.
    The administrator registers program names, user ids and syscall numbers
    through a character device.  Registering a syscall patches the entry of its
    wrapper with a call to an assembly trampoline, which calls the C function
    [stub].  A call by a registered program or user takes a token of the current
    epoch or, when none is left, waits in a FIFO; the epoch timer wakes the
    oldest waiters, gives the remaining tokens to the new epoch and closes the
    epoch's statistics, which [/proc/SYSTHROT] shows.  Turning throttling off
    stops the timer, drains the waiters and destroys the queue; unloading also
    unhooks every syscall and waits until no thread is in the trampoline.  In
    user space a library sends the commands to the device, a command-line tool
    calls it, and a load generator measures the effect.

    ** Files, and the code they model

    - [Prelude]: C integers, error numbers, shared tactics and lemmas.
    - [Kernel]: the heap on which the module's code runs, with allocations that
      may fail; a state monad with undefined behaviour; the program logic [wp]
      and the predicate [ensures] for runs in which no allocation fails.
    - [Store], [StoreProofs], [StoreSpec]: the registration store
      ([src/sysThrot_store.c]), two cuckoo hash tables of allocated items that
      writers copy, change and publish.  The user and the program half share
      their code through the class [ItemOps]; what the table code needs of the
      items is the class [ItemLaws].  [store_rep] relates a heap to a set of
      users and a set of programs and to the rest of the memory.
    - [Rcu], [RcuProofs], [RcuSpec]: the same store with searches and updates
      interleaved: the steps of a search between [rcu_read_lock] and
      [rcu_read_unlock], a writer's update, its wait in [synchronize_rcu] and
      its [destroy_map].
    - [Queue]: the FIFO of blocked threads ([src/sysThrot_queue.c]).
    - [Stats]: the statistics monitor ([src/sysThrot_statmonitor.c]).
    - [Core], [CoreProofs], [CoreLive], [CoreSpec]: [check_if_registered],
      [stub], [timer_callback], [sysThrot_turn_on] and [sysThrot_turn_off] of
      [src/sysThrot.c] as one transition system.  Every program point between
      two accesses to shared data is a constructor, so a sequence of labels is
      an interleaving of threads, timer and administrator.
    - [CoreFair], [CoreLeak]: the same transition system under fair schedules,
      and the memory of its queue.
    - [Lock]: spin locks, CPUs and the timer softirq, as a layer over a transition
      system in which a critical section is one step: the class [Locking] says
      which step takes which lock, [LockingLaws] what the layer needs to know.
      [CoreLock] is that layer over [Core], with [queue_lock], [junk_lock] and
      [stats_lock] where the code takes them, the readers of [/proc/SYSTHROT]
      included, and [UnloadLock] the same over [Unload].
    - [Hook], [HookSpec]: [installProbe], [removeProbe], the patching of the
      kernel text and the unhooking loop of [sysThrot_cleanup].
    - [Trampoline]: the assembly [stub_trampoline], instruction by instruction.
    - [Ioctl]: [src/sysThrot_ioctl.c]: command numbers, root check, dispatch and
      the eight commands, on top of the store, the hooks and the core.
    - [Device]: [sysThrot_open], [sysThrot_release], [sysThrot_read],
      [device_driver_init], [device_driver_cleanup] and [sysThrot_init].
    - [Unload], [UnloadProofs], [UnloadLive], [UnloadSpec]: the module from the
      end of [sysThrot_init] to the end of [sysThrot_cleanup]: the threads of
      [Core] inside the trampoline of [Trampoline] (its counter
      [sysThrot_stub_counter] and the text they execute), the driver of [Ioctl]
      and the resources of [Device] in one transition system.
    - [UnloadCore], [UnloadFair]: that system as a run of the core, and under fair
      schedules.
    - [Protect]: [apply_mmap_patch] and the helpers of [src/lib/sysThrot.h] that
      switch write protection off, the patching that [USE_TEXT_POKE_SINGLE] = 0
      selects.
    - [Log]: [src/sysThrot_log.c] and the [LOG] macros.
    - [UserLib], [UserSpec]: [src/user/lib/sysThrot.h] and [src/user/systhrot.c],
      written against the class [SysCalls] of system calls, of which [world]
      is the instance that runs the module of [Ioctl] underneath.
    - [Build]: the recipes of [src/Makefile] and [src/user/Makefile] that
      generate [syscalls.h] from the kernel's header and [/proc/kallsyms].
    - [ProcText]: the text of [/proc/SYSTHROT] ([format_ms], [my_seq_show] and
      the header of [my_seq_start]), byte by byte.
    - [Client], [ClientSpec]: [src/user/client.c]; [ClientModule]: its workers
      against [Core] and [Trampoline].

    ** What the theorems show

    - Store: every operation refines the operation on sets it stands for, on
      every path and for every behaviour of the allocator, without leak, double
      free or dangling access; it fails for lack of memory only if an allocation
      failed, and for lack of space only on a collision; membership queries are
      exact; enumeration stays within its arrays; the kick loop conserves
      entries ([add_user_refines] and the theorems next to it).
    - Queue: all operations preserve [queue_wf]; waking is first come, first
      served; only elements whose thread has left are freed.
    - Statistics: after any sequence of events an entry represents exactly the
      history of its syscall, and the line shown is computed from it
      ([monitor_refines_log], [proc_row_exact]); reading terminates, and the values
      can be read back from the text ([proc_text_reads_back]).
    - Core: no orderly interleaving has undefined behaviour and
      [threads_in_module] counts the threads inside ([core_memory_safe]); an
      epoch never lets through more than its budget ([epoch_budget]); no wake-up
      is lost; the draining loop terminates under every fair schedule; the
      outcome of a call on each branch.  Every call of [stub] returns, with the
      locks as the code takes them ([call_returns]), and a waiter is served after as many epochs as its place
      in the queue needs ([waiter_served_in_turn]): the proofs give each waiting
      thread a distance and the role that decreases it ([roles_reach]).  An
      element of the queue is leaked exactly when its waiter leaves because
      throttling is turned off ([queue_memory]).  [turn_off_race],
      [turn_off_leaks_waiters] and [turn_on_race] are executions that show what is
      not true, and [softirq_deadlock] is one after which nothing moves any more.
    - Hooks and trampoline: a hook is a call that decodes to the trampoline;
      hooking and unhooking touch exactly their syscall; the trampoline
      preserves registers and stack.  [unhook_not_restored] and
      [trampoline_error_truncated] show two deviations from the documentation.
    - Interfaces: only root changes anything; each command has the effect of the
      operation it stands for; at most one process holds the device; a read
      delivers the status text; loading acquires all kernel resources or none.
    - Readers and writers of the store: under every interleaving a search
      answers membership at the moment it dereferenced the map and touches only
      allocated memory; nothing leaks ([rcu_search_exact], [rcu_no_leak]); a
      writer's update and its freeing are together the operation of [Store]
      ([writer_is_update_then_reclaim]).
    - Unloading: no calm interleaving touches freed memory or text, from load to
      unload ([module_life_safe]); afterwards nothing is left but the queue elements
      waiters abandoned ([unload_leaves_nothing]); the cleanup ends under every fair schedule.
      [unload_race] shows the two windows in which the text is freed under a
      thread.
    - The components together: the life of the loaded module is a run of the core,
      so the core's theorems hold for it ([module_refines_core]); a thread in a
      hooked system call comes back, also while the module is removed
      ([hooked_call_returns]); the client's totals are the module's decisions
      ([client_counts_refusals]).
    - User space: the library's functions refine the same operations on sets
      through the device, and always give the device back; a name hooks the
      syscall with that symbol, if tool and module have the same table
      ([generated_tables]: the two Makefiles generate different ones); the
      client's [main] ends unless a call it waits for never returns, and its
      results count every worker once; setup followed by teardown is a round trip ([client_run], [setup_teardown]).
    - Patching with write protection off writes the same text, but leaves
      [CR0.WP] cleared and faults on a CPU with CET ([mmap_patch_effect]).

    ** Bounds and fuel

    Integers are kept at their C width ([s32], [u64], ...).  Where a statement
    needs that a counter does not wrap, the bound is a hypothesis: fewer than
    [2^31] threads, fewer than [2^31] requests (plus the tokens) in one epoch,
    fewer than [2^31] recorded events and less than [2^64] ns of recorded delay.
    The kick loop's fuel is the code's own limit [MAX_KICKS].  [seq_traverse]
    has one unit per entry and one for the end, [run_code] the length of a
    listing without backward jumps, [print_int] ten digits, enough for an [int];
    [client_main] ends with two turns of its loop more than the clock needs to
    pass the end of the run.

    ** Assumptions

    - [platform]: the table of symbols fits the bitmap, wrappers do not overlap
      and lie within reach of a [CALL rel32], kprobe errors are negative.
    - [stub_abi]: the compiled [stub] obeys the calling convention.
    - [orderly]: the slab cache is created when throttling is turned on, and the
      queue is not destroyed while a thread is between its test of [working] and
      its increment of [threads_in_module]; [turn_off_race] shows that the code
      does not ensure the latter.
    - [timely], [punctual] (liveness): besides [orderly] and [calm], the first epoch
      does not end between [mod_timer] and [working = 1] of [sysThrot_turn_on];
      [turn_on_race] shows that the code does not ensure it.
    - [fair_locked] (liveness): threads, timer, administrator and readers get
      turns again and again while the callback does not run on their CPU;
      [max_calls_monitor] is positive as an [int].
    - [undisturbed] (liveness): no callback starts on a CPU on which code is in a
      section of [queue_lock], [junk_lock] or [stats_lock] or spins for one;
      [softirq_deadlock] shows that the code, which takes them with plain
      [spin_lock], does not ensure it.
    - [loaded] (load to unload): [sysThrot_init] has returned 0 and the store and
      the slab cache could be created, which the code does not check; the first
      epoch does not end inside [sysThrot_init] ([turn_on_alone] runs
      [sysThrot_turn_on] without the callback).
    - [my_patch_init] and [init_patch_locks] are marked [__init] but called from
      [apply_smp_patch] at run time: the compiler has inlined them, or their text
      is still there.
    - [covers]: the bitmap has a bit for every syscall of the table, as [platform]
      says of the arrays the module declares.
    - [calm] (unloading): besides [orderly], when the cleanup reads
      [sysThrot_stub_counter] for the last time no thread is between the
      wrapper's call and the increment, or between the decrement and the return.
    - One administrator's call at a time, as the device's exclusive open
      provides; a call of the tool that turns throttling on or off ends as the
      parameter [complete] says.
    - [header_ok]: a kernel header defines no number and no name twice; the third
      field of a definition is a decimal number.
    - [called]: a compiled [int] function leaves its result in [eax] and clears the
      rest of [rax]; a system call of the client that is let through answers with
      an [int] that is no error.
    - Printing does not change [errno] on the failure paths; the clock of the
      client is monotonic ([env_ok]); a failed kprobe registration does not
      answer [-EEXIST].
    - [results_ok]: an error of [class_create] is negative.
    - Allocation, locks, atomics, wait queues, timers, kprobes, [copy_from_user],
      [strncpy_from_user] and [scnprintf] behave as the kernel documents them.
      Spin locks are first come, first served.  The effects of a critical section
      are one step, at the end of the section; the statements about termination
      of [sysThrot_turn_off]'s loop and of the cleanup are about phases in which
      the callback no longer runs.

    ** Not modelled

    The write of [-EAGAIN] to [regs->ax], which the kernel overwrites with the
    wrapper's result; messages of the tools and the empty handler of [SIGTERM] in
    the client; the recipes of the Makefiles that only call other programs; how
    long the workers' system calls take while the client runs: their results, and
    which of them never return, are parameters of [client_main]. *)

From stdpp Require Import prelude gmap list.

Open Scope Z_scope.

(** ** Machine integers

    The module is built for x86_64 by the kernel's own build system, so
    [int] is 32 bits wide, [unsigned long] 64 bits, [char] is unsigned
    (the kernel compiles with [-funsigned-char]) and signed overflow wraps
    ([-fno-strict-overflow]).  A machine integer is a [Z]; the functions
    below are the conversions to each C type. *)

Definition u8 (z : Z) : Z := z mod 2 ^ 8.

Definition u32 (z : Z) : Z := z mod 2 ^ 32.

Definition u64 (z : Z) : Z := z mod 2 ^ 64.

Definition s32 (z : Z) : Z := (z + 2 ^ 31) mod 2 ^ 32 - 2 ^ 31.

Definition s64 (z : Z) : Z := (z + 2 ^ 63) mod 2 ^ 64 - 2 ^ 63.

(** ** Error numbers ([linux/errno.h]) *)

Definition EPERM : Z := 1.
Definition ENOENT : Z := 2.
Definition EAGAIN : Z := 11.
Definition ENOMEM : Z := 12.
Definition EFAULT : Z := 14.
Definition EBUSY : Z := 16.
Definition EEXIST : Z := 17.
Definition EINVAL : Z := 22.
Definition ENOSPC : Z := 28.
Definition EALREADY : Z := 114.
Definition ERESTARTSYS : Z := 512.

(** ** Tactics *)

Ltac zbool :=
  repeat match goal with
  | H : (_ && _)%bool = true |- _ => apply andb_true_iff in H; destruct H
  | H : (_ =? _) = true |- _ => apply Z.eqb_eq in H
  | H : (_ =? _) = false |- _ => apply Z.eqb_neq in H
  | H : (_ <? _) = true |- _ => apply Z.ltb_lt in H
  | H : (_ <? _) = false |- _ => apply Z.ltb_ge in H
  | H : (_ <=? _) = true |- _ => apply Z.leb_le in H
  | H : (_ <=? _) = false |- _ => apply Z.leb_gt in H
  end.

(** Unfold the width conversions and let [lia] do the modular arithmetic. *)
Ltac wrap_lia :=
  unfold u8, u32, u64, s32, s64 in *;
  Z.div_mod_to_equations; lia.

(** ** Lemmas on the width conversions *)

Create HintDb cint.

Lemma u8_range z : 0 <= u8 z < 2 ^ 8.
Proof. apply Z.mod_pos_bound. lia. Qed.

Lemma u32_range z : 0 <= u32 z < 2 ^ 32.
Proof. apply Z.mod_pos_bound. lia. Qed.

Lemma u64_range z : 0 <= u64 z < 2 ^ 64.
Proof. apply Z.mod_pos_bound. lia. Qed.

Lemma s32_range z : - 2 ^ 31 <= s32 z < 2 ^ 31.
Proof. unfold s32. pose proof (Z.mod_pos_bound (z + 2 ^ 31) (2 ^ 32)). lia. Qed.

Lemma s64_range z : - 2 ^ 63 <= s64 z < 2 ^ 63.
Proof. unfold s64. pose proof (Z.mod_pos_bound (z + 2 ^ 63) (2 ^ 64)). lia. Qed.

Lemma u32_id z : 0 <= z < 2 ^ 32 -> u32 z = z.
Proof. apply Z.mod_small. Qed.

Lemma u64_id z : 0 <= z < 2 ^ 64 -> u64 z = z.
Proof. apply Z.mod_small. Qed.

Lemma s32_id z : - 2 ^ 31 <= z < 2 ^ 31 -> s32 z = z.
Proof. intros ?. unfold s32. rewrite Z.mod_small; lia. Qed.

Lemma s64_id z : - 2 ^ 63 <= z < 2 ^ 63 -> s64 z = z.
Proof. intros ?. unfold s64. rewrite Z.mod_small; lia. Qed.

#[export] Hint Resolve u8_range u32_range u64_range s32_range s64_range : cint.
#[export] Hint Rewrite u32_id u64_id s32_id s64_id using lia : cint.

(** ** Lists *)

Section lists.
Context {A : Type}.
Implicit Types (l : list A).

Lemma list_filter_ext_in (P Q : A -> Prop) `{forall x, Decision (P x), forall x, Decision (Q x)} l :
  (forall x, x ∈ l -> P x <-> Q x) -> filter P l = filter Q l.
Proof.
  induction l as [|x l IH]; intros Hx; [done|]. rewrite !filter_cons.
  rewrite IH by (intros; apply Hx; by right).
  destruct (decide (P x)), (decide (Q x)); try done; exfalso;
    pose proof (Hx x ltac:(left)); tauto.
Qed.

Lemma list_filter_id (P : A -> Prop) `{forall x, Decision (P x)} l :
  (forall x, x ∈ l -> P x) -> filter P l = l.
Proof.
  induction l as [|x l IH]; intros Hx; [done|].
  rewrite filter_cons_True by (apply Hx; left). f_equal. apply IH. intros. apply Hx. by right.
Qed.
End lists.

(** ** Sums *)

Definition sum_z (l : list Z) : Z := foldr Z.add 0 l.
Arguments sum_z : simpl never.

Lemma sum_z_cons x l : sum_z (x :: l) = x + sum_z l.
Proof. done. Qed.

Lemma sum_z_one x : sum_z [x] = x.
Proof. apply Z.add_0_r. Qed.

Lemma sum_z_app l k : sum_z (l ++ k) = sum_z l + sum_z k.
Proof. induction l as [|x l IH]; [done|]. rewrite <-app_comm_cons, !sum_z_cons. lia. Qed.

Lemma sum_z_nonneg l : Forall (fun x => 0 <= x) l -> 0 <= sum_z l.
Proof. induction 1; [done|]. rewrite sum_z_cons. lia. Qed.

Lemma sum_z_add {A} (f g : A -> Z) l : sum_z ((fun x => f x + g x) <$> l) = sum_z (f <$> l) + sum_z (g <$> l).
Proof. induction l as [|x l IH]; [done|]. rewrite !fmap_cons, !sum_z_cons. lia. Qed.

Lemma sum_z_fmap_nonneg {A} (f : A -> Z) l : (forall x, x ∈ l -> 0 <= f x) -> 0 <= sum_z (f <$> l).
Proof. intros Hf. apply sum_z_nonneg, Forall_fmap, Forall_forall. done. Qed.

(** ** Fair schedules

    A system that runs under a schedule reaches its goal when a measure never
    grows and, until the goal, some event that keeps being scheduled lowers
    it; the event stays useful until the measure has gone down. *)
Section fair.
Context {S E : Type} (advance : E -> S -> S) (P goal : S -> Prop) (mu : S -> nat) (recurring : E -> Prop).

Fixpoint sched_run (sched : nat -> E) (s : S) (n : nat) : S :=
  match n with O => s | Datatypes.S n => advance (sched n) (sched_run sched s n) end.

Definition helpful (e : E) (s : S) : Prop := (mu (advance e s) < mu s)%nat.

Context (Hstep : forall e s, P s -> P (advance e s) \/ goal (advance e s)).
Context (Hmu : forall e s, P s -> (mu (advance e s) <= mu s)%nat).
Context (Hhelp : forall s, P s -> goal s \/ exists e, recurring e /\ helpful e s).
Context (Hstable : forall e e' s, P s -> P (advance e' s) -> helpful e s -> mu (advance e' s) = mu s -> helpful e (advance e' s)).

(** Either the goal is reached, or the measure has gone down, or the event is
    still useful when its turn comes. *)
Lemma fair_wait sched s0 e n k : P (sched_run sched s0 n) -> helpful e (sched_run sched s0 n) ->
  (exists m, goal (sched_run sched s0 m)) \/
  (P (sched_run sched s0 (n + k)) /\
    ((mu (sched_run sched s0 (n + k)) < mu (sched_run sched s0 n))%nat \/
     (mu (sched_run sched s0 (n + k)) = mu (sched_run sched s0 n) /\ helpful e (sched_run sched s0 (n + k))))).
Proof.
  intros Hp He. induction k as [|k IH]; [rewrite Nat.add_0_r; auto|].
  destruct IH as [?|[Hk Hm]]; [by left|]. rewrite Nat.add_succ_r. simpl.
  destruct (Hstep (sched (n + k)%nat) _ Hk) as [Hk'|Hg]; [|left; by exists (Datatypes.S (n + k))].
  right. split; [done|]. pose proof (Hmu (sched (n + k)%nat) _ Hk) as Hle.
  destruct Hm as [Hm|[Hm Hh]]; [left; lia|].
  destruct (decide (mu (advance (sched (n + k)%nat) (sched_run sched s0 (n + k))) = mu (sched_run sched s0 (n + k)))) as [Heq|Hne].
  - right. split; [lia|]. by apply Hstable.
  - left. lia.
Qed.

Lemma fair_reaches sched s0 : (forall e n, recurring e -> exists m, (n <= m)%nat /\ sched m = e) ->
  forall n, P (sched_run sched s0 n) -> exists m, goal (sched_run sched s0 m).
Proof.
  intros Hfair n. remember (mu (sched_run sched s0 n)) as k eqn:Hk. revert n Hk.
  induction (lt_wf k) as [k _ IH]. intros n Hk Hp.
  destruct (Hhelp _ Hp) as [Hg|(e & Hr & He)]; [by exists n|].
  destruct (Hfair e n Hr) as (m & Hm & Hs). replace m with (n + (m - n))%nat in Hs by lia.
  destruct (fair_wait sched s0 e n (m - n) Hp He) as [?|[Hp' Hmu']]; [done|].
  destruct Hmu' as [Hlt|[Heq Hh]]; [by eapply (IH _ ltac:(subst k; exact Hlt)); eauto|].
  destruct (Hstep e _ Hp') as [Hp''|Hg]; [|exists (Datatypes.S (n + (m - n))); simpl; by rewrite Hs].
  eapply (IH (mu (advance e (sched_run sched s0 (n + (m - n)))))) with (n := Datatypes.S (n + (m - n))%nat); simpl; rewrite ?Hs; try done.
  unfold helpful in Hh. lia.
Qed.
End fair.

(** *** Fair executions by roles

    [role n] takes step [n].  Each step of an execution that has not reached the
    goal lowers the measure, or keeps the measure and the role that is to lower
    it, and was not taken by that role; every such role gets its turn. *)
Section roles.
Context {S R : Type} (st : nat -> S) (role : nat -> R).
Context (P goal : S -> Prop) (mu : S -> nat) (decreasing : S -> R).
Context (Hfair : forall s n, P s -> exists m, (n <= m)%nat /\ role m = decreasing s).
Context (Hstep : forall n, P (st n) -> goal (st n) \/ goal (st (Datatypes.S n)) \/
  (P (st (Datatypes.S n)) /\
    ((mu (st (Datatypes.S n)) < mu (st n))%nat \/
     (mu (st (Datatypes.S n)) = mu (st n) /\ decreasing (st (Datatypes.S n)) = decreasing (st n) /\ role n <> decreasing (st n))))).

Lemma roles_reach n : P (st n) -> exists m, (n <= m)%nat /\ goal (st m).
Proof.
  remember (mu (st n)) as k eqn:Hk. revert n Hk. induction (lt_wf k) as [k _ IH]. intros n Hk Hp.
  destruct (Hfair (st n) n Hp) as (t & Ht & Hr). remember (t - n)%nat as d eqn:Hd.
  revert n Hk Hp t Ht Hr Hd. induction d as [|d IHd]; intros n Hk Hp t Ht Hr Hd.
  - assert (t = n) as -> by lia. destruct (Hstep n Hp) as [?|[?|(Hp' & [Hlt|(_ & _ & Hne)])]]; [by exists n|by exists (Datatypes.S n); auto| |done].
    destruct (IH _ ltac:(subst k; exact Hlt) (Datatypes.S n) eq_refl Hp') as (m & Hm & ?). exists m. split; [lia|done].
  - destruct (Hstep n Hp) as [?|[?|(Hp' & [Hlt|(Heq & Hdr & _)])]]; [by exists n|by exists (Datatypes.S n); auto| |].
    + destruct (IH _ ltac:(subst k; exact Hlt) (Datatypes.S n) eq_refl Hp') as (m & Hm & ?). exists m. split; [lia|done].
    + destruct (IHd (Datatypes.S n) ltac:(congruence) Hp' t ltac:(lia) ltac:(congruence) ltac:(lia)) as (m & Hm & ?).
      exists m. split; [lia|done].
Qed.
End roles.
