(* ===== verification/Kernel.v ===== *)
(** * Kernel memory and the monad of the module's heap-manipulating code

    [M V A] is the type of a computation of the module that runs on a
    kernel heap of objects of type [V].  A result [None] is undefined
    behaviour: a load, store or free of an address that is not a live
    object, or an unbalanced lock.  Allocation failure is an oracle: each
    allocation consumes one bit of [oracle] ([false]: the allocator returns
    NULL); when the list is used up allocations succeed.  Addresses are
    never reused, so a dangling pointer never becomes valid again. *)

From stdpp Require Import prelude gmap list.
From S2P Require Import Prelude.

Abbreviation loc := positive.
(** A C pointer: [None] is NULL. *)
Abbreviation ptr := (option positive).

Record mem (V : Type) := Mem {
  heap : gmap positive V;
  next : positive;
  oracle : list bool;
}.
Arguments Mem {V} _ _ _.
Arguments heap {V} _.
Arguments next {V} _.
Arguments oracle {V} _.

Definition M (V A : Type) : Type := mem V -> option (A * mem V).

#[export] Instance M_ret V : MRet (M V) := fun A a σ => Some (a, σ).
#[export] Instance M_bind V : MBind (M V) := fun A B k m σ =>
  match m σ with
  | Some (a, σ') => k a σ'
  | None => None
  end.

Section ops.
Context {V : Type}.

Definition ub {A} : M V A := fun _ => None.

(** [kmalloc]: a live object with the given contents, or NULL. *)
Definition kmalloc (v : V) : M V ptr := fun σ =>
  match oracle σ with
  | false :: o => Some (None, Mem (heap σ) (next σ) o)
  | o => Some (Some (next σ),
               Mem (<[next σ := v]> (heap σ)) (Pos.succ (next σ)) (tail o))
  end.

Definition kfree (p : ptr) : M V unit := fun σ =>
  match p with
  | None => Some (tt, σ)
  | Some l =>
      match heap σ !! l with
      | Some _ => Some (tt, Mem (delete l (heap σ)) (next σ) (oracle σ))
      | None => None
      end
  end.

Definition load (l : loc) : M V V := fun σ =>
  match heap σ !! l with
  | Some v => Some (v, σ)
  | None => None
  end.

Definition store (l : loc) (v : V) : M V unit := fun σ =>
  match heap σ !! l with
  | Some _ => Some (tt, Mem (<[l := v]> (heap σ)) (next σ) (oracle σ))
  | None => None
  end.

(** Dereferencing a pointer that may be NULL. *)
Definition deref (p : ptr) : M V loc :=
  match p with Some l => mret l | None => ub end.

(** [for (i ...) body(i)] *)
Fixpoint for_each {I} (ids : list I) (body : I -> M V unit) : M V unit :=
  match ids with
  | [] => mret tt
  | i :: ids => body i ;; for_each ids body
  end.

(** A heap is well formed when the allocation frontier is above every live
    address. *)
Definition mem_wf (σ : mem V) : Prop :=
  forall l, is_Some (heap σ !! l) -> (l < next σ)%positive.

(** ** Weakest preconditions: [wp m Q σ] holds when [m] run from [σ] has no
    undefined behaviour and ends in a result and state that satisfy [Q]. *)
Definition wp {A} (m : M V A) (Q : A -> mem V -> Prop) (σ : mem V) : Prop :=
  match m σ with
  | Some (a, σ') => Q a σ'
  | None => False
  end.

Lemma wp_ret {A} (a : A) Q σ : Q a σ -> wp (mret a) Q σ.
Proof. done. Qed.

Lemma wp_bind {A B} (m : M V A) (k : A -> M V B) Q σ :
  wp m (fun a => wp (k a) Q) σ -> wp (m ≫= k) Q σ.
Proof. unfold wp, mbind, M_bind. destruct (m σ) as [[]|]; done. Qed.

Lemma wp_mono {A} (m : M V A) (P Q : A -> mem V -> Prop) σ :
  wp m P σ -> (forall a σ', P a σ' -> Q a σ') -> wp m Q σ.
Proof. unfold wp. destruct (m σ) as [[]|]; eauto. Qed.

Lemma wp_inv {A} (m : M V A) Q σ :
  wp m Q σ -> exists a σ', m σ = Some (a, σ') /\ Q a σ'.
Proof. unfold wp. destruct (m σ) as [[]|]; [eauto|done]. Qed.

Lemma wp_kmalloc v Q σ :
  (forall o, Q None (Mem (heap σ) (next σ) o)) ->
  (forall o, Q (Some (next σ)) (Mem (<[next σ := v]> (heap σ)) (Pos.succ (next σ)) o)) ->
  wp (kmalloc v) Q σ.
Proof. unfold wp, kmalloc. intros. destruct (oracle σ) as [|[] ?]; eauto. Qed.

Lemma wp_kfree l v Q σ :
  heap σ !! l = Some v ->
  Q tt (Mem (delete l (heap σ)) (next σ) (oracle σ)) -> wp (kfree (Some l)) Q σ.
Proof. unfold wp, kfree. by intros ->. Qed.

Lemma wp_load l v Q σ : heap σ !! l = Some v -> Q v σ -> wp (load l) Q σ.
Proof. unfold wp, load. by intros ->. Qed.

Lemma wp_store l v v' Q σ :
  heap σ !! l = Some v ->
  Q tt (Mem (<[l := v']> (heap σ)) (next σ) (oracle σ)) -> wp (store l v') Q σ.
Proof. unfold wp, store. by intros ->. Qed.

Lemma wp_deref l Q σ : Q l σ -> wp (deref (Some l)) Q σ.
Proof. done. Qed.

(** The loop rule: an invariant indexed by the iterations already done. *)
Lemma wp_for_each {I} (body : I -> M V unit) (Inv : list I -> mem V -> Prop)
    (ids : list I) Q :
  (forall pre i post σ, ids = pre ++ i :: post -> Inv pre σ ->
     wp (body i) (fun _ => Inv (pre ++ [i])) σ) ->
  (forall σ, Inv ids σ -> Q tt σ) ->
  forall σ, Inv [] σ -> wp (for_each ids body) Q σ.
Proof.
  intros Hbody HQ.
  assert (forall pre post, ids = pre ++ post ->
    forall σ, Inv pre σ -> wp (for_each post body) Q σ) as Hgen.
  { intros pre post. revert pre. induction post as [|i post IH]; intros pre -> σ HI; simpl.
    - apply wp_ret, HQ. by rewrite app_nil_r.
    - apply wp_bind. eapply wp_mono; [by eapply Hbody|]. simpl. intros _ σ' HI'.
      apply (IH (pre ++ [i])); [by rewrite <-app_assoc|done]. }
  intros σ. by apply (Hgen []).
Qed.

Lemma mem_wf_fresh σ : mem_wf σ -> heap σ !! next σ = None.
Proof.
  intros Hwf. destruct (heap σ !! next σ) eqn:E; [|done].
  assert (next σ < next σ)%positive by (apply Hwf; eauto). lia.
Qed.

Lemma mem_wf_alloc σ v o :
  mem_wf σ -> mem_wf (Mem (<[next σ := v]> (heap σ)) (Pos.succ (next σ)) o).
Proof.
  intros Hwf l. simpl. intros [x [[<- <-]|[Hne Hl]]%lookup_insert_Some]; [lia|].
  assert (l < next σ)%positive by (apply Hwf; eauto). lia.
Qed.

Lemma mem_wf_store σ l v w o :
  heap σ !! l = Some v -> mem_wf σ -> mem_wf (Mem (<[l := w]> (heap σ)) (next σ) o).
Proof.
  intros Hl Hwf l'. simpl. intros [x [[<- _]|[_ ?]]%lookup_insert_Some]; apply Hwf; eauto.
Qed.

Lemma mem_wf_sub σ h o :
  (forall l, is_Some (h !! l) -> is_Some (heap σ !! l)) ->
  mem_wf σ -> mem_wf (Mem h (next σ) o).
Proof. intros Hs Hwf l ?. apply Hwf, Hs. done. Qed.

(** ** Allocators that do not fail

    [ensures m Q]: run from a state whose remaining allocations all succeed,
    [m] can only end with a result that satisfies [Q], in such a state. *)
Definition lucky (σ : mem V) : Prop := false ∉ oracle σ.

Definition ensures {A} (m : M V A) (Q : A -> Prop) : Prop :=
  forall σ a σ', lucky σ -> m σ = Some (a, σ') -> Q a /\ lucky σ'.

Lemma ens_ret {A} (a : A) (Q : A -> Prop) : Q a -> ensures (mret a) Q.
Proof. by intros HQ σ a' σ' Hl [= <- <-]. Qed.

Lemma ens_ub {A} (Q : A -> Prop) : ensures ub Q.
Proof. done. Qed.

Lemma ens_bind {A B} (m : M V A) (k : A -> M V B) (P : A -> Prop) (Q : B -> Prop) :
  ensures m P -> (forall a, P a -> ensures (k a) Q) -> ensures (m ≫= k) Q.
Proof.
  intros Hm Hk σ b σ' Hl. unfold mbind, M_bind. destruct (m σ) as [[a σ1]|] eqn:E; [|done].
  destruct (Hm _ _ _ Hl E) as [HP Hl1]. by apply Hk.
Qed.

Lemma ens_true {A} (m : M V A) (P : A -> Prop) : ensures m P -> ensures m (fun _ => True).
Proof. intros Hm σ a σ' Hl E. by destruct (Hm _ _ _ Hl E). Qed.

Lemma ens_kmalloc v : ensures (kmalloc v) is_Some.
Proof.
  intros σ p σ' Hl. unfold kmalloc, lucky in *. destruct (oracle σ) as [|[] o]; intros [= <- <-]; simpl.
  - split; [eauto|set_solver].
  - split; [eauto|set_solver].
  - set_solver.
Qed.

Lemma ens_kfree p : ensures (kfree p) (fun _ => True).
Proof. intros σ a σ' Hl. unfold kfree. destruct p as [l|]; [destruct (heap σ !! l)|]; by intros [= <- <-]. Qed.

Lemma ens_load l : ensures (load l) (fun _ => True).
Proof. intros σ a σ' Hl. unfold load. destruct (heap σ !! l); by intros [= <- <-]. Qed.

Lemma ens_store l v : ensures (store l v) (fun _ => True).
Proof. intros σ a σ' Hl. unfold store. destruct (heap σ !! l); by intros [= <- <-]. Qed.

Lemma ens_deref p : ensures (deref p) (fun _ => True).
Proof. destruct p; [by apply ens_ret|apply ens_ub]. Qed.

Lemma ens_for_each {I} (ids : list I) (body : I -> M V unit) :
  (forall i, ensures (body i) (fun _ => True)) -> ensures (for_each ids body) (fun _ => True).
Proof.
  intros Hb. induction ids as [|i ids IH]; simpl; [by apply ens_ret|].
  eapply ens_bind; [apply Hb|]. intros _ _. apply IH.
Qed.

(** A failed allocation is a failure of the allocator. *)
Lemma wp_kmalloc_unlucky v Q σ :
  (forall o, ~ lucky σ -> Q None (Mem (heap σ) (next σ) o)) ->
  (forall o, Q (Some (next σ)) (Mem (<[next σ := v]> (heap σ)) (Pos.succ (next σ)) o)) ->
  wp (kmalloc v) Q σ.
Proof.
  unfold wp, kmalloc, lucky. intros H0 H1. destruct (oracle σ) as [|[] o]; eauto.
  apply H0. set_solver.
Qed.

End ops.

Create HintDb kmem.
#[export] Hint Resolve mem_wf_alloc mem_wf_store mem_wf_fresh : kmem.

(** Computations that cannot fail for lack of memory; components add theirs. *)
Create HintDb lucky.
#[export] Hint Resolve ens_kmalloc ens_kfree ens_load ens_store ens_deref ens_ub : lucky.

(** Follows the text of a program, closing the steps the database knows. *)
Ltac ens_step :=
  lazymatch goal with
  | |- ensures (mret _) _ => apply ens_ret
  | |- ensures ub _ => apply ens_ub
  | |- ensures (_ ≫= _) _ => eapply ens_bind; [solve [eauto with lucky]|cbv beta; intros ? ?]
  | |- ensures (for_each _ _) _ => apply ens_for_each; intros ?
  | |- ensures (match ?x with _ => _ end) _ => destruct x
  | |- _ => solve [eauto with lucky]
  end.

(** One step of symbolic execution of a monadic program. *)
Ltac wp_step :=
  lazymatch goal with
  | |- wp (_ ≫= _) _ _ => apply wp_bind
  | |- wp (mret _) _ _ => apply wp_ret
  | |- wp (deref (Some _)) _ _ => apply wp_deref
  | |- wp (load _) _ _ => eapply wp_load
  | |- wp (store _ _) _ _ => eapply wp_store
  | |- wp (kfree (Some _)) _ _ => eapply wp_kfree
  | |- wp (kmalloc _) _ _ => apply wp_kmalloc; intros ?o
  end.

(** An allocation that succeeded. *)
Ltac ens_some := match goal with H : is_Some ?q |- _ => destruct H as [? ->] end.
