(* ===== verification/Store.v ===== *)
(** * The store of monitored users and programs ([src/sysThrot_store.c])

    Two Cuckoo hash maps, one of user ids and one of program names, behind
    RCU-protected pointers.  This file holds the data and the operations;
    [StoreProofs] and [StoreSpec] hold the theorems.

    A C pointer to a heap object is a location of [Kernel]; the maps, the
    stored ids, the stored names and the store itself are all objects of
    that heap, so that allocation failure, leaks and use after free are
    visible.  The three parallel arrays [table], [keys] and [occupied] of
    [CuckooHash] are kept as one array of [slot]s per table, since the code
    always reads and writes the three of them at the same index.  A C string
    is the list of its bytes before the terminator. *)

From stdpp Require Import prelude gmap list.
From S2P Require Import Prelude Kernel.

Definition TABLE_SIZE : nat := 128.
Definition MASK : Z := 127.
Definition MAX_KICKS : nat := 64.
Definition MAX_STORE_PROGRAMS : nat := 64.
Definition MAX_STORE_USERS : nat := 256.
Definition TASK_COMM_LEN : nat := 16.

(** ** Data *)

Inductive side := T0 | T1.

#[export] Instance side_eq_dec : EqDecision side.
Proof. solve_decision. Defined.

Record slot := Slot {
  item : ptr;         (* table[s][i] *)
  skey : Z;           (* keys[s][i] *)
  occupied : bool;    (* occupied[s][i] *)
}.

Definition zero_slot : slot := Slot None 0 false.

Record CuckooHash := Cuckoo {
  table0 : list slot;
  table1 : list slot;
}.

Record sysThrot_Store := Store {
  syscall_user_map : ptr;
  syscall_program_map : ptr;
  write_lock : bool;
}.

(** Objects of the kernel heap. *)
Inductive obj :=
  | OUninit
  | OInt (z : Z)
  | OStr (s : list Z)
  | OMap (m : CuckooHash)
  | OStore (st : sysThrot_Store).

Abbreviation K := (M obj).

Definition tbl (m : CuckooHash) (s : side) : list slot :=
  match s with T0 => table0 m | T1 => table1 m end.

(** [map->...[s][i]]: the indices are always below [TABLE_SIZE], the length
    of both tables of every map of the heap (theorems [hash_lt] and
    [map_ok]), so the default is never used. *)
Definition slot_at (m : CuckooHash) (s : side) (i : nat) : slot :=
  default zero_slot (tbl m s !! i).

Definition set_slot (m : CuckooHash) (s : side) (i : nat) (x : slot) : CuckooHash :=
  match s with
  | T0 => Cuckoo (<[i := x]> (table0 m)) (table1 m)
  | T1 => Cuckoo (table0 m) (<[i := x]> (table1 m))
  end.

(** ** Typed loads *)

Definition load_int (l : loc) : K Z :=
  o ← load l; match o with OInt z => mret z | _ => ub end.

Definition load_str (l : loc) : K (list Z) :=
  o ← load l; match o with OStr s => mret s | _ => ub end.

Definition load_map (l : loc) : K CuckooHash :=
  o ← load l; match o with OMap m => mret m | _ => ub end.

Definition load_store (l : loc) : K sysThrot_Store :=
  o ← load l; match o with OStore st => mret st | _ => ub end.

(** ** Maps *)

Definition zero_map : CuckooHash :=
  Cuckoo (replicate TABLE_SIZE zero_slot) (replicate TABLE_SIZE zero_slot).

Definition create_map : K ptr := kmalloc (OMap zero_map).

Definition free_slot (map : loc) (s : side) (i : nat) : K unit :=
  m ← load_map map;
  if occupied (slot_at m s i) then kfree (item (slot_at m s i)) else mret tt.

Definition destroy_map (map : ptr) : K unit :=
  match map with
  | None => mret tt
  | Some map =>
      for_each (seq 0 TABLE_SIZE) (fun i =>
        free_slot map T0 i ;; free_slot map T1 i) ;;
      kfree (Some map)
  end.

(** One of the two halves of the loop body of [clone_map]; [false] is the
    [goto fail]. *)
Definition clone_slot (clone_item : loc -> K ptr) (src dst : loc)
    (s : side) (i : nat) : K bool :=
  ms ← load_map src;
  if occupied (slot_at ms s i) then
    p ← deref (item (slot_at ms s i));
    q ← clone_item p;
    md ← load_map dst;
    store dst (OMap (set_slot md s i
      (Slot q (skey (slot_at md s i)) (occupied (slot_at md s i))))) ;;
    match q with
    | None => mret false
    | Some _ =>
        md ← load_map dst;
        store dst (OMap (set_slot md s i (Slot q (skey (slot_at ms s i)) true))) ;;
        mret true
    end
  else mret true.

Fixpoint clone_loop (clone_item : loc -> K ptr) (src dst : loc) (ids : list nat) : K bool :=
  match ids with
  | [] => mret true
  | i :: ids =>
      ok0 ← clone_slot clone_item src dst T0 i;
      if ok0 : bool then
        ok1 ← clone_slot clone_item src dst T1 i;
        if ok1 : bool then clone_loop clone_item src dst ids else mret false
      else mret false
  end.

Definition clone_map (src : loc) (clone_item : loc -> K ptr) : K ptr :=
  dst ← create_map;
  match dst with
  | None => mret None
  | Some dst =>
      ok ← clone_loop clone_item src dst (seq 0 TABLE_SIZE);
      if ok : bool then mret (Some dst)
      else destroy_map (Some dst) ;; mret None
  end.

Definition hash1 (key : Z) : Z :=
  let x := u32 key in
  let x := u32 (Z.lxor (Z.shiftr x 16) x * 0x45d9f3b) in
  let x := u32 (Z.lxor (Z.shiftr x 16) x * 0x45d9f3b) in
  let x := Z.lxor (Z.shiftr x 16) x in
  Z.land x MASK.

Definition hash2 (key : Z) : Z :=
  let x := u32 key in
  let x := u32 (Z.lxor (Z.shiftr x 16) x * 0x3335b369) in
  let x := u32 (Z.lxor (Z.shiftr x 16) x * 0x3335b369) in
  let x := Z.lxor (Z.shiftr x 16) x in
  Z.land x MASK.

(** The index of a key in table [s]. *)
Definition hash (s : side) (key : Z) : nat :=
  Z.to_nat (match s with T0 => hash1 key | T1 => hash2 key end).

(** [map->occupied[s][h] && compare(map->table[s][h], item)] *)
Definition probe (compare : loc -> loc -> K bool) (map : loc) (s : side) (h : nat)
    (it : loc) : K bool :=
  m ← load_map map;
  if occupied (slot_at m s h) then
    p ← deref (item (slot_at m s h)); compare p it
  else mret false.

Definition contains (map : loc) (key : Z) (it : loc)
    (compare : loc -> loc -> K bool) : K Z :=
  b0 ← probe compare map T0 (hash T0 key) it;
  if b0 : bool then mret 0 else
  b1 ← probe compare map T1 (hash T1 key) it;
  if b1 : bool then mret 0 else mret (-1).

(** The kick loop of [insert]: [Some p] is the item left over after
    [fuel] rounds, [None] says that every item found a slot. *)
Fixpoint insert_loop (fuel : nat) (m : CuckooHash) (current_key : Z) (current_item : ptr)
    : CuckooHash * option ptr :=
  match fuel with
  | O => (m, Some current_item)
  | S fuel =>
      let h1 := hash T0 current_key in
      let t0 := slot_at m T0 h1 in
      let m := set_slot m T0 h1 (Slot current_item current_key true) in
      if negb (occupied t0) then (m, None)
      else
        let h2 := hash T1 (skey t0) in
        let t1 := slot_at m T1 h2 in
        let m := set_slot m T1 h2 (Slot (item t0) (skey t0) true) in
        if negb (occupied t1) then (m, None)
        else insert_loop fuel m (skey t1) (item t1)
  end.

Definition insert (map : loc) (key : Z) (it : loc)
    (compare : loc -> loc -> K bool) : K Z :=
  c ← contains map key it compare;
  if c =? 0 then mret (- EEXIST) else
  m ← load_map map;
  let (m', left) := insert_loop MAX_KICKS m key (Some it) in
  store map (OMap m') ;;
  match left with
  | None => mret 0
  | Some current_item => kfree current_item ;; mret (- ENOSPC)
  end.

Definition remove_slot (map : loc) (s : side) (h : nat) : K unit :=
  m ← load_map map;
  let sl := slot_at m s h in
  store map (OMap (set_slot m s h (Slot (item sl) (skey sl) false))) ;;
  kfree (item sl) ;;
  store map (OMap (set_slot m s h (Slot None 0 false))).

Definition remove (map : loc) (key : Z) (it : loc)
    (compare : loc -> loc -> K bool) : K Z :=
  b0 ← probe compare map T0 (hash T0 key) it;
  if b0 : bool then remove_slot map T0 (hash T0 key) ;; mret 0 else
  b1 ← probe compare map T1 (hash T1 key) it;
  if b1 : bool then remove_slot map T1 (hash T1 key) ;; mret 0 else mret (-1).

(** ** Keys, comparison and cloning of the two kinds of items *)

Definition getKeyFromUserId (user_id : loc) : K Z := load_int user_id.

(** [hash = (hash * 31 + *program_name) % 0xFFFFFFFF]: the remainder is
    taken on [unsigned int] and the result stored back in an [int]. *)
Definition program_key_step (h c : Z) : Z :=
  s32 (u32 (s32 (s32 (h * 31) + c)) mod 0xFFFFFFFF).

Definition program_key (name : list Z) : Z := foldl program_key_step 0 name.

Definition getKeyFromProgramName (program_name : loc) : K Z :=
  name ← load_str program_name; mret (program_key name).

Definition compareUser (a b : loc) : K bool :=
  x ← load_int a; y ← load_int b; mret (x =? y).

Definition compareProgram (a b : loc) : K bool :=
  x ← load_str a; y ← load_str b; mret (bool_decide (x = y)).

Definition cloneUser (it : loc) : K ptr :=
  dup ← kmalloc OUninit;
  match dup with
  | None => mret None
  | Some d => z ← load_int it; store d (OInt z) ;; mret (Some d)
  end.

Definition cloneProgram (it : loc) : K ptr :=
  s ← load_str it; kmalloc (OStr s).

(** ** The store *)

Inductive map_field := UserMap | ProgramMap.

#[export] Instance map_field_eq_dec : EqDecision map_field.
Proof. solve_decision. Defined.

Definition get_field (f : map_field) (st : sysThrot_Store) : ptr :=
  match f with UserMap => syscall_user_map st | ProgramMap => syscall_program_map st end.

Definition set_field (f : map_field) (p : ptr) (st : sysThrot_Store) : sysThrot_Store :=
  match f with
  | UserMap => Store p (syscall_program_map st) (write_lock st)
  | ProgramMap => Store (syscall_user_map st) p (write_lock st)
  end.

(** Locking a mutex that is held never returns, unlocking a free one is an
    error: both are [ub]. *)
Definition mutex_lock (store_p : loc) : K unit :=
  st ← load_store store_p;
  if write_lock st then ub
  else store store_p (OStore (Store (syscall_user_map st) (syscall_program_map st) true)).

Definition mutex_unlock (store_p : loc) : K unit :=
  st ← load_store store_p;
  if write_lock st
  then store store_p (OStore (Store (syscall_user_map st) (syscall_program_map st) false))
  else ub.

Definition rcu_dereference (store_p : loc) (f : map_field) : K loc :=
  st ← load_store store_p; deref (get_field f st).

Definition rcu_assign_pointer (store_p : loc) (f : map_field) (p : ptr) : K unit :=
  st ← load_store store_p; store store_p (OStore (set_field f p st)).

Definition init_sysThrot_store : K (Z * ptr) :=
  st ← kmalloc OUninit;
  match st with
  | None => mret (- ENOMEM, None)
  | Some st =>
      user_map ← create_map;
      program_map ← create_map;
      match user_map, program_map with
      | Some _, Some _ =>
          store st (OStore (Store user_map program_map false)) ;;
          mret (0, Some st)
      | _, _ =>
          destroy_map user_map ;; destroy_map program_map ;;
          kfree (Some st) ;; mret (- ENOMEM, Some st)
      end
  end.

Definition destroy_sysThrot_store (store_p : ptr) : K Z :=
  match store_p with
  | None => mret (- EINVAL)
  | Some store_p =>
      mutex_lock store_p ;;
      st ← load_store store_p;
      rcu_assign_pointer store_p UserMap None ;;
      rcu_assign_pointer store_p ProgramMap None ;;
      mutex_unlock store_p ;;
      destroy_map (syscall_user_map st) ;;
      destroy_map (syscall_program_map st) ;;
      kfree (Some store_p) ;; mret 0
  end.

(** What distinguishes the user half of the store from the program half:
    the field, the key, the comparison and the copy of an item. *)
Class ItemOps (X : Type) := {
  field : map_field;
  getKey : loc -> K Z;
  compare : loc -> loc -> K bool;
  clone_item : loc -> K ptr;
}.
Arguments field X {_}.
Arguments getKey X {_} _.
Arguments compare X {_} _ _.
Arguments clone_item X {_} _.

(** User ids and program names. *)
Definition user := Z.
Definition program := list Z.

#[export] Instance user_ops : ItemOps user := {|
  field := UserMap; getKey := getKeyFromUserId;
  compare := compareUser; clone_item := cloneUser |}.

#[export] Instance program_ops : ItemOps program := {|
  field := ProgramMap; getKey := getKeyFromProgramName;
  compare := compareProgram; clone_item := cloneProgram |}.

(** The common body of [add_user_to_store] and [add_program_to_store];
    [synchronize_rcu] only waits for readers, and changes no memory. *)
Definition add_to_store (X : Type) `{ItemOps X} (store_p id : loc) : K Z :=
  key ← getKey X id;
  mutex_lock store_p ;;
  old_map ← rcu_dereference store_p (field X);
  c ← contains old_map key id (compare X);
  if c =? 0 then mutex_unlock store_p ;; mret (- EEXIST) else
  new_map ← clone_map old_map (clone_item X);
  match new_map with
  | None => mutex_unlock store_p ;; mret (- ENOMEM)
  | Some new_map =>
      id' ← clone_item X id;
      match id' with
      | None => destroy_map (Some new_map) ;; mutex_unlock store_p ;; mret (- ENOMEM)
      | Some id' =>
          r ← insert new_map key id' (compare X);
          if negb (r =? 0) then
            destroy_map (Some new_map) ;; mutex_unlock store_p ;; mret (- ENOSPC)
          else
            rcu_assign_pointer store_p (field X) (Some new_map) ;;
            mutex_unlock store_p ;;
            destroy_map (Some old_map) ;; mret 0
      end
  end.

Definition remove_from_store (X : Type) `{ItemOps X} (store_p id : loc) : K Z :=
  key ← getKey X id;
  mutex_lock store_p ;;
  old_map ← rcu_dereference store_p (field X);
  c ← contains old_map key id (compare X);
  if negb (c =? 0) then mutex_unlock store_p ;; mret (- EINVAL) else
  new_map ← clone_map old_map (clone_item X);
  match new_map with
  | None => mutex_unlock store_p ;; mret (- ENOMEM)
  | Some new_map =>
      r ← remove new_map key id (compare X);
      if negb (r =? 0) then
        destroy_map (Some new_map) ;; mutex_unlock store_p ;; mret (- EINVAL)
      else
        rcu_assign_pointer store_p (field X) (Some new_map) ;;
        mutex_unlock store_p ;;
        destroy_map (Some old_map) ;; mret 0
  end.

Definition find_in_store (X : Type) `{ItemOps X} (store_p id : loc) : K Z :=
  key ← getKey X id;
  map ← rcu_dereference store_p (field X);
  contains map key id (compare X).

Definition add_user_to_store := add_to_store user.
Definition remove_user_from_store := remove_from_store user.
Definition find_user_in_store := find_in_store user.
Definition add_program_to_store := add_to_store program.
Definition remove_program_from_store := remove_from_store program.
Definition find_program_in_store := find_in_store program.

(** ** Enumeration: [user_array[count++] = ...] into an array of fixed size,
    a write past its end being undefined behaviour. *)

Definition array_write {A} (arr : list A) (count : nat) (x : A) : K (list A * nat) :=
  if decide (count < length arr)%nat
  then mret (<[count := x]> arr, S count)
  else ub.

Definition emit_user (m : CuckooHash) (s : side) (i : nat) (acc : list Z * nat)
    : K (list Z * nat) :=
  if occupied (slot_at m s i) then
    p ← deref (item (slot_at m s i)); z ← load_int p;
    array_write acc.1 acc.2 z
  else mret acc.

Fixpoint users_loop (m : CuckooHash) (ids : list nat) (acc : list Z * nat) : K (list Z * nat) :=
  match ids with
  | [] => mret acc
  | i :: ids =>
      acc ← emit_user m T0 i acc; acc ← emit_user m T1 i acc; users_loop m ids acc
  end.

Definition get_all_users_from_store (store_p : loc) (user_array : list Z) : K (list Z * nat) :=
  map ← rcu_dereference store_p UserMap;
  m ← load_map map;
  users_loop m (seq 0 TABLE_SIZE) (user_array, O).

(** [strscpy(dst, src, TASK_COMM_LEN)] keeps at most [TASK_COMM_LEN - 1] bytes. *)
Definition strscpy (src : list Z) (size : nat) : list Z := take (size - 1) src.

Definition emit_program (m : CuckooHash) (s : side) (i : nat) (acc : list (list Z) * nat)
    : K (list (list Z) * nat) :=
  if occupied (slot_at m s i) then
    p ← deref (item (slot_at m s i)); name ← load_str p;
    array_write acc.1 acc.2 (strscpy name TASK_COMM_LEN)
  else mret acc.

Fixpoint programs_loop (m : CuckooHash) (ids : list nat) (acc : list (list Z) * nat)
    : K (list (list Z) * nat) :=
  match ids with
  | [] => mret acc
  | i :: ids =>
      if decide (acc.2 < MAX_STORE_PROGRAMS)%nat then
        acc ← emit_program m T0 i acc;
        acc ← (if decide (acc.2 < MAX_STORE_PROGRAMS)%nat
               then emit_program m T1 i acc else mret acc);
        programs_loop m ids acc
      else mret acc
  end.

Definition get_all_programs_from_store (store_p : loc) (program_array : list (list Z))
    : K (list (list Z) * nat) :=
  map ← rcu_dereference store_p ProgramMap;
  m ← load_map map;
  programs_loop m (seq 0 TABLE_SIZE) (program_array, O).
