(* ===== verification/StoreProofs.v ===== *)
(** * Cuckoo maps: invariant and specifications of the map operations

    The first half is about one map as a value: where entries sit
    ([placed]) and which entries there are ([has]).  The second half adds
    the heap the entries point into: what the entries are ([map_ok],
    [member]), and the specification of each operation of
    [src/sysThrot_store.c] on a map, proved for every outcome of the
    allocator. *)

From stdpp Require Import prelude gmap list.
From S2P Require Import Prelude Kernel Store.

(** ** Placement *)

(** Slot [(s, i)] holds the item at [p] under key [k]. *)
Definition ptr_at (m : CuckooHash) (s : side) (i : nat) (k : Z) (p : loc) : Prop :=
  tbl m s !! i = Some (Slot (Some p) k true).

(** The map has an entry with key [k] and item [p]. *)
Definition has (m : CuckooHash) (k : Z) (p : loc) : Prop := exists s i, ptr_at m s i k p.

(** Both tables have [TABLE_SIZE] slots, an occupied slot has an item and
    sits at the index its key hashes to, and no item is in two slots. *)
Record placed (m : CuckooHash) : Prop := {
  pl_len s : length (tbl m s) = TABLE_SIZE;
  pl_slot s i sl : tbl m s !! i = Some sl -> occupied sl = true ->
    is_Some (item sl) /\ hash s (skey sl) = i;
  pl_inj s i k p s' i' k' : ptr_at m s i k p -> ptr_at m s' i' k' p -> s = s' /\ i = i';
}.

Create HintDb store.

Lemma land_mask_range x : 0 <= Z.land x MASK < Z.of_nat TABLE_SIZE.
Proof.
  unfold MASK, TABLE_SIZE. change 127 with (Z.ones 7).
  rewrite Z.land_ones by lia. apply Z.mod_pos_bound. lia.
Qed.

Lemma hash_lt s k : (hash s k < TABLE_SIZE)%nat.
Proof.
  unfold hash, hash1, hash2. cbv zeta.
  destruct s; match goal with |- context [Z.land ?x MASK] =>
    pose proof (land_mask_range x) end; unfold TABLE_SIZE in *; lia.
Qed.

#[local] Opaque hash.
#[local] Arguments set_slot : simpl never.
#[local] Arguments slot_at : simpl never.

Lemma tbl_set_slot m s i x s' :
  tbl (set_slot m s i x) s' = if decide (s = s') then <[i := x]> (tbl m s) else tbl m s'.
Proof. by destruct s, s'. Qed.

Lemma lookup_set_slot_eq m s i x :
  (i < length (tbl m s))%nat -> tbl (set_slot m s i x) s !! i = Some x.
Proof. intros. rewrite tbl_set_slot, decide_True by done. by apply list_lookup_insert_eq. Qed.

Lemma lookup_set_slot_ne m s i x s' i' :
  (s, i) <> (s', i') -> tbl (set_slot m s i x) s' !! i' = tbl m s' !! i'.
Proof.
  intros Hne. rewrite tbl_set_slot. case_decide; [|done]. subst.
  apply list_lookup_insert_ne. congruence.
Qed.

Lemma length_set_slot m s i x s' : length (tbl (set_slot m s i x) s') = length (tbl m s').
Proof. rewrite tbl_set_slot. case_decide; [subst; apply length_insert|done]. Qed.

Lemma set_slot_set_slot m s i x y : set_slot (set_slot m s i x) s i y = set_slot m s i y.
Proof. destruct s; unfold set_slot; simpl; by rewrite list_insert_insert_eq. Qed.

Lemma slot_at_lookup m s i sl : tbl m s !! i = Some sl -> slot_at m s i = sl.
Proof. unfold slot_at. by intros ->. Qed.

Lemma lookup_slot_at m s i :
  (i < length (tbl m s))%nat -> tbl m s !! i = Some (slot_at m s i).
Proof. intros [sl Hsl]%lookup_lt_is_Some. by rewrite (slot_at_lookup _ _ _ _ Hsl). Qed.

Lemma set_slot_same m s i : (i < length (tbl m s))%nat -> set_slot m s i (slot_at m s i) = m.
Proof.
  intros Hi. pose proof (lookup_slot_at m s i Hi) as Hl.
  destruct m as [a b], s; unfold set_slot; simpl in *; by rewrite list_insert_id.
Qed.

(** The slot a key hashes to is in range. *)
Lemma hash_in_range m s k : placed m -> (hash s k < length (tbl m s))%nat.
Proof. intros Hp. rewrite (pl_len _ Hp). apply hash_lt. Qed.
#[export] Hint Resolve hash_in_range : store.

Lemma placed_slot_ptr m s i : placed m -> occupied (slot_at m s i) = true ->
  exists k p, slot_at m s i = Slot (Some p) k true /\ ptr_at m s i k p.
Proof.
  intros Hp Ho. unfold slot_at in *. destruct (tbl m s !! i) as [sl|] eqn:E; [|done].
  simpl in *. destruct (pl_slot _ Hp _ _ _ E Ho) as [[p Hip] _].
  destruct sl as [it k o]; simpl in *; subst. exists k, p. done.
Qed.

Lemma ptr_at_hash m s i k p : placed m -> ptr_at m s i k p -> i = hash s k.
Proof. intros Hp H. by destruct (pl_slot _ Hp _ _ _ H eq_refl) as [_ <-]. Qed.

Lemma ptr_at_range m s i k p : placed m -> ptr_at m s i k p -> (i < TABLE_SIZE)%nat.
Proof. intros Hp H. rewrite <-(pl_len _ Hp s). by eapply lookup_lt_Some. Qed.

(** Entries of a map after a slot was overwritten by an entry. *)
Lemma ptr_at_set m s i k p s' i' k' p' :
  (i < length (tbl m s))%nat ->
  ptr_at (set_slot m s i (Slot (Some p) k true)) s' i' k' p' <->
    ((s, i) = (s', i') /\ k' = k /\ p' = p) \/ ((s, i) <> (s', i') /\ ptr_at m s' i' k' p').
Proof.
  intros Hi. unfold ptr_at. destruct (decide ((s, i) = (s', i'))) as [[= -> ->]|Hne].
  - rewrite lookup_set_slot_eq by done. naive_solver.
  - rewrite lookup_set_slot_ne by done. naive_solver.
Qed.

Lemma ptr_at_clear m s i sl s' i' k' p' :
  (i < length (tbl m s))%nat -> occupied sl = false ->
  ptr_at (set_slot m s i sl) s' i' k' p' <-> (s, i) <> (s', i') /\ ptr_at m s' i' k' p'.
Proof.
  intros Hi Ho. unfold ptr_at. destruct (decide ((s, i) = (s', i'))) as [[= -> ->]|Hne].
  - rewrite lookup_set_slot_eq by done. destruct sl; simpl in *; naive_solver.
  - rewrite lookup_set_slot_ne by done. naive_solver.
Qed.

(** Writing an entry with a fresh item into the slot its key hashes to keeps
    the placement invariant. *)
Lemma placed_put m s k p :
  placed m -> (forall k', ~ has m k' p) ->
  placed (set_slot m s (hash s k) (Slot (Some p) k true)).
Proof.
  intros Hp Hf. pose proof (hash_in_range m s k Hp) as Hi. split.
  - intros s'. rewrite length_set_slot. apply Hp.
  - intros s' i sl. destruct (decide ((s, hash s k) = (s', i))) as [[= -> <-]|Hne].
    + rewrite lookup_set_slot_eq by done. intros [= <-] _. simpl. eauto.
    + rewrite lookup_set_slot_ne by done. apply Hp.
  - intros s1 i1 k1 q s2 i2 k2.
    rewrite !ptr_at_set by done.
    intros [([= -> <-] & -> & ->)|[Hn1 H1]] [([= -> <-] & -> & Hq)|[Hn2 H2]].
    + done.
    + destruct (Hf k2). by exists s2, i2.
    + subst q. destruct (Hf k1). by exists s1, i1.
    + by eapply (pl_inj _ Hp).
Qed.

Lemma has_put_free m s k p k' p' :
  placed m -> occupied (slot_at m s (hash s k)) = false ->
  has (set_slot m s (hash s k) (Slot (Some p) k true)) k' p' <->
    has m k' p' \/ (k' = k /\ p' = p).
Proof.
  intros Hp Ho. pose proof (hash_in_range m s k Hp) as Hi. unfold has.
  setoid_rewrite (fun s' i' => ptr_at_set m s (hash s k) k p s' i' k' p' Hi). split.
  - naive_solver.
  - intros [(s' & i' & H)|[-> ->]]; [|by eauto 6].
    exists s', i'. right. split; [|done]. intros [= <- <-].
    rewrite (slot_at_lookup _ _ _ _ H) in Ho. done.
Qed.

Lemma has_put_swap m s k p tk tp k' p' :
  placed m -> slot_at m s (hash s k) = Slot (Some tp) tk true ->
  (has (set_slot m s (hash s k) (Slot (Some p) k true)) k' p' \/ (k' = tk /\ p' = tp)) <->
    (has m k' p' \/ (k' = k /\ p' = p)).
Proof.
  intros Hp Ho. pose proof (hash_in_range m s k Hp) as Hi.
  assert (ptr_at m s (hash s k) tk tp) as Ht.
  { unfold ptr_at. rewrite lookup_slot_at by done. by rewrite Ho. }
  unfold has.
  setoid_rewrite (fun s' i' => ptr_at_set m s (hash s k) k p s' i' k' p' Hi). split.
  - intros [(s' & i' & [(_ & -> & ->)|[_ H]])|[-> ->]]; eauto.
  - intros [(s' & i' & H)|[-> ->]]; [|by eauto 7].
    destruct (decide ((s, hash s k) = (s', i'))) as [[= <- <-]|Hne].
    + right. unfold ptr_at in H, Ht. naive_solver.
    + left. exists s', i'. auto.
Qed.

Lemma swap_fresh m s k p tk tp k' :
  placed m -> slot_at m s (hash s k) = Slot (Some tp) tk true -> tp <> p ->
  ~ has (set_slot m s (hash s k) (Slot (Some p) k true)) k' tp.
Proof.
  intros Hp Ho Hne (s' & i' & H). pose proof (hash_in_range m s k Hp) as Hi.
  apply ptr_at_set in H; [|done]. destruct H as [(_ & _ & ?)|[Hn H]]; [done|].
  assert (ptr_at m s (hash s k) tk tp) as Ht.
  { unfold ptr_at. rewrite lookup_slot_at by done. by rewrite Ho. }
  by destruct (pl_inj _ Hp _ _ _ _ _ _ _ Ht H) as [<- <-].
Qed.

(** The kick loop loses and duplicates nothing: what is in the map
    afterwards, with the left-over item if there is one, is what was there
    before with the new entry. *)
Definition insert_loop_post (m : CuckooHash) (k : Z) (p : loc)
    (m' : CuckooHash) (left : option ptr) : Prop :=
  placed m' /\
  match left with
  | None => forall k' p', has m' k' p' <-> has m k' p' \/ (k' = k /\ p' = p)
  | Some lp => exists tk tp, lp = Some tp /\ (forall k', ~ has m' k' tp) /\
      forall k' p', (has m' k' p' \/ (k' = tk /\ p' = tp)) <->
                    (has m k' p' \/ (k' = k /\ p' = p))
  end.

Lemma insert_loop_ok fuel m k p :
  placed m -> (forall k', ~ has m k' p) ->
  let r := insert_loop fuel m k (Some p) in insert_loop_post m k p r.1 r.2.
Proof.
  revert m k p. induction fuel as [|fuel IH]; intros m k p Hp Hf; simpl.
  { split; [done|]. exists k, p. done. }
  destruct (occupied (slot_at m T0 (hash T0 k))) eqn:Ho0; simpl.
  2: { split; [by apply placed_put|]. simpl. intros. by apply has_put_free. }
  destruct (placed_slot_ptr _ _ _ Hp Ho0) as (tk & tp & Ht & Hat). rewrite Ht. simpl.
  set (m1 := set_slot m T0 (hash T0 k) (Slot (Some p) k true)).
  assert (placed m1) as Hp1 by by apply placed_put.
  assert (tp <> p) as Hne by (intros ->; apply (Hf tk); by exists T0, (hash T0 k)).
  assert (forall k', ~ has m1 k' tp) as Hf1 by (intros k'; by eapply swap_fresh).
  assert (forall k' p', (has m1 k' p' \/ (k' = tk /\ p' = tp)) <->
    (has m k' p' \/ (k' = k /\ p' = p))) as Hh1 by (intros; by apply has_put_swap).
  destruct (occupied (slot_at m1 T1 (hash T1 tk))) eqn:Ho1; simpl.
  2: { split; [by apply placed_put|]. simpl. intros.
       rewrite has_put_free by done. apply Hh1. }
  destruct (placed_slot_ptr _ _ _ Hp1 Ho1) as (uk & up & Hu & Hau). rewrite Hu. simpl.
  set (m2 := set_slot m1 T1 (hash T1 tk) (Slot (Some tp) tk true)).
  assert (placed m2) as Hp2 by by apply placed_put.
  assert (up <> tp) as Hne2 by (intros ->; apply (Hf1 uk); by exists T1, (hash T1 tk)).
  assert (forall k', ~ has m2 k' up) as Hf2 by (intros k'; by eapply swap_fresh).
  assert (forall k' p', (has m2 k' p' \/ (k' = uk /\ p' = up)) <->
    (has m1 k' p' \/ (k' = tk /\ p' = tp))) as Hh2 by (intros; by apply has_put_swap).
  destruct (IH m2 uk up Hp2 Hf2) as [Hpr Hr]. split; [done|].
  destruct (insert_loop fuel m2 uk (Some up)) as [m' [lp|]]; simpl in *.
  - destruct Hr as (tk' & tp' & -> & Hfr & Hr). exists tk', tp'.
    split; [done|]. split; [done|]. intros. rewrite Hr, Hh2. apply Hh1.
  - intros. rewrite Hr, Hh2. apply Hh1.
Qed.

(** The kick loop gives up only if the first slot it tries is taken. *)
Lemma insert_loop_left m k p : (insert_loop MAX_KICKS m k p).2 <> None ->
  occupied (slot_at m T0 (hash T0 k)) = true.
Proof.
  assert (exists n, MAX_KICKS = S n) as [fuel ->] by by eexists.
  simpl. by destruct (occupied (slot_at m T0 (hash T0 k))).
Qed.
#[local] Arguments insert_loop : simpl never.

(** Clearing a slot removes its entry and no other. *)
Lemma placed_clear m s i sl :
  placed m -> occupied sl = false -> (i < TABLE_SIZE)%nat -> placed (set_slot m s i sl).
Proof.
  intros Hp Ho Hi. rewrite <-(pl_len _ Hp s) in Hi. split.
  - intros s'. rewrite length_set_slot. apply Hp.
  - intros s' i' sl'. destruct (decide ((s, i) = (s', i'))) as [[= -> <-]|Hne].
    + rewrite lookup_set_slot_eq by done. intros [= <-]. congruence.
    + rewrite lookup_set_slot_ne by done. apply Hp.
  - intros s1 i1 k1 q s2 i2 k2. rewrite !ptr_at_clear by done.
    intros [_ H1] [_ H2]. by eapply (pl_inj _ Hp).
Qed.

Lemma has_clear m s i sl k p k' p' :
  placed m -> occupied sl = false -> ptr_at m s i k p ->
  has (set_slot m s i sl) k' p' <-> has m k' p' /\ p' <> p.
Proof.
  intros Hp Ho Hat. pose proof (ptr_at_range _ _ _ _ _ Hp Hat) as Hi.
  rewrite <-(pl_len _ Hp s) in Hi. unfold has.
  setoid_rewrite (fun s' i' => ptr_at_clear m s i sl s' i' k' p' Hi Ho). split.
  - intros (s' & i' & Hne & H). split; [eauto|]. intros ->.
    by destruct (pl_inj _ Hp _ _ _ _ _ _ _ Hat H) as [<- <-].
  - intros [(s' & i' & H) Hne]. exists s', i'. split; [|done]. intros [= <- <-].
    unfold ptr_at in *. congruence.
Qed.

Lemma tbl_zero_map s : tbl zero_map s = replicate TABLE_SIZE zero_slot.
Proof. by destruct s. Qed.

Lemma slot_at_zero_map s i : slot_at zero_map s i = zero_slot.
Proof.
  unfold slot_at. rewrite tbl_zero_map.
  destruct (replicate _ _ !! i) eqn:E; [|done]. by apply lookup_replicate in E as [-> _].
Qed.

Lemma has_zero_map k p : ~ has zero_map k p.
Proof.
  intros (s & i & H). unfold ptr_at in H. rewrite tbl_zero_map in H.
  by apply lookup_replicate in H as [? _].
Qed.

Lemma placed_zero_map : placed zero_map.
Proof.
  split.
  - intros s. rewrite tbl_zero_map. apply length_replicate.
  - intros s i sl. rewrite tbl_zero_map. by intros [-> _]%lookup_replicate.
  - intros s i k p s' i' k' H. edestruct has_zero_map. by exists s, i.
Qed.

(** ** Items *)

(** What the map code relies on about the items it is given: the interface
    the two kinds of items implement. *)
Class ItemLaws (X : Type) `{ItemOps X} := {
  item_eq_dec :: EqDecision X;
  enc : X -> obj;
  key_of : X -> Z;
  enc_inj x y : enc x = enc y -> x = y;
  enc_not_map x m : enc x <> OMap m;
  enc_not_store x st : enc x <> OStore st;
  getKey_ok l x (σ : mem obj) : heap σ !! l = Some (enc x) ->
    getKey X l σ = Some (key_of x, σ);
  compare_ok a b x y (σ : mem obj) :
    heap σ !! a = Some (enc x) -> heap σ !! b = Some (enc y) ->
    compare X a b σ = Some (bool_decide (x = y), σ);
  clone_ok l x Q (σ : mem obj) : mem_wf σ -> heap σ !! l = Some (enc x) ->
    (forall o, Q None (Mem (heap σ) (next σ) o)) ->
    (forall o, Q (Some (next σ)) (Mem (<[next σ := enc x]> (heap σ)) (Pos.succ (next σ)) o)) ->
    wp (clone_item X l) Q σ;
  getKey_lucky l : ensures (getKey X l) (fun _ => True);
  compare_lucky a b : ensures (compare X a b) (fun _ => True);
  clone_lucky l : ensures (clone_item X l) is_Some;
}.
#[export] Hint Resolve getKey_lucky compare_lucky clone_lucky : lucky.

Lemma load_int_lucky l : ensures (load_int l) (fun _ => True).
Proof. unfold load_int. by repeat ens_step. Qed.

Lemma load_str_lucky l : ensures (load_str l) (fun _ => True).
Proof. unfold load_str. by repeat ens_step. Qed.
#[export] Hint Resolve load_int_lucky load_str_lucky : lucky.

Lemma wp_eq {A} (m : K A) a σ' Q σ : m σ = Some (a, σ') -> Q a σ' -> wp m Q σ.
Proof. unfold wp. by intros ->. Qed.

#[export, refine] Instance user_laws : ItemLaws user := {|
  enc := OInt; key_of := fun x => x |}.
Proof.
  - by intros x y [=].
  - done.
  - done.
  - intros l x σ Hl. simpl. unfold getKeyFromUserId, load_int, load, mbind, M_bind. by rewrite Hl.
  - intros a b x y σ Ha Hb. simpl.
    unfold compareUser, load_int, load, mbind, M_bind. rewrite Ha. simpl. rewrite Hb. simpl.
    unfold mret, M_ret. do 2 f_equal. apply eq_true_iff_eq.
    by rewrite Z.eqb_eq, bool_decide_eq_true.
  - intros l x Q σ Hwf Hl H0 H1. simpl. unfold cloneUser.
    apply wp_bind, wp_kmalloc; intros o; [apply wp_ret, H0|].
    apply wp_bind. unfold load_int. apply wp_bind. eapply wp_load.
    { simpl. rewrite lookup_insert_ne; [done|]. intros <-.
      by rewrite mem_wf_fresh in Hl. }
    apply wp_ret, wp_bind. eapply wp_store; [simpl; apply lookup_insert_eq|].
    apply wp_ret. simpl. rewrite insert_insert_eq. apply H1.
  - intros l. simpl. unfold getKeyFromUserId. by repeat ens_step.
  - intros a b. simpl. unfold compareUser. by repeat ens_step.
  - intros l. simpl. unfold cloneUser. ens_step. ens_step; [|by destruct H]. by repeat ens_step.
Defined.

#[export, refine] Instance program_laws : ItemLaws program := {|
  enc := OStr; key_of := program_key |}.
Proof.
  - by intros x y [=].
  - done.
  - done.
  - intros l x σ Hl. simpl.
    unfold getKeyFromProgramName, load_str, load, mbind, M_bind. by rewrite Hl.
  - intros a b x y σ Ha Hb. simpl.
    unfold compareProgram, load_str, load, mbind, M_bind. rewrite Ha. simpl. by rewrite Hb.
  - intros l x Q σ Hwf Hl H0 H1. simpl. unfold cloneProgram.
    apply wp_bind. unfold load_str. apply wp_bind. eapply wp_load; [done|].
    apply wp_ret, wp_kmalloc; [apply H0|apply H1].
  - intros l. simpl. unfold getKeyFromProgramName. by repeat ens_step.
  - intros a b. simpl. unfold compareProgram. by repeat ens_step.
  - intros l. simpl. unfold cloneProgram. by repeat ens_step.
Defined.

(** ** Freeing a map *)

(** [h'] is [h] without the objects at the locations in [P]. *)
Definition minus (h h' : gmap loc obj) (P : loc -> Prop) : Prop :=
  forall l, (P l -> h' !! l = None) /\ (~ P l -> h' !! l = h !! l).

#[export] Instance minus_proper :
  Proper (eq ==> eq ==> pointwise_relation loc iff ==> iff) minus.
Proof.
  intros h ? <- h' ? <- P Q HPQ. unfold minus, pointwise_relation in *.
  split; intros Hm l; specialize (Hm l); specialize (HPQ l); tauto.
Qed.

Lemma minus_delete h h' P l :
  minus h h' P -> ~ P l -> minus h (delete l h') (fun l' => P l' \/ l' = l).
Proof.
  intros Hm Hl l'. destruct (Hm l') as [H1 H2]. split.
  - intros [?| ->]; [|by rewrite lookup_delete_eq].
    rewrite lookup_delete_ne; [by apply H1|]. by intros ->.
  - intros Hn. rewrite lookup_delete_ne by (intros ->; tauto). apply H2. tauto.
Qed.

Lemma wp_load_map l m Q (σ : mem obj) : heap σ !! l = Some (OMap m) -> Q m σ -> wp (load_map l) Q σ.
Proof. intros Hl HQ. unfold load_map. apply wp_bind. by eapply wp_load. Qed.

Lemma wp_load_store l st Q (σ : mem obj) :
  heap σ !! l = Some (OStore st) -> Q st σ -> wp (load_store l) Q σ.
Proof. intros Hl HQ. unfold load_store. apply wp_bind. by eapply wp_load. Qed.

Lemma seq_split_fresh n pre i post :
  seq 0 n = pre ++ i :: post -> i ∉ pre /\ (i < n)%nat.
Proof.
  intros E. split.
  - pose proof (NoDup_seq 0 n) as Hnd. rewrite E in Hnd.
    apply NoDup_app in Hnd as (_ & Hd & _). intros Hi. apply (Hd _ Hi). left.
  - assert (i ∈ seq 0 n) as Hi by (rewrite E; set_solver).
    apply elem_of_seq in Hi. lia.
Qed.

Section destroy.
Context (mp : loc) (m : CuckooHash) (σ0 : mem obj).
Context (Hp : placed m) (Hmp : heap σ0 !! mp = Some (OMap m)).
Context (Hlive : forall k p, has m k p -> is_Some (heap σ0 !! p) /\ p <> mp).

(** The items of the slots in [D]. *)
Definition freed (D : side -> nat -> Prop) (l : loc) : Prop :=
  exists s j k, D s j /\ ptr_at m s j k l.

Definition destroying (D : side -> nat -> Prop) (σ : mem obj) : Prop :=
  next σ = next σ0 /\ minus (heap σ0) (heap σ) (freed D).

Lemma destroying_map D σ : destroying D σ -> heap σ !! mp = Some (OMap m).
Proof.
  intros [_ Hm]. destruct (Hm mp) as [_ Hs]. rewrite Hs; [done|].
  intros (s & j & k & _ & H). destruct (Hlive k mp) as [_ []]; [|done]. by exists s, j.
Qed.

Lemma wp_free_slot D D' s i σ :
  destroying D σ -> ~ D s i ->
  (forall s' j, D' s' j <-> D s' j \/ (s' = s /\ j = i)) ->
  wp (free_slot mp s i) (fun _ => destroying D') σ.
Proof.
  intros HD Hni HD'. unfold free_slot. apply wp_bind.
  eapply wp_load_map; [by eapply destroying_map|]. destruct HD as [Hn Hm].
  destruct (occupied (slot_at m s i)) eqn:Ho.
  - destruct (placed_slot_ptr _ _ _ Hp Ho) as (k & p & Hsl & Hat). rewrite Hsl. simpl.
    assert (~ freed D p) as Hnf.
    { intros (s' & j & k' & Hd & Hat'). by destruct (pl_inj _ Hp _ _ _ _ _ _ _ Hat Hat') as [<- <-]. }
    destruct (Hlive k p) as [[v Hv] _]; [by exists s, i|].
    eapply wp_kfree; [by rewrite (proj2 (Hm p) Hnf)|]. split; [done|]. simpl.
    eapply minus_proper; [done|done| |by apply minus_delete].
    intros l. unfold freed. split.
    + intros (s' & j & k' & [Hd|[-> ->]]%HD' & Hat'); [eauto 6|].
      right. unfold ptr_at in *. congruence.
    + intros [(s' & j & k' & Hd & Hat')| ->].
      * exists s', j, k'. rewrite HD'. auto.
      * exists s, i, k. rewrite HD'. auto.
  - apply wp_ret. split; [done|]. eapply minus_proper; [done|done| |done].
    intros l. unfold freed. split.
    + intros (s' & j & k' & [Hd|[-> ->]]%HD' & Hat'); [eauto 6|].
      rewrite (slot_at_lookup _ _ _ _ Hat') in Ho. done.
    + intros (s' & j & k' & Hd & Hat'). exists s', j, k'. rewrite HD'. auto.
Qed.

(** [destroy_map] frees the map and its items, each once, and nothing else. *)
Lemma wp_destroy_map Q :
  (forall σ, next σ = next σ0 ->
     minus (heap σ0) (heap σ) (fun l => (exists k, has m k l) \/ l = mp) -> Q tt σ) ->
  wp (destroy_map (Some mp)) Q σ0.
Proof.
  intros HQ. unfold destroy_map. apply wp_bind.
  apply (wp_for_each _ (fun pre => destroying (fun _ j => j ∈ pre))).
  - intros pre i post σ [Hi Hlt]%seq_split_fresh HI. apply wp_bind.
    eapply wp_mono.
    { apply (wp_free_slot _ (fun s j => j ∈ pre \/ (s = T0 /\ j = i)) _ _ _ HI); [done|].
      intros s' j. naive_solver. }
    simpl. intros _ σ' HI'. apply (wp_free_slot _ _ _ _ _ HI'); [naive_solver|].
    intros s' j. destruct s'; set_solver.
  - intros σ HI. pose proof (destroying_map _ _ HI) as Hl. destruct HI as [Hn Hm].
    eapply wp_kfree; [done|]. apply HQ; [done|]. simpl.
    eapply minus_proper; [done|done| |apply minus_delete; [done|]].
    + intros l. unfold freed, has. split.
      * intros [(k & s & i & Hat)| ->]; [left|by right].
        exists s, i, k. split; [|done]. apply elem_of_seq.
        pose proof (ptr_at_range _ _ _ _ _ Hp Hat). lia.
      * naive_solver.
    + intros (s & j & k & _ & Hat). destruct (Hlive k mp) as [_ []]; [|done]. by exists s, j.
  - split; [done|]. intros l. split; [|done]. intros (s & j & k & Hj & _). set_solver.
Qed.
End destroy.

(** ** Maps with their items *)

Section item.
Context {X : Type} `{ItemLaws X}.
Implicit Types (h : gmap loc obj) (m : CuckooHash) (σ : mem obj) (x : X).

(** The invariant of a map in a heap: placement, every entry points to a
    live item filed under that item's key, and no item occurs twice. *)
Record map_ok h m : Prop := {
  mo_placed : placed m;
  mo_item k p : has m k p -> exists x, h !! p = Some (enc x) /\ k = key_of x;
  mo_uniq k p k' p' x : has m k p -> has m k' p' ->
    h !! p = Some (enc x) -> h !! p' = Some (enc x) -> p = p';
}.

Definition member h m x : Prop := exists k p, has m k p /\ h !! p = Some (enc x).

Lemma map_ok_live h m mp : map_ok h m -> h !! mp = Some (OMap m) ->
  forall k p, has m k p -> is_Some (h !! p) /\ p <> mp.
Proof.
  intros Hok Hmp k p (x & Hx & _)%(mo_item _ _ Hok). split; [eauto|].
  intros ->. rewrite Hmp in Hx. injection Hx as Hx. by apply (enc_not_map x m).
Qed.

(** A member sits in one of the two slots its key hashes to. *)
Lemma member_slot h m x : map_ok h m ->
  member h m x <-> exists s k p, ptr_at m s (hash s (key_of x)) k p /\ h !! p = Some (enc x).
Proof.
  intros Hok. split.
  - intros (k & p & (s & i & Hat) & Hx). exists s, k, p. split; [|done].
    destruct (mo_item _ _ Hok k p) as (x' & Hx' & ->); [by exists s, i|].
    rewrite Hx in Hx'. injection Hx' as ->%enc_inj.
    by rewrite <-(ptr_at_hash _ _ _ _ _ (mo_placed _ _ Hok) Hat).
  - intros (s & k & p & Hat & Hx). exists k, p. split; [|done]. by eexists s, _.
Qed.

(** The invariant only depends on the heap at the items. *)
Lemma map_ok_frame h h' m :
  (forall k p, has m k p -> h' !! p = h !! p) -> map_ok h m -> map_ok h' m.
Proof.
  intros Hf Hok. split; [apply Hok| |].
  - intros k p Hh. rewrite (Hf _ _ Hh). by apply Hok.
  - intros k p k' p' x Hh Hh'. rewrite (Hf _ _ Hh), (Hf _ _ Hh'). by eapply Hok.
Qed.

Lemma member_frame h h' m x :
  (forall k p, has m k p -> h' !! p = h !! p) -> member h' m x <-> member h m x.
Proof.
  intros Hf. unfold member. split; intros (k & p & Hh & Hx); exists k, p;
    specialize (Hf _ _ Hh); split; congruence.
Qed.

Lemma probe_ok mp m s i it x σ :
  map_ok (heap σ) m -> heap σ !! mp = Some (OMap m) -> heap σ !! it = Some (enc x) ->
  exists b, probe (compare X) mp s i it σ = Some (b, σ) /\
    (b = true <-> exists k p, ptr_at m s i k p /\ heap σ !! p = Some (enc x)).
Proof.
  intros Hok Hmp Hit. unfold probe, load_map, load, mbind, M_bind. rewrite Hmp. simpl.
  destruct (occupied (slot_at m s i)) eqn:Ho.
  - destruct (placed_slot_ptr _ _ _ (mo_placed _ _ Hok) Ho) as (k & p & Hsl & Hat).
    rewrite Hsl. simpl. destruct (mo_item _ _ Hok k p) as (y & Hy & ->); [by exists s, i|].
    exists (bool_decide (y = x)). split; [by apply compare_ok|].
    rewrite bool_decide_eq_true. split; [intros ->; eauto|].
    intros (k' & p' & Hat' & Hx). unfold ptr_at in *. rewrite Hat in Hat'.
    injection Hat' as <- _. rewrite Hx in Hy. injection Hy as Hy. symmetry. by apply enc_inj.
  - exists false. split; [done|]. split; [done|]. intros (k & p & Hat & _).
    rewrite (slot_at_lookup _ _ _ _ Hat) in Ho. done.
Qed.

(** [contains] decides membership, and changes nothing. *)
Lemma contains_ok mp m it x σ :
  map_ok (heap σ) m -> heap σ !! mp = Some (OMap m) -> heap σ !! it = Some (enc x) ->
  exists c, contains mp (key_of x) it (compare X) σ = Some (c, σ) /\
    ((c = 0 /\ member (heap σ) m x) \/ (c = -1 /\ ~ member (heap σ) m x)).
Proof.
  intros Hok Hmp Hit. unfold contains.
  destruct (probe_ok mp m T0 (hash T0 (key_of x)) it x σ) as (b0 & E0 & Hb0); [done..|].
  destruct (probe_ok mp m T1 (hash T1 (key_of x)) it x σ) as (b1 & E1 & Hb1); [done..|].
  unfold mbind, M_bind. rewrite E0. simpl.
  destruct b0; [|rewrite E1; simpl; destruct b1].
  1,2: exists 0; split; [done|left; split; [done|]]; apply member_slot; naive_solver.
  exists (-1). split; [done|]. right. split; [done|].
  rewrite member_slot by done. intros ([] & k & p & Hat & Hx); naive_solver.
Qed.

(** ** Cloning *)

(** [h] is [h0] with one more map, at [mp], and its items. *)
Record ext h0 h (mp : loc) m : Prop := {
  ext_map : h !! mp = Some (OMap m);
  ext_fresh : h0 !! mp = None;
  ext_sub l v : h0 !! l = Some v -> h !! l = Some v;
  ext_ptr k p : has m k p -> h0 !! p = None;
  ext_dom l : is_Some (h !! l) -> is_Some (h0 !! l) \/ l = mp \/ exists k, has m k l;
}.

(** Destroying the additional map gives the heap back exactly. *)
Lemma ext_destroy h0 mp m Q σ :
  ext h0 (heap σ) mp m -> map_ok (heap σ) m ->
  (forall σ', heap σ' = h0 -> next σ' = next σ -> Q tt σ') ->
  wp (destroy_map (Some mp)) Q σ.
Proof.
  intros He Hok HQ. apply (wp_destroy_map mp m).
  - apply Hok.
  - apply He.
  - apply map_ok_live; [done|apply He].
  - intros σ' Hn Hm. apply HQ; [|done]. apply map_eq. intros l.
    destruct (Hm l) as [H1 H2]. destruct (h0 !! l) as [v|] eqn:El.
    + rewrite H2; [by apply (ext_sub _ _ _ _ He)|].
      intros [[k Hh]| ->]; [by rewrite (ext_ptr _ _ _ _ He _ _ Hh) in El|].
      by rewrite (ext_fresh _ _ _ _ He) in El.
    + destruct (heap σ' !! l) as [v|] eqn:El'; [|done]. exfalso.
      assert (~ ((exists k, has m k l) \/ l = mp)) as Hn' by (intros Hc%H1; congruence).
      specialize (H2 Hn').
      destruct (ext_dom _ _ _ _ He l) as [[? ?]|[?|?]]; [|congruence|tauto..].
      rewrite <-H2. eauto.
Qed.

(** An extension stays one when a fresh object [n] is added and put in the map. *)
Lemma ext_extend h h1 mp m m' k n v :
  ext h h1 mp m -> h1 !! n = None -> (forall k' q, has m' k' q <-> has m k' q \/ (k' = k /\ q = n)) ->
  ext h (<[mp := OMap m']> (<[n := v]> h1)) mp m'.
Proof.
  intros He Hn Hhas. split.
  - apply lookup_insert_eq.
  - apply He.
  - intros l w Hl. pose proof (ext_sub _ _ _ _ He _ _ Hl) as Hl'.
    rewrite !lookup_insert_ne; [done|congruence|]. intros <-. by rewrite (ext_fresh _ _ _ _ He) in Hl.
  - intros k' q [Hh|[-> ->]]%Hhas; [by eapply (ext_ptr _ _ _ _ He)|].
    destruct (h !! n) as [w|] eqn:E; [|done]. apply (ext_sub _ _ _ _ He) in E. congruence.
  - intros l [w Hw]. apply lookup_insert_Some in Hw as [[? _]|[_ Hw]]; [auto|].
    apply lookup_insert_Some in Hw as [[? _]|[_ Hw]].
    + right; right. exists k. apply Hhas. auto.
    + destruct (ext_dom _ _ _ _ He l) as [?|[?|[k' ?]]]; [eauto|auto..|].
      right; right. exists k'. apply Hhas. auto.
Qed.

Section clone.
Context (src dst : loc) (ms : CuckooHash) (h0 : gmap loc obj).
Context (Hsrc : h0 !! src = Some (OMap ms)) (Hms : map_ok h0 ms).

(** The invariant of [clone_map]'s loop: the slots in [D] are copied. *)
Record cloning (D : side -> nat -> Prop) (md : CuckooHash) (σ : mem obj) : Prop := {
  cl_ext : ext h0 (heap σ) dst md;
  cl_placed : placed md;
  cl_todo s i : ~ D s i -> slot_at md s i = zero_slot;
  cl_from s i k q : ptr_at md s i k q ->
    exists p x, ptr_at ms s i k p /\ h0 !! p = Some (enc x) /\ heap σ !! q = Some (enc x);
  cl_done s i k p : D s i -> ptr_at ms s i k p -> exists q, ptr_at md s i k q;
  cl_wf : mem_wf σ;
}.

(** The state after one more item was copied. *)
Lemma cloning_step D D' md σ s i k p x o :
  cloning D md σ -> ~ D s i ->
  (forall s' j, D' s' j <-> D s' j \/ (s' = s /\ j = i)) ->
  ptr_at ms s i k p -> h0 !! p = Some (enc x) ->
  let md' := set_slot md s i (Slot (Some (next σ)) k true) in
  cloning D' md' (Mem (<[dst := OMap md']> (<[next σ := enc x]> (heap σ))) (Pos.succ (next σ)) o).
Proof.
  intros Hc Hni HD' Hat Hx md'. pose proof (mem_wf_fresh _ (cl_wf _ _ _ Hc)) as Hfr.
  destruct Hc as [He Hpl Htodo Hfrom Hdone Hwf].
  assert (i = hash s k) as Hi by (eapply ptr_at_hash; [apply Hms|done]).
  assert (i < length (tbl md s))%nat as Hil by (subst i; auto with store).
  assert (forall l, is_Some (heap σ !! l) -> next σ <> l) as Hnl.
  { intros l [v Hl] <-. congruence. }
  assert (next σ <> dst) as Hnd by (apply Hnl; rewrite (ext_map _ _ _ _ He); eauto).
  assert (occupied (slot_at md s i) = false) as Hocc by by rewrite Htodo.
  assert (forall k' q, has md' k' q <-> has md k' q \/ (k' = k /\ q = next σ)) as Hhas.
  { intros. unfold md'. subst i. by apply has_put_free. }
  assert (forall k', ~ has md k' (next σ)) as Hnew.
  { intros k' (s' & j & Hat'). destruct (Hfrom _ _ _ _ Hat') as (? & y & _ & _ & Hy). congruence. }
  assert (forall k' q, has md k' q -> q <> dst) as Hqd.
  { intros k' q (s' & j & Hat') ->. destruct (Hfrom _ _ _ _ Hat') as (? & y & _ & _ & Hy).
    rewrite (ext_map _ _ _ _ He) in Hy. injection Hy as Hy. symmetry in Hy. by apply enc_not_map in Hy. }
  split; simpl.
  - by eapply (ext_extend _ _ _ md _ k).
  - unfold md'. subst i. by apply placed_put.
  - intros s' j HnD. rewrite HD' in HnD. unfold md', slot_at.
    rewrite lookup_set_slot_ne; [apply Htodo; tauto|]. intros [= -> ->]. tauto.
  - intros s' j k' q Hat'. apply ptr_at_set in Hat'; [|done].
    destruct Hat' as [([= -> ->] & -> & ->)|[Hne Hat']].
    + exists p, x. split; [done|]. split; [done|].
      rewrite lookup_insert_ne by done. apply lookup_insert_eq.
    + destruct (Hfrom _ _ _ _ Hat') as (p' & y & ? & ? & ?). exists p', y.
      split; [done|]. split; [done|]. rewrite !lookup_insert_ne; [done|..].
      * apply Hnl. eauto.
      * intros Heq. symmetry in Heq. revert Heq. apply (Hqd k'). by exists s', j.
  - intros s' j k' p' [Hd|[-> ->]]%HD' Hat'.
    + destruct (Hdone _ _ _ _ Hd Hat') as [q Hq]. exists q. apply ptr_at_set; [done|].
      right. split; [|done]. intros [= -> ->]. tauto.
    + exists (next σ). apply ptr_at_set; [done|]. left. unfold ptr_at in *. naive_solver.
  - refine (mem_wf_store (Mem (<[next σ := enc x]> (heap σ)) (Pos.succ (next σ)) o)
      dst (OMap md) (OMap md') o _ (mem_wf_alloc _ _ _ Hwf)).
    simpl. rewrite lookup_insert_ne by done. apply He.
Qed.

(** One half of the loop body: on success one more slot is copied, on
    allocation failure nothing changed. *)
Lemma wp_clone_slot D D' md s i Q σ :
  cloning D md σ -> ~ D s i -> (i < TABLE_SIZE)%nat ->
  (forall s' j, D' s' j <-> D s' j \/ (s' = s /\ j = i)) ->
  (forall σ', cloning D md σ' -> Q false σ') ->
  (forall md' σ', cloning D' md' σ' -> Q true σ') ->
  wp (clone_slot (clone_item X) src dst s i) Q σ.
Proof.
  intros Hc Hni Hi HD' HQf HQt. unfold clone_slot. apply wp_bind.
  pose proof (cl_ext _ _ _ Hc) as He.
  eapply wp_load_map; [by apply (ext_sub _ _ _ _ He)|].
  pose proof (mo_placed _ _ Hms) as Hpl.
  destruct (occupied (slot_at ms s i)) eqn:Ho.
  2: { apply wp_ret, (HQt md). destruct Hc as [? ? Htodo ? Hdone ?]. split; [done..| |done| |done].
       - intros s' j HnD. apply Htodo. rewrite HD' in HnD. tauto.
       - intros s' j k p [?|[-> ->]]%HD' Hat; [eauto|].
         rewrite (slot_at_lookup _ _ _ _ Hat) in Ho. done. }
  destruct (placed_slot_ptr _ _ _ Hpl Ho) as (k & p & Hsl & Hat). rewrite Hsl. simpl.
  destruct (mo_item _ _ Hms k p) as (x & Hx & _); [by exists s, i|].
  apply wp_bind, wp_deref, wp_bind.
  apply (clone_ok p x); [apply Hc|by apply (ext_sub _ _ _ _ He)|..]; intros o.
  - (* allocation failed: the slot is written as it was *)
    apply wp_bind. eapply wp_load_map; [apply He|]. apply wp_bind. simpl.
    eapply wp_store; [apply He|]. apply wp_ret, HQf. simpl.
    rewrite (cl_todo _ _ _ Hc s i Hni). simpl.
    assert (set_slot md s i (Slot None 0 false) = md) as ->.
    { change (Slot None 0 false) with zero_slot. rewrite <-(cl_todo _ _ _ Hc s i Hni).
      apply set_slot_same. by rewrite (pl_len _ (cl_placed _ _ _ Hc)). }
    rewrite insert_id by apply He. by destruct Hc.
  - (* the copy is stored *)
    pose proof (mem_wf_fresh _ (cl_wf _ _ _ Hc)) as Hfr.
    assert (next σ <> dst) as Hnd.
    { intros E. rewrite E, (ext_map _ _ _ _ He) in Hfr. done. }
    apply wp_bind. eapply wp_load_map; [simpl; rewrite lookup_insert_ne by done; apply He|].
    apply wp_bind. eapply wp_store; [simpl; rewrite lookup_insert_ne by done; apply He|].
    apply wp_bind. eapply wp_load_map; [simpl; apply lookup_insert_eq|].
    apply wp_bind. eapply wp_store; [simpl; apply lookup_insert_eq|].
    apply wp_ret. simpl. rewrite insert_insert_eq, set_slot_set_slot.
    eapply HQt, cloning_step; eauto.
Qed.

Lemma wp_clone_loop ids : forall D md Q σ,
  cloning D md σ -> NoDup ids -> (forall i, i ∈ ids -> (i < TABLE_SIZE)%nat) ->
  (forall s i, i ∈ ids -> ~ D s i) ->
  (forall md' D' σ', cloning D' md' σ' -> Q false σ') ->
  (forall md' σ', cloning (fun s i => D s i \/ i ∈ ids) md' σ' -> Q true σ') ->
  wp (clone_loop (clone_item X) src dst ids) Q σ.
Proof.
  induction ids as [|i ids IH]; intros D md Q σ Hc Hnd Hlt HnD HQf HQt; simpl.
  { apply wp_ret, (HQt md). destruct Hc as [? ? Htodo ? Hdone ?]. split; [done..| |done| |done].
    - intros s i HD. apply Htodo. tauto.
    - intros s i k p [?|?%not_elem_of_nil]; [eauto|done]. }
  apply NoDup_cons in Hnd as [Hi Hnd]. apply wp_bind.
  eapply (wp_clone_slot D (fun s j => D s j \/ (s = T0 /\ j = i)) md T0 i);
    [done|apply HnD; set_solver|apply Hlt; set_solver|done| |].
  { intros σ' Hc'. apply wp_ret. eauto. }
  intros md1 σ1 Hc1. apply wp_bind.
  eapply (wp_clone_slot _ (fun s j => D s j \/ j = i) md1 T1 i); [done|..].
  { intros [?|[? _]]; [|done]. eapply HnD; [|done]. set_solver. }
  { apply Hlt. set_solver. }
  { intros [] j; naive_solver. }
  { intros σ' Hc'. apply wp_ret. eauto. }
  intros md2 σ2 Hc2. eapply (IH _ md2); [done|done|..].
  - intros j Hj. apply Hlt. set_solver.
  - intros s j Hj [?| ->]; [|done]. eapply HnD; [|done]. set_solver.
  - done.
  - intros md' σ' [? ? Htodo ? Hdone ?]. apply (HQt md'). split; [done..| |done| |done].
    + intros s j HD. apply Htodo. set_solver.
    + intros s j k p HD. apply Hdone. set_solver.
Qed.

(** What the finished copy is. *)
Lemma cloning_map_ok D md σ : cloning D md σ -> map_ok (heap σ) md.
Proof.
  intros [? Hpl Htodo Hfrom Hdone ?]. split; [done| |].
  - intros k q (s & i & Hat). destruct (Hfrom _ _ _ _ Hat) as (p & x & Hatp & Hx & Hq).
    exists x. split; [done|]. destruct (mo_item _ _ Hms k p) as (x' & Hx' & ->); [by exists s, i|].
    rewrite Hx in Hx'. injection Hx' as <-%enc_inj. done.
  - intros k q k' q' x (s & i & Hat) (s' & i' & Hat') Hq Hq'.
    destruct (Hfrom _ _ _ _ Hat) as (p & y & Hp & Hy & Hqy).
    destruct (Hfrom _ _ _ _ Hat') as (p' & y' & Hp' & Hy' & Hqy').
    rewrite Hq in Hqy. injection Hqy as <-%enc_inj.
    rewrite Hq' in Hqy'. injection Hqy' as <-%enc_inj.
    assert (p = p') as <- by (eapply (mo_uniq _ _ Hms k p k'); eauto; eexists _, _; done).
    destruct (pl_inj _ (mo_placed _ _ Hms) _ _ _ _ _ _ _ Hp Hp') as [<- <-].
    unfold ptr_at in *. congruence.
Qed.

Lemma cloning_member D md σ x :
  (forall s i, (i < TABLE_SIZE)%nat -> D s i) ->
  cloning D md σ -> member (heap σ) md x <-> member h0 ms x.
Proof.
  intros Hall [? Hpl Htodo Hfrom Hdone ?]. split.
  - intros (k & q & (s & i & Hat) & Hq). destruct (Hfrom _ _ _ _ Hat) as (p & y & Hp & Hy & Hqy).
    rewrite Hq in Hqy. injection Hqy as <-%enc_inj. exists k, p. split; [by exists s, i|done].
  - intros (k & p & (s & i & Hat) & Hx).
    pose proof (ptr_at_range _ _ _ _ _ (mo_placed _ _ Hms) Hat) as Hi.
    destruct (Hdone s i k p) as [q Hq]; [auto..|].
    destruct (Hfrom _ _ _ _ Hq) as (p' & y & Hp' & Hy & Hqy).
    unfold ptr_at in *. rewrite Hat in Hp'. injection Hp' as <-.
    rewrite Hx in Hy. injection Hy as <-%enc_inj.
    exists k, q. split; [by exists s, i|done].
Qed.
End clone.

Lemma ext_destroy_wf h0 mp m Q σ :
  mem_wf σ -> ext h0 (heap σ) mp m -> map_ok (heap σ) m ->
  (forall σ', heap σ' = h0 -> mem_wf σ' -> Q tt σ') ->
  wp (destroy_map (Some mp)) Q σ.
Proof.
  intros Hwf He Hok HQ. eapply ext_destroy; [done..|].
  intros σ' Hh Hn. apply HQ; [done|]. intros l [v Hv]. rewrite Hn. apply Hwf.
  rewrite Hh in Hv. exists v. by apply (ext_sub _ _ _ _ He).
Qed.

(** [clone_map] returns NULL and leaves the heap exactly as it was, or
    returns a fresh map with fresh copies of the same items. *)
Lemma wp_clone_map src ms Q σ :
  mem_wf σ -> heap σ !! src = Some (OMap ms) -> map_ok (heap σ) ms ->
  (forall σ', heap σ' = heap σ -> mem_wf σ' -> Q None σ') ->
  (forall dst md σ', ext (heap σ) (heap σ') dst md -> map_ok (heap σ') md -> mem_wf σ' ->
     (forall x, member (heap σ') md x <-> member (heap σ) ms x) -> Q (Some dst) σ') ->
  wp (clone_map src (clone_item X)) Q σ.
Proof.
  intros Hwf Hsrc Hms HN HS. unfold clone_map, create_map. apply wp_bind, wp_kmalloc; intros o.
  { apply wp_ret, HN; done. }
  apply wp_bind.
  eapply (wp_clone_loop src (next σ) ms (heap σ) Hsrc Hms _ (fun _ _ => False) zero_map).
  - pose proof (mem_wf_fresh _ Hwf) as Hfr. split; simpl.
    + split.
      * apply lookup_insert_eq.
      * done.
      * intros l v Hl. rewrite lookup_insert_ne; [done|]. congruence.
      * by intros k p ?%has_zero_map.
      * intros l [v [[<- _]|[_ Hl]]%lookup_insert_Some]; eauto.
    + apply placed_zero_map.
    + intros. apply slot_at_zero_map.
    + intros s i k q Hat. destruct (has_zero_map k q). by exists s, i.
    + done.
    + by apply mem_wf_alloc.
  - apply NoDup_seq.
  - intros i ?%elem_of_seq. lia.
  - tauto.
  - intros md D σ' Hc. apply wp_bind. eapply ext_destroy_wf.
    + by eapply cl_wf.
    + by eapply cl_ext.
    + by eapply cloning_map_ok.
    + intros σ2 Hh Hwf2. by apply wp_ret, HN.
  - intros md σ' Hc. apply wp_ret. eapply HS.
    + by eapply cl_ext.
    + by eapply cloning_map_ok.
    + by eapply cl_wf.
    + intros x. eapply (cloning_member _ _ _ Hms); [|exact Hc].
      intros s i Hi. right. apply elem_of_seq. lia.
Qed.

(** ** Inserting and removing *)

Lemma map_ok_extend h h2 m m' n x :
  map_ok h m -> ~ member h m x -> h !! n = None -> placed m' ->
  (forall k p, has m' k p -> has m k p \/ (k = key_of x /\ p = n)) ->
  (forall k p, has m' k p -> h2 !! p = <[n := enc x]> h !! p) ->
  map_ok h2 m'.
Proof.
  intros Hok Hnm Hn Hpl Hsub Hh.
  assert (forall k p, has m k p -> p <> n) as Hne.
  { intros k p (y & Hy & _)%(mo_item _ _ Hok) ->. congruence. }
  assert (forall k p, has m' k p -> has m k p /\ h2 !! p = h !! p \/
    k = key_of x /\ p = n /\ h2 !! p = Some (enc x)) as Hcase.
  { intros k p Hm'. rewrite (Hh _ _ Hm'). destruct (Hsub _ _ Hm') as [Hm|[-> ->]].
    - left. split; [done|]. rewrite lookup_insert_ne; [done|]. intros <-. by destruct (Hne _ _ Hm).
    - right. by rewrite lookup_insert_eq. }
  split; [done| |].
  - intros k p [[Hm ->]|(-> & -> & ->)]%Hcase; [by apply Hok|eauto].
  - intros k p k' p' y [[Hm Hp]|(-> & -> & Hp)]%Hcase [[Hm' Hp']|(-> & -> & Hp')]%Hcase Hy Hy'.
    + rewrite Hp in Hy. rewrite Hp' in Hy'. by eapply Hok.
    + rewrite Hp' in Hy'. injection Hy' as <-%enc_inj. rewrite Hp in Hy.
      destruct Hnm. by exists k, p.
    + rewrite Hp in Hy. injection Hy as <-%enc_inj. rewrite Hp' in Hy'.
      destruct Hnm. by exists k', p'.
    + done.
Qed.

Section insert.
Context (h0 h : gmap loc obj) (mp : loc) (m : CuckooHash) (n : loc) (x : X).
Context (Hn : h !! n = None) (He : ext h0 h mp m) (Hok : map_ok h m) (Hnm : ~ member h m x).

Lemma ins_ptr_ne k p : has m k p -> p <> n /\ p <> mp.
Proof.
  intros Hp. split.
  - destruct (mo_item _ _ Hok _ _ Hp) as (y & Hy & _). intros ->. congruence.
  - eapply (map_ok_live _ _ mp Hok); [apply He|done].
Qed.

Lemma ins_new_ne : n <> mp /\ h0 !! n = None.
Proof.
  split.
  - intros ->. rewrite (ext_map _ _ _ _ He) in Hn. done.
  - destruct (h0 !! n) eqn:E; [|done]. apply (ext_sub _ _ _ _ He) in E. congruence.
Qed.

(** The entries of the map and the new item are all the kick loop works on. *)
Lemma ins_entry k p : has m k p \/ (k = key_of x /\ p = n) ->
  p <> mp /\ h0 !! p = None /\ is_Some (<[n := enc x]> h !! p).
Proof.
  destruct ins_new_ne as [Hnmp Hn0]. intros [Hp|[-> ->]].
  - destruct (ins_ptr_ne _ _ Hp). split; [done|]. split; [by eapply (ext_ptr _ _ _ _ He)|].
    rewrite lookup_insert_ne by done. destruct (mo_item _ _ Hok _ _ Hp) as (y & -> & _). eauto.
  - rewrite lookup_insert_eq. eauto.
Qed.

Lemma ins_old l v : h0 !! l = Some v -> l <> mp /\ l <> n /\ h !! l = Some v.
Proof.
  intros Hl. destruct ins_new_ne as [Hnmp Hn0].
  split; [intros ->; by rewrite (ext_fresh _ _ _ _ He) in Hl|].
  split; [congruence|]. by apply (ext_sub _ _ _ _ He).
Qed.

Lemma ins_dom l : is_Some (<[n := enc x]> h !! l) ->
  is_Some (h0 !! l) \/ l = mp \/ exists k, has m k l \/ (k = key_of x /\ l = n).
Proof.
  intros [v [[<- _]|[_ Hl]]%lookup_insert_Some]; [eauto 6|].
  destruct (ext_dom _ _ _ _ He l) as [?|[?|[k ?]]]; eauto.
Qed.

(** Every item found a slot. *)
Lemma ins_placed m' :
  placed m' -> (forall k p, has m' k p <-> has m k p \/ (k = key_of x /\ p = n)) ->
  let h2 := <[mp := OMap m']> (<[n := enc x]> h) in
  ext h0 h2 mp m' /\ map_ok h2 m' /\ (forall y, member h2 m' y <-> member h m y \/ y = x).
Proof.
  intros Hpl Hpost h2.
  assert (forall k p, has m' k p -> h2 !! p = <[n := enc x]> h !! p) as Hh2.
  { intros k p Hp%Hpost. apply lookup_insert_ne. intros <-. by destruct (ins_entry _ _ Hp). }
  split; [|split].
  - split.
    + apply lookup_insert_eq.
    + apply He.
    + intros l v (? & ? & ?)%ins_old. unfold h2. by rewrite !lookup_insert_ne.
    + intros k p Hp%Hpost. by apply (ins_entry k).
    + intros l [v [[<- _]|[_ Hl]]%lookup_insert_Some]; [auto|].
      destruct (ins_dom l) as [?|[?|[k Hk]]]; [eauto|auto..|]. right; right. exists k. by apply Hpost.
  - eapply (map_ok_extend h); [done..| |done]. intros k p. by rewrite Hpost.
  - intros y. unfold member. split.
    + intros (k & p & Hp & Hy). rewrite (Hh2 _ _ Hp) in Hy.
      apply Hpost in Hp as [Hp|[-> ->]].
      * left. exists k, p. destruct (ins_ptr_ne _ _ Hp). by rewrite lookup_insert_ne in Hy.
      * right. rewrite lookup_insert_eq in Hy. by injection Hy as ->%enc_inj.
    + intros [(k & p & Hp & Hy)| ->].
      * exists k, p. assert (has m' k p) as Hp' by (apply Hpost; auto). split; [done|].
        rewrite (Hh2 _ _ Hp'). destruct (ins_ptr_ne _ _ Hp). by rewrite lookup_insert_ne.
      * exists (key_of x), n. assert (has m' (key_of x) n) as Hp' by (apply Hpost; auto).
        split; [done|]. rewrite (Hh2 _ _ Hp'). apply lookup_insert_eq.
Qed.

(** The kick limit was reached: [tp] is left over, and freed. *)
Lemma ins_full m' tk tp :
  placed m' -> (forall k, ~ has m' k tp) ->
  (forall k p, (has m' k p \/ (k = tk /\ p = tp)) <-> (has m k p \/ (k = key_of x /\ p = n))) ->
  let h2 := delete tp (<[mp := OMap m']> (<[n := enc x]> h)) in
  tp <> mp /\ is_Some (<[n := enc x]> h !! tp) /\ ext h0 h2 mp m' /\ map_ok h2 m'.
Proof.
  intros Hpl Hntp Hpost h2.
  destruct (ins_entry tk tp) as (Htmp & Ht0 & Htl); [apply Hpost; auto|].
  assert (forall k p, has m' k p -> has m k p \/ (k = key_of x /\ p = n)) as Hsub.
  { intros k p Hp. apply Hpost. auto. }
  split; [done|]. split; [done|]. split.
  - split.
    + unfold h2. by rewrite lookup_delete_ne, lookup_insert_eq.
    + apply He.
    + intros l v Hl. destruct (ins_old _ _ Hl) as (? & ? & ?). unfold h2.
      by rewrite lookup_delete_ne, !lookup_insert_ne by congruence.
    + intros k p Hp%Hsub. by apply (ins_entry k).
    + intros l [v [Hlt Hl]%lookup_delete_Some].
      apply lookup_insert_Some in Hl as [[<- _]|[_ Hl]]; [auto|].
      destruct (ins_dom l) as [?|[?|[k Hk]]]; [eauto|auto..|]. right; right. exists k.
      by destruct (proj2 (Hpost k l) Hk) as [?|[_ <-]].
  - eapply (map_ok_extend h); [done..|]. intros k p Hp. unfold h2.
    rewrite lookup_delete_ne by (intros <-; by destruct (Hntp k)).
    apply lookup_insert_ne. intros <-. by destruct (ins_entry _ _ (Hsub _ _ Hp)).
Qed.
End insert.

(** That slot holds a member whose key hashes like the new one. *)
Lemma insert_loop_full h m x n : map_ok h m ->
  (insert_loop MAX_KICKS m (key_of x) (Some n)).2 <> None ->
  exists y, member h m y /\ hash T0 (key_of y) = hash T0 (key_of x).
Proof.
  intros Hok E%insert_loop_left.
  destruct (placed_slot_ptr _ _ _ (mo_placed _ _ Hok) E) as (k & p & _ & Hat).
  assert (has m k p) as Hp by by exists T0, (hash T0 (key_of x)).
  destruct (mo_item _ _ Hok _ _ Hp) as (y & Hy & ->). exists y. split; [by exists (key_of y), p|].
  symmetry. eapply ptr_at_hash; [apply Hok|done].
Qed.

(** [insert] of a fresh item [n] that is not in the map yet: it is added, or
    the kick limit is reached and the item left over is freed; what the map
    then holds can still be freed without leak or double free. *)
Lemma wp_insert h0 h mp m n x Q σ :
  heap σ = <[n := enc x]> h -> h !! n = None -> ext h0 h mp m -> map_ok h m ->
  ~ member h m x -> mem_wf σ ->
  (forall m' σ', ext h0 (heap σ') mp m' -> map_ok (heap σ') m' -> mem_wf σ' ->
     (forall y, member (heap σ') m' y <-> member h m y \/ y = x) -> Q 0 σ') ->
  (forall m' σ', ext h0 (heap σ') mp m' -> map_ok (heap σ') m' -> mem_wf σ' ->
     (exists y, member h m y /\ hash T0 (key_of y) = hash T0 (key_of x)) -> Q (- ENOSPC) σ') ->
  wp (insert mp (key_of x) n (compare X)) Q σ.
Proof.
  intros Hh Hn He Hok Hnm Hwf HQ0 HQ1.
  pose proof (ins_ptr_ne h0 h mp m n Hn He Hok) as Hne.
  destruct (ins_new_ne h0 h mp m n Hn He) as [Hnmp _].
  assert (forall k p, has m k p -> heap σ !! p = h !! p) as Hag.
  { intros k p [? _]%Hne. by rewrite Hh, lookup_insert_ne. }
  assert (heap σ !! mp = Some (OMap m)) as Hmp by (rewrite Hh, lookup_insert_ne; [apply He|done]).
  unfold insert. apply wp_bind.
  destruct (contains_ok mp m n x σ) as (c & Ec & Hc);
    [by eapply map_ok_frame|done|by rewrite Hh, lookup_insert_eq|].
  rewrite (member_frame _ _ _ _ Hag) in Hc. destruct Hc as [[-> Hc]|[-> _]]; [done|].
  eapply wp_eq; [done|]. simpl. apply wp_bind. eapply wp_load_map; [done|].
  destruct (insert_loop_ok MAX_KICKS m (key_of x) n) as [Hpl Hpost];
    [apply Hok|intros k' Hk'; by destruct (Hne _ _ Hk')|].
  pose proof (insert_loop_full h m x n) as Hfull.
  destruct (insert_loop MAX_KICKS m (key_of x) (Some n)) as [m' [lp|]]; simpl in *.
  - destruct Hpost as (tk & tp & -> & Hntp & Hpost).
    destruct (ins_full h0 h mp m n x Hn He Hok Hnm m' tk tp) as (Htmp & [v Hv] & He' & Hok'); [done..|].
    apply wp_bind. eapply wp_store; [done|]. apply wp_bind.
    eapply wp_kfree; [simpl; rewrite Hh, lookup_insert_ne; [exact Hv|congruence]|].
    apply wp_ret, (HQ1 m'); simpl; [by rewrite Hh..| |by apply Hfull].
    refine (mem_wf_sub (Mem (<[mp := OMap m']> (heap σ)) (next σ) (oracle σ)) _ _ _ _);
      [|by eapply mem_wf_store]. intros l [w [_ Hl]%lookup_delete_Some]. simpl. eauto.
  - destruct (ins_placed h0 h mp m n x Hn He Hok Hnm m') as (He' & Hok' & Hmem); [done..|].
    apply wp_bind. eapply wp_store; [done|].
    apply wp_ret, (HQ0 m'); simpl; [by rewrite Hh..| |by rewrite Hh].
    by eapply mem_wf_store.
Qed.

(** Taking the member [x] out of the slot [(s, i)] that holds it. *)
Lemma wp_remove_slot h0 mp m s i k p x Q σ :
  ext h0 (heap σ) mp m -> map_ok (heap σ) m -> mem_wf σ ->
  ptr_at m s i k p -> heap σ !! p = Some (enc x) ->
  (forall m' σ', ext h0 (heap σ') mp m' -> map_ok (heap σ') m' -> mem_wf σ' ->
     (forall y, member (heap σ') m' y <-> member (heap σ) m y /\ y <> x) -> Q tt σ') ->
  wp (remove_slot mp s i) Q σ.
Proof.
  intros He Hok Hwf Hat Hx HQ. pose proof (mo_placed _ _ Hok) as Hpl.
  pose proof (map_ok_live _ _ mp Hok (ext_map _ _ _ _ He)) as Hlive.
  assert (has m k p) as Hp by by exists s, i. destruct (Hlive _ _ Hp) as [_ Hpmp].
  unfold remove_slot. apply wp_bind. eapply wp_load_map; [apply He|].
  rewrite (slot_at_lookup _ _ _ _ Hat). simpl.
  apply wp_bind. eapply wp_store; [apply He|]. apply wp_bind.
  eapply wp_kfree; [simpl; by rewrite lookup_insert_ne|].
  eapply wp_store; [simpl; by rewrite lookup_delete_ne, lookup_insert_eq|]. simpl.
  set (m' := set_slot m s i (Slot None 0 false)).
  assert (forall k' p', has m' k' p' <-> has m k' p' /\ p' <> p) as Hhas.
  { intros. by eapply has_clear. }
  rewrite <-delete_insert_ne, insert_insert_eq by done.
  set (h2 := delete p (<[mp := OMap m']> (heap σ))).
  assert (forall k' p', has m' k' p' -> h2 !! p' = heap σ !! p') as Hag.
  { intros k' p' [Hh Hne]%Hhas. destruct (Hlive _ _ Hh). unfold h2.
    by rewrite lookup_delete_ne, lookup_insert_ne. }
  apply (HQ m'); simpl.
  - split.
    + unfold h2. by rewrite lookup_delete_ne, lookup_insert_eq.
    + apply He.
    + intros l v Hl. pose proof (ext_sub _ _ _ _ He _ _ Hl). unfold h2.
      rewrite lookup_delete_ne by (intros <-; by rewrite (ext_ptr _ _ _ _ He _ _ Hp) in Hl).
      rewrite lookup_insert_ne; [done|]. intros <-. by rewrite (ext_fresh _ _ _ _ He) in Hl.
    + intros k' p' [Hh _]%Hhas. by eapply (ext_ptr _ _ _ _ He).
    + intros l [v [Hlp [[<- _]|[_ Hl]]%lookup_insert_Some]%lookup_delete_Some]; [auto|].
      destruct (ext_dom _ _ _ _ He l) as [?|[?|[k' ?]]]; [eauto|auto..|].
      right; right. exists k'. by apply Hhas.
  - apply (map_ok_frame (heap σ)); [done|].
    split; [apply placed_clear; [done|done|by eapply ptr_at_range]| |].
    + intros k' p' [Hh _]%Hhas. by apply Hok.
    + intros k1 p1 k2 p2 y [H1 _]%Hhas [H2 _]%Hhas. by eapply Hok.
  - refine (mem_wf_sub (Mem (<[mp := OMap m']> (heap σ)) (next σ) (oracle σ)) _ _ _ _);
      [|eapply mem_wf_store; [apply He|done]]. intros l [w [_ Hl]%lookup_delete_Some]. simpl. eauto.
  - intros y. rewrite (member_frame (heap σ)) by done. unfold member. split.
    + intros (k' & p' & [Hh Hne]%Hhas & Hy). split; [eauto|]. intros ->.
      by destruct Hne; eapply (mo_uniq _ _ Hok).
    + intros [(k' & p' & Hh & Hy) Hne]. exists k', p'. rewrite Hhas. split; [|done].
      split; [done|]. intros ->. rewrite Hx in Hy. by injection Hy as ->%enc_inj.
Qed.

(** [remove] of a member: it is freed and gone, every other item stays. *)
Lemma wp_remove h0 mp m it x Q σ :
  ext h0 (heap σ) mp m -> map_ok (heap σ) m -> mem_wf σ ->
  heap σ !! it = Some (enc x) -> member (heap σ) m x ->
  (forall m' σ', ext h0 (heap σ') mp m' -> map_ok (heap σ') m' -> mem_wf σ' ->
     (forall y, member (heap σ') m' y <-> member (heap σ) m y /\ y <> x) -> Q 0 σ') ->
  wp (remove mp (key_of x) it (compare X)) Q σ.
Proof.
  intros He Hok Hwf Hit Hmem HQ. unfold remove.
  pose proof (ext_map _ _ _ _ He) as Hmp.
  destruct (probe_ok mp m T0 (hash T0 (key_of x)) it x σ) as (b0 & E0 & Hb0); [done..|].
  destruct (probe_ok mp m T1 (hash T1 (key_of x)) it x σ) as (b1 & E1 & Hb1); [done..|].
  apply wp_bind. eapply wp_eq; [done|]. simpl. destruct b0.
  { destruct (proj1 Hb0 eq_refl) as (k & p & Hat & Hx). apply wp_bind.
    eapply wp_remove_slot; [done..|]. intros. by eapply wp_ret, HQ. }
  apply wp_bind. eapply wp_eq; [done|]. simpl. destruct b1.
  { destruct (proj1 Hb1 eq_refl) as (k & p & Hat & Hx). apply wp_bind.
    eapply wp_remove_slot; [done..|]. intros. by eapply wp_ret, HQ. }
  apply member_slot in Hmem as ([] & k & p & Hat & Hx); [naive_solver..|done].
Qed.
End item.

Arguments map_ok X {_ _} _ _.
Arguments member X {_ _} _ _ _.

(** ** No operation reports a lack of memory unless an allocation failed *)

Lemma load_map_lucky l : ensures (load_map l) (fun _ => True).
Proof. unfold load_map. by repeat ens_step. Qed.

Lemma load_store_lucky l : ensures (load_store l) (fun _ => True).
Proof. unfold load_store. by repeat ens_step. Qed.
#[export] Hint Resolve load_map_lucky load_store_lucky : lucky.

Lemma mutex_lock_lucky l : ensures (mutex_lock l) (fun _ => True).
Proof. unfold mutex_lock. by repeat ens_step. Qed.

Lemma mutex_unlock_lucky l : ensures (mutex_unlock l) (fun _ => True).
Proof. unfold mutex_unlock. by repeat ens_step. Qed.

Lemma rcu_dereference_lucky l f : ensures (rcu_dereference l f) (fun _ => True).
Proof. unfold rcu_dereference. by repeat ens_step. Qed.

Lemma rcu_assign_lucky l f p : ensures (rcu_assign_pointer l f p) (fun _ => True).
Proof. unfold rcu_assign_pointer. by repeat ens_step. Qed.

Lemma free_slot_lucky l s i : ensures (free_slot l s i) (fun _ => True).
Proof. unfold free_slot. by repeat ens_step. Qed.
#[export] Hint Resolve mutex_lock_lucky mutex_unlock_lucky rcu_dereference_lucky rcu_assign_lucky
  free_slot_lucky : lucky.

Lemma destroy_map_lucky p : ensures (destroy_map p) (fun _ => True).
Proof.
  unfold destroy_map. destruct p as [l|]; [|by apply ens_ret].
  eapply ens_bind; [apply ens_for_each; intros i; by repeat ens_step|]. by repeat ens_step.
Qed.
#[export] Hint Resolve destroy_map_lucky : lucky.

Section lucky.
Context {X : Type} `{ItemLaws X}.

Lemma probe_lucky map s i it : ensures (probe (compare X) map s i it) (fun _ => True).
Proof. unfold probe. by repeat ens_step. Qed.
Hint Resolve probe_lucky : lucky.

Lemma contains_lucky map k it : ensures (contains map k it (compare X)) (fun _ => True).
Proof. unfold contains. by repeat ens_step. Qed.
Hint Resolve contains_lucky : lucky.

Lemma insert_lucky map k it : ensures (insert map k it (compare X)) (fun _ => True).
Proof.
  unfold insert. ens_step. ens_step; [by repeat ens_step|]. ens_step.
  destruct (insert_loop _ _ _ _). by repeat ens_step.
Qed.

Lemma remove_slot_lucky map s i : ensures (remove_slot map s i) (fun _ => True).
Proof. unfold remove_slot. by repeat ens_step. Qed.
Hint Resolve insert_lucky remove_slot_lucky : lucky.

Lemma remove_lucky map k it : ensures (remove map k it (compare X)) (fun _ => True).
Proof. unfold remove. by repeat ens_step. Qed.
Hint Resolve remove_lucky : lucky.

Lemma clone_slot_lucky src dst s i : ensures (clone_slot (clone_item X) src dst s i) (fun b => b = true).
Proof.
  unfold clone_slot. ens_step. ens_step; [|by apply ens_ret]. ens_step. ens_step.
  ens_step. ens_step. ens_some. by repeat ens_step.
Qed.

Lemma clone_loop_lucky src dst ids : ensures (clone_loop (clone_item X) src dst ids) (fun b => b = true).
Proof.
  induction ids as [|i ids IH]; simpl; [by apply ens_ret|].
  eapply ens_bind; [apply clone_slot_lucky|]. intros ? ->.
  eapply ens_bind; [apply clone_slot_lucky|]. by intros ? ->.
Qed.

Lemma clone_map_lucky src : ensures (clone_map src (clone_item X)) is_Some.
Proof.
  unfold clone_map, create_map. ens_step. ens_some.
  eapply ens_bind; [apply clone_loop_lucky|]. intros ? ->. apply ens_ret. eauto.
Qed.
Hint Resolve clone_map_lucky : lucky.

Lemma add_to_store_lucky sp id : ensures (add_to_store X sp id) (fun r => r <> - ENOMEM).
Proof.
  unfold add_to_store. do 4 ens_step. ens_step; [by repeat ens_step|].
  ens_step. ens_some.
  ens_step. ens_some. by repeat ens_step.
Qed.

Lemma remove_from_store_lucky sp id : ensures (remove_from_store X sp id) (fun r => r <> - ENOMEM).
Proof.
  unfold remove_from_store. do 4 ens_step. ens_step; [by repeat ens_step|].
  ens_step. ens_some. by repeat ens_step.
Qed.
End lucky.

Lemma init_store_lucky : ensures init_sysThrot_store (fun r => r.1 = 0).
Proof.
  unfold init_sysThrot_store, create_map.
  do 2 (ens_step; ens_some).
  ens_step. ens_some. by repeat ens_step.
Qed.

(** Enumerating allocates nothing. *)
Lemma array_write_lucky {A} (arr : list A) n x : ensures (array_write arr n x) (fun _ => True).
Proof. unfold array_write. by repeat ens_step. Qed.
#[export] Hint Resolve array_write_lucky : lucky.

Lemma get_all_users_lucky sp arr : ensures (get_all_users_from_store sp arr) (fun _ => True).
Proof.
  unfold get_all_users_from_store. do 2 ens_step. generalize (arr, 0%nat). generalize (seq 0 TABLE_SIZE).
  assert (forall m s i acc, ensures (emit_user m s i acc) (fun _ => True)) as Hemit.
  { intros. unfold emit_user. by repeat ens_step. }
  intros ids. induction ids as [|i ids IH]; intros acc; cbn [users_loop]; [by apply ens_ret|].
  do 2 (eapply ens_bind; [apply Hemit|]; intros ? _). apply IH.
Qed.

Lemma get_all_programs_lucky sp arr : ensures (get_all_programs_from_store sp arr) (fun _ => True).
Proof.
  unfold get_all_programs_from_store. do 2 ens_step. generalize (arr, 0%nat). generalize (seq 0 TABLE_SIZE).
  assert (forall m s i acc, ensures (emit_program m s i acc) (fun _ => True)) as Hemit.
  { intros. unfold emit_program. by repeat ens_step. }
  intros ids. induction ids as [|i ids IH]; intros acc; cbn [programs_loop]; [by apply ens_ret|].
  case_decide; [|by apply ens_ret]. eapply ens_bind; [apply Hemit|]. intros acc2 _.
  eapply (ens_bind _ _ (fun _ => True)); [case_decide; [apply Hemit|by apply ens_ret]|]. intros ? _. apply IH.
Qed.
