(* ===== verification/StoreSpec.v ===== *)
(** * The store as a pair of sets: specification and refinement

    The abstract store is a set of user ids and a set of program names.
    [store_rep] says that a heap holds a store with that contents and,
    besides it, exactly the objects of a frame [F]; an operation that ends
    in [store_rep] with the same frame has leaked nothing and touched
    nothing else.  The theorems relate every operation on the store of
    [src/sysThrot_store.c] to the operation on sets it stands for, on every
    path: duplicates, missing items, failed allocations, full tables. *)

From stdpp Require Import prelude gmap list.
From S2P Require Import Prelude Kernel Store StoreProofs.

(** ** Replacing one map of the store *)

(** [h'] is [h] with the map [m] at [mp] replaced by the map [m'] at the
    fresh location [mp'], and the store object at [sp] set to [st']. *)
Record replaced (h h' : gmap loc obj) (sp : loc) (st' : sysThrot_Store)
    (mp : loc) (m : CuckooHash) (mp' : loc) (m' : CuckooHash) : Prop := {
  rp_store : h' !! sp = Some (OStore st');
  rp_map : h' !! mp' = Some (OMap m');
  rp_fresh : h !! mp' = None;
  rp_ptr k p : has m' k p -> h !! p = None;
  rp_frame l v : h !! l = Some v -> l <> sp -> l <> mp -> (forall k, ~ has m k l) ->
    h' !! l = Some v;
  rp_dom l : is_Some (h' !! l) -> l = sp \/ l = mp' \/ (exists k, has m' k l) \/
    (is_Some (h !! l) /\ l <> mp /\ forall k, ~ has m k l);
}.

Definition lock (b : bool) (st : sysThrot_Store) : sysThrot_Store :=
  Store (syscall_user_map st) (syscall_program_map st) b.

Lemma lock_id st b : write_lock st = b -> lock b st = st.
Proof. intros <-. by destruct st. Qed.

Lemma get_field_lock f b st : get_field f (lock b st) = get_field f st.
Proof. by destruct f. Qed.

Lemma lock_set_field f p b b' st : lock b (set_field f p (lock b' st)) = set_field f p (lock b st).
Proof. by destruct f. Qed.

Lemma wp_mutex_lock sp st Q (σ : mem obj) :
  heap σ !! sp = Some (OStore st) -> write_lock st = false ->
  Q tt (Mem (<[sp := OStore (lock true st)]> (heap σ)) (next σ) (oracle σ)) ->
  wp (mutex_lock sp) Q σ.
Proof.
  intros Hsp Hl HQ. unfold mutex_lock. apply wp_bind. eapply wp_load_store; [done|].
  rewrite Hl. by eapply wp_store.
Qed.

Lemma wp_mutex_unlock sp st Q (σ : mem obj) :
  heap σ !! sp = Some (OStore st) -> write_lock st = true ->
  Q tt (Mem (<[sp := OStore (lock false st)]> (heap σ)) (next σ) (oracle σ)) ->
  wp (mutex_unlock sp) Q σ.
Proof.
  intros Hsp Hl HQ. unfold mutex_unlock. apply wp_bind. eapply wp_load_store; [done|].
  rewrite Hl. by eapply wp_store.
Qed.

Section field.
Context {X : Type} `{ItemLaws X}.
Implicit Types (x y : X) (σ : mem obj) (st : sysThrot_Store).

(** The store at [sp] is unlocked and its map for [X] is [m], at [mp]. *)
Record field_ok (σ : mem obj) (sp : loc) st (mp : loc) (m : CuckooHash) : Prop := {
  fo_wf : mem_wf σ;
  fo_store : heap σ !! sp = Some (OStore st);
  fo_lock : write_lock st = false;
  fo_ptr : get_field (field X) st = Some mp;
  fo_map : heap σ !! mp = Some (OMap m);
  fo_ok : map_ok X (heap σ) m;
}.

Lemma has_not_store h m sp st k p :
  map_ok X h m -> h !! sp = Some (OStore st) -> has m k p -> p <> sp.
Proof.
  intros Hok Hsp (x & Hx & _)%(mo_item _ _ Hok) ->. rewrite Hsp in Hx.
  injection Hx as Hx. symmetry in Hx. by apply enc_not_store in Hx.
Qed.

(** The state in which the writer works: the same, with the mutex held. *)
Definition locked σ sp st : mem obj :=
  Mem (<[sp := OStore (lock true st)]> (heap σ)) (next σ) (oracle σ).

Lemma locked_ok σ sp st mp m : field_ok σ sp st mp m ->
  mem_wf (locked σ sp st) /\ map_ok X (heap (locked σ sp st)) m /\
  heap (locked σ sp st) !! mp = Some (OMap m) /\
  (forall x, member X (heap (locked σ sp st)) m x <-> member X (heap σ) m x).
Proof.
  intros [Hwf Hsp Hl Hmp Hm Hok].
  assert (forall k p, has m k p -> heap (locked σ sp st) !! p = heap σ !! p) as Hag.
  { intros k p Hp. simpl. rewrite lookup_insert_ne; [done|]. intros <-.
    by eapply has_not_store in Hp. }
  split; [by eapply mem_wf_store|]. split; [by eapply map_ok_frame|].
  split; [simpl; rewrite lookup_insert_ne by congruence; done|].
  intros x. by apply member_frame.
Qed.

(** Releasing the mutex after a failure gives the heap back. *)
Lemma wp_unlock_fail {A} σ0 sp st mp m (r : A) Q σ :
  field_ok σ0 sp st mp m -> heap σ = heap (locked σ0 sp st) -> mem_wf σ ->
  (forall σ', heap σ' = heap σ0 -> mem_wf σ' -> Q r σ') ->
  wp (mutex_unlock sp ;; mret r : K A) Q σ.
Proof.
  intros [Hwf Hsp Hl Hmp Hm Hok] Hh Hwfσ HQ. apply wp_bind.
  assert (heap σ !! sp = Some (OStore (lock true st))) as Hs by (rewrite Hh; apply lookup_insert_eq).
  eapply wp_mutex_unlock; [done..|]. apply wp_ret, HQ.
  - simpl. rewrite Hh. simpl. rewrite insert_insert_eq. apply insert_id.
    change (lock false (lock true st)) with (lock false st). by rewrite lock_id.
  - by eapply mem_wf_store.
Qed.

(** Publishing the new map and freeing the old one: [σ] is the writer's
    state with the new map built, [h2] the heap at the end. *)
Section publish.
Context (σ0 σ : mem obj) (sp : loc) (st : sysThrot_Store) (mp mp' : loc) (m m' : CuckooHash).
Context (Hf : field_ok σ0 sp st mp m) (He : ext (heap (locked σ0 sp st)) (heap σ) mp' m').

Lemma pub_lock : heap σ !! sp = Some (OStore (lock true st)) /\ mp <> sp /\ mp' <> sp.
Proof.
  assert (heap σ !! sp = Some (OStore (lock true st))) as Hs.
  { apply (ext_sub _ _ _ _ He). apply lookup_insert_eq. }
  destruct Hf as [_ Hsp _ _ Hm _]. split; [done|]. split; [congruence|].
  intros ->. by rewrite (ext_map _ _ _ _ He) in Hs.
Qed.

Lemma pub_old k p : has m k p -> p <> sp /\ heap σ !! p = heap σ0 !! p.
Proof.
  destruct Hf as [_ Hsp _ _ _ Hok]. intros Hp.
  pose proof (has_not_store _ _ _ _ _ _ Hok Hsp Hp) as Hps. split; [done|].
  destruct (mo_item _ _ Hok _ _ Hp) as (x & Hx & _). rewrite Hx.
  apply (ext_sub _ _ _ _ He). simpl. by rewrite lookup_insert_ne.
Qed.

Lemma pub_fresh l : heap (locked σ0 sp st) !! l = None ->
  l <> sp /\ l <> mp /\ heap σ0 !! l = None /\ forall k, ~ has m k l.
Proof.
  destruct Hf as [_ Hsp _ _ Hm Hok]. simpl. intros [Hl0 Hl]%lookup_insert_None.
  split; [done|]. split; [congruence|]. split; [done|].
  intros k (y & Hy & _)%(mo_item _ _ Hok). congruence.
Qed.

Context (st' : sysThrot_Store) (h2 : gmap loc obj).
Context (Hmin : minus (<[sp := OStore st']> (heap σ)) h2 (fun l => (exists k, has m k l) \/ l = mp)).

Lemma pub_keep l : l <> sp -> l <> mp -> (forall k, ~ has m k l) -> h2 !! l = heap σ !! l.
Proof.
  intros Hls Hlm Hnh. rewrite (proj2 (Hmin l)) by naive_solver.
  apply lookup_insert_ne. congruence.
Qed.

Lemma pub_agree k p : has m' k p -> h2 !! p = heap σ !! p.
Proof. intros (? & ? & ? & ?)%(ext_ptr _ _ _ _ He)%pub_fresh. by apply pub_keep. Qed.

Lemma pub_replaced : replaced (heap σ0) h2 sp st' mp m mp' m'.
Proof.
  destruct pub_lock as (Hs & Hmps & Hmps').
  destruct (pub_fresh mp' (ext_fresh _ _ _ _ He)) as (_ & Hmm & Hm0 & Hmh). split.
  - rewrite (proj2 (Hmin sp)); [apply lookup_insert_eq|].
    intros [[k Hk]|?]; [|congruence]. by destruct (pub_old _ _ Hk).
  - rewrite pub_keep by done. apply He.
  - done.
  - intros k p Hp. by apply pub_fresh, (ext_ptr _ _ _ _ He k).
  - intros l v Hv Hls Hlm Hnh. rewrite pub_keep by done.
    apply (ext_sub _ _ _ _ He). simpl. by rewrite lookup_insert_ne.
  - intros l [v Hv]. destruct (decide (l = sp)) as [->|Hls]; [auto|].
    assert (~ ((exists k, has m k l) \/ l = mp)) as Hnl.
    { intros Hc. rewrite (proj1 (Hmin l) Hc) in Hv. done. }
    rewrite pub_keep in Hv by naive_solver.
    destruct (ext_dom _ _ _ _ He l) as [[w Hw]|[?|?]]; [eauto| |auto..].
    simpl in Hw. rewrite lookup_insert_ne in Hw by done. right; right; right. naive_solver.
Qed.
End publish.

Lemma wp_publish σ0 sp st mp m mp' m' Q σ :
  field_ok σ0 sp st mp m -> ext (heap (locked σ0 sp st)) (heap σ) mp' m' ->
  map_ok X (heap σ) m' -> mem_wf σ ->
  (forall σ', replaced (heap σ0) (heap σ') sp (set_field (field X) (Some mp') st) mp m mp' m' ->
     mem_wf σ' -> map_ok X (heap σ') m' ->
     (forall x, member X (heap σ') m' x <-> member X (heap σ) m' x) -> Q 0 σ') ->
  wp (rcu_assign_pointer sp (field X) (Some mp') ;; mutex_unlock sp ;;
      destroy_map (Some mp) ;; mret 0) Q σ.
Proof.
  intros Hf He Hok' Hwf HQ. pose proof (locked_ok _ _ _ _ _ Hf) as (_ & _ & Hml & _).
  destruct (pub_lock _ _ _ _ _ _ _ _ Hf He) as (Hs & Hmps & Hmps').
  apply wp_bind. unfold rcu_assign_pointer. apply wp_bind.
  eapply wp_load_store; [done|]. eapply wp_store; [done|]. apply wp_bind.
  eapply wp_mutex_unlock; [apply lookup_insert_eq|by destruct (field X)|]. simpl.
  rewrite insert_insert_eq, lock_set_field, lock_id by apply Hf.
  set (st' := set_field (field X) (Some mp') st).
  set (σ1 := Mem (<[sp := OStore st']> (heap σ)) (next σ) (oracle σ)).
  assert (map_ok X (heap σ1) m) as Hok1.
  { apply (map_ok_frame (heap σ0)); [|apply Hf]. intros k p Hp.
    destruct (pub_old _ _ _ _ _ _ _ _ Hf He _ _ Hp) as [Hps <-]. by apply lookup_insert_ne. }
  assert (heap σ1 !! mp = Some (OMap m)) as Hm1.
  { simpl. rewrite lookup_insert_ne by done. by apply (ext_sub _ _ _ _ He). }
  apply wp_bind. apply (wp_destroy_map mp m); [apply Hok1|done|by apply map_ok_live|].
  intros σ2 Hn2 Hmin. apply wp_ret, HQ.
  - by eapply pub_replaced.
  - intros l [v Hv]. rewrite Hn2.
    apply (mem_wf_store σ sp (OStore (lock true st)) (OStore st') (oracle σ)); [done..|].
    exists v. simpl. rewrite <-Hv. symmetry. apply (proj2 (Hmin l)). intros Hc.
    rewrite (proj1 (Hmin l) Hc) in Hv. done.
  - apply (map_ok_frame (heap σ)); [|done]. exact (pub_agree _ _ _ _ _ _ _ _ Hf He st' _ Hmin).
  - intros x. apply member_frame. exact (pub_agree _ _ _ _ _ _ _ _ Hf He st' _ Hmin).
Qed.

(** ** The operations on one map of the store *)

Lemma wp_rcu_dereference σ sp st mp Q :
  heap σ !! sp = Some (OStore st) -> get_field (field X) st = Some mp ->
  Q mp σ -> wp (rcu_dereference sp (field X)) Q σ.
Proof.
  intros Hsp Hmp HQ. unfold rcu_dereference. apply wp_bind.
  eapply wp_load_store; [done|]. rewrite Hmp. by apply wp_deref.
Qed.

(** Taking the lock, reading the map pointer and testing membership: the
    common prefix of the two writers. *)
Lemma wp_writer_prefix {A} σ sp st mp m id x Q (k : Z -> loc -> Z -> K A) :
  field_ok σ sp st mp m -> heap σ !! id = Some (enc x) ->
  (forall c, (c = 0 /\ member X (heap σ) m x) \/ (c = -1 /\ ~ member X (heap σ) m x) ->
     wp (k (key_of x) mp c) Q (locked σ sp st)) ->
  wp (key ← getKey X id;
      mutex_lock sp ;;
      old_map ← rcu_dereference sp (field X);
      c ← contains old_map key id (compare X);
      k key old_map c) Q σ.
Proof.
  intros Hf Hid Hk. destruct (locked_ok _ _ _ _ _ Hf) as (Hwfl & Hokl & Hml & Hmeml).
  apply wp_bind. eapply wp_eq; [by apply getKey_ok|].
  apply wp_bind. eapply wp_mutex_lock; [apply Hf..|].
  apply wp_bind. eapply (wp_rcu_dereference _ _ (lock true st)); [apply lookup_insert_eq| |].
  { rewrite get_field_lock. apply Hf. }
  apply wp_bind. destruct (contains_ok mp m id x (locked σ sp st)) as (c & Ec & Hc); [done..| |].
  { simpl. rewrite lookup_insert_ne; [done|]. intros <-. rewrite (fo_store _ _ _ _ _ Hf) in Hid.
    injection Hid as Hid. symmetry in Hid. by apply enc_not_store in Hid. }
  eapply wp_eq; [done|]. apply Hk. by rewrite <-Hmeml.
Qed.

Lemma wp_add_to_store σ sp st mp m id x Q :
  field_ok σ sp st mp m -> heap σ !! id = Some (enc x) ->
  (forall r σ', heap σ' = heap σ -> mem_wf σ' ->
     (r = - EEXIST /\ member X (heap σ) m x) \/
     ((r = - ENOMEM \/ r = - ENOSPC /\ exists y, member X (heap σ) m y /\ hash T0 (key_of y) = hash T0 (key_of x)) /\
        ~ member X (heap σ) m x) -> Q r σ') ->
  (forall mp' m' σ', ~ member X (heap σ) m x ->
     replaced (heap σ) (heap σ') sp (set_field (field X) (Some mp') st) mp m mp' m' ->
     mem_wf σ' -> map_ok X (heap σ') m' ->
     (forall y, member X (heap σ') m' y <-> member X (heap σ) m y \/ y = x) -> Q 0 σ') ->
  wp (add_to_store X sp id) Q σ.
Proof.
  intros Hf Hid HQf HQ0. destruct (locked_ok _ _ _ _ _ Hf) as (Hwfl & Hokl & Hml & Hmeml).
  eapply wp_writer_prefix; [done..|]. intros c Hc. simpl.
  destruct Hc as [[-> Hc]|[-> Hc]].
  { eapply wp_unlock_fail; [done..|]. intros. apply HQf; auto. }
  apply wp_bind. eapply wp_clone_map; [done..| |].
  { intros σ' Hh' Hwf'. eapply wp_unlock_fail; [done..|]. intros. apply HQf; auto. }
  intros new md σ1 He1 Hok1 Hwf1 Hmem1. apply wp_bind.
  apply (clone_ok id x); [done| | |].
  { apply (ext_sub _ _ _ _ He1). simpl. rewrite lookup_insert_ne; [done|]. intros <-.
    rewrite (fo_store _ _ _ _ _ Hf) in Hid.
    injection Hid as Hid. symmetry in Hid. by apply enc_not_store in Hid. }
  { intros o. apply wp_bind. eapply ext_destroy_wf; [|done..|]; [done|].
    intros σ2 Hh2 Hwf2. eapply wp_unlock_fail; [done..|]. intros. apply HQf; auto. }
  intros o. apply wp_bind.
  eapply (wp_insert _ (heap σ1) new md (next σ1) x); [done|by apply mem_wf_fresh|done..| |by apply mem_wf_alloc| |].
  { by rewrite Hmem1, Hmeml. }
  - intros m' σ2 He2 Hok2 Hwf2 Hmem2. simpl. eapply wp_publish; [done..|].
    intros σ3 Hr Hwf3 Hok3 Hmem3. eapply HQ0; [done..|].
    intros y. by rewrite Hmem3, Hmem2, Hmem1, Hmeml.
  - intros m' σ2 He2 Hok2 Hwf2 (y & Hy & Hhash). simpl. apply wp_bind. eapply ext_destroy_wf; [done..|].
    intros σ3 Hh3 Hwf3. eapply wp_unlock_fail; [done..|]. intros. apply HQf; [done..|].
    right. split; [|done]. right. split; [done|]. exists y. by rewrite <-Hmeml, <-Hmem1.
Qed.

Lemma wp_remove_from_store σ sp st mp m id x Q :
  field_ok σ sp st mp m -> heap σ !! id = Some (enc x) ->
  (forall r σ', heap σ' = heap σ -> mem_wf σ' ->
     (r = - EINVAL /\ ~ member X (heap σ) m x) \/
     (r = - ENOMEM /\ member X (heap σ) m x) -> Q r σ') ->
  (forall mp' m' σ', member X (heap σ) m x ->
     replaced (heap σ) (heap σ') sp (set_field (field X) (Some mp') st) mp m mp' m' ->
     mem_wf σ' -> map_ok X (heap σ') m' ->
     (forall y, member X (heap σ') m' y <-> member X (heap σ) m y /\ y <> x) -> Q 0 σ') ->
  wp (remove_from_store X sp id) Q σ.
Proof.
  intros Hf Hid HQf HQ0. destruct (locked_ok _ _ _ _ _ Hf) as (Hwfl & Hokl & Hml & Hmeml).
  eapply wp_writer_prefix; [done..|]. intros c Hc. simpl.
  destruct Hc as [[-> Hc]|[-> Hc]]; simpl.
  2: { eapply wp_unlock_fail; [done..|]. intros. apply HQf; auto. }
  apply wp_bind. eapply wp_clone_map; [done..| |].
  { intros σ' Hh' Hwf'. eapply wp_unlock_fail; [done..|]. intros. apply HQf; auto. }
  intros new md σ1 He1 Hok1 Hwf1 Hmem1. apply wp_bind.
  eapply (wp_remove _ new md id x); [done..| | |].
  { apply (ext_sub _ _ _ _ He1). simpl. rewrite lookup_insert_ne; [done|]. intros <-.
    rewrite (fo_store _ _ _ _ _ Hf) in Hid.
    injection Hid as Hid. symmetry in Hid. by apply enc_not_store in Hid. }
  { by rewrite Hmem1, Hmeml. }
  intros m' σ2 He2 Hok2 Hwf2 Hmem2. simpl. eapply wp_publish; [done..|].
  intros σ3 Hr Hwf3 Hok3 Hmem3. eapply HQ0; [done..|].
  intros y. by rewrite Hmem3, Hmem2, Hmem1, Hmeml.
Qed.

Lemma find_in_store_ok σ sp st mp m id x :
  heap σ !! sp = Some (OStore st) -> get_field (field X) st = Some mp ->
  heap σ !! mp = Some (OMap m) -> map_ok X (heap σ) m -> heap σ !! id = Some (enc x) ->
  exists c, find_in_store X sp id σ = Some (c, σ) /\
    ((c = 0 /\ member X (heap σ) m x) \/ (c = -1 /\ ~ member X (heap σ) m x)).
Proof.
  intros Hsp Hmp Hm Hok Hid. destruct (contains_ok mp m id x σ) as (c & Ec & Hc); [done..|].
  exists c. split; [|done]. unfold find_in_store, mbind, M_bind. rewrite (getKey_ok _ x) by done.
  unfold rcu_dereference, load_store, load, mbind, M_bind. rewrite Hsp. simpl. by rewrite Hmp.
Qed.
End field.

Arguments field_ok X {_ _} _ _ _ _ _.

(** ** The abstract store *)

(** The heap of [σ] is the frame [F] plus a store at [sp] that holds the
    users [U] and the programs [P]. *)
Record store_at (F : gmap loc obj) (σ : mem obj) (sp : loc) (U : gset user) (P : gset program)
    (um pm : loc) (mu mq : CuckooHash) : Prop := {
  sr_wf : mem_wf σ;
  sr_store : heap σ !! sp = Some (OStore (Store (Some um) (Some pm) false));
  sr_um : heap σ !! um = Some (OMap mu);
  sr_pm : heap σ !! pm = Some (OMap mq);
  sr_ne : um <> pm;
  sr_uok : map_ok user (heap σ) mu;
  sr_pok : map_ok program (heap σ) mq;
  sr_users x : x ∈ U <-> member user (heap σ) mu x;
  sr_programs x : x ∈ P <-> member program (heap σ) mq x;
  sr_frame l v : F !! l = Some v -> heap σ !! l = Some v /\ l <> sp /\ l <> um /\ l <> pm /\
    (forall k, ~ has mu k l) /\ (forall k, ~ has mq k l);
  sr_dom l : is_Some (heap σ !! l) -> is_Some (F !! l) \/ l = sp \/ l = um \/ l = pm \/
    (exists k, has mu k l) \/ (exists k, has mq k l);
}.

Definition store_rep F σ sp U P : Prop := exists um pm mu mq, store_at F σ sp U P um pm mu mq.

(** Outcomes of the operations on a set.  There can be no space only for an
    item whose first slot is taken by a registered one. *)
Definition add_outcome {X} `{Countable X} (key : X -> Z) (A : gset X) (x : X) (r : Z) (A' : gset X) : Prop :=
  (r = 0 /\ x ∉ A /\ A' = {[x]} ∪ A) \/
  (A' = A /\ ((r = - EEXIST /\ x ∈ A) \/
     ((r = - ENOMEM \/ r = - ENOSPC /\ exists y, y ∈ A /\ hash T0 (key y) = hash T0 (key x)) /\ x ∉ A))).

Abbreviation add_user_outcome := (add_outcome (fun uid : user => uid)).
Abbreviation add_program_outcome := (add_outcome program_key).

Definition remove_outcome {X} `{Countable X} (A : gset X) (x : X) (r : Z) (A' : gset X) : Prop :=
  (r = 0 /\ x ∈ A /\ A' = A ∖ {[x]}) \/
  (A' = A /\ ((r = - EINVAL /\ x ∉ A) \/ (r = - ENOMEM /\ x ∈ A))).

Lemma store_at_user F σ sp U P um pm mu mq : store_at F σ sp U P um pm mu mq ->
  field_ok user σ sp (Store (Some um) (Some pm) false) um mu.
Proof. intros []. by split. Qed.

Lemma store_at_program F σ sp U P um pm mu mq : store_at F σ sp U P um pm mu mq ->
  field_ok program σ sp (Store (Some um) (Some pm) false) pm mq.
Proof. intros []. by split. Qed.

(** Facts that keep the two halves of the store apart. *)
Lemma store_at_apart F σ sp U P um pm mu mq : store_at F σ sp U P um pm mu mq ->
  um <> sp /\ pm <> sp /\
  (forall k p, has mu k p -> p <> sp /\ p <> um /\ p <> pm /\ forall k', ~ has mq k' p) /\
  (forall k p, has mq k p -> p <> sp /\ p <> um /\ p <> pm /\ forall k', ~ has mu k' p).
Proof.
  intros [Hwf Hs Hu Hp Hne Huo Hpo _ _ _ _]. split; [congruence|]. split; [congruence|]. split.
  - intros k p (x & Hx & _)%(mo_item _ _ Huo). simpl in Hx.
    repeat split; [congruence..|]. intros k' (y & Hy & _)%(mo_item _ _ Hpo). simpl in Hy. congruence.
  - intros k p (x & Hx & _)%(mo_item _ _ Hpo). simpl in Hx.
    repeat split; [congruence..|]. intros k' (y & Hy & _)%(mo_item _ _ Huo). simpl in Hy. congruence.
Qed.

Lemma store_replace_user F σ σ' sp U U' P um pm mu mq um' mu' :
  store_at F σ sp U P um pm mu mq ->
  replaced (heap σ) (heap σ') sp (Store (Some um') (Some pm) false) um mu um' mu' ->
  mem_wf σ' -> map_ok user (heap σ') mu' ->
  (forall x, x ∈ U' <-> member user (heap σ') mu' x) ->
  store_at F σ' sp U' P um' pm mu' mq.
Proof.
  intros Hst Hr Hwf Hok' HU. destruct (store_at_apart _ _ _ _ _ _ _ _ _ Hst) as (Hus & Hps & Hmu & Hmq).
  destruct Hst as [_ Hs Hu Hp Hne Huo Hpo _ HP Hfr Hdom].
  assert (heap σ' !! pm = Some (OMap mq)) as Hp'.
  { apply (rp_frame _ _ _ _ _ _ _ _ Hr); [done..|]. intros k (? & ? & ? & ?)%Hmu. done. }
  assert (forall k p, has mq k p -> heap σ' !! p = heap σ !! p) as Hag.
  { intros k p Hk. destruct (Hmq _ _ Hk) as (? & ? & ? & Hn).
    destruct (mo_item _ _ Hpo _ _ Hk) as (x & Hx & _). rewrite Hx.
    by apply (rp_frame _ _ _ _ _ _ _ _ Hr). }
  pose proof (rp_fresh _ _ _ _ _ _ _ _ Hr) as Hum'. split.
  - done.
  - apply Hr.
  - apply Hr.
  - done.
  - congruence.
  - done.
  - by eapply map_ok_frame.
  - done.
  - intros x. rewrite HP. symmetry. by apply member_frame.
  - intros l v Hl. destruct (Hfr _ _ Hl) as (Hv & ? & ? & ? & ? & ?).
    split; [by apply (rp_frame _ _ _ _ _ _ _ _ Hr)|]. repeat split; [done|congruence|done| |done].
    intros k Hk%(rp_ptr _ _ _ _ _ _ _ _ Hr). congruence.
  - intros l Hl. apply (rp_dom _ _ _ _ _ _ _ _ Hr) in Hl as [?|[?|[?|(Hl & Hlm & Hnh)]]]; [auto 7..|].
    apply Hdom in Hl as [?|[?|[?|[?|[[k ?]|?]]]]]; [auto 7|auto|done|auto 7|by destruct (Hnh k)|auto 7].
Qed.

Lemma store_replace_program F σ σ' sp U P P' um pm mu mq pm' mq' :
  store_at F σ sp U P um pm mu mq ->
  replaced (heap σ) (heap σ') sp (Store (Some um) (Some pm') false) pm mq pm' mq' ->
  mem_wf σ' -> map_ok program (heap σ') mq' ->
  (forall x, x ∈ P' <-> member program (heap σ') mq' x) ->
  store_at F σ' sp U P' um pm' mu mq'.
Proof.
  intros Hst Hr Hwf Hok' HP. destruct (store_at_apart _ _ _ _ _ _ _ _ _ Hst) as (Hus & Hps & Hmu & Hmq).
  destruct Hst as [_ Hs Hu Hp Hne Huo Hpo HU _ Hfr Hdom].
  assert (heap σ' !! um = Some (OMap mu)) as Hu'.
  { apply (rp_frame _ _ _ _ _ _ _ _ Hr); [done..|]. intros k (? & ? & ? & ?)%Hmq. done. }
  assert (forall k p, has mu k p -> heap σ' !! p = heap σ !! p) as Hag.
  { intros k p Hk. destruct (Hmu _ _ Hk) as (? & ? & ? & Hn).
    destruct (mo_item _ _ Huo _ _ Hk) as (x & Hx & _). rewrite Hx.
    by apply (rp_frame _ _ _ _ _ _ _ _ Hr). }
  pose proof (rp_fresh _ _ _ _ _ _ _ _ Hr) as Hpm'. split.
  - done.
  - apply Hr.
  - done.
  - apply Hr.
  - congruence.
  - by eapply map_ok_frame.
  - done.
  - intros x. rewrite HU. symmetry. by apply member_frame.
  - done.
  - intros l v Hl. destruct (Hfr _ _ Hl) as (Hv & ? & ? & ? & ? & ?).
    split; [by apply (rp_frame _ _ _ _ _ _ _ _ Hr)|]. repeat split; [done|done|congruence|done|].
    intros k Hk%(rp_ptr _ _ _ _ _ _ _ _ Hr). congruence.
  - intros l Hl. apply (rp_dom _ _ _ _ _ _ _ _ Hr) in Hl as [?|[?|[?|(Hl & Hlm & Hnh)]]]; [auto 7..|].
    apply Hdom in Hl as [?|[?|[?|[?|[?|[k ?]]]]]]; [auto 7|auto|auto|done|auto 7|by destruct (Hnh k)].
Qed.

(** A heap that an operation gave back unchanged still holds the store. *)
Lemma store_at_same F σ σ' sp U P um pm mu mq :
  heap σ' = heap σ -> mem_wf σ' ->
  store_at F σ sp U P um pm mu mq -> store_at F σ' sp U P um pm mu mq.
Proof. intros Hh Hwf []. by split; rewrite ?Hh. Qed.

(** ** Refinement theorems *)

Section refinement.
Context (F : gmap loc obj) (sp : loc).

Lemma add_user_ok U P x id σ :
  store_rep F σ sp U P -> F !! id = Some (OInt x) ->
  wp (add_user_to_store sp id)
    (fun r σ' => exists U', add_user_outcome U x r U' /\ store_rep F σ' sp U' P) σ.
Proof.
  intros (um & pm & mu & mq & Hst) Hid.
  eapply (wp_add_to_store (X:=user) σ sp _ um mu id x); [by eapply store_at_user|by eapply sr_frame| |].
  - intros r σ' Hh Hwf Hr. setoid_rewrite <-(sr_users _ _ _ _ _ _ _ _ _ Hst) in Hr.
    exists U. split; [by right|]. exists um, pm, mu, mq. by eapply store_at_same.
  - intros um' mu' σ' Hnm Hr Hwf Hok Hmem. rewrite <-(sr_users _ _ _ _ _ _ _ _ _ Hst) in Hnm.
    exists ({[x]} ∪ U). split; [by left|]. exists um', pm, mu', mq.
    eapply store_replace_user; [done..|]. intros y.
    rewrite Hmem, <-(sr_users _ _ _ _ _ _ _ _ _ Hst). set_solver.
Qed.

Lemma remove_user_ok U P x id σ :
  store_rep F σ sp U P -> F !! id = Some (OInt x) ->
  wp (remove_user_from_store sp id)
    (fun r σ' => exists U', remove_outcome U x r U' /\ store_rep F σ' sp U' P) σ.
Proof.
  intros (um & pm & mu & mq & Hst) Hid.
  eapply (wp_remove_from_store (X:=user) σ sp _ um mu id x); [by eapply store_at_user|by eapply sr_frame| |].
  - intros r σ' Hh Hwf Hr. rewrite <-(sr_users _ _ _ _ _ _ _ _ _ Hst) in Hr.
    exists U. split; [by right|]. exists um, pm, mu, mq. by eapply store_at_same.
  - intros um' mu' σ' Hnm Hr Hwf Hok Hmem. rewrite <-(sr_users _ _ _ _ _ _ _ _ _ Hst) in Hnm.
    exists (U ∖ {[x]}). split; [by left|]. exists um', pm, mu', mq.
    eapply store_replace_user; [done..|]. intros y.
    rewrite Hmem, <-(sr_users _ _ _ _ _ _ _ _ _ Hst). set_solver.
Qed.

Lemma add_program_ok U P x id σ :
  store_rep F σ sp U P -> F !! id = Some (OStr x) ->
  wp (add_program_to_store sp id)
    (fun r σ' => exists P', add_program_outcome P x r P' /\ store_rep F σ' sp U P') σ.
Proof.
  intros (um & pm & mu & mq & Hst) Hid.
  eapply (wp_add_to_store (X:=program) σ sp _ pm mq id x); [by eapply store_at_program|by eapply sr_frame| |].
  - intros r σ' Hh Hwf Hr. setoid_rewrite <-(sr_programs _ _ _ _ _ _ _ _ _ Hst) in Hr.
    exists P. split; [by right|]. exists um, pm, mu, mq. by eapply store_at_same.
  - intros pm' mq' σ' Hnm Hr Hwf Hok Hmem. rewrite <-(sr_programs _ _ _ _ _ _ _ _ _ Hst) in Hnm.
    exists ({[x]} ∪ P). split; [by left|]. exists um, pm', mu, mq'.
    eapply store_replace_program; [done..|]. intros y.
    rewrite Hmem, <-(sr_programs _ _ _ _ _ _ _ _ _ Hst). set_solver.
Qed.

Lemma remove_program_ok U P x id σ :
  store_rep F σ sp U P -> F !! id = Some (OStr x) ->
  wp (remove_program_from_store sp id)
    (fun r σ' => exists P', remove_outcome P x r P' /\ store_rep F σ' sp U P') σ.
Proof.
  intros (um & pm & mu & mq & Hst) Hid.
  eapply (wp_remove_from_store (X:=program) σ sp _ pm mq id x); [by eapply store_at_program|by eapply sr_frame| |].
  - intros r σ' Hh Hwf Hr. rewrite <-(sr_programs _ _ _ _ _ _ _ _ _ Hst) in Hr.
    exists P. split; [by right|]. exists um, pm, mu, mq. by eapply store_at_same.
  - intros pm' mq' σ' Hnm Hr Hwf Hok Hmem. rewrite <-(sr_programs _ _ _ _ _ _ _ _ _ Hst) in Hnm.
    exists (P ∖ {[x]}). split; [by left|]. exists um, pm', mu, mq'.
    eapply store_replace_program; [done..|]. intros y.
    rewrite Hmem, <-(sr_programs _ _ _ _ _ _ _ _ _ Hst). set_solver.
Qed.
End refinement.

(** ** Creation and destruction *)

Lemma map_ok_zero {X} `{ItemLaws X} h : map_ok X h zero_map.
Proof. split; [apply placed_zero_map|by intros k p ?%has_zero_map|by intros k p k' p' x ?%has_zero_map]. Qed.

Lemma member_zero {X} `{ItemLaws X} h x : ~ member X h zero_map x.
Proof. by intros (k & p & ?%has_zero_map & _). Qed.

(** Destroying a map that was just created. *)
Lemma wp_destroy_zero_map h mp Q (σ : mem obj) :
  heap σ = <[mp := OMap zero_map]> h -> h !! mp = None ->
  (forall σ', heap σ' = h -> Q tt σ') -> wp (destroy_map (Some mp)) Q σ.
Proof.
  intros Hh Hn HQ. apply (wp_destroy_map mp zero_map).
  - apply placed_zero_map.
  - rewrite Hh. apply lookup_insert_eq.
  - by intros k p ?%has_zero_map.
  - intros σ' _ Hm. apply HQ, map_eq. intros l. destruct (Hm l) as [H1 H2].
    destruct (decide (l = mp)) as [->|Hne]; [rewrite Hn; auto|].
    rewrite H2; [by rewrite Hh, lookup_insert_ne|].
    by intros [[k ?%has_zero_map]|?].
Qed.

(** The heap right after the three allocations of [init_sysThrot_store]. *)
Lemma store_at_init σ o : mem_wf σ ->
  let n := next σ in let um := Pos.succ n in let pm := Pos.succ um in
  store_at (heap σ)
    (Mem (<[n := OStore (Store (Some um) (Some pm) false)]>
           (<[pm := OMap zero_map]> (<[um := OMap zero_map]> (<[n := OUninit]> (heap σ)))))
         (Pos.succ pm) o) n ∅ ∅ um pm zero_map zero_map.
Proof.
  intros Hwf n um pm. assert (forall l, is_Some (heap σ !! l) -> (l < n)%positive) as Hlt by apply Hwf.
  split; simpl.
  - intros l. simpl. intros [v Hv].
    repeat (apply lookup_insert_Some in Hv as [[? _]|[_ Hv]]; [subst; lia|]).
    assert (l < n)%positive by (apply Hlt; eauto). lia.
  - apply lookup_insert_eq.
  - rewrite !lookup_insert_ne by lia. apply lookup_insert_eq.
  - rewrite lookup_insert_ne by lia. apply lookup_insert_eq.
  - lia.
  - apply map_ok_zero.
  - apply map_ok_zero.
  - intros x. split; [set_solver|]. by intros ?%member_zero.
  - intros x. split; [set_solver|]. by intros ?%member_zero.
  - intros l v Hl. assert (l < n)%positive by (apply Hlt; eauto).
    split; [by rewrite !lookup_insert_ne by lia|].
    repeat split; [lia..| |]; by intros k ?%has_zero_map.
  - intros l [v Hv].
    repeat (apply lookup_insert_Some in Hv as [[? _]|[_ Hv]]; [by auto 6|]). eauto.
Qed.

Lemma init_store_ok σ : mem_wf σ ->
  wp init_sysThrot_store (fun r σ' =>
    (r.1 = 0 /\ exists sp, r.2 = Some sp /\ store_rep (heap σ) σ' sp ∅ ∅) \/
    (r.1 = - ENOMEM /\ heap σ' = heap σ)) σ.
Proof.
  intros Hwf. unfold init_sysThrot_store, create_map.
  pose proof (mem_wf_fresh _ Hwf) as Hn.
  assert (<[next σ := OUninit]> (heap σ) !! Pos.succ (next σ) = None) as Hn1.
  { rewrite lookup_insert_ne by lia. destruct (heap σ !! Pos.succ (next σ)) eqn:E; [|done].
    assert (Pos.succ (next σ) < next σ)%positive by (apply Hwf; eauto). lia. }
  apply wp_bind, wp_kmalloc; intros o1; [by apply wp_ret; right|].
  apply wp_bind, wp_kmalloc; intros o2; apply wp_bind, wp_kmalloc; intros o3; simpl.
  - apply wp_bind, wp_ret, wp_bind, wp_ret, wp_bind.
    eapply wp_kfree; [apply lookup_insert_eq|]. apply wp_ret. right. split; [done|].
    by apply delete_insert_id.
  - apply wp_bind, wp_ret, wp_bind. eapply wp_destroy_zero_map; [done..|].
    intros σ' Hh. apply wp_bind. eapply wp_kfree; [rewrite Hh; apply lookup_insert_eq|].
    apply wp_ret. right. split; [done|]. simpl. rewrite Hh. by apply delete_insert_id.
  - apply wp_bind. eapply wp_destroy_zero_map; [done..|].
    intros σ' Hh. apply wp_bind, wp_ret, wp_bind.
    eapply wp_kfree; [rewrite Hh; apply lookup_insert_eq|].
    apply wp_ret. right. split; [done|]. simpl. rewrite Hh. by apply delete_insert_id.
  - apply wp_bind. eapply wp_store.
    { simpl. rewrite !lookup_insert_ne by lia. apply lookup_insert_eq. }
    apply wp_ret. left. split; [done|]. exists (next σ). split; [done|].
    do 4 eexists. by apply store_at_init.
Qed.

(** Freeing both maps and the store object leaves the frame: [h1] is the
    heap of [σ] with the store object updated, [h2] is [h1] without the user
    map, [h3] is [h2] without the program map. *)
Lemma store_at_freed F σ sp U P um pm mu mq o h2 h3 :
  store_at F σ sp U P um pm mu mq ->
  minus (<[sp := o]> (heap σ)) h2 (fun l => (exists k, has mu k l) \/ l = um) ->
  minus h2 h3 (fun l => (exists k, has mq k l) \/ l = pm) ->
  h3 !! sp = Some o /\ delete sp h3 = F.
Proof.
  intros Hst H2 H3. destruct (store_at_apart _ _ _ _ _ _ _ _ _ Hst) as (Hus & Hps & Hmu & Hmq).
  destruct Hst as [_ _ _ _ _ _ _ _ _ Hfr Hdom]. split.
  - rewrite (proj2 (H3 sp)) by (intros [[k (? & _)%Hmq]|?]; done).
    rewrite (proj2 (H2 sp)) by (intros [[k (? & _)%Hmu]|?]; done). apply lookup_insert_eq.
  - apply map_eq. intros l. destruct (F !! l) as [v|] eqn:El.
    + destruct (Hfr _ _ El) as (Hv & ? & ? & ? & ? & ?). rewrite lookup_delete_ne by done.
      rewrite (proj2 (H3 l)), (proj2 (H2 l)) by naive_solver. by rewrite lookup_insert_ne.
    + destruct (delete sp h3 !! l) as [v|] eqn:E; [|done]. exfalso.
      apply lookup_delete_Some in E as [Hls E].
      assert (~ ((exists k, has mq k l) \/ l = pm)) as N3 by (intros Hc%(proj1 (H3 l)); congruence).
      rewrite (proj2 (H3 l) N3) in E.
      assert (~ ((exists k, has mu k l) \/ l = um)) as N2 by (intros Hc%(proj1 (H2 l)); congruence).
      rewrite (proj2 (H2 l) N2), lookup_insert_ne in E by done.
      destruct (Hdom l) as [[? ?]|Hc]; [eauto|congruence|naive_solver].
Qed.

Lemma destroy_store_ok F σ sp U P : store_rep F σ sp U P ->
  wp (destroy_sysThrot_store (Some sp)) (fun r σ' => r = 0 /\ heap σ' = F) σ.
Proof.
  intros (um & pm & mu & mq & Hst).
  destruct (store_at_apart _ _ _ _ _ _ _ _ _ Hst) as (Hus & Hps & Hmu & Hmq).
  pose proof Hst as [Hwf Hs Hu Hp Hne Huo Hpo _ _ _ _].
  unfold destroy_sysThrot_store. apply wp_bind. eapply wp_mutex_lock; [done..|].
  apply wp_bind. eapply wp_load_store; [apply lookup_insert_eq|].
  apply wp_bind. unfold rcu_assign_pointer. apply wp_bind.
  eapply wp_load_store; [apply lookup_insert_eq|]. eapply wp_store; [apply lookup_insert_eq|].
  apply wp_bind, wp_bind.
  eapply wp_load_store; [apply lookup_insert_eq|]. eapply wp_store; [apply lookup_insert_eq|].
  apply wp_bind. eapply wp_mutex_unlock; [apply lookup_insert_eq|done|]. simpl.
  rewrite !insert_insert_eq. apply wp_bind. apply (wp_destroy_map um mu); simpl.
  { apply Huo. }
  { by rewrite lookup_insert_ne. }
  { intros k p Hk. destruct (Hmu _ _ Hk) as (? & ? & _). rewrite lookup_insert_ne by done.
    destruct (mo_item _ _ Huo _ _ Hk) as (x & -> & _). eauto. }
  intros σ2 _ Hm2. simpl in Hm2.
  assert (forall l, l <> sp -> l <> um -> (forall k, ~ has mu k l) -> heap σ2 !! l = heap σ !! l) as Hh2.
  { intros l ? ? ?. rewrite (proj2 (Hm2 l)) by naive_solver. by apply lookup_insert_ne. }
  apply wp_bind. apply (wp_destroy_map pm mq).
  { apply Hpo. }
  { rewrite Hh2; [done..|]. intros k (? & ? & ? & _)%Hmu. done. }
  { intros k p Hk. destruct (Hmq _ _ Hk) as (? & ? & ? & ?). rewrite Hh2 by done.
    destruct (mo_item _ _ Hpo _ _ Hk) as (x & -> & _). eauto. }
  intros σ3 _ Hm3. destruct (store_at_freed _ _ _ _ _ _ _ _ _ _ _ _ Hst Hm2 Hm3) as [Hs3 HF].
  apply wp_bind. eapply wp_kfree; [done|]. by apply wp_ret.
Qed.

(** ** Enumeration *)

(** The items of the slots [(s, i)] with [i] in [ids]. *)
Definition listed {X} `{ItemLaws X} (σ : mem obj) (m : CuckooHash) (D : side -> nat -> Prop) (x : X) : Prop :=
  exists s i k p, D s i /\ ptr_at m s i k p /\ heap σ !! p = Some (enc x).

(** [vs] is an exact enumeration of the items of the slots in [D]. *)
Definition enumerates {X} `{ItemLaws X} σ m D (vs : list X) : Prop :=
  NoDup vs /\ forall x, x ∈ vs <-> listed σ m D x.

(** The output array after [vs] was appended at position [c]. *)
Definition appended {B} (arr : list B) (c : nat) (vs : list B) (out : list B * nat) : Prop :=
  length out.1 = length arr /\ out.2 = (c + length vs)%nat /\ take out.2 out.1 = take c arr ++ vs.

Lemma array_write_ok {B} (arr : list B) c x (σ : mem obj) : (c < length arr)%nat ->
  exists out, array_write arr c x σ = Some (out, σ) /\ appended arr c [x] out.
Proof.
  intros Hc. unfold array_write. rewrite decide_True by done. eexists. split; [done|].
  split; [apply length_insert|]. split; [simpl; lia|]. simpl.
  erewrite take_S_r by by apply list_lookup_insert_eq. by rewrite take_insert_ge.
Qed.

Lemma appended_nil {B} (arr : list B) c : appended arr c [] (arr, c).
Proof. split; [done|]. split; [simpl; lia|]. by rewrite app_nil_r. Qed.

Lemma appended_app {B} (arr : list B) c vs ws out out' :
  appended arr c vs out -> appended out.1 out.2 ws out' -> appended arr c (vs ++ ws) out'.
Proof.
  intros (L1 & C1 & T1) (L2 & C2 & T2). split; [congruence|].
  split; [rewrite length_app; lia|]. by rewrite T2, T1, app_assoc.
Qed.

Section enumerate.
Context {X : Type} `{ItemLaws X}.
Context (m : CuckooHash) (σ : mem obj) (Hok : map_ok X (heap σ) m).

Lemma enumerates_nil : enumerates σ m (fun _ _ => False) (@nil X).
Proof. split; [constructor|]. intros x. split; [by intros ?%not_elem_of_nil|]. by intros (? & ? & ? & ? & [] & _). Qed.

(** Enumerations of disjoint sets of slots join. *)
Lemma enumerates_app D D' D'' (vs ws : list X) :
  enumerates σ m D vs -> enumerates σ m D' ws ->
  (forall s i, D s i -> D' s i -> False) -> (forall s i, D'' s i <-> D s i \/ D' s i) ->
  enumerates σ m D'' (vs ++ ws).
Proof.
  intros [N1 E1] [N2 E2] Hdis Hun. split.
  - apply NoDup_app. split; [done|]. split; [|done].
    intros x (s & i & k & p & Hd & Hat & Hx)%E1 (s' & i' & k' & p' & Hd' & Hat' & Hx')%E2.
    assert (p = p') as <- by (eapply (mo_uniq _ _ Hok k p k' p'); [by exists s, i|by exists s', i'|done..]).
    destruct (pl_inj _ (mo_placed _ _ Hok) _ _ _ _ _ _ _ Hat Hat') as [<- <-]. by eapply Hdis.
  - intros x. rewrite elem_of_app, E1, E2. unfold listed. setoid_rewrite Hun. naive_solver.
Qed.

(** One slot. *)
Lemma enumerates_slot s i : exists vs : list X,
  enumerates σ m (fun s' i' => s' = s /\ i' = i) vs /\
  ((occupied (slot_at m s i) = false /\ vs = []) \/
   exists k p x, slot_at m s i = Slot (Some p) k true /\ heap σ !! p = Some (enc x) /\ vs = [x]).
Proof.
  destruct (occupied (slot_at m s i)) eqn:Ho.
  - destruct (placed_slot_ptr _ _ _ (mo_placed _ _ Hok) Ho) as (k & p & Hsl & Hat).
    destruct (mo_item _ _ Hok k p) as (x & Hx & _); [by exists s, i|].
    exists [x]. split; [|eauto 8]. split; [apply NoDup_singleton|]. intros y.
    rewrite list_elem_of_singleton. split.
    + intros ->. exists s, i, k, p. done.
    + intros (s' & i' & k' & p' & [-> ->] & Hat' & Hy). unfold ptr_at in *.
      rewrite Hat in Hat'. injection Hat' as <- _. rewrite Hx in Hy. injection Hy as Hy.
      symmetry. by apply enc_inj.
  - exists []. split; [|auto]. split; [constructor|]. intros x. split; [by intros ?%not_elem_of_nil|].
    intros (s' & i' & k' & p' & [-> ->] & Hat' & _). rewrite (slot_at_lookup _ _ _ _ Hat') in Ho. done.
Qed.

(** All slots: the enumeration of the members. *)
Lemma enumerates_all (vs : list X) :
  enumerates σ m (fun _ i => i ∈ seq 0 TABLE_SIZE) vs ->
  NoDup vs /\ forall x, x ∈ vs <-> member X (heap σ) m x.
Proof.
  intros [Hnd Hvs]. split; [done|]. intros x. rewrite Hvs. split.
  - intros (s & i & k & p & _ & Hat & Hx). exists k, p. split; [by exists s, i|done].
  - intros (k & p & (s & i & Hat) & Hx). exists s, i, k, p. split; [|done].
    apply elem_of_seq. pose proof (ptr_at_range _ _ _ _ _ (mo_placed _ _ Hok) Hat). lia.
Qed.
End enumerate.

Lemma emit_user_ok m s i arr c σ : map_ok user (heap σ) m -> (c < length arr)%nat ->
  exists vs out, emit_user m s i (arr, c) σ = Some (out, σ) /\ appended arr c vs out /\
    (length vs <= 1)%nat /\ enumerates (X:=user) σ m (fun s' i' => s' = s /\ i' = i) vs.
Proof.
  intros Hok Hc. destruct (enumerates_slot (X:=user) m σ Hok s i) as (vs & Hen & [[Ho ->]|Hx]).
  - exists [], (arr, c). unfold emit_user. rewrite Ho.
    split; [done|]. split; [apply appended_nil|]. split; [simpl; lia|done].
  - destruct Hx as (k & p & x & Hsl & Hx & ->). destruct (array_write_ok arr c x σ Hc) as (out & Ew & Ha).
    exists [x], out. split; [|simpl; auto]. unfold emit_user. rewrite Hsl. simpl.
    unfold mbind, M_bind, deref, load_int, load, mbind, M_bind. simpl in *. by rewrite Hx.
Qed.

Lemma users_loop_ok m σ ids : map_ok user (heap σ) m -> NoDup ids ->
  forall arr c, (c + 2 * length ids <= length arr)%nat ->
  exists vs out, users_loop m ids (arr, c) σ = Some (out, σ) /\ appended arr c vs out /\
    enumerates (X:=user) σ m (fun _ i => i ∈ ids) vs.
Proof.
  intros Hok. induction ids as [|i ids IH]; intros Hnd arr c Hc.
  { exists [], (arr, c). split; [done|]. split; [apply appended_nil|].
    pose proof (enumerates_nil (X:=user) m σ) as [? He]. split; [done|].
    intros x. rewrite He. unfold listed. setoid_rewrite elem_of_nil. done. }
  apply NoDup_cons in Hnd as [Hi Hnd]. simpl in *.
  destruct (emit_user_ok m T0 i arr c σ Hok) as (v0 & [a0 c0] & E0 & A0 & L0 & N0); [lia|].
  destruct A0 as (Al0 & Ac0 & At0). simpl in *.
  destruct (emit_user_ok m T1 i a0 c0 σ Hok) as (v1 & [a1 c1] & E1 & A1 & L1 & N1); [lia|].
  destruct A1 as (Al1 & Ac1 & At1). simpl in *.
  destruct (IH Hnd a1 c1) as (vs & out & E & A & N); [lia|].
  exists (v0 ++ v1 ++ vs), out. split; [|split].
  - unfold mbind, M_bind. rewrite E0. simpl. rewrite E1. done.
  - eapply (appended_app _ _ _ _ (a0, c0)); [done|]. by eapply (appended_app _ _ _ _ (a1, c1)).
  - eapply (enumerates_app m σ Hok _ (fun s j => (s = T1 /\ j = i) \/ j ∈ ids)); [done| | |].
    + eapply (enumerates_app m σ Hok); [done..| |by intros]. intros s j [_ ->]. done.
    + intros s j [-> ->] [[? _]|?]; done.
    + intros [] j; set_solver.
Qed.

Abbreviation comm_of := (fun name : list Z => strscpy name TASK_COMM_LEN).

Lemma emit_program_ok m s i arr c σ : map_ok program (heap σ) m -> (c < length arr)%nat ->
  exists vs out, emit_program m s i (arr, c) σ = Some (out, σ) /\
    appended arr c (comm_of <$> vs) out /\ (length vs <= 1)%nat /\
    enumerates (X:=program) σ m (fun s' i' => s' = s /\ i' = i) vs.
Proof.
  intros Hok Hc. destruct (enumerates_slot (X:=program) m σ Hok s i) as (vs & Hen & [[Ho ->]|Hx]).
  - exists [], (arr, c). unfold emit_program. rewrite Ho.
    split; [done|]. split; [apply appended_nil|]. split; [simpl; lia|done].
  - destruct Hx as (k & p & x & Hsl & Hx & ->).
    destruct (array_write_ok arr c (comm_of x) σ Hc) as (out & Ew & Ha).
    exists [x], out. split; [|simpl; auto]. unfold emit_program. rewrite Hsl. simpl.
    unfold mbind, M_bind, deref, load_str, load, mbind, M_bind. simpl in *. by rewrite Hx.
Qed.

(** The capped loop: it enumerates the slots in some [D], all of [ids] when
    it stops below the cap. *)
Definition capped (m : CuckooHash) (σ : mem obj) (ids : list nat) (arr : list (list Z)) (c : nat)
    (out : list (list Z) * nat) : Prop :=
  exists vs D, appended arr c (comm_of <$> vs) out /\ (out.2 <= MAX_STORE_PROGRAMS)%nat /\
    enumerates (X:=program) σ m D vs /\ (forall s i, D s i -> i ∈ ids) /\
    ((out.2 < MAX_STORE_PROGRAMS)%nat -> forall s i, i ∈ ids -> D s i).

Lemma capped_stop m σ ids arr : (length arr = MAX_STORE_PROGRAMS)%nat ->
  capped m σ ids arr MAX_STORE_PROGRAMS (arr, MAX_STORE_PROGRAMS).
Proof.
  intros Hl. exists [], (fun _ _ => False). split; [apply appended_nil|]. split; [done|].
  split; [apply enumerates_nil|]. split; [done|]. simpl. lia.
Qed.

Lemma programs_loop_ok m σ ids : map_ok program (heap σ) m -> NoDup ids ->
  forall arr c, (length arr = MAX_STORE_PROGRAMS)%nat -> (c <= MAX_STORE_PROGRAMS)%nat ->
  exists out, programs_loop m ids (arr, c) σ = Some (out, σ) /\ capped m σ ids arr c out.
Proof.
  intros Hok. induction ids as [|i ids IH]; intros Hnd arr c Hl Hc.
  { exists (arr, c). split; [done|]. exists [], (fun _ _ => False).
    split; [apply appended_nil|]. split; [done|]. split; [apply enumerates_nil|].
    split; [done|]. by intros _ s i ?%not_elem_of_nil. }
  apply NoDup_cons in Hnd as [Hi Hnd]. simpl. case_decide as Hlt; simpl in Hlt.
  2: { assert (c = MAX_STORE_PROGRAMS) as -> by lia. eexists. split; [done|]. by apply capped_stop. }
  destruct (emit_program_ok m T0 i arr c σ Hok) as (v0 & [a0 c0] & E0 & A0 & L0 & N0); [lia|].
  unfold mbind, M_bind. rewrite E0. simpl.
  pose proof A0 as (Al0 & Ac0 & _). simpl in *. rewrite length_fmap in Ac0.
  case_decide as Hlt0.
  - destruct (emit_program_ok m T1 i a0 c0 σ Hok) as (v1 & [a1 c1] & E1 & A1 & L1 & N1); [lia|].
    rewrite E1. pose proof A1 as (Al1 & Ac1 & _). simpl in *. rewrite length_fmap in Ac1.
    destruct (IH Hnd a1 c1) as (out & E & vs & D & A & Hcap & N & Hsub & Hall); [lia..|].
    exists out. split; [done|].
    exists (v0 ++ v1 ++ vs), (fun s j => j = i \/ D s j). split; [|split; [done|split; [|split]]].
    + rewrite !fmap_app. eapply (appended_app _ _ _ _ (a0, c0)); [done|].
      by eapply (appended_app _ _ _ _ (a1, c1)).
    + eapply (enumerates_app m σ Hok _ (fun s j => (s = T1 /\ j = i) \/ D s j)); [done| | |].
      * eapply (enumerates_app m σ Hok); [done..| |by intros]. by intros s j [_ ->] ?%Hsub.
      * intros s j [-> ->] [[? _]|?%Hsub]; done.
      * intros [] j; naive_solver.
    + intros s j [->|?%Hsub]; set_solver.
    + intros Hlt1 s j [->|?]%elem_of_cons; eauto.
  - assert (c0 = MAX_STORE_PROGRAMS) as Ec0 by lia. simpl. rewrite Ec0 in *.
    exists (a0, MAX_STORE_PROGRAMS). split.
    { destruct ids; [done|]. by vm_compute. }
    exists v0, (fun s' j => s' = T0 /\ j = i). split; [done|]. split; [done|]. split; [done|].
    split; [intros s j [_ ->]; set_solver|]. simpl. lia.
Qed.

Lemma rcu_dereference_ok F σ sp U P um pm mu mq f : store_at F σ sp U P um pm mu mq ->
  rcu_dereference sp f σ = Some (match f with UserMap => um | ProgramMap => pm end, σ).
Proof.
  intros Hst. unfold rcu_dereference, load_store, load, mbind, M_bind.
  rewrite (sr_store _ _ _ _ _ _ _ _ _ Hst). by destruct f.
Qed.

Lemma load_map_ok l m (σ : mem obj) : heap σ !! l = Some (OMap m) -> load_map l σ = Some (m, σ).
Proof. intros Hl. unfold load_map, load, mbind, M_bind. by rewrite Hl. Qed.

(** * Properties *)

Section properties.
Context (F : gmap loc obj) (σ : mem obj) (sp : loc) (U : gset user) (P : gset program).

(** C11: registering a user refines insertion into the set of users.  On
    every allocator behaviour the call returns without undefined behaviour:
    it adds the id (0), reports a duplicate (-EEXIST), or fails with the set
    unchanged: -ENOMEM only if an allocation fails, -ENOSPC only if a
    registered id occupies the slot the new one hashes to.  Programs, lock and
    frame are kept, so nothing is leaked or freed twice. *)
Theorem add_user_refines x id : store_rep F σ sp U P -> F !! id = Some (OInt x) ->
  exists r σ' U', add_user_to_store sp id σ = Some (r, σ') /\
    add_user_outcome U x r U' /\ (lucky σ -> r <> - ENOMEM) /\ store_rep F σ' sp U' P.
Proof.
  intros Hst Hid. destruct (wp_inv _ _ _ (add_user_ok F sp U P x id σ Hst Hid)) as (r & σ' & E & U' & ? & ?).
  exists r, σ', U'. split_and!; try done. intros Hl. by apply (add_to_store_lucky sp id σ _ _ Hl E).
Qed.

(** C17: deregistering a user refines removal from the set of users, with
    -EINVAL for an id that is not registered and, only if an allocation fails,
    -ENOMEM with the set unchanged; nothing is leaked or freed twice. *)
Theorem remove_user_refines x id : store_rep F σ sp U P -> F !! id = Some (OInt x) ->
  exists r σ' U', remove_user_from_store sp id σ = Some (r, σ') /\
    remove_outcome U x r U' /\ (lucky σ -> r <> - ENOMEM) /\ store_rep F σ' sp U' P.
Proof.
  intros Hst Hid. destruct (wp_inv _ _ _ (remove_user_ok F sp U P x id σ Hst Hid)) as (r & σ' & E & U' & ? & ?).
  exists r, σ', U'. split_and!; try done. intros Hl. by apply (remove_from_store_lucky sp id σ _ _ Hl E).
Qed.

(** C18: registering a program name refines insertion into the set of
    programs, on every path, with the same conditions for -ENOMEM and
    -ENOSPC as for users. *)
Theorem add_program_refines name id : store_rep F σ sp U P -> F !! id = Some (OStr name) ->
  exists r σ' P', add_program_to_store sp id σ = Some (r, σ') /\
    add_program_outcome P name r P' /\ (lucky σ -> r <> - ENOMEM) /\ store_rep F σ' sp U P'.
Proof.
  intros Hst Hid. destruct (wp_inv _ _ _ (add_program_ok F sp U P name id σ Hst Hid)) as (r & σ' & E & P' & ? & ?).
  exists r, σ', P'. split_and!; try done. intros Hl. by apply (add_to_store_lucky sp id σ _ _ Hl E).
Qed.

(** Deregistering a program name refines removal from the set of
    programs, on every path, with -ENOMEM only if an allocation fails. *)
Theorem remove_program_refines name id : store_rep F σ sp U P -> F !! id = Some (OStr name) ->
  exists r σ' P', remove_program_from_store sp id σ = Some (r, σ') /\
    remove_outcome P name r P' /\ (lucky σ -> r <> - ENOMEM) /\ store_rep F σ' sp U P'.
Proof.
  intros Hst Hid. destruct (wp_inv _ _ _ (remove_program_ok F sp U P name id σ Hst Hid)) as (r & σ' & E & P' & ? & ?).
  exists r, σ', P'. split_and!; try done. intros Hl. by apply (remove_from_store_lucky sp id σ _ _ Hl E).
Qed.

Lemma find_user_ok x id : store_rep F σ sp U P -> heap σ !! id = Some (OInt x) ->
  find_user_in_store sp id σ = Some (if decide (x ∈ U) then 0 else -1, σ).
Proof.
  intros (um & pm & mu & mq & Hst) Hid.
  destruct (find_in_store_ok (X:=user) σ sp _ um mu id x (sr_store _ _ _ _ _ _ _ _ _ Hst))
    as (c & Ec & Hc); [done|apply Hst..|done|].
  unfold find_user_in_store. rewrite Ec. rewrite <-(sr_users _ _ _ _ _ _ _ _ _ Hst) in Hc.
  case_decide; naive_solver.
Qed.

Lemma find_program_ok name id : store_rep F σ sp U P -> heap σ !! id = Some (OStr name) ->
  find_program_in_store sp id σ = Some (if decide (name ∈ P) then 0 else -1, σ).
Proof.
  intros (um & pm & mu & mq & Hst) Hid.
  destruct (find_in_store_ok (X:=program) σ sp _ pm mq id name (sr_store _ _ _ _ _ _ _ _ _ Hst))
    as (c & Ec & Hc); [done|apply Hst..|done|].
  unfold find_program_in_store. rewrite Ec. rewrite <-(sr_programs _ _ _ _ _ _ _ _ _ Hst) in Hc.
  case_decide; naive_solver.
Qed.

(** The membership queries of the stub's hot path decide membership in
    the abstract sets (0 for registered, -1 otherwise) and change nothing. *)
Theorem find_decides_membership uid uid_p name name_p : store_rep F σ sp U P ->
  heap σ !! uid_p = Some (OInt uid) -> heap σ !! name_p = Some (OStr name) ->
  find_user_in_store sp uid_p σ = Some (if decide (uid ∈ U) then 0 else -1, σ) /\
  find_program_in_store sp name_p σ = Some (if decide (name ∈ P) then 0 else -1, σ).
Proof. intros Hst Hu Hp. split; [by apply find_user_ok|by apply find_program_ok]. Qed.

Lemma get_all_users_ok arr : store_rep F σ sp U P -> length arr = MAX_STORE_USERS ->
  exists out n, get_all_users_from_store sp arr σ = Some ((out, n), σ) /\
    length out = MAX_STORE_USERS /\ n = size U /\ take n out ≡ₚ elements U.
Proof.
  intros (um & pm & mu & mq & Hst) Hl.
  destruct (users_loop_ok mu σ (seq 0 TABLE_SIZE) (sr_uok _ _ _ _ _ _ _ _ _ Hst) (NoDup_seq _ _) arr 0)
    as (vs & [out n] & E & (Al & Ac & At) & Hen).
  { rewrite length_seq, Hl. done. }
  apply enumerates_all in Hen as [Hnd Hvs]; [|apply Hst]. simpl in *.
  assert (vs ≡ₚ elements U) as Hperm.
  { apply NoDup_Permutation; [done|apply NoDup_elements|]. intros x.
    by rewrite Hvs, elem_of_elements, (sr_users _ _ _ _ _ _ _ _ _ Hst). }
  exists out, n. split; [|split; [congruence|split]].
  - unfold get_all_users_from_store, mbind, M_bind.
    rewrite (rcu_dereference_ok _ _ _ _ _ _ _ _ _ _ Hst). by rewrite (load_map_ok _ mu) by apply Hst.
  - rewrite Ac. by apply Permutation_length in Hperm as ->.
  - by rewrite At.
Qed.

(** [get_all_users_from_store] writes every registered user exactly once
    into the first [num_users] cells of the caller's array of
    [MAX_STORE_USERS] cells, and never past its end. *)
Theorem get_all_users_exact arr : store_rep F σ sp U P -> length arr = MAX_STORE_USERS ->
  exists out n, get_all_users_from_store sp arr σ = Some ((out, n), σ) /\
    length out = MAX_STORE_USERS /\ n = size U /\ take n out ≡ₚ elements U.
Proof. apply get_all_users_ok. Qed.

Lemma get_all_programs_ok arr : store_rep F σ sp U P -> length arr = MAX_STORE_PROGRAMS ->
  exists names out n, get_all_programs_from_store sp arr σ = Some ((out, n), σ) /\
    NoDup names /\ (forall x, x ∈ names -> x ∈ P) /\ length names = n /\
    n = Nat.min MAX_STORE_PROGRAMS (size P) /\ take n out = comm_of <$> names.
Proof.
  intros (um & pm & mu & mq & Hst) Hl.
  destruct (programs_loop_ok mq σ (seq 0 TABLE_SIZE) (sr_pok _ _ _ _ _ _ _ _ _ Hst) (NoDup_seq _ _) arr 0)
    as ([out n] & E & vs & D & (Al & Ac & At) & Hcap & [Hnd Hvs] & Hsub & Hall); [done|lia|].
  cbn [fst snd] in Al, Ac, At, Hcap, Hall. rewrite length_fmap in Ac.
  assert (forall x, x ∈ vs -> x ∈ P) as Hin.
  { intros x (s & i & k & p & _ & Hat & Hx)%Hvs. apply (sr_programs _ _ _ _ _ _ _ _ _ Hst).
    exists k, p. split; [by exists s, i|done]. }
  assert (length vs <= size P)%nat as Hle.
  { rewrite <-(size_list_to_set (C:=gset program) vs) by done. apply subseteq_size.
    intros x. rewrite elem_of_list_to_set. apply Hin. }
  exists vs, out, n. split; [|split; [done|split; [done|split; [done|split; [|done]]]]].
  - unfold get_all_programs_from_store, mbind, M_bind.
    rewrite (rcu_dereference_ok _ _ _ _ _ _ _ _ _ _ Hst). by rewrite (load_map_ok _ mq) by apply Hst.
  - destruct (decide (n < MAX_STORE_PROGRAMS)%nat) as [Hlt|]; [|lia].
    assert (size P <= length vs)%nat; [|lia].
    rewrite <-(size_list_to_set (C:=gset program) vs) by done. apply subseteq_size.
    intros x Hx%(sr_programs _ _ _ _ _ _ _ _ _ Hst). apply elem_of_list_to_set, Hvs.
    destruct Hx as (k & p & (s & i & Hat) & Hx). exists s, i, k, p. split; [|done].
    apply Hall; [done|]. apply elem_of_seq.
    pose proof (ptr_at_range _ _ _ _ _ (mo_placed _ _ (sr_pok _ _ _ _ _ _ _ _ _ Hst)) Hat). lia.
Qed.

(** [get_all_programs_from_store] never writes past its array of
    [MAX_STORE_PROGRAMS] names; it lists distinct registered programs, all of
    them when at most [MAX_STORE_PROGRAMS] are registered and exactly
    [MAX_STORE_PROGRAMS] otherwise, each cut to [TASK_COMM_LEN - 1] bytes. *)
Theorem get_all_programs_capped arr : store_rep F σ sp U P -> length arr = MAX_STORE_PROGRAMS ->
  exists names out n, get_all_programs_from_store sp arr σ = Some ((out, n), σ) /\
    NoDup names /\ (forall x, x ∈ names -> x ∈ P) /\ length names = n /\
    n = Nat.min MAX_STORE_PROGRAMS (size P) /\ take n out = comm_of <$> names.
Proof. apply get_all_programs_ok. Qed.

(** [init_sysThrot_store] creates an empty store, or returns -ENOMEM, only
    if an allocation failed, and frees all it had allocated; [destroy_sysThrot_store] then frees the store,
    both maps and every registered item, each once, and nothing else. *)
Theorem store_lifecycle : mem_wf σ ->
  (exists r p σ', init_sysThrot_store σ = Some ((r, p), σ') /\
     ((r = 0 /\ exists sp0, p = Some sp0 /\ store_rep (heap σ) σ' sp0 ∅ ∅) \/
      (r = - ENOMEM /\ ~ lucky σ /\ heap σ' = heap σ))) /\
  (store_rep F σ sp U P ->
     exists σ', destroy_sysThrot_store (Some sp) σ = Some (0, σ') /\ heap σ' = F).
Proof.
  intros Hwf. split.
  - destruct (wp_inv _ _ _ (init_store_ok σ Hwf)) as ([r p] & σ' & E & Hr).
    cbn [fst snd] in Hr. exists r, p, σ'. split; [done|]. destruct Hr as [?|[-> ?]]; [by left|]. right.
    split; [done|]. split; [|done]. intros Hl. by destruct (init_store_lucky σ _ _ Hl E).
  - intros Hst. destruct (wp_inv _ _ _ (destroy_store_ok F σ sp U P Hst)) as (r & σ' & E & -> & ?).
    by exists σ'.
Qed.
End properties.

(** C23: the kick loop of [insert] never loses or duplicates an entry, also
    when it gives up: the entries afterwards together with the left-over item
    are the entries before together with the new one; every entry sits where
    its key hashes to. *)
Theorem kick_loop_conserves m key p : placed m -> (forall k, ~ has m k p) ->
  insert_loop_post m key p (insert_loop MAX_KICKS m key (Some p)).1
    (insert_loop MAX_KICKS m key (Some p)).2.
Proof. apply insert_loop_ok. Qed.

(** ** Witnesses: the store [init_sysThrot_store] creates at address 3, next to
    a buffer at 1 that holds a uid and one at 2 that holds a name. *)

Definition demo_frame : gmap loc obj := {[ 1%positive := OInt 1000; 2%positive := OStr [112; 49] ]}.

Definition demo_init : mem obj := Mem demo_frame 3 [].

Lemma demo_init_wf : mem_wf demo_init.
Proof.
  intros l [v Hv]. simpl in *. unfold demo_frame in Hv.
  apply lookup_insert_Some in Hv as [[<- _]|[_ Hv]]; [lia|].
  apply lookup_singleton_Some in Hv as [<- _]. lia.
Qed.

Definition demo_store : mem obj :=
  Mem (<[3%positive := OStore (Store (Some 4%positive) (Some 5%positive) false)]>
        (<[5%positive := OMap zero_map]> (<[4%positive := OMap zero_map]>
          (<[3%positive := OUninit]> demo_frame)))) 6 [].

Lemma demo_store_rep : store_rep demo_frame demo_store 3 ∅ ∅.
Proof. do 4 eexists. apply (store_at_init demo_init []), demo_init_wf. Qed.

Lemma add_user_refines_witness :
  exists r σ' U', add_user_to_store 3 1 demo_store = Some (r, σ') /\
    add_user_outcome ∅ 1000 r U' /\ (lucky demo_store -> r <> - ENOMEM) /\ store_rep demo_frame σ' 3 U' ∅.
Proof. exact (add_user_refines demo_frame demo_store 3 ∅ ∅ 1000 1 demo_store_rep eq_refl). Defined.

Lemma remove_user_refines_witness :
  exists r σ' U', remove_user_from_store 3 1 demo_store = Some (r, σ') /\
    remove_outcome ∅ 1000 r U' /\ (lucky demo_store -> r <> - ENOMEM) /\ store_rep demo_frame σ' 3 U' ∅.
Proof. exact (remove_user_refines demo_frame demo_store 3 ∅ ∅ 1000 1 demo_store_rep eq_refl). Defined.

Lemma add_program_refines_witness :
  exists r σ' P', add_program_to_store 3 2 demo_store = Some (r, σ') /\
    add_program_outcome ∅ [112; 49] r P' /\ (lucky demo_store -> r <> - ENOMEM) /\ store_rep demo_frame σ' 3 ∅ P'.
Proof. exact (add_program_refines demo_frame demo_store 3 ∅ ∅ [112; 49] 2 demo_store_rep eq_refl). Defined.

Lemma remove_program_refines_witness :
  exists r σ' P', remove_program_from_store 3 2 demo_store = Some (r, σ') /\
    remove_outcome ∅ [112; 49] r P' /\ (lucky demo_store -> r <> - ENOMEM) /\ store_rep demo_frame σ' 3 ∅ P'.
Proof. exact (remove_program_refines demo_frame demo_store 3 ∅ ∅ [112; 49] 2 demo_store_rep eq_refl). Defined.

Lemma find_decides_membership_witness :
  find_user_in_store 3 1 demo_store = Some (-1, demo_store) /\
  find_program_in_store 3 2 demo_store = Some (-1, demo_store).
Proof.
  exact (find_decides_membership demo_frame demo_store 3 ∅ ∅ 1000 1 [112; 49] 2
    demo_store_rep eq_refl eq_refl).
Defined.

Lemma get_all_users_exact_witness :
  exists out n, get_all_users_from_store 3 (replicate 256 0) demo_store = Some ((out, n), demo_store) /\
    length out = MAX_STORE_USERS /\ n = size (∅ : gset user) /\ take n out ≡ₚ elements (∅ : gset user).
Proof. exact (get_all_users_exact demo_frame demo_store 3 ∅ ∅ (replicate 256 0) demo_store_rep eq_refl). Defined.

Lemma get_all_programs_capped_witness :
  exists names out n,
    get_all_programs_from_store 3 (replicate 64 []) demo_store = Some ((out, n), demo_store) /\
    NoDup names /\ (forall x, x ∈ names -> x ∈ (∅ : gset program)) /\ length names = n /\
    n = Nat.min MAX_STORE_PROGRAMS (size (∅ : gset program)) /\ take n out = comm_of <$> names.
Proof. exact (get_all_programs_capped demo_frame demo_store 3 ∅ ∅ (replicate 64 []) demo_store_rep eq_refl). Defined.

Lemma store_lifecycle_witness :
  exists σ', destroy_sysThrot_store (Some 3%positive) demo_store = Some (0, σ') /\ heap σ' = demo_frame.
Proof.
  apply (store_lifecycle demo_frame demo_store 3 ∅ ∅); [|exact demo_store_rep].
  destruct demo_store_rep as (? & ? & ? & ? & H). exact (sr_wf _ _ _ _ _ _ _ _ _ H).
Defined.

Lemma kick_loop_conserves_witness :
  insert_loop_post zero_map 1000 9 (insert_loop MAX_KICKS zero_map 1000 (Some 9%positive)).1
    (insert_loop MAX_KICKS zero_map 1000 (Some 9%positive)).2.
Proof.
  exact (kick_loop_conserves zero_map 1000 9 placed_zero_map (fun k => has_zero_map k 9)).
Defined.
