(* ===== verification/Rcu.v ===== *)
(** * Concurrent readers and writers of the store ([src/sysThrot_store.c])

    [find_user_in_store] and [find_program_in_store] run on every hooked
    syscall, without a lock, while the administrator adds and removes entries.
    Here the readers take one step per access to the shared map, inside an RCU
    read-side critical section, and a writer publishes its new map, waits for
    the readers that were inside when [synchronize_rcu] was called, and then
    frees the old map.  Between [mutex_lock] and [mutex_unlock] a writer only
    touches memory no reader can reach yet, up to the one store of
    [rcu_assign_pointer]; that part is one transition, as is the freeing of the
    old map. *)

From stdpp Require Import prelude gmap list.
From S2P Require Import Prelude Kernel Store StoreProofs StoreSpec.

(** ** The two halves of a writer *)

(** What a writer has done when it releases the mutex: failed, or replaced the
    map that was at [old]. *)
Inductive update := Failed (r : Z) | Replaced (old : loc).

(** [add_user_to_store] and [add_program_to_store] up to [mutex_unlock]. *)
Definition add_update (X : Type) `{ItemOps X} (store_p id : loc) : K update :=
  key ← getKey X id;
  mutex_lock store_p ;;
  old_map ← rcu_dereference store_p (field X);
  c ← contains old_map key id (compare X);
  if c =? 0 then mutex_unlock store_p ;; mret (Failed (- EEXIST)) else
  new_map ← clone_map old_map (clone_item X);
  match new_map with
  | None => mutex_unlock store_p ;; mret (Failed (- ENOMEM))
  | Some new_map =>
      id' ← clone_item X id;
      match id' with
      | None => destroy_map (Some new_map) ;; mutex_unlock store_p ;; mret (Failed (- ENOMEM))
      | Some id' =>
          r ← insert new_map key id' (compare X);
          if negb (r =? 0) then
            destroy_map (Some new_map) ;; mutex_unlock store_p ;; mret (Failed (- ENOSPC))
          else
            rcu_assign_pointer store_p (field X) (Some new_map) ;;
            mutex_unlock store_p ;; mret (Replaced old_map)
      end
  end.

(** [remove_user_from_store] and [remove_program_from_store] up to
    [mutex_unlock]. *)
Definition remove_update (X : Type) `{ItemOps X} (store_p id : loc) : K update :=
  key ← getKey X id;
  mutex_lock store_p ;;
  old_map ← rcu_dereference store_p (field X);
  c ← contains old_map key id (compare X);
  if negb (c =? 0) then mutex_unlock store_p ;; mret (Failed (- EINVAL)) else
  new_map ← clone_map old_map (clone_item X);
  match new_map with
  | None => mutex_unlock store_p ;; mret (Failed (- ENOMEM))
  | Some new_map =>
      r ← remove new_map key id (compare X);
      if negb (r =? 0) then
        destroy_map (Some new_map) ;; mutex_unlock store_p ;; mret (Failed (- EINVAL))
      else
        rcu_assign_pointer store_p (field X) (Some new_map) ;;
        mutex_unlock store_p ;; mret (Replaced old_map)
  end.

(** The rest, after [synchronize_rcu]. *)
Definition reclaim (u : update) : K Z :=
  match u with
  | Failed r => mret r
  | Replaced old => destroy_map (Some old) ;; mret 0
  end.

(** ** The transition system *)

(** A kind of item: its field of the store, key and comparison. *)
Definition key_at (f : map_field) (id : loc) : K Z :=
  match f with UserMap => getKeyFromUserId id | ProgramMap => getKeyFromProgramName id end.

Definition compare_at (f : map_field) : loc -> loc -> K bool :=
  match f with UserMap => compareUser | ProgramMap => compareProgram end.

(** A search for the item at [id]; [ans] is bookkeeping for the statements
    only: whether the item was registered when the map was dereferenced. *)
Inductive reader :=
| RIdle (r : option Z)                                     (* what the last search returned *)
| RLocked (f : map_field) (id : loc) (key : Z)             (* after [rcu_read_lock] *)
| RProbe (s : side) (f : map_field) (id : loc) (key : Z) (map : loc) (ans : bool)
| RUnlock (r : Z) (ans : bool).                            (* before [rcu_read_unlock] *)

Inductive writer :=
| WIdle (r : option Z)
| WPublished (f : map_field) (old : loc)                   (* before [synchronize_rcu] *)
| WSync (f : map_field) (old : loc) (waiting : gset nat).  (* inside it *)

Record rcu := Rcu {
  rcu_mem : mem obj;
  rcu_store : loc;
  rcu_readers : list reader;
  rcu_writers : list writer;
  rcu_users : gset user;                                   (* the registered sets, *)
  rcu_programs : gset program;                             (* for the statements only *)
}.

Inductive rcu_label :=
| LFind (i : nat) (f : map_field) (id : loc)               (* reader [i] starts a search *)
| LReader (i : nat)
| LAdd (j : nat) (f : map_field) (id : loc)                (* writer [j] starts *)
| LRemove (j : nat) (f : map_field) (id : loc)
| LWriter (j : nat).

Inductive rcu_outcome := RBlocked | RUB | RNext (s : rcu).

Definition set_readers (l : list reader) (s : rcu) : rcu :=
  Rcu (rcu_mem s) (rcu_store s) l (rcu_writers s) (rcu_users s) (rcu_programs s).
Definition set_writers (l : list writer) (s : rcu) : rcu :=
  Rcu (rcu_mem s) (rcu_store s) (rcu_readers s) l (rcu_users s) (rcu_programs s).
Definition set_mem (σ : mem obj) (s : rcu) : rcu :=
  Rcu σ (rcu_store s) (rcu_readers s) (rcu_writers s) (rcu_users s) (rcu_programs s).

(** Whether the item at [id] is registered. *)
Definition registered (s : rcu) (f : map_field) (id : loc) : bool :=
  match f, heap (rcu_mem s) !! id with
  | UserMap, Some (OInt x) => bool_decide (x ∈ rcu_users s)
  | ProgramMap, Some (OStr x) => bool_decide (x ∈ rcu_programs s)
  | _, _ => false
  end.

(** Inside a read-side critical section. *)
Definition in_section (p : reader) : bool := match p with RIdle _ => false | _ => true end.

Definition sections (l : list reader) : gset nat :=
  list_to_set (filter (fun i => (in_section <$> l !! i) = Some true) (seq 0 (length l))).

(** Reader [i] leaves its critical section. *)
Definition leave (i : nat) (w : writer) : writer :=
  match w with WSync f old waiting => WSync f old (waiting ∖ {[i]}) | w => w end.

Definition reader_step (i : nat) (p : reader) (s : rcu) : rcu_outcome :=
  match p with
  | RIdle _ => RBlocked
  | RLocked f id key =>
      match rcu_dereference (rcu_store s) f (rcu_mem s) with
      | None => RUB
      | Some (map, σ) =>
          RNext (set_readers (<[i := RProbe T0 f id key map (registered s f id)]> (rcu_readers s)) (set_mem σ s))
      end
  | RProbe t f id key map ans =>
      match probe (compare_at f) map t (hash t key) id (rcu_mem s) with
      | None => RUB
      | Some (b, σ) =>
          RNext (set_readers (<[i :=
            if b : bool then RUnlock 0 ans
            else match t with T0 => RProbe T1 f id key map ans | T1 => RUnlock (-1) ans end]> (rcu_readers s))
            (set_mem σ s))
      end
  | RUnlock r _ =>
      RNext (set_readers (<[i := RIdle (Some r)]> (rcu_readers s))
        (set_writers (leave i <$> rcu_writers s) s))
  end.

(** The outcome of a writer's update, given the sets it leads to. *)
Definition after_update (j : nat) (f : map_field) (U : gset user) (P : gset program)
    (o : option (update * mem obj)) (s : rcu) : rcu_outcome :=
  match o with
  | None => RUB
  | Some (Failed r, σ) => RNext (set_writers (<[j := WIdle (Some r)]> (rcu_writers s)) (set_mem σ s))
  | Some (Replaced old, σ) =>
      RNext (Rcu σ (rcu_store s) (rcu_readers s) (<[j := WPublished f old]> (rcu_writers s)) U P)
  end.

Definition add_step (j : nat) (f : map_field) (id : loc) (s : rcu) : rcu_outcome :=
  match f, heap (rcu_mem s) !! id with
  | UserMap, Some (OInt x) =>
      after_update j f ({[x]} ∪ rcu_users s) (rcu_programs s) (add_update user (rcu_store s) id (rcu_mem s)) s
  | ProgramMap, Some (OStr x) =>
      after_update j f (rcu_users s) ({[x]} ∪ rcu_programs s) (add_update program (rcu_store s) id (rcu_mem s)) s
  | _, _ => RUB
  end.

Definition remove_step (j : nat) (f : map_field) (id : loc) (s : rcu) : rcu_outcome :=
  match f, heap (rcu_mem s) !! id with
  | UserMap, Some (OInt x) =>
      after_update j f (rcu_users s ∖ {[x]}) (rcu_programs s) (remove_update user (rcu_store s) id (rcu_mem s)) s
  | ProgramMap, Some (OStr x) =>
      after_update j f (rcu_users s) (rcu_programs s ∖ {[x]}) (remove_update program (rcu_store s) id (rcu_mem s)) s
  | _, _ => RUB
  end.

Definition writer_step (j : nat) (w : writer) (s : rcu) : rcu_outcome :=
  match w with
  | WIdle _ => RBlocked
  | WPublished f old =>
      RNext (set_writers (<[j := WSync f old (sections (rcu_readers s))]> (rcu_writers s)) s)
  | WSync _ old waiting =>
      if decide (waiting = ∅) then
        match reclaim (Replaced old) (rcu_mem s) with
        | None => RUB
        | Some (r, σ) => RNext (set_writers (<[j := WIdle (Some r)]> (rcu_writers s)) (set_mem σ s))
        end
      else RBlocked
  end.

Definition rcu_step (l : rcu_label) (s : rcu) : rcu_outcome :=
  match l with
  | LFind i f id =>
      match rcu_readers s !! i with
      | Some (RIdle _) =>
          match key_at f id (rcu_mem s) with
          | None => RUB
          | Some (key, σ) => RNext (set_readers (<[i := RLocked f id key]> (rcu_readers s)) (set_mem σ s))
          end
      | _ => RBlocked
      end
  | LReader i => match rcu_readers s !! i with Some p => reader_step i p s | None => RBlocked end
  | LAdd j f id => match rcu_writers s !! j with Some (WIdle _) => add_step j f id s | _ => RBlocked end
  | LRemove j f id => match rcu_writers s !! j with Some (WIdle _) => remove_step j f id s | _ => RBlocked end
  | LWriter j => match rcu_writers s !! j with Some w => writer_step j w s | None => RBlocked end
  end.

(** A run; a blocked label leaves the state as it is. *)
Fixpoint rcu_run (ls : list rcu_label) (s : rcu) : rcu_outcome :=
  match ls with
  | [] => RNext s
  | l :: ls =>
      match rcu_step l s with
      | RBlocked => rcu_run ls s
      | RUB => RUB
      | RNext s => rcu_run ls s
      end
  end.
