(* ===== verification/RcuProofs.v ===== *)
(** * Safety of concurrent readers and writers

    A writer's update leaves everything a reader may hold in place and moves
    the old map to the frame; the invariant of the transition system of [Rcu.v]
    says who protects which map. *)

From stdpp Require Import prelude gmap list.
From S2P Require Import Prelude Kernel Store StoreProofs StoreSpec Rcu.

(** ** A writer is its update, then its reclamation *)

Lemma bind_cong {A B} (m : K A) (k k' : A -> K B) σ : (forall a σ, k a σ = k' a σ) -> (m ≫= k) σ = (m ≫= k') σ.
Proof. intros Hk. unfold mbind, M_bind. destruct (m σ) as [[a σ']|]; [apply Hk|done]. Qed.

Lemma bind_assoc {A B C} (m : K A) (k : A -> K B) (l : B -> K C) σ :
  ((m ≫= k) ≫= l) σ = (m ≫= (fun a => k a ≫= l)) σ.
Proof. unfold mbind, M_bind. by destruct (m σ) as [[]|]. Qed.

(** Pushes the continuation of a bind into a program. *)
Ltac bind_split :=
  repeat (
    lazymatch goal with
    | |- (?m ≫= _) ?σ = ((?m ≫= _) ≫= _) ?σ => rewrite (bind_assoc m); apply bind_cong; intros ? ?; cbv beta
    | |- (_ ≫= _) _ = ((if ?c then _ else _) ≫= _) _ => destruct c
    | |- (if ?c then _ else _) _ = _ => destruct c
    | |- (match ?p with _ => _ end) _ = _ => destruct p
    end); try reflexivity.

Section split.
Context {X : Type} `{ItemOps X}.

Lemma add_split sp id σ : add_to_store X sp id σ = (u ← add_update X sp id; reclaim u) σ.
Proof. unfold add_to_store, add_update. bind_split. Qed.

Lemma remove_split sp id σ : remove_from_store X sp id σ = (u ← remove_update X sp id; reclaim u) σ.
Proof. unfold remove_from_store, remove_update. bind_split. Qed.
End split.

(** ** What an update does to the heap *)

(** [h'] is [h] with the store object set to [st'] and the map [m'] added at the
    fresh location [mp']; nothing else is touched. *)
Record published (h h' : gmap loc obj) (sp : loc) (st' : sysThrot_Store) (mp' : loc) (m' : CuckooHash) : Prop := {
  pb_store : h' !! sp = Some (OStore st');
  pb_map : h' !! mp' = Some (OMap m');
  pb_fresh : h !! mp' = None;
  pb_ptr k p : has m' k p -> h !! p = None;
  pb_keep l v : h !! l = Some v -> l <> sp -> h' !! l = Some v;
  pb_dom l : is_Some (h' !! l) -> is_Some (h !! l) \/ l = mp' \/ exists k, has m' k l;
}.

Section update.
Context {X : Type} `{ItemLaws X}.
Implicit Types (x y : X) (σ : mem obj) (st : sysThrot_Store).

Lemma wp_publish_only {A} σ0 sp st mp m mp' m' (u : A) Q σ :
  field_ok X σ0 sp st mp m -> ext (heap (locked σ0 sp st)) (heap σ) mp' m' ->
  map_ok X (heap σ) m' -> mem_wf σ ->
  (forall σ', published (heap σ0) (heap σ') sp (set_field (field X) (Some mp') st) mp' m' ->
     mem_wf σ' -> map_ok X (heap σ') m' ->
     (forall x, member X (heap σ') m' x <-> member X (heap σ) m' x) -> Q u σ') ->
  wp (rcu_assign_pointer sp (field X) (Some mp') ;; mutex_unlock sp ;; mret u : K A) Q σ.
Proof.
  intros Hf He Hok' Hwf HQ. destruct (pub_lock _ _ _ _ _ _ _ _ Hf He) as (Hs & Hmps & Hmps').
  apply wp_bind. unfold rcu_assign_pointer. apply wp_bind.
  eapply wp_load_store; [done|]. eapply wp_store; [done|]. apply wp_bind.
  eapply wp_mutex_unlock; [apply lookup_insert_eq|by destruct (field X)|]. simpl.
  rewrite insert_insert_eq, lock_set_field, lock_id by apply Hf. apply wp_ret.
  assert (forall k p, has m' k p -> p <> sp) as Hsp.
  { intros k p (Hp & _)%(ext_ptr _ _ _ _ He)%(pub_fresh _ _ _ _ _ Hf). done. }
  assert (forall k p, has m' k p -> <[sp := OStore (set_field (field X) (Some mp') st)]> (heap σ) !! p = heap σ !! p) as Hag.
  { intros k p Hp%Hsp. by apply lookup_insert_ne. }
  apply HQ; simpl.
  - destruct (pub_fresh _ _ _ _ _ Hf mp' (ext_fresh _ _ _ _ He)) as (_ & _ & Hm0 & _). split.
    + apply lookup_insert_eq.
    + rewrite lookup_insert_ne by done. apply He.
    + done.
    + intros k p Hp%(ext_ptr _ _ _ _ He). by apply (pub_fresh _ _ _ _ _ Hf) in Hp as (_ & _ & ? & _).
    + intros l v Hl Hls. rewrite lookup_insert_ne by done. apply (ext_sub _ _ _ _ He). simpl.
      by rewrite lookup_insert_ne.
    + intros l [v Hv]. apply lookup_insert_Some in Hv as [[<- _]|[Hls Hv]].
      { left. rewrite (fo_store _ _ _ _ _ Hf). eauto. }
      destruct (ext_dom _ _ _ _ He l) as [[w Hw]|?]; [eauto| |by right].
      simpl in Hw. rewrite lookup_insert_ne in Hw by done. eauto.
  - by eapply mem_wf_store.
  - by apply (map_ok_frame (heap σ)).
  - intros x. by apply member_frame.
Qed.

(** The two updates: a failure gives the heap back, a success publishes a new
    map and leaves the old one as it was. *)
Definition updated σ sp st mp (R : CuckooHash -> mem obj -> Prop) (u : update) (σ' : mem obj) : Prop :=
  match u with
  | Failed _ => heap σ' = heap σ /\ mem_wf σ'
  | Replaced old => old = mp /\ exists mp' m',
      published (heap σ) (heap σ') sp (set_field (field X) (Some mp') st) mp' m' /\
      mem_wf σ' /\ map_ok X (heap σ') m' /\ R m' σ'
  end.

Lemma id_not_store σ sp st mp m id x : field_ok X σ sp st mp m -> heap σ !! id = Some (enc x) ->
  heap (locked σ sp st) !! id = Some (enc x).
Proof.
  intros Hf Hid. simpl. rewrite lookup_insert_ne; [done|]. intros <-.
  rewrite (fo_store _ _ _ _ _ Hf) in Hid. injection Hid as Hid. symmetry in Hid. by apply enc_not_store in Hid.
Qed.

Lemma wp_add_update σ sp st mp m id x :
  field_ok X σ sp st mp m -> heap σ !! id = Some (enc x) ->
  wp (add_update X sp id)
    (updated σ sp st mp (fun m' σ' => forall y, member X (heap σ') m' y <-> member X (heap σ) m y \/ y = x)) σ.
Proof.
  intros Hf Hid. destruct (locked_ok _ _ _ _ _ Hf) as (Hwfl & Hokl & Hml & Hmeml).
  eapply wp_writer_prefix; [done..|]. intros c Hc. simpl.
  destruct Hc as [[-> Hc]|[-> Hc]]; [by eapply wp_unlock_fail|].
  apply wp_bind. eapply wp_clone_map; [done..| |].
  { intros σ' Hh' Hwf'. by eapply wp_unlock_fail. }
  intros new md σ1 He1 Hok1 Hwf1 Hmem1. apply wp_bind.
  apply (clone_ok id x); [done| | |].
  { apply (ext_sub _ _ _ _ He1). by eapply id_not_store. }
  { intros o. apply wp_bind. eapply ext_destroy_wf; [|done..|]; [done|].
    intros σ2 Hh2 Hwf2. by eapply wp_unlock_fail. }
  intros o. apply wp_bind.
  eapply (wp_insert _ (heap σ1) new md (next σ1) x); [done|by apply mem_wf_fresh|done..| |by apply mem_wf_alloc| |].
  { by rewrite Hmem1, Hmeml. }
  - intros m' σ2 He2 Hok2 Hwf2 Hmem2. simpl. eapply wp_publish_only; [done..|].
    intros σ3 Hp Hwf3 Hok3 Hmem3. split; [done|]. exists new, m'. split_and!; try done.
    intros y. by rewrite Hmem3, Hmem2, Hmem1, Hmeml.
  - intros m' σ2 He2 Hok2 Hwf2 _. simpl. apply wp_bind. eapply ext_destroy_wf; [done..|].
    intros σ3 Hh3 Hwf3. by eapply wp_unlock_fail.
Qed.

Lemma wp_remove_update σ sp st mp m id x :
  field_ok X σ sp st mp m -> heap σ !! id = Some (enc x) ->
  wp (remove_update X sp id)
    (updated σ sp st mp (fun m' σ' => forall y, member X (heap σ') m' y <-> member X (heap σ) m y /\ y <> x)) σ.
Proof.
  intros Hf Hid. destruct (locked_ok _ _ _ _ _ Hf) as (Hwfl & Hokl & Hml & Hmeml).
  eapply wp_writer_prefix; [done..|]. intros c Hc. simpl.
  destruct Hc as [[-> Hc]|[-> Hc]]; simpl; [|by eapply wp_unlock_fail].
  apply wp_bind. eapply wp_clone_map; [done..| |].
  { intros σ' Hh' Hwf'. by eapply wp_unlock_fail. }
  intros new md σ1 He1 Hok1 Hwf1 Hmem1. apply wp_bind.
  eapply (wp_remove _ new md id x); [done..| | |].
  { apply (ext_sub _ _ _ _ He1). by eapply id_not_store. }
  { by rewrite Hmem1, Hmeml. }
  intros m' σ2 He2 Hok2 Hwf2 Hmem2. simpl. eapply wp_publish_only; [done..|].
  intros σ3 Hp Hwf3 Hok3 Hmem3. split; [done|]. exists new, m'. split_and!; try done.
  intros y. by rewrite Hmem3, Hmem2, Hmem1, Hmeml.
Qed.
End update.

(** ** The locations of a map *)

Definition slot_loc (sl : slot) : option loc := if occupied sl then item sl else None.
Definition map_locs (old : loc) (m : CuckooHash) : list loc := old :: omap slot_loc (table0 m ++ table1 m).

Lemma map_locs_spec old m p : p ∈ map_locs old m <-> p = old \/ exists k, has m k p.
Proof.
  unfold map_locs. rewrite elem_of_cons, list_elem_of_omap. apply or_iff_compat_l. split.
  - intros ([it k o] & Hin & Hsl). unfold slot_loc in Hsl. simpl in Hsl. destruct o; simplify_eq.
    exists k. apply elem_of_app in Hin as [Hin|Hin]; apply list_elem_of_lookup in Hin as [i Hi]; [exists T0, i|exists T1, i]; done.
  - intros (k & s & i & Hat). exists (Slot (Some p) k true). split; [|done]. apply elem_of_app.
    destruct s; [left|right]; by eapply list_elem_of_lookup_2.
Qed.

(** The part of a heap a map occupies, and the rest. *)
Definition region (h : gmap loc obj) (old : loc) (m : CuckooHash) : gmap loc obj :=
  filter (fun '(l, _) => l ∈ map_locs old m) h.
Definition outside (h : gmap loc obj) (old : loc) (m : CuckooHash) : gmap loc obj :=
  filter (fun '(l, _) => l ∉ map_locs old m) h.

Lemma lookup_region h old m l v : region h old m !! l = Some v <-> h !! l = Some v /\ l ∈ map_locs old m.
Proof. apply map_lookup_filter_Some. Qed.

Lemma lookup_outside h old m l v : outside h old m !! l = Some v <-> h !! l = Some v /\ l ∉ map_locs old m.
Proof. apply map_lookup_filter_Some. Qed.

Definition map_ok_at (f : map_field) (h : gmap loc obj) (m : CuckooHash) : Prop :=
  match f with UserMap => map_ok user h m | ProgramMap => map_ok program h m end.

Lemma map_ok_at_frame f h h' m : (forall k p, has m k p -> h' !! p = h !! p) -> map_ok_at f h m -> map_ok_at f h' m.
Proof. destruct f; by apply map_ok_frame. Qed.

Lemma map_ok_at_live f h m k p : map_ok_at f h m -> has m k p ->
  is_Some (h !! p) /\ (forall st, h !! p <> Some (OStore st)) /\ (forall m', h !! p <> Some (OMap m')).
Proof. destruct f; intros Hok (x & -> & _)%(mo_item _ _ Hok); (split; [by eexists|done]). Qed.

Lemma map_ok_at_placed f h m : map_ok_at f h m -> placed m.
Proof. destruct f; apply mo_placed. Qed.

(** ** The store before and after an update *)

Definition cur (f : map_field) (um pm : loc) : loc := match f with UserMap => um | ProgramMap => pm end.
Definition cur_map (f : map_field) (mu mq : CuckooHash) : CuckooHash := match f with UserMap => mu | ProgramMap => mq end.

Lemma store_at_cur F σ sp U P um pm mu mq f : store_at F σ sp U P um pm mu mq ->
  heap σ !! cur f um pm = Some (OMap (cur_map f mu mq)) /\ map_ok_at f (heap σ) (cur_map f mu mq) /\
  forall l, l ∈ map_locs (cur f um pm) (cur_map f mu mq) -> F !! l = None.
Proof.
  intros Hst. pose proof Hst as [_ _ Hu Hp _ Huo Hpo _ _ Hfr _].
  destruct f; simpl; (split; [done|]; split; [done|]); intros l Hl%map_locs_spec;
    (destruct (F !! l) as [v|] eqn:E; [|done]); destruct (Hfr _ _ E) as (_ & _ & ? & ? & H1 & H2); naive_solver.
Qed.

(** Publishing a new map: the old one joins the frame. *)
Lemma store_publish_user F σ σ' sp U U' P um pm mu mq um' mu' :
  store_at F σ sp U P um pm mu mq ->
  published (heap σ) (heap σ') sp (Store (Some um') (Some pm) false) um' mu' ->
  mem_wf σ' -> map_ok user (heap σ') mu' -> (forall x, x ∈ U' <-> member user (heap σ') mu' x) ->
  store_at (F ∪ region (heap σ) um mu) σ' sp U' P um' pm mu' mq.
Proof.
  intros Hst Hpb Hwf Hok' HU. destruct (store_at_apart _ _ _ _ _ _ _ _ _ Hst) as (Hus & Hps & Hmu & Hmq).
  pose proof Hst as [_ Hs Hu Hp Hne Huo Hpo _ HP Hfr Hdom].
  assert (forall k p, has mq k p -> heap σ' !! p = heap σ !! p) as Hag.
  { intros k p Hk. destruct (Hmq _ _ Hk) as (? & _). destruct (mo_item _ _ Hpo _ _ Hk) as (x & Hx & _).
    rewrite Hx. by apply (pb_keep _ _ _ _ _ _ Hpb). }
  assert (forall l, is_Some (heap σ !! l) -> l <> um' /\ forall k, ~ has mu' k l) as Hold.
  { intros l [v Hl]. split; [intros ->; by rewrite (pb_fresh _ _ _ _ _ _ Hpb) in Hl|].
    intros k Hk. by rewrite (pb_ptr _ _ _ _ _ _ Hpb _ _ Hk) in Hl. }
  split.
  - done.
  - apply Hpb.
  - apply Hpb.
  - by apply (pb_keep _ _ _ _ _ _ Hpb).
  - intros ->. rewrite (pb_fresh _ _ _ _ _ _ Hpb) in Hp. done.
  - done.
  - by eapply map_ok_frame.
  - done.
  - intros x. rewrite HP. symmetry. by apply member_frame.
  - intros l v [Hl|[_ [Hl Hin]%lookup_region]]%lookup_union_Some_raw.
    + destruct (Hfr _ _ Hl) as (Hv & ? & ? & ? & ? & ?). destruct (Hold l) as [? ?]; [eauto|].
      split; [by apply (pb_keep _ _ _ _ _ _ Hpb)|done].
    + assert (l <> sp /\ l <> pm /\ forall k, ~ has mq k l) as (? & ? & ?).
      { apply map_locs_spec in Hin as [->|[k Hk]]; [|by destruct (Hmu _ _ Hk) as (? & ? & ? & ?)].
        split; [done|]. split; [done|]. intros k (? & ? & ? & ?)%Hmq. done. }
      destruct (Hold l) as [? ?]; [eauto|]. split; [by apply (pb_keep _ _ _ _ _ _ Hpb)|done].
  - intros l [[v Hl]|[?|[k ?]]]%(pb_dom _ _ _ _ _ _ Hpb); [|eauto 7..].
    rewrite lookup_union_is_Some.
    assert (l ∈ map_locs um mu -> is_Some (region (heap σ) um mu !! l)) as Hreg.
    { intros Hin. exists v. by apply lookup_region. }
    destruct (Hdom l) as [?|[?|[?|[?|[?|?]]]]]; [eauto|auto|auto| |auto| |auto 7].
    + left. right. apply Hreg, map_locs_spec. auto.
    + left. right. apply Hreg, map_locs_spec. auto.
Qed.

Lemma store_publish_program F σ σ' sp U P P' um pm mu mq pm' mq' :
  store_at F σ sp U P um pm mu mq ->
  published (heap σ) (heap σ') sp (Store (Some um) (Some pm') false) pm' mq' ->
  mem_wf σ' -> map_ok program (heap σ') mq' -> (forall x, x ∈ P' <-> member program (heap σ') mq' x) ->
  store_at (F ∪ region (heap σ) pm mq) σ' sp U P' um pm' mu mq'.
Proof.
  intros Hst Hpb Hwf Hok' HP. destruct (store_at_apart _ _ _ _ _ _ _ _ _ Hst) as (Hus & Hps & Hmu & Hmq).
  pose proof Hst as [_ Hs Hu Hp Hne Huo Hpo HU _ Hfr Hdom].
  assert (forall k p, has mu k p -> heap σ' !! p = heap σ !! p) as Hag.
  { intros k p Hk. destruct (Hmu _ _ Hk) as (? & _). destruct (mo_item _ _ Huo _ _ Hk) as (x & Hx & _).
    rewrite Hx. by apply (pb_keep _ _ _ _ _ _ Hpb). }
  assert (forall l, is_Some (heap σ !! l) -> l <> pm' /\ forall k, ~ has mq' k l) as Hold.
  { intros l [v Hl]. split; [intros ->; by rewrite (pb_fresh _ _ _ _ _ _ Hpb) in Hl|].
    intros k Hk. by rewrite (pb_ptr _ _ _ _ _ _ Hpb _ _ Hk) in Hl. }
  split.
  - done.
  - apply Hpb.
  - by apply (pb_keep _ _ _ _ _ _ Hpb).
  - apply Hpb.
  - intros ->. rewrite (pb_fresh _ _ _ _ _ _ Hpb) in Hu. done.
  - by eapply map_ok_frame.
  - done.
  - intros x. rewrite HU. symmetry. by apply member_frame.
  - done.
  - intros l v [Hl|[_ [Hl Hin]%lookup_region]]%lookup_union_Some_raw.
    + destruct (Hfr _ _ Hl) as (Hv & ? & ? & ? & ? & ?). destruct (Hold l) as [? ?]; [eauto|].
      split; [by apply (pb_keep _ _ _ _ _ _ Hpb)|done].
    + assert (l <> sp /\ l <> um /\ forall k, ~ has mu k l) as (? & ? & ?).
      { apply map_locs_spec in Hin as [->|[k Hk]]; [|by destruct (Hmq _ _ Hk) as (? & ? & ? & ?)].
        split; [done|]. split; [done|]. intros k (? & ? & ? & ?)%Hmu. done. }
      destruct (Hold l) as [? ?]; [eauto|]. split; [by apply (pb_keep _ _ _ _ _ _ Hpb)|done].
  - intros l [[v Hl]|[?|[k ?]]]%(pb_dom _ _ _ _ _ _ Hpb); [|eauto 8..].
    rewrite lookup_union_is_Some.
    assert (l ∈ map_locs pm mq -> is_Some (region (heap σ) pm mq !! l)) as Hreg.
    { intros Hin. exists v. by apply lookup_region. }
    destruct (Hdom l) as [?|[?|[?|[?|[?|?]]]]]; [eauto|auto|auto|auto| |auto 7|].
    + left. right. apply Hreg, map_locs_spec. auto.
    + left. right. apply Hreg, map_locs_spec. auto.
Qed.

(** What readers see of an update of the field [f]: nothing on failure; on
    success the old map stays as it was, owned by the writer from now on. *)
Definition update_post (f : map_field) (F : gmap loc obj) (σ : mem obj) (sp : loc) (U : gset user) (P : gset program)
    (U' : gset user) (P' : gset program) (u : update) (σ' : mem obj) : Prop :=
  match u with
  | Failed _ => heap σ' = heap σ /\ store_rep F σ' sp U P
  | Replaced old => exists st st' m,
      heap σ !! sp = Some (OStore st) /\ get_field f st = Some old /\ heap σ !! old = Some (OMap m) /\
      map_ok_at f (heap σ) m /\ (forall l, l ∈ map_locs old m -> F !! l = None) /\
      store_rep (F ∪ region (heap σ) old m) σ' sp U' P' /\
      (forall l v, heap σ !! l = Some v -> l <> sp -> heap σ' !! l = Some v) /\
      heap σ' !! sp = Some (OStore st') /\ forall f', f' <> f -> get_field f' st' = get_field f' st
  end.

Lemma updated_user F σ sp U U' P um pm mu mq R u σ' :
  store_at F σ sp U P um pm mu mq ->
  updated (X:=user) σ sp (Store (Some um) (Some pm) false) um R u σ' ->
  (forall m', R m' σ' -> forall x, x ∈ U' <-> member user (heap σ') m' x) ->
  update_post UserMap F σ sp U P U' P u σ'.
Proof.
  intros Hst Hu HR. destruct u as [r|old]; simpl in Hu.
  - destruct Hu as [Hh Hwf]. split; [done|]. exists um, pm, mu, mq. by eapply store_at_same.
  - destruct Hu as (-> & mp' & m' & Hpb & Hwf & Hok & Hm).
    destruct (store_at_cur _ _ _ _ _ _ _ _ _ UserMap Hst) as (Hc & Hco & Hcf).
    eexists _, _, mu. split; [apply Hst|]. split; [done|]. split; [done|]. split; [done|]. split; [done|].
    split; [exists mp', pm, m', mq; eapply store_publish_user; naive_solver|].
    split; [apply Hpb|]. split; [apply Hpb|]. by intros [].
Qed.

Lemma updated_program F σ sp U P P' um pm mu mq R u σ' :
  store_at F σ sp U P um pm mu mq ->
  updated (X:=program) σ sp (Store (Some um) (Some pm) false) pm R u σ' ->
  (forall m', R m' σ' -> forall x, x ∈ P' <-> member program (heap σ') m' x) ->
  update_post ProgramMap F σ sp U P U P' u σ'.
Proof.
  intros Hst Hu HR. destruct u as [r|old]; simpl in Hu.
  - destruct Hu as [Hh Hwf]. split; [done|]. exists um, pm, mu, mq. by eapply store_at_same.
  - destruct Hu as (-> & mp' & m' & Hpb & Hwf & Hok & Hm).
    destruct (store_at_cur _ _ _ _ _ _ _ _ _ ProgramMap Hst) as (Hc & Hco & Hcf).
    eexists _, _, mq. split; [apply Hst|]. split; [done|]. split; [done|]. split; [done|]. split; [done|].
    split; [exists um, mp', mu, m'; eapply store_publish_program; naive_solver|].
    split; [apply Hpb|]. split; [apply Hpb|]. by intros [].
Qed.

Section updates.
Context (F : gmap loc obj) (σ : mem obj) (sp : loc) (U : gset user) (P : gset program).
Context (Hrep : store_rep F σ sp U P).

Lemma add_user_update id x : F !! id = Some (OInt x) ->
  wp (add_update user sp id) (update_post UserMap F σ sp U P ({[x]} ∪ U) P) σ.
Proof.
  destruct Hrep as (um & pm & mu & mq & Hst). intros Hid.
  eapply wp_mono; [eapply (wp_add_update (X:=user)); [by eapply store_at_user|by eapply sr_frame]|].
  intros u σ' Hu. eapply updated_user; [done..|]. intros m' Hm y. rewrite (Hm y), <-(sr_users _ _ _ _ _ _ _ _ _ Hst). set_solver.
Qed.

Lemma remove_user_update id x : F !! id = Some (OInt x) ->
  wp (remove_update user sp id) (update_post UserMap F σ sp U P (U ∖ {[x]}) P) σ.
Proof.
  destruct Hrep as (um & pm & mu & mq & Hst). intros Hid.
  eapply wp_mono; [eapply (wp_remove_update (X:=user)); [by eapply store_at_user|by eapply sr_frame]|].
  intros u σ' Hu. eapply updated_user; [done..|]. intros m' Hm y. rewrite (Hm y), <-(sr_users _ _ _ _ _ _ _ _ _ Hst). set_solver.
Qed.

Lemma add_program_update id x : F !! id = Some (OStr x) ->
  wp (add_update program sp id) (update_post ProgramMap F σ sp U P U ({[x]} ∪ P)) σ.
Proof.
  destruct Hrep as (um & pm & mu & mq & Hst). intros Hid.
  eapply wp_mono; [eapply (wp_add_update (X:=program)); [by eapply store_at_program|by eapply sr_frame]|].
  intros u σ' Hu. eapply updated_program; [done..|]. intros m' Hm y. rewrite (Hm y), <-(sr_programs _ _ _ _ _ _ _ _ _ Hst). set_solver.
Qed.

Lemma remove_program_update id x : F !! id = Some (OStr x) ->
  wp (remove_update program sp id) (update_post ProgramMap F σ sp U P U (P ∖ {[x]})) σ.
Proof.
  destruct Hrep as (um & pm & mu & mq & Hst). intros Hid.
  eapply wp_mono; [eapply (wp_remove_update (X:=program)); [by eapply store_at_program|by eapply sr_frame]|].
  intros u σ' Hu. eapply updated_program; [done..|]. intros m' Hm y. rewrite (Hm y), <-(sr_programs _ _ _ _ _ _ _ _ _ Hst). set_solver.
Qed.

(** Freeing a map of the frame. *)
Lemma reclaim_ok f old m : F !! old = Some (OMap m) -> map_ok_at f F m ->
  wp (reclaim (Replaced old)) (fun r σ' => r = 0 /\ store_rep (outside F old m) σ' sp U P /\
    forall l, l ∉ map_locs old m -> heap σ' !! l = heap σ !! l) σ.
Proof.
  destruct Hrep as (um & pm & mu & mq & Hst). intros Hold Hok.
  pose proof Hst as [Hwf Hs Hu Hp Hne Huo Hpo HU HP Hfr Hdom].
  assert (forall k p, has m k p -> exists v, F !! p = Some v /\ heap σ !! p = Some v) as Hit.
  { intros k p Hk. destruct (map_ok_at_live _ _ _ _ _ Hok Hk) as ([v Hv] & _). exists v. split; [done|]. by apply Hfr. }
  unfold reclaim. apply wp_bind. apply (wp_destroy_map old m).
  - by eapply map_ok_at_placed.
  - by apply Hfr.
  - intros k p Hk. destruct (Hit _ _ Hk) as (v & Hv & Hv'). split; [by eexists|]. intros ->.
    destruct (map_ok_at_live _ _ _ _ _ Hok Hk) as (_ & _ & Hnm). by apply (Hnm m).
  - intros σ' Hn Hmin.
    assert (forall l, l ∉ map_locs old m -> heap σ' !! l = heap σ !! l) as Hkeep.
    { intros l Hl. apply (proj2 (Hmin l)). intros Hc. apply Hl, map_locs_spec. tauto. }
    assert (forall l, l ∈ map_locs old m -> heap σ' !! l = None) as Hgone.
    { intros l Hl%map_locs_spec. apply (proj1 (Hmin l)). tauto. }
    assert (forall l, l ∈ map_locs old m -> is_Some (F !! l)) as HF.
    { intros l [->|[k Hk]]%map_locs_spec; [by eexists|]. destruct (Hit _ _ Hk) as (v & ? & _). by eexists. }
    assert (forall l, F !! l = None -> heap σ' !! l = heap σ !! l) as Hout.
    { intros l Hl. apply Hkeep. intros [v Hv]%HF. congruence. }
    assert (forall l, l = sp \/ l = um \/ l = pm \/ (exists k, has mu k l) \/ (exists k, has mq k l) -> F !! l = None) as HnF.
    { intros l Hl. destruct (F !! l) as [v|] eqn:E; [|done]. destruct (Hfr _ _ E) as (_ & ? & ? & ? & H1 & H2).
      destruct Hl as [?|[?|[?|[[k ?]|[k ?]]]]]; [done..|by destruct (H1 k)|by destruct (H2 k)]. }
    apply wp_ret. split; [done|]. split; [|done]. exists um, pm, mu, mq.
    assert (forall k p, has mu k p -> heap σ' !! p = heap σ !! p) as Hgu by (intros; apply Hout, HnF; eauto 6).
    assert (forall k p, has mq k p -> heap σ' !! p = heap σ !! p) as Hgq by (intros; apply Hout, HnF; eauto 7).
    split; rewrite ?Hout by (apply HnF; auto); try done.
    + intros l [v Hl]. rewrite Hn. apply Hwf. destruct (decide (l ∈ map_locs old m)) as [Hin|Hin].
      * by rewrite Hgone in Hl.
      * rewrite Hkeep in Hl by done. by eexists.
    + by eapply map_ok_frame.
    + by eapply map_ok_frame.
    + intros x. rewrite HU. symmetry. by apply member_frame.
    + intros x. rewrite HP. symmetry. by apply member_frame.
    + intros l v [Hl Hin]%lookup_outside. rewrite Hkeep by done. by apply Hfr.
    + intros l [v Hl]. destruct (decide (l ∈ map_locs old m)) as [Hin|Hin]; [by rewrite Hgone in Hl|].
      rewrite Hkeep in Hl by done. destruct (Hdom l) as [[w Hw]|?]; [by eexists| |by right].
      left. exists w. by apply lookup_outside.
Qed.
End updates.
