(* ===== verification/RcuSpec.v ===== *)
(** * Properties of the store under concurrent readers and writers

    For every interleaving of searches and registrations: no access to freed
    memory, every search answers what was registered at the moment it read the
    map, and when no writer is under way exactly the store is allocated. *)

From stdpp Require Import prelude gmap list.
From S2P Require Import Prelude Kernel Store StoreProofs StoreSpec Rcu RcuProofs.

(** ** One search *)

Section probing.
Context {X : Type} `{ItemLaws X}.

(** A search for the item at [id] in the map [m] at [map], with table [t] to be
    probed next. *)
Record probing (h : gmap loc obj) (t : side) (id : loc) (key : Z) (map : loc) (ans : bool) (m : CuckooHash) : Prop := {
  pr_map : h !! map = Some (OMap m);
  pr_ok : map_ok X h m;
  pr_item : exists x : X, h !! id = Some (enc x) /\ key = key_of x /\ (ans = true <-> member X h m x) /\
    (t = T1 -> ~ exists k p, ptr_at m T0 (hash T0 key) k p /\ h !! p = Some (enc x));
}.

Lemma probing_step σ t id key map ans m : probing (heap σ) t id key map ans m ->
  exists b, probe (compare X) map t (hash t key) id σ = Some (b, σ) /\
    (if b : bool then ans = true
     else match t with T0 => probing (heap σ) T1 id key map ans m | T1 => ans = false end).
Proof.
  intros [Hm Hok (x & Hx & Hk & Hans & Ht)].
  destruct (probe_ok map m t (hash t key) id x σ Hok Hm Hx) as (b & E & Hb). exists b. split; [done|].
  assert (member X (heap σ) m x <-> exists s k p, ptr_at m s (hash s key) k p /\ heap σ !! p = Some (enc x)) as Hmem.
  { subst key. by apply member_slot. }
  destruct b.
  - apply Hans, Hmem. destruct (proj1 Hb eq_refl) as (k & p & ?). eauto.
  - destruct t.
    + split; [done..|]. exists x. split_and!; try done. intros _ Hc. by apply Hb in Hc.
    + destruct ans; [|done]. exfalso. destruct (proj1 Hmem (proj1 Hans eq_refl)) as ([] & k & p & Hp).
      * apply Ht; eauto.
      * assert (false = true); [|done]. apply Hb. eauto.
Qed.

(** A search only depends on the item, the map and the map's items. *)
Lemma probing_frame h h' t id key map ans m : probing h t id key map ans m ->
  h' !! id = h !! id -> (forall l, l ∈ map_locs map m -> h' !! l = h !! l) -> probing h' t id key map ans m.
Proof.
  intros [Hm Hok (x & Hx & Hk & Hans & Ht)] Hid Hag.
  assert (forall k p, has m k p -> h' !! p = h !! p) as Hagp.
  { intros k p Hp. apply Hag, map_locs_spec. eauto. }
  split.
  - rewrite Hag; [done|]. apply map_locs_spec. auto.
  - by eapply map_ok_frame.
  - exists x. rewrite Hid. split; [done|]. split; [done|]. split; [by rewrite (member_frame h)|].
    intros Hs (k & p & Hp & Hv). apply Ht; [done|]. exists k, p. split; [done|]. rewrite <-Hv. symmetry.
    apply Hagp with k. by exists T0, (hash T0 key).
Qed.
End probing.
Arguments probing X {_ _} _ _ _ _ _ _ _.

Definition probing_at (f : map_field) h t id key map ans m : Prop :=
  match f with UserMap => probing user h t id key map ans m | ProgramMap => probing program h t id key map ans m end.

Lemma probing_at_step f σ t id key map ans m : probing_at f (heap σ) t id key map ans m ->
  exists b, probe (compare_at f) map t (hash t key) id σ = Some (b, σ) /\
    (if b : bool then ans = true
     else match t with T0 => probing_at f (heap σ) T1 id key map ans m | T1 => ans = false end).
Proof. destruct f; [exact (probing_step (X:=user) σ t id key map ans m)|exact (probing_step (X:=program) σ t id key map ans m)]. Qed.

Lemma probing_at_frame f h h' t id key map ans m : probing_at f h t id key map ans m ->
  h' !! id = h !! id -> (forall l, l ∈ map_locs map m -> h' !! l = h !! l) -> probing_at f h' t id key map ans m.
Proof. destruct f; [apply (probing_frame (X:=user))|apply (probing_frame (X:=program))]. Qed.

Lemma probing_at_ok f h t id key map ans m : probing_at f h t id key map ans m ->
  h !! map = Some (OMap m) /\ map_ok_at f h m /\ forall st, h !! id <> Some (OStore st).
Proof.
  destruct f; (intros [Hm Hok (x & Hx & _)]; split; [done|]; split; [done|]; intros st; by rewrite Hx).
Qed.

(** ** The invariant *)

(** The memory of the callers: the objects a search or an update names. *)
Definition item_at (F0 : gmap loc obj) (f : map_field) (id : loc) : Prop :=
  match f with UserMap => exists x, F0 !! id = Some (OInt x) | ProgramMap => exists x, F0 !! id = Some (OStr x) end.

Definition key_ok (F0 : gmap loc obj) (f : map_field) (id : loc) (key : Z) : Prop :=
  match f with
  | UserMap => F0 !! id = Some (OInt key)
  | ProgramMap => exists x, F0 !! id = Some (OStr x) /\ key = program_key x
  end.

(** The old map a writer still has to free. *)
Definition pending (w : writer) : option (map_field * loc) :=
  match w with WIdle _ => None | WPublished f old => Some (f, old) | WSync f old _ => Some (f, old) end.

(** Reader [i] holds a map that is still published, or that a writer will not
    free before [i] has left. *)
Definition waits_for (i : nat) (f : map_field) (map : loc) (w : writer) : Prop :=
  match w with
  | WIdle _ => False
  | WPublished f' old => f' = f /\ old = map
  | WSync f' old waiting => f' = f /\ old = map /\ i ∈ waiting
  end.

Definition guarded (s : rcu) (i : nat) (f : map_field) (map : loc) : Prop :=
  (exists st, heap (rcu_mem s) !! rcu_store s = Some (OStore st) /\ get_field f st = Some map) \/
  exists j w, rcu_writers s !! j = Some w /\ waits_for i f map w.

Definition reader_ok (F0 : gmap loc obj) (s : rcu) (i : nat) (p : reader) : Prop :=
  match p with
  | RIdle _ => True
  | RLocked f id key => key_ok F0 f id key
  | RProbe t f id key map ans => key_ok F0 f id key /\ guarded s i f map /\
      exists m, probing_at f (heap (rcu_mem s)) t id key map ans m
  | RUnlock r ans => r = if ans then 0 else -1
  end.

Definition owns (F : gmap loc obj) (w : writer) (l : loc) : Prop :=
  exists f old m, pending w = Some (f, old) /\ F !! old = Some (OMap m) /\ l ∈ map_locs old m.

Record rcu_inv_at (F0 F : gmap loc obj) (s : rcu) : Prop := {
  ri_store : store_rep F (rcu_mem s) (rcu_store s) (rcu_users s) (rcu_programs s);
  ri_sub : F0 ⊆ F;
  ri_readers i p : rcu_readers s !! i = Some p -> reader_ok F0 s i p;
  ri_retired j w f old : rcu_writers s !! j = Some w -> pending w = Some (f, old) ->
    exists m, F !! old = Some (OMap m) /\ map_ok_at f F m /\ forall l, l ∈ map_locs old m -> F0 !! l = None;
  ri_apart j j' w w' l : rcu_writers s !! j = Some w -> rcu_writers s !! j' = Some w' ->
    owns F w l -> owns F w' l -> j = j';
  ri_cover l : is_Some (F !! l) -> is_Some (F0 !! l) \/ exists j w, rcu_writers s !! j = Some w /\ owns F w l;
}.

Definition rcu_inv (F0 : gmap loc obj) (s : rcu) : Prop := exists F, rcu_inv_at F0 F s.

(** Labels whose items lie in the callers' memory. *)
Definition rcu_valid (F0 : gmap loc obj) (l : rcu_label) : Prop :=
  match l with LFind _ f id | LAdd _ f id | LRemove _ f id => item_at F0 f id | _ => True end.

Lemma key_at_ok F0 f id σ : item_at F0 f id -> F0 ⊆ heap σ ->
  exists key, key_at f id σ = Some (key, σ) /\ key_ok F0 f id key.
Proof.
  intros Hi Hs. destruct f; destruct Hi as [x Hx]; pose proof (lookup_weaken _ _ _ _ Hx Hs) as Hh.
  - exists x. split; [|done]. exact (getKey_ok (X:=user) id x σ Hh).
  - exists (program_key x). split; [exact (getKey_ok (X:=program) id x σ Hh)|]. by exists x.
Qed.

Lemma rcu_sub F0 F s : rcu_inv_at F0 F s -> F ⊆ heap (rcu_mem s) /\ F0 ⊆ heap (rcu_mem s).
Proof.
  intros [(um & pm & mu & mq & Hst) Hsub _ _ _ _].
  assert (F ⊆ heap (rcu_mem s)) as HF by (apply map_subseteq_spec; intros l v Hl; by eapply sr_frame).
  split; [done|]. by trans F.
Qed.

(** A step of a reader that changes neither memory nor writers. *)
Lemma inv_reader F0 F s i p p' : rcu_inv_at F0 F s -> rcu_readers s !! i = Some p ->
  reader_ok F0 s i p' -> rcu_inv_at F0 F (set_readers (<[i := p']> (rcu_readers s)) s).
Proof.
  intros [Hst Hsub Hrd Hret Hap Hcov] Hi Hp'. split; try done.
  intros i' q. simpl. intros Hq. change (reader_ok F0 s i' q).
  destruct (decide (i' = i)) as [->|Hne].
  - rewrite list_lookup_insert_eq in Hq by (by eapply lookup_lt_Some). by injection Hq as <-.
  - rewrite list_lookup_insert_ne in Hq by done. by apply Hrd.
Qed.

(** Dereferencing the published map. *)
Lemma dereference_ok F0 F s i f id key : rcu_inv_at F0 F s -> key_ok F0 f id key ->
  exists map, rcu_dereference (rcu_store s) f (rcu_mem s) = Some (map, rcu_mem s) /\
    reader_ok F0 s i (RProbe T0 f id key map (registered s f id)).
Proof.
  intros Hi Hk. destruct (rcu_sub _ _ _ Hi) as [_ Hsub].
  destruct Hi as [(um & pm & mu & mq & Hst) _ _ _ _ _]. exists (cur f um pm).
  pose proof (sr_store _ _ _ _ _ _ _ _ _ Hst) as Hs.
  assert (forall g, get_field g (Store (Some um) (Some pm) false) = Some (cur g um pm)) as Hg by by intros [].
  split.
  { unfold rcu_dereference, load_store, load, mbind, M_bind. rewrite Hs. simpl. by rewrite Hg. }
  split; [done|]. split; [left; eexists; split; [done|apply Hg]|]. exists (cur_map f mu mq).
  destruct (store_at_cur _ _ _ _ _ _ _ _ _ f Hst) as (Hc & Hco & _).
  unfold registered. destruct f; simpl in *.
  - pose proof (lookup_weaken _ _ _ _ Hk Hsub) as Hid. split; [done..|]. exists key. split; [done|]. split; [done|].
    split; [|done]. rewrite Hid, bool_decide_eq_true. apply Hst.
  - destruct Hk as (x & Hx & ->). pose proof (lookup_weaken _ _ _ _ Hx Hsub) as Hid. split; [done..|].
    exists x. split; [done|]. split; [done|]. split; [|done]. rewrite Hid, bool_decide_eq_true. apply Hst.
Qed.

(** Changing one writer. *)
Lemma lookup_writer (l : list writer) j w w' j' v : l !! j = Some w -> <[j := w']> l !! j' = Some v ->
  (j' = j /\ v = w') \/ (j' <> j /\ l !! j' = Some v).
Proof.
  intros Hj Hv. destruct (decide (j' = j)) as [->|Hne].
  - rewrite list_lookup_insert_eq in Hv by (by eapply lookup_lt_Some). left. split; [done|congruence].
  - rewrite list_lookup_insert_ne in Hv by done. auto.
Qed.

Lemma owns_pending F w w' l : pending w' = pending w -> owns F w' l <-> owns F w l.
Proof. unfold owns. by intros ->. Qed.

(** A reader's obligations in a state with the same heap in which every writer
    waits for at least the same readers. *)
Lemma reader_ok_mono F0 s s' i p : reader_ok F0 s i p ->
  heap (rcu_mem s') = heap (rcu_mem s) -> rcu_store s' = rcu_store s ->
  (forall f map j w, rcu_writers s !! j = Some w -> waits_for i f map w -> in_section p = true ->
     exists j' w', rcu_writers s' !! j' = Some w' /\ waits_for i f map w') ->
  reader_ok F0 s' i p.
Proof.
  intros Hp Hh Hs Hw. destruct p as [r|f id key|t f id key map ans|r ans]; try done.
  destruct Hp as (Hk & Hg & m & Hm). split; [done|]. split; [|exists m; by rewrite Hh].
  destruct Hg as [(st & ? & ?)|(j & w & Hj & Hwt)]; [left; exists st; by rewrite Hs, Hh|right].
  by destruct (Hw f map j w) as (j' & w' & ? & ?); [..|exists j', w'].
Qed.

(** A writer whose pending map stays the same; the heap does not change. *)
Lemma inv_writer F0 F s σ j w w' : rcu_inv_at F0 F s -> rcu_writers s !! j = Some w ->
  pending w' = pending w -> heap σ = heap (rcu_mem s) ->
  store_rep F σ (rcu_store s) (rcu_users s) (rcu_programs s) ->
  (forall i p f map, rcu_readers s !! i = Some p -> in_section p = true -> waits_for i f map w -> waits_for i f map w') ->
  rcu_inv_at F0 F (set_writers (<[j := w']> (rcu_writers s)) (set_mem σ s)).
Proof.
  intros [Hst Hsub Hrd Hret Hap Hcov] Hj Hpe Hh Hst' Hw.
  assert (<[j := w']> (rcu_writers s) !! j = Some w') as Hj'.
  { apply list_lookup_insert_eq. by eapply lookup_lt_Some. }
  split; simpl; try done.
  - intros i p Hi. eapply reader_ok_mono; [by apply Hrd|done..|]. simpl. intros f map j1 w1 Hj1 Hwt Hin.
    destruct (decide (j1 = j)) as [->|Hne].
    + exists j, w'. split; [done|]. rewrite Hj in Hj1. injection Hj1 as <-. by eapply Hw.
    + exists j1, w1. split; [|done]. by rewrite list_lookup_insert_ne.
  - intros j1 w1 f old Hj1 Hp1. apply (lookup_writer _ _ _ _ _ _ Hj) in Hj1 as [[-> ->]|[_ Hj1]]; [|by eapply Hret].
    eapply Hret; [done|]. by rewrite <-Hpe.
  - intros j1 j2 w1 w2 l H1 H2 Ho1 Ho2.
    assert (forall jj ww, <[j:=w']> (rcu_writers s) !! jj = Some ww -> owns F ww l ->
      exists vv, rcu_writers s !! jj = Some vv /\ owns F vv l) as Hback.
    { intros jj ww Hjj Ho. apply (lookup_writer _ _ _ _ _ _ Hj) in Hjj as [[-> ->]|[_ Hjj]]; [|eauto].
      exists w. split; [done|]. by apply (owns_pending F w w' l Hpe). }
    destruct (Hback _ _ H1 Ho1) as (v1 & ? & ?), (Hback _ _ H2 Ho2) as (v2 & ? & ?). by eapply Hap.
  - intros l [?|(j1 & w1 & Hj1 & Ho)]%Hcov; [by left|right]. destruct (decide (j1 = j)) as [->|Hne].
    + exists j, w'. split; [done|]. rewrite Hj in Hj1. injection Hj1 as <-. by apply (owns_pending F w w' l Hpe).
    + exists j1, w1. split; [|done]. by rewrite list_lookup_insert_ne.
Qed.

(** A reader leaves: writers no longer wait for it. *)
Lemma pending_leave i w : pending (leave i w) = pending w.
Proof. by destruct w. Qed.

Lemma inv_leave F0 F s i r ans : rcu_inv_at F0 F s -> rcu_readers s !! i = Some (RUnlock r ans) ->
  rcu_inv_at F0 F (set_readers (<[i := RIdle (Some r)]> (rcu_readers s)) (set_writers (leave i <$> rcu_writers s) s)).
Proof.
  intros [Hst Hsub Hrd Hret Hap Hcov] Hi.
  assert (forall j w', (leave i <$> rcu_writers s) !! j = Some w' ->
    exists w, rcu_writers s !! j = Some w /\ w' = leave i w) as Hinv.
  { intros j w'. rewrite list_lookup_fmap. intros (w & -> & ?)%fmap_Some. eauto. }
  split; simpl; try done.
  - intros i' q Hq. destruct (decide (i' = i)) as [->|Hne].
    { rewrite list_lookup_insert_eq in Hq by (by eapply lookup_lt_Some). by injection Hq as <-. }
    rewrite list_lookup_insert_ne in Hq by done. eapply reader_ok_mono; [by apply Hrd|done..|].
    simpl. intros f map j w Hj Hw _. exists j, (leave i w). split; [by rewrite list_lookup_fmap, Hj|].
    destruct w; [done..|]. simpl in *. set_solver.
  - intros j w' f old (w & Hj & ->)%Hinv. rewrite pending_leave. by eapply Hret.
  - intros j1 j2 w1 w2 l (v1 & H1 & ->)%Hinv (v2 & H2 & ->)%Hinv.
    rewrite (owns_pending F v1 _ l (pending_leave i v1)), (owns_pending F v2 _ l (pending_leave i v2)). by eapply Hap.
  - intros l [?|(j & w & Hj & Ho)]%Hcov; [by left|right]. exists j, (leave i w).
    split; [by rewrite list_lookup_fmap, Hj|]. by rewrite (owns_pending F _ _ l (pending_leave i w)).
Qed.

(** A search survives a change of the heap that keeps its map and its item. *)
Lemma reader_ok_heap F0 s s' i p : reader_ok F0 s i p -> F0 ⊆ heap (rcu_mem s) -> F0 ⊆ heap (rcu_mem s') ->
  (forall t f id key map ans m, p = RProbe t f id key map ans -> guarded s i f map ->
     heap (rcu_mem s) !! map = Some (OMap m) -> map_ok_at f (heap (rcu_mem s)) m ->
     guarded s' i f map /\ forall l, l ∈ map_locs map m -> heap (rcu_mem s') !! l = heap (rcu_mem s) !! l) ->
  reader_ok F0 s' i p.
Proof.
  intros Hp Hs Hs' Hk. destruct p as [r|f id key|t f id key map ans|r ans]; try done.
  destruct Hp as (Hkey & Hg & m & Hm). destruct (probing_at_ok _ _ _ _ _ _ _ _ Hm) as (Hmap & Hok & _).
  destruct (Hk _ _ _ _ _ _ m eq_refl Hg Hmap Hok) as (Hg' & Hag). split; [done|]. split; [done|]. exists m.
  eapply probing_at_frame; [done| |done].
  assert (exists v, F0 !! id = Some v) as [v Hv] by (destruct f; [eauto|destruct Hkey as (? & ? & _); eauto]).
  by rewrite (lookup_weaken _ _ _ _ Hv Hs), (lookup_weaken _ _ _ _ Hv Hs').
Qed.

(** The map a guarded reader holds, and the map a writer is about to free. *)
Lemma map_locs_not_store f h old m l st : h !! old = Some (OMap m) -> map_ok_at f h m ->
  l ∈ map_locs old m -> h !! l <> Some (OStore st) /\ is_Some (h !! l).
Proof.
  intros Hm Hok [->|[k Hk]]%map_locs_spec; [rewrite Hm; split; [done|by eexists]|].
  destruct (map_ok_at_live _ _ _ _ _ Hok Hk) as (? & ? & _). done.
Qed.

(** A successful update of writer [j]: the old map of field [f] joins the frame,
    owned by [j]. *)
Section publish.
Context (F0 F : gmap loc obj) (s : rcu) (j : nat) (r : option Z) (f : map_field) (old : loc) (m : CuckooHash).
Context (Hinv : rcu_inv_at F0 F s) (Hj : rcu_writers s !! j = Some (WIdle r)).
Context (Hm : heap (rcu_mem s) !! old = Some (OMap m)) (Hok : map_ok_at f (heap (rcu_mem s)) m).
Context (HF : forall l, l ∈ map_locs old m -> F !! l = None).
#[local] Abbreviation F' := (F ∪ region (heap (rcu_mem s)) old m).
#[local] Abbreviation writers' := (<[j := WPublished f old]> (rcu_writers s)).

Lemma pub_writer : writers' !! j = Some (WPublished f old).
Proof. apply list_lookup_insert_eq. by eapply lookup_lt_Some. Qed.

Lemma pub_other j1 w l : rcu_writers s !! j1 = Some w -> owns F w l -> writers' !! j1 = Some w.
Proof.
  intros Hj1 Ho. rewrite list_lookup_insert_ne; [done|]. intros <-.
  rewrite Hj in Hj1. injection Hj1 as <-. by destruct Ho as (? & ? & ? & [=] & _).
Qed.

Lemma pub_region l : l ∈ map_locs old m -> F' !! l = heap (rcu_mem s) !! l.
Proof.
  intros Hl. destruct (map_locs_not_store f _ _ _ _ (Store None None false) Hm Hok Hl) as [_ [v Hv]]. rewrite Hv.
  rewrite lookup_union_r by by apply HF. by apply lookup_region.
Qed.

Lemma pub_old_item : F' !! old = Some (OMap m).
Proof. rewrite pub_region; [done|]. apply map_locs_spec. auto. Qed.

Lemma pub_owns l : owns F' (WPublished f old) l <-> l ∈ map_locs old m.
Proof.
  split.
  - intros (f1 & o1 & m1 & [= <- <-] & Ho1 & Hl1). rewrite pub_old_item in Ho1. by injection Ho1 as <-.
  - intros Hin. exists f, old, m. split; [done|]. split; [apply pub_old_item|done].
Qed.

Lemma pub_owns_other j1 w l : rcu_writers s !! j1 = Some w -> owns F' w l <-> owns F w l.
Proof.
  intros Hj1. split; intros (f1 & o1 & m1 & Hp1 & Ho1 & Hl1).
  - destruct (ri_retired _ _ _ Hinv _ _ _ _ Hj1 Hp1) as (m2 & Hm2 & _). exists f1, o1, m2.
    rewrite (lookup_union_Some_l _ _ _ _ Hm2) in Ho1. injection Ho1 as <-. done.
  - exists f1, o1, m1. split; [done|]. split; [|done]. by apply lookup_union_Some_l.
Qed.

Lemma pub_disjoint j1 w l : rcu_writers s !! j1 = Some w -> owns F w l -> l ∈ map_locs old m -> False.
Proof.
  intros Hj1 (f1 & o1 & m1 & Hp1 & Ho1 & Hl1) Hin.
  destruct (ri_retired _ _ _ Hinv _ _ _ _ Hj1 Hp1) as (m2 & Hm2 & Hok2 & _).
  rewrite Ho1 in Hm2. injection Hm2 as <-. pose proof (HF l Hin) as HN.
  destruct (map_locs_not_store f1 F o1 m1 l (Store None None false) Ho1 Hok2 Hl1) as [_ [v Hv]]. congruence.
Qed.

Lemma pub_retired j1 w f1 o1 : writers' !! j1 = Some w -> pending w = Some (f1, o1) ->
  exists m1, F' !! o1 = Some (OMap m1) /\ map_ok_at f1 F' m1 /\ forall l, l ∈ map_locs o1 m1 -> F0 !! l = None.
Proof.
  intros Hj1 Hp1. apply (lookup_writer _ _ _ _ _ _ Hj) in Hj1 as [[-> ->]|[_ Hj1]].
  - injection Hp1 as <- <-. exists m. split; [apply pub_old_item|]. split.
    + apply (map_ok_at_frame f (heap (rcu_mem s))); [|done]. intros k p Hk. apply pub_region, map_locs_spec. eauto.
    + intros l Hin%HF. destruct (F0 !! l) as [v|] eqn:E; [|done].
      by rewrite (lookup_weaken _ _ _ _ E (ri_sub _ _ _ Hinv)) in Hin.
  - destruct (ri_retired _ _ _ Hinv _ _ _ _ Hj1 Hp1) as (m1 & Hm1 & Hok1 & HF1). exists m1.
    split; [by apply lookup_union_Some_l|]. split; [|done].
    apply (map_ok_at_frame f1 F); [|done]. intros k p Hk.
    destruct (map_ok_at_live _ _ _ _ _ Hok1 Hk) as ([v Hv] & _). rewrite Hv. by apply lookup_union_Some_l.
Qed.

Lemma pub_apart j1 j2 w1 w2 l : writers' !! j1 = Some w1 -> writers' !! j2 = Some w2 ->
  owns F' w1 l -> owns F' w2 l -> j1 = j2.
Proof.
  intros H1 H2 Ho1 Ho2.
  apply (lookup_writer _ _ _ _ _ _ Hj) in H1 as [[-> ->]|[? H1]];
    apply (lookup_writer _ _ _ _ _ _ Hj) in H2 as [[-> ->]|[? H2]].
  - done.
  - exfalso. apply pub_owns in Ho1. apply (pub_owns_other _ _ _ H2) in Ho2. by eapply pub_disjoint.
  - exfalso. apply pub_owns in Ho2. apply (pub_owns_other _ _ _ H1) in Ho1. by eapply pub_disjoint.
  - apply (pub_owns_other _ _ _ H1) in Ho1. apply (pub_owns_other _ _ _ H2) in Ho2. by eapply (ri_apart _ _ _ Hinv).
Qed.

Lemma pub_cover l : is_Some (F' !! l) ->
  is_Some (F0 !! l) \/ exists j1 w, writers' !! j1 = Some w /\ owns F' w l.
Proof.
  intros Hin. apply lookup_union_is_Some in Hin as [Hl|[v [Hv Hin]%lookup_region]].
  - apply (ri_cover _ _ _ Hinv) in Hl as [?|(j1 & w1 & Hj1 & Ho)]; [by left|right]. exists j1, w1.
    split; [by eapply pub_other|]. by apply (pub_owns_other _ _ _ Hj1).
  - right. exists j, (WPublished f old). split; [apply pub_writer|]. by apply pub_owns.
Qed.

Lemma pub_readers st st' σ U P i p :
  heap (rcu_mem s) !! rcu_store s = Some (OStore st) -> get_field f st = Some old ->
  heap σ !! rcu_store s = Some (OStore st') -> (forall f', f' <> f -> get_field f' st' = get_field f' st) ->
  (forall l v, heap (rcu_mem s) !! l = Some v -> l <> rcu_store s -> heap σ !! l = Some v) -> F' ⊆ heap σ ->
  rcu_readers s !! i = Some p -> reader_ok F0 (Rcu σ (rcu_store s) (rcu_readers s) writers' U P) i p.
Proof.
  intros Hs Hf Hs' Hoth Hkeep HF' Hi. destruct (rcu_sub _ _ _ Hinv) as [_ HF0h].
  apply (reader_ok_heap F0 s); [by eapply ri_readers|done| |].
  { trans F; [apply Hinv|]. trans F'; [apply map_union_subseteq_l|done]. }
  intros t f1 id key map ans m1 -> Hg Hmap Hok1. split.
  - destruct Hg as [(st1 & Hs1 & Hf1)|(j1 & w1 & Hj1 & Hw1)].
    + rewrite Hs in Hs1. injection Hs1 as <-. destruct (decide (f1 = f)) as [->|Hne].
      * right. exists j, (WPublished f old). split; [apply pub_writer|]. split; [done|]. congruence.
      * left. exists st'. split; [done|]. by rewrite Hoth.
    + right. exists j1, w1. split; [|done]. simpl. rewrite list_lookup_insert_ne; [done|].
      intros <-. rewrite Hj in Hj1. by injection Hj1 as <-.
  - intros l Hin. destruct (map_locs_not_store f1 _ _ _ _ st Hmap Hok1 Hin) as [Hns [v Hv]]. rewrite Hv.
    apply Hkeep; [done|]. intros ->. congruence.
Qed.
End publish.

Lemma inv_publish F0 F s j r f old U P σ : rcu_inv_at F0 F s -> rcu_writers s !! j = Some (WIdle r) ->
  update_post f F (rcu_mem s) (rcu_store s) (rcu_users s) (rcu_programs s) U P (Replaced old) σ ->
  rcu_inv F0 (Rcu σ (rcu_store s) (rcu_readers s) (<[j := WPublished f old]> (rcu_writers s)) U P).
Proof.
  intros Hinv Hj (st & st' & m & Hs & Hf & Hm & Hok & HF & Hrep & Hkeep & Hs' & Hoth).
  exists (F ∪ region (heap (rcu_mem s)) old m). split; simpl.
  - done.
  - trans F; [apply Hinv|apply map_union_subseteq_l].
  - intros i p Hi. eapply pub_readers; try done.
    destruct Hrep as (? & ? & ? & ? & Hr). apply map_subseteq_spec. intros l v ?. by eapply sr_frame.
  - intros. by eapply pub_retired.
  - intros. by eapply pub_apart.
  - intros. by eapply pub_cover.
Qed.

(** The end of a grace period: writer [j] frees its old map. *)
Section reclaim.
Context (F0 F : gmap loc obj) (s : rcu) (j : nat) (f : map_field) (old : loc) (m : CuckooHash).
Context (Hinv : rcu_inv_at F0 F s) (Hj : rcu_writers s !! j = Some (WSync f old ∅)).
Context (Hm : F !! old = Some (OMap m)) (Hok : map_ok_at f F m) (HF0 : forall l, l ∈ map_locs old m -> F0 !! l = None).
#[local] Abbreviation F' := (outside F old m).

(** Nothing the store or another writer owns is freed. *)
Lemma rec_other j1 w l : rcu_writers s !! j1 = Some w -> j1 <> j -> owns F w l -> l ∉ map_locs old m.
Proof.
  intros Hj1 Hne Ho Hin. apply Hne. eapply (ri_apart _ _ _ Hinv); [done..|]. by exists f, old, m.
Qed.

Lemma rec_owns j1 w l : rcu_writers s !! j1 = Some w -> j1 <> j -> owns F' w l <-> owns F w l.
Proof.
  intros Hj1 Hne. split; intros (f1 & o1 & m1 & Hp1 & Ho1 & Hl1); exists f1, o1, m1.
  - apply lookup_outside in Ho1 as [? _]. done.
  - split; [done|]. split; [|done]. apply lookup_outside. split; [done|]. eapply rec_other; [done..|].
    exists f1, o1, m1. split; [done|]. split; [done|]. apply map_locs_spec. auto.
Qed.

Lemma rec_guarded i f1 map m1 : guarded s i f1 map -> heap (rcu_mem s) !! map = Some (OMap m1) ->
  (exists st, heap (rcu_mem s) !! rcu_store s = Some (OStore st) /\ get_field f1 st = Some map) /\
    (forall l, l ∈ map_locs map m1 -> F !! l = None) \/
  exists j1 w, j1 <> j /\ rcu_writers s !! j1 = Some w /\ waits_for i f1 map w /\
    forall l, l ∈ map_locs map m1 -> owns F w l.
Proof.
  destruct (rcu_sub _ _ _ Hinv) as [HFh _].
  intros [(st & Hs & Hf)|(j1 & w & Hj1 & Hw)] Hmap.
  - left. split; [eauto|]. destruct (ri_store _ _ _ Hinv) as (um & pm & mu & mq & Hst).
    rewrite (sr_store _ _ _ _ _ _ _ _ _ Hst) in Hs. injection Hs as <-.
    destruct (store_at_cur _ _ _ _ _ _ _ _ _ f1 Hst) as (Hc & _ & Hn).
    assert (map = cur f1 um pm) as -> by (destruct f1; simpl in *; congruence).
    rewrite Hc in Hmap. by injection Hmap as <-.
  - right. exists j1, w. assert (pending w = Some (f1, map)) as Hp.
    { destruct w; simpl in *; [done|naive_solver..]. }
    split; [intros ->; rewrite Hj in Hj1; injection Hj1 as <-; simpl in Hw; set_solver|].
    split; [done|]. split; [done|]. intros l Hl. exists f1, map, m1. split; [done|]. split; [|done].
    destruct (ri_retired _ _ _ Hinv _ _ _ _ Hj1 Hp) as (m2 & Hm2 & _).
    pose proof (lookup_weaken _ _ _ _ Hm2 HFh). congruence.
Qed.

Lemma rec_readers σ r i p :
  (forall l, l ∉ map_locs old m -> heap σ !! l = heap (rcu_mem s) !! l) -> rcu_readers s !! i = Some p ->
  reader_ok F0 (set_writers (<[j := WIdle r]> (rcu_writers s)) (set_mem σ s)) i p.
Proof.
  intros Hkeep Hi. destruct (rcu_sub _ _ _ Hinv) as [HFh HF0h].
  assert (forall l v, F0 !! l = Some v -> l ∉ map_locs old m) as Hout.
  { intros l v Hl Hin. rewrite HF0 in Hl by done. done. }
  apply (reader_ok_heap F0 s); [by eapply ri_readers|done| |].
  { apply map_subseteq_spec. simpl. intros l v Hl. rewrite Hkeep by by eapply Hout. by eapply lookup_weaken. }
  assert (rcu_store s ∉ map_locs old m) as Hsp.
  { intros Hin. destruct (ri_store _ _ _ Hinv) as (um & pm & mu & mq & Hst).
    destruct (map_locs_not_store f F old m _ (Store (Some um) (Some pm) false) Hm Hok Hin) as [_ [v Hv]].
    by destruct (sr_frame _ _ _ _ _ _ _ _ _ Hst _ _ Hv) as (_ & ? & _). }
  intros t f1 id key map ans m1 -> Hg Hmap Hok1.
  destruct (rec_guarded _ _ _ _ Hg Hmap) as [[(st & Hs & Hf1) Hn]|(j1 & w & Hne & Hj1 & Hw & Ho)].
  - split; [left; exists st; simpl; by rewrite Hkeep|]. intros l Hl. apply Hkeep. intros Hin.
    destruct (map_locs_not_store f F old m l (Store None None false) Hm Hok Hin) as [_ [v Hv]]. by rewrite Hn in Hv.
  - split; [right; exists j1, w; split; [|done]; simpl; by rewrite list_lookup_insert_ne|].
    intros l Hl. apply Hkeep. eapply rec_other; [done..|]. by apply Ho.
Qed.

Lemma inv_reclaim σ r :
  store_rep F' σ (rcu_store s) (rcu_users s) (rcu_programs s) ->
  (forall l, l ∉ map_locs old m -> heap σ !! l = heap (rcu_mem s) !! l) ->
  rcu_inv F0 (set_writers (<[j := WIdle r]> (rcu_writers s)) (set_mem σ s)).
Proof.
  intros Hrep Hkeep. exists F'.
  assert (forall j1 w l, <[j := WIdle r]> (rcu_writers s) !! j1 = Some w -> owns F' w l ->
    j1 <> j /\ rcu_writers s !! j1 = Some w /\ owns F w l) as Hback.
  { intros j1 w l Hj1 Ho. apply (lookup_writer _ _ _ _ _ _ Hj) in Hj1 as [[-> ->]|[Hne Hj1]].
    - by destruct Ho as (? & ? & ? & [=] & _).
    - split; [done|]. split; [done|]. by apply (rec_owns j1). }
  split; simpl.
  - done.
  - apply map_subseteq_spec. intros l v Hl. apply lookup_outside. split; [by eapply lookup_weaken, Hinv|].
    intros Hin. by rewrite HF0 in Hl.
  - intros i p. by apply rec_readers.
  - intros j1 w f1 o1 Hj1 Hp1. apply (lookup_writer _ _ _ _ _ _ Hj) in Hj1 as [[-> ->]|[Hne Hj1]]; [done|].
    destruct (ri_retired _ _ _ Hinv _ _ _ _ Hj1 Hp1) as (m1 & Hm1 & Hok1 & HF1). exists m1.
    assert (forall l, l ∈ map_locs o1 m1 -> l ∉ map_locs old m) as Hd.
    { intros l Hl. eapply rec_other; [done..|]. by exists f1, o1, m1. }
    split; [apply lookup_outside; split; [done|apply Hd, map_locs_spec; auto]|]. split; [|done].
    apply (map_ok_at_frame f1 F); [|done]. intros k p Hk.
    destruct (map_ok_at_live _ _ _ _ _ Hok1 Hk) as ([v Hv] & _). rewrite Hv. apply lookup_outside.
    split; [done|]. apply Hd, map_locs_spec. eauto.
  - intros j1 j2 w1 w2 l H1 H2 Ho1 Ho2. destruct (Hback _ _ _ H1 Ho1) as (_ & ? & ?), (Hback _ _ _ H2 Ho2) as (_ & ? & ?).
    by eapply (ri_apart _ _ _ Hinv).
  - intros l [v [Hv Hin]%lookup_outside]. destruct (ri_cover _ _ _ Hinv l) as [?|(j1 & w & Hj1 & Ho)]; [by eexists|by left|].
    right. exists j1, w. destruct (decide (j1 = j)) as [->|Hne].
    + exfalso. rewrite Hj in Hj1. injection Hj1 as <-. destruct Ho as (f1 & o1 & m1 & [= <- <-] & Ho1 & Hl1).
      rewrite Hm in Ho1. by injection Ho1 as <-.
    + split; [by rewrite list_lookup_insert_ne|]. by apply (rec_owns j1).
Qed.
End reclaim.

(** ** Every step preserves the invariant *)

Lemma set_mem_same s : set_mem (rcu_mem s) s = s.
Proof. by destruct s. Qed.

Lemma elem_sections l i : i ∈ sections l <-> exists p, l !! i = Some p /\ in_section p = true.
Proof.
  unfold sections. rewrite elem_of_list_to_set, list_elem_of_filter, fmap_Some. split.
  - intros [(p & ? & ?) _]. eauto.
  - intros (p & Hp & Hs). split; [by eexists|]. apply elem_of_seq. apply lookup_lt_Some in Hp. lia.
Qed.

Definition step_ok (F0 : gmap loc obj) (o : rcu_outcome) : Prop :=
  o <> RUB /\ forall s', o = RNext s' -> rcu_inv F0 s'.

Lemma step_blocked F0 : step_ok F0 RBlocked.
Proof. by split. Qed.

Lemma step_next F0 s : rcu_inv F0 s -> step_ok F0 (RNext s).
Proof. intros Hs. split; [done|]. by intros s' [= <-]. Qed.

Lemma reader_step_ok F0 F s i p : rcu_inv_at F0 F s -> rcu_readers s !! i = Some p -> step_ok F0 (reader_step i p s).
Proof.
  intros Hinv Hi. pose proof (ri_readers _ _ _ Hinv _ _ Hi) as Hp.
  destruct p as [r|f id key|t f id key map ans|r ans]; simpl.
  - apply step_blocked.
  - destruct (dereference_ok F0 F s i f id key Hinv Hp) as (map & -> & Hr). rewrite set_mem_same.
    apply step_next. exists F. by eapply inv_reader.
  - destruct Hp as (Hk & Hg & m & Hm). destruct (probing_at_step _ _ _ _ _ _ _ _ Hm) as (b & -> & Hb).
    rewrite set_mem_same. apply step_next. exists F. eapply inv_reader; [done..|].
    destruct b; [by rewrite Hb|]. destruct t; [|by rewrite Hb]. split; [done|]. split; [done|]. by exists m.
  - apply step_next. exists F. by eapply inv_leave.
Qed.

Lemma after_update_ok F0 F s j r f U P (m : K update) :
  rcu_inv_at F0 F s -> rcu_writers s !! j = Some (WIdle r) ->
  wp m (update_post f F (rcu_mem s) (rcu_store s) (rcu_users s) (rcu_programs s) U P) (rcu_mem s) ->
  step_ok F0 (after_update j f U P (m (rcu_mem s)) s).
Proof.
  intros Hinv Hj (u & σ & -> & Hu)%wp_inv. destruct u as [e|old]; simpl; apply step_next.
  - destruct Hu as [Hh Hrep]. exists F. by eapply inv_writer.
  - by eapply inv_publish.
Qed.

Lemma item_value F0 F s f id : rcu_inv_at F0 F s -> item_at F0 f id ->
  match f with
  | UserMap => exists x, heap (rcu_mem s) !! id = Some (OInt x) /\ F !! id = Some (OInt x)
  | ProgramMap => exists x, heap (rcu_mem s) !! id = Some (OStr x) /\ F !! id = Some (OStr x)
  end.
Proof.
  intros Hinv Hi. destruct (rcu_sub _ _ _ Hinv) as [_ Hs]. pose proof (ri_sub _ _ _ Hinv) as HF.
  destruct f; destruct Hi as [x Hx]; exists x; by split; eapply lookup_weaken.
Qed.

Lemma writer_step_ok F0 F s j w : rcu_inv_at F0 F s -> rcu_writers s !! j = Some w -> step_ok F0 (writer_step j w s).
Proof.
  intros Hinv Hj. destruct w as [r|f old|f old waiting]; cbn [writer_step].
  - apply step_blocked.
  - apply step_next. exists F. rewrite <-(set_mem_same s) at 3.
    eapply inv_writer; [done..|apply Hinv|]. intros i p f1 map Hi Hin [-> ->]. split; [done|]. split; [done|].
    apply elem_sections. eauto.
  - case_decide as Hw; [|apply step_blocked]. subst waiting.
    destruct (ri_retired _ _ _ Hinv _ _ _ _ Hj eq_refl) as (m & Hm & Hok & HF0).
    destruct (wp_inv _ _ _ (reclaim_ok F _ _ _ _ (ri_store _ _ _ Hinv) f old m Hm Hok)) as (r & σ & -> & -> & Hrep & Hkeep).
    apply step_next. by eapply inv_reclaim.
Qed.

Lemma rcu_step_ok F0 s l : rcu_inv F0 s -> rcu_valid F0 l -> step_ok F0 (rcu_step l s).
Proof.
  intros [F Hinv] Hl. destruct l as [i f id|i|j f id|j f id|j]; simpl in *.
  - destruct (rcu_readers s !! i) as [[]|] eqn:Hi; try apply step_blocked.
    destruct (rcu_sub _ _ _ Hinv) as [_ Hs]. destruct (key_at_ok _ _ _ _ Hl Hs) as (key & -> & Hk).
    rewrite set_mem_same. apply step_next. exists F. by eapply inv_reader.
  - destruct (rcu_readers s !! i) as [p|] eqn:Hi; [by eapply reader_step_ok|apply step_blocked].
  - destruct (rcu_writers s !! j) as [[r| |]|] eqn:Hj; try apply step_blocked.
    pose proof (item_value _ _ _ _ _ Hinv Hl) as Hv. pose proof (ri_store _ _ _ Hinv) as Hst.
    unfold add_step. destruct f; destruct Hv as (x & -> & Hx); (eapply after_update_ok; [done..|]).
    + by apply add_user_update.
    + by apply add_program_update.
  - destruct (rcu_writers s !! j) as [[r| |]|] eqn:Hj; try apply step_blocked.
    pose proof (item_value _ _ _ _ _ Hinv Hl) as Hv. pose proof (ri_store _ _ _ Hinv) as Hst.
    unfold remove_step. destruct f; destruct Hv as (x & -> & Hx); (eapply after_update_ok; [done..|]).
    + by apply remove_user_update.
    + by apply remove_program_update.
  - destruct (rcu_writers s !! j) as [w|] eqn:Hj; [by eapply writer_step_ok|apply step_blocked].
Qed.

(** The store at rest: [n] readers and [k] writers. *)
Definition rcu_init (σ : mem obj) (sp : loc) (n k : nat) (U : gset user) (P : gset program) : rcu :=
  Rcu σ sp (replicate n (RIdle None)) (replicate k (WIdle None)) U P.

Lemma rcu_init_inv F0 σ sp n k U P : store_rep F0 σ sp U P -> rcu_inv F0 (rcu_init σ sp n k U P).
Proof.
  intros Hr. exists F0. split; simpl; [done|done| | | |].
  - intros i p (-> & _)%lookup_replicate. done.
  - intros j w f old (-> & _)%lookup_replicate. done.
  - intros j j' w w' l (-> & _)%lookup_replicate _ (? & ? & ? & [=] & _).
  - auto.
Qed.

Lemma rcu_run_ok F0 ls : forall s, rcu_inv F0 s -> Forall (rcu_valid F0) ls ->
  exists s', rcu_run ls s = RNext s' /\ rcu_inv F0 s'.
Proof.
  induction ls as [|l ls IH]; intros s Hs Hv; simpl; [eauto|].
  apply Forall_cons in Hv as [Hl Hv]. destruct (rcu_step_ok F0 s l Hs Hl) as [Hub Hn].
  destruct (rcu_step l s); [by apply IH|done|]. apply IH; [|done]. by apply Hn.
Qed.

(** ** A grace period ends *)

(** A writer only waits for readers that are inside their critical section. *)
Definition waiting_ok (s : rcu) : Prop := forall j f old waiting i,
  rcu_writers s !! j = Some (WSync f old waiting) -> i ∈ waiting ->
  exists p, rcu_readers s !! i = Some p /\ in_section p = true.

Lemma waiting_reader s i p p' σ : waiting_ok s -> rcu_readers s !! i = Some p -> in_section p' = true ->
  waiting_ok (set_readers (<[i := p']> (rcu_readers s)) (set_mem σ s)).
Proof.
  intros Hw Hi Hp' j f old waiting i' Hj Hin. simpl in *. destruct (decide (i' = i)) as [->|Hne].
  - exists p'. split; [|done]. apply list_lookup_insert_eq. by eapply lookup_lt_Some.
  - rewrite list_lookup_insert_ne by done. by eapply Hw.
Qed.

Lemma waiting_leave s i p r : waiting_ok s -> rcu_readers s !! i = Some p ->
  waiting_ok (set_readers (<[i := RIdle r]> (rcu_readers s)) (set_writers (leave i <$> rcu_writers s) s)).
Proof.
  intros Hw Hi j f old waiting i' Hj Hin. simpl in *. rewrite list_lookup_fmap in Hj.
  apply fmap_Some in Hj as (w & Hj & Hl). destruct w; simplify_eq/=.
  assert (i' <> i) as Hne by set_solver. rewrite list_lookup_insert_ne by done. eapply Hw; [done|]. set_solver.
Qed.

Lemma waiting_writer s j w w' σ U P : waiting_ok s -> rcu_writers s !! j = Some w ->
  (forall f old waiting, w' = WSync f old waiting -> waiting = sections (rcu_readers s)) ->
  waiting_ok (Rcu σ (rcu_store s) (rcu_readers s) (<[j := w']> (rcu_writers s)) U P).
Proof.
  intros Hw Hj Hw' j1 f old waiting i Hj1 Hin. simpl in *.
  apply (lookup_writer _ _ _ _ _ _ Hj) in Hj1 as [[-> Heq]|[_ Hj1]]; [|by eapply Hw].
  symmetry in Heq. rewrite (Hw' _ _ _ Heq) in Hin. by apply elem_sections.
Qed.

Lemma waiting_update s s' j w f U P o : waiting_ok s -> rcu_writers s !! j = Some w ->
  after_update j f U P o s = RNext s' -> waiting_ok s'.
Proof.
  intros Hw Hj. unfold after_update. destruct o as [[[r|old] σ]|]; [..|done]; intros [= <-];
    by apply (waiting_writer s j w).
Qed.

Lemma waiting_step l s s' : waiting_ok s -> rcu_step l s = RNext s' -> waiting_ok s'.
Proof.
  intros Hw. destruct l as [i f id|i|j f id|j f id|j]; simpl.
  - destruct (rcu_readers s !! i) as [[]|] eqn:Hi; try done. destruct (key_at f id (rcu_mem s)) as [[key σ]|]; [|done].
    intros [= <-]. by eapply waiting_reader.
  - destruct (rcu_readers s !! i) as [p|] eqn:Hi; [|done]. destruct p as [|f id key|t f id key map ans|]; simpl.
    + done.
    + destruct (rcu_dereference _ _ _) as [[map σ]|]; [|done]. intros [= <-]. by eapply waiting_reader.
    + destruct (probe _ _ _ _ _ _) as [[b σ]|]; [|done]. intros [= <-]. eapply waiting_reader; [done..|]. by destruct b, t.
    + intros [= <-]. by eapply waiting_leave.
  - destruct (rcu_writers s !! j) as [[]|] eqn:Hj; try done. unfold add_step.
    destruct f, (heap (rcu_mem s) !! id) as [[]|]; try done; by eapply waiting_update.
  - destruct (rcu_writers s !! j) as [[]|] eqn:Hj; try done. unfold remove_step.
    destruct f, (heap (rcu_mem s) !! id) as [[]|]; try done; by eapply waiting_update.
  - destruct (rcu_writers s !! j) as [[r|f old|f old waiting]|] eqn:Hj; cbn [writer_step]; try done.
    + intros [= <-]. apply (waiting_writer s j (WPublished f old)); [done..|]. by intros ? ? ? [= _ _ <-].
    + case_decide; [|done]. destruct (reclaim _ _) as [[r σ]|]; [|done]. intros [= <-]. by apply (waiting_writer s j (WSync f old waiting)).
Qed.

Lemma waiting_run ls : forall s s', waiting_ok s -> rcu_run ls s = RNext s' -> waiting_ok s'.
Proof.
  induction ls as [|l ls IH]; intros s s' Hw; simpl; [by intros [= <-]|].
  destruct (rcu_step l s) as [| |s1] eqn:E; [by apply IH|done|]. apply IH. by eapply waiting_step.
Qed.

(** Steps a reader still has to take. *)
Definition reader_rank (p : reader) : nat :=
  match p with RIdle _ => 0 | RUnlock _ _ => 1 | RProbe T1 _ _ _ _ _ => 2 | RProbe T0 _ _ _ _ _ => 3 | RLocked _ _ _ => 4 end%nat.

Definition rank_of (s : rcu) (i : nat) : nat := from_option reader_rank 0%nat (rcu_readers s !! i).

(** One step of reader [i] brings it closer to the end and concerns nobody else. *)
Lemma reader_advances s i s' : rcu_step (LReader i) s = RNext s' ->
  (rank_of s' i < rank_of s i)%nat /\ (forall i', i' <> i -> rank_of s' i' = rank_of s i') /\
  length (rcu_readers s') = length (rcu_readers s) /\ pending <$> rcu_writers s' = pending <$> rcu_writers s.
Proof.
  simpl. destruct (rcu_readers s !! i) as [p|] eqn:Hi; [|done].
  assert (forall p', (reader_rank p' < reader_rank p)%nat ->
    (from_option reader_rank 0%nat (<[i := p']> (rcu_readers s) !! i) < reader_rank p)%nat /\
    (forall i', i' <> i -> from_option reader_rank 0%nat (<[i := p']> (rcu_readers s) !! i') = rank_of s i') /\
    length (<[i := p']> (rcu_readers s)) = length (rcu_readers s))%nat as Hput.
  { intros p' Hr. split_and!.
    - rewrite list_lookup_insert_eq by (by eapply lookup_lt_Some). done.
    - intros i' Hne. unfold rank_of. by rewrite list_lookup_insert_ne.
    - apply length_insert. }
  unfold rank_of at 1 2. rewrite Hi. simpl. destruct p as [|f id key|t f id key map ans|r ans]; simpl.
  - done.
  - destruct (rcu_dereference _ _ _) as [[map σ]|]; [|done]. intros [= <-].
    destruct (Hput (RProbe T0 f id key map (registered s f id))) as (? & ? & ?); [simpl; lia|]. by split_and!.
  - destruct (probe _ _ _ _ _ _) as [[b σ]|]; [|done]. intros [= <-].
    destruct (Hput (if b : bool then RUnlock 0 ans else
      match t with T0 => RProbe T1 f id key map ans | T1 => RUnlock (-1) ans end)) as (? & ? & ?);
      [destruct b, t; simpl; lia|]. by split_and!.
  - intros [= <-]. destruct (Hput (RIdle (Some r))) as (? & ? & ?); [simpl; lia|]. split_and!; try done.
    simpl. rewrite <-list_fmap_compose. apply list_fmap_ext. intros ? w _. apply pending_leave.
Qed.

(** Four steps finish a search. *)
Fixpoint drain (ids : list nat) : list rcu_label :=
  match ids with [] => [] | i :: ids => replicate 4 (LReader i) ++ drain ids end.

Lemma drain_one F0 i n : forall s, rcu_inv F0 s -> (rank_of s i <= n)%nat ->
  exists s', rcu_run (replicate n (LReader i)) s = RNext s' /\ rcu_inv F0 s' /\ rank_of s' i = 0%nat /\
    (forall i', i' <> i -> rank_of s' i' = rank_of s i') /\
    length (rcu_readers s') = length (rcu_readers s) /\ pending <$> rcu_writers s' = pending <$> rcu_writers s.
Proof.
  induction n as [|n IH]; intros s Hs Hr; simpl; [exists s; split_and!; try done; lia|].
  destruct (rcu_step_ok F0 s (LReader i) Hs I) as [Hub Hn]. simpl in Hub, Hn.
  pose proof (reader_advances s i) as Ha. simpl in Ha.
  destruct (rcu_readers s !! i) as [p|] eqn:Hi.
  2: { apply IH; [done|]. unfold rank_of. rewrite Hi. simpl. lia. }
  destruct (reader_step i p s) as [| |s1] eqn:E; [|done|].
  { apply IH; [done|]. unfold rank_of. rewrite Hi. destruct p; simpl in *; [lia|..].
    - by destruct (rcu_dereference _ _ _) as [[]|].
    - by destruct (probe _ _ _ _ _ _) as [[]|].
    - done. }
  destruct (Ha s1 eq_refl) as (H1 & H2 & H3 & H4).
  destruct (IH s1 (Hn s1 eq_refl)) as (s2 & ? & ? & ? & Hne & ? & ?); [lia|].
  exists s2. split_and!; try done; [|congruence..]. intros i' Hi'. rewrite Hne by done. by apply H2.
Qed.

Lemma rcu_run_app ls ls' s s1 : rcu_run ls s = RNext s1 -> rcu_run (ls ++ ls') s = rcu_run ls' s1.
Proof.
  revert s. induction ls as [|l ls IH]; intros s; simpl; [by intros [= <-]|].
  destruct (rcu_step l s); [apply IH|done|apply IH].
Qed.

Lemma rank_le s i : (rank_of s i <= 4)%nat.
Proof. unfold rank_of. destruct (rcu_readers s !! i) as [[|? ? ?|[] ? ? ? ? ?|]|]; simpl; lia. Qed.

Lemma drain_ok F0 ids : forall s, rcu_inv F0 s ->
  exists s', rcu_run (drain ids) s = RNext s' /\ rcu_inv F0 s' /\ (forall i, i ∈ ids -> rank_of s' i = 0%nat) /\
    (forall i, rank_of s i = 0%nat -> rank_of s' i = 0%nat) /\
    length (rcu_readers s') = length (rcu_readers s) /\ pending <$> rcu_writers s' = pending <$> rcu_writers s.
Proof.
  induction ids as [|i ids IH]; intros s Hs; cbn [drain].
  { exists s. split_and!; try done. intros i. by rewrite elem_of_nil. }
  destruct (drain_one F0 i 4 s Hs (rank_le s i)) as (s1 & E1 & Hs1 & H0 & Hne & Hl & Hp).
  destruct (IH s1 Hs1) as (s2 & E2 & Hs2 & Hin & Hz & Hl2 & Hp2). exists s2.
  split; [by rewrite (rcu_run_app _ _ _ _ E1)|]. split; [done|]. split_and!; [| |congruence..].
  - intros i' [->|Hi]%elem_of_cons; [by apply Hz|by apply Hin].
  - intros i' Hr. apply Hz. destruct (decide (i' = i)) as [->|Hd]; [done|by rewrite Hne].
Qed.

(** When all readers are idle, a writer gets through. *)
Lemma writer_finishes F0 s j p : rcu_inv F0 s -> waiting_ok s -> (forall i, rank_of s i = 0%nat) ->
  pending <$> rcu_writers s !! j = Some (Some p) ->
  exists s', rcu_run [LWriter j; LWriter j] s = RNext s' /\ rcu_writers s' !! j = Some (WIdle (Some 0)).
Proof.
  intros Hs Hw Hz Hp. apply fmap_Some in Hp as (w & Hj & Hpw).
  assert (forall i q, rcu_readers s !! i = Some q -> in_section q = true -> False) as Hidle.
  { intros i q Hi Hq. specialize (Hz i). unfold rank_of in Hz. rewrite Hi in Hz. by destruct q as [|? ? ?|[] ? ? ? ? ?|]. }
  assert (forall s f old, rcu_inv F0 s -> rcu_writers s !! j = Some (WSync f old ∅) ->
    exists s', rcu_step (LWriter j) s = RNext s' /\ rcu_writers s' !! j = Some (WIdle (Some 0))) as Hrec.
  { intros s1 f old [F Hi] Hj1. cbn [rcu_step]. rewrite Hj1. cbn [writer_step]. rewrite decide_True by done.
    destruct (ri_retired _ _ _ Hi _ _ _ _ Hj1 eq_refl) as (m & Hm & Hok & _).
    destruct (wp_inv _ _ _ (reclaim_ok F _ _ _ _ (ri_store _ _ _ Hi) f old m Hm Hok)) as (r & σ & -> & -> & _).
    eexists. split; [done|]. apply list_lookup_insert_eq. by eapply lookup_lt_Some. }
  destruct w as [|f old|f old waiting]; simplify_eq/=.
  - rewrite Hj. cbn [writer_step]. assert (sections (rcu_readers s) = ∅) as He.
    { apply set_eq. intros i. rewrite elem_sections. split; [|set_solver]. intros (q & ? & ?). by destruct (Hidle i q). }
    rewrite He. destruct (rcu_step_ok F0 s (LWriter j) Hs I) as [_ Hn]. cbn [rcu_step] in Hn. rewrite Hj in Hn.
    cbn [writer_step] in Hn. rewrite He in Hn.
    destruct (Hrec _ f old (Hn _ eq_refl)) as (s' & E & Hj').
    { apply list_lookup_insert_eq. by eapply lookup_lt_Some. }
    cbn [rcu_step] in E. rewrite E. eauto.
  - assert (waiting = ∅) as ->.
    { apply set_eq. intros i. split; [|set_solver]. intros Hin. destruct (Hw _ _ _ _ _ Hj Hin) as (q & ? & ?). by destruct (Hidle i q). }
    destruct (Hrec s f old Hs Hj) as (s' & E & Hj'). cbn [rcu_step] in E. rewrite E, Hj'. simpl. eauto.
Qed.

(** ** Properties *)

(** The split of a writer used here is the writer: each of the four
    operations on the store is its update, followed (after [synchronize_rcu],
    which changes no memory) by the freeing of the old map. *)
Theorem writer_is_update_then_reclaim sp id σ :
  add_user_to_store sp id σ = (u ← add_update user sp id; reclaim u) σ /\
  remove_user_from_store sp id σ = (u ← remove_update user sp id; reclaim u) σ /\
  add_program_to_store sp id σ = (u ← add_update program sp id; reclaim u) σ /\
  remove_program_from_store sp id σ = (u ← remove_update program sp id; reclaim u) σ.
Proof. split_and!; first [apply add_split|apply remove_split]. Qed.

(** C8: for every interleaving of any number of searches and registrations, no
    step reads, frees or writes memory that is not allocated, and a search
    returns 0 exactly when its item was registered at the moment it
    dereferenced the map, -1 otherwise, whatever writers do meanwhile. *)
Theorem rcu_search_exact F0 σ sp n k U P ls : store_rep F0 σ sp U P -> Forall (rcu_valid F0) ls ->
  exists s, rcu_run ls (rcu_init σ sp n k U P) = RNext s /\
    forall i r ans, rcu_readers s !! i = Some (RUnlock r ans) -> r = if ans then 0 else -1.
Proof.
  intros Hr Hv. destruct (rcu_run_ok F0 ls _ (rcu_init_inv F0 σ sp n k U P Hr) Hv) as (s & E & F & Hs).
  exists s. split; [done|]. intros i r ans Hi. by apply (ri_readers _ _ _ Hs) in Hi.
Qed.

(** C29: nothing is leaked by concurrent writers: whenever no writer is under
    way, the heap is exactly the callers' memory and a store that represents
    the sets the successful updates lead to. *)
Theorem rcu_no_leak F0 σ sp n k U P ls s : store_rep F0 σ sp U P -> Forall (rcu_valid F0) ls ->
  rcu_run ls (rcu_init σ sp n k U P) = RNext s ->
  Forall (fun w => pending w = None) (rcu_writers s) ->
  store_rep F0 (rcu_mem s) (rcu_store s) (rcu_users s) (rcu_programs s).
Proof.
  intros Hr Hv E Hidle. destruct (rcu_run_ok F0 ls _ (rcu_init_inv F0 σ sp n k U P Hr) Hv) as (s' & E' & F & Hs).
  rewrite E in E'. injection E' as <-. replace F0 with F; [apply Hs|]. apply map_eq. intros l.
  destruct (F !! l) as [v|] eqn:El.
  - destruct (ri_cover _ _ _ Hs l) as [[w Hw]|(j & w & Hj & f & old & m & Hp & _)]; [by eexists| |].
    + rewrite Hw, <-El. by rewrite (lookup_weaken _ _ _ _ Hw (ri_sub _ _ _ Hs)).
    + rewrite (proj1 (Forall_lookup _ _) Hidle j w Hj) in Hp. done.
  - destruct (F0 !! l) as [w|] eqn:E0; [|done]. by rewrite (lookup_weaken _ _ _ _ E0 (ri_sub _ _ _ Hs)) in El.
Qed.

(** No writer waits for ever: in every state that can be reached, once the
    searches that are under way have taken their (at most four) remaining
    steps, two steps of a writer end its [synchronize_rcu], free the old map
    and return 0. *)
Theorem rcu_writer_completes F0 σ sp n k U P ls s j p : store_rep F0 σ sp U P -> Forall (rcu_valid F0) ls ->
  rcu_run ls (rcu_init σ sp n k U P) = RNext s -> pending <$> rcu_writers s !! j = Some (Some p) ->
  exists s', rcu_run (drain (seq 0 (length (rcu_readers s))) ++ [LWriter j; LWriter j]) s = RNext s' /\
    rcu_writers s' !! j = Some (WIdle (Some 0)).
Proof.
  intros Hr Hv E Hp. destruct (rcu_run_ok F0 ls _ (rcu_init_inv F0 σ sp n k U P Hr) Hv) as (s0 & E0 & Hs).
  rewrite E in E0. injection E0 as <-.
  assert (waiting_ok s) as Hw.
  { eapply waiting_run; [|exact E]. intros j0 f old w i (Hc & _)%lookup_replicate. done. }
  destruct (drain_ok F0 (seq 0 (length (rcu_readers s))) s Hs) as (s1 & E1 & Hs1 & Hin & _ & Hl & Hpe).
  rewrite (rcu_run_app _ _ _ _ E1). eapply writer_finishes; [done|by eapply waiting_run| |].
  - intros i. destruct (decide (i < length (rcu_readers s))%nat) as [Hlt|Hge].
    + apply Hin, elem_of_seq. lia.
    + unfold rank_of. rewrite lookup_ge_None_2 by lia. done.
  - rewrite <-list_lookup_fmap, Hpe, list_lookup_fmap. done.
Qed.

(** ** Witnesses: two readers and two writers on the demonstration store *)

Definition demo_labels : list rcu_label :=
  [LFind 0 UserMap 1; LReader 0; LAdd 0 UserMap 1; LWriter 0; LFind 1 UserMap 1; LReader 1;
   LAdd 1 ProgramMap 2; LReader 0; LReader 1; LReader 0].

Lemma demo_valid : Forall (rcu_valid demo_frame) demo_labels.
Proof. repeat constructor; eexists; reflexivity. Qed.

Definition run_gives (o : rcu_outcome) (Q : rcu -> Prop) : Prop :=
  match o with RNext s => Q s | _ => False end.

Lemma run_gives_inv o Q : run_gives o Q -> exists s, o = RNext s /\ Q s.
Proof. destruct o; simpl; [done..|eauto]. Qed.

Lemma rcu_search_exact_witness : exists s,
  rcu_run demo_labels (rcu_init demo_store 3 2 2 ∅ ∅) = RNext s /\
  forall i r ans, rcu_readers s !! i = Some (RUnlock r ans) -> r = if ans then 0 else -1.
Proof. exact (rcu_search_exact demo_frame demo_store 3 2 2 ∅ ∅ demo_labels demo_store_rep demo_valid). Defined.

(** The first search reads the map before the user is added, the second after. *)
Example demo_answers :
  run_gives (rcu_run demo_labels (rcu_init demo_store 3 2 2 ∅ ∅)) (fun s =>
    rcu_readers s = [RUnlock (-1) false; RUnlock 0 true] /\
    pending <$> rcu_writers s !! 0%nat = Some (Some (UserMap, 4%positive))).
Proof. vm_compute. split; reflexivity. Qed.

Lemma rcu_writer_completes_witness : exists s s',
  rcu_run demo_labels (rcu_init demo_store 3 2 2 ∅ ∅) = RNext s /\
  rcu_run (drain (seq 0 (length (rcu_readers s))) ++ [LWriter 0; LWriter 0]) s = RNext s' /\
  rcu_writers s' !! 0%nat = Some (WIdle (Some 0)).
Proof.
  destruct (run_gives_inv _ _ demo_answers) as (s & E & _ & Hp). exists s.
  destruct (rcu_writer_completes demo_frame demo_store 3 2 2 ∅ ∅ demo_labels s 0 (UserMap, 4%positive)
    demo_store_rep demo_valid E Hp) as (s' & E' & Hw). exists s'. exact (conj E (conj E' Hw)).
Defined.

(** The same run, carried to its end. *)
Definition demo_quiet : list rcu_label := demo_labels ++ drain [0; 1]%nat ++ [LWriter 0; LWriter 1; LWriter 1].

Lemma demo_quiet_valid : Forall (rcu_valid demo_frame) demo_quiet.
Proof. apply Forall_app. split; [exact demo_valid|]. repeat constructor. Qed.

Example demo_rest :
  run_gives (rcu_run demo_quiet (rcu_init demo_store 3 2 2 ∅ ∅)) (fun s =>
    rcu_writers s = [WIdle (Some 0); WIdle (Some 0)] /\ rcu_users s = {[1000]}).
Proof. vm_compute. split; reflexivity. Qed.

Lemma rcu_no_leak_witness : exists s,
  rcu_run demo_quiet (rcu_init demo_store 3 2 2 ∅ ∅) = RNext s /\
  store_rep demo_frame (rcu_mem s) (rcu_store s) (rcu_users s) (rcu_programs s).
Proof.
  destruct (run_gives_inv _ _ demo_rest) as (s & E & Hw & _). exists s. split; [exact E|].
  apply (rcu_no_leak demo_frame demo_store 3 2 2 ∅ ∅ demo_quiet s demo_store_rep demo_quiet_valid E).
  rewrite Hw. repeat constructor.
Defined.
