(* ===== verification/Queue.v ===== *)
(** * The FIFO of blocked threads ([src/sysThrot_queue.c])

    Threads that got no token wait on an element of [global_queue]; the
    epoch callback moves the elements it wakes to [junk_list], where they are
    freed once their thread has marked them [exited].  Elements come from a
    slab cache, [queue_cache]; they are named by an identifier that is never
    reused.  Each function below is one critical section of the C code
    ([queue_lock], [junk_lock]); [None] is undefined behaviour (an element
    that is not allocated, a cache that does not exist). *)

From stdpp Require Import prelude gmap list.
From S2P Require Import Prelude.

Abbreviation eid := positive.

Record queue_elem := Elem {
  wake_up_flag : bool;
  exited : bool;
}.

Record queue := Queue {
  elems : gmap eid queue_elem;     (* the live objects of queue_cache *)
  next_elem : eid;
  global_queue : list eid;
  junk_list : list eid;
  current_in_queue : Z;            (* int *)
  queue_cache : bool;              (* the cache exists *)
}.

(** Result of [add_to_queue]: NULL, the special pointer 1, or the address of
    the new element's [wake_up_flag]. *)
Inductive aq_result := AqNull | AqOne | AqFlag (e : eid).

Definition set_elems (f : gmap eid queue_elem) (q : queue) : queue :=
  Queue f (next_elem q) (global_queue q) (junk_list q) (current_in_queue q) (queue_cache q).

Definition list_del (e : eid) (l : list eid) : list eid := filter (fun x => x <> e) l.

(** [list_move_tail(&data->node, &junk_list)] for an element of [global_queue]. *)
Definition move_to_junk (e : eid) (q : queue) : queue :=
  Queue (elems q) (next_elem q) (list_del e (global_queue q)) (junk_list q ++ [e])
    (current_in_queue q) (queue_cache q).

Definition set_current (c : Z) (q : queue) : queue :=
  Queue (elems q) (next_elem q) (global_queue q) (junk_list q) (s32 c) (queue_cache q).

Definition set_wake (e : eid) (q : queue) : option queue :=
  d ← elems q !! e; Some (set_elems (<[e := Elem true (exited d)]> (elems q)) q).

Definition init_queue (alloc_ok : bool) (q : queue) : Z * queue :=
  if alloc_ok
  then (0, Queue (elems q) (next_elem q) (global_queue q) (junk_list q) (current_in_queue q) true)
  else (- ENOMEM,
        Queue (elems q) (next_elem q) (global_queue q) (junk_list q) (current_in_queue q) false).

Definition add_to_queue (alloc_ok : bool) (working : bool) (q : queue)
    : option (aq_result * queue) :=
  if negb (queue_cache q) then None
  else if negb alloc_ok then Some (AqNull, q)
  else
    let e := next_elem q in
    if negb working then
      Some (AqOne, Queue (elems q) (Pos.succ e) (global_queue q) (junk_list q)
                     (current_in_queue q) (queue_cache q))
    else
      Some (AqFlag e, Queue (<[e := Elem false false]> (elems q)) (Pos.succ e)
                        (global_queue q ++ [e]) (junk_list q)
                        (s32 (current_in_queue q + 1)) (queue_cache q)).

(** The loop of [unqueue] over the elements still to visit. *)
Fixpoint unqueue_loop (todo : list eid) (missing : Z) (q : queue) : option (Z * queue) :=
  match todo with
  | [] => Some (missing, q)
  | e :: todo =>
      d ← elems q !! e;
      if exited d then
        unqueue_loop todo missing (set_current (current_in_queue q - 1) (move_to_junk e q))
      else if missing <=? 0 then Some (missing, q)
      else
        q ← set_wake e q;
        unqueue_loop todo (missing - 1) (move_to_junk e q)
  end.

Definition unqueue (n : Z) (q : queue) : option (Z * queue) :=
  '(missing, q) ← unqueue_loop (global_queue q) n q;
  Some (n - missing, set_current (current_in_queue q - (n - missing)) q).

Fixpoint free_junk_loop (todo : list eid) (q : queue) : option queue :=
  match todo with
  | [] => Some q
  | e :: todo =>
      d ← elems q !! e;
      if exited d then
        free_junk_loop todo
          (Queue (delete e (elems q)) (next_elem q) (global_queue q)
             (list_del e (junk_list q)) (current_in_queue q) (queue_cache q))
      else free_junk_loop todo q
  end.

Definition free_junk (q : queue) : option queue := free_junk_loop (junk_list q) q.

Definition set_exited_flag (e : eid) (q : queue) : option queue :=
  d ← elems q !! e; Some (set_elems (<[e := Elem (wake_up_flag d) true]> (elems q)) q).

Fixpoint wake_loop (todo : list eid) (count : Z) (q : queue) : option (Z * queue) :=
  match todo with
  | [] => Some (count, q)
  | e :: todo => q ← set_wake e q; wake_loop todo (s32 (count + 1)) q
  end.

Definition wake_up_queue (q : queue) : option (Z * queue) :=
  '(count, q) ← wake_loop (global_queue q) 0 q;
  Some (count, Queue (elems q) (next_elem q) [] (junk_list q ++ global_queue q) 0 (queue_cache q)).

Definition destroy_queue (q : queue) : option (Z * queue) :=
  q ← free_junk q;
  Some (0, Queue (elems q) (next_elem q) (global_queue q) (junk_list q) (current_in_queue q) false).

(** The elements whose flag is set, and how many flags are set in [q'] that
    were not in [q]; for the statements only. *)
Definition woken_set (q : queue) : gset eid := dom (filter (fun x => wake_up_flag x.2 = true) (elems q)).
Definition newly_woken (q q' : queue) : Z := Z.of_nat (size (woken_set q' ∖ woken_set q)).

(** The initial state: no cache, empty lists. *)
Definition queue0 : queue := Queue ∅ 1 [] [] 0 false.

(** ** Invariant *)

(** The lists are disjoint and duplicate free, hold exactly the allocated
    elements, [current_in_queue] counts the waiters, a waiter is not woken,
    and an element is junk only once woken or abandoned. *)
Record queue_wf (q : queue) : Prop := {
  qw_nodup : NoDup (global_queue q ++ junk_list q);
  qw_live e : e ∈ global_queue q ++ junk_list q <-> is_Some (elems q !! e);
  qw_next e : is_Some (elems q !! e) -> (e < next_elem q)%positive;
  qw_count : current_in_queue q = s32 (Z.of_nat (length (global_queue q)));
  qw_wait e d : e ∈ global_queue q -> elems q !! e = Some d -> wake_up_flag d = false;
  qw_junk e d : e ∈ junk_list q -> elems q !! e = Some d -> wake_up_flag d = true \/ exited d = true;
}.

Definition live (q : queue) (e : eid) : Prop := exists w, elems q !! e = Some (Elem w false).

#[export] Instance live_dec q e : Decision (live q e).
Proof.
  refine (match elems q !! e as o return elems q !! e = o -> _ with
          | Some (Elem w false) => fun E => left (ex_intro _ w E)
          | _ => fun E => right _ end eq_refl); intros [w' E']; congruence.
Defined.

Lemma list_del_cons e l : e ∉ l -> list_del e (e :: l) = l.
Proof.
  intros He. unfold list_del. rewrite filter_cons_False by tauto.
  induction l as [|x l IH]; [done|]. rewrite filter_cons_True by set_solver.
  f_equal. apply IH. set_solver.
Qed.

Lemma elem_of_list_del e x l : x ∈ list_del e l <-> x ∈ l /\ x <> e.
Proof. unfold list_del. rewrite list_elem_of_filter. tauto. Qed.

Lemma s32_s32_add z k : s32 (s32 z + k) = s32 (z + k).
Proof. wrap_lia. Qed.

(** ** [unqueue] *)

(** Setting the wake-up flag of the elements in [W]. *)
Definition woken_elems (W : list eid) (m m' : gmap eid queue_elem) : Prop :=
  forall e, m' !! e = if decide (e ∈ W) then (fun d => Elem true (exited d)) <$> m !! e else m !! e.

(** What one run of the loop over [todo] does: a prefix [pre] of the queue
    moves to the junk list, the elements of [pre] that did not exit are woken,
    and the loop stops at the end or at a waiter when no token is left. *)
Record unqueued (todo : list eid) (missing : Z) (q : queue) (pre : list eid)
    (missing' : Z) (q' : queue) : Prop := {
  uq_split : todo = pre ++ global_queue q';
  uq_junk : junk_list q' = junk_list q ++ pre;
  uq_missing : missing' = missing - Z.of_nat (length (filter (live q) pre));
  uq_bound : Z.of_nat (length (filter (live q) pre)) <= Z.max missing 0;
  uq_elems : woken_elems (filter (live q) pre) (elems q) (elems q');
  uq_stop : global_queue q' = [] \/
    exists e l, global_queue q' = e :: l /\ live q e /\ missing' <= 0;
  uq_next : next_elem q' = next_elem q;
  uq_cache : queue_cache q' = queue_cache q;
  uq_current : s32 (current_in_queue q' - (missing - missing')) =
    s32 (current_in_queue q - Z.of_nat (length pre));
}.

Lemma live_not_exited q e d : elems q !! e = Some d -> live q e <-> exited d = false.
Proof. intros E. unfold live. destruct d as [w x]; simpl. split; [naive_solver|intros ->; eauto]. Qed.

Lemma filter_live_ext q q' (l : list eid) : (forall e, live q e <-> live q' e) ->
  filter (live q) l = filter (live q') l.
Proof. intros Hx. apply list_filter_iff. done. Qed.

Lemma unqueued_nil todo missing q :
  global_queue q = todo -> (todo = [] \/ exists e l, todo = e :: l /\ live q e /\ missing <= 0) ->
  unqueued todo missing q [] missing q.
Proof.
  intros Hg Hs. split; simpl; rewrite ?app_nil_r, ?Hg; auto; [lia..| |f_equal; lia].
  intros e. by rewrite decide_False by apply not_elem_of_nil.
Qed.

(** One iteration on an abandoned element: junk, not woken. *)
Lemma unqueued_skip e d todo missing q pre missing' q' :
  elems q !! e = Some d -> exited d = true ->
  unqueued todo missing (set_current (current_in_queue q - 1) (move_to_junk e q)) pre missing' q' ->
  unqueued (e :: todo) missing q (e :: pre) missing' q'.
Proof.
  intros Hd Hex [U1 U2 U3 U4 U5 U6 U7 U8 U9].
  assert (filter (live q) (e :: pre) = filter (live q) pre) as Hf.
  { rewrite filter_cons_False; [done|]. rewrite (live_not_exited q e d Hd). congruence. }
  split; rewrite ?Hf; try done.
  - simpl. by f_equal.
  - rewrite U2. simpl. by rewrite <-app_assoc.
  - rewrite U9. simpl. rewrite <-Z.add_opp_r, s32_s32_add. f_equal. lia.
Qed.

(** One iteration on a waiter while there are tokens: woken. *)
Lemma unqueued_wake e d todo missing q pre missing' q' :
  elems q !! e = Some d -> exited d = false -> 0 < missing -> e ∉ todo ->
  unqueued todo (missing - 1)
    (move_to_junk e (set_elems (<[e := Elem true (exited d)]> (elems q)) q)) pre missing' q' ->
  unqueued (e :: todo) missing q (e :: pre) missing' q'.
Proof.
  intros Hd Hex Hm He. set (q1 := move_to_junk e _). intros [U1 U2 U3 U4 U5 U6 U7 U8 U9].
  assert (forall e', live q e' <-> live q1 e') as Hl1.
  { intros e'. unfold live. simpl. destruct (decide (e = e')) as [<-|Hne].
    - rewrite lookup_insert_eq. destruct d; naive_solver.
    - by rewrite lookup_insert_ne. }
  rewrite <-(filter_live_ext q q1) in U3, U4, U5 by done.
  assert (filter (live q) (e :: pre) = e :: filter (live q) pre) as Hf.
  { rewrite filter_cons_True; [done|]. by rewrite (live_not_exited q e d Hd). }
  assert (e ∉ pre) as Hep by (intros ?; apply He; rewrite U1; set_solver).
  split; rewrite ?Hf; try done.
  - simpl. by f_equal.
  - rewrite U2. simpl. by rewrite <-app_assoc.
  - simpl length. lia.
  - simpl length. lia.
  - intros e'. rewrite U5. simpl. destruct (decide (e = e')) as [<-|Hne].
    + rewrite lookup_insert_eq, Hd. simpl. rewrite (decide_True _ _ (list_elem_of_here _ _)).
      rewrite decide_False; [done|]. rewrite list_elem_of_filter. tauto.
    + rewrite lookup_insert_ne by done. apply decide_ext. set_solver.
  - destruct U6 as [?|(e' & l & ? & ? & ?)]; [auto|]. right. exists e', l. by rewrite Hl1.
  - simpl in *. replace (missing - missing') with (missing - 1 - missing' + 1) by lia.
    rewrite Z.sub_add_distr, <-(Z.add_opp_r _ 1), <-s32_s32_add, U9, s32_s32_add. f_equal. lia.
Qed.

Lemma unqueue_loop_ok todo : forall missing q,
  global_queue q = todo -> NoDup todo -> (forall e, e ∈ todo -> is_Some (elems q !! e)) ->
  exists pre missing' q', unqueue_loop todo missing q = Some (missing', q') /\
    unqueued todo missing q pre missing' q'.
Proof.
  induction todo as [|e todo IH]; intros missing q Hg Hnd Hin; simpl.
  { exists [], missing, q. split; [done|]. apply unqueued_nil; auto. }
  apply NoDup_cons in Hnd as [He Hnd].
  destruct (Hin e) as [d Hd]; [left|]. rewrite Hd. simpl. destruct (exited d) eqn:Hex.
  - destruct (IH missing (set_current (current_in_queue q - 1) (move_to_junk e q))) as (pre & missing' & q' & E & U);
      [simpl; rewrite Hg; by apply list_del_cons|done|intros e' ?; apply Hin; by right|].
    exists (e :: pre), missing', q'. split; [exact E|]. by eapply unqueued_skip.
  - destruct (missing <=? 0) eqn:Hm; zbool.
    { exists [], missing, q. split; [done|]. apply unqueued_nil; [done|].
      right. exists e, todo. rewrite (live_not_exited q e d Hd). auto. }
    unfold set_wake. rewrite Hd. simpl.
    destruct (IH (missing - 1) (move_to_junk e (set_elems (<[e := Elem true (exited d)]> (elems q)) q)))
      as (pre & missing' & q' & E & U);
      [| |intros e' ?|exists (e :: pre), missing', q'; split; [exact E|]].
    + simpl. rewrite Hg. by apply list_del_cons.
    + done.
    + simpl. destruct (decide (e = e')) as [<-|Hne]; [rewrite lookup_insert_eq; eauto|].
      rewrite lookup_insert_ne by done. apply Hin. by right.
    + by apply (unqueued_wake e d).
Qed.

(** The whole of [unqueue]. *)
Record unqueue_spec (n : Z) (q : queue) (pre : list eid) (r : Z) (q' : queue) : Prop := {
  us_split : global_queue q = pre ++ global_queue q';
  us_junk : junk_list q' = junk_list q ++ pre;
  us_ret : r = Z.of_nat (length (filter (live q) pre));
  us_bound : 0 <= r <= Z.max n 0;
  us_elems : woken_elems (filter (live q) pre) (elems q) (elems q');
  us_stop : global_queue q' = [] \/
    exists e l, global_queue q' = e :: l /\ live q e /\ r = Z.max n 0;
  us_next : next_elem q' = next_elem q;
  us_cache : queue_cache q' = queue_cache q;
  us_wf : queue_wf q';
}.

Lemma woken_live W m m' e : woken_elems W m m' -> is_Some (m' !! e) <-> is_Some (m !! e).
Proof. intros Hw. rewrite Hw. case_decide; [|done]. by rewrite fmap_is_Some. Qed.

Lemma unqueue_ok n q : queue_wf q ->
  exists pre r q', unqueue n q = Some (r, q') /\ unqueue_spec n q pre r q'.
Proof.
  intros [Hnd Hlv Hnx Hct Hwt Hjk]. pose proof Hnd as (Hndg & _)%NoDup_app.
  destruct (unqueue_loop_ok (global_queue q) n q) as (pre & missing & q' & E & U); [done..| |].
  { intros e He. apply Hlv. set_solver. }
  unfold unqueue. rewrite E. simpl. destruct U as [U1 U2 U3 U4 U5 U6 U7 U8 U9].
  eexists pre, _, _. split; [done|]. split; simpl; try done.
  - lia.
  - lia.
  - destruct U6 as [?|(e & l & ? & ? & ?)]; [auto|]. right. exists e, l. split; [done|]. split; [done|]. lia.
  - assert (global_queue q' ++ junk_list q' ≡ₚ global_queue q ++ junk_list q) as Hp.
    { rewrite U1, U2. solve_Permutation. }
    split; simpl.
    + by rewrite Hp.
    + intros e. by rewrite Hp, (woken_live _ _ _ e U5).
    + intros e He. rewrite U7. apply Hnx. by rewrite <-(woken_live _ _ _ e U5).
    + rewrite U9, Hct, U1, length_app. rewrite <-Z.add_opp_r, s32_s32_add. f_equal. lia.
    + intros e d He. rewrite U5. rewrite decide_False.
      * apply Hwt. rewrite U1. set_solver.
      * rewrite list_elem_of_filter. intros [_ He']. rewrite U1 in Hndg.
        apply NoDup_app in Hndg as (_ & Hd & _). by apply (Hd e).
    + intros e d. rewrite U2, U5. intros [He|He]%elem_of_app.
      * case_decide; [|by apply Hjk].
        intros (d' & Hd' & ->)%fmap_Some. auto.
      * case_decide as Hw; [intros (d' & Hd' & ->)%fmap_Some; auto|].
        intros Hd. right. rewrite list_elem_of_filter in Hw.
        destruct (exited d) eqn:Hx; [done|]. destruct Hw. split; [|done].
        by apply (live_not_exited q e d).
Qed.

(** First come, first served. *)
Lemma unqueue_fifo n q pre r q' : unqueue_spec n q pre r q' ->
  filter (live q) pre = take (Z.to_nat r) (filter (live q) (global_queue q)) /\
  r = Z.min (Z.max n 0) (Z.of_nat (length (filter (live q) (global_queue q)))).
Proof.
  intros [U1 U2 U3 U4 U5 U6 U7 U8 U9]. rewrite U1, filter_app. split.
  - rewrite U3, Nat2Z.id. by rewrite take_app_length.
  - rewrite length_app. destruct U6 as [->|(e & l & -> & Hl & Hr)].
    + simpl. lia.
    + rewrite filter_cons_True by done. simpl. lia.
Qed.

(** ** [free_junk] *)

Definition dead (q : queue) (e : eid) : Prop := exists w, elems q !! e = Some (Elem w true).

#[export] Instance dead_dec q e : Decision (dead q e).
Proof.
  refine (match elems q !! e as o return elems q !! e = o -> _ with
          | Some (Elem w true) => fun E => left (ex_intro _ w E)
          | _ => fun E => right _ end eq_refl); intros [w' E']; congruence.
Defined.

Lemma free_junk_loop_ok todo : forall q, NoDup todo -> (forall e, e ∈ todo -> is_Some (elems q !! e)) ->
  exists q', free_junk_loop todo q = Some q' /\
    (forall e, elems q' !! e = if decide (e ∈ todo /\ dead q e) then None else elems q !! e) /\
    junk_list q' = filter (fun e => ~ (e ∈ todo /\ dead q e)) (junk_list q) /\
    global_queue q' = global_queue q /\ next_elem q' = next_elem q /\
    current_in_queue q' = current_in_queue q /\ queue_cache q' = queue_cache q.
Proof.
  induction todo as [|e todo IH]; intros q Hnd Hin; cbn [free_junk_loop].
  { exists q. split; [done|]. split; [|split; [|done]].
    - intros e. rewrite decide_False; [done|]. intros [?%not_elem_of_nil _]. done.
    - symmetry. apply list_filter_id. intros x _ [?%not_elem_of_nil _]. done. }
  apply NoDup_cons in Hnd as [He Hnd]. destruct (Hin e) as [d Hd]; [left|]. rewrite Hd.
  cbn [mbind option_bind]. assert (dead q e <-> exited d = true) as Hdead.
  { unfold dead. destruct d as [w x]; simpl. split; [naive_solver|intros ->; eauto]. }
  destruct (exited d).
  - destruct (IH (Queue (delete e (elems q)) (next_elem q) (global_queue q)
      (list_del e (junk_list q)) (current_in_queue q) (queue_cache q))) as (q' & E & He' & Hj' & R);
      [done| |].
    { intros e' He'. simpl. rewrite lookup_delete_ne; [apply Hin; by right|]. by intros <-. }
    assert (forall e', e' <> e -> dead (Queue (delete e (elems q)) (next_elem q) (global_queue q)
      (list_del e (junk_list q)) (current_in_queue q) (queue_cache q)) e' <-> dead q e') as Hdd.
    { intros e' Hne. unfold dead. simpl. by rewrite lookup_delete_ne. }
    exists q'. split; [done|]. split; [|split; [|done]].
    + intros e'. rewrite He'. simpl. destruct (decide (e' = e)) as [->|Hne].
      * rewrite lookup_delete_eq. rewrite (decide_True (P := e ∈ e :: todo /\ dead q e)); [by case_decide|].
        split; [left|by apply Hdead].
      * rewrite lookup_delete_ne by done. apply decide_ext. rewrite (Hdd e' Hne). set_solver.
    + rewrite Hj'. simpl. unfold list_del. rewrite list_filter_filter. apply list_filter_iff.
      intros e'. destruct (decide (e' = e)) as [->|Hne].
      * split; [naive_solver|]. intros Hc. destruct Hc. split; [left|by apply Hdead].
      * rewrite (Hdd e' Hne). set_solver.
  - destruct (IH q Hnd) as (q' & E & He' & Hj' & R); [intros; apply Hin; by right|].
    assert (~ dead q e) as Hnd' by (rewrite Hdead; done).
    exists q'. split; [done|]. split; [|split; [|done]].
    + intros e'. rewrite He'. apply decide_ext. set_solver.
    + rewrite Hj'. apply list_filter_iff. set_solver.
Qed.

Record free_junk_spec (q q' : queue) : Prop := {
  fj_elems e : elems q' !! e = if decide (e ∈ junk_list q /\ dead q e) then None else elems q !! e;
  fj_junk : junk_list q' = filter (fun e => ~ dead q e) (junk_list q);
  fj_global : global_queue q' = global_queue q;
  fj_next : next_elem q' = next_elem q;
  fj_cache : queue_cache q' = queue_cache q;
  fj_wf : queue_wf q';
}.

Lemma free_junk_ok q : queue_wf q -> exists q', free_junk q = Some q' /\ free_junk_spec q q'.
Proof.
  intros [Hnd Hlv Hnx Hct Hwt Hjk]. pose proof Hnd as (Hndg & Hdisj & Hndj)%NoDup_app.
  destruct (free_junk_loop_ok (junk_list q) q) as (q' & E & He & Hj & Hg & Hn & Hc & Hca); [done| |].
  { intros e ?. apply Hlv. set_solver. }
  assert (junk_list q' = filter (fun e => ~ dead q e) (junk_list q)) as Hj2.
  { rewrite Hj. apply list_filter_ext_in. intros e Hin. tauto. }
  exists q'. split; [done|]. split; try done. split.
  - rewrite Hg, Hj. apply NoDup_app. split; [done|]. split; [|by apply NoDup_filter].
    intros e H1 H2. apply list_elem_of_filter in H2 as [_ H2]. by apply (Hdisj e).
  - intros e. rewrite Hg, Hj2, He, elem_of_app, list_elem_of_filter. case_decide as Hcd.
    + split; [|intros [? ?]; done]. intros [H1|[? _]]; [|tauto]. destruct Hcd. by destruct (Hdisj e).
    + rewrite <-Hlv, elem_of_app. tauto.
  - intros e. rewrite He, Hn. case_decide; [by intros [? ?]|apply Hnx].
  - by rewrite Hc, Hg.
  - intros e d. rewrite Hg, He. intros Hin. case_decide; [done|by apply Hwt].
  - intros e d. rewrite Hj2, He. intros [_ Hin]%list_elem_of_filter. case_decide; [done|by apply Hjk].
Qed.

(** ** The other operations *)

Lemma wake_loop_ok todo : forall c q, (forall e, e ∈ todo -> is_Some (elems q !! e)) ->
  exists c' m', wake_loop todo c q = Some (c', set_elems m' q) /\ woken_elems todo (elems q) m'.
Proof.
  induction todo as [|e todo IH]; intros c q Hin; cbn [wake_loop].
  { exists c, (elems q). split; [by destruct q|]. intros e. by rewrite decide_False by apply not_elem_of_nil. }
  destruct (Hin e) as [d Hd]; [left|]. unfold set_wake. rewrite Hd. cbn [mbind option_bind].
  destruct (IH (s32 (c + 1)) (set_elems (<[e := Elem true (exited d)]> (elems q)) q))
    as (c' & m' & E & Hm).
  { intros e' ?. simpl. destruct (decide (e = e')) as [<-|]; [rewrite lookup_insert_eq; eauto|].
    rewrite lookup_insert_ne by done. apply Hin. by right. }
  exists c', m'. split; [done|]. intros e'. rewrite Hm. simpl.
  destruct (decide (e = e')) as [<-|Hne].
  - rewrite lookup_insert_eq, Hd. rewrite (decide_True _ _ (list_elem_of_here e todo)). by case_decide.
  - rewrite lookup_insert_ne by done. apply decide_ext. set_solver.
Qed.

Record wake_up_queue_spec (q q' : queue) : Prop := {
  wq_global : global_queue q' = [];
  wq_junk : junk_list q' = junk_list q ++ global_queue q;
  wq_elems : woken_elems (global_queue q) (elems q) (elems q');
  wq_next : next_elem q' = next_elem q;
  wq_cache : queue_cache q' = queue_cache q;
  wq_wf : queue_wf q';
}.

Lemma wake_up_queue_ok q : queue_wf q ->
  exists c q', wake_up_queue q = Some (c, q') /\ wake_up_queue_spec q q'.
Proof.
  intros [Hnd Hlv Hnx Hct Hwt Hjk]. unfold wake_up_queue.
  destruct (wake_loop_ok (global_queue q) 0 q) as (c & m' & -> & Hm).
  { intros e ?. apply Hlv. set_solver. }
  eexists _, _. split; [done|]. split; try done. split; simpl.
  - by rewrite (Permutation_app_comm (junk_list q)).
  - intros e. rewrite (woken_live _ _ _ e Hm), <-Hlv, !elem_of_app. tauto.
  - intros e. rewrite (woken_live _ _ _ e Hm). apply Hnx.
  - done.
  - by intros e d ?%not_elem_of_nil.
  - intros e d Hin. rewrite Hm. case_decide as Hg.
    + intros (d' & Hd' & ->)%fmap_Some. auto.
    + apply Hjk. set_solver.
Qed.

Lemma set_exited_ok e q : queue_wf q -> is_Some (elems q !! e) ->
  exists q', set_exited_flag e q = Some q' /\ queue_wf q' /\
    (forall e', elems q' !! e' =
       if decide (e' = e) then (fun d => Elem (wake_up_flag d) true) <$> elems q !! e' else elems q !! e') /\
    global_queue q' = global_queue q /\ junk_list q' = junk_list q /\
    next_elem q' = next_elem q /\ queue_cache q' = queue_cache q.
Proof.
  intros [Hnd Hlv Hnx Hct Hwt Hjk] [d Hd]. unfold set_exited_flag. rewrite Hd. simpl.
  eexists. split; [done|].
  assert (forall e', is_Some (<[e := Elem (wake_up_flag d) true]> (elems q) !! e') <-> is_Some (elems q !! e')) as Hs.
  { intros e'. destruct (decide (e = e')) as [<-|]; [rewrite lookup_insert_eq, Hd; split; eauto|].
    by rewrite lookup_insert_ne. }
  split; [split; simpl; try done|split; [|done]].
  - intros e'. by rewrite Hs.
  - intros e'. rewrite Hs. apply Hnx.
  - intros e' d' Hg. rewrite lookup_insert_Some. intros [[<- <-]|[_ ?]]; [exact (Hwt _ _ Hg Hd)|by eapply Hwt].
  - intros e' d' Hg. rewrite lookup_insert_Some. intros [[<- <-]|[_ ?]]; [|by eapply Hjk]. auto.
  - intros e'. simpl. destruct (decide (e = e')) as [<-|].
    + by rewrite lookup_insert_eq, decide_True, Hd.
    + rewrite lookup_insert_ne by done. by rewrite decide_False.
Qed.

Lemma add_to_queue_ok q : queue_wf q -> queue_cache q = true ->
  exists q', add_to_queue true true q = Some (AqFlag (next_elem q), q') /\ queue_wf q' /\
    elems q' = <[next_elem q := Elem false false]> (elems q) /\ elems q !! next_elem q = None /\
    global_queue q' = global_queue q ++ [next_elem q] /\ junk_list q' = junk_list q /\
    queue_cache q' = true.
Proof.
  intros [Hnd Hlv Hnx Hct Hwt Hjk] Hc. unfold add_to_queue. rewrite Hc. simpl.
  set (n := next_elem q). eexists. split; [done|].
  assert (elems q !! n = None) as Hn.
  { destruct (elems q !! n) eqn:E; [|done]. assert (n < n)%positive by (apply Hnx; eauto). lia. }
  assert (n ∉ global_queue q ++ junk_list q) as Hni by (rewrite Hlv, Hn; intros [? ?]; done).
  split; [|done]. split; simpl.
  - rewrite <-app_assoc. simpl. rewrite <-Permutation_middle. by apply NoDup_cons.
  - intros e. rewrite !elem_of_app, list_elem_of_singleton.
    rewrite lookup_insert. case_decide as He; [subst; naive_solver|].
    rewrite <-Hlv, elem_of_app. naive_solver.
  - intros e. rewrite lookup_insert. case_decide; [intros _; lia|]. intros ?%Hnx. lia.
  - rewrite Hct, s32_s32_add, length_app. simpl. f_equal. lia.
  - intros e d Hin. rewrite lookup_insert. case_decide; [naive_solver|]. apply Hwt. set_solver.
  - intros e d Hin. rewrite lookup_insert. case_decide; [|by apply Hjk]. subst.
    destruct Hni. set_solver.
Qed.

Lemma queue_wf_cache q b : queue_wf q ->
  queue_wf (Queue (elems q) (next_elem q) (global_queue q) (junk_list q) (current_in_queue q) b).
Proof. by intros []. Qed.

Lemma queue_wf_next q : queue_wf q ->
  queue_wf (Queue (elems q) (Pos.succ (next_elem q)) (global_queue q) (junk_list q)
    (current_in_queue q) (queue_cache q)).
Proof. intros [? ? Hn ? ? ?]. split; try done. simpl. intros e ?%Hn. lia. Qed.

Lemma queue0_wf : queue_wf queue0.
Proof.
  split; simpl; try done.
  - constructor.
  - intros e. rewrite lookup_empty. split; [by intros ?%not_elem_of_nil|by intros [? ?]].
  - intros e. rewrite lookup_empty. by intros [? ?].
Qed.

(** One lemma for every operation of the queue: an operation applied in a
    well-formed state, to an allocated element where it takes one and with the
    cache in place where it allocates, is defined and ends well formed. *)
Inductive queue_op :=
  | OpInit (alloc_ok : bool) | OpAdd (alloc_ok working : bool) | OpUnqueue (n : Z)
  | OpFreeJunk | OpSetExited (e : eid) | OpWakeAll | OpDestroy.

Definition run_op (op : queue_op) (q : queue) : option queue :=
  match op with
  | OpInit a => Some (init_queue a q).2
  | OpAdd a w => snd <$> add_to_queue a w q
  | OpUnqueue n => snd <$> unqueue n q
  | OpFreeJunk => free_junk q
  | OpSetExited e => set_exited_flag e q
  | OpWakeAll => snd <$> wake_up_queue q
  | OpDestroy => snd <$> destroy_queue q
  end.

Definition op_enabled (op : queue_op) (q : queue) : Prop :=
  match op with
  | OpAdd _ _ => queue_cache q = true
  | OpSetExited e => is_Some (elems q !! e)
  | _ => True
  end.

Lemma run_op_wf op q : queue_wf q -> op_enabled op q -> exists q', run_op op q = Some q' /\ queue_wf q'.
Proof.
  intros Hwf He. destruct op as [a|a w|n| |e| |]; simpl in *.
  - eexists. split; [done|]. unfold init_queue. by destruct a; apply queue_wf_cache.
  - destruct a, w; unfold add_to_queue; rewrite He; simpl.
    + destruct (add_to_queue_ok q Hwf He) as (q' & E & Hwf' & _).
      unfold add_to_queue in E. rewrite He in E. simpl in E. injection E as E.
      eexists. split; [done|]. by rewrite E.
    + eexists. split; [done|]. apply queue_wf_next in Hwf. by rewrite He in Hwf.
    + eauto.
    + eauto.
  - destruct (unqueue_ok n q Hwf) as (pre & r & q' & -> & []). eauto.
  - destruct (free_junk_ok q Hwf) as (q' & -> & []). eauto.
  - destruct (set_exited_ok e q Hwf He) as (q' & -> & ? & _). eauto.
  - destruct (wake_up_queue_ok q Hwf) as (c & q' & -> & []). eauto.
  - destruct (free_junk_ok q Hwf) as (q' & E & []). unfold destroy_queue. rewrite E. simpl.
    eexists. split; [done|]. by apply queue_wf_cache.
Qed.

(** * Properties *)

(** Every operation of the wait queue preserves its invariant and has no
    undefined behaviour: no element is on two lists or lost, [current_in_queue]
    counts the waiters, and only woken or abandoned elements are junk. *)
Theorem queue_ops_safe op q : queue_wf q -> op_enabled op q ->
  exists q', run_op op q = Some q' /\ queue_wf q'.
Proof. apply run_op_wf. Qed.

(** [unqueue] is first come, first served: it wakes exactly the oldest
    [min(n, waiters)] threads that did not abandon their wait, in queue order,
    returns how many that are, wakes nobody else and keeps the others queued
    in order. *)
Theorem unqueue_wakes_oldest n q : queue_wf q ->
  let waiting := filter (live q) (global_queue q) in
  let k := Z.min (Z.max n 0) (Z.of_nat (length waiting)) in
  exists q', unqueue n q = Some (k, q') /\
    (forall e, elems q' !! e =
       if decide (e ∈ take (Z.to_nat k) waiting)
       then (fun d => Elem true (exited d)) <$> elems q !! e else elems q !! e) /\
    filter (live q) (global_queue q') = drop (Z.to_nat k) waiting.
Proof.
  intros Hwf waiting k. destruct (unqueue_ok n q Hwf) as (pre & r & q' & E & Hs).
  destruct (unqueue_fifo _ _ _ _ _ Hs) as [Hpre Hr].
  exists q'. assert (r = k) as -> by exact Hr. split; [done|]. split.
  - intros e. rewrite (us_elems _ _ _ _ _ Hs). by rewrite Hpre.
  - unfold waiting at 1. rewrite (us_split _ _ _ _ _ Hs), filter_app, Hpre.
    rewrite drop_app_length'; [done|]. rewrite length_take. lia.
Qed.

(** [free_junk] frees exactly the junk elements whose thread has exited;
    an element whose thread may still read its flag is never freed. *)
Theorem free_junk_only_exited q e d : queue_wf q -> elems q !! e = Some d ->
  exists q', free_junk q = Some q' /\
    (elems q' !! e = None <-> e ∈ junk_list q /\ exited d = true) /\
    (elems q' !! e <> None -> elems q' !! e = Some d).
Proof.
  intros Hwf Hd. destruct (free_junk_ok q Hwf) as (q' & E & Hs). exists q'. split; [done|].
  assert (dead q e <-> exited d = true) as Hdead.
  { unfold dead. destruct d as [w x]; simpl. split; [naive_solver|intros ->; eauto]. }
  rewrite (fj_elems _ _ Hs e), Hd. case_decide as Hc; rewrite Hdead in Hc; naive_solver.
Qed.

(** Two waiters, the first of which was interrupted. *)
Definition demo_queue : queue :=
  Queue {[ 1%positive := Elem false true; 2%positive := Elem false false ]} 3 [1; 2]%positive [] 2 true.

Lemma demo_queue_wf : queue_wf demo_queue.
Proof.
  destruct (run_op_wf (OpInit true) queue0 queue0_wf I) as (q0 & [= <-] & W0).
  destruct (run_op_wf (OpAdd true true) _ W0 eq_refl) as (q1 & [= <-] & W1).
  destruct (run_op_wf (OpAdd true true) _ W1 eq_refl) as (q2 & [= <-] & W2).
  destruct (run_op_wf (OpSetExited 1) _ W2) as (q3 & E3 & W3); [by vm_compute; eauto|].
  assert (q3 = demo_queue) as <-; [|done]. injection E3 as <-. by vm_compute.
Qed.

Lemma queue_ops_safe_witness : exists q', run_op (OpUnqueue 5) demo_queue = Some q' /\ queue_wf q'.
Proof. exact (queue_ops_safe (OpUnqueue 5) demo_queue demo_queue_wf I). Defined.

Lemma unqueue_wakes_oldest_witness :
  exists q', unqueue 5 demo_queue = Some (1, q') /\
    (forall e, elems q' !! e =
       if decide (e ∈ take (Z.to_nat 1) [2%positive])
       then (fun d => Elem true (exited d)) <$> elems demo_queue !! e else elems demo_queue !! e) /\
    filter (live demo_queue) (global_queue q') = [].
Proof. exact (unqueue_wakes_oldest 5 demo_queue demo_queue_wf). Defined.

Lemma free_junk_only_exited_witness :
  exists q', free_junk demo_queue = Some q' /\
    (elems q' !! 1%positive = None <-> 1%positive ∈ junk_list demo_queue /\ true = true) /\
    (elems q' !! 1%positive <> None -> elems q' !! 1%positive = Some (Elem false true)).
Proof.
  exact (free_junk_only_exited demo_queue 1 (Elem false true) demo_queue_wf eq_refl).
Defined.
