(* ===== verification/Stats.v ===== *)
(** * The statistics monitor ([src/sysThrot_statmonitor.c])

    One entry per syscall that was ever blocked, in a list in order of
    creation; each entry has cumulative counters and a rolling window of the
    last [HISTORY_LEN] epochs kept in two ring buffers.  Each operation is one
    critical section of [stats_lock].  [SUPPORTED_SYSCALLS] comes from the
    generated table [syscalls.h] and is a parameter. *)

From stdpp Require Import prelude gmap list.
From S2P Require Import Prelude.

Definition HISTORY_LEN : Z := 20.
Definition TASK_COMM_LEN : nat := 16.

(** What the monitor reads of [current]. *)
Record task := Task {
  task_pid : Z;
  task_uid : Z;
  task_comm : list Z;
}.

Record syscall_stat := Stat {
  current_blocked : Z;            (* atomic_t *)
  current_time_blocked : Z;       (* unsigned long *)
  total_blocked : Z;
  total_aborted : Z;
  last_epoch_blocked : Z;
  last_epoch_mean_delay_ns : Z;
  current_ctx_switches : Z;       (* atomic_t *)
  sum_ctx_switches : Z;
  peak_ctx_switches : Z;
  peak_delay_ns : Z;
  peak_delay_pid : Z;
  peak_delay_uid : Z;
  peak_delay_comm : list Z;
}.

Record syscall_entry := Entry {
  syscall_id : Z;                 (* unsigned int *)
  stat : syscall_stat;
  epoch_history : list Z;         (* unsigned long [HISTORY_LEN] *)
  epoch_time_history : list Z;
  history_head : Z;               (* unsigned int *)
  history_count : Z;
}.

Record monitor := Monitor {
  syscall_list : list syscall_entry;
  epoch_count : Z;                (* unsigned long *)
}.

Definition zero_stat : syscall_stat := Stat 0 0 0 0 0 0 0 0 0 0 0 0 [].

Definition new_entry (id : Z) : syscall_entry :=
  Entry id zero_stat (replicate (Z.to_nat HISTORY_LEN) 0) (replicate (Z.to_nat HISTORY_LEN) 0) 0 0.

Definition set_stat (st : syscall_stat) (e : syscall_entry) : syscall_entry :=
  Entry (syscall_id e) st (epoch_history e) (epoch_time_history e) (history_head e) (history_count e).

(** ** Finding and creating entries *)

(** The index of the first entry with that id, as the pointer the C code
    returns. *)
Fixpoint find_entry_locked (id : Z) (l : list syscall_entry) : option nat :=
  match l with
  | [] => None
  | e :: l => if syscall_id e =? id then Some O else S <$> find_entry_locked id l
  end.

Definition find_or_create_entry_locked (alloc_ok : bool) (id : Z) (l : list syscall_entry)
    : option nat * list syscall_entry :=
  match find_entry_locked id l with
  | Some i => (Some i, l)
  | None => if alloc_ok then (Some (length l), l ++ [new_entry id]) else (None, l)
  end.

Section ops.
Context (SUPPORTED_SYSCALLS : Z).

(** The common shape of the three recording functions: ignore an id outside
    the table, find or create the entry, update it in place. *)
Definition record_in (alloc_ok : bool) (id : Z) (f : syscall_stat -> syscall_stat) (m : monitor) : monitor :=
  let id := u32 id in
  if SUPPORTED_SYSCALLS <=? id then m
  else
    let (i, l) := find_or_create_entry_locked alloc_ok id (syscall_list m) in
    match i with
    | None => Monitor l (epoch_count m)
    | Some i => Monitor (alter (fun e => set_stat (f (stat e)) e) i l) (epoch_count m)
    end.

Definition blocked_update (cur : task) (delay_ns : Z) (s : syscall_stat) : syscall_stat :=
  let cb := s32 (current_blocked s + 1) in
  let ct := u64 (current_time_blocked s + delay_ns) in
  if peak_delay_ns s <? delay_ns then
    Stat cb ct (total_blocked s) (total_aborted s) (last_epoch_blocked s)
      (last_epoch_mean_delay_ns s) (current_ctx_switches s) (sum_ctx_switches s)
      (peak_ctx_switches s) delay_ns (task_pid cur) (task_uid cur)
      (take (TASK_COMM_LEN - 1) (task_comm cur))
  else
    Stat cb ct (total_blocked s) (total_aborted s) (last_epoch_blocked s)
      (last_epoch_mean_delay_ns s) (current_ctx_switches s) (sum_ctx_switches s)
      (peak_ctx_switches s) (peak_delay_ns s) (peak_delay_pid s) (peak_delay_uid s)
      (peak_delay_comm s).

Definition sysThrot_add_blocked (alloc_ok : bool) (cur : task) (id delay_ns : Z) (m : monitor) : monitor :=
  record_in alloc_ok id (blocked_update cur (u64 delay_ns)) m.

Definition ctx_update (s : syscall_stat) : syscall_stat :=
  Stat (current_blocked s) (current_time_blocked s) (total_blocked s) (total_aborted s)
    (last_epoch_blocked s) (last_epoch_mean_delay_ns s) (s32 (current_ctx_switches s + 1))
    (sum_ctx_switches s) (peak_ctx_switches s) (peak_delay_ns s) (peak_delay_pid s)
    (peak_delay_uid s) (peak_delay_comm s).

Definition sysThrot_add_ctx_switch (alloc_ok : bool) (id : Z) (m : monitor) : monitor :=
  record_in alloc_ok id ctx_update m.

Definition aborted_update (s : syscall_stat) : syscall_stat :=
  Stat (current_blocked s) (current_time_blocked s) (total_blocked s) (u64 (total_aborted s + 1))
    (last_epoch_blocked s) (last_epoch_mean_delay_ns s) (current_ctx_switches s)
    (sum_ctx_switches s) (peak_ctx_switches s) (peak_delay_ns s) (peak_delay_pid s)
    (peak_delay_uid s) (peak_delay_comm s).

Definition sysThrot_add_aborted (alloc_ok : bool) (id : Z) (m : monitor) : monitor :=
  record_in alloc_ok id aborted_update m.
End ops.

(** ** The end of an epoch *)

Definition epoch_stat (s : syscall_stat) : syscall_stat :=
  let cb := u64 (current_blocked s) in
  let blocked_ns := current_time_blocked s in
  let ctx := u64 (current_ctx_switches s) in
  Stat 0 0 (u64 (total_blocked s + cb)) (total_aborted s) cb
    (if cb =? 0 then 0 else blocked_ns / cb) 0
    (u64 (sum_ctx_switches s + ctx)) (Z.max (peak_ctx_switches s) ctx)
    (peak_delay_ns s) (peak_delay_pid s) (peak_delay_uid s) (peak_delay_comm s).

Definition epoch_entry (e : syscall_entry) : syscall_entry :=
  let cb := u64 (current_blocked (stat e)) in
  let blocked_ns := current_time_blocked (stat e) in
  Entry (syscall_id e) (epoch_stat (stat e))
    (<[Z.to_nat (history_head e) := cb]> (epoch_history e))
    (<[Z.to_nat (history_head e) := blocked_ns]> (epoch_time_history e))
    (u32 (history_head e + 1) mod HISTORY_LEN)
    (if history_count e <? HISTORY_LEN then u32 (history_count e + 1) else history_count e).

Definition update_epoch_stats (m : monitor) : monitor :=
  Monitor (epoch_entry <$> syscall_list m) (u64 (epoch_count m + 1)).

(** ** Reading the window *)

(** [(e->history_head - e->history_count + i + HISTORY_LEN) % HISTORY_LEN],
    computed on [unsigned int]. *)
Definition history_index (e : syscall_entry) (i : Z) : Z :=
  u32 (u32 (u32 (history_head e - history_count e) + i) + HISTORY_LEN) mod HISTORY_LEN.

Definition history_blocked_at (e : syscall_entry) (i : Z) : Z :=
  default 0 (epoch_history e !! Z.to_nat (history_index e i)).

Definition history_time_at (e : syscall_entry) (i : Z) : Z :=
  default 0 (epoch_time_history e !! Z.to_nat (history_index e i)).

(** The sums computed by the loop of [my_seq_show]. *)
Fixpoint window_loop (e : syscall_entry) (ids : list nat) (acc : Z * Z) : Z * Z :=
  match ids with
  | [] => acc
  | i :: ids =>
      window_loop e ids
        (u64 (acc.1 + history_blocked_at e (Z.of_nat i)),
         u64 (acc.2 + history_time_at e (Z.of_nat i)))
  end.

(** The values of one line of [/proc/SYSTHROT]; the two delays are in
    nanoseconds, before [format_ms]. *)
Record row := Row {
  r_nr : Z; r_total : Z; r_last : Z; r_avg_epoch : Z; r_mean_ns : Z; r_peak_ns : Z;
  r_abort : Z; r_avg_ctx : Z; r_ctx_peak : Z; r_comm : list Z; r_pid : Z; r_uid : Z;
}.

Definition show_entry (epochs : Z) (entry : syscall_entry) : row :=
  let st := stat entry in
  let (window_sum, window_time) := window_loop entry (seq 0 (Z.to_nat (history_count entry))) (0, 0) in
  let avg_epoch := if history_count entry =? 0 then 0 else window_sum / history_count entry in
  let avg_delay_ns := if window_sum =? 0 then 0 else window_time / window_sum in
  let avg_ctx := if epochs =? 0 then 0 else sum_ctx_switches st / epochs in
  Row (syscall_id entry) (total_blocked st) (last_epoch_blocked st) avg_epoch avg_delay_ns
    (peak_delay_ns st) (total_aborted st) avg_ctx (peak_ctx_switches st)
    (peak_delay_comm st) (peak_delay_pid st) (peak_delay_uid st).

(** ** The seq_file iterator *)

(** An iterator value: NULL, the sentinel [(void * )1], or an entry. *)
Inductive seq_val := SeqNull | SeqOne | SeqEntry (e : syscall_entry).

(** The walk shared by [my_seq_start] and [my_seq_next]: entry number
    [pos - i], the sentinel right after the last one, NULL beyond. *)
Fixpoint seq_walk (l : list syscall_entry) (i pos : Z) : seq_val :=
  match l with
  | [] => if i =? pos then SeqOne else SeqNull
  | e :: l => if i =? pos then SeqEntry e else seq_walk l (i + 1) pos
  end.

(** Returns whether the table's header is printed, and the iterator value;
    the lock is taken here and released by [my_seq_stop]. *)
Definition my_seq_start (m : monitor) (pos : Z) : bool * seq_val :=
  (pos =? 0, seq_walk (syscall_list m) 0 pos).

Definition my_seq_next (m : monitor) (v : seq_val) (pos : Z) : seq_val * Z :=
  let pos := pos + 1 in
  match v with
  | SeqOne => (SeqNull, pos)
  | _ => (seq_walk (syscall_list m) 0 pos, pos)
  end.

Definition my_seq_show (m : monitor) (v : seq_val) : option row :=
  match v with
  | SeqEntry e => Some (show_entry (epoch_count m) e)
  | _ => None
  end.

(** ** Load and unload *)

Definition sysThrot_statmonitor_init (proc_ok : bool) (m : monitor) : Z * monitor :=
  (if proc_ok then 0 else - ENOMEM, Monitor (syscall_list m) 0).

Definition sysThrot_statmonitor_exit (m : monitor) : monitor := Monitor [] (epoch_count m).

(** ** The ring buffers *)

(** Both histories are read through the same index; [ring_at] abstracts from
    which of the two arrays is read. *)
Definition ring_at (arr : list Z) (e : syscall_entry) (i : nat) : Z :=
  default 0 (arr !! Z.to_nat (history_index e (Z.of_nat i))).

(** The window an entry shows, oldest epoch first. *)
Definition window (arr : list Z) (e : syscall_entry) : list Z :=
  ring_at arr e <$> seq 0 (Z.to_nat (history_count e)).

Definition blocked_window (e : syscall_entry) : list Z := window (epoch_history e) e.
Definition time_window (e : syscall_entry) : list Z := window (epoch_time_history e) e.

Record entry_wf (e : syscall_entry) : Prop := {
  ew_len : length (epoch_history e) = Z.to_nat HISTORY_LEN;
  ew_time_len : length (epoch_time_history e) = Z.to_nat HISTORY_LEN;
  ew_head : 0 <= history_head e < HISTORY_LEN;
  ew_count : 0 <= history_count e <= HISTORY_LEN;
  ew_fill : history_count e < HISTORY_LEN -> history_head e = history_count e;
}.

Lemma new_entry_wf id : entry_wf (new_entry id).
Proof. split; simpl; unfold HISTORY_LEN; try done; lia. Qed.

Lemma set_stat_wf s e : entry_wf e -> entry_wf (set_stat s e).
Proof. intros []. by split. Qed.

(** The wrap-around of [unsigned int] never shows: the index is the one
    computed on mathematical integers. *)
Lemma history_index_eq e i : entry_wf e -> 0 <= i < HISTORY_LEN ->
  history_index e i = (history_head e - history_count e + i + HISTORY_LEN) mod HISTORY_LEN.
Proof.
  intros [_ _ Hh Hc _] Hi. unfold history_index, HISTORY_LEN in *. f_equal. wrap_lia.
Qed.

Lemma history_index_range e i : 0 <= history_index e i < HISTORY_LEN.
Proof. apply Z.mod_pos_bound. unfold HISTORY_LEN. lia. Qed.

Lemma length_window arr e : entry_wf e -> length (window arr e) = Z.to_nat (history_count e).
Proof. intros _. unfold window. by rewrite length_fmap, length_seq. Qed.

Lemma epoch_entry_wf e : entry_wf e -> entry_wf (epoch_entry e).
Proof.
  intros [H1 H2 Hh Hc Hf].
  split; simpl; rewrite ?length_insert; try done; unfold HISTORY_LEN in *.
  - apply Z.mod_pos_bound. lia.
  - destruct (_ <? _) eqn:E; zbool; [rewrite u32_id by lia|]; lia.
  - destruct (_ <? _) eqn:E; zbool; [|lia]. rewrite (u32_id (history_count e + 1)) by lia.
    intros Hlt. rewrite Hf by lia. rewrite u32_id by lia. apply Z.mod_small. lia.
Qed.

(** Reading after a push, window not yet full. *)
Lemma ring_push_grow arr e v i :
  entry_wf e -> length arr = Z.to_nat HISTORY_LEN -> history_count e < HISTORY_LEN ->
  (i <= Z.to_nat (history_count e))%nat ->
  ring_at (<[Z.to_nat (history_head e) := v]> arr) (epoch_entry e) i =
    if decide (i = Z.to_nat (history_count e)) then v else ring_at arr e i.
Proof.
  intros Hw Hl Hlt Hi. pose proof (epoch_entry_wf _ Hw) as Hw'.
  unfold ring_at. rewrite !history_index_eq by (done || (unfold HISTORY_LEN in *; lia)).
  destruct Hw as [_ _ Hh Hc Hf]. specialize (Hf Hlt). simpl. unfold HISTORY_LEN in *.
  rewrite Hf. replace (history_count e <? 20) with true by (symmetry; apply Z.ltb_lt; lia).
  rewrite !u32_id by lia.
  assert ((((history_count e + 1) mod 20 - (history_count e + 1) + Z.of_nat i + 20) mod 20) = Z.of_nat i) as ->
    by (Z.div_mod_to_equations; lia).
  replace (history_count e - history_count e + Z.of_nat i + 20) with (Z.of_nat i + 1 * 20) by lia.
  rewrite Z_mod_plus_full, Z.mod_small by lia. rewrite !Nat2Z.id.
  case_decide as Hd.
  - subst i. rewrite list_lookup_insert_eq; [done|]. rewrite Hl. lia.
  - by rewrite list_lookup_insert_ne by lia.
Qed.

(** Reading after a push that overwrites the oldest epoch. *)
Lemma ring_push_full arr e v i :
  entry_wf e -> length arr = Z.to_nat HISTORY_LEN -> history_count e = HISTORY_LEN ->
  (i < Z.to_nat HISTORY_LEN)%nat ->
  ring_at (<[Z.to_nat (history_head e) := v]> arr) (epoch_entry e) i =
    if decide (S i = Z.to_nat HISTORY_LEN) then v else ring_at arr e (S i).
Proof.
  intros Hw Hl Hfull Hi. pose proof (epoch_entry_wf _ Hw) as Hw'. unfold ring_at.
  rewrite history_index_eq by (done || (unfold HISTORY_LEN in *; lia)).
  pose proof (ew_head _ Hw) as Hh. simpl. unfold HISTORY_LEN in *.
  rewrite Hfull. replace (20 <? 20) with false by done. rewrite u32_id by lia.
  assert (((history_head e + 1) mod 20 - 20 + Z.of_nat i + 20) mod 20 =
          (history_head e + 1 + Z.of_nat i) mod 20) as -> by (Z.div_mod_to_equations; lia).
  case_decide as Hd.
  - replace ((history_head e + 1 + Z.of_nat i) mod 20) with (history_head e) by (Z.div_mod_to_equations; lia).
    rewrite list_lookup_insert_eq; [done|]. rewrite Hl. lia.
  - rewrite list_lookup_insert_ne by (Z.div_mod_to_equations; lia).
    rewrite history_index_eq by (done || (unfold HISTORY_LEN in *; lia)). rewrite Hfull.
    unfold HISTORY_LEN. do 3 f_equal. Z.div_mod_to_equations. lia.
Qed.

(** Pushing an epoch appends it to the window, and drops the oldest one once
    the window is full. *)
Lemma window_push arr e v :
  entry_wf e -> length arr = Z.to_nat HISTORY_LEN ->
  window (<[Z.to_nat (history_head e) := v]> arr) (epoch_entry e) =
    drop (length (window arr e) + 1 - Z.to_nat HISTORY_LEN) (window arr e ++ [v]).
Proof.
  intros Hw Hl. rewrite (length_window arr e Hw). apply list_eq. intros i.
  pose proof (ew_count _ Hw) as Hc. unfold window at 1. rewrite list_lookup_fmap.
  rewrite lookup_drop.
  assert (history_count (epoch_entry e) =
    if history_count e <? HISTORY_LEN then history_count e + 1 else history_count e) as Hc'.
  { simpl. destruct (_ <? _); [|done]. unfold HISTORY_LEN in *. apply u32_id. lia. }
  rewrite Hc'. destruct (history_count e <? HISTORY_LEN) eqn:E; zbool; unfold HISTORY_LEN in *.
  - replace (Z.to_nat (history_count e) + 1 - Z.to_nat 20 + i)%nat with i by lia.
    destruct (decide (i <= Z.to_nat (history_count e))%nat) as [Hi|Hi].
    + rewrite lookup_seq_lt by lia. simpl.
      rewrite ring_push_grow by (done || (unfold HISTORY_LEN; lia)). case_decide as Hd.
      * subst i. by rewrite lookup_app_r, (length_window arr e Hw), Nat.sub_diag
          by (rewrite (length_window arr e Hw); lia).
      * rewrite lookup_app_l by (rewrite (length_window arr e Hw); lia).
        unfold window. rewrite list_lookup_fmap, lookup_seq_lt by lia. done.
    + rewrite lookup_seq_ge by lia. simpl. symmetry. apply lookup_ge_None_2.
      rewrite length_app, (length_window arr e Hw). simpl. lia.
  - replace (Z.to_nat (history_count e) + 1 - Z.to_nat 20 + i)%nat with (S i) by lia.
    destruct (decide (i < 20)%nat) as [Hi|Hi].
    + rewrite lookup_seq_lt by lia. simpl.
      rewrite ring_push_full by (done || (unfold HISTORY_LEN; lia)). case_decide as Hd.
      * unfold HISTORY_LEN in Hd.
        rewrite lookup_app_r by (rewrite (length_window arr e Hw); lia).
        rewrite (length_window arr e Hw). by replace (S i - Z.to_nat (history_count e))%nat with 0%nat by lia.
      * unfold HISTORY_LEN in Hd. rewrite lookup_app_l by (rewrite (length_window arr e Hw); lia).
        unfold window. rewrite list_lookup_fmap, lookup_seq_lt by lia. done.
    + rewrite lookup_seq_ge by lia. simpl. symmetry. apply lookup_ge_None_2.
      rewrite length_app, (length_window arr e Hw). simpl. lia.
Qed.

(** ** The list of entries as a finite map *)

(** The entry of a syscall. *)
Definition entry_of (m : monitor) (id : Z) : option syscall_entry :=
  i ← find_entry_locked id (syscall_list m); syscall_list m !! i.

(** Ids are distinct and every entry's ring buffers are well formed. *)
Record monitor_wf (m : monitor) : Prop := {
  mw_ids : NoDup (syscall_id <$> syscall_list m);
  mw_entries : Forall entry_wf (syscall_list m);
}.

Lemma find_entry_Some id l i : find_entry_locked id l = Some i ->
  exists e, l !! i = Some e /\ syscall_id e = id.
Proof.
  revert i. induction l as [|e l IH]; intros i; simpl; [done|].
  destruct (_ =? _) eqn:E; zbool; [intros [= <-]; eauto|].
  intros (j & Hj & ->)%fmap_Some. by apply IH.
Qed.

Lemma find_entry_None id l : find_entry_locked id l = None <-> id ∉ syscall_id <$> l.
Proof.
  induction l as [|e l IH]; simpl; [split; [intros _ ?%not_elem_of_nil|]; done|].
  destruct (_ =? _) eqn:E; zbool; [set_solver|].
  rewrite fmap_None, IH. set_solver.
Qed.

Lemma find_entry_lookup id l i e : NoDup (syscall_id <$> l) -> l !! i = Some e -> syscall_id e = id ->
  find_entry_locked id l = Some i.
Proof.
  revert i. induction l as [|e' l IH]; intros i Hnd Hi He; [done|].
  simpl in *. apply NoDup_cons in Hnd as [Hn Hnd]. destruct i as [|i]; simpl in Hi.
  - injection Hi as ->. by rewrite He, Z.eqb_refl.
  - destruct (_ =? _) eqn:E; zbool.
    + destruct Hn. rewrite E, <-He. apply list_elem_of_fmap_2. by eapply list_elem_of_lookup_2.
    + by rewrite (IH i).
Qed.

Lemma ids_alter f i (l : list syscall_entry) : (forall e, syscall_id (f e) = syscall_id e) ->
  syscall_id <$> alter f i l = syscall_id <$> l.
Proof.
  intros Hf. revert i. induction l as [|e l IH]; intros [|i]; simpl; [done..| |].
  - by rewrite Hf.
  - f_equal. apply IH.
Qed.

Lemma find_entry_ids id l l' : syscall_id <$> l = syscall_id <$> l' ->
  find_entry_locked id l = find_entry_locked id l'.
Proof.
  revert l'. induction l as [|e l IH]; intros [|e' l'] Hl; simplify_eq/=; [done|].
  match goal with H : syscall_id e = syscall_id e' |- _ => rewrite H end.
  destruct (_ =? _); [done|]. f_equal. by apply IH.
Qed.

(** Updating the entry at an index changes the entry of its id only. *)
Lemma entry_of_alter f i l ep id id' : (forall e, syscall_id (f e) = syscall_id e) ->
  find_entry_locked id l = Some i ->
  entry_of (Monitor (alter f i l) ep) id' =
    if decide (id' = id) then f <$> entry_of (Monitor l ep) id' else entry_of (Monitor l ep) id'.
Proof.
  intros Hf Hi. unfold entry_of. simpl.
  rewrite (find_entry_ids id' (alter _ _ _) l) by by apply ids_alter.
  case_decide as Hd.
  - subst id'. rewrite Hi. simpl. by rewrite list_lookup_alter_eq.
  - destruct (find_entry_locked id' l) as [j|] eqn:Hj; [|done]. simpl.
    rewrite list_lookup_alter_ne; [done|]. intros ->.
    apply find_entry_Some in Hi as (? & ? & <-), Hj as (? & ? & <-). congruence.
Qed.

Lemma find_entry_snoc id id' l : find_entry_locked id' (l ++ [new_entry id]) =
  match find_entry_locked id' l with
  | Some i => Some i
  | None => if id =? id' then Some (length l) else None
  end.
Proof.
  induction l as [|e l IH]; simpl; [by destruct (id =? id')|].
  destruct (syscall_id e =? id'); [done|]. rewrite IH.
  destruct (find_entry_locked id' l); [done|]. by destruct (id =? id').
Qed.

Lemma entry_of_snoc id id' l ep : find_entry_locked id l = None ->
  entry_of (Monitor (l ++ [new_entry id]) ep) id' =
    if decide (id' = id) then Some (new_entry id) else entry_of (Monitor l ep) id'.
Proof.
  intros Hn. unfold entry_of. simpl. rewrite find_entry_snoc.
  destruct (find_entry_locked id' l) as [i|] eqn:E.
  - case_decide; [congruence|]. simpl. apply find_entry_Some in E as (e & E & _).
    by rewrite lookup_app_l by by eapply lookup_lt_Some.
  - case_decide as Hd.
    + subst. rewrite Z.eqb_refl. simpl. by rewrite lookup_app_r, Nat.sub_diag by done.
    + by replace (id =? id') with false by (symmetry; apply Z.eqb_neq; congruence).
Qed.

(** What recording does to the entry of its syscall: created when missing,
    unless the allocation fails. *)
Definition upd_entry (a : bool) (id : Z) (g : syscall_stat -> syscall_stat) (o : option syscall_entry)
    : option syscall_entry :=
  match o with
  | Some e => Some (set_stat (g (stat e)) e)
  | None => if a then Some (set_stat (g zero_stat) (new_entry id)) else None
  end.

(** Recording touches the entry of its own syscall only. *)
Lemma entry_of_record_in sup a id g m id' : 0 <= id' < sup ->
  entry_of (record_in sup a id g m) id' =
    if decide (id' = u32 id) then upd_entry a id' g (entry_of m id') else entry_of m id'.
Proof.
  intros Hid. unfold record_in. destruct (sup <=? u32 id) eqn:Es; zbool.
  { case_decide; [lia|done]. }
  unfold find_or_create_entry_locked. destruct m as [l ep]. simpl.
  destruct (find_entry_locked (u32 id) l) as [i|] eqn:E.
  - rewrite (entry_of_alter _ i l ep (u32 id) id') by done.
    case_decide as Hd; [|done]. subst id'. unfold entry_of. simpl. rewrite E. simpl.
    by apply find_entry_Some in E as (e & -> & _).
  - destruct a; simpl.
    + assert (find_entry_locked (u32 id) (l ++ [new_entry (u32 id)]) = Some (length l)) as E'.
      { by rewrite find_entry_snoc, E, Z.eqb_refl. }
      rewrite (entry_of_alter _ _ _ ep (u32 id) id') by done.
      rewrite (entry_of_snoc _ id' l ep E). case_decide as Hd; [|done]. subst id'.
      unfold entry_of. simpl. by rewrite E.
    + case_decide as Hd; [|done]. subst id'. unfold entry_of. simpl. by rewrite E.
Qed.

Lemma entry_of_epoch m id : entry_of (update_epoch_stats m) id = epoch_entry <$> entry_of m id.
Proof.
  unfold entry_of, update_epoch_stats. simpl.
  rewrite (find_entry_ids id (epoch_entry <$> _) (syscall_list m)) by by rewrite <-list_fmap_compose.
  destruct (find_entry_locked id (syscall_list m)); [|done]. simpl.
  by rewrite list_lookup_fmap.
Qed.

(** Every operation keeps the monitor well formed. *)
Lemma record_in_wf sup a id g m : monitor_wf m -> monitor_wf (record_in sup a id g m).
Proof.
  intros [Hids Hent]. unfold record_in. destruct (_ <=? _); [done|].
  unfold find_or_create_entry_locked.
  assert (forall i l, NoDup (syscall_id <$> l) -> Forall entry_wf l ->
    monitor_wf (Monitor (alter (fun e => set_stat (g (stat e)) e) i l) (epoch_count m))) as Halt.
  { intros i l Hn Hf. split; simpl; [by rewrite ids_alter|].
    apply Forall_alter; [done|]. intros e _ []. by split. }
  destruct (find_entry_locked _ _) as [i|] eqn:E; [by apply Halt|].
  destruct a; [|by split]. apply Halt.
  - rewrite fmap_app. apply NoDup_app. split; [done|]. split; [|apply NoDup_singleton].
    intros x Hx ->%list_elem_of_singleton. by apply find_entry_None in E.
  - apply Forall_app. split; [done|]. constructor; [apply new_entry_wf|constructor].
Qed.

Lemma update_epoch_wf m : monitor_wf m -> monitor_wf (update_epoch_stats m).
Proof.
  intros [Hids Hent]. split; simpl.
  - by rewrite <-list_fmap_compose.
  - apply Forall_fmap. eapply Forall_impl; [done|]. apply epoch_entry_wf.
Qed.

(** ** The monitor as a log of events

    The abstract view of one syscall: the calls that waited (with the task
    and the delay) and the number of wait-condition evaluations, epoch by
    epoch since its entry exists, and the number of aborted calls. *)
Record epoch_log := EpochLog { el_calls : list (task * Z); el_ctx : nat }.
Record history := History { h_past : list epoch_log; h_cur : epoch_log; h_aborted : nat }.

Definition empty_history : history := History [] (EpochLog [] 0) 0.

(** Events in the order of their critical sections of [stats_lock]; the
    booleans say whether an allocation made there would succeed. *)
Inductive event :=
| EvBlocked (a : bool) (cur : task) (id delay_ns : Z)
| EvCtx (a : bool) (id : Z)
| EvAborted (a : bool) (id : Z)
| EvEpoch.

Definition run_event (sup : Z) (m : monitor) (ev : event) : monitor :=
  match ev with
  | EvBlocked a cur id d => sysThrot_add_blocked sup a cur id d m
  | EvCtx a id => sysThrot_add_ctx_switch sup a id m
  | EvAborted a id => sysThrot_add_aborted sup a id m
  | EvEpoch => update_epoch_stats m
  end.

Definition run_events (sup : Z) (evs : list event) : monitor :=
  foldl (run_event sup) (Monitor [] 0) evs.

Definition log_call (c : task * Z) (h : history) : history :=
  History (h_past h) (EpochLog (el_calls (h_cur h) ++ [c]) (el_ctx (h_cur h))) (h_aborted h).
Definition log_ctx (h : history) : history :=
  History (h_past h) (EpochLog (el_calls (h_cur h)) (S (el_ctx (h_cur h)))) (h_aborted h).
Definition log_aborted (h : history) : history :=
  History (h_past h) (h_cur h) (S (h_aborted h)).
Definition log_epoch (h : history) : history :=
  History (h_past h ++ [h_cur h]) (EpochLog [] 0) (h_aborted h).

Definition log_upd (a : bool) (f : history -> history) (o : option history) : option history :=
  match o with Some h => Some (f h) | None => if a then Some (f empty_history) else None end.

Definition log_event (id : Z) (o : option history) (ev : event) : option history :=
  match ev with
  | EvBlocked a cur id' d => if decide (id = u32 id') then log_upd a (log_call (cur, u64 d)) o else o
  | EvCtx a id' => if decide (id = u32 id') then log_upd a log_ctx o else o
  | EvAborted a id' => if decide (id = u32 id') then log_upd a log_aborted o else o
  | EvEpoch => log_epoch <$> o
  end.

Definition history_of (id : Z) (evs : list event) : option history :=
  foldl (log_event id) None evs.

Definition n_calls (ep : epoch_log) : Z := Z.of_nat (length (el_calls ep)).
Definition time_of (ep : epoch_log) : Z := sum_z (el_calls ep).*2.
Definition last_n (l : list Z) : list Z := drop (length l - Z.to_nat HISTORY_LEN) l.
Definition all_calls (h : history) : list (task * Z) :=
  (h_past h ≫= el_calls) ++ el_calls (h_cur h).

(** The peak is the largest delay, and the task shown is one that suffered it. *)
Definition peak_ok (calls : list (task * Z)) (s : syscall_stat) : Prop :=
  Forall (fun c => c.2 <= peak_delay_ns s) calls /\
  (peak_delay_ns s = 0 \/
   exists t, (t, peak_delay_ns s) ∈ calls /\ peak_delay_pid s = task_pid t /\
     peak_delay_uid s = task_uid t /\ peak_delay_comm s = take (TASK_COMM_LEN - 1) (task_comm t)).

(** An entry represents a history. *)
Record entry_rep (e : syscall_entry) (h : history) : Prop := {
  er_wf : entry_wf e;
  er_cur : current_blocked (stat e) = n_calls (h_cur h);
  er_time : current_time_blocked (stat e) = time_of (h_cur h);
  er_ctx : current_ctx_switches (stat e) = Z.of_nat (el_ctx (h_cur h));
  er_total : total_blocked (stat e) = sum_z (n_calls <$> h_past h);
  er_aborted : total_aborted (stat e) = Z.of_nat (h_aborted h);
  er_last : last_epoch_blocked (stat e) = from_option n_calls 0 (last (h_past h));
  er_mean : last_epoch_mean_delay_ns (stat e) =
    from_option (fun ep => if n_calls ep =? 0 then 0 else time_of ep / n_calls ep) 0 (last (h_past h));
  er_sum_ctx : sum_ctx_switches (stat e) = sum_z ((fun ep => Z.of_nat (el_ctx ep)) <$> h_past h);
  er_peak_ctx : peak_ctx_switches (stat e) = foldr Z.max 0 ((fun ep => Z.of_nat (el_ctx ep)) <$> h_past h);
  er_peak : peak_ok (all_calls h) (stat e);
  er_delays : Forall (fun c => 0 <= c.2) (all_calls h);
  er_window : blocked_window e = last_n (n_calls <$> h_past h);
  er_time_window : time_window e = last_n (time_of <$> h_past h);
}.

(** The sizes that must not overflow: 2^31 events and 2^64 nanoseconds. *)
Definition h_events (h : history) : Z :=
  sum_z ((fun ep => n_calls ep + Z.of_nat (el_ctx ep)) <$> h_past h) +
  n_calls (h_cur h) + Z.of_nat (el_ctx (h_cur h)) + Z.of_nat (h_aborted h).
Definition h_time (h : history) : Z := sum_z (time_of <$> h_past h) + time_of (h_cur h).

Lemma max_z_snoc l x : 0 <= x -> foldr Z.max 0 (l ++ [x]) = Z.max (foldr Z.max 0 l) x.
Proof. intros Hx. induction l as [|y l IH]; simpl; [lia|]. rewrite IH. lia. Qed.

Lemma last_n_snoc l v :
  drop (length (last_n l) + 1 - Z.to_nat HISTORY_LEN) (last_n l ++ [v]) = last_n (l ++ [v]).
Proof.
  unfold last_n. rewrite length_drop, length_app. simpl length.
  rewrite <-(drop_app_le l [v]) by lia. rewrite drop_drop. f_equal. lia.
Qed.

Lemma time_of_nonneg h ep : Forall (fun c => 0 <= c.2) (all_calls h) ->
  ep ∈ h_past h \/ ep = h_cur h -> 0 <= time_of ep.
Proof.
  intros Hf Hep. apply sum_z_fmap_nonneg. intros c Hc.
  eapply (proj1 (Forall_forall _ _) Hf). unfold all_calls.
  apply elem_of_app. destruct Hep as [Hep| ->]; [left|by right].
  apply list_elem_of_bind. eauto.
Qed.

(** The quantities the counters hold are bounded by the sizes of the log. *)
Lemma rep_bounds h : Forall (fun c => 0 <= c.2) (all_calls h) ->
  0 <= n_calls (h_cur h) <= h_events h /\ 0 <= sum_z (n_calls <$> h_past h) /\
  sum_z (n_calls <$> h_past h) + n_calls (h_cur h) <= h_events h /\
  0 <= sum_z ((fun ep => Z.of_nat (el_ctx ep)) <$> h_past h) /\
  sum_z ((fun ep => Z.of_nat (el_ctx ep)) <$> h_past h) + Z.of_nat (el_ctx (h_cur h)) <= h_events h /\
  Z.of_nat (h_aborted h) <= h_events h /\ 0 <= time_of (h_cur h) <= h_time h.
Proof.
  intros Hf. unfold h_events, h_time. rewrite sum_z_add.
  assert (0 <= sum_z (n_calls <$> h_past h)) as H1
    by (apply sum_z_fmap_nonneg; intros; apply Zle_0_nat).
  assert (0 <= sum_z ((fun ep => Z.of_nat (el_ctx ep)) <$> h_past h)) as H2
    by (apply sum_z_fmap_nonneg; intros; apply Zle_0_nat).
  assert (0 <= sum_z (time_of <$> h_past h)) as H3
    by (apply sum_z_fmap_nonneg; intros x Hx; apply (time_of_nonneg h x Hf); auto).
  pose proof (time_of_nonneg h (h_cur h) Hf (or_intror eq_refl)) as H4.
  pose proof (Zle_0_nat (length (el_calls (h_cur h)))). unfold n_calls in *. lia.
Qed.

Lemma peak_ok_same calls s s' : peak_ok calls s ->
  peak_delay_ns s' = peak_delay_ns s -> peak_delay_pid s' = peak_delay_pid s ->
  peak_delay_uid s' = peak_delay_uid s -> peak_delay_comm s' = peak_delay_comm s -> peak_ok calls s'.
Proof. unfold peak_ok. by intros H -> -> -> ->. Qed.

Lemma peak_ok_blocked calls s cur d : peak_ok calls s -> 0 <= d ->
  peak_ok (calls ++ [(cur, d)]) (blocked_update cur d s).
Proof.
  intros [Hall Hpk] Hd. unfold blocked_update. destruct (_ <? _) eqn:E; zbool; split; simpl.
  - apply Forall_app. split; [|by constructor]. eapply Forall_impl; [done|]. simpl. lia.
  - right. exists cur. rewrite elem_of_app, list_elem_of_singleton. eauto.
  - apply Forall_app. split; [done|]. constructor; [done|constructor].
  - destruct Hpk as [?|(t & Ht & ?)]; [by left|right]. exists t. rewrite elem_of_app. eauto.
Qed.

Lemma new_entry_rep id : entry_rep (new_entry id) empty_history.
Proof. split; try done. split; [constructor|by left]. Qed.

(** Each update of an entry represents the corresponding step of the log. *)
Lemma rep_call e h cur d : entry_rep e h -> 0 <= d ->
  h_events (log_call (cur, d) h) < 2 ^ 31 -> h_time (log_call (cur, d) h) < 2 ^ 64 ->
  entry_rep (set_stat (blocked_update cur d (stat e)) e) (log_call (cur, d) h).
Proof.
  intros Hr Hd Hn Ht.
  assert (all_calls (log_call (cur, d) h) = all_calls h ++ [(cur, d)]) as Hall.
  { unfold all_calls. simpl. by rewrite app_assoc. }
  assert (Forall (fun c => 0 <= c.2) (all_calls (log_call (cur, d) h))) as Hf.
  { rewrite Hall. apply Forall_app. split; [apply Hr|]. by constructor. }
  pose proof (rep_bounds _ Hf) as Hb. pose proof (rep_bounds _ (er_delays _ _ Hr)) as Hb'.
  assert (n_calls (h_cur (log_call (cur, d) h)) = n_calls (h_cur h) + 1) as Hc.
  { unfold n_calls. simpl. rewrite length_app. simpl. lia. }
  assert (time_of (h_cur (log_call (cur, d) h)) = time_of (h_cur h) + d) as Htm.
  { unfold time_of. simpl. rewrite fmap_app, sum_z_app. simpl. by rewrite sum_z_one. }
  pose proof (peak_ok_blocked _ _ cur d (er_peak _ _ Hr) Hd) as Hpk. rewrite <-Hall in Hpk.
  destruct Hr. unfold blocked_update in *.
  split; rewrite ?Hc, ?Htm; try done; [by apply set_stat_wf|..]; simpl; destruct (_ <? _); simpl; try done.
  all: rewrite ?er_cur0, ?er_time0; (apply s32_id || apply u64_id); lia.
Qed.

Lemma rep_ctx e h : entry_rep e h -> h_events (log_ctx h) < 2 ^ 31 ->
  entry_rep (set_stat (ctx_update (stat e)) e) (log_ctx h).
Proof.
  intros Hr Hn. pose proof (rep_bounds (log_ctx h) (er_delays _ _ Hr)) as Hb.
  destruct Hr. split; try done; [by apply set_stat_wf|]; simpl in *.
  rewrite er_ctx0. rewrite s32_id by lia. lia.
Qed.

Lemma rep_aborted e h : entry_rep e h -> h_events (log_aborted h) < 2 ^ 31 ->
  entry_rep (set_stat (aborted_update (stat e)) e) (log_aborted h).
Proof.
  intros Hr Hn. pose proof (rep_bounds (log_aborted h) (er_delays _ _ Hr)) as Hb.
  destruct Hr. split; try done; [by apply set_stat_wf|]; simpl in *.
  rewrite er_aborted0. rewrite u64_id by lia. lia.
Qed.

Lemma rep_epoch e h : entry_rep e h -> h_events h < 2 ^ 31 -> h_time h < 2 ^ 64 ->
  entry_rep (epoch_entry e) (log_epoch h).
Proof.
  intros Hr Hn Ht. pose proof (rep_bounds h (er_delays _ _ Hr)) as Hb.
  assert (all_calls (log_epoch h) = all_calls h) as Hall.
  { unfold all_calls. simpl. rewrite bind_app. simpl. by rewrite !app_nil_r. }
  destruct Hr. assert (u64 (current_blocked (stat e)) = n_calls (h_cur h)) as Hcb.
  { rewrite er_cur0. apply u64_id. lia. }
  assert (u64 (current_ctx_switches (stat e)) = Z.of_nat (el_ctx (h_cur h))) as Hctx.
  { rewrite er_ctx0. apply u64_id. lia. }
  split; rewrite ?Hall; try done.
  - by apply epoch_entry_wf.
  - simpl. rewrite Hcb, er_total0, fmap_app, sum_z_app. simpl. rewrite sum_z_one.
    rewrite u64_id; lia.
  - simpl. by rewrite Hcb, last_snoc.
  - simpl. by rewrite Hcb, last_snoc, er_time0.
  - simpl. rewrite Hctx, er_sum_ctx0, fmap_app, sum_z_app. simpl. rewrite sum_z_one.
    rewrite u64_id; lia.
  - simpl. rewrite Hctx, er_peak_ctx0, fmap_app. simpl. by rewrite max_z_snoc by lia.
  - unfold blocked_window in *. simpl epoch_history. rewrite Hcb, window_push by apply er_wf0.
    rewrite er_window0. simpl. by rewrite fmap_app, last_n_snoc.
  - unfold time_window in *. simpl epoch_time_history. rewrite er_time0, window_push by apply er_wf0.
    rewrite er_time_window0. simpl. by rewrite fmap_app, last_n_snoc.
Qed.

Definition event_delay (ev : event) : Z :=
  match ev with EvBlocked _ _ _ d => u64 d | _ => 0 end.

Definition is_epoch (ev : event) : bool := match ev with EvEpoch => true | _ => false end.

Lemma history_snoc id evs ev : history_of id (evs ++ [ev]) = log_event id (history_of id evs) ev.
Proof. unfold history_of. by rewrite foldl_snoc. Qed.

Lemma run_events_snoc sup evs ev : run_events sup (evs ++ [ev]) = run_event sup (run_events sup evs) ev.
Proof. unfold run_events. by rewrite foldl_snoc. Qed.

(** How a step of the log grows its sizes. *)
Definition log_size (o : option history) : Z := from_option h_events 0 o.
Definition log_time (o : option history) : Z := from_option h_time 0 o.

Lemma log_event_size id o ev :
  log_size o <= log_size (log_event id o ev) <= log_size o + 1.
Proof.
  assert (forall c h, h_events (log_call c h) = h_events h + 1) as H1.
  { intros c h. unfold h_events, n_calls. simpl. rewrite length_app. simpl. lia. }
  assert (forall h, h_events (log_ctx h) = h_events h + 1) as H2 by (intros; unfold h_events, n_calls; simpl; lia).
  assert (forall h, h_events (log_aborted h) = h_events h + 1) as H3 by (intros; unfold h_events, n_calls; simpl; lia).
  assert (forall h, h_events (log_epoch h) = h_events h) as H4.
  { intros h. unfold h_events. simpl. rewrite fmap_app, sum_z_app. simpl. rewrite sum_z_one.
    unfold n_calls. simpl. lia. }
  assert (h_events empty_history = 0) as H0 by done.
  destruct ev as [a ? ? ?|a ?|a ?|]; simpl; try case_decide;
    destruct o; simpl; try destruct a; simpl; rewrite ?H1, ?H2, ?H3, ?H4; lia.
Qed.

Lemma log_event_time id o ev :
  log_time o <= log_time (log_event id o ev) <= log_time o + event_delay ev.
Proof.
  assert (forall c h, h_time (log_call c h) = h_time h + c.2) as H1.
  { intros c h. unfold h_time, time_of. simpl. rewrite fmap_app, sum_z_app. simpl.
    rewrite sum_z_one. lia. }
  assert (forall h, h_time (log_epoch h) = h_time h) as H4.
  { intros h. unfold h_time. simpl. rewrite fmap_app, sum_z_app. simpl. rewrite sum_z_one.
    change (time_of (EpochLog [] 0)) with 0. lia. }
  assert (forall h, h_time (log_ctx h) = h_time h) as H2 by done.
  assert (forall h, h_time (log_aborted h) = h_time h) as H3 by done.
  assert (h_time empty_history = 0) as H0 by done.
  destruct ev as [a ? ? d|a ?|a ?|]; simpl; try case_decide; try pose proof (u64_range d);
    destruct o; simpl; try destruct a; simpl; rewrite ?H1, ?H2, ?H3, ?H4, ?H0; simpl; lia.
Qed.

(** An entry and a log that describe the same syscall. *)
Definition opt_rep (id : Z) (oe : option syscall_entry) (oh : option history) : Prop :=
  match oe, oh with
  | Some e, Some h => syscall_id e = id /\ entry_rep e h
  | None, None => True
  | _, _ => False
  end.

Lemma opt_rep_upd id a g f oe oh : opt_rep id oe oh ->
  (forall e h, entry_rep e h -> log_upd a f oh = Some (f h) -> entry_rep (set_stat (g (stat e)) e) (f h)) ->
  opt_rep id (upd_entry a id g oe) (log_upd a f oh).
Proof.
  intros Hr Hg. destruct oe as [e|], oh as [h|]; try done; simpl in *.
  - destruct Hr as [? Hr]. split; [done|]. by apply Hg.
  - destruct a; [|done]. split; [done|]. apply (Hg (new_entry id)); [apply new_entry_rep|done].
Qed.

Lemma run_event_rep sup m id oh ev : 0 <= id < sup -> opt_rep id (entry_of m id) oh ->
  log_size (log_event id oh ev) < 2 ^ 31 -> log_time (log_event id oh ev) < 2 ^ 64 ->
  opt_rep id (entry_of (run_event sup m ev) id) (log_event id oh ev).
Proof.
  intros Hid Hr Hn Ht. destruct ev as [a cur id' d|a id'|a id'|]; simpl in *.
  - unfold sysThrot_add_blocked. rewrite entry_of_record_in by done. case_decide; [|done].
    apply opt_rep_upd; [done|]. intros e h He Hh. rewrite Hh in Hn, Ht.
    apply rep_call; auto; apply u64_range.
  - unfold sysThrot_add_ctx_switch. rewrite entry_of_record_in by done. case_decide; [|done].
    apply opt_rep_upd; [done|]. intros e h He Hh. rewrite Hh in Hn. by apply rep_ctx.
  - unfold sysThrot_add_aborted. rewrite entry_of_record_in by done. case_decide; [|done].
    apply opt_rep_upd; [done|]. intros e h He Hh. rewrite Hh in Hn. by apply rep_aborted.
  - rewrite entry_of_epoch. destruct (entry_of m id) as [e|], oh as [h|]; simpl in *; try done.
    destruct Hr as [? Hr]. split; [done|]. apply rep_epoch; [done| |].
    + pose proof (log_event_size id (Some h) EvEpoch). simpl in *. lia.
    + pose proof (log_event_time id (Some h) EvEpoch). simpl in *. lia.
Qed.

(** ** The sums of a line of [/proc/SYSTHROT] *)

Lemma window_loop_sum e ids b t :
  Forall (fun x => 0 <= x) (ring_at (epoch_history e) e <$> ids) ->
  Forall (fun x => 0 <= x) (ring_at (epoch_time_history e) e <$> ids) ->
  0 <= b -> b + sum_z (ring_at (epoch_history e) e <$> ids) < 2 ^ 64 ->
  0 <= t -> t + sum_z (ring_at (epoch_time_history e) e <$> ids) < 2 ^ 64 ->
  window_loop e ids (b, t) =
    (b + sum_z (ring_at (epoch_history e) e <$> ids), t + sum_z (ring_at (epoch_time_history e) e <$> ids)).
Proof.
  revert b t. induction ids as [|i ids IH]; intros b t Hb Ht H1 H2 H3 H4.
  { cbn. by rewrite !Z.add_0_r. }
  rewrite !fmap_cons, !Forall_cons, !sum_z_cons in *. destruct Hb as [Hb0 Hb], Ht as [Ht0 Ht].
  pose proof (sum_z_nonneg _ Hb). pose proof (sum_z_nonneg _ Ht). cbn [window_loop fst snd].
  change (history_blocked_at e (Z.of_nat i)) with (ring_at (epoch_history e) e i).
  change (history_time_at e (Z.of_nat i)) with (ring_at (epoch_time_history e) e i).
  rewrite !u64_id by lia. rewrite IH; [f_equal; lia|done|done|lia..].
Qed.

Lemma last_n_drop l : exists n, last_n l = drop n l.
Proof. by eexists. Qed.

Lemma sum_z_drop n l : Forall (fun x => 0 <= x) l -> 0 <= sum_z (drop n l) <= sum_z l.
Proof.
  intros Hl. rewrite <-(take_drop n l) in Hl at 1. apply Forall_app in Hl as [H1 H2].
  rewrite <-(take_drop n l) at 3. rewrite sum_z_app.
  pose proof (sum_z_nonneg _ H1). pose proof (sum_z_nonneg _ H2). lia.
Qed.

(** The line printed for an entry, computed from its history. *)
Definition history_row (id epochs : Z) (s : syscall_stat) (h : history) : row :=
  let calls := last_n (n_calls <$> h_past h) in
  let times := last_n (time_of <$> h_past h) in
  Row id (sum_z (n_calls <$> h_past h)) (from_option n_calls 0 (last (h_past h)))
    (if decide (calls = []) then 0 else sum_z calls / Z.of_nat (length calls))
    (if sum_z calls =? 0 then 0 else sum_z times / sum_z calls)
    (peak_delay_ns s) (Z.of_nat (h_aborted h))
    (if epochs =? 0 then 0 else sum_z ((fun ep => Z.of_nat (el_ctx ep)) <$> h_past h) / epochs)
    (foldr Z.max 0 ((fun ep => Z.of_nat (el_ctx ep)) <$> h_past h))
    (peak_delay_comm s) (peak_delay_pid s) (peak_delay_uid s).

Lemma show_entry_row epochs e h : entry_rep e h -> h_events h < 2 ^ 31 -> h_time h < 2 ^ 64 ->
  show_entry epochs e = history_row (syscall_id e) epochs (stat e) h.
Proof.
  intros Hr Hn Ht. pose proof (rep_bounds h (er_delays _ _ Hr)) as Hb.
  assert (Forall (fun x => 0 <= x) (n_calls <$> h_past h)) as Hpc.
  { apply Forall_fmap, Forall_forall. intros ep _. apply Zle_0_nat. }
  assert (Forall (fun x => 0 <= x) (time_of <$> h_past h)) as Hpt.
  { apply Forall_fmap, Forall_forall. intros ep Hep. eapply time_of_nonneg; [apply Hr|by left]. }
  destruct (last_n_drop (n_calls <$> h_past h)) as [nc Hnc].
  destruct (last_n_drop (time_of <$> h_past h)) as [nt Hnt].
  pose proof (sum_z_drop nc _ Hpc) as Hsc. pose proof (sum_z_drop nt _ Hpt) as Hst.
  assert (sum_z (time_of <$> h_past h) <= h_time h) by (unfold h_time; lia).
  pose proof (er_window _ _ Hr) as Hw. pose proof (er_time_window _ _ Hr) as Hwt.
  pose proof (length_window (epoch_history e) e (er_wf _ _ Hr)) as Hlen.
  fold (blocked_window e) in Hlen. rewrite Hw in Hlen.
  unfold show_entry. unfold blocked_window, time_window, window in Hw, Hwt.
  rewrite window_loop_sum; rewrite ?Hw, ?Hwt, ?Hnc, ?Hnt; try lia; [|by apply Forall_drop..].
  unfold history_row. rewrite <-!Hnc, <-!Hnt, !Z.add_0_l.
  pose proof (ew_count _ (er_wf _ _ Hr)). destruct Hr.
  rewrite er_total0, er_last0, er_aborted0, er_sum_ctx0, er_peak_ctx0. f_equal.
  destruct (history_count e =? 0) eqn:E; zbool.
  - rewrite E in Hlen. apply nil_length_inv in Hlen. by rewrite decide_True.
  - rewrite decide_False by (intros Hnil; rewrite Hnil in Hlen; simpl in Hlen; lia).
    rewrite Hlen. by rewrite Z2Nat.id by lia.
Qed.

Definition bounded_events (evs : list event) : Prop :=
  Z.of_nat (length evs) < 2 ^ 31 /\ sum_z (event_delay <$> evs) < 2 ^ 64.

Lemma event_delay_nonneg ev : 0 <= event_delay ev.
Proof. destruct ev; simpl; try done. apply u64_range. Qed.

Lemma history_bounds id evs : log_size (history_of id evs) <= Z.of_nat (length evs) /\
  log_time (history_of id evs) <= sum_z (event_delay <$> evs).
Proof.
  induction evs as [|ev evs IH] using rev_ind; [done|].
  rewrite history_snoc, length_app, fmap_app, sum_z_app. simpl. rewrite sum_z_one.
  pose proof (log_event_size id (history_of id evs) ev).
  pose proof (log_event_time id (history_of id evs) ev). lia.
Qed.

Lemma bounded_snoc evs ev : bounded_events (evs ++ [ev]) -> bounded_events evs.
Proof.
  unfold bounded_events. rewrite length_app, fmap_app, sum_z_app. simpl. rewrite sum_z_one.
  pose proof (event_delay_nonneg ev). lia.
Qed.

Lemma run_events_rep sup evs id : 0 <= id < sup -> bounded_events evs ->
  opt_rep id (entry_of (run_events sup evs) id) (history_of id evs).
Proof.
  intros Hid. induction evs as [|ev evs IH] using rev_ind; intros Hb; [done|].
  rewrite run_events_snoc, history_snoc.
  pose proof (history_bounds id (evs ++ [ev])) as Hh. rewrite history_snoc in Hh.
  apply run_event_rep; [done|apply IH; by eapply bounded_snoc|unfold bounded_events in Hb; lia..].
Qed.

(** ** Well-formedness along a trace *)

(** The monitor's invariant: well-formed entries with distinct ids of the table. *)
Definition monitor_ok (sup : Z) (m : monitor) : Prop :=
  monitor_wf m /\ Forall (fun e => 0 <= syscall_id e < sup) (syscall_list m).

Lemma record_in_ok sup a id g m : monitor_ok sup m -> monitor_ok sup (record_in sup a id g m).
Proof.
  intros [Hwf Hids]. split; [by apply record_in_wf|]. unfold record_in.
  destruct (_ <=? _) eqn:E; zbool; [done|]. unfold find_or_create_entry_locked.
  pose proof (u32_range id).
  destruct (find_entry_locked _ _) as [i|]; [|destruct a; [|done]]; simpl.
  - apply Forall_alter; [done|]. by intros e _.
  - apply Forall_alter; [|by intros e _]. apply Forall_app. split; [done|].
    constructor; [simpl; lia|constructor].
Qed.

Lemma run_event_ok sup m ev : monitor_ok sup m -> monitor_ok sup (run_event sup m ev).
Proof.
  intros Hm. destruct ev; try by apply record_in_ok.
  destruct Hm as [Hwf Hids]. split; [by apply update_epoch_wf|]. simpl. by apply Forall_fmap.
Qed.

Lemma epoch_count_run sup evs : Z.of_nat (length evs) < 2 ^ 64 ->
  epoch_count (run_events sup evs) = Z.of_nat (length (filter is_epoch evs)).
Proof.
  induction evs as [|ev evs IH] using rev_ind; [done|]. rewrite length_app. simpl. intros Hl.
  rewrite run_events_snoc, filter_app, length_app. specialize (IH ltac:(lia)).
  assert (forall a id g m, epoch_count (record_in sup a id g m) = epoch_count m) as Hrec.
  { intros a id g m. unfold record_in. destruct (_ <=? _); [done|].
    by destruct (find_or_create_entry_locked _ _ _) as [[]]. }
  pose proof (length_filter is_epoch evs).
  destruct ev; simpl; unfold sysThrot_add_blocked, sysThrot_add_ctx_switch, sysThrot_add_aborted;
    rewrite ?Hrec, ?IH; [simpl; lia..|]. rewrite u64_id; simpl; lia.
Qed.

(** ** Reading [/proc/SYSTHROT]

    [seq_read] calls [start] once, then [show] and [next] until the iterator
    is NULL, and [stop].  A read that fills its buffer resumes at the position
    it stopped at. *)
Fixpoint seq_traverse (fuel : nat) (m : monitor) (v : seq_val) (pos : Z) : option (list row) :=
  match v with
  | SeqNull => Some []
  | _ =>
      match fuel with
      | O => None
      | S fuel =>
          let '(v', pos') := my_seq_next m v pos in
          rows ← seq_traverse fuel m v' pos';
          Some (match my_seq_show m v with Some r => r :: rows | None => rows end)
      end
  end.

Lemma seq_walk_at l i pos : i <= pos ->
  seq_walk l i pos =
    match drop (Z.to_nat (pos - i)) l with
    | e :: _ => SeqEntry e
    | [] => if pos - i =? Z.of_nat (length l) then SeqOne else SeqNull
    end.
Proof.
  revert i. induction l as [|e l IH]; intros i Hi; simpl.
  - rewrite drop_nil. destruct (i =? pos) eqn:E; zbool; [by rewrite (proj2 (Z.eqb_eq _ _)) by lia|].
    by rewrite (proj2 (Z.eqb_neq _ _)) by lia.
  - destruct (i =? pos) eqn:E; zbool; [by replace (Z.to_nat (pos - i)) with 0%nat by lia|].
    rewrite IH by lia. replace (Z.to_nat (pos - i)) with (S (Z.to_nat (pos - (i + 1)))) by lia.
    simpl. destruct (drop _ l); [|done].
    destruct (pos - (i + 1) =? _) eqn:E1, (pos - i =? _) eqn:E2; zbool; done || lia.
Qed.

Lemma seq_traverse_from m k fuel : (length (syscall_list m) - k < fuel)%nat ->
  (k <= length (syscall_list m))%nat ->
  seq_traverse fuel m (seq_walk (syscall_list m) 0 (Z.of_nat k)) (Z.of_nat k) =
    Some (show_entry (epoch_count m) <$> drop k (syscall_list m)).
Proof.
  revert k. induction fuel as [|fuel IH]; intros k Hf Hk; [lia|].
  rewrite seq_walk_at by lia. rewrite Z.sub_0_r, Nat2Z.id.
  destruct (drop k (syscall_list m)) as [|e l] eqn:E.
  - assert (length (drop k (syscall_list m)) = 0%nat) as Hl by by rewrite E.
    rewrite length_drop in Hl. rewrite (proj2 (Z.eqb_eq _ _)) by lia. simpl. by destruct fuel.
  - assert (length (drop k (syscall_list m)) = S (length l)) as Hl by by rewrite E.
    rewrite length_drop in Hl. cbn [seq_traverse my_seq_next].
    replace (Z.of_nat k + 1) with (Z.of_nat (S k)) by lia. rewrite IH by lia.
    replace (S k) with (k + 1)%nat by lia. rewrite <-drop_drop, E. done.
Qed.

(** ** Properties *)

(** C24: over any sequence of blocked calls, wait-condition evaluations,
    aborted calls and epoch ends (allocation failures included), the entry of
    a syscall of the table represents exactly the history of the events
    recorded for that syscall: every counter, the peaks and both rolling
    windows; the entry exists exactly when an event could be recorded. *)
Theorem monitor_refines_log sup evs id : 0 <= id < sup -> bounded_events evs ->
  opt_rep id (entry_of (run_events sup evs) id) (history_of id evs) /\
  epoch_count (run_events sup evs) = Z.of_nat (length (filter is_epoch evs)).
Proof.
  intros Hid Hb. split; [by apply run_events_rep|].
  apply epoch_count_run. destruct Hb. lia.
Qed.

(** C25: the line [/proc/SYSTHROT] shows for a syscall is computed exactly
    from its history: totals over the completed epochs since the load, the mean
    delay and AVG/EPOCH over the last 20 of them, CTX/EPOCH over all epochs, and a
    peak delay suffered by the task shown.  (The Readme says both that the mean
    delay is over the window and that every column but LAST and AVG/EPOCH is
    cumulative since the load; the code does the former.) *)
Theorem proc_row_exact sup evs id h : 0 <= id < sup -> bounded_events evs ->
  history_of id evs = Some h ->
  exists e, entry_of (run_events sup evs) id = Some e /\
    my_seq_show (run_events sup evs) (SeqEntry e) =
      Some (history_row id (Z.of_nat (length (filter is_epoch evs))) (stat e) h) /\
    peak_ok (all_calls h) (stat e).
Proof.
  intros Hid Hb Hh. pose proof (run_events_rep sup evs id Hid Hb) as Hr.
  pose proof (history_bounds id evs) as Hsz. rewrite Hh in Hr, Hsz. simpl in Hsz.
  destruct (entry_of _ id) as [e|]; [|done]. destruct Hr as [Hi Hr]. exists e.
  split; [done|]. split; [|apply Hr]. simpl. destruct Hb.
  rewrite (show_entry_row _ e h Hr), epoch_count_run, Hi by lia. done.
Qed.

(** Ending an epoch appends the epoch's blocked calls and blocked time to
    the two rolling windows and forgets the oldest epoch once 20 are kept;
    the ring buffers stay well formed. *)
Theorem epoch_pushes_window e : entry_wf e ->
  entry_wf (epoch_entry e) /\
  blocked_window (epoch_entry e) = last_n (blocked_window e ++ [u64 (current_blocked (stat e))]) /\
  time_window (epoch_entry e) = last_n (time_window e ++ [current_time_blocked (stat e)]).
Proof.
  intros Hw. split; [by apply epoch_entry_wf|].
  unfold blocked_window, time_window, last_n. rewrite !length_app. simpl length.
  split; apply (window_push _ e _ Hw); apply Hw.
Qed.

(** Along any trace the entries keep distinct ids, all below
    [SUPPORTED_SYSCALLS] (so [syscall_symbols] is indexed in bounds), and
    every read of a ring buffer is inside its 20 slots. *)
Theorem monitor_always_ok sup evs :
  monitor_ok sup (run_events sup evs) /\
  forall e i, e ∈ syscall_list (run_events sup evs) ->
    is_Some (epoch_history e !! Z.to_nat (history_index e i)) /\
    is_Some (epoch_time_history e !! Z.to_nat (history_index e i)).
Proof.
  assert (monitor_ok sup (run_events sup evs)) as Hok.
  { induction evs as [|ev evs IH] using rev_ind.
    - split; [split; constructor|constructor].
    - rewrite run_events_snoc. by apply run_event_ok. }
  split; [done|]. intros e i He. destruct Hok as [[_ Hent] _].
  pose proof (proj1 (Forall_forall _ _) Hent e He) as Hw. pose proof (history_index_range e i).
  split; apply lookup_lt_is_Some_2; [rewrite (ew_len _ Hw)|rewrite (ew_time_len _ Hw)];
    unfold HISTORY_LEN in *; lia.
Qed.

(** Reading [/proc/SYSTHROT] from any position within the list terminates
    and shows each remaining entry exactly once, in order. *)
Theorem seq_read_complete m k : (k <= length (syscall_list m))%nat ->
  seq_traverse (S (length (syscall_list m))) m (my_seq_start m (Z.of_nat k)).2 (Z.of_nat k) =
    Some (show_entry (epoch_count m) <$> drop k (syscall_list m)).
Proof. intros Hk. apply seq_traverse_from; [lia|done]. Qed.

(** ** A concrete trace *)

Definition demo_task : task := Task 100 1000 [115; 104].
Definition demo_events : list event :=
  [EvCtx true 1; EvBlocked true demo_task 1 2000000; EvEpoch; EvAborted false 7; EvAborted true 1; EvEpoch].

Lemma monitor_refines_log_witness :
  opt_rep 1 (entry_of (run_events 462 demo_events) 1) (history_of 1 demo_events) /\
  epoch_count (run_events 462 demo_events) = 2.
Proof. apply (monitor_refines_log 462 demo_events 1); [lia|split; reflexivity]. Defined.

Lemma proc_row_exact_witness : exists e,
  entry_of (run_events 462 demo_events) 1 = Some e /\
  my_seq_show (run_events 462 demo_events) (SeqEntry e) =
    Some (Row 1 1 0 0 2000000 2000000 1 0 1 [115; 104] 100 1000).
Proof.
  destruct (proc_row_exact 462 demo_events 1
    (History [EpochLog [(demo_task, 2000000)] 1; EpochLog [] 0] (EpochLog [] 0) 1))
    as (e & He & Hs & _); [lia|split; reflexivity|reflexivity|].
  exists e. split; [exact He|]. rewrite Hs. vm_compute in He. injection He as <-. reflexivity.
Defined.

Lemma epoch_pushes_window_witness :
  blocked_window (epoch_entry (set_stat (Stat 3 9 0 0 0 0 0 0 0 0 0 0 []) (new_entry 1))) = [3].
Proof.
  rewrite (proj1 (proj2 (epoch_pushes_window _ (set_stat_wf _ _ (new_entry_wf 1))))). reflexivity.
Defined.

Lemma seq_read_complete_witness :
  seq_traverse 2 (run_events 462 demo_events) (SeqEntry (default (new_entry 0) (entry_of (run_events 462 demo_events) 1))) 0
    = Some [Row 1 1 0 0 2000000 2000000 1 0 1 [115; 104] 100 1000].
Proof. exact (seq_read_complete (run_events 462 demo_events) 0 (Nat.le_0_l _)). Defined.
