(* ===== verification/Core.v ===== *)
(** * The throttling core ([src/sysThrot.c])

    [stub], run by every thread that enters a hooked syscall, the epoch timer
    and [sysThrot_turn_on]/[sysThrot_turn_off], as one transition system.  Each
    program point between two accesses to shared data is a value of [pc],
    [timer_pc] or [ctl_pc]; a transition is one atomic access (or one critical
    section of the wait queue or of the statistics), so every interleaving of
    threads, timer and controller is a sequence of labels. *)

From stdpp Require Import prelude gmap list.
From S2P Require Import Prelude Kernel Store Queue Stats.

(** ** [check_if_registered] *)

(** On the store's heap: [comm] is [current->comm], [uid] the local [int]
    that holds the caller's uid. *)
Definition check_if_registered (store comm uid : loc) : K Z :=
  r ← find_program_in_store store comm;
  if r =? 0 then mret 1
  else
    r ← find_user_in_store store uid;
    if r =? 0 then mret 1 else mret (-1).

(** The sets the store represents, and the answer in terms of them. *)
Record registry := Registry { reg_users : gset user; reg_programs : gset program }.

Definition program_registered (r : registry) (t : task) : bool :=
  bool_decide (task_comm t ∈ reg_programs r).

Definition user_registered (r : registry) (t : task) : bool :=
  bool_decide (s32 (task_uid t) ∈ reg_users r).

Definition is_registered (r : registry) (t : task) : bool :=
  program_registered r t || user_registered r t.

(** ** Program points *)

(** Where a thread is in the evaluation of the condition of
    [wait_event_interruptible]: about to record the evaluation, to read
    [working], to read its flag. *)
Inductive wait_point := WCtx | WCond | WFlag.

Inductive pc :=
| POut (r : option Z)                      (* outside the stub; what it last returned *)
| PEntered                                 (* [working] was not 0 *)
| PInside                                  (* counted in [threads_in_module] *)
| PUser                                    (* its program is not registered, before the uid is looked up *)
| PChecked                                 (* [check_if_registered] returned 1 *)
| PNoToken (clock_in : Z)                  (* no token left, before [add_to_queue] *)
| PEval (e : eid) (clock_in : Z) (fast woken : bool) (w : wait_point)
| PSleep (e : eid) (clock_in : Z)          (* in [schedule()] *)
| PWoken (e : eid) (clock_in result : Z)   (* [wait_event_interruptible] returned *)
| PExit (e : eid) (clock_in result : Z)    (* before [set_exited_flag] *)
| PAfter (clock_in result : Z)             (* after it *)
| PAbort                                   (* before [sysThrot_add_aborted] *)
| PRecord (delay_ns : Z)                   (* before [sysThrot_add_blocked] *)
| PDec (r : Z).                            (* before the last [atomic_dec] *)

Record thread := Thread { th_task : task; th_nr : Z; th_pc : pc }.

(** The epoch callback: idle (armed or not), or before each of its steps. *)
Inductive timer_pc :=
| TIdle (armed : bool)
| TUnqueue
| TWake (tokens : Z)
| TStats (tokens : Z)
| TEpoch (tokens : Z)
| TSet (tokens : Z)
| TRearm
| TJunk (armed : bool).

(** The administrator's call: before each step of [turn_on] and [turn_off]. *)
Inductive ctl_pc :=
| CIdle (r : option Z)
| COnInit | COnSetup | COnArm | COnWorking
| COffWorking | COffTimer | COffWake | COffLoop | COffPoll | COffDestroy.

(** Bookkeeping of the current epoch, for the statements only: its budget, the
    tokens taken off for waiters, the wake-up flags set at its start, the tokens
    granted and all decrements; and the flags set for the epoch to come. *)
Record ghost := Ghost {
  g_quota : Z; g_served : Z; g_woken : Z; g_granted : Z; g_decs : Z; g_next : Z;
}.

Record state := State {
  working : bool;
  threads_in_module : Z;                   (* atomic_t *)
  current_epoch_tokens : Z;                (* atomic_t *)
  epoch : Z;                               (* atomic_t *)
  max_syscalls_for_epoch : Z;              (* int *)
  waitq : queue;
  stats : monitor;
  reg : registry;
  threads : list thread;
  timer : timer_pc;
  ctl : ctl_pc;
  gh : ghost;
}.

Inductive outcome := Blocked | UB | Next (s : state).

(** ** Field updates *)

Definition set_pc (i : nat) (p : pc) (s : state) : state :=
  State (working s) (threads_in_module s) (current_epoch_tokens s) (epoch s)
    (max_syscalls_for_epoch s) (waitq s) (stats s) (reg s)
    (alter (fun th => Thread (th_task th) (th_nr th) p) i (threads s)) (timer s) (ctl s) (gh s).

Definition set_threads (l : list thread) (s : state) : state :=
  State (working s) (threads_in_module s) (current_epoch_tokens s) (epoch s)
    (max_syscalls_for_epoch s) (waitq s) (stats s) (reg s) l (timer s) (ctl s) (gh s).

Definition set_working (b : bool) (s : state) : state :=
  State b (threads_in_module s) (current_epoch_tokens s) (epoch s)
    (max_syscalls_for_epoch s) (waitq s) (stats s) (reg s) (threads s) (timer s) (ctl s) (gh s).

Definition set_count (z : Z) (s : state) : state :=
  State (working s) (s32 z) (current_epoch_tokens s) (epoch s)
    (max_syscalls_for_epoch s) (waitq s) (stats s) (reg s) (threads s) (timer s) (ctl s) (gh s).

Definition set_tokens (z : Z) (g : ghost) (s : state) : state :=
  State (working s) (threads_in_module s) (s32 z) (epoch s)
    (max_syscalls_for_epoch s) (waitq s) (stats s) (reg s) (threads s) (timer s) (ctl s) g.

Definition set_epoch (z : Z) (s : state) : state :=
  State (working s) (threads_in_module s) (current_epoch_tokens s) (s32 z)
    (max_syscalls_for_epoch s) (waitq s) (stats s) (reg s) (threads s) (timer s) (ctl s) (gh s).

Definition set_waitq (q : queue) (s : state) : state :=
  State (working s) (threads_in_module s) (current_epoch_tokens s) (epoch s)
    (max_syscalls_for_epoch s) q (stats s) (reg s) (threads s) (timer s) (ctl s) (gh s).

Definition set_stats (m : monitor) (s : state) : state :=
  State (working s) (threads_in_module s) (current_epoch_tokens s) (epoch s)
    (max_syscalls_for_epoch s) (waitq s) m (reg s) (threads s) (timer s) (ctl s) (gh s).

Definition set_reg (r : registry) (s : state) : state :=
  State (working s) (threads_in_module s) (current_epoch_tokens s) (epoch s)
    (max_syscalls_for_epoch s) (waitq s) (stats s) r (threads s) (timer s) (ctl s) (gh s).

Definition set_timer (t : timer_pc) (s : state) : state :=
  State (working s) (threads_in_module s) (current_epoch_tokens s) (epoch s)
    (max_syscalls_for_epoch s) (waitq s) (stats s) (reg s) (threads s) t (ctl s) (gh s).

Definition set_ctl (c : ctl_pc) (s : state) : state :=
  State (working s) (threads_in_module s) (current_epoch_tokens s) (epoch s)
    (max_syscalls_for_epoch s) (waitq s) (stats s) (reg s) (threads s) (timer s) c (gh s).

Definition set_next (n : Z) (s : state) : state :=
  State (working s) (threads_in_module s) (current_epoch_tokens s) (epoch s)
    (max_syscalls_for_epoch s) (waitq s) (stats s) (reg s) (threads s) (timer s) (ctl s)
    (Ghost (g_quota (gh s)) (g_served (gh s)) (g_woken (gh s)) (g_granted (gh s)) (g_decs (gh s)) n).

(** ** [stub] *)

(** What is not determined by the state when a thread takes a step: whether an
    allocation succeeds, what [ktime_get] reads, whether a signal is pending. *)
Record choice := Choice { ch_alloc : bool; ch_now : Z; ch_signal : bool }.

Section stub.
Context (SUPPORTED_SYSCALLS : Z).

Definition of_option (o : option state) : outcome :=
  match o with Some s => Next s | None => UB end.

(** The next step of thread [i], which runs [th]. *)
Definition stub_step (i : nat) (th : thread) (c : choice) (s : state) : outcome :=
  match th_pc th with
  | POut _ => Blocked
  | PEntered => Next (set_pc i PInside (set_count (threads_in_module s + 1) s))
  | PInside =>
      Next (set_pc i (if program_registered (reg s) (th_task th) then PChecked else PUser) s)
  | PUser =>
      Next (set_pc i (if user_registered (reg s) (th_task th) then PChecked else PDec 0) s)
  | PChecked =>
      let tokens_left := s32 (current_epoch_tokens s - 1) in
      let g := gh s in
      if 0 <=? tokens_left then
        Next (set_pc i (PDec 0)
          (set_tokens (current_epoch_tokens s - 1)
             (Ghost (g_quota g) (g_served g) (g_woken g) (g_granted g + 1) (g_decs g + 1) (g_next g)) s))
      else
        Next (set_pc i (PNoToken (ch_now c))
          (set_tokens (current_epoch_tokens s - 1)
             (Ghost (g_quota g) (g_served g) (g_woken g) (g_granted g) (g_decs g + 1) (g_next g)) s))
  | PNoToken clock_in =>
      match add_to_queue (ch_alloc c) (working s) (waitq s) with
      | None => UB
      | Some (AqNull, q) => Next (set_pc i PAbort (set_waitq q s))
      | Some (AqOne, q) => Next (set_pc i (PDec 0) (set_waitq q s))
      | Some (AqFlag e, q) => Next (set_pc i (PEval e clock_in true false WCtx) (set_waitq q s))
      end
  | PEval e clock_in fast woken WCtx =>
      Next (set_pc i (PEval e clock_in fast woken WCond)
        (set_stats (sysThrot_add_ctx_switch SUPPORTED_SYSCALLS (ch_alloc c) (th_nr th) (stats s)) s))
  | PEval e clock_in fast woken WCond =>
      Next (set_pc i (if working s then PEval e clock_in fast woken WFlag else PWoken e clock_in 0) s)
  | PEval e clock_in fast woken WFlag =>
      match elems (waitq s) !! e with
      | None => UB
      | Some d =>
          Next (set_pc i
            (if wake_up_flag d then PWoken e clock_in 0
             else if fast then PEval e clock_in false false WCtx
             else if ch_signal c then PWoken e clock_in (- ERESTARTSYS)
             else if woken then PEval e clock_in false false WCtx
             else PSleep e clock_in) s)
      end
  | PSleep e clock_in =>
      if ch_signal c then Next (set_pc i (PEval e clock_in false false WCtx) s) else Blocked
  | PWoken e clock_in result =>
      Next (set_pc i (if working s then PExit e clock_in result else PDec 0) s)
  | PExit e clock_in result =>
      match set_exited_flag e (waitq s) with
      | None => UB
      | Some q => Next (set_pc i (PAfter clock_in result) (set_waitq q s))
      end
  | PAfter clock_in result =>
      Next (set_pc i
        (if result =? - ERESTARTSYS then PAbort
         else PRecord (u64 (ch_now c - clock_in))) s)
  | PAbort =>
      Next (set_pc i (PDec (- EAGAIN))
        (set_stats (sysThrot_add_aborted SUPPORTED_SYSCALLS (ch_alloc c) (th_nr th) (stats s)) s))
  | PRecord delay_ns =>
      Next (set_pc i (PDec 0)
        (set_stats (sysThrot_add_blocked SUPPORTED_SYSCALLS (ch_alloc c) (th_task th)
           (s32 (th_nr th)) delay_ns (stats s)) s))
  | PDec r => Next (set_pc i (POut (Some r)) (set_count (threads_in_module s - 1) s))
  end.

(** Entering the stub: the first test of [working]. *)
Definition stub_enter (i : nat) (nr : Z) (s : state) : outcome :=
  match threads s !! i with
  | Some (Thread t _ (POut _)) =>
      Next (set_threads (<[i := Thread t nr (if working s then PEntered else POut (Some 0))]> (threads s)) s)
  | _ => Blocked
  end.

(** ** [wake_up_interruptible(&wait_q)]: sleepers evaluate their condition
    again, and threads on their way to [schedule()] will not sleep. *)
Definition wake_pc (p : pc) : pc :=
  match p with
  | PSleep e c => PEval e c false false WCtx
  | PEval e c fast _ w => PEval e c fast true w
  | p => p
  end.

Definition wake_up_interruptible (s : state) : state :=
  set_threads ((fun th => Thread (th_task th) (th_nr th) (wake_pc (th_pc th))) <$> threads s) s.

(** ** [timer_callback] *)
Definition timer_step (s : state) : outcome :=
  match timer s with
  | TIdle false => Blocked
  | TIdle true => Next (set_timer TUnqueue s)
  | TUnqueue =>
      let new_epoche_tokens := max_syscalls_for_epoch s in
      match unqueue new_epoche_tokens (waitq s) with
      | None => UB
      | Some (queued, q) =>
          Next (set_timer (TWake (s32 (new_epoche_tokens - queued)))
            (set_waitq q (set_next (newly_woken (waitq s) q) s)))
      end
  | TWake n => Next (set_timer (TStats n) (wake_up_interruptible s))
  | TStats n => Next (set_timer (TEpoch n) (set_stats (update_epoch_stats (stats s)) s))
  | TEpoch n => Next (set_timer (TSet n) (set_epoch (epoch s + 1) s))
  | TSet n =>
      Next (set_timer TRearm
        (set_tokens n
           (Ghost (max_syscalls_for_epoch s) (max_syscalls_for_epoch s - n) (g_next (gh s)) 0 0 (g_next (gh s))) s))
  | TRearm => Next (set_timer (TJunk (working s)) s)
  | TJunk armed =>
      match free_junk (waitq s) with
      | None => UB
      | Some q => Next (set_timer (TIdle armed) (set_waitq q s))
      end
  end.

(** ** [sysThrot_turn_on] and [sysThrot_turn_off] *)

Definition turn_on_enter (s : state) : outcome :=
  match ctl s with
  | CIdle _ => Next (set_ctl (if working s then CIdle (Some (- EALREADY)) else COnInit) s)
  | _ => Blocked
  end.

Definition turn_off_enter (s : state) : outcome :=
  match ctl s with
  | CIdle _ => Next (set_ctl (if working s then COffWorking else CIdle (Some (- EALREADY))) s)
  | _ => Blocked
  end.

Definition ctl_step (alloc_ok : bool) (s : state) : outcome :=
  match ctl s with
  | CIdle _ => Blocked
  | COnInit => Next (set_ctl COnSetup (set_waitq (init_queue alloc_ok (waitq s)).2 s))
  | COnSetup => Next (set_ctl COnArm (set_timer (TIdle false) s))
  | COnArm =>
      match timer s with
      | TIdle false => Next (set_ctl COnWorking (set_timer (TIdle true) s))
      | _ => Next (set_ctl (CIdle (Some 1)) (set_timer (TIdle true) s))
      end
  | COnWorking => Next (set_ctl (CIdle (Some 0)) (set_working true s))
  | COffWorking => Next (set_ctl COffTimer (set_working false s))
  | COffTimer =>
      (* timer_shutdown_sync waits for a running callback *)
      match timer s with
      | TIdle _ => Next (set_ctl COffWake (set_timer (TIdle false) s))
      | _ => Blocked
      end
  | COffWake =>
      match wake_up_queue (waitq s) with
      | None => UB
      | Some (_, q) => Next (set_ctl COffLoop (set_waitq q s))
      end
  | COffLoop => Next (set_ctl (if 0 <? threads_in_module s then COffPoll else COffDestroy) s)
  | COffPoll => Next (set_ctl COffLoop (wake_up_interruptible s))
  | COffDestroy =>
      match destroy_queue (waitq s) with
      | None => UB
      | Some (_, q) => Next (set_ctl (CIdle (Some 0)) (set_waitq q s))
      end
  end.

(** ** The transition system *)

Inductive label :=
| LEnter (i : nat) (nr : Z)
| LThread (i : nat) (c : choice)
| LTimer
| LOn | LOff
| LCtl (alloc_ok : bool)
| LRegister (r : registry).

Definition step (l : label) (s : state) : outcome :=
  match l with
  | LEnter i nr => stub_enter i nr s
  | LThread i c => match threads s !! i with Some th => stub_step i th c s | None => Blocked end
  | LTimer => timer_step s
  | LOn => turn_on_enter s
  | LOff => turn_off_enter s
  | LCtl a => ctl_step a s
  | LRegister r => Next (set_reg r s)
  end.

(** A run of labels; a blocked label leaves the state as it is. *)
Fixpoint run (ls : list label) (s : state) : outcome :=
  match ls with
  | [] => Next s
  | l :: ls =>
      match step l s with
      | Blocked => run ls s
      | UB => UB
      | Next s' => run ls s'
      end
  end.

(** The state [sysThrot_init] sets up before it calls [sysThrot_turn_on], with
    the given threads outside the stub. *)
Definition init_state (max_calls_monitor : Z) (r : registry) (tasks : list task) : state :=
  State false 0 0 0 (s32 max_calls_monitor) queue0 (Monitor [] 0) r
    ((fun t => Thread t 0 (POut None)) <$> tasks) (TIdle false) (CIdle None) (Ghost 0 0 0 0 0 0).
End stub.
