(* ===== verification/CoreProofs.v ===== *)
(** * Invariants of the throttling core

    Safety of every interleaving of [stub], the epoch timer and the
    administrator's calls (see [Core.v]): memory safety of the wait queue, the
    counter of threads in the module, the per-epoch budget, no lost wake-up,
    and termination of [sysThrot_turn_off]. *)

From stdpp Require Import prelude gmap list.
From S2P Require Import Prelude Kernel Store StoreProofs StoreSpec Queue Stats Core.

(** ** [check_if_registered] on the store's heap *)

Lemma check_if_registered_ok F σ sp r t comm uid :
  store_rep F σ sp (reg_users r) (reg_programs r) ->
  heap σ !! comm = Some (OStr (task_comm t)) -> heap σ !! uid = Some (OInt (s32 (task_uid t))) ->
  check_if_registered sp comm uid σ = Some (if is_registered r t then 1 else -1, σ).
Proof.
  intros Hst Hc Hu. unfold check_if_registered, mbind, M_bind.
  rewrite (find_program_ok F σ sp _ _ _ _ Hst Hc).
  unfold is_registered, program_registered, user_registered.
  destruct (decide (task_comm t ∈ reg_programs r)) as [Hp|Hp].
  { by rewrite bool_decide_true. }
  rewrite (bool_decide_false _ Hp). simpl. rewrite (find_user_ok F σ sp _ _ _ _ Hst Hu).
  destruct (decide (s32 (task_uid t) ∈ reg_users r)) as [Hr|Hr].
  - by rewrite bool_decide_true.
  - by rewrite bool_decide_false.
Qed.

(** ** What a program point holds *)

Definition in_module (p : pc) : bool :=
  match p with POut _ | PEntered => false | _ => true end.

Definition is_out (p : pc) : bool := match p with POut _ => true | _ => false end.

(** The queue element the thread may still access. *)
Definition holds (p : pc) : option eid :=
  match p with
  | PEval e _ _ _ _ | PSleep e _ | PWoken e _ _ | PExit e _ _ => Some e
  | _ => None
  end.

Definition held (l : list thread) : list (option eid) := (fun th => holds (th_pc th)) <$> l.

Definition cnt (l : list thread) : Z :=
  sum_z ((fun th => if in_module (th_pc th) then 1 else 0) <$> l).

Definition put (i : nat) (p : pc) (l : list thread) : list thread :=
  alter (fun th => Thread (th_task th) (th_nr th) p) i l.

Lemma lookup_put i j p l : put i p l !! j =
  if decide (i = j) then (fun th => Thread (th_task th) (th_nr th) p) <$> l !! j else l !! j.
Proof.
  unfold put. destruct (decide (i = j)) as [<-|Hne]; [by rewrite list_lookup_alter_eq|].
  by rewrite list_lookup_alter_ne.
Qed.

Lemma held_put i p l : held (put i p l) = alter (fun _ => holds p) i (held l).
Proof. unfold held, put. revert i. induction l as [|th l IH]; intros [|i]; simpl; [done..|]. f_equal. apply IH. Qed.

Lemma cnt_cons th l : cnt (th :: l) = (if in_module (th_pc th) then 1 else 0) + cnt l.
Proof. done. Qed.

Lemma cnt_put i p l th : l !! i = Some th ->
  cnt (put i p l) = cnt l - (if in_module (th_pc th) then 1 else 0) + (if in_module p then 1 else 0).
Proof.
  revert i. induction l as [|th' l IH]; intros [|i] Hi; simplify_eq/=.
  - change (put 0 p (th :: l)) with (Thread (th_task th) (th_nr th) p :: l). rewrite !cnt_cons. simpl. lia.
  - change (put (S i) p (th' :: l)) with (th' :: put i p l). rewrite !cnt_cons, (IH i Hi). lia.
Qed.

Lemma cnt_range l : 0 <= cnt l <= Z.of_nat (length l).
Proof.
  induction l as [|th l IH]; [done|]. rewrite cnt_cons. simpl length.
  destruct (in_module (th_pc th)); lia.
Qed.

Lemma cnt_zero l th : cnt l = 0 -> th ∈ l -> in_module (th_pc th) = false.
Proof.
  induction l as [|th' l IH]; intros Hc Hin; [by apply not_elem_of_nil in Hin|].
  rewrite cnt_cons in Hc. pose proof (cnt_range l).
  apply elem_of_cons in Hin as [->|Hin]; destruct (in_module (th_pc th')) eqn:E; try lia; try done.
  apply IH; [lia|done].
Qed.

(** ** Ownership of queue elements

    [own q hl]: the queue is well formed, and every element that a thread
    may still access is allocated, not marked exited, and that thread's own. *)
Record own (q : queue) (hl : list (option eid)) : Prop := {
  own_wf : queue_wf q;
  own_live i e : hl !! i = Some (Some e) -> live q e;
  own_inj i j e : hl !! i = Some (Some e) -> hl !! j = Some (Some e) -> i = j;
}.

Lemma own_keep q hl i x : own q hl -> hl !! i = Some x -> own q (alter (fun _ => x) i hl).
Proof.
  intros Ho Hi. assert (alter (fun _ => x) i hl = hl) as ->; [|done].
  apply list_eq. intros j. destruct (decide (i = j)) as [<-|Hne].
  - by rewrite list_lookup_alter_eq, Hi.
  - by rewrite list_lookup_alter_ne.
Qed.

Lemma lookup_alter_drop (hl : list (option eid)) i j e :
  alter (fun _ => None) i hl !! j = Some (Some e) -> j <> i /\ hl !! j = Some (Some e).
Proof.
  destruct (decide (i = j)) as [<-|Hne].
  - rewrite list_lookup_alter_eq. by destruct (hl !! i).
  - rewrite list_lookup_alter_ne by done. auto.
Qed.

Lemma own_drop q hl i : own q hl -> own q (alter (fun _ => None) i hl).
Proof.
  intros [Hw Hl Hi]. split; [done| |].
  - intros j e [_ H]%lookup_alter_drop. by eapply Hl.
  - intros j k e [_ H1]%lookup_alter_drop [_ H2]%lookup_alter_drop. by eapply Hi.
Qed.

(** A queue operation that keeps the elements threads hold. *)
Lemma own_queue q q' hl : own q hl -> queue_wf q' ->
  (forall e, live q e -> live q' e) -> own q' hl.
Proof. intros [Hw Hl Hi] Hw' Hk. split; [done| |done]. intros i e He. by eapply Hk, Hl. Qed.

Lemma own_set_exited q hl i e : own q hl -> hl !! i = Some (Some e) ->
  exists q', set_exited_flag e q = Some q' /\ own q' (alter (fun _ => None) i hl) /\
    queue_cache q' = queue_cache q.
Proof.
  intros [Hw Hl Hi] He. destruct (Hl _ _ He) as [w Hd].
  destruct (set_exited_ok e q Hw) as (q' & E & Hw' & Hel & _ & _ & _ & Hc); [by eauto|].
  exists q'. split; [done|]. split; [|done]. split; [done| |].
  - intros j e' [Hj H]%lookup_alter_drop. destruct (Hl _ _ H) as [w' Hd'].
    exists w'. rewrite Hel, decide_False; [done|]. intros ->. by destruct Hj; eapply Hi.
  - intros j k e' [_ H1]%lookup_alter_drop [_ H2]%lookup_alter_drop. by eapply Hi.
Qed.

Lemma own_add q hl i : own q hl -> queue_cache q = true -> hl !! i = Some None ->
  exists q', add_to_queue true true q = Some (AqFlag (next_elem q), q') /\
    own q' (alter (fun _ => Some (next_elem q)) i hl) /\ queue_cache q' = true.
Proof.
  intros [Hw Hl Hi] Hc Hn.
  destruct (add_to_queue_ok q Hw Hc) as (q' & E & Hw' & Hel & Hfresh & _ & _ & Hc').
  exists q'. split; [done|]. split; [|done].
  assert (forall j e, alter (fun _ => Some (next_elem q)) i hl !! j = Some (Some e) ->
    (j = i /\ e = next_elem q) \/ (j <> i /\ hl !! j = Some (Some e) /\ e <> next_elem q)) as Hcase.
  { intros j e. destruct (decide (i = j)) as [<-|Hne].
    - rewrite list_lookup_alter_eq, Hn. simpl. intros [= <-]. auto.
    - rewrite list_lookup_alter_ne by done. intros H. right. split; [done|]. split; [done|].
      intros ->. destruct (Hl _ _ H) as [? ?]. congruence. }
  split; [done| |].
  - intros j e [[-> ->]|(_ & H & Hne)]%Hcase; unfold live; rewrite Hel.
    + exists false. by rewrite lookup_insert_eq.
    + rewrite lookup_insert_ne by done. by eapply Hl.
  - intros j k e [[-> ->]|(? & H1 & ?)]%Hcase [[-> ?]|(? & H2 & ?)]%Hcase; try done. by eapply Hi.
Qed.

(** ** Queue operations seen from the threads

    [flag q e]: the wake-up flag of [e] is set. *)
Definition flag (q : queue) (e : eid) : Prop := exists x, elems q !! e = Some (Elem true x).

(** An operation keeps what threads hold, the cache, and raises no flag. *)
Record quiet_op (q q' : queue) (hl hl' : list (option eid)) : Prop := {
  qo_own : own q' hl';
  qo_cache : queue_cache q' = queue_cache q;
  qo_flag e : flag q' e -> flag q e;
}.

Lemma woken_keeps_live W q q' e : woken_elems W (elems q) (elems q') -> live q e -> live q' e.
Proof. intros Hw [w Hd]. unfold live. rewrite Hw, Hd. case_decide; simpl; eauto. Qed.

Lemma own_unqueue n q hl : own q hl -> exists r q', unqueue n q = Some (r, q') /\
  own q' hl /\ queue_cache q' = queue_cache q /\ 0 <= r <= Z.max n 0.
Proof.
  intros Ho. destruct (unqueue_ok n q (own_wf _ _ Ho)) as (pre & r & q' & E & Hs).
  exists r, q'. split; [done|]. split; [|split; apply Hs]. eapply own_queue; [done|apply Hs|].
  intros e. eapply woken_keeps_live, Hs.
Qed.

Lemma own_wake_up_queue q hl : own q hl -> exists c q', wake_up_queue q = Some (c, q') /\
  own q' hl /\ queue_cache q' = queue_cache q.
Proof.
  intros Ho. destruct (wake_up_queue_ok q (own_wf _ _ Ho)) as (c & q' & E & Hs).
  exists c, q'. split; [done|]. split; [|apply Hs]. eapply own_queue; [done|apply Hs|].
  intros e. eapply woken_keeps_live, Hs.
Qed.

Lemma own_free_junk q hl : own q hl -> exists q', free_junk q = Some q' /\ quiet_op q q' hl hl.
Proof.
  intros Ho. destruct (free_junk_ok q (own_wf _ _ Ho)) as (q' & E & Hs).
  exists q'. split; [done|]. split; [|apply Hs|].
  - eapply own_queue; [done|apply Hs|]. intros e [w Hd]. exists w.
    rewrite (fj_elems _ _ Hs), decide_False; [done|]. intros [_ [w' Hd']]. congruence.
  - intros e [x Hx]. rewrite (fj_elems _ _ Hs) in Hx. case_decide; [done|]. by exists x.
Qed.

Lemma set_exited_flags q q' e e' : set_exited_flag e q = Some q' -> flag q' e' -> flag q e'.
Proof.
  unfold set_exited_flag. destruct (elems q !! e) as [d|] eqn:E; [|done]. simpl.
  intros [= <-] [x Hx]. simpl in Hx. apply lookup_insert_Some in Hx as [[<- Hx]|[_ Hx]]; [|by exists x].
  injection Hx as Hx _. exists (exited d). rewrite E, <-Hx. by destruct d.
Qed.

Lemma add_flags a w q r q' e : add_to_queue a w q = Some (r, q') -> flag q' e -> flag q e.
Proof.
  unfold add_to_queue. destruct (queue_cache q); [|done]. simpl.
  destruct a; simpl; [|by intros [= <- <-]]. destruct w; simpl; intros [= <- <-]; [|done].
  intros [x Hx]. simpl in Hx. apply lookup_insert_Some in Hx as [[_ Hx]|[_ Hx]]; [done|by exists x].
Qed.

(** ** The invariant *)

Definition all_out (l : list thread) : Prop := Forall (fun th => is_out (th_pc th) = true) l.

(** What holds at each point of the administrator's call. *)
Definition ctl_inv (s : state) : Prop :=
  match ctl s with
  | CIdle _ =>
      if working s then queue_cache (waitq s) = true
      else queue_cache (waitq s) = false /\ all_out (threads s) /\ timer s = TIdle false
  | COnInit =>
      working s = false /\ queue_cache (waitq s) = false /\ all_out (threads s) /\ timer s = TIdle false
  | COnSetup | COnArm =>
      working s = false /\ queue_cache (waitq s) = true /\ all_out (threads s) /\ timer s = TIdle false
  | COnWorking => working s = false /\ queue_cache (waitq s) = true /\ all_out (threads s)
  | COffWorking => working s = true /\ queue_cache (waitq s) = true
  | COffTimer => working s = false /\ queue_cache (waitq s) = true
  | COffWake | COffLoop | COffPoll =>
      working s = false /\ queue_cache (waitq s) = true /\ timer s = TIdle false
  | COffDestroy =>
      working s = false /\ queue_cache (waitq s) = true /\ timer s = TIdle false /\ all_out (threads s)
  end.

(** A wake-up that will reach every sleeper is still to come. *)
Definition wake_pending (s : state) : Prop :=
  (exists n, timer s = TWake n) \/ ctl s = COffLoop \/ ctl s = COffPoll.

Record inv (s : state) : Prop := {
  iv_own : own (waitq s) (held (threads s));
  iv_small : Z.of_nat (length (threads s)) < 2 ^ 31;
  iv_count : threads_in_module s = cnt (threads s);
  iv_ctl : ctl_inv s;
  iv_wake i th e c : threads s !! i = Some th -> th_pc th = PSleep e c -> flag (waitq s) e -> wake_pending s;
}.

(** No thread sits between the test of [working] and the increment of
    [threads_in_module] when the controller goes on to destroy the queue. *)
Definition quiet (s : state) : Prop :=
  ctl s = COffDestroy -> Forall (fun th => th_pc th <> PEntered) (threads s).

Lemma all_out_not l i th : all_out l -> l !! i = Some th -> is_out (th_pc th) = false -> False.
Proof.
  intros Ho Hi Hn. pose proof (proj1 (Forall_lookup _ _) Ho i th Hi) as H. simpl in H. congruence.
Qed.

(** A thread outside [POut] moves to [p']; the counter follows. *)
Lemma inv_move s s' i th p' : inv s -> threads s !! i = Some th -> is_out (th_pc th) = false ->
  threads s' = put i p' (threads s) ->
  own (waitq s') (alter (fun _ => holds p') i (held (threads s))) ->
  threads_in_module s' =
    s32 (threads_in_module s - (if in_module (th_pc th) then 1 else 0) + (if in_module p' then 1 else 0)) ->
  working s' = working s -> timer s' = timer s -> ctl s' = ctl s ->
  queue_cache (waitq s') = queue_cache (waitq s) ->
  (forall e, flag (waitq s') e -> flag (waitq s) e) ->
  (forall e c, p' = PSleep e c -> ~ flag (waitq s') e) -> inv s'.
Proof.
  intros [Ho Hs Hc Hctl Hw] Hi Hnout Ht Hown Hcount Hwk Htm Hct Hqc Hfl Hsl.
  pose proof (cnt_put i p' _ _ Hi) as Hcp. pose proof (cnt_range (put i p' (threads s))) as Hr.
  assert (length (put i p' (threads s)) = length (threads s)) as Hlen by apply length_alter.
  split; rewrite ?Ht.
  - by rewrite held_put.
  - by rewrite Hlen.
  - rewrite Hcount, Hc, <-Hcp. apply s32_id. lia.
  - unfold ctl_inv in *. rewrite Hct, Hwk, Htm, Hqc.
    destruct (ctl s); try done; try (exfalso; by eapply all_out_not; [apply Hctl|done..]).
    destruct (working s); [done|]. exfalso. by eapply all_out_not; [apply Hctl|done..].
  - intros j th' e c. rewrite lookup_put. intros Hj Hp Hf.
    assert (wake_pending s -> wake_pending s') as Hmono by (unfold wake_pending; by rewrite Htm, Hct).
    case_decide as Hij.
    + subst j. rewrite Hi in Hj. simpl in Hj. injection Hj as <-. simpl in Hp. by destruct (Hsl e c Hp).
    + apply Hmono. eapply Hw; [done..|]. by apply Hfl.
Qed.

Lemma held_lookup (l : list thread) i th : l !! i = Some th -> held l !! i = Some (holds (th_pc th)).
Proof. intros Hi. unfold held. by rewrite list_lookup_fmap, Hi. Qed.

(** A step inside the module that leaves the queue alone, and keeps or gives
    up the thread's element. *)
Lemma inv_local s s' i th p' : inv s -> threads s !! i = Some th ->
  threads s' = put i p' (threads s) -> waitq s' = waitq s ->
  in_module (th_pc th) = true -> in_module p' = true ->
  holds p' = holds (th_pc th) \/ holds p' = None ->
  threads_in_module s' = threads_in_module s ->
  working s' = working s -> timer s' = timer s -> ctl s' = ctl s ->
  (forall e c, p' = PSleep e c -> ~ flag (waitq s) e) -> inv s'.
Proof.
  intros Hinv Hi Ht Hq Hm Hm' Hh Hc Hwk Htm Hct Hsl.
  pose proof (held_lookup _ _ _ Hi) as Hhl. pose proof (iv_own _ Hinv) as Ho.
  assert (is_out (th_pc th) = false) as Hno by (clear -Hm; by destruct (th_pc th)).
  eapply (inv_move s s' i th p'); rewrite ?Hq; try done.
  - destruct Hh as [->| ->]; [by apply own_keep|by apply own_drop].
  - rewrite Hm, Hm', Hc. pose proof (iv_small _ Hinv). rewrite (iv_count _ Hinv).
    pose proof (cnt_range (threads s)). rewrite s32_id; lia.
Qed.

(** The element a thread holds is allocated. *)
Lemma held_elem s i th e : inv s -> threads s !! i = Some th -> holds (th_pc th) = Some e ->
  exists w, elems (waitq s) !! e = Some (Elem w false).
Proof.
  intros Hinv Hi He. eapply (own_live _ _ (iv_own _ Hinv) i). by rewrite (held_lookup _ _ _ Hi), He.
Qed.

(** The cache exists while a thread is in the stub. *)
Lemma cache_in_use s i th : inv s -> threads s !! i = Some th -> is_out (th_pc th) = false ->
  queue_cache (waitq s) = true.
Proof.
  intros Hinv Hi Hn. pose proof (iv_ctl _ Hinv) as Hc. unfold ctl_inv in Hc.
  destruct (ctl s); try (by destruct Hc as (? & ? & ?)); try (by destruct Hc).
  - destruct (working s); [done|]. destruct Hc as (_ & Ho & _). by destruct (all_out_not _ _ _ Ho Hi Hn).
  - destruct Hc as (_ & _ & Ho & _). by destruct (all_out_not _ _ _ Ho Hi Hn).
Qed.

Lemma inv_add_to_queue sup i th c clk s : inv s -> threads s !! i = Some th -> th_pc th = PNoToken clk ->
  exists s', stub_step sup i th c s = Next s' /\ inv s'.
Proof.
  intros Hinv Hi Hp. pose proof (cache_in_use _ _ _ Hinv Hi ltac:(by rewrite Hp)) as Hca.
  pose proof (held_lookup _ _ _ Hi) as Hh. rewrite Hp in Hh.
  pose proof (iv_small _ Hinv). pose proof (cnt_range (threads s)). pose proof (iv_count _ Hinv) as Hcnt.
  unfold stub_step. rewrite Hp. destruct (ch_alloc c) eqn:Ea.
  - destruct (working s) eqn:Hw.
    + destruct (own_add _ _ i (iv_own _ Hinv) Hca Hh) as (q' & E & Ho & Hc').
      rewrite E. eexists. split; [done|].
      eapply (inv_move s _ i th); rewrite ?Hp; try done.
      * simpl. rewrite s32_id; lia.
      * by rewrite Hca.
      * intros e. by eapply add_flags.
    + assert (add_to_queue true false (waitq s) = Some (AqOne, Queue (elems (waitq s)) (Pos.succ (next_elem (waitq s)))
        (global_queue (waitq s)) (junk_list (waitq s)) (current_in_queue (waitq s)) (queue_cache (waitq s)))) as E.
      { unfold add_to_queue. by rewrite Hca. }
      rewrite E. eexists. split; [done|]. eapply (inv_move s _ i th); rewrite ?Hp; try done.
      * apply own_keep; [|done]. eapply own_queue; [apply Hinv|apply queue_wf_next, (own_wf _ _ (iv_own _ Hinv))|done].
      * simpl. rewrite s32_id; lia.
  - assert (forall w, add_to_queue false w (waitq s) = Some (AqNull, waitq s)) as E.
    { intros w. unfold add_to_queue. by rewrite Hca. }
    rewrite E. eexists. split; [done|]. eapply (inv_local s _ i th); rewrite ?Hp; try done. by left.
Qed.

(** Every step of a thread is defined and keeps the invariant. *)
Lemma inv_stub sup i th c s : inv s -> threads s !! i = Some th ->
  match stub_step sup i th c s with Blocked => True | UB => False | Next s' => inv s' end.
Proof.
  intros Hinv Hi. destruct (th_pc th) as [r| | | | |clk|e clk fast wk []|e clk|e clk r|e clk r|clk r| |d|r] eqn:Hp.
  6: { destruct (inv_add_to_queue sup i th c clk s Hinv Hi Hp) as (s' & -> & ?). done. }
  all: unfold stub_step; rewrite Hp; try done.
  - eapply (inv_move s _ i th); rewrite ?Hp; try done.
    + apply own_keep; [apply Hinv|]. rewrite (held_lookup _ _ _ Hi). by rewrite Hp.
    + simpl. f_equal. lia.
  - destruct (program_registered _ _); eapply (inv_local s _ i th); rewrite ?Hp; try done; by left.
  - destruct (user_registered _ _); eapply (inv_local s _ i th); rewrite ?Hp; try done; by left.
  - destruct (_ <=? _); eapply (inv_local s _ i th); rewrite ?Hp; try done; by left.
  - eapply (inv_local s _ i th); rewrite ?Hp; try done; by left.
  - destruct (working s) eqn:Hw; eapply (inv_local s _ i th); rewrite ?Hp; try done; by left.
  - destruct (held_elem s i th e Hinv Hi) as [w Hd]; [by rewrite Hp|]. rewrite Hd. simpl.
    eapply (inv_local s _ i th); rewrite ?Hp; try done; destruct w, fast, (ch_signal c), wk; simpl; try done; try by left.
    intros e' c' [= <- <-] [x Hx]. congruence.
  - destruct (ch_signal c); [|done]. eapply (inv_local s _ i th); rewrite ?Hp; try done; by left.
  - destruct (working s) eqn:Hw; eapply (inv_local s _ i th); rewrite ?Hp; try done; [by left|by right].
  - pose proof (held_lookup _ _ _ Hi) as Hh. rewrite Hp in Hh.
    destruct (own_set_exited _ _ _ _ (iv_own _ Hinv) Hh) as (q' & E & Ho & Hc). rewrite E.
    pose proof (iv_small _ Hinv). pose proof (cnt_range (threads s)). pose proof (iv_count _ Hinv) as Hcnt.
    eapply (inv_move s _ i th); rewrite ?Hp; try done.
    + simpl. rewrite s32_id; lia.
    + intros e'. by eapply set_exited_flags.
  - destruct (_ =? _); eapply (inv_local s _ i th); rewrite ?Hp; try done; by left.
  - eapply (inv_local s _ i th); rewrite ?Hp; try done; by left.
  - eapply (inv_local s _ i th); rewrite ?Hp; try done; by left.
  - eapply (inv_move s _ i th); rewrite ?Hp; try done.
    + apply own_keep; [apply Hinv|]. rewrite (held_lookup _ _ _ Hi). by rewrite Hp.
    + simpl. f_equal. lia.
Qed.

(** ** Entering the stub, waking, the timer, the administrator *)

(** Threads replaced by threads that hold the same elements and are in the
    module exactly when they were. *)
Lemma held_ext l l' : length l = length l' ->
  (forall i th th', l !! i = Some th -> l' !! i = Some th' -> holds (th_pc th') = holds (th_pc th)) ->
  held l' = held l.
Proof.
  revert l'. induction l as [|th l IH]; intros [|th' l'] Hl Hh; simplify_eq/=; [done|].
  rewrite (Hh 0%nat th th') by done. f_equal. apply IH; [done|]. intros i a b. apply (Hh (S i)).
Qed.

Lemma inv_enter i nr s : inv s ->
  match stub_enter i nr s with Blocked => True | UB => False | Next s' => inv s' end.
Proof.
  intros Hinv. unfold stub_enter. destruct (threads s !! i) as [[t nr0 p]|] eqn:Hi; [|done].
  destruct p as [r| | | | | | | | | | | | |]; try done. destruct Hinv as [Ho Hs Hc Hctl Hw].
  set (p := if working s then PEntered else POut (Some 0)).
  assert (held (<[i:=Thread t nr p]> (threads s)) = held (threads s)) as Hh.
  { unfold held. rewrite list_fmap_insert. apply list_insert_id.
    rewrite list_lookup_fmap, Hi. unfold p. by destruct (working s). }
  assert (cnt (<[i:=Thread t nr p]> (threads s)) = cnt (threads s)) as Hcn.
  { unfold cnt. rewrite list_fmap_insert. f_equal. apply list_insert_id.
    rewrite list_lookup_fmap, Hi. unfold p. by destruct (working s). }
  split; simpl; rewrite ?length_insert, ?Hh, ?Hcn; try done.
  - assert (working s = false -> all_out (threads s) -> all_out (<[i:=Thread t nr p]> (threads s))) as Hall.
    { intros Hwf Ha. apply Forall_insert; [done|]. unfold p. by rewrite Hwf. }
    clear Hw. clearbody p. unfold ctl_inv in *. simpl. destruct (working s), (ctl s); intuition congruence.
  - intros j th' e c [(<- & <- & _)|[_ Hj]]%list_lookup_insert_Some.
    + unfold p. simpl. by destruct (working s).
    + by eapply Hw.
Qed.

Lemma holds_wake p : holds (wake_pc p) = holds p.
Proof. by destruct p. Qed.

Lemma in_module_wake p : in_module (wake_pc p) = in_module p.
Proof. by destruct p. Qed.

Lemma is_out_wake p : is_out (wake_pc p) = is_out p.
Proof. by destruct p. Qed.

(** After a wake-up nobody sleeps, and nothing else changed. *)
Lemma inv_wakeup s t c : inv s ->
  (ctl_inv s -> ctl_inv (set_timer t (set_ctl c s))) ->
  inv (set_timer t (set_ctl c (wake_up_interruptible s))).
Proof.
  intros [Ho Hs Hc Hctl Hw] Hk. unfold wake_up_interruptible. split; simpl.
  - assert (held ((fun th => Thread (th_task th) (th_nr th) (wake_pc (th_pc th))) <$> threads s) = held (threads s)) as ->;
      [|done]. unfold held. rewrite <-list_fmap_compose. apply list_fmap_ext. intros j th _. apply holds_wake.
  - by rewrite length_fmap.
  - rewrite Hc. unfold cnt. f_equal. rewrite <-list_fmap_compose. apply list_fmap_ext.
    intros j th _. simpl. by rewrite in_module_wake.
  - specialize (Hk Hctl).
    assert (all_out (threads s) -> all_out ((fun th => Thread (th_task th) (th_nr th) (wake_pc (th_pc th))) <$> threads s)) as Hall.
    { intros Ha. apply Forall_fmap. eapply Forall_impl; [done|]. intros th. simpl. by rewrite is_out_wake. }
    unfold ctl_inv in *. simpl in *. destruct (working s), c; intuition congruence.
  - intros i th e cl. rewrite list_lookup_fmap. intros (th0 & _ & ->)%fmap_Some. simpl. by destruct (th_pc th0).
Qed.

(** Steps that change neither threads nor flags. *)
Lemma inv_same s s' : inv s -> threads s' = threads s -> waitq s' = waitq s ->
  threads_in_module s' = threads_in_module s -> (ctl_inv s -> ctl_inv s') ->
  (wake_pending s -> wake_pending s') -> inv s'.
Proof.
  intros [Ho Hs Hc Hctl Hw] Ht Hq Hm Hk Hp.
  split; rewrite ?Ht, ?Hq, ?Hm; auto. intros i th e c Hi Hpc Hf. by eapply Hp, Hw.
Qed.

(** Steps that change the queue only. *)
Lemma inv_queue s s' : inv s -> own (waitq s') (held (threads s)) -> threads s' = threads s ->
  threads_in_module s' = threads_in_module s -> (ctl_inv s -> ctl_inv s') ->
  (forall e, flag (waitq s') e -> wake_pending s' \/ (flag (waitq s) e /\ (wake_pending s -> wake_pending s'))) ->
  inv s'.
Proof.
  intros [Ho Hs Hc Hctl Hw] Hown Ht Hm Hk Hf. split; rewrite ?Ht, ?Hm; auto.
  intros i th e c Hi Hpc Hfl. destruct (Hf e Hfl) as [?|[? Hp]]; [done|]. by eapply Hp, Hw.
Qed.

(** A callback that runs is never one [timer_shutdown_sync] has waited for. *)
Lemma ctl_inv_timer s t q : ctl_inv s -> timer s <> TIdle false -> queue_cache q = queue_cache (waitq s) ->
  ctl_inv (set_timer t (set_waitq q s)).
Proof.
  intros Hc Ht Hq. unfold ctl_inv in *. simpl. rewrite Hq.
  destruct (working s), (ctl s); intuition congruence.
Qed.

(** A step of the callback that touches neither the queue nor the threads. *)
Lemma inv_timer_tick s s' : inv s -> timer s <> TIdle false -> (forall n, timer s <> TWake n) ->
  threads s' = threads s -> waitq s' = waitq s -> threads_in_module s' = threads_in_module s ->
  ctl s' = ctl s -> working s' = working s -> inv s'.
Proof.
  intros Hinv Ht Hw Hth Hq Hm Hc Hwk. apply (inv_same s); try done.
  - intros H. unfold ctl_inv in *. rewrite Hc, Hwk, Hth, Hq.
    destruct (working s), (ctl s); intuition congruence.
  - unfold wake_pending. rewrite Hc. intros [[n Hn]|H]; [by destruct (Hw n)|by right].
Qed.

Lemma inv_timer s : inv s ->
  match timer_step s with Blocked => True | UB => False | Next s' => inv s' end.
Proof.
  intros Hinv. unfold timer_step. pose proof (iv_ctl _ Hinv) as Hctl.
  destruct (timer s) as [[]| |n|n|n|n| |a] eqn:Ht;
    try done; try (apply (inv_timer_tick s); by rewrite ?Ht).
  - destruct (own_unqueue (max_syscalls_for_epoch s) _ _ (iv_own _ Hinv)) as (r & q' & -> & Ho & Hca & _).
    eapply inv_queue; try done; [intros _|].
    + eapply (ctl_inv_timer s _ q'); by rewrite ?Ht.
    + intros e _. left. left. by eexists.
  - apply (inv_wakeup s (TStats n) (ctl s)); [done|]. intros _.
    eapply (ctl_inv_timer s _ (waitq s)); by rewrite ?Ht.
  - destruct (own_free_junk _ _ (iv_own _ Hinv)) as (q' & -> & [Ho Hca Hf]).
    eapply inv_queue; try done; [intros _|].
    + eapply (ctl_inv_timer s _ q'); by rewrite ?Ht.
    + intros e He. right. split; [by apply Hf|]. intros [[n Hn]|H]; [congruence|by right].
Qed.

(** Without a thread in the module and between its first two steps, every
    thread is outside. *)
Lemma drained s : inv s -> threads_in_module s <= 0 ->
  Forall (fun th => th_pc th <> PEntered) (threads s) -> all_out (threads s).
Proof.
  intros Hinv Hc Hq. rewrite (iv_count _ Hinv) in Hc. pose proof (cnt_range (threads s)).
  apply Forall_forall. intros th Hth. pose proof (cnt_zero (threads s) th ltac:(lia) Hth) as Hm.
  pose proof (proj1 (Forall_forall _ _) Hq th Hth) as He. simpl in He.
  destruct (th_pc th); done.
Qed.

(** A sleeper keeps [turn_off] in its polling loop. *)
Lemma sleeper_counted s i th e c : inv s -> threads s !! i = Some th -> th_pc th = PSleep e c ->
  0 < threads_in_module s.
Proof.
  intros Hinv Hi Hp. rewrite (iv_count _ Hinv). pose proof (cnt_range (threads s)).
  destruct (decide (cnt (threads s) = 0)) as [Hz|]; [|lia].
  pose proof (cnt_zero (threads s) th Hz ltac:(by eapply list_elem_of_lookup_2)) as Hm. by rewrite Hp in Hm.
Qed.

Lemma inv_ctl a s : inv s -> (a = false -> ctl s <> COnInit) ->
  match ctl_step a s with Blocked => True | UB => False | Next s' => quiet s' -> inv s' end.
Proof.
  intros Hinv Ha. unfold ctl_step. pose proof (iv_ctl _ Hinv) as Hctl. unfold ctl_inv in Hctl.
  destruct (ctl s) eqn:Hc; try done.
  - destruct a; [|by destruct Ha]. intros _. destruct Hctl as (Hw & Hq & Hall & Ht).
    eapply inv_queue; try done.
    + eapply own_queue; [apply Hinv|apply queue_wf_cache, (own_wf _ _ (iv_own _ Hinv))|done].
    + intros e Hf. right. split; [done|]. unfold wake_pending. simpl. rewrite Ht, Hc. naive_solver.
  - intros _. destruct Hctl as (Hw & Hq & Hall & Ht). apply (inv_same s); try done.
    unfold wake_pending. simpl. rewrite Ht, Hc. naive_solver.
  - destruct Hctl as (Hw & Hq & Hall & Ht). rewrite Ht. intros _. apply (inv_same s); try done.
    unfold wake_pending. simpl. rewrite Ht, Hc. naive_solver.
  - intros _. destruct Hctl as (Hw & Hq & Hall). apply (inv_same s); try done.
    unfold wake_pending. simpl. rewrite Hc. naive_solver.
  - intros _. destruct Hctl as (Hw & Hq). apply (inv_same s); try done.
    unfold wake_pending. simpl. rewrite Hc. naive_solver.
  - destruct (timer s) eqn:Ht; try done. intros _. destruct Hctl as (Hw & Hq). apply (inv_same s); try done.
    unfold wake_pending. simpl. rewrite Ht, Hc. naive_solver.
  - destruct (own_wake_up_queue _ _ (iv_own _ Hinv)) as (c & q' & -> & Ho & Hca). intros _.
    destruct Hctl as (Hw & Hq & Ht). eapply inv_queue; try done.
    + intros _. unfold ctl_inv. simpl. by rewrite Hca.
    + intros e _. left. right. by left.
  - destruct Hctl as (Hw & Hq & Ht). destruct (0 <? threads_in_module s) eqn:E; zbool; intros Hquiet.
    + apply (inv_same s); try done. unfold wake_pending. simpl. auto.
    + destruct Hinv as [Ho Hs Hcn Hct Hwk] eqn:Hi. clear Hi.
      pose proof (drained s ltac:(by split) E (Hquiet eq_refl)) as Hall.
      split; try done. intros i th e cl Hi Hp.
      exfalso. eapply (all_out_not _ _ _ Hall Hi). by rewrite Hp.
  - intros _. destruct Hctl as (Hw & Hq & Ht).
    assert (forall x, timer x = timer s -> set_timer (timer s) x = x) as Hid by (intros x Hx; rewrite <-Hx; by destruct x).
    rewrite <-(Hid (set_ctl COffLoop _)) by done. apply inv_wakeup; done.
  - destruct (own_free_junk _ _ (iv_own _ Hinv)) as (q' & E & [Ho Hca Hf]).
    unfold destroy_queue. rewrite E. simpl. intros _. destruct Hctl as (Hw & Hq & Ht & Hall).
    eapply inv_queue; try done.
    + eapply own_queue; [done|apply queue_wf_cache, (own_wf _ _ Ho)|done].
    + intros _. unfold ctl_inv. simpl. by rewrite Hw.
    + intros e He. right. split; [by apply Hf|]. unfold wake_pending. rewrite Ht, Hc. naive_solver.
Qed.

(** ** Reachable states

    [reach g s0 s]: [s] is reached from [s0] by steps that satisfy [g]. *)
Inductive reach (sup : Z) (g : label -> state -> state -> Prop) (s0 : state) : state -> Prop :=
| reach_refl : reach sup g s0 s0
| reach_step l s s' : reach sup g s0 s -> step sup l s = Next s' -> g l s s' -> reach sup g s0 s'.

(** Any step at all. *)
Definition anything (l : label) (s s' : state) : Prop := True.

(** The slab cache is created when throttling is turned on, and the
    administrator's call does not overtake a thread that has tested [working]
    but is not yet counted. *)
Definition orderly (l : label) (s s' : state) : Prop :=
  quiet s' /\ (l = LCtl false -> ctl s <> COnInit).

Lemma cnt_all_out l : all_out l -> cnt l = 0.
Proof.
  induction 1 as [|th l Hth _ IH]; [done|]. rewrite cnt_cons, IH. by destruct (th_pc th).
Qed.

Lemma inv_init m r tasks : Z.of_nat (length tasks) < 2 ^ 31 -> inv (init_state m r tasks).
Proof.
  intros Hl. assert (all_out (threads (init_state m r tasks))) as Hall.
  { apply Forall_fmap, Forall_forall. done. }
  assert (forall i th, threads (init_state m r tasks) !! i = Some th -> th_pc th = POut None) as Hpc.
  { intros i th. simpl. rewrite list_lookup_fmap. by intros (t & _ & ->)%fmap_Some. }
  split; simpl; try done.
  - split; [apply queue0_wf| |]; intros i; unfold held; setoid_rewrite list_lookup_fmap;
      destruct (_ !! i) as [th|] eqn:E; simpl; try done; rewrite (Hpc i th E); done.
  - by rewrite length_fmap.
  - symmetry. by apply cnt_all_out.
  - intros i th e c Hi. by rewrite (Hpc i th Hi).
Qed.

Lemma inv_step sup l s s' : inv s -> step sup l s = Next s' -> orderly l s s' -> inv s'.
Proof.
  intros Hinv Hs [Hq Ha]. destruct l as [i nr|i c| | | |a|r]; simpl in Hs.
  - pose proof (inv_enter i nr s Hinv) as H. by rewrite Hs in H.
  - destruct (threads s !! i) as [th|] eqn:Hi; [|done].
    pose proof (inv_stub sup i th c s Hinv Hi) as H. by rewrite Hs in H.
  - pose proof (inv_timer s Hinv) as H. by rewrite Hs in H.
  - unfold turn_on_enter in Hs. pose proof (iv_ctl _ Hinv) as Hc. unfold ctl_inv in Hc.
    destruct (ctl s) eqn:Ec; try done. injection Hs as <-. apply (inv_same s); try done.
    + intros _. unfold ctl_inv. simpl. destruct (working s) eqn:Hw; simpl; rewrite ?Hw; intuition.
    + unfold wake_pending. rewrite Ec. naive_solver.
  - unfold turn_off_enter in Hs. pose proof (iv_ctl _ Hinv) as Hc. unfold ctl_inv in Hc.
    destruct (ctl s) eqn:Ec; try done. injection Hs as <-. apply (inv_same s); try done.
    + intros _. unfold ctl_inv. simpl. destruct (working s) eqn:Hw; simpl; rewrite ?Hw; intuition.
    + unfold wake_pending. rewrite Ec. naive_solver.
  - pose proof (inv_ctl a s Hinv ltac:(intros ->; auto)) as H. rewrite Hs in H. by apply H.
  - injection Hs as <-. by apply (inv_same s).
Qed.

Lemma reach_inv sup s0 s : inv s0 -> reach sup orderly s0 s -> inv s.
Proof. intros H0. induction 1 as [|l s s' Hr IH Hs Ho]; [done|]. by eapply inv_step. Qed.

Lemma inv_no_ub sup l s : inv s -> step sup l s <> UB.
Proof.
  intros Hinv. destruct l as [i nr|i c| | | |a|r]; simpl.
  - pose proof (inv_enter i nr s Hinv). by destruct (stub_enter i nr s).
  - destruct (threads s !! i) as [th|] eqn:Hi; [|done].
    pose proof (inv_stub sup i th c s Hinv Hi). by destruct (stub_step sup i th c s).
  - pose proof (inv_timer s Hinv). by destruct (timer_step s).
  - unfold turn_on_enter. by destruct (ctl s).
  - unfold turn_off_enter. by destruct (ctl s).
  - assert (ctl s = COnInit \/ ctl s <> COnInit) as [Hc|Hc] by (destruct (ctl s); auto).
    + unfold ctl_step. by rewrite Hc.
    + pose proof (inv_ctl a s Hinv ltac:(done)). by destruct (ctl_step a s).
  - done.
Qed.

(** ** The budget of an epoch *)

Lemma unqueue_loop_bound todo : forall missing q missing' q',
  unqueue_loop todo missing q = Some (missing', q') -> Z.min missing 0 <= missing' <= missing.
Proof.
  induction todo as [|e todo IH]; intros missing q missing' q'; simpl.
  { intros [= <- <-]. lia. }
  destruct (elems q !! e) as [d|]; [|done]. simpl. destruct (exited d); [apply IH|].
  destruct (missing <=? 0) eqn:E; zbool; [intros [= <- <-]; lia|].
  destruct (set_wake e q); [|done]. simpl. intros ?%IH. lia.
Qed.

Lemma unqueue_bound n q r q' : unqueue n q = Some (r, q') -> 0 <= r <= Z.max n 0.
Proof.
  unfold unqueue. destruct (unqueue_loop _ n q) as [[missing q1]|] eqn:E; [|done]. simpl.
  intros [= <- <-]. apply unqueue_loop_bound in E. lia.
Qed.

Lemma set_wake_woken e q q' : set_wake e q = Some q' -> woken_set q' ⊆ {[e]} ∪ woken_set q.
Proof.
  unfold set_wake. destruct (elems q !! e) as [d|]; [|done]. intros [= <-]. unfold woken_set. simpl. intros x.
  rewrite elem_of_union, elem_of_singleton, !elem_of_dom. intros [y [Hy Hw]%map_lookup_filter_Some].
  destruct (decide (x = e)) as [->|Hne]; [by left|right]. rewrite lookup_insert_ne in Hy by done. exists y.
  by apply map_lookup_filter_Some.
Qed.

(** The loop sets at most as many flags as it counts. *)
Lemma unqueue_loop_woken todo : forall missing q missing' q', unqueue_loop todo missing q = Some (missing', q') ->
  exists X : gset eid, woken_set q' ⊆ X ∪ woken_set q /\ Z.of_nat (size X) <= missing - missing'.
Proof.
  induction todo as [|e todo IH]; intros missing q missing' q'; simpl.
  { intros [= <- <-]. exists ∅. rewrite size_empty. split; [set_solver|lia]. }
  destruct (elems q !! e) as [d|]; [|done]. simpl. destruct (exited d); [intros H; by destruct (IH _ _ _ _ H) as (X & ? & ?); exists X|].
  destruct (missing <=? 0) eqn:E; zbool; [intros [= <- <-]; exists ∅; rewrite size_empty; split; [set_solver|lia]|].
  destruct (set_wake e q) as [q1|] eqn:E1; [|done]. simpl. intros H. destruct (IH _ _ _ _ H) as (X & HX & Hs).
  apply set_wake_woken in E1. exists ({[e]} ∪ X). change (woken_set (move_to_junk e q1)) with (woken_set q1) in HX.
  split; [set_solver|]. pose proof (size_union_alt {[e]} X) as Hu. rewrite size_singleton in Hu.
  pose proof (subseteq_size (X ∖ {[e]}) X ltac:(set_solver)). lia.
Qed.

Lemma unqueue_woken n q r q' : unqueue n q = Some (r, q') -> 0 <= newly_woken q q' <= r.
Proof.
  unfold unqueue, newly_woken. destruct (unqueue_loop _ n q) as [[missing q1]|] eqn:E; [|done]. simpl. intros [= <- <-].
  destruct (unqueue_loop_woken _ _ _ _ _ E) as (X & HX & Hs). unfold set_current, woken_set in *. simpl.
  pose proof (subseteq_size (dom (filter (fun x => wake_up_flag x.2 = true) (elems q1)) ∖
    dom (filter (fun x => wake_up_flag x.2 = true) (elems q))) X ltac:(set_solver)). lia.
Qed.

(** The tokens of the current epoch after its waiters were served. *)
Definition g_tokens (g : ghost) : Z := g_quota g - g_served g.

Record budget (s : state) : Prop := {
  bg_max : - 2 ^ 31 <= max_syscalls_for_epoch s < 2 ^ 31;
  bg_served : 0 <= g_served (gh s) <= Z.max 0 (g_quota (gh s));
  bg_woken : 0 <= g_woken (gh s) <= g_served (gh s);
  bg_quota : - 2 ^ 31 <= g_quota (gh s) < 2 ^ 31;
  bg_decs : 0 <= g_decs (gh s);
  bg_tokens : current_epoch_tokens s = s32 (g_tokens (gh s) - g_decs (gh s));
  bg_granted : g_decs (gh s) <= 2 ^ 31 + g_tokens (gh s) ->
    g_granted (gh s) = Z.min (g_decs (gh s)) (Z.max 0 (g_tokens (gh s)));
  bg_timer n : timer s = TWake n \/ timer s = TStats n \/ timer s = TEpoch n \/ timer s = TSet n ->
    0 <= max_syscalls_for_epoch s - n <= Z.max 0 (max_syscalls_for_epoch s) /\
    0 <= g_next (gh s) <= max_syscalls_for_epoch s - n;
}.

(** Steps that touch neither tokens nor timer. *)
Lemma budget_same s s' : budget s -> max_syscalls_for_epoch s' = max_syscalls_for_epoch s ->
  current_epoch_tokens s' = current_epoch_tokens s -> gh s' = gh s ->
  (forall n, timer s' = TWake n \/ timer s' = TStats n \/ timer s' = TEpoch n \/ timer s' = TSet n ->
     timer s = TWake n \/ timer s = TStats n \/ timer s = TEpoch n \/ timer s = TSet n) -> budget s'.
Proof. intros [] Hm Ht Hg Hn. split; rewrite ?Hm, ?Ht, ?Hg; auto. Qed.

Lemma budget_take s i p b : budget s ->
  (b = true <-> 0 <= s32 (current_epoch_tokens s - 1)) ->
  budget (set_pc i p (set_tokens (current_epoch_tokens s - 1)
    (Ghost (g_quota (gh s)) (g_served (gh s)) (g_woken (gh s)) (g_granted (gh s) + Z.b2z b) (g_decs (gh s) + 1) (g_next (gh s))) s)).
Proof.
  intros [Hm Hsv Hw Hq Hd Ht Hg Hn] Hb. pose proof (s32_s32_add (g_tokens (gh s) - g_decs (gh s)) (-1)) as Hadd.
  rewrite <-Ht in Hadd. unfold g_tokens in *. split; simpl; try done.
  - lia.
  - unfold g_tokens. simpl. change (current_epoch_tokens s - 1) with (current_epoch_tokens s + -1).
    rewrite Hadd. f_equal. lia.
  - unfold g_tokens. simpl. intros Hle. rewrite Hg by lia.
    change (current_epoch_tokens s - 1) with (current_epoch_tokens s + -1) in Hb. rewrite Hadd in Hb.
    rewrite s32_id in Hb by lia.
    destruct b; simpl; [assert (0 <= g_quota (gh s) - g_served (gh s) - g_decs (gh s) + -1) by tauto; lia|].
    assert (~ 0 <= g_quota (gh s) - g_served (gh s) - g_decs (gh s) + -1) by (intros H; apply Hb in H; done). lia.
Qed.

Lemma budget_stub sup i th c s s' : budget s -> stub_step sup i th c s = Next s' -> budget s'.
Proof.
  intros Hb. unfold stub_step.
  destruct (th_pc th) as [r| | | | |clk|e clk fast wk []|e clk|e clk r|e clk r|clk r| |d|r]; try done;
    try (intros [= <-]; by apply (budget_same s)).
  - destruct (0 <=? s32 (current_epoch_tokens s - 1)) eqn:E; zbool; intros [= <-].
    + apply (budget_take s i (PDec 0) true Hb). done.
    + rewrite <-(Z.add_0_r (g_granted (gh s))).
      apply (budget_take s i (PNoToken (ch_now c)) false Hb). split; [done|lia].
  - destruct (add_to_queue _ _ _) as [[[] q]|]; try done; intros [= <-]; by apply (budget_same s).
  - destruct (elems _ !! e); [|done]. intros [= <-]. by apply (budget_same s).
  - destruct (ch_signal c); [|done]. intros [= <-]. by apply (budget_same s).
  - destruct (set_exited_flag _ _); [|done]. intros [= <-]. by apply (budget_same s).
Qed.

Lemma budget_timer s s' : budget s -> timer_step s = Next s' -> budget s'.
Proof.
  intros Hb. unfold timer_step. destruct (timer s) as [[]| |n|n|n|n| |a] eqn:Ht; try done.
  - intros [= <-]. apply (budget_same s); try done. simpl. naive_solver.
  - destruct (unqueue _ _) as [[r q]|] eqn:E; [|done]. intros [= <-]. pose proof (unqueue_woken _ _ _ _ E). apply unqueue_bound in E.
    destruct Hb. split; simpl; try done. intros n [[= <-]|Hn]; [|naive_solver].
    rewrite s32_id; lia.
  - intros [= <-]. apply (budget_same s); try done. simpl. rewrite Ht. naive_solver.
  - intros [= <-]. apply (budget_same s); try done. simpl. rewrite Ht. naive_solver.
  - intros [= <-]. apply (budget_same s); try done. simpl. rewrite Ht. naive_solver.
  - intros [= <-]. pose proof (bg_timer _ Hb n ltac:(by rewrite Ht; auto)) as Hn.
    pose proof (bg_max _ Hb). split; simpl; try done; unfold g_tokens; simpl; try lia.
    + f_equal. lia.
    + naive_solver.
  - intros [= <-]. apply (budget_same s); try done. simpl. naive_solver.
  - destruct (free_junk _); [|done]. intros [= <-]. apply (budget_same s); try done. simpl. naive_solver.
Qed.

Lemma budget_ctl a s s' : budget s -> ctl_step a s = Next s' -> budget s'.
Proof.
  intros Hb. unfold ctl_step. destruct (ctl s); try done;
    try (intros [= <-]; by apply (budget_same s)).
  - intros [= <-]. apply (budget_same s); try done. simpl. naive_solver.
  - destruct (timer s) as [[]| | | | | | |]; intros [= <-]; apply (budget_same s); try done; simpl; naive_solver.
  - destruct (timer s); try done. intros [= <-]. apply (budget_same s); try done; simpl; naive_solver.
  - destruct (wake_up_queue _) as [[]|]; [|done]. intros [= <-]. by apply (budget_same s).
  - destruct (destroy_queue _) as [[]|]; [|done]. intros [= <-]. by apply (budget_same s).
Qed.

Lemma budget_step sup l s s' : budget s -> step sup l s = Next s' -> budget s'.
Proof.
  intros Hb. destruct l as [i nr|i c| | | |a|r]; simpl.
  - unfold stub_enter. destruct (threads s !! i) as [[t n []]|]; try done. intros [= <-]. by apply (budget_same s).
  - destruct (threads s !! i); [|done]. by apply budget_stub.
  - by apply budget_timer.
  - unfold turn_on_enter. destruct (ctl s); try done. intros [= <-]. by apply (budget_same s).
  - unfold turn_off_enter. destruct (ctl s); try done. intros [= <-]. by apply (budget_same s).
  - by apply budget_ctl.
  - intros [= <-]. by apply (budget_same s).
Qed.

Lemma budget_reach sup g m r tasks s : reach sup g (init_state m r tasks) s -> budget s.
Proof.
  induction 1 as [|l s s' Hr IH Hs _]; [|by eapply budget_step].
  split; simpl; try done; [apply s32_range|naive_solver].
Qed.
