(* ===== verification/CoreLive.v ===== *)
(** * [sysThrot_turn_off] terminates

    Once [working] is 0, every step of a thread brings it closer to leaving
    the module ([rank]), nothing takes it back, and the polling loop of
    [sysThrot_turn_off] wakes the sleepers: under every fair schedule the
    loop ends. *)

From stdpp Require Import prelude gmap list.
From S2P Require Import Prelude Kernel Store Queue Stats Core CoreProofs.

Definition rank (p : pc) : nat :=
  match p with
  | POut _ => 0
  | PDec _ => 1
  | PAbort | PRecord _ => 2
  | PAfter _ _ => 3
  | PExit _ _ _ => 4
  | PWoken _ _ _ => 5
  | PEval _ _ _ _ WCond => 6
  | PEval _ _ _ _ WCtx => 7
  | PSleep _ _ => 8
  | PEval _ _ _ _ WFlag => 9
  | PNoToken _ => 10
  | PChecked => 11
  | PUser => 12
  | PInside => 13
  | PEntered => 14
  end.

Definition rank_at (i : nat) (s : state) : nat := from_option (fun th => rank (th_pc th)) 0%nat (threads s !! i).

Lemma rank_set_pc i j p s : (rank p <= rank_at i s)%nat -> (rank_at j (set_pc i p s) <= rank_at j s)%nat.
Proof.
  unfold rank_at. simpl. fold (put i p (threads s)). rewrite lookup_put.
  case_decide; [|done]. subst. by destruct (threads s !! j).
Qed.

(** With [working] 0, a step of a thread lowers its rank. *)
Lemma stub_step_rank sup i th c s s' : working s = false -> threads s !! i = Some th ->
  stub_step sup i th c s = Next s' ->
  exists p sx, s' = set_pc i p sx /\ threads sx = threads s /\ (rank p < rank (th_pc th))%nat /\
    working sx = false /\ ctl sx = ctl s /\ timer sx = timer s.
Proof.
  intros Hw Hi. unfold stub_step.
  destruct (th_pc th) as [r| | | | |clk|e clk fast wk []|e clk|e clk r|e clk r|clk r| |d|r]; try done.
  - intros [= <-]. eexists _, _. split; [done|]. simpl. split_and!; done || lia.
  - intros [= <-]. eexists _, _. split; [done|]. destruct (program_registered _ _); simpl; split_and!; done || lia.
  - intros [= <-]. eexists _, _. split; [done|]. destruct (user_registered _ _); simpl; split_and!; done || lia.
  - destruct (_ <=? _); intros [= <-]; eexists _, _; (split; [done|]); simpl; split_and!; done || lia.
  - destruct (add_to_queue _ _ _) as [[[] q]|] eqn:E; try done; intros [= <-]; eexists _, _; (split; [done|]);
      simpl; split_and!; done || lia.
  - intros [= <-]. eexists _, _. split; [done|]. simpl. split_and!; done || lia.
  - rewrite Hw. intros [= <-]. eexists _, _. split; [done|]. simpl. split_and!; done || lia.
  - destruct (elems _ !! e) as [d|]; [|done]. intros [= <-]. eexists _, _. split; [done|].
    destruct (wake_up_flag d), fast, (ch_signal c), wk; simpl; split_and!; done || lia.
  - destruct (ch_signal c); [|done]. intros [= <-]. eexists _, _. split; [done|]. simpl. split_and!; done || lia.
  - rewrite Hw. intros [= <-]. eexists _, _. split; [done|]. simpl. split_and!; done || lia.
  - destruct (set_exited_flag _ _); [|done]. intros [= <-]. eexists _, _. split; [done|]. simpl. split_and!; done || lia.
  - intros [= <-]. eexists _, _. split; [done|]. destruct (_ =? _); simpl; split_and!; done || lia.
  - intros [= <-]. eexists _, _. split; [done|]. simpl. split_and!; done || lia.
  - intros [= <-]. eexists _, _. split; [done|]. simpl. split_and!; done || lia.
  - intros [= <-]. eexists _, _. split; [done|]. simpl. split_and!; done || lia.
Qed.

Lemma rank_wake p : (rank (wake_pc p) <= rank p)%nat.
Proof. destruct p as [| | | | | |? ? ? ? []| | | | | | |]; simpl; lia. Qed.

(** ** Schedules *)

(** One scheduled step; a blocked one changes nothing. *)
Definition advance (sup : Z) (l : label) (s : state) : state :=
  match step sup l s with Next s' => s' | _ => s end.

(** A label that is never enabled. *)
Definition idle (s : state) : label := LThread (length (threads s)) (Choice true 0 false).

Lemma idle_blocked sup s : step sup (idle s) s = Blocked.
Proof. simpl. by rewrite lookup_ge_None_2. Qed.

Lemma idle_advance sup s : advance sup (idle s) s = s.
Proof. unfold advance. by rewrite idle_blocked. Qed.

Fixpoint trace (sup : Z) (sched : nat -> label) (s : state) (n : nat) : state :=
  match n with O => s | S n => advance sup (sched n) (trace sup sched s n) end.

(** Every thread of the state and the controller are scheduled again and again. *)
Record fair (sched : nat -> label) (threads_no : nat) : Prop := {
  fair_thread i n : (i < threads_no)%nat -> exists m c, (n <= m)%nat /\ sched m = LThread i c;
  fair_ctl n : exists m a, (n <= m)%nat /\ sched m = LCtl a;
}.

(** In the polling loop of [sysThrot_turn_off]. *)
Definition polling (s : state) : Prop := inv s /\ (ctl s = COffLoop \/ ctl s = COffPoll).

Lemma polling_off s : polling s -> working s = false /\ timer s = TIdle false.
Proof.
  intros [Hinv Hc]. pose proof (iv_ctl _ Hinv) as H. unfold ctl_inv in H.
  destruct Hc as [Hc|Hc]; rewrite Hc in H; naive_solver.
Qed.

Definition is_ctl (l : label) : bool := match l with LCtl _ => true | _ => false end.

(** One step from the polling loop: out of it, or still in it with no rank
    raised; only the controller moves the controller. *)
Lemma polling_step sup l s : polling s ->
  ctl (advance sup l s) = COffDestroy \/
  (polling (advance sup l s) /\ (forall i, rank_at i (advance sup l s) <= rank_at i s)%nat /\
   length (threads (advance sup l s)) = length (threads s) /\
   (is_ctl l = false -> ctl (advance sup l s) = ctl s)).
Proof.
  intros Hp. pose proof (polling_off _ Hp) as [Hw Ht]. pose proof Hp as [Hinv Hc].
  unfold advance. destruct (step sup l s) as [| |s'] eqn:E; [by right|by right|].
  assert (ctl s' = COffDestroy \/ ((ctl s' = COffLoop \/ ctl s' = COffPoll) /\
    (forall i, rank_at i s' <= rank_at i s)%nat /\ length (threads s') = length (threads s) /\
    (is_ctl l = false -> ctl s' = ctl s))) as [?|(Hc' & Hr & Hl & Hk)]; [|by left|].
  - destruct l as [i nr|i c| | | |a|r]; simpl in E.
    + right. unfold stub_enter in E. destruct (threads s !! i) as [[t n0 []]|] eqn:Hi; try done.
      rewrite Hw in E. injection E as <-. simpl. split_and!; try done; [|by rewrite length_insert].
      intros j. unfold rank_at. simpl. destruct (decide (i = j)) as [<-|]; [|by rewrite list_lookup_insert_ne].
      rewrite list_lookup_insert_eq by by eapply lookup_lt_Some. rewrite Hi. done.
    + right. destruct (threads s !! i) as [th|] eqn:Hi; [|done].
      destruct (stub_step_rank _ _ _ _ _ _ Hw Hi E) as (p & sx & -> & Hth & Hrk & _ & Hcx & _).
      simpl. rewrite Hcx. split_and!; try done.
      * intros j. unfold rank_at at 2. rewrite <-Hth. apply rank_set_pc. unfold rank_at. rewrite Hth, Hi. simpl. lia.
      * rewrite length_alter. by rewrite Hth.
    + unfold timer_step in E. by rewrite Ht in E.
    + unfold turn_on_enter in E. destruct Hc as [Hc|Hc]; by rewrite Hc in E.
    + unfold turn_off_enter in E. destruct Hc as [Hc|Hc]; by rewrite Hc in E.
    + unfold ctl_step in E. destruct Hc as [Hc|Hc]; rewrite Hc in E; injection E as <-; simpl.
      * destruct (0 <? _); [right|by left]. split_and!; auto. done.
      * right. split_and!; auto; [|by rewrite length_fmap|done]. intros i. unfold rank_at. simpl.
        rewrite list_lookup_fmap. destruct (threads s !! i); [|done]. simpl. apply rank_wake.
    + right. injection E as <-. auto.
  - right. split; [split; [|done]|done]. eapply (inv_step sup l s s'); [done..|]. split.
    + intros Hd. destruct Hc'; congruence.
    + intros ->. destruct Hc; congruence.
Qed.

Lemma rank_sleep i s : rank_at i s = 8%nat ->
  exists th e c, threads s !! i = Some th /\ th_pc th = PSleep e c.
Proof.
  unfold rank_at. destruct (threads s !! i) as [th|]; [|done]. simpl. intros Hr. exists th.
  destruct (th_pc th) as [| | | | | |? ? ? ? []|e c| | | | | |]; try done. by exists e, c.
Qed.

(** The controller, seeing a sleeper, goes on to poll, and then wakes it. *)
Lemma loop_polls sup a i s : polling s -> ctl s = COffLoop -> rank_at i s = 8%nat ->
  ctl (advance sup (LCtl a) s) = COffPoll.
Proof.
  intros [Hinv _] Hc (th & e & c & Hi & Hp)%rank_sleep.
  pose proof (sleeper_counted _ _ _ _ _ Hinv Hi Hp) as Hcnt.
  unfold advance. simpl. unfold ctl_step. rewrite Hc. simpl.
  by rewrite (proj2 (Z.ltb_lt 0 _) Hcnt).
Qed.

Lemma poll_wakes sup a i s : ctl s = COffPoll -> rank_at i s = 8%nat ->
  (rank_at i (advance sup (LCtl a) s) < 8)%nat.
Proof.
  intros Hc (th & e & c & Hi & Hp)%rank_sleep.
  unfold advance. simpl. unfold ctl_step. rewrite Hc. unfold rank_at. simpl.
  rewrite list_lookup_fmap, Hi. simpl. rewrite Hp. simpl. lia.
Qed.

(** A thread inside that does not sleep can step. *)
Lemma awake_steps sup i c s : polling s -> rank_at i s <> 0%nat -> rank_at i s <> 8%nat ->
  (rank_at i (advance sup (LThread i c) s) < rank_at i s)%nat.
Proof.
  intros Hp H0 H8. pose proof (polling_off _ Hp) as [Hw _]. destruct Hp as [Hinv _].
  assert (exists th, threads s !! i = Some th) as [th Hi].
  { unfold rank_at in H0. destruct (threads s !! i) as [th|]; [by exists th|done]. }
  assert (rank_at i s = rank (th_pc th)) as Hrk0 by (unfold rank_at; by rewrite Hi).
  rewrite Hrk0 in *. pose proof (inv_stub sup i th c s Hinv Hi) as Hok.
  unfold advance. simpl. rewrite Hi. destruct (stub_step sup i th c s) as [| |s'] eqn:E; [|done|].
  - exfalso. clear -E H0 H8. unfold stub_step in E.
    destruct (th_pc th) as [r| | | | |clk|e clk fast wk []|e clk|e clk r|e clk r|clk r| |d|r]; try done.
    + by destruct (_ <=? _).
    + by destruct (add_to_queue _ _ _) as [[[] q]|].
    + by destruct (elems _ !! e).
    + by destruct (set_exited_flag _ _).
  - destruct (stub_step_rank _ _ _ _ _ _ Hw Hi E) as (p & sx & -> & Hth & Hrk & _).
    unfold rank_at. simpl. rewrite Hth. fold (put i p (threads s)). rewrite lookup_put, decide_True by done.
    by rewrite Hi.
Qed.

Section fairness.
Context (sup : Z) (sched : nat -> label) (s0 : state) (N : nat) (Hfair : fair sched N).
#[local] Abbreviation st := (trace sup sched s0).
#[local] Abbreviation finished := (exists m, ctl (st m) = COffDestroy).

Lemma polling_trace n k : polling (st n) ->
  finished \/ (polling (st (n + k)) /\ (forall i, rank_at i (st (n + k)) <= rank_at i (st n))%nat /\
    length (threads (st (n + k))) = length (threads (st n)) /\
    ((forall j, n <= j < n + k -> is_ctl (sched j) = false)%nat -> ctl (st (n + k)) = ctl (st n))).
Proof.
  intros Hp. induction k as [|k IH]; [right; by rewrite Nat.add_0_r|].
  destruct IH as [?|(Hpk & Hr & Hl & Hk)]; [by left|].
  replace (n + S k)%nat with (S (n + k)) by lia. cbn [trace].
  destruct (polling_step sup (sched (n + k)) (st (n + k)) Hpk) as [Hd|(Hp' & Hr' & Hl' & Hk')].
  - left. by exists (S (n + k)).
  - right. split; [done|]. split; [intros i; specialize (Hr i); specialize (Hr' i); lia|]. split; [congruence|].
    intros Hj. rewrite Hk' by (apply Hj; lia). apply Hk. intros j ?. apply Hj. lia.
Qed.

(** The next turn of the controller. *)
Lemma next_ctl n : exists k a, sched (n + k)%nat = LCtl a /\
  forall j, (n <= j < n + k)%nat -> is_ctl (sched j) = false.
Proof.
  destruct (fair_ctl _ _ Hfair n) as (m & a & Hm & Ha).
  remember (m - n)%nat as d eqn:Hd. revert n m a Hm Ha Hd. induction d as [|d IH]; intros n m a Hm Ha Hd.
  { exists 0%nat, a. split; [|lia]. by replace (n + 0)%nat with m by lia. }
  destruct (is_ctl (sched n)) eqn:En.
  - destruct (sched n) as [| | | | |a'|] eqn:E; try done. exists 0%nat, a'. rewrite Nat.add_0_r. split; [done|lia].
  - destruct (IH (S n) m a) as (k & a' & Hk & Hj); [lia|done|lia|]. exists (S k), a'.
    replace (n + S k)%nat with (S n + k)%nat by lia. split; [done|]. intros j Hjn.
    destruct (decide (j = n)) as [->|]; [done|]. apply Hj. lia.
Qed.

(** A sleeper is woken. *)
Lemma sleeper_woken n i : polling (st n) -> rank_at i (st n) = 8%nat ->
  finished \/ exists m, (n <= m)%nat /\ polling (st m) /\ (rank_at i (st m) < 8)%nat.
Proof.
  assert (forall n, polling (st n) -> ctl (st n) = COffPoll -> rank_at i (st n) = 8%nat ->
    finished \/ exists m, (n <= m)%nat /\ polling (st m) /\ (rank_at i (st m) < 8)%nat) as Hpoll.
  { clear n. intros n Hp Hc Hr. destruct (next_ctl n) as (k & a & Ha & Hj).
    destruct (polling_trace n k Hp) as [?|(Hp1 & Hr1 & _ & Hc1)]; [by left|].
    specialize (Hr1 i). specialize (Hc1 Hj).
    destruct (decide (rank_at i (st (n + k)) = 8%nat)) as [H8|]; [|right; exists (n + k)%nat; split; [lia|]; split; [done|lia]].
    pose proof (poll_wakes sup a i (st (n + k)) ltac:(congruence) H8) as Hlt.
    destruct (polling_trace (n + k) 1 Hp1) as [?|(Hp2 & _)]; [by left|]. right.
    exists (n + k + 1)%nat. split; [lia|]. split; [done|].
    replace (n + k + 1)%nat with (S (n + k)) by lia. cbn [trace]. by rewrite Ha. }
  intros Hp Hr. pose proof Hp as [Hinv [Hc|Hc]]; [|by apply Hpoll].
  destruct (next_ctl n) as (k & a & Ha & Hj).
  destruct (polling_trace n k Hp) as [?|(Hp1 & Hr1 & _ & Hc1)]; [by left|].
  specialize (Hr1 i). specialize (Hc1 Hj).
  destruct (decide (rank_at i (st (n + k)) = 8%nat)) as [H8|]; [|right; exists (n + k)%nat; split; [lia|]; split; [done|lia]].
  pose proof (loop_polls sup a i (st (n + k)) Hp1 ltac:(congruence) H8) as Hpo.
  destruct (polling_trace (n + k) 1 Hp1) as [?|(Hp2 & Hr2 & _)]; [by left|]. specialize (Hr2 i).
  replace (n + k + 1)%nat with (S (n + k)) in * by lia.
  destruct (decide (rank_at i (st (S (n + k))) = 8%nat)) as [H8'|];
    [|right; exists (S (n + k)); split; [lia|]; split; [done|lia]].
  destruct (Hpoll (S (n + k)) Hp2) as [?|(m & Hm & ?)]; [cbn [trace]; by rewrite Ha|done|by left|].
  right. exists m. split; [lia|done].
Qed.

(** Every thread leaves. *)
Lemma thread_leaves i n : (i < N)%nat -> polling (st n) ->
  finished \/ exists m, (n <= m)%nat /\ polling (st m) /\ rank_at i (st m) = 0%nat.
Proof.
  intros Hi. remember (rank_at i (st n)) as r eqn:Hr. revert n Hr.
  induction r as [r IH] using lt_wf_ind. intros n Hr Hp.
  destruct (decide (r = 0%nat)) as [->|H0]; [right; exists n; by split|].
  assert (forall m, (n <= m)%nat -> polling (st m) -> (rank_at i (st m) < r)%nat ->
    finished \/ exists m, (n <= m)%nat /\ polling (st m) /\ rank_at i (st m) = 0%nat) as Hgo.
  { intros m Hm Hpm Hlt. destruct (IH _ Hlt m eq_refl Hpm) as [?|(m' & ? & ?)]; [by left|].
    right. exists m'. split; [lia|done]. }
  destruct (decide (r = 8%nat)) as [->|H8].
  { destruct (sleeper_woken n i Hp (eq_sym Hr)) as [?|(m & Hm & Hpm & Hlt)]; [by left|by apply (Hgo m)]. }
  destruct (fair_thread _ _ Hfair i n Hi) as (m & c & Hm & Hc).
  destruct (polling_trace n (m - n) Hp) as [?|(Hp1 & Hr1 & _)]; [by left|].
  replace (n + (m - n))%nat with m in * by lia. specialize (Hr1 i).
  destruct (decide (rank_at i (st m) = r)) as [He|]; [|apply (Hgo m); [done|done|lia]].
  pose proof (awake_steps sup i c (st m) Hp1 ltac:(congruence) ltac:(congruence)) as Hlt.
  destruct (polling_trace m 1 Hp1) as [?|(Hp2 & _)]; [by left|].
  apply (Hgo (S m)); [lia|by rewrite Nat.add_1_r in Hp2|]. cbn [trace]. rewrite Hc. lia.
Qed.

Lemma threads_leave k n : (k <= N)%nat -> polling (st n) ->
  finished \/ exists m, (n <= m)%nat /\ polling (st m) /\ forall i, (i < k)%nat -> rank_at i (st m) = 0%nat.
Proof.
  intros Hk Hp. induction k as [|k IH]; [right; exists n; split_and!; [lia|done|lia]|].
  destruct IH as [?|(m & Hm & Hpm & Hz)]; [lia|by left|].
  destruct (thread_leaves k m ltac:(lia) Hpm) as [?|(m' & Hm' & Hp' & Hk0)]; [by left|].
  destruct (polling_trace m (m' - m) Hpm) as [?|(_ & Hr & _)]; [by left|].
  replace (m + (m' - m))%nat with m' in Hr by lia.
  right. exists m'. split; [lia|]. split; [done|]. intros i Hi.
  destruct (decide (i = k)) as [->|]; [done|]. specialize (Hr i). rewrite Hz in Hr by lia. lia.
Qed.

(** With every thread out, the loop ends at the controller's next turns. *)
Lemma empty_loop_ends n : polling (st n) -> (forall i, rank_at i (st n) = 0%nat) -> finished.
Proof.
  assert (forall n, polling (st n) -> ctl (st n) = COffLoop -> (forall i, rank_at i (st n) = 0%nat) -> finished) as Hloop.
  { clear n. intros n Hp Hc Hz. destruct (next_ctl n) as (k & a & Ha & Hj).
    destruct (polling_trace n k Hp) as [?|(Hp1 & Hr1 & _ & Hc1)]; [done|]. specialize (Hc1 Hj).
    exists (S (n + k)). cbn [trace]. rewrite Ha. unfold advance. simpl. unfold ctl_step.
    rewrite Hc1, Hc. simpl. replace (0 <? _) with false; [done|]. symmetry. apply Z.ltb_ge.
    destruct Hp1 as [Hinv _]. rewrite (iv_count _ Hinv), cnt_all_out; [done|].
    apply Forall_lookup. intros i th Hi. specialize (Hr1 i). rewrite Hz in Hr1. unfold rank_at in Hr1.
    rewrite Hi in Hr1. simpl in Hr1.
    destruct (th_pc th) as [| | | | | |? ? ? ? []| | | | | | |]; simpl in *; done || lia. }
  intros Hp Hz. pose proof Hp as [_ [Hc|Hc]]; [by apply (Hloop n)|].
  destruct (next_ctl n) as (k & a & Ha & Hj).
  destruct (polling_trace n k Hp) as [?|(Hp1 & Hr1 & _ & Hc1)]; [done|]. specialize (Hc1 Hj).
  destruct (polling_trace (n + k) 1 Hp1) as [?|(Hp2 & Hr2 & _)]; [done|].
  rewrite Nat.add_1_r in Hp2, Hr2. apply (Hloop (S (n + k))); [done| |].
  - cbn [trace]. rewrite Ha. unfold advance. simpl. unfold ctl_step. by rewrite Hc1, Hc.
  - intros i. specialize (Hr1 i). specialize (Hr2 i). rewrite Hz in Hr1. lia.
Qed.
End fairness.

(** ** Properties *)

(** C12: the draining loop of [sysThrot_turn_off] terminates under every fair
    schedule, whatever the interleaving of calls, signals, allocation failures
    and registrations: from any orderly state in which the loop starts, the
    controller reaches the point where the queue is destroyed. *)
Theorem turn_off_drains sup m r tasks s sched : Z.of_nat (length tasks) < 2 ^ 31 ->
  reach sup orderly (init_state m r tasks) s -> ctl s = COffLoop ->
  fair sched (length (threads s)) ->
  exists n, ctl (trace sup sched s n) = COffDestroy.
Proof.
  intros Hl Hr Hc Hf. pose proof (reach_inv _ _ _ (inv_init m r tasks Hl) Hr) as Hinv.
  assert (polling (trace sup sched s 0)) as Hp by (split; auto).
  destruct (threads_leave sup sched s _ Hf (length (threads s)) 0 ltac:(lia) Hp)
    as [?|(n & _ & Hpn & Hz)]; [done|].
  destruct (polling_trace sup sched s 0 n Hp) as [?|(_ & _ & Hlen & _)]; [done|]. simpl in Hlen.
  apply (empty_loop_ends sup sched s _ Hf n Hpn). intros i.
  destruct (decide (i < length (threads s))%nat) as [Hi|Hi]; [by apply Hz|].
  unfold rank_at. by rewrite lookup_ge_None_2 by lia.
Qed.
