(* ===== verification/CoreSpec.v ===== *)
(** * Properties of the throttling core

    The theorems about the transition system of [Core.v] that make the module
    correct, with concrete executions: safety of every orderly interleaving,
    the two executions that escape it, the budget of an epoch, wake-ups, and
    the outcome of a call on each branch of [stub]. *)

From stdpp Require Import prelude gmap list.
From S2P Require Import Prelude Kernel Store StoreProofs StoreSpec Queue Stats Core CoreProofs CoreLive.

(** ** Executing orderly runs *)

Definition quietb (s : state) : bool :=
  match ctl s with
  | COffDestroy => forallb (fun th => match th_pc th with PEntered => false | _ => true end) (threads s)
  | _ => true
  end.

Definition orderlyb (l : label) (s s' : state) : bool :=
  quietb s' && match l, ctl s with LCtl false, COnInit => false | _, _ => true end.

Lemma orderlyb_ok l s s' : orderlyb l s s' = true -> orderly l s s'.
Proof.
  unfold orderlyb, orderly, quiet, quietb. intros [Hq Hl]%andb_true_iff. split.
  - intros Hc. rewrite Hc in Hq. apply Forall_forall. intros th Hth Hp.
    rewrite forallb_forall in Hq. specialize (Hq th ltac:(by apply list_elem_of_In)).
    by rewrite Hp in Hq.
  - intros ->. intros Hc. by rewrite Hc in Hl.
Qed.

(** Runs labels that must all be enabled, defined and allowed by [g]. *)
Fixpoint run_if (g : label -> state -> state -> bool) (sup : Z) (ls : list label) (s : state) : option state :=
  match ls with
  | [] => Some s
  | l :: ls =>
      match step sup l s with
      | Next s' => if g l s s' then run_if g sup ls s' else None
      | _ => None
      end
  end.

Lemma run_if_reach g (G : label -> state -> state -> Prop) sup s0 ls : (forall l s s', g l s s' = true -> G l s s') ->
  forall s s', reach sup G s0 s -> run_if g sup ls s = Some s' -> reach sup G s0 s'.
Proof.
  intros Hg. induction ls as [|l ls IH]; simpl; intros s s' Hr; [by intros [= <-]|].
  destruct (step sup l s) as [| |s1] eqn:E; try done. destruct (g l s s1) eqn:Ho; [|done].
  apply IH. eapply reach_step; [done..|]. by apply Hg.
Qed.

Abbreviation run_orderly := (run_if orderlyb).

Lemma run_orderly_reach sup s0 ls s s' : reach sup orderly s0 s ->
  run_orderly sup ls s = Some s' -> reach sup orderly s0 s'.
Proof. apply run_if_reach, orderlyb_ok. Qed.

(** ** Concrete executions *)

Definition ok : choice := Choice true 0 false.
Definition demo_reg : registry := Registry {[ 1000 ]} ∅.
Definition core_init : state := init_state 1 demo_reg [demo_task; Task 101 1000 [115; 104]].

Definition turn_on_labels : list label := [LOn; LCtl true; LCtl true; LCtl true; LCtl true].
Definition epoch_labels : list label := replicate 8 LTimer.
(** Thread [i] enters and finds no token: it ends asleep. *)
Definition block_labels (i : nat) : list label := LEnter i 1 :: replicate 11 (LThread i ok).
(** The controller from the start of [turn_off] to its polling loop. *)
Definition turn_off_labels : list label := [LOff; LCtl true; LCtl true; LCtl true].

(** Throttling on, thread 0 asleep on the queue. *)
Definition demo_labels : list label := turn_on_labels ++ block_labels 0.
Definition demo_state (ls : list label) : state := default core_init (run_orderly 462 ls core_init).

(** ** A call that is not interleaved with others *)

(** Thread [i] calls syscall [nr] and takes [k] further steps alone. *)
Definition solo (sup : Z) (i : nat) (nr : Z) (c : choice) (k : nat) (s : state) : outcome :=
  run sup (LEnter i nr :: replicate k (LThread i c)) s.

(** Only thread [i], the tokens, the queue and the statistics may differ. *)
Record solo_result (i : nat) (th : thread) (count tokens : Z) (q : queue) (st : monitor)
    (s s' : state) : Prop := {
  so_thread : threads s' = <[i := th]> (threads s);
  so_count : threads_in_module s' = count;
  so_tokens : current_epoch_tokens s' = tokens;
  so_queue : waitq s' = q;
  so_stats : stats s' = st;
  so_working : working s' = working s;
  so_rest : timer s' = timer s /\ ctl s' = ctl s /\ epoch s' = epoch s /\ reg s' = reg s;
}.

Lemma alter_insert_pc (i : nat) th p (l : list thread) :
  alter (fun th => Thread (th_task th) (th_nr th) p) i (<[i := th]> l) =
    <[i := Thread (th_task th) (th_nr th) p]> l.
Proof.
  revert i. induction l as [|x l IH]; intros [|i]; simpl; [done..|]. f_equal. apply IH.
Qed.

Lemma s32_inc_dec z : - 2 ^ 31 <= z < 2 ^ 31 -> s32 (s32 (z + 1) - 1) = z.
Proof. intros Hz. wrap_lia. Qed.

Section steps.
Context (sup : Z) (s : state) (i : nat) (t : task) (nr : Z) (c : choice).
Context (Hlt : (i < length (threads s))%nat).

Lemma run_next l k s1 s2 : step sup l s1 = Next s2 ->
  run sup (replicate (S k) l) s1 = run sup (replicate k l) s2.
Proof. intros E. cbn [run replicate]. by rewrite E. Qed.

(** Thread [i] at [p] over the rest [sx] of the state. *)
Definition at_pc (p : pc) (sx : state) : state :=
  set_threads (<[i := Thread t nr p]> (threads s)) sx.

Lemma run_thread k p p' sx sx' :
  stub_step sup i (Thread t nr p) c (at_pc p sx) = Next (set_pc i p' (at_pc p sx')) ->
  run sup (replicate (S k) (LThread i c)) (at_pc p sx) = run sup (replicate k (LThread i c)) (at_pc p' sx').
Proof.
  intros E. apply run_next. cbn [step at_pc set_threads threads].
  rewrite list_lookup_insert_eq by done. rewrite E.
  unfold at_pc, set_pc, set_threads. simpl. by rewrite alter_insert_pc.
Qed.

(** A label that is blocked changes nothing. *)
Lemma run_blocked l k s1 : step sup l s1 = Blocked -> run sup (replicate k l) s1 = Next s1.
Proof. intros Hb. induction k as [|k IH]; [done|]. cbn [run replicate]. by rewrite Hb. Qed.

(** A thread at rest stays so. *)
Lemma run_rest k p sx : stub_step sup i (Thread t nr p) c (at_pc p sx) = Blocked ->
  run sup (replicate k (LThread i c)) (at_pc p sx) = Next (at_pc p sx).
Proof.
  intros E. apply run_blocked. cbn [step at_pc set_threads threads].
  by rewrite list_lookup_insert_eq by done.
Qed.
End steps.

Section solo.
Context (sup : Z) (s : state) (i : nat) (t : task) (nr0 nr : Z) (r0 : option Z) (c : choice).
Context (Hi : threads s !! i = Some (Thread t nr0 (POut r0))).
Context (Hcount : - 2 ^ 31 <= threads_in_module s < 2 ^ 31).
#[local] Abbreviation at_pc := (at_pc s i t nr).

Lemma solo_bound : (i < length (threads s))%nat.
Proof. by eapply lookup_lt_Some. Qed.


Lemma solo_enter k : working s = true ->
  solo sup i nr c k s =
    run sup (replicate k (LThread i c)) (set_threads (<[i := Thread t nr PEntered]> (threads s)) s).
Proof. intros Hw. unfold solo. cbn [run step]. unfold stub_enter. by rewrite Hi, Hw. Qed.

Lemma solo_off : working s = false ->
  exists s', solo sup i nr c 0 s = Next s' /\
    solo_result i (Thread t nr (POut (Some 0))) (threads_in_module s) (current_epoch_tokens s) (waitq s) (stats s) s s'.
Proof.
  intros Hw. unfold solo. cbn [run step replicate]. unfold stub_enter. rewrite Hi, Hw.
  eexists. split; [done|]. by split.
Qed.

(** The steps up to the decrement of the tokens; one step less when the
    program is registered, so a last step may find nothing to do. *)
Lemma solo_to_checked k : working s = true -> is_registered (reg s) t = true ->
  exists k', (k <= k' <= S k)%nat /\
    solo sup i nr c (3 + k) s =
      run sup (replicate k' (LThread i c)) (at_pc PChecked (set_count (threads_in_module s + 1) s)).
Proof.
  intros Hw Hr. rewrite solo_enter by done. change (set_threads _ s) with (at_pc PEntered s).
  replace (3 + k)%nat with (S (S (S k))) by lia.
  rewrite (run_thread sup s i t nr c solo_bound _ _ PInside _ (set_count (threads_in_module s + 1) s)) by done.
  unfold is_registered in Hr. destruct (program_registered (reg s) t) eqn:Hp.
  - exists (S k). split; [lia|].
    rewrite (run_thread sup s i t nr c solo_bound _ _ PChecked _ (set_count (threads_in_module s + 1) s)); [done|].
    unfold stub_step. simpl. by rewrite Hp.
  - exists k. split; [lia|]. simpl in Hr.
    rewrite (run_thread sup s i t nr c solo_bound _ _ PUser _ (set_count (threads_in_module s + 1) s)) by (unfold stub_step; simpl; by rewrite Hp).
    rewrite (run_thread sup s i t nr c solo_bound _ _ PChecked _ (set_count (threads_in_module s + 1) s)) by (unfold stub_step; simpl; by rewrite Hr).
    done.
Qed.

Lemma solo_unregistered : working s = true -> is_registered (reg s) t = false ->
  exists s', solo sup i nr c 4 s = Next s' /\
    solo_result i (Thread t nr (POut (Some 0))) (threads_in_module s) (current_epoch_tokens s) (waitq s) (stats s) s s'.
Proof.
  intros Hw [Hp Hu]%orb_false_iff. rewrite solo_enter by done. change (set_threads _ s) with (at_pc PEntered s).
  set (sx := set_count (threads_in_module s + 1) s).
  rewrite (run_thread sup s i t nr c solo_bound _ _ PInside _ sx) by done.
  rewrite (run_thread sup s i t nr c solo_bound _ _ PUser _ sx) by (unfold stub_step; simpl; by rewrite Hp).
  rewrite (run_thread sup s i t nr c solo_bound _ _ (PDec 0) _ sx) by (unfold stub_step; simpl; by rewrite Hu).
  rewrite (run_thread sup s i t nr c solo_bound _ _ (POut (Some 0)) _ (set_count (threads_in_module sx - 1) sx)) by done.
  rewrite (run_rest sup s i t nr c solo_bound) by done. eexists. split; [done|]. split; simpl; try done. by apply s32_inc_dec.
Qed.

(** The state after the decrement of the tokens. *)
Definition took (granted : Z) : state :=
  set_tokens (current_epoch_tokens s - 1)
    (Ghost (g_quota (gh s)) (g_served (gh s)) (g_woken (gh s)) (g_granted (gh s) + granted) (g_decs (gh s) + 1) (g_next (gh s)))
    (set_count (threads_in_module s + 1) s).

Lemma run_no_token k : - 2 ^ 31 < current_epoch_tokens s <= 0 ->
  exists sx, run sup (replicate (S k) (LThread i c)) (at_pc PChecked (set_count (threads_in_module s + 1) s)) =
    run sup (replicate k (LThread i c)) (at_pc (PNoToken (ch_now c)) sx) /\
    sx = took 0.
Proof.
  intros Ht. eexists. split; [|done]. apply (run_thread sup s i t nr c solo_bound). unfold stub_step. simpl.
  rewrite (proj2 (Z.leb_gt 0 _)) by (rewrite s32_id; lia). by rewrite <-(Z.add_0_r (g_granted (gh s))) at 1.
Qed.

Lemma solo_token : working s = true -> is_registered (reg s) t = true ->
  0 < current_epoch_tokens s < 2 ^ 31 ->
  exists s', solo sup i nr c 5 s = Next s' /\
    solo_result i (Thread t nr (POut (Some 0))) (threads_in_module s) (current_epoch_tokens s - 1) (waitq s) (stats s) s s'.
Proof.
  intros Hw Hr Ht. destruct (solo_to_checked 2 Hw Hr) as (k & Hk & E).
  change (3 + 2)%nat with 5%nat in E. rewrite E. destruct k as [|[|k]]; [lia..|].
  rewrite (run_thread sup s i t nr c solo_bound _ _ (PDec 0) _ (took 1))
    by (unfold stub_step; simpl; by rewrite (proj2 (Z.leb_le 0 _)) by (rewrite s32_id; lia)).
  rewrite (run_thread sup s i t nr c solo_bound _ _ (POut (Some 0)) _ (set_count (threads_in_module (took 1) - 1) (took 1))) by done.
  rewrite (run_rest sup s i t nr c solo_bound) by done. eexists. split; [done|].
  split; simpl; try done; [by apply s32_inc_dec|apply s32_id; lia].
Qed.

Lemma solo_no_memory : working s = true -> is_registered (reg s) t = true ->
  - 2 ^ 31 < current_epoch_tokens s <= 0 -> queue_cache (waitq s) = true -> ch_alloc c = false ->
  exists s', solo sup i nr c 7 s = Next s' /\
    solo_result i (Thread t nr (POut (Some (- EAGAIN)))) (threads_in_module s) (current_epoch_tokens s - 1)
      (waitq s) (sysThrot_add_aborted sup false nr (stats s)) s s'.
Proof.
  intros Hw Hr Ht Hq Ha. destruct (solo_to_checked 4 Hw Hr) as (k & Hk & E).
  change (3 + 4)%nat with 7%nat in E. rewrite E. do 4 (destruct k as [|k]; [lia|]).
  destruct (run_no_token (S (S (S k))) Ht) as (sx & -> & ->).
  rewrite (run_thread sup s i t nr c solo_bound _ _ PAbort _ (took 0)) by (unfold stub_step; simpl; unfold add_to_queue; by rewrite Ha, Hq).
  set (sy := set_stats (sysThrot_add_aborted sup false nr (stats s)) (took 0)).
  rewrite (run_thread sup s i t nr c solo_bound _ _ (PDec (- EAGAIN)) _ sy) by (unfold stub_step; simpl; by rewrite Ha).
  rewrite (run_thread sup s i t nr c solo_bound _ _ (POut (Some (- EAGAIN))) _ (set_count (threads_in_module sy - 1) sy)) by done.
  rewrite (run_rest sup s i t nr c solo_bound) by done. eexists. split; [done|].
  split; simpl; try done; [by apply s32_inc_dec|apply s32_id; lia].
Qed.

(** The state of a thread that waits on the new element: it has evaluated its
    condition twice, once before it prepared to sleep. *)
Definition waiting (q' : queue) : state :=
  set_stats (sysThrot_add_ctx_switch sup true nr (sysThrot_add_ctx_switch sup true nr (stats s))) (set_waitq q' (took 0)).

Lemma solo_to_wait q' k : working s = true -> is_registered (reg s) t = true ->
  - 2 ^ 31 < current_epoch_tokens s <= 0 -> ch_alloc c = true ->
  add_to_queue true true (waitq s) = Some (AqFlag (next_elem (waitq s)), q') ->
  exists k', (k <= k')%nat /\ elems q' !! next_elem (waitq s) = Some (Elem false false) /\
    solo sup i nr c (10 + k) s = run sup (replicate k' (LThread i c))
      (at_pc (PEval (next_elem (waitq s)) (ch_now c) false false WFlag) (waiting q')).
Proof.
  intros Hw Hr Ht Ha Haq. destruct (solo_to_checked (7 + k) Hw Hr) as (k1 & Hk & E).
  change (3 + (7 + k))%nat with (10 + k)%nat in E.
  assert (elems q' !! next_elem (waitq s) = Some (Elem false false)) as He.
  { unfold add_to_queue in Haq. destruct (queue_cache (waitq s)); [|done]. simpl in Haq.
    injection Haq as <-. simpl. apply lookup_insert_eq. }
  do 7 (destruct k1 as [|k1]; [lia|]). exists k1. split; [lia|]. split; [done|]. rewrite E.
  destruct (run_no_token (S (S (S (S (S (S k1)))))) Ht) as (sx & -> & ->).
  unfold waiting. set (e := next_elem (waitq s)) in *. set (cl := ch_now c). set (sq := set_waitq q' (took 0)).
  rewrite (run_thread sup s i t nr c solo_bound _ _ (PEval e cl true false WCtx) _ sq) by (unfold stub_step; simpl; by rewrite Ha, Hw, Haq).
  set (s1 := set_stats (sysThrot_add_ctx_switch sup true nr (stats s)) sq).
  rewrite (run_thread sup s i t nr c solo_bound _ _ (PEval e cl true false WCond) _ s1) by (unfold stub_step; simpl; by rewrite Ha).
  rewrite (run_thread sup s i t nr c solo_bound _ _ (PEval e cl true false WFlag) _ s1) by (unfold stub_step; simpl; by rewrite Hw).
  rewrite (run_thread sup s i t nr c solo_bound _ _ (PEval e cl false false WCtx) _ s1) by (unfold stub_step; simpl; by rewrite He).
  set (s2 := set_stats (sysThrot_add_ctx_switch sup true nr (stats s1)) s1).
  rewrite (run_thread sup s i t nr c solo_bound _ _ (PEval e cl false false WCond) _ s2) by (unfold stub_step; simpl; by rewrite Ha).
  by rewrite (run_thread sup s i t nr c solo_bound _ _ (PEval e cl false false WFlag) _ s2) by (unfold stub_step; simpl; by rewrite Hw).
Qed.

Lemma solo_waits q' : working s = true -> is_registered (reg s) t = true ->
  - 2 ^ 31 < current_epoch_tokens s <= 0 -> ch_alloc c = true -> ch_signal c = false ->
  add_to_queue true true (waitq s) = Some (AqFlag (next_elem (waitq s)), q') ->
  exists s', solo sup i nr c 11 s = Next s' /\
    solo_result i (Thread t nr (PSleep (next_elem (waitq s)) (ch_now c))) (s32 (threads_in_module s + 1))
      (current_epoch_tokens s - 1) q'
      (sysThrot_add_ctx_switch sup true nr (sysThrot_add_ctx_switch sup true nr (stats s))) s s'.
Proof.
  intros Hw Hr Ht Ha Hsig Haq. destruct (solo_to_wait q' 1 Hw Hr Ht Ha Haq) as (k & Hk & He & E).
  change (10 + 1)%nat with 11%nat in E. rewrite E. destruct k as [|k]; [lia|].
  rewrite (run_thread sup s i t nr c solo_bound _ _ (PSleep (next_elem (waitq s)) (ch_now c)) _ (waiting q'))
    by (unfold stub_step; simpl; by rewrite He, Hsig).
  rewrite (run_rest sup s i t nr c solo_bound) by (unfold stub_step; simpl; by rewrite Hsig).
  eexists. split; [done|]. split; simpl; try done. apply s32_id; lia.
Qed.

(** A signal is pending: the call fails, its element is marked exited. *)
Lemma solo_interrupted q' : working s = true -> is_registered (reg s) t = true ->
  - 2 ^ 31 < current_epoch_tokens s <= 0 -> ch_alloc c = true -> ch_signal c = true ->
  add_to_queue true true (waitq s) = Some (AqFlag (next_elem (waitq s)), q') ->
  exists s', solo sup i nr c 16 s = Next s' /\
    solo_result i (Thread t nr (POut (Some (- EAGAIN)))) (threads_in_module s)
      (current_epoch_tokens s - 1) (set_elems (<[next_elem (waitq s) := Elem false true]> (elems q')) q')
      (sysThrot_add_aborted sup true nr
        (sysThrot_add_ctx_switch sup true nr (sysThrot_add_ctx_switch sup true nr (stats s)))) s s'.
Proof.
  intros Hw Hr Ht Ha Hsig Haq. destruct (solo_to_wait q' 6 Hw Hr Ht Ha Haq) as (k & Hk & He & E).
  change (10 + 6)%nat with 16%nat in E. rewrite E. do 6 (destruct k as [|k]; [lia|]).
  set (e := next_elem (waitq s)) in *. set (cl := ch_now c).
  rewrite (run_thread sup s i t nr c solo_bound _ _ (PWoken e cl (- ERESTARTSYS)) _ (waiting q'))
    by (unfold stub_step; simpl; by rewrite He, Hsig).
  rewrite (run_thread sup s i t nr c solo_bound _ _ (PExit e cl (- ERESTARTSYS)) _ (waiting q'))
    by (unfold stub_step; simpl; by rewrite Hw).
  set (sx := set_waitq (set_elems (<[e := Elem false true]> (elems q')) q') (waiting q')).
  rewrite (run_thread sup s i t nr c solo_bound _ _ (PAfter cl (- ERESTARTSYS)) _ sx)
    by (unfold stub_step, set_exited_flag; simpl; by rewrite He).
  rewrite (run_thread sup s i t nr c solo_bound _ _ PAbort _ sx) by done.
  set (sy := set_stats (sysThrot_add_aborted sup true nr (stats sx)) sx).
  rewrite (run_thread sup s i t nr c solo_bound _ _ (PDec (- EAGAIN)) _ sy) by (unfold stub_step; simpl; by rewrite Ha).
  rewrite (run_thread sup s i t nr c solo_bound _ _ (POut (Some (- EAGAIN))) _ (set_count (threads_in_module sy - 1) sy)) by done.
  rewrite (run_rest sup s i t nr c solo_bound) by done. eexists. split; [done|].
  split; simpl; try done; [by apply s32_inc_dec|apply s32_id; lia].
Qed.
End solo.

(** A waiter that evaluates its condition again. *)
Section resumed.
Context (sup : Z) (s : state) (i : nat) (t : task) (nr : Z) (c : choice) (e : eid) (clk : Z) (fast wk : bool) (d : queue_elem).
Context (Hi : threads s !! i = Some (Thread t nr (PEval e clk fast wk WCtx))).
Context (He : elems (waitq s) !! e = Some d).
#[local] Abbreviation at_pc := (at_pc s i t nr).

Lemma resumed_bound : (i < length (threads s))%nat.
Proof. by eapply lookup_lt_Some. Qed.

Lemma resumed_start k :
  run sup (replicate (S k) (LThread i c)) s =
    run sup (replicate k (LThread i c))
      (at_pc (PEval e clk fast wk WCond) (set_stats (sysThrot_add_ctx_switch sup (ch_alloc c) nr (stats s)) s)).
Proof.
  apply run_next. cbn [step]. rewrite Hi. unfold stub_step, CoreSpec.at_pc, set_pc, set_threads. simpl. do 2 f_equal.
  apply list_eq. intros j. destruct (decide (i = j)) as [<-|Hne].
  - rewrite list_lookup_alter_eq, list_lookup_insert_eq by apply resumed_bound. by rewrite Hi.
  - by rewrite list_lookup_alter_ne, list_lookup_insert_ne.
Qed.

(** Throttling was turned off: the call goes through; its element is left. *)
Lemma resumed_off : working s = false ->
  exists s', run sup (replicate 4 (LThread i c)) s = Next s' /\
    solo_result i (Thread t nr (POut (Some 0))) (s32 (threads_in_module s - 1)) (current_epoch_tokens s) (waitq s)
      (sysThrot_add_ctx_switch sup (ch_alloc c) nr (stats s)) s s'.
Proof.
  intros Hw. rewrite resumed_start. set (s1 := set_stats _ s).
  rewrite (run_thread sup s i t nr c resumed_bound _ _ (PWoken e clk 0) _ s1) by (unfold stub_step; simpl; by rewrite Hw).
  rewrite (run_thread sup s i t nr c resumed_bound _ _ (PDec 0) _ s1) by (unfold stub_step; simpl; by rewrite Hw).
  rewrite (run_thread sup s i t nr c resumed_bound _ _ (POut (Some 0)) _ (set_count (threads_in_module s1 - 1) s1)) by done.
  eexists. split; [done|]. by split.
Qed.

(** Its flag is set: the call goes through, the wait is recorded and the
    element is marked exited. *)
Lemma resumed_woken : working s = true -> wake_up_flag d = true ->
  exists s', run sup (replicate 8 (LThread i c)) s = Next s' /\
    solo_result i (Thread t nr (POut (Some 0))) (s32 (threads_in_module s - 1)) (current_epoch_tokens s)
      (set_elems (<[e := Elem true true]> (elems (waitq s))) (waitq s))
      (sysThrot_add_blocked sup (ch_alloc c) t (s32 nr) (u64 (ch_now c - clk))
        (sysThrot_add_ctx_switch sup (ch_alloc c) nr (stats s))) s s'.
Proof.
  intros Hw Hf. rewrite resumed_start. set (s1 := set_stats _ s).
  rewrite (run_thread sup s i t nr c resumed_bound _ _ (PEval e clk fast wk WFlag) _ s1) by (unfold stub_step; simpl; by rewrite Hw).
  rewrite (run_thread sup s i t nr c resumed_bound _ _ (PWoken e clk 0) _ s1) by (unfold stub_step; simpl; by rewrite He, Hf).
  rewrite (run_thread sup s i t nr c resumed_bound _ _ (PExit e clk 0) _ s1) by (unfold stub_step; simpl; by rewrite Hw).
  set (s2 := set_waitq (set_elems (<[e := Elem true true]> (elems (waitq s))) (waitq s)) s1).
  rewrite (run_thread sup s i t nr c resumed_bound _ _ (PAfter clk 0) _ s2)
    by (unfold stub_step, set_exited_flag; simpl; rewrite He; simpl; by rewrite Hf).
  rewrite (run_thread sup s i t nr c resumed_bound _ _ (PRecord (u64 (ch_now c - clk))) _ s2) by done.
  set (s3 := set_stats (sysThrot_add_blocked sup (ch_alloc c) t (s32 nr) (u64 (ch_now c - clk)) (stats s2)) s2).
  rewrite (run_thread sup s i t nr c resumed_bound _ _ (PDec 0) _ s3) by done.
  rewrite (run_thread sup s i t nr c resumed_bound _ _ (POut (Some 0)) _ (set_count (threads_in_module s3 - 1) s3)) by done.
  eexists. split; [done|]. by split.
Qed.
End resumed.

Lemma new_element q : queue_cache q = true -> exists q', add_to_queue true true q = Some (AqFlag (next_elem q), q') /\
  global_queue q' = global_queue q ++ [next_elem q] /\ elems q' = <[next_elem q := Elem false false]> (elems q).
Proof. intros Hq. unfold add_to_queue. rewrite Hq. by eexists. Qed.

(** Throttling was turned off before the thread was queued. *)
Lemma overtaken sup s i t nr c clk : threads s !! i = Some (Thread t nr (PNoToken clk)) -> working s = false ->
  queue_cache (waitq s) = true -> ch_alloc c = true -> exists s' q', run sup (replicate 2 (LThread i c)) s = Next s' /\
    elems q' = elems (waitq s) /\ global_queue q' = global_queue (waitq s) /\ junk_list q' = junk_list (waitq s) /\
    solo_result i (Thread t nr (POut (Some 0))) (s32 (threads_in_module s - 1)) (current_epoch_tokens s) q' (stats s) s s'.
Proof.
  intros Hi Hw Hq Ha. assert (i < length (threads s))%nat as Hlt by (by eapply lookup_lt_Some).
  assert (at_pc s i t nr (PNoToken clk) s = s) as Hs by (unfold at_pc, set_threads; rewrite list_insert_id by done; by destruct s).
  replace (run sup (replicate 2 (LThread i c)) s) with (run sup (replicate 2 (LThread i c)) (at_pc s i t nr (PNoToken clk) s)) by (by rewrite Hs).
  set (q' := Queue (elems (waitq s)) (Pos.succ (next_elem (waitq s))) (global_queue (waitq s)) (junk_list (waitq s))
    (current_in_queue (waitq s)) true).
  rewrite (run_thread sup s i t nr c Hlt _ _ (PDec 0) _ (set_waitq q' s)) by (unfold stub_step, add_to_queue; simpl; by rewrite Hq, Ha, Hw).
  rewrite (run_thread sup s i t nr c Hlt _ _ (POut (Some 0)) _ (set_count (threads_in_module s - 1) (set_waitq q' s))) by done.
  eexists _, q'. split_and!; [done..|]. by split.
Qed.

(** ** Properties *)

(** C1: no interleaving of calls, epoch ends, registrations and turning
    throttling on and off makes the module touch a queue element that is not
    allocated or a cache that does not exist, provided the administrator's call
    does not overtake a thread that is between its test of [working] and its
    increment of [threads_in_module]; and [threads_in_module] is at every
    moment the number of threads inside. *)
Theorem core_memory_safe sup m r tasks s l : Z.of_nat (length tasks) < 2 ^ 31 ->
  reach sup orderly (init_state m r tasks) s ->
  step sup l s <> UB /\ threads_in_module s = cnt (threads s).
Proof.
  intros Hl Hr. pose proof (reach_inv _ _ _ (inv_init m r tasks Hl) Hr) as Hinv.
  split; [by apply inv_no_ub|apply Hinv].
Qed.

(** C2: in every epoch the calls let through while throttling, that is the
    waiters whose wake-up flag the callback has set at its start (counted in the
    queue, [newly_woken]) and the calls granted a token, are at most
    [max_syscalls_for_epoch] (none when it is negative), and the tokens granted
    are exactly the smaller of the requests made and the tokens left after the
    waiters; this holds for every interleaving as long as fewer than [2^31]
    requests (plus the tokens) are made in one epoch. *)
Theorem epoch_budget sup m r tasks s : reach sup anything (init_state m r tasks) s ->
  g_decs (gh s) <= 2 ^ 31 + g_tokens (gh s) ->
  0 <= g_woken (gh s) /\
  g_granted (gh s) = Z.min (g_decs (gh s)) (Z.max 0 (g_tokens (gh s))) /\
  g_woken (gh s) + g_granted (gh s) <= Z.max 0 (g_quota (gh s)).
Proof.
  intros Hr Hd. pose proof (budget_reach _ _ _ _ _ _ Hr) as [? Hsv Hw ? ? ? Hg ?].
  specialize (Hg Hd). unfold g_tokens in *. lia.
Qed.

(** No wake-up is lost: whenever a thread sleeps although its flag is set,
    at most two further steps of the timer or of the administrator's call make
    it evaluate its wait condition again. *)
Theorem no_lost_wakeup sup m r tasks s i th e clk : Z.of_nat (length tasks) < 2 ^ 31 ->
  reach sup orderly (init_state m r tasks) s ->
  threads s !! i = Some th -> th_pc th = PSleep e clk -> flag (waitq s) e ->
  exists ls s', (length ls <= 2)%nat /\ Forall (fun l => l = LTimer \/ l = LCtl true) ls /\
    run sup ls s = Next s' /\ (fun th => th_pc th) <$> threads s' !! i = Some (PEval e clk false false WCtx).
Proof.
  intros Hl Hr Hi Hp Hf. pose proof (reach_inv _ _ _ (inv_init m r tasks Hl) Hr) as Hinv.
  assert (forall sx, threads sx = threads (wake_up_interruptible s) ->
    (fun th => th_pc th) <$> threads sx !! i = Some (PEval e clk false false WCtx)) as Hwake.
  { intros sx ->. simpl. rewrite list_lookup_fmap, Hi. simpl. by rewrite Hp. }
  destruct (iv_wake _ Hinv i th e clk Hi Hp Hf) as [[n Hn]|[Hc|Hc]].
  - eexists [LTimer], _. split_and!; [simpl; lia|by repeat constructor| |].
    + simpl. unfold timer_step. by rewrite Hn.
    + by apply Hwake.
  - pose proof (sleeper_counted _ _ _ _ _ Hinv Hi Hp) as Hcnt.
    eexists [LCtl true; LCtl true], _. split_and!; [done|by repeat constructor; auto| |].
    + simpl. unfold ctl_step. rewrite Hc, (proj2 (Z.ltb_lt 0 _) Hcnt). simpl. reflexivity.
    + by apply Hwake.
  - eexists [LCtl true], _. split_and!; [simpl; lia|by repeat constructor; auto| |].
    + simpl. unfold ctl_step. by rewrite Hc.
    + by apply Hwake.
Qed.

(** C15: the outcome of a call on every branch of [stub].  A call that is not
    interleaved with others: with throttling off or an unregistered caller it
    returns 0 and changes nothing; a registered caller takes a token and returns
    0; without a token it returns -EAGAIN and is recorded as aborted when no queue
    element can be allocated, and otherwise waits on a new element at the tail of
    the queue: with a signal pending it returns -EAGAIN, is recorded as aborted
    and its element is marked exited, without one it ends asleep, counted in the
    module.  A call that others have overtaken: when throttling was turned off
    before it was queued, it returns 0 with the queue as it was; when it was turned
    off while it waited, it returns 0 and leaves its element; when its flag was
    set, it returns 0, its delay is recorded and its element is marked exited. *)
Theorem stub_outcomes sup s i t nr c : - 2 ^ 31 <= threads_in_module s < 2 ^ 31 ->
  (forall nr0 r0, threads s !! i = Some (Thread t nr0 (POut r0)) ->
    (working s = false \/ is_registered (reg s) t = false ->
       exists k s', solo sup i nr c k s = Next s' /\
         solo_result i (Thread t nr (POut (Some 0))) (threads_in_module s) (current_epoch_tokens s)
           (waitq s) (stats s) s s') /\
    (working s = true -> is_registered (reg s) t = true ->
       (0 < current_epoch_tokens s < 2 ^ 31 ->
          exists s', solo sup i nr c 5 s = Next s' /\
            solo_result i (Thread t nr (POut (Some 0))) (threads_in_module s)
              (current_epoch_tokens s - 1) (waitq s) (stats s) s s') /\
       (- 2 ^ 31 < current_epoch_tokens s <= 0 -> queue_cache (waitq s) = true ->
          (ch_alloc c = false -> exists s', solo sup i nr c 7 s = Next s' /\
             solo_result i (Thread t nr (POut (Some (- EAGAIN)))) (threads_in_module s)
               (current_epoch_tokens s - 1) (waitq s) (sysThrot_add_aborted sup false nr (stats s)) s s') /\
          (ch_alloc c = true ->
             let e := next_elem (waitq s) in
             let st := sysThrot_add_ctx_switch sup true nr (sysThrot_add_ctx_switch sup true nr (stats s)) in
             exists s' q', global_queue q' = global_queue (waitq s) ++ [e] /\ elems q' = <[e := Elem false false]> (elems (waitq s)) /\
               if ch_signal c
               then solo sup i nr c 16 s = Next s' /\
                 solo_result i (Thread t nr (POut (Some (- EAGAIN)))) (threads_in_module s) (current_epoch_tokens s - 1)
                   (set_elems (<[e := Elem false true]> (elems q')) q') (sysThrot_add_aborted sup true nr st) s s'
               else solo sup i nr c 11 s = Next s' /\
                 solo_result i (Thread t nr (PSleep e (ch_now c)))
                   (s32 (threads_in_module s + 1)) (current_epoch_tokens s - 1) q' st s s')))) /\
  (forall clk, threads s !! i = Some (Thread t nr (PNoToken clk)) -> working s = false -> queue_cache (waitq s) = true ->
     ch_alloc c = true -> exists s' q', run sup (replicate 2 (LThread i c)) s = Next s' /\
       elems q' = elems (waitq s) /\ global_queue q' = global_queue (waitq s) /\ junk_list q' = junk_list (waitq s) /\
       solo_result i (Thread t nr (POut (Some 0))) (s32 (threads_in_module s - 1)) (current_epoch_tokens s) q' (stats s) s s') /\
  (forall e clk fast wk d, threads s !! i = Some (Thread t nr (PEval e clk fast wk WCtx)) -> elems (waitq s) !! e = Some d ->
     let st := sysThrot_add_ctx_switch sup (ch_alloc c) nr (stats s) in
     (working s = false -> exists s', run sup (replicate 4 (LThread i c)) s = Next s' /\
        solo_result i (Thread t nr (POut (Some 0))) (s32 (threads_in_module s - 1)) (current_epoch_tokens s) (waitq s) st s s') /\
     (working s = true -> wake_up_flag d = true -> exists s', run sup (replicate 8 (LThread i c)) s = Next s' /\
        solo_result i (Thread t nr (POut (Some 0))) (s32 (threads_in_module s - 1)) (current_epoch_tokens s)
          (set_elems (<[e := Elem true true]> (elems (waitq s))) (waitq s))
          (sysThrot_add_blocked sup (ch_alloc c) t (s32 nr) (u64 (ch_now c - clk)) st) s s')).
Proof.
  intros Hc. split_and!.
  - intros nr0 r0 Hi. split; [|intros Hw Hr; split; [by apply solo_token with nr0 r0|intros Ht Hq; split]].
    + intros Hoff. destruct (working s) eqn:Hw.
      * destruct Hoff as [?|Hr]; [done|]. exists 4%nat. by apply solo_unregistered with nr0 r0.
      * exists 0%nat. by apply solo_off with nr0 r0.
    + intros Ha. by apply solo_no_memory with nr0 r0.
    + intros Ha e st. destruct (new_element _ Hq) as (q' & E & Hg & Hel). destruct (ch_signal c) eqn:Hs.
      * destruct (solo_interrupted sup s i t nr0 nr r0 c Hi Hc q' Hw Hr Ht Ha Hs E) as (s' & ? & ?). by exists s', q'.
      * destruct (solo_waits sup s i t nr0 nr r0 c Hi q' Hw Hr Ht Ha Hs E) as (s' & ? & ?). by exists s', q'.
  - intros clk Hi Hw Hq Ha. by eapply overtaken.
  - intros e clk fast wk d Hi He st. split; [by eapply resumed_off|by eapply resumed_woken].
Qed.

(** C16: the stub's test of the caller against the store: on any heap that
    represents the registered sets, [check_if_registered] returns 1 exactly
    when the caller's program name or uid is registered, -1 otherwise, and
    changes nothing. *)
Theorem check_if_registered_exact F σ sp r t comm uid :
  store_rep F σ sp (reg_users r) (reg_programs r) ->
  heap σ !! comm = Some (OStr (task_comm t)) -> heap σ !! uid = Some (OInt (s32 (task_uid t))) ->
  check_if_registered sp comm uid σ = Some (if is_registered r t then 1 else -1, σ).
Proof. apply check_if_registered_ok. Qed.

(** Without that proviso there is a run with undefined behaviour: a thread
    tests [working], [sysThrot_turn_off] then finds no thread counted and
    destroys the slab cache, and the thread allocates from it. *)
Theorem turn_off_race :
  run 462 (turn_on_labels ++ [LEnter 0 1] ++ turn_off_labels ++ [LCtl true; LCtl true] ++
           replicate 5 (LThread 0 ok)) core_init = UB.
Proof. reflexivity. Qed.

(** Turning throttling off leaks the queue element of every thread that
    waits at that moment: the thread returns without marking its element
    exited, so it stays on [junk_list] when the cache is destroyed.  Here one
    thread waits; after the call has returned and all threads are outside, its
    element is still there. *)
Theorem turn_off_leaks_waiters :
  exists s, run_orderly 462 (turn_on_labels ++ block_labels 0 ++ turn_off_labels ++
      [LCtl true; LCtl true] ++ replicate 4 (LThread 0 ok) ++ [LCtl true; LCtl true]) core_init = Some s /\
    ctl s = CIdle (Some 0) /\ all_out (threads s) /\ queue_cache (waitq s) = false /\
    junk_list (waitq s) = [1%positive] /\ elems (waitq s) !! 1%positive = Some (Elem true false).
Proof. vm_compute. eexists. split; [reflexivity|]. repeat (split || constructor). Qed.

(** ** Witnesses *)

Lemma demo_reach : reach 462 orderly core_init (demo_state demo_labels).
Proof. eapply (run_orderly_reach 462 core_init demo_labels); [apply reach_refl|]. vm_compute. reflexivity. Qed.

Lemma reach_anything sup g s0 s : reach sup g s0 s -> reach sup anything s0 s.
Proof. induction 1; [apply reach_refl|]. by eapply reach_step. Qed.

Lemma core_memory_safe_witness :
  step 462 LTimer (demo_state demo_labels) <> UB /\
  threads_in_module (demo_state demo_labels) = cnt (threads (demo_state demo_labels)).
Proof.
  exact (core_memory_safe 462 1 demo_reg [demo_task; Task 101 1000 [115; 104]]
    (demo_state demo_labels) LTimer eq_refl demo_reach).
Defined.

(** One epoch later: the waiter took the only token. *)
Lemma demo_reach_epoch : reach 462 anything core_init (demo_state (demo_labels ++ epoch_labels)).
Proof.
  eapply reach_anything, (run_orderly_reach 462 core_init (demo_labels ++ epoch_labels));
    [apply reach_refl|]. vm_compute. reflexivity.
Qed.

Lemma epoch_budget_witness :
  g_woken (gh (demo_state (demo_labels ++ epoch_labels))) = 1 /\
  1 + g_granted (gh (demo_state (demo_labels ++ epoch_labels))) <= 1.
Proof.
  split; [reflexivity|].
  apply (epoch_budget 462 1 demo_reg [demo_task; Task 101 1000 [115; 104]] _ demo_reach_epoch).
  vm_compute. discriminate.
Defined.

(** The timer has set the flag of the sleeping thread and not yet woken it. *)
Definition demo_unqueued : list label := demo_labels ++ [LTimer; LTimer].

Lemma demo_reach_unqueued : reach 462 orderly core_init (demo_state demo_unqueued).
Proof. eapply (run_orderly_reach 462 core_init demo_unqueued); [apply reach_refl|]. vm_compute. reflexivity. Qed.

Lemma no_lost_wakeup_witness :
  exists ls s', (length ls <= 2)%nat /\ Forall (fun l => l = LTimer \/ l = LCtl true) ls /\
    run 462 ls (demo_state demo_unqueued) = Next s' /\
    (fun th => th_pc th) <$> threads s' !! 0%nat = Some (PEval 1 0 false false WCtx).
Proof.
  apply (no_lost_wakeup 462 1 demo_reg [demo_task; Task 101 1000 [115; 104]] (demo_state demo_unqueued) 0
    (Thread demo_task 1 (PSleep 1 0)) 1 0 eq_refl demo_reach_unqueued); [reflexivity..|].
  exists false. reflexivity.
Defined.

(** Throttling is on without a token and a signal is pending: the call fails. *)
Lemma stub_outcomes_witness : exists s' q',
  solo 462 0 1 (Choice true 0 true) 16 (demo_state turn_on_labels) = Next s' /\
  solo_result 0 (Thread demo_task 1 (POut (Some (- EAGAIN)))) 0 (-1) (set_elems (<[1%positive := Elem false true]> (elems q')) q')
    (sysThrot_add_aborted 462 true 1 (sysThrot_add_ctx_switch 462 true 1 (sysThrot_add_ctx_switch 462 true 1 (Monitor [] 0))))
    (demo_state turn_on_labels) s'.
Proof.
  destruct (stub_outcomes 462 (demo_state turn_on_labels) 0 demo_task 1 (Choice true 0 true)) as (H & _ & _);
    [vm_compute; split; [discriminate|reflexivity]|].
  destruct (H 0 None) as [_ Hon]; [vm_compute; reflexivity|].
  destruct Hon as [_ Hwait]; [vm_compute; reflexivity|vm_compute; reflexivity|].
  destruct Hwait as [_ Hsig]; [vm_compute; split; [reflexivity|discriminate]|vm_compute; reflexivity|].
  destruct Hsig as (s' & q' & _ & _ & E & Hr); [reflexivity|].
  exists s', q'. split; [exact E|exact Hr].
Defined.

Lemma check_if_registered_exact_witness :
  check_if_registered 3 2 1 demo_store = Some (-1, demo_store).
Proof.
  exact (check_if_registered_exact demo_frame demo_store 3 (Registry ∅ ∅) (Task 100 1000 [112; 49]) 2 1
    demo_store_rep eq_refl eq_refl).
Defined.

(** A round-robin schedule of the two threads and the controller. *)
Definition demo_sched (n : nat) : label :=
  match (n mod 3)%nat with O => LThread 0 ok | S O => LThread 1 ok | _ => LCtl true end.

Lemma demo_fair : fair demo_sched 2.
Proof.
  assert (forall n j, (j < 3)%nat -> ((3 * n + j) mod 3)%nat = j) as Hm.
  { intros n j Hj. rewrite Nat.mul_comm, Nat.add_comm, Nat.Div0.mod_add. by apply Nat.mod_small. }
  split.
  - intros i n Hi. exists (3 * n + i)%nat, ok. split; [lia|]. unfold demo_sched. rewrite Hm by lia.
    destruct i as [|[|i]]; [done|done|lia].
  - intros n. exists (3 * n + 2)%nat, true. split; [lia|]. unfold demo_sched. by rewrite Hm by lia.
Qed.

Lemma demo_reach_off : reach 462 orderly core_init (demo_state (demo_labels ++ turn_off_labels)).
Proof.
  eapply (run_orderly_reach 462 core_init (demo_labels ++ turn_off_labels)); [apply reach_refl|].
  vm_compute. reflexivity.
Qed.

Lemma turn_off_drains_witness :
  exists n, ctl (trace 462 demo_sched (demo_state (demo_labels ++ turn_off_labels)) n) = COffDestroy.
Proof.
  exact (turn_off_drains 462 1 demo_reg [demo_task; Task 101 1000 [115; 104]]
    (demo_state (demo_labels ++ turn_off_labels)) demo_sched eq_refl demo_reach_off eq_refl demo_fair).
Defined.
