(* ===== verification/CoreFair.v ===== *)
(** * Every call of [stub] returns

    Under every fair schedule of threads, timer and administrator a thread that
    has entered [stub] leaves it, also when it has to wait for a token: its
    place in the queue moves up by the epoch's budget at every epoch, whatever
    the other threads do, and once its flag is set nothing keeps it from
    leaving; when throttling is turned off meanwhile, it is drained.  Critical
    sections are single steps here; [CoreLock.v] puts the locks under them. *)

From stdpp Require Import prelude gmap list.
From S2P Require Import Prelude Kernel Store Queue Stats Core CoreProofs CoreLive CoreSpec.

(** ** Places in the queue *)

Fixpoint place (e : eid) (l : list eid) : nat :=
  match l with [] => 0 | x :: l => if decide (x = e) then 0 else S (place e l) end.

Lemma place_app e l l' : e ∈ l -> place e (l ++ l') = place e l.
Proof.
  induction l as [|x l IH]; intros He; [by apply not_elem_of_nil in He|]. simpl. case_decide as Hx; [done|].
  f_equal. apply IH. apply elem_of_cons in He as [->|He]; done.
Qed.

Lemma place_skip e l l' : e ∉ l -> place e (l ++ l') = (length l + place e l')%nat.
Proof.
  induction l as [|x l IH]; intros He; [done|]. apply not_elem_of_cons in He as [Hx He]. simpl.
  rewrite decide_False by done. by rewrite IH.
Qed.

(** ** What a queue operation does to an element that a thread holds *)

(** It keeps the flag once set, and the element's place or moves it up by at
    least [k]. *)
Record advanced (k : nat) (e : eid) (q q' : queue) : Prop := {
  ad_flag : flag q e -> flag q' e;
  ad_place : ~ flag q' e -> e ∈ global_queue q' -> e ∈ global_queue q /\ (place e (global_queue q') + k <= place e (global_queue q))%nat;
}.

Lemma advanced_refl e q : advanced 0 e q q.
Proof. split; [done|]. intros _ He. split; [done|lia]. Qed.

(** An element that is not exited waits in the queue exactly until its flag is set. *)
Lemma waiter_queued q e : queue_wf q -> live q e -> ~ flag q e -> e ∈ global_queue q.
Proof.
  intros Hw [w Hd] Hf. assert (e ∈ global_queue q ++ junk_list q) as He by (apply (qw_live _ Hw); by eexists).
  apply elem_of_app in He as [?|He]; [done|]. exfalso. destruct (qw_junk _ Hw e _ He Hd) as [Hx|Hx]; simpl in Hx; [|done].
  subst w. destruct Hf. by eexists.
Qed.

Lemma woken_flag W q q' e : woken_elems W (elems q) (elems q') -> flag q e -> flag q' e.
Proof. intros Hw [x Hx]. unfold flag. rewrite Hw, Hx. case_decide; simpl; eauto. Qed.

(** An epoch serves the first [n] live elements, so the others move up. *)
Lemma unqueue_place n q r q' e : queue_wf q -> 0 < n -> unqueue n q = Some (r, q') -> e ∈ global_queue q' ->
  e ∈ global_queue q /\ (place e (global_queue q') + Z.to_nat n <= place e (global_queue q))%nat.
Proof.
  intros Hwf Hn E He. destruct (unqueue_ok n q Hwf) as (pre & r0 & q0 & E0 & Hs). rewrite E0 in E. injection E as -> ->.
  assert (e ∉ pre) as Hpre.
  { intros Hp. pose proof (qw_nodup _ Hwf) as (Hnd & _)%NoDup_app. rewrite (us_split _ _ _ _ _ Hs) in Hnd.
    apply NoDup_app in Hnd as (_ & Hd & _). by apply (Hd e). }
  rewrite (us_split _ _ _ _ _ Hs), place_skip by done. split; [set_solver|].
  destruct (us_stop _ _ _ _ _ Hs) as [Hg|(x & l & _ & _ & Hr)]; [rewrite Hg in He; by apply not_elem_of_nil in He|].
  rewrite (us_ret _ _ _ _ _ Hs) in Hr. pose proof (length_filter (live q) pre). lia.
Qed.

Lemma unqueue_advanced n q r q' e : queue_wf q -> 0 < n -> unqueue n q = Some (r, q') -> advanced (Z.to_nat n) e q q'.
Proof.
  intros Hwf Hn E. split; [|intros _; by eapply unqueue_place]. intros Hf.
  destruct (unqueue_ok n q Hwf) as (pre & r0 & q0 & E0 & Hs). rewrite E0 in E. injection E as -> ->.
  by apply (woken_flag _ _ _ _ (us_elems _ _ _ _ _ Hs)).
Qed.

Lemma free_junk_advanced q q' e : queue_wf q -> live q e -> free_junk q = Some q' -> advanced 0 e q q'.
Proof.
  intros Hwf [w Hd] E. destruct (free_junk_ok q Hwf) as (q0 & E0 & Hs). rewrite E0 in E. injection E as ->. split.
  - intros [x Hx]. exists x. rewrite (fj_elems _ _ Hs), decide_False; [done|]. intros [_ [w' Hd']]. congruence.
  - intros _. rewrite (fj_global _ _ Hs). intros He. split; [done|lia].
Qed.

Lemma set_exited_advanced q q' e e' : e <> e' -> set_exited_flag e' q = Some q' -> advanced 0 e q q'.
Proof.
  intros Hne. unfold set_exited_flag. destruct (elems q !! e') as [d|]; [|done]. simpl. intros [= <-]. split.
  - intros [x Hx]. exists x. simpl. by rewrite lookup_insert_ne.
  - simpl. intros _ He. split; [done|lia].
Qed.

Lemma add_advanced a w q r q' e : queue_wf q -> live q e -> add_to_queue a w q = Some (r, q') -> advanced 0 e q q'.
Proof.
  intros Hwf [x Hx] E. unfold add_to_queue in E. destruct (queue_cache q); [|done]. simpl in E.
  assert (e <> next_elem q) as Hne by (intros ->; pose proof (qw_next _ Hwf _ (ex_intro _ _ Hx)); lia).
  destruct a; simpl in E; [|injection E as <- <-; apply advanced_refl].
  destruct w; simpl in E; injection E as <- <-.
  - split; simpl.
    + intros [y Hy]. exists y. simpl. by rewrite lookup_insert_ne.
    + intros _ He. apply elem_of_app in He as [He|He]; [|by apply list_elem_of_singleton in He].
      rewrite place_app by done. split; [done|lia].
  - split; [done|]. simpl. intros _ He. split; [done|lia].
Qed.

(** ** Runs in which the timer keeps going *)

(** An orderly run in which, between [mod_timer] and [working = 1] of
    [sysThrot_turn_on], the epoch does not end. *)
Definition timely (l : label) (s s' : state) : Prop :=
  orderly l s s' /\ (l = LTimer -> ctl s <> COnWorking).

Definition armed (t : timer_pc) : bool := match t with TIdle b | TJunk b => b | _ => true end.

Record running (s : state) : Prop := {
  rn_inv : inv s;
  rn_timer : working s = true -> armed (timer s) = true;
  rn_on : ctl s = COnWorking -> timer s = TIdle true;
  rn_max : 0 < max_syscalls_for_epoch s;
}.

(** What a step of a thread leaves alone. *)
Record thread_frame (i : nat) (th : thread) (s s' : state) : Prop := {
  tf_threads : exists p, threads s' = put i p (threads s);
  tf_working : working s' = working s;
  tf_ctl : ctl s' = ctl s;
  tf_timer : timer s' = timer s;
  tf_max : max_syscalls_for_epoch s' = max_syscalls_for_epoch s;
  tf_queue e : live (waitq s) e -> holds (th_pc th) <> Some e -> advanced 0 e (waitq s) (waitq s');
}.

Lemma frame_local i th s s' p : threads s' = put i p (threads s) -> working s' = working s -> ctl s' = ctl s ->
  timer s' = timer s -> max_syscalls_for_epoch s' = max_syscalls_for_epoch s -> waitq s' = waitq s -> thread_frame i th s s'.
Proof. intros ? ? ? ? ? Hq. split; [by exists p|done..|]. intros e _ _. rewrite Hq. apply advanced_refl. Qed.

Lemma stub_frame sup i th c s s' : inv s -> stub_step sup i th c s = Next s' -> thread_frame i th s s'.
Proof.
  intros Hinv. unfold stub_step. pose proof (own_wf _ _ (iv_own _ Hinv)) as Hwf.
  destruct (th_pc th) as [r| | | | |clk|e clk fast wk []|e clk|e clk r|e clk r|clk r| |d|r] eqn:Hp; try done;
    try (intros [= <-]; by eapply frame_local).
  - destruct (_ <=? _); intros [= <-]; by eapply frame_local.
  - destruct (add_to_queue _ _ _) as [[[] q]|] eqn:E; try done; intros [= <-]; (split; [by eexists|done..|]);
      intros e' Hl _; by eapply add_advanced.
  - destruct (elems _ !! e); [|done]. intros [= <-]. by eapply frame_local.
  - destruct (ch_signal c); [|done]. intros [= <-]. by eapply frame_local.
  - destruct (set_exited_flag _ _) as [q|] eqn:E; [|done]. intros [= <-]. split; [by eexists|done..|].
    intros e' Hl Hne. eapply set_exited_advanced; [|done]. intros ->. by destruct Hne; rewrite Hp.
Qed.

(** What a step of the callback leaves alone, and where it goes. *)
Lemma timer_frame s s' : timer_step s = Next s' -> working s' = working s /\ ctl s' = ctl s /\
  max_syscalls_for_epoch s' = max_syscalls_for_epoch s /\ timer s <> TIdle false /\
  (working s = true -> armed (timer s) = true -> armed (timer s') = true).
Proof.
  unfold timer_step. destruct (timer s) as [[]| |n|n|n|n| |b] eqn:Et; try done.
  - intros [= <-]. simpl. rewrite ?Et. auto.
  - destruct (unqueue _ _) as [[]|]; [|done]. by intros [= <-].
  - intros [= <-]. simpl. rewrite ?Et. auto.
  - intros [= <-]. simpl. rewrite ?Et. auto.
  - intros [= <-]. simpl. rewrite ?Et. auto.
  - intros [= <-]. simpl. rewrite ?Et. auto.
  - intros [= <-]. simpl. rewrite ?Et. auto.
  - destruct (free_junk _); [|done]. by intros [= <-].
Qed.

(** The administrator's steps: turning on is the only way to [working = 1]. *)
Lemma ctl_frame a s s' : ctl_step a s = Next s' -> max_syscalls_for_epoch s' = max_syscalls_for_epoch s /\
  (working s' = true -> (ctl s = COnWorking /\ timer s' = timer s) \/
     (working s = true /\ (timer s' = timer s \/ ctl s = COnSetup \/ ctl s = COnArm \/ ctl s = COffTimer))) /\
  (ctl s' = COnWorking -> timer s' = TIdle true).
Proof.
  unfold ctl_step. destruct (ctl s) eqn:Ec; try done.
  - intros [= <-]; naive_solver.
  - intros [= <-]; naive_solver.
  - destruct (timer s) as [[]| | | | | | |]; intros [= <-]; naive_solver.
  - intros [= <-]; naive_solver.
  - intros [= <-]; naive_solver.
  - destruct (timer s); try done. intros [= <-]; naive_solver.
  - destruct (wake_up_queue _) as [[]|]; [|done]. intros [= <-]; naive_solver.
  - intros [= <-]. simpl. destruct (0 <? _); naive_solver.
  - intros [= <-]; naive_solver.
  - destruct (destroy_queue _) as [[]|]; [|done]. intros [= <-]; naive_solver.
Qed.

Lemma running_same s s' : running s -> inv s' -> working s' = working s -> timer s' = timer s ->
  (ctl s' = COnWorking -> ctl s = COnWorking) -> max_syscalls_for_epoch s' = max_syscalls_for_epoch s -> running s'.
Proof. intros [_ Ht Ho Hm] Hi Hw Het Hc Hem. split; [done|..]; rewrite ?Hw, ?Het, ?Hem; auto. Qed.

Lemma running_step sup l s s' : running s -> step sup l s = Next s' -> timely l s s' -> running s'.
Proof.
  intros Hrun E [Hor Htm]. pose proof Hrun as [Hinv Ht Ho Hm]. pose proof (inv_step _ _ _ _ Hinv E Hor) as Hinv'.
  destruct l as [j nr|j c| | | |a|r]; simpl in E.
  - unfold stub_enter in E. destruct (threads s !! j) as [[t n0 []]|]; try done. injection E as <-. by apply (running_same s).
  - destruct (threads s !! j) as [th|] eqn:Hj; [|done]. destruct (stub_frame _ _ _ _ _ _ Hinv E) as [_ Fw Fc Ft Fm _].
    apply (running_same s); try done. by rewrite Fc.
  - destruct (timer_frame _ _ E) as (Fw & Fc & Fm & _ & Fa). split; [done|..]; rewrite ?Fw, ?Fc, ?Fm; auto.
    intros Hc. by destruct Htm.
  - unfold turn_on_enter in E. destruct (ctl s); try done. injection E as <-. apply (running_same s); try done. simpl.
    by destruct (working s).
  - unfold turn_off_enter in E. destruct (ctl s); try done. injection E as <-. apply (running_same s); try done. simpl.
    by destruct (working s).
  - destruct (ctl_frame _ _ _ E) as (Fm & Fw & Fo). split; [done| |done|by rewrite Fm].
    intros Hw. pose proof (iv_ctl _ Hinv) as Hc. unfold ctl_inv in Hc.
    destruct (Fw Hw) as [[Hcs ->]|[Hws Hcase]]; [by rewrite Ho|].
    destruct Hcase as [->|[Hcs|[Hcs|Hcs]]]; [by apply Ht|rewrite Hcs in Hc; destruct Hc as [Hc _]; congruence..].
  - injection E as <-. by apply (running_same s).
Qed.

(** ** Roles *)

Inductive role := RThread (i : nat) | RTimer | RCtl | ROther.

#[export] Instance role_eq_dec : EqDecision role.
Proof. solve_decision. Defined.

Definition role_of (l : label) : role :=
  match l with LThread i _ => RThread i | LTimer => RTimer | LCtl _ => RCtl | _ => ROther end.

(** ** Waiting while throttling is on *)

Definition flagged (q : queue) (e : eid) : bool :=
  match elems q !! e with Some d => wake_up_flag d | None => false end.

Lemma flagged_spec q e : flagged q e = true <-> flag q e.
Proof.
  unfold flagged, flag. destruct (elems q !! e) as [[w x]|]; simpl; [|naive_solver].
  split; [intros ->; eauto|]. intros [y Hy]. by injection Hy.
Qed.

(** Steps until the callback next serves the queue. *)
Definition phase (t : timer_pc) : nat :=
  match t with
  | TUnqueue => 0 | TIdle _ => 1 | TJunk _ => 2 | TRearm => 3
  | TSet _ => 4 | TEpoch _ => 5 | TStats _ => 6 | TWake _ => 7
  end.

(** How far a thread is from leaving: by its place in the queue until its flag
    is set, by its own steps afterwards. *)
Definition distance (q : queue) (t : timer_pc) (p : pc) : nat :=
  let waiting e := (10 + 8 * place e (global_queue q) + phase t)%nat in
  match p with
  | PDec _ => 1
  | PAbort | PRecord _ => 2
  | PAfter _ _ => 3
  | PExit _ _ _ => 4
  | PWoken _ _ _ => 5
  | PEval e _ _ _ w =>
      if flagged q e then match w with WFlag => 6 | WCond => 7 | WCtx => 8 end else waiting e
  | PSleep e _ => if flagged q e then 9 else waiting e
  | _ => 0
  end.

(** Who brings it closer. *)
Definition helper (i : nat) (q : queue) (p : pc) : role :=
  match p with
  | PEval e _ _ _ _ => if flagged q e then RThread i else RTimer
  | PSleep _ _ => RTimer
  | _ => RThread i
  end.

Definition late (p : pc) : bool :=
  match p with
  | PEval _ _ _ _ _ | PSleep _ _ | PWoken _ _ _ | PExit _ _ _ | PAfter _ _ | PAbort | PRecord _ | PDec _ => true
  | _ => false
  end.

(** The thread stays where it is, or is woken, while others work on the queue. *)
Lemma distance_mono i k q t q' t' p : (forall e, holds p = Some e -> advanced k e q q' /\ (flagged q' e = false -> e ∈ global_queue q')) ->
  (phase t' <= 8 * k + phase t)%nat ->
  (distance q' t' p < distance q t p)%nat \/
  (distance q' t' p = distance q t p /\ helper i q' p = helper i q p).
Proof.
  intros Hh Ht. destruct p as [| | | | | |e clk fast wk w|e clk| | | | | |]; try (by right); simpl.
  all: destruct (Hh e eq_refl) as [[Hf Hp] Hq]; destruct (flagged q e) eqn:Eq;
    [rewrite (proj2 (flagged_spec q' e)) by (by apply Hf, flagged_spec); by right|].
  all: destruct (flagged q' e) eqn:Eq'; [left; try destruct w; lia|].
  all: destruct (Hp ltac:(by intros H%flagged_spec; congruence) (Hq eq_refl)) as [_ Hle].
  all: destruct (decide (place e (global_queue q') * 8 + phase t' = place e (global_queue q) * 8 + phase t)%nat); [right|left]; try lia.
  all: split; [lia|done].
Qed.

Lemma phase_strict i k q t q' t' p : (forall e, holds p = Some e -> advanced k e q q' /\ (flagged q' e = false -> e ∈ global_queue q')) ->
  (phase t' < 8 * k + phase t)%nat -> helper i q p = RTimer -> (forall e c, p = PSleep e c -> flagged q e = false) ->
  (distance q' t' p < distance q t p)%nat.
Proof.
  intros Hh Ht Hr Hs. destruct p as [| | | | | |e clk fast wk w|e clk| | | | | |]; try done; simpl in *.
  all: destruct (Hh e eq_refl) as [[Hf Hp] Hq]; destruct (flagged q e) eqn:Eq;
    [try done; by rewrite (Hs e clk eq_refl) in Eq|].
  all: destruct (flagged q' e) eqn:Eq'; [try destruct w; lia|].
  all: destruct (Hp ltac:(by intros H%flagged_spec; congruence) (Hq eq_refl)) as [_ Hle]; lia.
Qed.

Definition distance_at (i : nat) (s : state) : nat :=
  from_option (fun th => distance (waitq s) (timer s) (th_pc th)) 0%nat (threads s !! i).
Definition helper_at (i : nat) (s : state) : role :=
  from_option (fun th => helper i (waitq s) (th_pc th)) ROther (threads s !! i).

(** Thread [i] is past its request for a token and throttling is on. *)
Record queued (i : nat) (s : state) : Prop := {
  qd_running : running s;
  qd_working : working s = true;
  qd_late : exists th, threads s !! i = Some th /\ late (th_pc th) = true;
}.

Definition out (i : nat) (s : state) : Prop := exists th r, threads s !! i = Some th /\ th_pc th = POut r.

(** It has left, or throttling is being turned off. *)
Definition gone (i : nat) (s : state) : Prop := out i s \/ working s = false.

Definition progress (i : nat) (l : label) (s s' : state) : Prop :=
  (distance_at i s' < distance_at i s)%nat \/
  (distance_at i s' = distance_at i s /\ helper_at i s' = helper_at i s /\ role_of l <> helper_at i s).

Lemma held_queued s i th e : inv s -> threads s !! i = Some th -> holds (th_pc th) = Some e ->
  live (waitq s) e /\ (flagged (waitq s) e = false -> e ∈ global_queue (waitq s)).
Proof.
  intros Hinv Hi He. destruct (held_elem s i th e Hinv Hi He) as [w Hd]. split; [by exists w|]. intros Hf.
  apply waiter_queued; [apply (own_wf _ _ (iv_own _ Hinv))|by exists w|]. rewrite <-flagged_spec. congruence.
Qed.

(** A sleeper whose flag is set is about to be woken by the callback. *)
Lemma flagged_sleeper s i th e c : inv s -> working s = true -> threads s !! i = Some th -> th_pc th = PSleep e c ->
  flagged (waitq s) e = true -> exists n, timer s = TWake n.
Proof.
  intros Hinv Hw Hi Hp Hf. pose proof (iv_ctl _ Hinv) as Hc. unfold ctl_inv in Hc.
  destruct (iv_wake _ Hinv i th e c Hi Hp (proj1 (flagged_spec _ _) Hf)) as [?|[Hcs|Hcs]]; [done|..];
    rewrite Hcs in Hc; destruct Hc; congruence.
Qed.

Lemma threads_put i p s s' th : threads s !! i = Some th -> threads s' = put i p (threads s) ->
  threads s' !! i = Some (Thread (th_task th) (th_nr th) p).
Proof. intros Hi ->. by rewrite lookup_put, decide_True, Hi. Qed.

Lemma progress_put i l s s' th p' : threads s !! i = Some th -> threads s' = put i p' (threads s) ->
  (distance (waitq s') (timer s') p' < distance (waitq s) (timer s) (th_pc th))%nat \/
  (distance (waitq s') (timer s') p' = distance (waitq s) (timer s) (th_pc th) /\
   helper i (waitq s') p' = helper i (waitq s) (th_pc th) /\ role_of l <> helper i (waitq s) (th_pc th)) ->
  progress i l s s'.
Proof. intros Hi Ht Hd. unfold progress, distance_at, helper_at. by rewrite (threads_put _ _ _ _ _ Hi Ht), Hi. Qed.

(** Its own steps. *)
Lemma own_step_closer sup i th c s s' : queued i s -> threads s !! i = Some th -> stub_step sup i th c s = Next s' ->
  out i s' \/ ((exists th', threads s' !! i = Some th' /\ late (th_pc th') = true) /\ progress i (LThread i c) s s').
Proof.
  intros [Hrun Hw (th0 & Hi0 & Hl)] Hi E. rewrite Hi in Hi0. injection Hi0 as <-.
  assert (forall p', threads s' = put i p' (threads s) -> late p' = true ->
    (distance (waitq s') (timer s') p' < distance (waitq s) (timer s) (th_pc th))%nat \/
    (distance (waitq s') (timer s') p' = distance (waitq s) (timer s) (th_pc th) /\
     helper i (waitq s') p' = helper i (waitq s) (th_pc th) /\ RThread i <> helper i (waitq s) (th_pc th)) ->
    out i s' \/ ((exists th', threads s' !! i = Some th' /\ late (th_pc th') = true) /\ progress i (LThread i c) s s')) as Hgo.
  { intros p' Ht Hl' Hd. right. split; [|by eapply progress_put]. rewrite (threads_put _ _ _ _ _ Hi Ht). by eexists. }
  unfold stub_step in E. rewrite Hw in E.
  destruct (th_pc th) as [r| | | | |clk|e clk fast wk []|e clk|e clk r|e clk r|clk r| |d|r] eqn:Hp; try done.
  - injection E as <-. eapply Hgo; [done..|]. simpl. destruct (flagged _ e); [left; lia|by right].
  - injection E as <-. eapply Hgo; [done..|]. simpl. destruct (flagged _ e); [left; lia|by right].
  - destruct (elems (waitq s) !! e) as [d|] eqn:Hd; [|done]. injection E as <-.
    assert (flagged (waitq s) e = wake_up_flag d) as Hf by (unfold flagged; by rewrite Hd).
    destruct (wake_up_flag d), fast, (ch_signal c), wk; (eapply Hgo; [done..|]); simpl; rewrite Hf; (left; lia) || by right.
  - destruct (ch_signal c); [|done]. injection E as <-. eapply Hgo; [done..|]. simpl.
    destruct (flagged _ e); [left; lia|by right].
  - injection E as <-. eapply Hgo; [done..|]. simpl. left; lia.
  - destruct (set_exited_flag _ _); [|done]. injection E as <-. eapply Hgo; [done..|]. simpl. left; lia.
  - injection E as <-. destruct (_ =? _); (eapply Hgo; [done..|]; simpl; left; lia).
  - injection E as <-. eapply Hgo; [done..|]. simpl. left; lia.
  - injection E as <-. eapply Hgo; [done..|]. simpl. left; lia.
  - injection E as <-. left. eexists _, _. split; [by eapply (threads_put i _ s)|done].
Qed.

(** Steps that leave the thread where it is and the queue to itself. *)
Lemma other_step_closer i l s s' th : threads s !! i = Some th -> threads s' !! i = Some th -> inv s -> inv s' ->
  (forall e, holds (th_pc th) = Some e -> advanced 0 e (waitq s) (waitq s')) -> timer s' = timer s ->
  role_of l <> RThread i -> role_of l <> RTimer -> progress i l s s'.
Proof.
  intros Hi Hi' Hinv Hinv' Ha Ht H1 H2. unfold progress, distance_at, helper_at. rewrite Hi, Hi'. simpl.
  destruct (distance_mono i 0 (waitq s) (timer s) (waitq s') (timer s') (th_pc th)) as [?|[? ?]]; [|rewrite Ht; lia|by left|].
  - intros e He. split; [by apply Ha|]. by apply (held_queued s' i th).
  - right. split; [done|]. split; [done|]. unfold helper. destruct (th_pc th); try done. by destruct (flagged _ _).
Qed.

Lemma wake_late p : late (wake_pc p) = late p.
Proof. by destruct p. Qed.

(** The callback. *)
Lemma timer_step_closer i th s s' : queued i s -> threads s !! i = Some th -> timer_step s = Next s' -> inv s' ->
  (exists th', threads s' !! i = Some th' /\ late (th_pc th') = true) /\ progress i LTimer s s'.
Proof.
  intros [[Hinv Hta _ Hm] Hw (th0 & Hi0 & Hl)] Hi E Hinv'. rewrite Hi in Hi0. injection Hi0 as <-. specialize (Hta Hw).
  pose proof (own_wf _ _ (iv_own _ Hinv)) as Hwf.
  assert (forall k, threads s' = threads s -> (forall n, timer s <> TWake n) ->
    (forall e, live (waitq s) e -> advanced k e (waitq s) (waitq s')) -> (phase (timer s') < 8 * k + phase (timer s))%nat ->
    (exists th', threads s' !! i = Some th' /\ late (th_pc th') = true) /\ progress i LTimer s s') as Hgo.
  { intros k Ht Hnw Ha Hp. rewrite Ht. split; [by exists th|]. unfold progress, distance_at, helper_at. rewrite Ht, Hi. simpl.
    assert (forall e, holds (th_pc th) = Some e -> advanced k e (waitq s) (waitq s') /\ (flagged (waitq s') e = false -> e ∈ global_queue (waitq s'))) as Hh.
    { intros e He. split; [apply Ha; by apply (held_queued s i th)|]. apply (held_queued s' i th); [done|by rewrite Ht|done]. }
    destruct (decide (helper i (waitq s) (th_pc th) = RTimer)) as [Hr|Hr].
    - left. apply (phase_strict i k); [done..|]. intros e c Hpc. destruct (flagged (waitq s) e) eqn:Hf; [|done].
      destruct (flagged_sleeper s i th e c Hinv Hw Hi Hpc Hf) as [n Hn]. by destruct (Hnw n).
    - destruct (distance_mono i k (waitq s) (timer s) (waitq s') (timer s') (th_pc th) Hh ltac:(lia)) as [?|[? ?]]; [by left|right].
      split; [done|]. split; [done|]. intros Hx. by destruct Hr. }
  unfold timer_step in E. destruct (timer s) as [[]| |n|n|n|n| |b] eqn:Et; try done.
  - injection E as <-. apply (Hgo 0%nat); try done; [intros; apply advanced_refl|simpl; lia].
  - destruct (unqueue _ _) as [[r q]|] eqn:Eu; [|done]. injection E as <-.
    apply (Hgo (Z.to_nat (max_syscalls_for_epoch s))); try done; [|simpl; lia].
    intros e Hle. by eapply unqueue_advanced.
  - injection E as <-. simpl. rewrite list_lookup_fmap, Hi. simpl. split; [eexists; split; [done|]; by rewrite <-Hl, <-(wake_late (th_pc th))|].
    unfold progress, distance_at, helper_at. simpl. rewrite list_lookup_fmap, Hi. simpl. rewrite Et.
    destruct (th_pc th) as [| | | | | |e clk fast wk w|e clk| | | | | |]; simpl; try by right.
    + destruct (flagged _ e); [by right|left; lia].
    + destruct (flagged _ e); left; lia.
  - injection E as <-. apply (Hgo 0%nat); try done; [intros; apply advanced_refl|simpl; lia].
  - injection E as <-. apply (Hgo 0%nat); try done; [intros; apply advanced_refl|simpl; lia].
  - injection E as <-. apply (Hgo 0%nat); try done; [intros; apply advanced_refl|simpl; lia].
  - injection E as <-. apply (Hgo 0%nat); try done; [intros; apply advanced_refl|simpl; lia].
  - destruct (free_junk _) as [q|] eqn:Ef; [|done]. injection E as <-.
    apply (Hgo 0%nat); try done; [|simpl; lia]. intros e Hle. by apply free_junk_advanced.
Qed.

(** ** Steps of the others *)

(** What the others do to a thread inside: nothing, or they wake it. *)
Lemma others_keep sup i l s s' th : inv s -> threads s !! i = Some th -> is_out (th_pc th) = false ->
  step sup l s = Next s' -> role_of l <> RThread i ->
  exists th', threads s' !! i = Some th' /\ (th' = th \/ th' = Thread (th_task th) (th_nr th) (wake_pc (th_pc th))).
Proof.
  intros Hinv Hi Hin E Hr. destruct l as [j nr|j c| | | |a|r]; simpl in E.
  - unfold stub_enter in E. destruct (threads s !! j) as [[t n0 p]|] eqn:Hj; [|done]. destruct p; try done. injection E as <-. simpl.
    assert (j <> i) by (intros ->; rewrite Hi in Hj; injection Hj as ->; done).
    rewrite list_lookup_insert_ne by done. eauto.
  - destruct (threads s !! j) as [thj|] eqn:Hj; [|done]. destruct (stub_frame _ _ _ _ _ _ Hinv E) as [[p Hp] _ _ _ _ _].
    rewrite Hp, lookup_put, decide_False by (intros ->; by destruct Hr). eauto.
  - unfold timer_step in E. destruct (timer s) as [[]| |n|n|n|n| |b]; try done; try (injection E as <-; eauto).
    + destruct (unqueue _ _) as [[]|]; [|done]. injection E as <-. eauto.
    + simpl. rewrite list_lookup_fmap, Hi. simpl. eauto.
    + destruct (free_junk _); [|done]. injection E as <-. eauto.
  - unfold turn_on_enter in E. destruct (ctl s); try done. injection E as <-. eauto.
  - unfold turn_off_enter in E. destruct (ctl s); try done. injection E as <-. eauto.
  - unfold ctl_step in E. destruct (ctl s); try done; try (injection E as <-; eauto).
    + destruct (timer s) as [[]| | | | | | |]; injection E as <-; eauto.
    + destruct (timer s); try done. injection E as <-. eauto.
    + destruct (wake_up_queue _) as [[]|]; [|done]. injection E as <-. eauto.
    + simpl. rewrite list_lookup_fmap, Hi. simpl. eauto.
    + destruct (destroy_queue _) as [[]|]; [|done]. injection E as <-. eauto.
  - injection E as <-. eauto.
Qed.

Lemma is_out_spec p : is_out p = true <-> exists r, p = POut r.
Proof. destruct p; naive_solver. Qed.

(** With throttling on, the administrator is idle or about to turn it off. *)
Lemma working_ctl s : inv s -> working s = true -> (exists r, ctl s = CIdle r) \/ ctl s = COffWorking.
Proof.
  intros Hinv Hw. pose proof (iv_ctl _ Hinv) as Hc. unfold ctl_inv in Hc.
  destruct (ctl s); try (by left; eexists); try (by right); destruct Hc; congruence.
Qed.

(** Thread [i] is inside and throttling is being turned off. *)
Record draining (i : nat) (s : state) : Prop := {
  dr_running : running s;
  dr_off : working s = false;
  dr_inside : exists th, threads s !! i = Some th /\ is_out (th_pc th) = false;
}.

Definition on_its_way (i : nat) (s : state) : Prop := out i s \/ draining i s.

Lemma late_inside p : late p = true -> is_out p = false.
Proof. by destruct p. Qed.

(** While throttling stays on, the others leave the thread, the timer and its
    place in the queue alone. *)
Lemma others_frame sup i l s s' th : inv s -> threads s !! i = Some th -> is_out (th_pc th) = false -> working s = true ->
  step sup l s = Next s' -> working s' = true -> role_of l <> RThread i -> role_of l <> RTimer ->
  threads s' !! i = Some th /\ timer s' = timer s /\
  (forall e, holds (th_pc th) = Some e -> advanced 0 e (waitq s) (waitq s')).
Proof.
  intros Hinv Hi Hin Hw E Hw' Hr Ht. destruct l as [j nr|j c| | | |a|r]; simpl in E; try done.
  - unfold stub_enter in E. destruct (threads s !! j) as [[t n0 p]|] eqn:Hj; [|done]. destruct p; try done. injection E as <-. simpl in *.
    rewrite list_lookup_insert_ne by (intros ->; rewrite Hi in Hj; injection Hj as ->; done).
    split_and!; try done. intros; apply advanced_refl.
  - destruct (threads s !! j) as [thj|] eqn:Hj; [|done]. destruct (stub_frame _ _ _ _ _ _ Hinv E) as [[p Hp] _ _ Ft _ Fq].
    assert (j <> i) as Hji by (intros ->; by destruct Hr).
    rewrite Hp, lookup_put, decide_False by done. split_and!; [done..|]. intros e He. apply Fq.
    + by apply (held_queued s i th).
    + intros Hej. destruct Hji. apply (own_inj _ _ (iv_own _ Hinv) j i e);
        [by rewrite (held_lookup _ _ _ Hj), Hej|by rewrite (held_lookup _ _ _ Hi), He].
  - unfold turn_on_enter in E. destruct (ctl s); try done. injection E as <-. split_and!; try done. intros; apply advanced_refl.
  - unfold turn_off_enter in E. destruct (ctl s); try done. injection E as <-. split_and!; try done. intros; apply advanced_refl.
  - unfold ctl_step in E. destruct (working_ctl s Hinv Hw) as [[r Hc]|Hc]; rewrite Hc in E; [done|]. injection E as <-. done.
  - injection E as <-. split_and!; try done. intros; apply advanced_refl.
Qed.

(** The step that brings the thread closer is never blocked. *)
Lemma helper_enabled sup i l s : queued i s -> step sup l s = Blocked -> role_of l <> helper_at i s.
Proof.
  intros [Hrun Hw (th & Hi & Hl)] E Hr. unfold helper_at in Hr. rewrite Hi in Hr. simpl in Hr.
  destruct l as [j nr|j c| | | |a|r]; simpl in E, Hr;
    try (unfold helper in Hr; destruct (th_pc th); try done; by destruct (flagged _ _)).
  - assert (j = i) as -> by (unfold helper in Hr; destruct (th_pc th); try destruct (flagged _ _); congruence).
    rewrite Hi in E. unfold stub_step in E. destruct (th_pc th) as [| | | | | |e clk fast wk []|e clk| | | | | |]; try done.
    + by destruct (elems _ !! e).
    + by destruct (set_exited_flag _ _).
  - pose proof (rn_timer _ Hrun Hw) as Ha. unfold timer_step in E.
    destruct (timer s) as [[]| |n|n|n|n| |b]; try done; [by destruct (unqueue _ _) as [[]|]|by destruct (free_junk _)].
Qed.

(** One step while the thread waits. *)
Lemma queued_step sup i l s : queued i s -> (forall s', step sup l s = Next s' -> timely l s s') ->
  on_its_way i (advance sup l s) \/ (queued i (advance sup l s) /\ progress i l s (advance sup l s)).
Proof.
  intros Hq Htm. pose proof Hq as [Hrun Hw (th & Hi & Hl)]. pose proof (rn_inv _ Hrun) as Hinv. unfold advance.
  destruct (step sup l s) as [| |s'] eqn:E; [|by destruct (inv_no_ub sup l s Hinv)|].
  { right. split; [done|]. right. split; [done|]. split; [done|]. by eapply helper_enabled. }
  pose proof (running_step _ _ _ _ Hrun E (Htm _ eq_refl)) as Hrun'. pose proof (rn_inv _ Hrun') as Hinv'.
  destruct (decide (role_of l = RThread i)) as [Hr|Hr].
  { destruct l as [j nr|j c| | | |a|r]; try done. injection Hr as ->. simpl in E. rewrite Hi in E.
    destruct (own_step_closer sup i th c s s' Hq Hi E) as [?|[Hl' Hp]]; [by left; left|]. right. split; [|done].
    split; [done| |done]. by rewrite (tf_working _ _ _ _ (stub_frame _ _ _ _ _ _ Hinv E)). }
  destruct (decide (role_of l = RTimer)) as [Ht|Ht].
  { destruct l; try done. destruct (timer_step_closer i th s s' Hq Hi E Hinv') as [Hl' Hp]. right. split; [|done].
    split; [done| |done]. destruct (timer_frame _ _ E) as [-> _]. done. }
  destruct (working s') eqn:Hw'.
  - right. destruct (others_frame sup i l s s' th) as (Hi2 & Ht2 & Ha2); try done; [by apply late_inside|].
    split; [split; [done..|by exists th]|]. by apply (other_step_closer i l s s' th).
  - left. right. split; [done..|]. destruct (others_keep sup i l s s' th Hinv Hi (late_inside _ Hl) E Hr) as (th' & Hi' & Hth').
    exists th'. split; [done|]. destruct Hth' as [->| ->]; simpl; rewrite ?is_out_wake; by apply late_inside.
Qed.

(** ** Turning off meanwhile *)

(** Steps of the callback until [timer_shutdown_sync] can return for good. *)
Definition last_ticks (t : timer_pc) : nat :=
  match t with
  | TIdle false => 0 | TJunk false => 1 | TRearm => 2 | TSet _ => 3 | TEpoch _ => 4
  | TStats _ => 5 | TWake _ => 6 | TUnqueue => 7 | TIdle true => 8 | TJunk true => 9
  end.

Lemma last_ticks_step s s' : timer_step s = Next s' -> working s = false -> (last_ticks (timer s') < last_ticks (timer s))%nat.
Proof.
  unfold timer_step. intros E Hw. destruct (timer s) as [[]| |n|n|n|n| |b]; try done; try (injection E as <-; simpl; lia).
  - destruct (unqueue _ _) as [[]|]; [|done]. injection E as <-. simpl. lia.
  - injection E as <-. simpl. rewrite Hw. lia.
  - destruct (free_junk _); [|done]. injection E as <-. simpl. destruct b; lia.
Qed.

(** Steps of the administrator until it wakes the sleepers. *)
Definition wake_distance (s : state) : nat :=
  match ctl s with
  | COffTimer => 4 + last_ticks (timer s)
  | COffWake => 3
  | COffLoop => 2
  | COffPoll => 1
  | _ => 0
  end.

Definition asleep (i : nat) (s : state) : bool := bool_decide (rank_at i s = 8%nat).

Definition drain_distance (i : nat) (s : state) : nat := (32 * rank_at i s + if asleep i s then wake_distance s else 0)%nat.

Definition drain_helper (i : nat) (s : state) : role :=
  if asleep i s then
    match ctl s, timer s with
    | COffTimer, TIdle _ => RCtl
    | COffTimer, _ => RTimer
    | _, _ => RCtl
    end
  else RThread i.

Lemma draining_ctl i s : draining i s -> (ctl s = COffTimer \/ ((ctl s = COffWake \/ ctl s = COffLoop \/ ctl s = COffPoll) /\ timer s = TIdle false)).
Proof.
  intros [Hrun Hw (th & Hi & Hin)]. pose proof (iv_ctl _ (rn_inv _ Hrun)) as Hc. unfold ctl_inv in Hc.
  assert (all_out (threads s) -> False) as Hno by (intros Ha; by eapply all_out_not).
  destruct (ctl s); rewrite ?Hw in Hc; try (exfalso; apply Hno; tauto); try (by left); right; tauto || (destruct Hc; congruence).
Qed.

Lemma wake_distance_bound i s : draining i s -> (wake_distance s < 32)%nat.
Proof.
  intros Hd. unfold wake_distance. destruct (draining_ctl i s Hd) as [->|[[->|[->| ->]] _]]; try lia.
  destruct (timer s) as [[]| | | | | | |[]]; simpl; lia.
Qed.

(** A lower rank, or the same with the administrator (or the callback it waits
    for) closer to the wake-up. *)
Lemma drain_closer i l s s' : draining i s' ->
  (rank_at i s' < rank_at i s)%nat \/
  (rank_at i s' = rank_at i s /\ asleep i s = true /\ (wake_distance s' < wake_distance s)%nat) \/
  (rank_at i s' = rank_at i s /\ (asleep i s = true -> ctl s' = ctl s /\ timer s' = timer s) /\ role_of l <> drain_helper i s) ->
  (drain_distance i s' < drain_distance i s)%nat \/
  (drain_distance i s' = drain_distance i s /\ drain_helper i s' = drain_helper i s /\ role_of l <> drain_helper i s).
Proof.
  intros Hd [Hlt|[(Heq & Ha & Hlt)|(Heq & Hk & Hr)]]; unfold drain_distance in *.
  - left. pose proof (wake_distance_bound i s' Hd). destruct (asleep i s'), (asleep i s); lia.
  - left. unfold asleep in *. rewrite Heq, Ha. lia.
  - right. unfold drain_helper, asleep in *. rewrite Heq in *. destruct (bool_decide (rank_at i s = 8%nat)); [|done].
    destruct (Hk eq_refl) as [Hc Ht]. unfold wake_distance. rewrite Hc, Ht. split_and!; done.
Qed.

Lemma rank_thread i s th : threads s !! i = Some th -> rank_at i s = rank (th_pc th).
Proof. intros Hi. unfold rank_at. by rewrite Hi. Qed.

Lemma rank_woken p : rank p <> 8%nat -> rank (wake_pc p) = rank p.
Proof. by destruct p as [| | | | | |? ? ? ? []| | | | | | |]. Qed.

Lemma drain_enabled sup i l s : draining i s -> step sup l s = Blocked -> role_of l <> drain_helper i s.
Proof.
  intros Hd E. pose proof Hd as [Hrun Hw (th & Hi & Hin)]. unfold drain_helper. destruct (asleep i s) eqn:Ha.
  - destruct (draining_ctl i s Hd) as [Hc|[Hc Ht]].
    + rewrite Hc. intros Hr. destruct (timer s) as [b| |n|n|n|n| |b] eqn:Et; destruct l; try done; simpl in E;
        try (unfold ctl_step in E; rewrite Hc, Et in E; done); unfold timer_step in E; rewrite Et in E; try done.
      * by destruct (unqueue _ _) as [[]|].
      * by destruct (free_junk _).
    + intros Hr. assert (role_of l = RCtl) as Hl by (by destruct Hc as [Hc|[Hc|Hc]]; rewrite Hc in Hr). destruct l; try done. simpl in E.
      unfold ctl_step in E. destruct Hc as [Hc|[Hc|Hc]]; rewrite Hc in E; try done. by destruct (wake_up_queue _) as [[]|].
  - intros Hr. destruct l as [j nr|j c| | | |a|r]; try done. injection Hr as ->. simpl in E. rewrite Hi in E.
    apply bool_decide_eq_false in Ha. rewrite (rank_thread _ _ _ Hi) in Ha. unfold stub_step in E.
    destruct (th_pc th) as [| | | | | |e clk fast wk []|e clk| | | | | |]; try done.
    + by destruct (_ <=? _).
    + by destruct (add_to_queue _ _ _) as [[[]]|].
    + by destruct (elems _ !! e).
    + by destruct (set_exited_flag _ _).
Qed.

(** The others, while the thread sleeps through the end of throttling. *)
Lemma sleeper_drain sup i l s s' : draining i s -> draining i s' -> step sup l s = Next s' -> rank_at i s' = rank_at i s ->
  asleep i s = true -> role_of l <> RThread i ->
  (wake_distance s' < wake_distance s)%nat \/ (ctl s' = ctl s /\ timer s' = timer s /\ role_of l <> drain_helper i s).
Proof.
  intros Hd Hd' E Hrk Ha Hr. pose proof Hd as [[Hinv _ _ _] Hw _]. pose proof (draining_ctl i s Hd) as Hc. pose proof (draining_ctl i s' Hd') as Hc'.
  assert (forall r, ctl s <> CIdle r) as Hni by (intros r Hx; rewrite Hx in Hc; naive_solver).
  assert (role_of l <> RTimer -> role_of l <> RCtl -> role_of l <> drain_helper i s) as Hrole.
  { intros H1 H2. unfold drain_helper. rewrite Ha. destruct (ctl s), (timer s); done. }
  destruct l as [j nr|j c| | | |a|r]; simpl in E.
  - right. unfold stub_enter in E. destruct (threads s !! j) as [[t n0 []]|]; try done. injection E as <-. split_and!; try done. by apply Hrole.
  - right. destruct (threads s !! j) as [thj|]; [|done]. destruct (stub_frame _ _ _ _ _ _ Hinv E) as [_ _ Fc Ft _ _].
    split_and!; try done. by apply Hrole.
  - left. pose proof (last_ticks_step _ _ E Hw). destruct (timer_frame _ _ E) as (_ & Fc & _ & Fi & _).
    destruct Hc as [Hc|[_ Hc]]; [|done]. unfold wake_distance. rewrite Fc, Hc. lia.
  - unfold turn_on_enter in E. destruct (ctl s) as [r| | | | | | | | | |]; try done. by destruct (Hni r).
  - unfold turn_off_enter in E. destruct (ctl s) as [r| | | | | | | | | |]; try done. by destruct (Hni r).
  - left. unfold ctl_step in E. unfold wake_distance. destruct Hc as [Hc|[[Hc|[Hc|Hc]] _]]; rewrite Hc in E |- *.
    + destruct (timer s); try done. injection E as <-. simpl. lia.
    + destruct (wake_up_queue _) as [[]|]; [|done]. injection E as <-. simpl. lia.
    + injection E as <-. simpl in *. destruct (0 <? _); [lia|]. naive_solver.
    + exfalso. injection E as <-. apply bool_decide_eq_true in Ha. pose proof (poll_wakes sup a i s Hc Ha) as Hlt.
      unfold advance in Hlt. simpl in Hlt. unfold ctl_step in Hlt. rewrite Hc in Hlt. lia.
  - right. injection E as <-. split_and!; try done. by apply Hrole.
Qed.

(** Nothing turns throttling on again while a thread is inside. *)
Lemma stays_off sup i l s s' : draining i s -> step sup l s = Next s' -> working s' = false.
Proof.
  intros Hd E. pose proof Hd as [[Hinv _ _ _] Hw _]. pose proof (draining_ctl i s Hd) as Hc.
  destruct l as [j nr|j c| | | |a|r]; simpl in E.
  - unfold stub_enter in E. destruct (threads s !! j) as [[t n0 []]|]; try done. by injection E as <-.
  - destruct (threads s !! j) as [thj|]; [|done]. by rewrite (tf_working _ _ _ _ (stub_frame _ _ _ _ _ _ Hinv E)).
  - by destruct (timer_frame _ _ E) as [-> _].
  - unfold turn_on_enter in E. destruct (ctl s); try done. by injection E as <-.
  - unfold turn_off_enter in E. destruct (ctl s); try done. by injection E as <-.
  - destruct (ctl_frame _ _ _ E) as (_ & Fw & _). destruct (working s') eqn:Hw'; [|done].
    destruct (Fw eq_refl) as [[Hx _]|[Hx _]]; [|congruence]. rewrite Hx in Hc. naive_solver.
  - by injection E as <-.
Qed.

Lemma draining_step sup i l s : draining i s -> (forall s', step sup l s = Next s' -> timely l s s') ->
  out i (advance sup l s) \/
  (draining i (advance sup l s) /\
    ((drain_distance i (advance sup l s) < drain_distance i s)%nat \/
     (drain_distance i (advance sup l s) = drain_distance i s /\ drain_helper i (advance sup l s) = drain_helper i s /\
      role_of l <> drain_helper i s))).
Proof.
  intros Hd Htm. pose proof Hd as [Hrun Hw (th & Hi & Hin)]. pose proof (rn_inv _ Hrun) as Hinv. unfold advance.
  destruct (step sup l s) as [| |s'] eqn:E; [|by destruct (inv_no_ub sup l s Hinv)|].
  { right. split; [done|]. right. split; [done|]. split; [done|]. by eapply drain_enabled. }
  pose proof (running_step _ _ _ _ Hrun E (Htm _ eq_refl)) as Hrun'. pose proof (stays_off sup i l s s' Hd E) as Hw'.
  destruct (decide (role_of l = RThread i)) as [Hr|Hr].
  - destruct l as [j nr|j c| | | |a|r]; try done. injection Hr as ->. simpl in E. rewrite Hi in E.
    destruct (stub_step_rank _ _ _ _ _ _ Hw Hi E) as (p & sx & -> & Hth & Hrk & _).
    pose proof (threads_put i p s (set_pc i p sx) th Hi ltac:(simpl; by rewrite Hth)) as Hi'.
    destruct (is_out p) eqn:Hp; [apply is_out_spec in Hp as [r ->]; left; by eexists _, _|right].
    assert (draining i (set_pc i p sx)) as Hd' by (split; [done..|]; by eexists). split; [done|].
    apply (drain_closer i _ s _ Hd'). left. rewrite (rank_thread _ _ _ Hi), (rank_thread _ _ _ Hi'). done.
  - right. destruct (others_keep sup i l s s' th Hinv Hi Hin E Hr) as (th' & Hi' & Hth').
    assert (is_out (th_pc th') = false /\ (rank (th_pc th') <= rank (th_pc th))%nat) as [Hin' Hle].
    { destruct Hth' as [->| ->]; [done|]. simpl. rewrite is_out_wake. split; [done|apply rank_wake]. }
    assert (draining i s') as Hd' by (split; [done..|]; by exists th'). split; [done|].
    apply (drain_closer i _ s _ Hd'). destruct (decide (rank_at i s' = rank_at i s)) as [Hrk|Hrk];
      [|left; rewrite (rank_thread _ _ _ Hi), (rank_thread _ _ _ Hi') in *; lia].
    right. destruct (asleep i s) eqn:Ha.
    + destruct (sleeper_drain sup i l s s' Hd Hd' E Hrk Ha Hr) as [?|(? & ? & ?)]; [by left|right]. by split_and!.
    + right. split_and!; [done..|]. unfold drain_helper. by rewrite Ha.
Qed.

(** ** Before the thread asks for a token *)

Record arriving (i : nat) (s : state) : Prop := {
  ar_running : running s;
  ar_working : working s = true;
  ar_inside : exists th, threads s !! i = Some th /\ is_out (th_pc th) = false;
}.

(** One step: on its way out, waiting, or closer to the queue. *)
Lemma arriving_step sup i l s : arriving i s -> (forall s', step sup l s = Next s' -> timely l s s') ->
  queued i s \/ on_its_way i (advance sup l s) \/
  (arriving i (advance sup l s) /\
    ((rank_at i (advance sup l s) < rank_at i s)%nat \/
     (rank_at i (advance sup l s) = rank_at i s /\ role_of l <> RThread i))).
Proof.
  intros Ha Htm. pose proof Ha as [Hrun Hw (th & Hi & Hin)]. pose proof (rn_inv _ Hrun) as Hinv.
  destruct (late (th_pc th)) eqn:Hl; [left; split; [done..|by exists th]|right]. unfold advance.
  destruct (step sup l s) as [| |s'] eqn:E; [|by destruct (inv_no_ub sup l s Hinv)|].
  { right. split; [done|]. right. split; [done|]. intros Hr. destruct l; try done. injection Hr as ->. simpl in E. rewrite Hi in E.
    unfold stub_step in E. destruct (th_pc th); try done; [by destruct (_ <=? _)|by destruct (add_to_queue _ _ _) as [[[]]|]]. }
  pose proof (running_step _ _ _ _ Hrun E (Htm _ eq_refl)) as Hrun'.
  destruct (decide (role_of l = RThread i)) as [Hr|Hr].
  - right. destruct l as [j nr|j c| | | |a|r]; try done. injection Hr as ->. simpl in E. rewrite Hi in E.
    pose proof (tf_working _ _ _ _ (stub_frame _ _ _ _ _ _ Hinv E)) as Hw'. rewrite Hw in Hw'.
    assert (exists p, threads s' = put i p (threads s) /\ is_out p = false /\ (rank p < rank (th_pc th))%nat) as (p & Hth & Hp & Hlt).
    { unfold stub_step in E. destruct (th_pc th); try done.
      - injection E as <-. eexists. split; [done|]. simpl. split; [done|lia].
      - injection E as <-. eexists. split; [done|]. destruct (program_registered _ _); simpl; split; done || lia.
      - injection E as <-. eexists. split; [done|]. destruct (user_registered _ _); simpl; split; done || lia.
      - destruct (_ <=? _); injection E as <-; (eexists; split; [done|]); simpl; split; done || lia.
      - destruct (add_to_queue _ _ _) as [[[] q]|]; try done; injection E as <-; (eexists; split; [done|]); simpl; split; done || lia. }
    pose proof (threads_put i p s s' th Hi Hth) as Hi'. split; [split; [done..|by eexists]|].
    left. by rewrite (rank_thread _ _ _ Hi), (rank_thread _ _ _ Hi').
  - destruct (others_keep sup i l s s' th Hinv Hi Hin E Hr) as (th' & Hi' & Hth').
    assert (th_pc th' = th_pc th) as Hpc by (destruct Hth' as [->| ->]; [done|]; simpl; by destruct (th_pc th)).
    assert (exists th, threads s' !! i = Some th /\ is_out (th_pc th) = false) as Hin' by (exists th'; by rewrite Hpc).
    destruct (working s') eqn:Hw'; [right|left; right; by split]. split; [by split|]. right.
    by rewrite (rank_thread _ _ _ Hi), (rank_thread _ _ _ Hi'), Hpc.
Qed.

(** ** Fair schedules *)

(** Every thread, the administrator and the callback get their turn again and
    again. *)
Record fair_all (sched : nat -> label) (threads_no : nat) : Prop := {
  fa_fair : fair sched threads_no;
  fa_timer n : exists m, (n <= m)%nat /\ sched m = LTimer;
}.

Definition timely_trace (sup : Z) (sched : nat -> label) (s0 : state) : Prop :=
  forall n s', step sup (sched n) (trace sup sched s0 n) = Next s' -> timely (sched n) (trace sup sched s0 n) s'.

Section calls.
Context (sup : Z) (sched : nat -> label) (s0 : state) (N i : nat).
Context (Hfair : fair_all sched N) (Hi : (i < N)%nat) (Htm : timely_trace sup sched s0).
#[local] Abbreviation st := (trace sup sched s0).

Lemma fair_role r n : r <> ROther -> (forall j, r = RThread j -> j = i) -> exists m, (n <= m)%nat /\ role_of (sched m) = r.
Proof.
  intros Ho Hj. destruct r as [j| | |]; [|..|done].
  - rewrite (Hj j eq_refl). destruct (fair_thread _ _ (fa_fair _ _ Hfair) i n Hi) as (m & c & Hm & E). exists m. by rewrite E.
  - destruct (fa_timer _ _ Hfair n) as (m & Hm & E). exists m. by rewrite E.
  - destruct (fair_ctl _ _ (fa_fair _ _ Hfair) n) as (m & a & Hm & E). exists m. by rewrite E.
Qed.

Lemma draining_out n : draining i (st n) -> exists m, (n <= m)%nat /\ out i (st m).
Proof.
  apply (roles_reach st (fun n => role_of (sched n)) (draining i) (out i) (drain_distance i) (drain_helper i)).
  - intros s m _. apply fair_role; unfold drain_helper; destruct (asleep i s), (ctl s), (timer s); naive_solver.
  - intros m Hd. right. cbn [trace]. by apply draining_step; [|apply Htm].
Qed.

Lemma queued_out n : queued i (st n) -> exists m, (n <= m)%nat /\ out i (st m).
Proof.
  intros Hq. destruct (roles_reach st (fun n => role_of (sched n)) (queued i) (on_its_way i) (distance_at i) (helper_at i))
    with (n := n) as (m & Hm & [?|Hd]); [| |done|by exists m|].
  - intros s m [_ _ (th & Hth & Hl)]. unfold helper_at. rewrite Hth. simpl.
    apply fair_role; unfold helper; destruct (th_pc th); try destruct (flagged _ _); naive_solver.
  - intros m Hm. right. cbn [trace]. by apply queued_step; [|apply Htm].
  - destruct (draining_out m Hd) as (m' & ? & ?). exists m'. split; [lia|done].
Qed.

Lemma arriving_out n : arriving i (st n) -> exists m, (n <= m)%nat /\ out i (st m).
Proof.
  intros Ha. destruct (roles_reach st (fun n => role_of (sched n)) (arriving i) (fun s => queued i s \/ on_its_way i s) (rank_at i) (fun _ => RThread i))
    with (n := n) as (m & Hm & Hg); [| |done|].
  - intros s m _. apply fair_role; naive_solver.
  - intros m Hm. cbn [trace]. destruct (arriving_step sup i (sched m) (st m) Hm (Htm m)) as [?|[?|[? [?|[? ?]]]]]; naive_solver.
  - assert (exists m', (m <= m')%nat /\ out i (st m')) as (m' & ? & ?); [|exists m'; split; [lia|done]].
    destruct Hg as [Hq|[?|Hd]]; [by apply queued_out|by exists m|by apply draining_out].
Qed.
End calls.

Lemma threads_length sup l s s' : inv s -> step sup l s = Next s' -> length (threads s') = length (threads s).
Proof.
  intros Hinv E. destruct l as [i nr|i c| | | |a|x]; simpl in E.
  - unfold stub_enter in E. destruct (threads s !! i) as [[t n []]|]; try done. injection E as <-. simpl. by rewrite length_insert.
  - destruct (threads s !! i) as [th|]; [|done]. destruct (stub_frame _ _ _ _ _ _ Hinv E) as [[p ->] _ _ _ _ _]. apply length_alter.
  - unfold timer_step in E. repeat case_match; simplify_eq; try done. simpl. apply length_fmap.
  - unfold turn_on_enter in E. destruct (ctl s); by simplify_eq.
  - unfold turn_off_enter in E. destruct (ctl s); by simplify_eq.
  - unfold ctl_step in E. repeat case_match; simplify_eq; try done. simpl. apply length_fmap.
  - by injection E as <-.
Qed.

Lemma running_reach sup m r tasks s : Z.of_nat (length tasks) < 2 ^ 31 -> 0 < s32 m ->
  reach sup timely (init_state m r tasks) s -> running s.
Proof. intros Hl Hm. induction 1 as [|l s s' _ IH E Ht]; [by split; [apply inv_init|..]|]. by eapply running_step. Qed.

(** Every call of [stub] returns, when critical sections are single steps: with a
    positive limit, in every timely run and under every fair schedule, a thread
    is outside again and again; none starves in the queue. *)
Lemma calls_out sup s sched i n : running s -> (i < length (threads s))%nat ->
  fair_all sched (length (threads s)) -> timely_trace sup sched s -> exists m, (n <= m)%nat /\ out i (trace sup sched s m).
Proof.
  intros Hr Hi Hf Ht. assert (running (trace sup sched s n) /\ length (threads (trace sup sched s n)) = length (threads s)) as [Hrun Hlen].
  { induction n as [|n [IHr IHl]]; [done|]. cbn [trace]. unfold advance. destruct (step sup (sched n) _) as [| |s'] eqn:E; [done..|].
    split; [by eapply running_step; [..|apply Ht]|]. rewrite <-IHl. eapply threads_length; [apply IHr|done]. }
  destruct (lookup_lt_is_Some_2 (threads (trace sup sched s n)) i ltac:(lia)) as [th Hth]. destruct (is_out (th_pc th)) eqn:Ho.
  { exists n. split; [done|]. apply is_out_spec in Ho as [x Hx]. by exists th, x. }
  destruct (working (trace sup sched s n)) eqn:Hw.
  - apply (arriving_out sup sched s _ i Hf Hi Ht n). split; [done..|by exists th].
  - apply (draining_out sup sched s _ i Hf Hi Ht n). split; [done..|by exists th].
Qed.

(** ** First come, first served *)

(** The callback serves the queue in this step. *)
Definition serves (l : label) (s : state) : bool :=
  match l, timer s with LTimer, TUnqueue => true | _, _ => false end.

(** [served sup s k s']: an orderly run from [s] to [s'] with [k] epochs. *)
Inductive served (sup : Z) (s : state) : nat -> state -> Prop :=
| served_refl : served sup s 0 s
| served_step k l s1 s2 : served sup s k s1 -> step sup l s1 = Next s2 -> orderly l s1 s2 ->
    served sup s (k + if serves l s1 then 1 else 0) s2.

(** An element allocated before is moved up by [k] places or more, or leaves. *)
Definition moved_up (k : nat) (q q' : queue) : Prop :=
  (next_elem q <= next_elem q')%positive /\
  forall e, (e < next_elem q)%positive -> e ∈ global_queue q' ->
    e ∈ global_queue q /\ (place e (global_queue q') + k <= place e (global_queue q))%nat.

Lemma moved_same q q' : next_elem q' = next_elem q -> global_queue q' = global_queue q -> moved_up 0 q q'.
Proof. intros Hn Hg. split; [by rewrite Hn|]. intros e _. rewrite Hg. split; [done|lia]. Qed.

Lemma moved_unqueue n q r q' : queue_wf q -> 0 < n -> unqueue n q = Some (r, q') -> moved_up (Z.to_nat n) q q'.
Proof.
  intros Hwf Hn E. split; [|intros e _; by eapply unqueue_place].
  destruct (unqueue_ok n q Hwf) as (pre & r0 & q0 & E0 & Hs). rewrite E0 in E. injection E as -> ->. by rewrite (us_next _ _ _ _ _ Hs).
Qed.

Lemma moved_add a w q r q' : add_to_queue a w q = Some (r, q') -> moved_up 0 q q'.
Proof.
  unfold add_to_queue. destruct (queue_cache q); [|done]. simpl. destruct a; simpl; [|intros [= <- <-]; by apply moved_same].
  destruct w; simpl; intros [= <- <-]; (split; [simpl; lia|]); simpl; intros e Hlt He; [|split; [done|lia]].
  apply elem_of_app in He as [He|He%list_elem_of_singleton]; [|lia]. rewrite place_app by done. split; [done|lia].
Qed.

Lemma moved_wake_up q c q' : queue_wf q -> wake_up_queue q = Some (c, q') -> moved_up 0 q q'.
Proof.
  intros Hwf E. destruct (wake_up_queue_ok q Hwf) as (c0 & q0 & E0 & Hs). rewrite E0 in E. injection E as -> ->.
  split; [by rewrite (wq_next _ _ Hs)|]. intros e _ He. rewrite (wq_global _ _ Hs) in He. by apply not_elem_of_nil in He.
Qed.

Lemma moved_free_junk q q' : queue_wf q -> free_junk q = Some q' -> moved_up 0 q q'.
Proof.
  intros Hwf E. destruct (free_junk_ok q Hwf) as (q0 & E0 & Hs). rewrite E0 in E. injection E as ->.
  apply moved_same; apply Hs.
Qed.

Lemma moved_stub sup i th c s s' : stub_step sup i th c s = Next s' -> moved_up 0 (waitq s) (waitq s').
Proof.
  unfold stub_step. destruct (th_pc th) as [r| | | | |clk|e clk fast wk []|e clk|e clk r|e clk r|clk r| |d|r]; try done;
    try (intros [= <-]; by apply moved_same).
  - destruct (_ <=? _); intros [= <-]; by apply moved_same.
  - destruct (add_to_queue _ _ _) as [[[] q]|] eqn:E; try done; intros [= <-]; by eapply moved_add.
  - destruct (elems _ !! e); [|done]. intros [= <-]. by apply moved_same.
  - destruct (ch_signal c); [|done]. intros [= <-]. by apply moved_same.
  - unfold set_exited_flag. destruct (elems _ !! e); [|done]. intros [= <-]. by apply moved_same.
Qed.

Lemma moved_step sup l s s' : inv s -> 0 < max_syscalls_for_epoch s -> step sup l s = Next s' ->
  moved_up (if serves l s then Z.to_nat (max_syscalls_for_epoch s) else 0) (waitq s) (waitq s') /\
  max_syscalls_for_epoch s' = max_syscalls_for_epoch s.
Proof.
  intros Hinv Hm E. pose proof (own_wf _ _ (iv_own _ Hinv)) as Hwf. destruct l as [j nr|j c| | | |a|r]; simpl in E |- *.
  - unfold stub_enter in E. destruct (threads s !! j) as [[t n0 []]|]; try done. injection E as <-. by split; [apply moved_same|].
  - destruct (threads s !! j) as [th|]; [|done]. split; [by eapply moved_stub|]. apply (stub_frame _ _ _ _ _ _ Hinv E).
  - split; [|by destruct (timer_frame _ _ E) as (_ & _ & ? & _)].
    unfold timer_step in E. destruct (timer s) as [[]| |n|n|n|n| |b]; try done; try (injection E as <-; by apply moved_same).
    + destruct (unqueue _ _) as [[r q]|] eqn:Eu; [|done]. injection E as <-. by eapply moved_unqueue.
    + destruct (free_junk _) eqn:Ef; [|done]. injection E as <-. by apply moved_free_junk.
  - unfold turn_on_enter in E. destruct (ctl s); try done. injection E as <-. by split; [apply moved_same|].
  - unfold turn_off_enter in E. destruct (ctl s); try done. injection E as <-. by split; [apply moved_same|].
  - split; [|by destruct (ctl_frame _ _ _ E)]. unfold ctl_step in E. destruct (ctl s); try done; try (injection E as <-; by apply moved_same).
    + injection E as <-. unfold init_queue. destruct a; by apply moved_same.
    + destruct (timer s) as [[]| | | | | | |]; injection E as <-; by apply moved_same.
    + destruct (timer s); try done. injection E as <-. by apply moved_same.
    + destruct (wake_up_queue _) as [[c q]|] eqn:Ew; [|done]. injection E as <-. by eapply moved_wake_up.
    + unfold destroy_queue in E. destruct (free_junk _) as [q|] eqn:Ef; [|done]. injection E as <-. exact (moved_free_junk _ _ Hwf Ef).
  - injection E as <-. by split; [apply moved_same|].
Qed.

Lemma served_moves sup s k s' : inv s -> 0 < max_syscalls_for_epoch s -> served sup s k s' ->
  inv s' /\ max_syscalls_for_epoch s' = max_syscalls_for_epoch s /\ moved_up (k * Z.to_nat (max_syscalls_for_epoch s)) (waitq s) (waitq s').
Proof.
  intros Hinv Hm. induction 1 as [|k l s1 s2 _ (Hi1 & Hm1 & Hn1 & Hv1) E Ho]; [by split_and!; [|done|apply moved_same]|].
  destruct (moved_step sup l s1 s2 Hi1 ltac:(by rewrite Hm1) E) as ((Hn2 & Hv2) & Hm2).
  split; [by eapply inv_step|]. split; [congruence|]. split; [lia|]. intros e Hlt He.
  destruct (Hv2 e ltac:(lia) He) as [He1 Hp2]. destruct (Hv1 e Hlt He1) as [He0 Hp1]. split; [done|].
  rewrite Hm1 in Hp2. destruct (serves l s1); lia.
Qed.

(** C13: first come, first served, with a bound: a thread that waits behind
    [place] others is woken by the epoch number [place / max + 1], whatever the
    threads that come later, signals and the administrator do: after [k] epochs
    with [place < k * max_syscalls_for_epoch] its element is no longer in the
    queue, and if a thread still holds the element its wake-up flag is set. *)
Theorem waiter_served_in_turn sup m r tasks s e k s' : Z.of_nat (length tasks) < 2 ^ 31 -> 0 < s32 m ->
  reach sup orderly (init_state m r tasks) s -> e ∈ global_queue (waitq s) -> served sup s k s' ->
  Z.of_nat (place e (global_queue (waitq s))) < Z.of_nat k * s32 m ->
  e ∉ global_queue (waitq s') /\
  (forall i th, threads s' !! i = Some th -> holds (th_pc th) = Some e -> flag (waitq s') e).
Proof.
  intros Hl Hm Hr He Hsv Hk. pose proof (reach_inv _ _ _ (inv_init m r tasks Hl) Hr) as Hinv.
  assert (max_syscalls_for_epoch s = s32 m) as Hmax.
  { clear -Hl Hm Hr. induction Hr as [|l s s' Hr IH E Ho]; [done|].
    pose proof (reach_inv _ _ _ (inv_init m r tasks Hl) Hr) as Hinv. rewrite <-IH. by apply (moved_step sup l s s' Hinv); [rewrite IH|]. }
  destruct (served_moves sup s k s' Hinv ltac:(by rewrite Hmax) Hsv) as (Hinv' & _ & _ & Hv).
  assert (e ∉ global_queue (waitq s')) as Hout.
  { intros He'. pose proof (own_wf _ _ (iv_own _ Hinv)) as Hwf.
    destruct (Hv e) as [_ Hp]; [|done|rewrite Hmax in Hp; nia].
    apply (qw_next _ Hwf), (qw_live _ Hwf). set_solver. }
  split; [done|]. intros i th Hi Hh. destruct (held_queued s' i th e Hinv' Hi Hh) as [_ Hq].
  apply flagged_spec. destruct (flagged (waitq s') e); [done|]. by destruct Hout; apply Hq.
Qed.

(** ** Executions *)

Definition timelyb (l : label) (s s' : state) : bool :=
  orderlyb l s s' && match l, ctl s with LTimer, COnWorking => false | _, _ => true end.

Lemma timelyb_ok l s s' : timelyb l s s' = true -> timely l s s'.
Proof. intros [Ho Ht]%andb_true_iff. split; [by apply orderlyb_ok|]. intros -> Hc. by rewrite Hc in Ht. Qed.

(** A round-robin schedule of the two threads, the administrator and the timer. *)
Definition robin (n : nat) : label :=
  match (n mod 4)%nat with O => LThread 0 ok | S O => LThread 1 ok | S (S O) => LCtl true | _ => LTimer end.

(** The steps of threads, administrator and timer leave an idle administrator
    idle, so they are timely. *)
Definition steady_label (l : label) : Prop := (exists i, l = LThread i ok) \/ l = LCtl true \/ l = LTimer.

Lemma steady_idle sup r l s s' : steady_label l -> inv s -> ctl s = CIdle r -> step sup l s = Next s' ->
  inv s' /\ ctl s' = CIdle r /\ timely l s s'.
Proof.
  intros Hl Hinv Hc E. assert (ctl s' = CIdle r) as Hc'.
  { destruct Hl as [[i Hl]|[Hl|Hl]]; rewrite Hl in E; simpl in E.
    - destruct (threads s !! i) as [th|]; [|done]. destruct (stub_frame _ _ _ _ _ _ Hinv E) as [_ _ -> _ _ _]. done.
    - unfold ctl_step in E. by rewrite Hc in E.
    - destruct (timer_frame _ _ E) as (_ & -> & _). done. }
  assert (timely l s s') as Ht.
  { split; [split|]; rewrite ?Hc; try done. unfold quiet. by rewrite Hc'. }
  split; [|done]. eapply inv_step; [done..|apply Ht].
Qed.

Lemma demo_reach_timely : reach 462 timely core_init (demo_state demo_labels).
Proof. eapply (run_if_reach timelyb timely 462 core_init demo_labels timelyb_ok); [apply reach_refl|]. vm_compute. reflexivity. Qed.

Lemma demo_served : served 462 (demo_state demo_labels) 1 (demo_state demo_unqueued).
Proof.
  eapply (served_step 462 (demo_state demo_labels) 0 LTimer (demo_state (demo_labels ++ [LTimer]))).
  - eapply (served_step 462 (demo_state demo_labels) 0 LTimer _ _ (served_refl _ _)); [vm_compute; reflexivity|].
    apply orderlyb_ok. vm_compute. reflexivity.
  - vm_compute. reflexivity.
  - apply orderlyb_ok. vm_compute. reflexivity.
Qed.

Lemma waiter_served_in_turn_witness :
  1%positive ∉ global_queue (waitq (demo_state demo_unqueued)) /\ flag (waitq (demo_state demo_unqueued)) 1%positive.
Proof.
  destruct (waiter_served_in_turn 462 1 demo_reg [demo_task; Task 101 1000 [115; 104]] (demo_state demo_labels) 1%positive 1
    (demo_state demo_unqueued) eq_refl eq_refl demo_reach) as [Ho Hf].
  - vm_compute. left.
  - exact demo_served.
  - vm_compute. reflexivity.
  - split; [exact Ho|]. eapply (Hf 0%nat); vm_compute; reflexivity.
Defined.

(** The proviso of [timely] is needed: when the first epoch ends between
    [mod_timer] and [working = 1] of [sysThrot_turn_on], the callback sees
    [working == 0] and does not re-arm the timer.  Throttling is then on with a
    dead timer; a thread that finds no token waits, and no thread, no callback
    and no pending request of the administrator can move again. *)
Definition late_labels : list label :=
  take 4 turn_on_labels ++ replicate 20 LTimer ++ [LCtl true; LEnter 1 1] ++ replicate 20 (LThread 1 ok) ++ block_labels 0.
Definition late_state : state := match run 462 late_labels core_init with Next s => s | _ => core_init end.

Example turn_on_race :
  run 462 late_labels core_init = Next late_state /\ working late_state = true /\ timer late_state = TIdle false /\
  threads late_state !! 0%nat = Some (Thread demo_task 1 (PSleep 1%positive 0)) /\
  forall n, trace 462 robin late_state n = late_state.
Proof.
  split_and!; [vm_compute; reflexivity..|].
  assert (forall l, (l = LThread 0 ok \/ l = LThread 1 ok \/ l = LCtl true \/ l = LTimer) -> advance 462 l late_state = late_state) as H.
  { intros l [->|[->|[->| ->]]]; vm_compute; reflexivity. }
  induction n as [|n IH]; [done|]. cbn [trace]. rewrite IH. apply H. unfold robin. destruct (n mod 4)%nat as [|[|[|k]]]; auto.
Qed.
