(* ===== verification/CoreLeak.v ===== *)
(** * The memory of the wait queue

    An element of the queue is freed once its thread has marked it exited.  An
    element that is not marked and that no thread holds any more is leaked: it
    stays allocated for ever.  This happens exactly when a waiter leaves because
    throttling is being turned off. *)

From stdpp Require Import prelude gmap list.
From S2P Require Import Prelude Kernel Store Queue Stats Core CoreProofs CoreLive CoreSpec CoreFair.

Definition holder (s : state) (e : eid) : Prop :=
  exists i th, threads s !! i = Some th /\ holds (th_pc th) = Some e.

Definition leaked (s : state) (e : eid) : Prop := live (waitq s) e /\ ~ holder s e.

(** The step at which a waiter leaves because [working] is 0. *)
Definition abandons (l : label) (s : state) (e : eid) : Prop :=
  exists i c th clk r, l = LThread i c /\ threads s !! i = Some th /\ th_pc th = PWoken e clk r /\ working s = false.

(** ** Which elements the operations keep alive *)

Lemma woken_live_iff W q q' e : woken_elems W (elems q) (elems q') -> live q' e <-> live q e.
Proof.
  intros Hw. unfold live. rewrite Hw. case_decide; [|done]. destruct (elems q !! e) as [[w x]|]; simpl; naive_solver.
Qed.

Lemma unqueue_live n q r q' e : queue_wf q -> unqueue n q = Some (r, q') -> live q' e <-> live q e.
Proof.
  intros Hwf E. destruct (unqueue_ok n q Hwf) as (pre & r0 & q0 & E0 & Hs). rewrite E0 in E. injection E as -> ->.
  eapply woken_live_iff, Hs.
Qed.

Lemma wake_up_live q c q' e : queue_wf q -> wake_up_queue q = Some (c, q') -> live q' e <-> live q e.
Proof.
  intros Hwf E. destruct (wake_up_queue_ok q Hwf) as (c0 & q0 & E0 & Hs). rewrite E0 in E. injection E as -> ->.
  eapply woken_live_iff, Hs.
Qed.

Lemma free_junk_live q q' e : queue_wf q -> free_junk q = Some q' -> live q' e <-> live q e.
Proof.
  intros Hwf E. destruct (free_junk_ok q Hwf) as (q0 & E0 & Hs). rewrite E0 in E. injection E as ->.
  unfold live. rewrite (fj_elems _ _ Hs). case_decide as Hd; [|done]. destruct Hd as [_ [w Hd]]. rewrite Hd. naive_solver.
Qed.

Lemma set_exited_live q q' e e' : set_exited_flag e' q = Some q' -> live q' e <-> live q e /\ e <> e'.
Proof.
  unfold set_exited_flag, live. destruct (elems q !! e') as [d|] eqn:Hd; [|done]. simpl. intros [= <-]. simpl.
  destruct (decide (e' = e)) as [<-|Hne]; [rewrite lookup_insert_eq; naive_solver|]. rewrite lookup_insert_ne by done. naive_solver.
Qed.

Lemma add_live a w q r q' e : queue_wf q -> add_to_queue a w q = Some (r, q') ->
  live q' e <-> live q e \/ (r = AqFlag e /\ e = next_elem q).
Proof.
  intros Hwf. unfold add_to_queue. destruct (queue_cache q); [|done]. simpl.
  destruct a; simpl; [|intros [= <- <-]; naive_solver]. destruct w; simpl; intros [= <- <-]; [|naive_solver].
  unfold live. simpl. destruct (decide (next_elem q = e)) as [<-|Hne]; [rewrite lookup_insert_eq|rewrite lookup_insert_ne by done]; naive_solver.
Qed.

(** ** Holders *)

Lemma holder_ext s s' e : (forall i, (fun th => holds (th_pc th)) <$> threads s' !! i = (fun th => holds (th_pc th)) <$> threads s !! i) ->
  holder s' e <-> holder s e.
Proof.
  intros Hh. unfold holder. split; intros (i & th & Hi & He); specialize (Hh i); rewrite Hi in Hh; simpl in Hh.
  - destruct (threads s !! i) as [th'|] eqn:E; [|discriminate Hh]. exists i, th'. split; [done|]. simpl in Hh. congruence.
  - destruct (threads s' !! i) as [th'|] eqn:E; [|discriminate Hh]. exists i, th'. split; [done|]. simpl in Hh. congruence.
Qed.

Lemma holder_put s s' i th p e : threads s !! i = Some th -> threads s' = put i p (threads s) ->
  holder s' e <-> holds p = Some e \/ exists j th', j <> i /\ threads s !! j = Some th' /\ holds (th_pc th') = Some e.
Proof.
  intros Hi Ht. unfold holder. split.
  - intros (j & th' & Hj & He). rewrite Ht, lookup_put in Hj. case_decide as Hd; [|right; eauto].
    subst j. rewrite Hi in Hj. injection Hj as <-. by left.
  - intros [He|(j & th' & Hne & Hj & He)].
    + exists i. rewrite (threads_put _ _ _ _ _ Hi Ht). eauto.
    + exists j, th'. by rewrite Ht, lookup_put, decide_False by done.
Qed.

Lemma holder_split s i th e : threads s !! i = Some th ->
  holder s e <-> holds (th_pc th) = Some e \/ exists j th', j <> i /\ threads s !! j = Some th' /\ holds (th_pc th') = Some e.
Proof.
  intros Hi. unfold holder. split.
  - intros (j & th' & Hj & He). destruct (decide (j = i)) as [->|]; [|right; eauto]. rewrite Hi in Hj. injection Hj as <-. by left.
  - intros [?|(j & th' & _ & ? & ?)]; eauto.
Qed.

(** A thread that keeps its element, or takes the new one. *)
Lemma leaked_same s s' i th p e : threads s !! i = Some th -> threads s' = put i p (threads s) -> holds p = holds (th_pc th) ->
  (live (waitq s') e <-> live (waitq s) e) -> leaked s' e <-> leaked s e.
Proof. intros Hi Ht Hp Hl. unfold leaked. by rewrite (holder_put s s' i th p e Hi Ht), (holder_split s i th e Hi), Hp, Hl. Qed.

(** The thread gives its element up without marking it. *)
Lemma leaked_abandon s s' i th p e e1 : inv s -> threads s !! i = Some th -> holds (th_pc th) = Some e1 ->
  threads s' = put i p (threads s) -> holds p = None -> waitq s' = waitq s -> leaked s' e <-> leaked s e \/ e = e1.
Proof.
  intros Hinv Hi Hh Ht Hp Hq. unfold leaked. rewrite (holder_put s s' i th p e Hi Ht), (holder_split s i th e Hi), Hh, Hp, Hq.
  destruct (decide (e = e1)) as [->|Hne]; [|naive_solver]. split; [by right|]. intros _.
  split; [by apply (held_queued s i th)|]. intros [?|(j & th' & Hji & Hj & He)]; [done|]. apply Hji.
  apply (own_inj _ _ (iv_own _ Hinv) j i e1); [by rewrite (held_lookup _ _ _ Hj), He|by rewrite (held_lookup _ _ _ Hi), Hh].
Qed.

(** The thread takes a new element. *)
Lemma leaked_add s s' i th p q a w e e1 : queue_wf (waitq s) -> threads s !! i = Some th -> holds (th_pc th) = None ->
  add_to_queue a w (waitq s) = Some (AqFlag e1, q) -> threads s' = put i p (threads s) -> holds p = Some e1 -> waitq s' = q ->
  leaked s' e <-> leaked s e.
Proof.
  intros Hwf Hi Hh Ea Ht Hp Hq. unfold leaked. pose proof (add_live _ _ _ _ _ e Hwf Ea) as Hl.
  rewrite (holder_put s s' i th p e Hi Ht), (holder_split s i th e Hi), Hh, Hp, Hq, Hl.
  split; [|intros [He Hn]; split; [by left|]]; [intros [[?|[[= ->] _]] Hn]; naive_solver|].
  intros [[= ->]|?]; [|naive_solver]. clear Hl Hn. unfold add_to_queue in Ea. destruct (queue_cache _); [|done]. simpl in Ea.
  destruct a; [|done]. simpl in Ea. destruct w; [|done]. simpl in Ea. injection Ea as <- _.
  destruct He as [x Hx]. pose proof (qw_next _ Hwf _ (ex_intro _ _ Hx)). lia.
Qed.

(** One step of a thread: the leaked elements stay the same, but for the one it
    abandons. *)
Lemma leaked_stub sup i th c s s' e : inv s -> threads s !! i = Some th -> stub_step sup i th c s = Next s' ->
  leaked s' e <-> leaked s e \/ abandons (LThread i c) s e.
Proof.
  intros Hinv Hi E. pose proof (own_wf _ _ (iv_own _ Hinv)) as Hwf.
  assert ((leaked s' e <-> leaked s e) -> (forall clk r, th_pc th = PWoken e clk r -> working s = true) ->
    leaked s' e <-> leaked s e \/ abandons (LThread i c) s e) as Hno.
  { intros Hl Hn. rewrite Hl. split; [by left|]. intros [?|(i0 & c0 & th0 & clk & r & [= <- <-] & Hi0 & Hp & Hw)]; [done|].
    rewrite Hi in Hi0. injection Hi0 as <-. rewrite (Hn _ _ Hp) in Hw. done. }
  unfold stub_step in E. destruct (th_pc th) as [r| | | | |clk|e1 clk fast wk []|e1 clk|e1 clk r|e1 clk r|clk r| |d|r] eqn:Hp; try done;
    try (injection E as <-; apply Hno; [|done]; eapply (leaked_same s _ i th); [done|done|by rewrite Hp|done]).
  - injection E as <-. apply Hno; [|done]. eapply (leaked_same s _ i th); [done|done| |done]. rewrite Hp. by destruct (program_registered _ _).
  - injection E as <-. apply Hno; [|done]. eapply (leaked_same s _ i th); [done|done| |done]. rewrite Hp. by destruct (user_registered _ _).
  - destruct (_ <=? _); injection E as <-; (apply Hno; [|done]); (eapply (leaked_same s _ i th); [done|done|by rewrite Hp|done]).
  - apply Hno; [|done]. destruct (add_to_queue _ _ _) as [[a q]|] eqn:Ea; [|done]. pose proof (add_live _ _ _ _ _ e Hwf Ea) as Hl.
    destruct a; injection E as <-; [..|by eapply (leaked_add s _ i th); [|done|rewrite Hp|..]];
      (eapply (leaked_same s _ i th); [done|done|by rewrite Hp|simpl; naive_solver]).
  - injection E as <-. apply Hno; [|done]. eapply (leaked_same s _ i th); [done|done| |done]. rewrite Hp. by destruct (working s).
  - destruct (elems _ !! e1) as [d|]; [|done]. injection E as <-. apply Hno; [|done].
    eapply (leaked_same s _ i th); [done|done| |done]. rewrite Hp. by destruct (wake_up_flag d), fast, (ch_signal c), wk.
  - destruct (ch_signal c); [|done]. injection E as <-. apply Hno; [|done]. eapply (leaked_same s _ i th); [done|done|by rewrite Hp|done].
  - destruct (working s) eqn:Hw; injection E as <-.
    + apply Hno; [|done]. eapply (leaked_same s _ i th); [done|done|by rewrite Hp|done].
    + rewrite (leaked_abandon s (set_pc i (PDec 0) s) i th (PDec 0) e e1 Hinv Hi ltac:(by rewrite Hp) eq_refl eq_refl eq_refl).
      apply or_iff_compat_l. split; [intros ->; by exists i, c, th, clk, r|].
      intros (i0 & c0 & th0 & clk0 & r0 & [= <- <-] & Hi0 & Hp0 & _). rewrite Hi in Hi0. injection Hi0 as <-. congruence.
  - apply Hno; [|done]. destruct (set_exited_flag _ _) as [q|] eqn:Es; [|done]. injection E as <-. unfold leaked. simpl.
    rewrite (set_exited_live _ _ e _ Es), (holder_put s (set_pc i (PAfter clk r) (set_waitq q s)) i th (PAfter clk r) e Hi eq_refl), (holder_split s i th e Hi), Hp.
    simpl. naive_solver.
  - injection E as <-. apply Hno; [|done]. eapply (leaked_same s _ i th); [done|done| |done]. rewrite Hp. by destruct (_ =? _).
Qed.

(** The steps of the others leak nothing. *)
Lemma leaked_quiet s s' e : (forall i, (fun th => holds (th_pc th)) <$> threads s' !! i = (fun th => holds (th_pc th)) <$> threads s !! i) ->
  (live (waitq s') e <-> live (waitq s) e) -> leaked s' e <-> leaked s e.
Proof. intros Hh Hl. unfold leaked. by rewrite (holder_ext s s' e Hh), Hl. Qed.

Lemma woken_holds (l : list thread) (i : nat) : (fun th => holds (th_pc th)) <$> ((fun th => Thread (th_task th) (th_nr th) (wake_pc (th_pc th))) <$> l) !! i =
  (fun th => holds (th_pc th)) <$> l !! i.
Proof. rewrite list_lookup_fmap. destruct (l !! i) as [th|]; [|done]. simpl. by rewrite holds_wake. Qed.

Lemma leaked_timer s s' e : inv s -> timer_step s = Next s' -> leaked s' e <-> leaked s e.
Proof.
  intros Hinv E. pose proof (own_wf _ _ (iv_own _ Hinv)) as Hwf. unfold timer_step in E.
  destruct (timer s) as [[]| |n|n|n|n| |b]; try done; try (injection E as <-; by apply leaked_quiet).
  - destruct (unqueue _ _) as [[r q]|] eqn:Eu; [|done]. injection E as <-. apply leaked_quiet; [done|]. by eapply unqueue_live.
  - injection E as <-. apply leaked_quiet; [|done]. intros i. apply woken_holds.
  - destruct (free_junk _) eqn:Ef; [|done]. injection E as <-. apply leaked_quiet; [done|]. by apply free_junk_live.
Qed.

Lemma leaked_ctl a s s' e : inv s -> ctl_step a s = Next s' -> leaked s' e <-> leaked s e.
Proof.
  intros Hinv E. pose proof (own_wf _ _ (iv_own _ Hinv)) as Hwf. unfold ctl_step in E.
  destruct (ctl s); try done; try (injection E as <-; by apply leaked_quiet).
  - injection E as <-. apply leaked_quiet; [done|]. by destruct a.
  - destruct (timer s) as [[]| | | | | | |]; injection E as <-; by apply leaked_quiet.
  - destruct (timer s); try done. injection E as <-. by apply leaked_quiet.
  - destruct (wake_up_queue _) as [[c q]|] eqn:Ew; [|done]. injection E as <-. apply leaked_quiet; [done|]. by eapply wake_up_live.
  - injection E as <-. apply leaked_quiet; [|done]. intros i. apply woken_holds.
  - unfold destroy_queue in E. destruct (free_junk _) as [q|] eqn:Ef; [|done]. injection E as <-. apply leaked_quiet; [done|].
    exact (free_junk_live _ _ e Hwf Ef).
Qed.

(** ** What is allocated while throttling is off *)

(** No element is marked exited: every allocated one is live. *)
Definition swept (q : queue) : Prop := forall e, is_Some (elems q !! e) -> live q e.

(** Once [sysThrot_turn_off] has woken the queue nobody is queued any more, and
    once it has returned no exited element is left. *)
Definition clean (s : state) : Prop :=
  match ctl s with
  | CIdle _ => working s = false -> swept (waitq s)
  | COnInit | COnSetup | COnArm | COnWorking => swept (waitq s)
  | COffWorking | COffTimer | COffWake => True
  | COffLoop | COffPoll | COffDestroy => global_queue (waitq s) = []
  end.

Lemma swept_ext q q' : (forall e, live q' e <-> live q e) -> (forall e, is_Some (elems q' !! e) -> is_Some (elems q !! e)) ->
  swept q -> swept q'.
Proof. intros Hl Hs Hq e He. apply Hl, Hq, Hs, He. Qed.

Lemma free_junk_swept q q' : queue_wf q -> global_queue q = [] -> free_junk q = Some q' -> swept q'.
Proof.
  intros Hwf Hg E e [d Hd]. destruct (free_junk_ok q Hwf) as (q0 & E0 & Hs). rewrite E0 in E. injection E as ->.
  rewrite (fj_elems _ _ Hs) in Hd. case_decide as Hc; [done|]. apply (free_junk_live _ _ _ Hwf E0).
  destruct d as [w []]; [|by exists w]. destruct Hc. split; [|by exists w].
  pose proof (proj2 (qw_live _ Hwf e) (ex_intro _ _ Hd)) as Hin. by rewrite Hg in Hin.
Qed.

(** Threads: outside while throttling is off, and not queued while it is being
    turned off. *)
Lemma clean_stub sup i th c s s' : inv s -> clean s -> threads s !! i = Some th -> stub_step sup i th c s = Next s' -> clean s'.
Proof.
  intros Hinv Hcl Hi E. destruct (stub_frame _ _ _ _ _ _ Hinv E) as [_ Hw Hc Hm Ht _].
  assert (is_out (th_pc th) = false) as Hout by (unfold stub_step in E; by destruct (th_pc th)).
  pose proof (iv_ctl _ Hinv) as Hct. unfold clean, ctl_inv in *. rewrite Hc, Hw.
  destruct (ctl s); try done; try (exfalso; by eapply all_out_not; [apply Hct|done..]);
    [intros Hoff; rewrite Hoff in Hct; exfalso; by eapply all_out_not; [apply Hct|done..]|..];
    destruct Hct as (Hoff & _); unfold stub_step in E; rewrite Hoff in E;
    unfold add_to_queue, set_exited_flag in E; repeat case_match; simplify_option_eq; done.
Qed.

Lemma unqueue_some n q r q' e : queue_wf q -> unqueue n q = Some (r, q') -> is_Some (elems q' !! e) -> is_Some (elems q !! e).
Proof.
  intros Hwf E. destruct (unqueue_ok n q Hwf) as (pre & r0 & q0 & E0 & Hs). rewrite E0 in E. injection E as -> ->.
  apply (woken_live _ _ _ e (us_elems _ _ _ _ _ Hs)).
Qed.

Lemma free_junk_some q q' e : queue_wf q -> free_junk q = Some q' -> is_Some (elems q' !! e) -> is_Some (elems q !! e).
Proof.
  intros Hwf E. destruct (free_junk_ok q Hwf) as (q0 & E0 & Hs). rewrite E0 in E. injection E as ->.
  rewrite (fj_elems _ _ Hs). case_decide; [by intros [? ?]|done].
Qed.

Lemma clean_timer s s' : inv s -> clean s -> timer_step s = Next s' -> clean s'.
Proof.
  intros Hinv Hcl E. destruct (timer_frame _ _ E) as (Hw & Hc & _ & Hne & _). pose proof (own_wf _ _ (iv_own _ Hinv)) as Hwf.
  pose proof (iv_ctl _ Hinv) as Hct. unfold clean, ctl_inv in *. rewrite Hc, Hw.
  destruct (ctl s); try done; try (by destruct Hne; apply Hct).
  - intros Hoff. rewrite Hoff in Hct. by destruct Hne; apply Hct.
  - clear Hct Hw Hc Hne. unfold timer_step in E. destruct (timer s) as [[]| |n|n|n|n| |b]; try done; try (by injection E as <-).
    + destruct (unqueue _ _) as [[r q]|] eqn:Eu; [|done]. injection E as <-.
      eapply swept_ext; [| |done]; intros e; [by eapply unqueue_live|by eapply unqueue_some].
    + destruct (free_junk _) eqn:Ef; [|done]. injection E as <-.
      eapply swept_ext; [| |done]; intros e; [by eapply free_junk_live|by eapply free_junk_some].
Qed.

Lemma clean_ctl a s s' : inv s -> clean s -> ctl_step a s = Next s' -> clean s'.
Proof.
  intros Hinv Hcl E. pose proof (own_wf _ _ (iv_own _ Hinv)) as Hwf. pose proof (iv_ctl _ Hinv) as Hct.
  unfold clean, ctl_inv, ctl_step in *. destruct (ctl s); try done.
  - injection E as <-. simpl. by destruct a.
  - by injection E as <-.
  - destruct Hct as (_ & _ & _ & Ht). rewrite Ht in E. by injection E as <-.
  - by injection E as <-.
  - by injection E as <-.
  - destruct (timer s); try done. by injection E as <-.
  - destruct (wake_up_queue_ok _ Hwf) as (c & q & E1 & Hs). rewrite E1 in E. injection E as <-. simpl. apply Hs.
  - injection E as <-. simpl. by destruct (0 <? _).
  - by injection E as <-.
  - unfold destroy_queue in E. destruct (free_junk _) as [q|] eqn:Ef; [|done]. injection E as <-. intros _. simpl.
    exact (free_junk_swept _ _ Hwf Hcl Ef).
Qed.

Lemma clean_reach sup m r tasks s : Z.of_nat (length tasks) < 2 ^ 31 -> reach sup orderly (init_state m r tasks) s -> clean s.
Proof.
  intros Hl. induction 1 as [|l s s' Hr IH E Ho].
  { intros _ e [d Hd]. simpl in Hd. by rewrite lookup_empty in Hd. }
  pose proof (reach_inv _ _ _ (inv_init m r tasks Hl) Hr) as Hinv.
  destruct l as [i nr|i c| | | |a|x]; simpl in E.
  - unfold stub_enter in E. destruct (threads s !! i) as [[t n []]|]; try done. by injection E as <-.
  - destruct (threads s !! i) as [th|] eqn:Hi; [|done]. by eapply clean_stub.
  - by eapply clean_timer.
  - unfold turn_on_enter in E. unfold clean in IH. destruct (ctl s) eqn:Hc; try done. injection E as <-. unfold clean. simpl.
    destruct (working s) eqn:Hw; simpl; [by intros ?|by apply IH].
  - unfold turn_off_enter in E. unfold clean in IH. destruct (ctl s) eqn:Hc; try done. injection E as <-. unfold clean. simpl.
    destruct (working s) eqn:Hw; simpl; [done|intros _; by apply IH].
  - by eapply clean_ctl.
  - by injection E as <-.
Qed.

(** When throttling is off the allocated elements are the leaked ones. *)
Lemma off_elements s e : inv s -> clean s -> working s = false -> (exists r, ctl s = CIdle r) ->
  is_Some (elems (waitq s) !! e) <-> leaked s e.
Proof.
  intros Hinv Hcl Hw [r Hc]. pose proof (iv_ctl _ Hinv) as Hct. unfold clean, ctl_inv in *. rewrite Hc in *. rewrite Hw in Hct.
  split; [|by intros [[w Hd] _]; eexists]. intros He. split; [by apply Hcl|]. intros (i & th & Hi & Hh).
  eapply (all_out_not _ _ _ (proj1 (proj2 Hct)) Hi). by destruct (th_pc th).
Qed.

(** C14: the memory of the queue, for every number of waiters and in every
    orderly run: an element that is not marked exited and that no thread holds
    is never freed, and such elements come into being exactly at the steps at
    which a waiter leaves because throttling is being turned off.  As long as it
    is not, every unmarked element belongs to a thread inside. *)
Theorem queue_memory sup m r tasks s l s' e : Z.of_nat (length tasks) < 2 ^ 31 ->
  reach sup orderly (init_state m r tasks) s -> step sup l s = Next s' -> orderly l s s' ->
  (leaked s' e <-> leaked s e \/ abandons l s e) /\ (leaked s e -> is_Some (elems (waitq s') !! e)).
Proof.
  intros Hl Hr E Ho. pose proof (reach_inv _ _ _ (inv_init m r tasks Hl) Hr) as Hinv.
  assert (leaked s' e <-> leaked s e \/ abandons l s e) as H.
  { assert ((leaked s' e <-> leaked s e) -> (forall i c, l <> LThread i c) -> leaked s' e <-> leaked s e \/ abandons l s e) as Hno.
    { intros -> Hn. split; [by left|]. intros [?|(i & c & ? & ? & ? & -> & _)]; [done|]. by destruct (Hn i c). }
    destruct l as [j nr|j c| | | |a|x]; simpl in E.
    - unfold stub_enter in E. destruct (threads s !! j) as [[t n0 p]|] eqn:Hj; [|done]. destruct p; try done. injection E as <-.
      apply Hno; [|done]. apply leaked_quiet; [|done]. intros i. simpl. destruct (decide (j = i)) as [<-|]; [|by rewrite list_lookup_insert_ne].
      rewrite list_lookup_insert_eq by by eapply lookup_lt_Some. rewrite Hj. simpl. by destruct (working s).
    - destruct (threads s !! j) as [th|] eqn:Hj; [|done]. by eapply leaked_stub.
    - apply Hno; [|done]. by apply leaked_timer.
    - unfold turn_on_enter in E. destruct (ctl s); try done. injection E as <-. apply Hno; [|done]. by apply leaked_quiet.
    - unfold turn_off_enter in E. destruct (ctl s); try done. injection E as <-. apply Hno; [|done]. by apply leaked_quiet.
    - apply Hno; [|done]. by eapply leaked_ctl.
    - injection E as <-. apply Hno; [|done]. by apply leaked_quiet. }
  split; [done|]. intros Hk. assert (leaked s' e) as [[w Hw] _] by (apply H; by left). by exists (Elem w false).
Qed.

(** The run of [turn_off_leaks_waiters] up to the step at which thread 0
    leaves. *)
Definition leaving_labels : list label := demo_labels ++ turn_off_labels ++ [LCtl true; LCtl true; LThread 0 ok; LThread 0 ok].
Definition left_labels : list label := leaving_labels ++ [LThread 0 ok].

Lemma leaving_reach : reach 462 orderly core_init (demo_state leaving_labels).
Proof. eapply (run_orderly_reach 462 core_init leaving_labels); [apply reach_refl|]. vm_compute. reflexivity. Qed.

Lemma queue_memory_witness : leaked (demo_state left_labels) 1%positive.
Proof.
  apply (queue_memory 462 1 demo_reg [demo_task; Task 101 1000 [115; 104]] (demo_state leaving_labels) (LThread 0 ok)
    (demo_state left_labels) 1%positive eq_refl leaving_reach).
  - vm_compute. reflexivity.
  - apply orderlyb_ok. vm_compute. reflexivity.
  - right. do 5 eexists. split; [reflexivity|]. vm_compute. repeat split; reflexivity.
Defined.
