(* ===== verification/Lock.v ===== *)
(** * Spin locks and the timer softirq

    In [Core.v] and [Unload.v] a critical section is one step.  Here the locks
    that protect it are put under those systems: [spin_lock] is a step of its
    own, the sections of a lock are served in the order in which they were asked
    for (the kernel's queued spin locks are first come, first served), a thread
    that waits for a lock or holds it stays on its CPU (preemption is off), and
    the epoch callback is a softirq: while it runs, no other code runs on its
    CPU.  The code takes its locks with plain [spin_lock], which does not keep
    the softirq away: a callback that starts on the CPU of a thread which is in a
    section, or waits for one, spins on a lock that nobody can give up.

    The layer is generic in the system below, given by an instance of [Locking];
    [LockingLaws] is what it needs of that system.  The main result, [lock_fair]:
    if no callback starts on the CPU of a thread at a lock ([undisturbed]) and
    every party gets its turns, every party of the system below gets to take its
    steps again and again. *)

From stdpp Require Import prelude list.
From S2P Require Import Prelude.

(** A system with states [B], events [E], agents [A], locks [L]; the events of a
    kind ([K]) are scheduled fairly together. *)
Class Locking (B E A L K : Type) := {
  lk_step : E -> B -> option B;
  lk_agent : E -> A;
  lk_kind : E -> K;
  lk_of : K -> A;                       (* whose events are of a kind *)
  lk_main : E -> bool;                  (* the agent goes on in the module's code *)
  lk_wants : A -> B -> option L;        (* the lock of the section the agent is at *)
  lk_needs : E -> B -> bool;            (* this event gets as far as [spin_lock] *)
  lk_body : B -> E -> E;                (* the event, once past [spin_lock] *)
  lk_nested : A -> B -> option L;       (* a lock taken inside that section *)
  lk_timer : A;
  lk_active : B -> bool;                (* the callback is running *)
  lk_reader : L;                        (* the lock of the readers of [/proc] *)
}.

(** Agents of the system, and readers of [/proc/SYSTHROT]. *)
Abbreviation party A := (A + nat)%type.

Record locked {B A L : Type} := Locked {
  base : B;
  waiters : L -> list (party A);        (* in order; the first one holds the lock *)
  cpu : party A -> nat;
}.
Arguments locked : clear implicits.
Arguments Locked {_ _ _}.

Inductive turn {E A : Type} :=
| Ev (e : E)
| Read (j : nat)                        (* [my_seq_start], and later [my_seq_stop] *)
| Move (x : party A) (c : nat).         (* migration to another CPU *)
Arguments turn : clear implicits.

(** What a turn comes to. *)
Inductive action {E A L : Type} :=
| Nothing                               (* suspended, or spinning *)
| Place (x : party A) (c : nat)
| Take (k : L) (x : party A)            (* [spin_lock] *)
| Give (k : L)                          (* [spin_unlock] of a reader *)
| Run (e : E)                           (* a step without a lock *)
| Critical (k : L) (e : E).             (* the section and its [spin_unlock] *)
Arguments action : clear implicits.

Section layer.
Context {B E A L K : Type} {HA : EqDecision A} {HL : EqDecision L} {HB : Locking B E A L K} (readers : nat).
#[local] Abbreviation locked := (locked B A L).
#[local] Abbreviation turn := (turn E A).
#[local] Abbreviation action := (action E A L).

Definition lk_advance (e : E) (s : B) : B := default s (lk_step e s).

(** The callback runs on its CPU. *)
Definition suspended (x : party A) (σ : locked) : bool :=
  lk_active (base σ) && bool_decide (x <> inl lk_timer) && (cpu σ x =? cpu σ (inl lk_timer))%nat.

Definition lock_of (x : party A) (s : B) : option L :=
  match x with inl a => lk_wants a s | inr _ => Some lk_reader end.

Definition at_lock (x : party A) (σ : locked) : bool :=
  match lock_of x (base σ) with Some k => bool_decide (x ∈ waiters σ k) | None => false end.

Definition owns (x : party A) (k : L) (σ : locked) : bool := bool_decide (head (waiters σ k) = Some x).

Definition unheld (k : option L) (σ : locked) : bool :=
  match k with Some k => bool_decide (waiters σ k = []) | None => true end.

Definition act (t : turn) (σ : locked) : action :=
  match t with
  | Move x c =>
      if at_lock x σ || suspended x σ || (bool_decide (x = inl lk_timer) && lk_active (base σ)) then Nothing else Place x c
  | Read j =>
      if suspended (inr j) σ || negb (j <? readers)%nat then Nothing
      else if negb (bool_decide (inr j ∈ waiters σ lk_reader)) then Take lk_reader (inr j)
      else if owns (inr j) lk_reader σ then Give lk_reader else Nothing
  | Ev e =>
      let x := inl (lk_agent e) in
      if suspended x σ then Nothing
      else if negb (lk_main e) then Run e
      else
        match lk_wants (lk_agent e) (base σ) with
        | None => Run e
        | Some k =>
            if bool_decide (x ∈ waiters σ k) then
              if owns x k σ && unheld (lk_nested (lk_agent e) (base σ)) σ then Critical k (lk_body (base σ) e) else Nothing
            else if lk_needs e (base σ) then Take k x else Run e
        end
  end.

Definition spin_lock (k : L) (x : party A) (w : L -> list (party A)) : L -> list (party A) :=
  fun k' => if decide (k' = k) then w k' ++ [x] else w k'.
Definition spin_unlock (k : L) (w : L -> list (party A)) : L -> list (party A) :=
  fun k' => if decide (k' = k) then tail (w k') else w k'.

Definition apply_action (a : action) (σ : locked) : locked :=
  match a with
  | Nothing => σ
  | Place x c => Locked (base σ) (waiters σ) (fun y => if decide (y = x) then c else cpu σ y)
  | Take k x => Locked (base σ) (spin_lock k x (waiters σ)) (cpu σ)
  | Give k => Locked (base σ) (spin_unlock k (waiters σ)) (cpu σ)
  | Run e => Locked (lk_advance e (base σ)) (waiters σ) (cpu σ)
  | Critical k e => Locked (lk_advance e (base σ)) (spin_unlock k (waiters σ)) (cpu σ)
  end.

Fixpoint lock_trace (sched : nat -> turn) (σ : locked) (n : nat) : locked :=
  match n with O => σ | S n => let σ := lock_trace sched σ n in apply_action (act (sched n) σ) σ end.

(** The event of the system below that an action performs. *)
Definition emitted (a : action) : option E := match a with Run e | Critical _ e => Some e | _ => None end.

(** No lock is held and nobody waits for one. *)
Definition unlocked (σ : locked) : Prop := forall k, waiters σ k = [].

(** Again and again [x] gets a turn of the given sort while its CPU is not
    running the callback, unless the callback never leaves its CPU. *)
Definition fair_to (sched : nat -> turn) (σ0 : locked) (x : party A) (mine : turn -> Prop) : Prop :=
  forall n, exists m, (n <= m)%nat /\
    ((mine (sched m) /\ suspended x (lock_trace sched σ0 m) = false) \/
     forall j, (m <= j)%nat -> suspended x (lock_trace sched σ0 j) = true).

(** No callback starts on a CPU on which code holds one of the locks or waits
    for it. *)
Definition undisturbed (sched : nat -> turn) (σ0 : locked) : Prop :=
  forall n k x, lk_active (base (lock_trace sched σ0 n)) = false -> lk_active (base (lock_trace sched σ0 (S n))) = true ->
    x ∈ waiters (lock_trace sched σ0 n) k -> x <> inl lk_timer ->
    cpu (lock_trace sched σ0 n) x <> cpu (lock_trace sched σ0 n) (inl lk_timer).

(** The steps that are taken below satisfy [G]. *)
Definition guarded (G : E -> B -> B -> Prop) (sched : nat -> turn) (σ0 : locked) : Prop :=
  forall n e s', emitted (act (sched n) (lock_trace sched σ0 n)) = Some e ->
    lk_step e (base (lock_trace sched σ0 n)) = Some s' -> G e (base (lock_trace sched σ0 n)) s'.

(** Every kind of event and every reader gets its turns. *)
Record fair_locked (fairk : K -> Prop) (sched : nat -> turn) (σ0 : locked) : Prop := {
  fl_kind κ : fairk κ -> fair_to sched σ0 (inl (lk_of κ)) (fun t => exists e, t = Ev e /\ lk_kind e = κ);
  fl_reader j : (j < readers)%nat -> fair_to sched σ0 (inr j) (fun t => t = Read j);
}.
End layer.

(** What the layer needs of the system below: [I] is an invariant of the steps
    that satisfy [G]; only an agent's own steps take it away from a lock; the
    callback runs to its end in finitely many steps, and nobody else's steps
    touch it; the inner locks are free. *)
Class LockingLaws {B E A L K} `{Locking B E A L K} (I : B -> Prop) (G : E -> B -> B -> Prop) (fairk : K -> Prop) (ticks : B -> nat) := {
  ll_inv e s s' : I s -> lk_step e s = Some s' -> G e s s' -> I s';
  ll_keep e s s' a k : I s -> lk_step e s = Some s' -> G e s s' -> (lk_main e = true -> lk_agent e <> a) ->
    lk_wants a s = Some k -> lk_wants a s' = Some k;
  ll_body s e : lk_agent (lk_body s e) = lk_agent e /\ lk_kind (lk_body s e) = lk_kind e /\ lk_main (lk_body s e) = lk_main e;
  ll_tick e s : I s -> lk_active s = true -> lk_agent e = lk_timer ->
    exists s', lk_step e s = Some s' /\ (G e s s' -> lk_active s' = true -> (ticks s' < ticks s)%nat);
  ll_others e s s' : I s -> lk_step e s = Some s' -> G e s s' -> lk_agent e <> lk_timer -> lk_active s = true ->
    lk_active s' = true /\ (ticks s' <= ticks s)%nat;
  ll_nested a s k k' : I s -> lk_wants a s = Some k -> lk_nested a s = Some k' -> k' <> lk_reader /\ forall b, lk_wants b s <> Some k';
  ll_of κ e : fairk κ -> lk_kind e = κ -> lk_agent e = lk_of κ;
  ll_main_kind a s k : I s -> lk_wants a s = Some k -> exists κ, fairk κ /\ lk_of κ = a /\ forall e, lk_kind e = κ -> lk_main e = true;
  ll_same_kind e e' : lk_main e = true -> lk_main e' = true -> lk_agent e = lk_agent e' -> lk_kind e = lk_kind e';
  ll_timer : exists κ, fairk κ /\ lk_of κ = lk_timer /\ forall e, lk_kind e = κ -> lk_main e = true;
}.

(** ** Every party gets to take its steps *)

Section fairness.
Context {B E A L K : Type} {HA : EqDecision A} {HL : EqDecision L} {HB : Locking B E A L K} (readers : nat).
Context (I : B -> Prop) (G : E -> B -> B -> Prop) (fairk : K -> Prop) (ticks : B -> nat) {HLaws : LockingLaws I G fairk ticks}.
Context (sched : nat -> turn E A) (σ0 : locked B A L).
#[local] Abbreviation st := (lock_trace readers sched σ0).
#[local] Abbreviation done_at n := (act readers (sched n) (st n)).
Context (H0 : I (base σ0)) (Hun : unlocked σ0) (Hg : guarded readers G sched σ0) (Hq : undisturbed readers sched σ0).
Context (Hf : fair_locked readers fairk sched σ0).

Lemma base_S n : base (st (S n)) = match emitted (done_at n) with Some e => lk_advance e (base (st n)) | None => base (st n) end.
Proof. cbn [lock_trace]. by destruct (done_at n). Qed.

(** A step below, with its guard. *)
Lemma emitted_step n e : emitted (done_at n) = Some e ->
  (lk_step e (base (st n)) = None /\ base (st (S n)) = base (st n)) \/
  exists s', lk_step e (base (st n)) = Some s' /\ G e (base (st n)) s' /\ base (st (S n)) = s'.
Proof.
  intros He. rewrite base_S, He. unfold lk_advance. destruct (lk_step e (base (st n))) as [s'|] eqn:E1; [|by left].
  right. exists s'. split; [done|]. split; [|done]. by eapply Hg.
Qed.

Lemma base_inv n : I (base (st n)).
Proof.
  induction n as [|n IH]; [done|]. destruct (emitted (done_at n)) as [e|] eqn:He; [|by rewrite base_S, He].
  destruct (emitted_step n e He) as [[_ ->]|(s' & E1 & Hgd & ->)]; [done|]. by eapply ll_inv.
Qed.

(** *** The locks *)

Record lock_inv (σ : locked B A L) : Prop := {
  lv_at x k : x ∈ waiters σ k -> lock_of x (base σ) = Some k;
  lv_nodup k : NoDup (waiters σ k);
  lv_reader j k : inr j ∈ waiters σ k -> (j < readers)%nat;
  lv_apart x k : lk_active (base σ) = true -> x ∈ waiters σ k -> x <> inl lk_timer -> cpu σ x <> cpu σ (inl lk_timer);
}.

Lemma not_suspended x k σ : lock_inv σ -> x ∈ waiters σ k -> suspended x σ = false.
Proof.
  intros Hv Hx. unfold suspended. destruct (lk_active (base σ)) eqn:Ha; [|done]. case_bool_decide as Hn; [|done].
  simpl. apply Nat.eqb_neq. by eapply lv_apart.
Qed.

Lemma unheld_nested a k σ : I (base σ) -> lock_inv σ -> lk_wants a (base σ) = Some k -> unheld (lk_nested a (base σ)) σ = true.
Proof.
  intros HI Hv Hw. unfold unheld. destruct (lk_nested a (base σ)) as [k'|] eqn:Hn; [|done].
  destruct (ll_nested a _ k k' HI Hw Hn) as [Hr Hb]. apply bool_decide_true. destruct (waiters σ k') as [|x q] eqn:Eq; [done|].
  pose proof (lv_at _ Hv x k') as Hx. rewrite Eq in Hx. specialize (Hx ltac:(left)). destruct x as [b|j]; simpl in Hx; [by destruct (Hb b)|by simplify_eq].
Qed.

(** What the actions of a turn tell. *)
Lemma act_take t σ k x : act readers t σ = Take k x -> x ∉ waiters σ k /\ lock_of x (base σ) = Some k /\ suspended x σ = false /\
  forall j, x = inr j -> (j < readers)%nat.
Proof.
  destruct t as [e|j|y c]; simpl.
  - destruct (suspended _ σ) eqn:Hs; [done|]. destruct (lk_main e); [|done]. simpl. destruct (lk_wants _ _) as [k0|] eqn:Hw; [|done].
    case_bool_decide as Hin; [by destruct (_ && _)|]. destruct (lk_needs e _); [|done]. intros [= <- <-]. by split.
  - destruct (suspended _ σ) eqn:Hs; [done|]. destruct (_ <? _)%nat eqn:Hj; [|done]. simpl. case_bool_decide as Hin; simpl; [by destruct (owns _ _ _)|].
    intros [= <- <-]. split_and!; [done..|]. intros j' [= <-]. by apply Nat.ltb_lt.
  - by destruct (_ || _ || _).
Qed.

Lemma act_give t σ k : act readers t σ = Give k -> exists j, k = lk_reader /\ head (waiters σ k) = Some (inr j).
Proof.
  destruct t as [e|j|y c]; simpl.
  - destruct (suspended _ σ); [done|]. destruct (negb _); [done|]. destruct (lk_wants _ _); [|done].
    case_bool_decide; [by destruct (_ && _)|by destruct (lk_needs e _)].
  - destruct (_ || _); [done|]. case_bool_decide; simpl; [|done]. destruct (owns _ _ _) eqn:Ho; [|done].
    intros [= <-]. exists j. split; [done|]. by apply bool_decide_eq_true in Ho.
  - by destruct (_ || _ || _).
Qed.

Lemma act_critical t σ k e' : act readers t σ = Critical k e' -> exists e, t = Ev e /\ e' = lk_body (base σ) e /\ lk_main e = true /\
  lk_wants (lk_agent e) (base σ) = Some k /\ head (waiters σ k) = Some (inl (lk_agent e)).
Proof.
  destruct t as [e|j|y c]; simpl.
  - destruct (suspended _ σ); [done|]. destruct (lk_main e) eqn:Hm; [|done]. simpl. destruct (lk_wants _ _) as [k0|] eqn:Hw; [|done].
    case_bool_decide; [|by destruct (lk_needs e _)]. destruct (owns _ _ _) eqn:Ho; [|done]. simpl. destruct (unheld _ _); [|done].
    intros [= <- <-]. exists e. split_and!; try done. by apply bool_decide_eq_true in Ho.
  - destruct (_ || _); [done|]. case_bool_decide; simpl; [|done]. by destruct (owns _ _ _).
  - by destruct (_ || _ || _).
Qed.

Lemma act_run t σ e : act readers t σ = Run e -> t = Ev e /\ forall k, lk_main e = true -> lk_wants (lk_agent e) (base σ) = Some k -> inl (lk_agent e) ∉ waiters σ k.
Proof.
  destruct t as [e0|j|y c]; simpl.
  - destruct (suspended _ σ); [done|]. destruct (lk_main e0) eqn:Hm; simpl; [|intros [= <-]; split; [done|]; congruence].
    destruct (lk_wants _ _) as [k0|] eqn:Hw; [|intros [= <-]; split; [done|]; congruence].
    case_bool_decide; [by destruct (_ && _)|]. destruct (lk_needs e0 _); [done|]. intros [= <-]. split; [done|]. congruence.
  - destruct (_ || _); [done|]. case_bool_decide; simpl; [|done]. by destruct (owns _ _ _).
  - by destruct (_ || _ || _).
Qed.

Lemma act_place t σ x c : act readers t σ = Place x c ->
  at_lock x σ = false /\ (x = inl lk_timer -> lk_active (base σ) = false).
Proof.
  destruct t as [e0|j|y c']; simpl.
  - destruct (suspended _ σ); [done|]. destruct (negb _); [done|]. destruct (lk_wants _ _); [|done].
    case_bool_decide; [by destruct (_ && _)|by destruct (lk_needs e0 _)].
  - destruct (_ || _); [done|]. case_bool_decide; simpl; [|done]. by destruct (owns _ _ _).
  - destruct (at_lock y σ) eqn:Hl; [done|]. destruct (suspended y σ); [done|]. simpl.
    destruct (bool_decide _ && _) eqn:Hb; [done|]. intros [= <- <-]. split; [done|]. intros ->.
    apply andb_false_iff in Hb as [Hb|Hb]; [|done]. by rewrite bool_decide_eq_false in Hb.
Qed.

Lemma elem_of_unlock x k k' (w : L -> list (party A)) : x ∈ spin_unlock k w k' -> x ∈ w k'.
Proof. unfold spin_unlock. case_decide; [|done]. destruct (w k'); [done|]. by right. Qed.

(** Below: a party at a lock stays at it, but for the one whose section it is. *)
Lemma wants_kept n e x k : lock_inv (st n) -> emitted (done_at n) = Some e -> x ∈ waiters (st n) k ->
  (lk_main e = true -> x <> inl (lk_agent e)) -> lock_of x (base (st (S n))) = Some k.
Proof.
  intros Hv He Hx Hm. pose proof (lv_at _ Hv x k Hx) as Hk. destruct x as [a|j]; [|done]. cbn [lock_of] in *.
  destruct (emitted_step n e He) as [[_ ->]|(s' & E1 & Hgd & ->)]; [done|].
  eapply ll_keep; [apply base_inv|done..| |done]. intros Hme Hea. destruct (Hm Hme). by rewrite Hea.
Qed.

Lemma apart_kept n x k : lock_inv (st n) -> lk_active (base (st (S n))) = true -> x ∈ waiters (st n) k -> x <> inl lk_timer ->
  cpu (st n) x <> cpu (st n) (inl lk_timer).
Proof.
  intros Hv Ha Hx Hn. destruct (lk_active (base (st n))) eqn:Ho; [by eapply lv_apart|]. by eapply Hq.
Qed.

Lemma trace_lock_inv n : lock_inv (st n).
Proof.
  induction n as [|n Hv].
  { split; simpl; intros; [|rewrite Hun; constructor|..]; match goal with H : _ ∈ waiters _ _ |- _ => rewrite Hun in H; by apply not_elem_of_nil in H end. }
  pose proof (fun e x k => wants_kept n e x k Hv) as Hkeep. pose proof (fun x k => apart_kept n x k Hv) as Hap.
  cbn [lock_trace] in *. destruct (done_at n) as [|y c|k y|k|e|k e'] eqn:Ha; cbn [apply_action emitted] in *.
  - done.
  - destruct (act_place _ _ _ _ Ha) as [Hnl Htm]. split; [apply Hv..|]. simpl. intros x k Hact Hx Hn.
    assert (x <> y) as Hxy.
    { intros ->. unfold at_lock in Hnl. rewrite (lv_at _ Hv y k Hx) in Hnl. by apply bool_decide_eq_false in Hnl. }
    rewrite decide_False by done. rewrite decide_False by (intros <-; rewrite Htm in Hact; done). by eapply lv_apart.
  - destruct (act_take _ _ _ _ Ha) as (Hni & Hlk & Hs & Hjr).
    assert (forall x k', x ∈ spin_lock k y (waiters (st n)) k' -> x ∈ waiters (st n) k' \/ (x = y /\ k' = k)) as Hin.
    { intros x k'. unfold spin_lock. case_decide; [|by left]. subst. rewrite elem_of_app, list_elem_of_singleton. naive_solver. }
    split; simpl.
    + intros x k' [Hx|[-> ->]]%Hin; [by apply Hv|done].
    + intros k'. unfold spin_lock. case_decide; [|apply Hv]. subst. apply NoDup_app. split; [apply Hv|]. split; [set_solver|apply NoDup_singleton].
    + intros j k' [Hx|[<- ->]]%Hin; [by eapply lv_reader|by apply Hjr].
    + intros x k' Hact [Hx|[-> ->]]%Hin Hn; [by eapply lv_apart|]. unfold suspended in Hs. rewrite Hact, bool_decide_true in Hs by done. simpl in Hs.
      by apply Nat.eqb_neq in Hs.
  - split; simpl.
    + intros x k' Hx%elem_of_unlock. by apply Hv.
    + intros k'. unfold spin_unlock. case_decide; [|apply Hv]. pose proof (lv_nodup _ Hv k') as Hnd. destruct (waiters (st n) k'); [done|]. by apply NoDup_cons in Hnd as [_ ?].
    + intros j k' Hx%elem_of_unlock. by eapply lv_reader.
    + intros x k' Hact Hx%elem_of_unlock Hn. by eapply lv_apart.
  - destruct (act_run _ _ _ Ha) as [_ Hnw]. split; simpl; [|apply Hv..|].
    + intros x k Hx. apply (Hkeep e x k eq_refl Hx). intros Hm ->. by apply (Hnw k Hm); [apply (lv_at _ Hv _ _ Hx)|].
    + intros x k Hact Hx Hn. by eapply Hap.
  - destruct (act_critical _ _ _ _ Ha) as (e & _ & -> & Hm & Hw & Hh). destruct (ll_body (base (st n)) e) as (Hag & _ & Hmb).
    split; simpl.
    + intros x k' Hx'. pose proof (elem_of_unlock _ _ _ _ Hx') as Hx. apply (Hkeep _ x k' eq_refl Hx). rewrite Hag. intros _ ->.
      pose proof (lv_at _ Hv _ _ Hx) as Hk'. simpl in Hk'. rewrite Hw in Hk'. injection Hk' as <-. unfold spin_unlock in Hx'. rewrite decide_True in Hx' by done.
      pose proof (lv_nodup _ Hv k) as Hnd. destruct (waiters (st n) k) as [|z q]; [done|]. simpl in Hh, Hx'. injection Hh as ->. by apply NoDup_cons in Hnd as [? _].
    + intros k'. unfold spin_unlock. case_decide; [|apply Hv]. pose proof (lv_nodup _ Hv k') as Hnd. destruct (waiters (st n) k'); [done|]. by apply NoDup_cons in Hnd as [_ ?].
    + intros j k' Hx%elem_of_unlock. by eapply lv_reader.
    + intros x k' Hact Hx%elem_of_unlock Hn. by eapply Hap.
Qed.

(** *** Every section is entered and left *)

(** At step [n] the party goes on with its code, or finishes its reading. *)
Definition attempts (x : party A) (n : nat) : Prop :=
  match x with
  | inl a => exists e, sched n = Ev e /\ lk_agent e = a /\ lk_main e = true
  | inr j => sched n = Read j /\ (j < readers)%nat
  end.

#[local] Instance attempts_dec x n : Decision (attempts x n).
Proof.
  unfold attempts. destruct x as [a|j].
  - destruct (sched n) as [e|j|y c]; [|right; by intros (e & ? & _)..].
    destruct (decide (lk_agent e = a)) as [Ha|Ha]; [|right; intros (e' & [= <-] & ? & _); done].
    destruct (lk_main e) eqn:Hm; [left; by exists e|right; intros (e' & [= <-] & _ & ?); congruence].
  - destruct (sched n) as [e|j'|y c]; [right; by intros [? _]| |right; by intros [? _]].
    destruct (decide (j' = j)) as [->|Hj]; [|right; intros [[= ->] _]; done].
    destruct (decide (j < readers)%nat); [by left|right; by intros [_ ?]].
Qed.

(** The holder of a lock keeps it until it goes on, others queue up behind; when
    it goes on the lock passes to the next one. *)
Lemma holder_keeps n k x q : waiters (st n) k = x :: q -> ~ attempts x n -> exists q', waiters (st (S n)) k = (x :: q) ++ q'.
Proof.
  intros Hw Hna. cbn [lock_trace]. destruct (done_at n) as [|y c|k' y|k'|e|k' e'] eqn:Ha; cbn [apply_action waiters];
    try (exists []; by rewrite app_nil_r).
  - unfold spin_lock. case_decide; [|exists []; by rewrite app_nil_r]. subst. exists [y]. by rewrite Hw.
  - unfold spin_unlock. case_decide; [|exists []; by rewrite app_nil_r]. subst. destruct (act_give _ _ _ Ha) as (j & -> & Hh).
    rewrite Hw in Hh. injection Hh as ->. destruct Hna. simpl. unfold act in Ha. destruct (sched n) as [e|j'|y c]; simpl in Ha.
    + destruct (suspended _ _); [done|]. destruct (negb _); [done|]. destruct (lk_wants _ _); [|done].
      case_bool_decide; [by destruct (_ && _)|by destruct (lk_needs e _)].
    + destruct (suspended _ _); [done|]. simpl in Ha. destruct (j' <? readers)%nat eqn:Hj; [|done]. simpl in Ha.
      case_bool_decide; simpl in Ha; [|done]. destruct (owns _ _ _) eqn:Ho; [|done]. apply bool_decide_eq_true in Ho.
      rewrite Hw in Ho. injection Ho as ->. split; [done|]. by apply Nat.ltb_lt.
    + by destruct (_ || _ || _).
  - unfold spin_unlock. case_decide; [|exists []; by rewrite app_nil_r]. subst. destruct (act_critical _ _ _ _ Ha) as (e & He & _ & Hm & _ & Hh).
    rewrite Hw in Hh. injection Hh as ->. destruct Hna. by exists e.
Qed.

Lemma holder_leaves n k x q : waiters (st n) k = x :: q -> attempts x n ->
  waiters (st (S n)) k = q /\ match x with inl a => exists e, emitted (done_at n) = Some e /\ lk_agent e = a /\ lk_main e = true | inr _ => True end.
Proof.
  intros Hw Hat. pose proof (trace_lock_inv n) as Hv. assert (x ∈ waiters (st n) k) as Hx by (rewrite Hw; left).
  pose proof (not_suspended _ _ _ Hv Hx) as Hs. pose proof (lv_at _ Hv _ _ Hx) as Hk. cbn [lock_trace].
  destruct x as [a|j]; simpl in Hat, Hk.
  - destruct Hat as (e & -> & <- & Hm). destruct (ll_body (base (st n)) e) as (Hag & _ & Hmb). simpl.
    rewrite Hs, Hm, Hk. simpl. rewrite bool_decide_true by done. unfold owns. rewrite Hw, bool_decide_true by done.
    rewrite (unheld_nested _ k _ (base_inv n) Hv Hk). simpl. unfold spin_unlock. rewrite decide_True, Hw by done.
    split; [done|]. eexists. split; [done|]. by rewrite Hmb.
  - destruct Hat as [-> Hj]. injection Hk as <-. simpl. rewrite Hs, (proj2 (Nat.ltb_lt _ _) Hj). simpl. rewrite bool_decide_true by done.
    unfold owns. rewrite Hw, bool_decide_true by done. simpl. unfold spin_unlock. by rewrite decide_True, Hw.
Qed.

(** A party at a lock gets turns. *)
Lemma party_fair x k n : x ∈ waiters (st n) k -> exists m, (n <= m)%nat /\
  ((attempts x m /\ suspended x (st m) = false) \/ forall j, (m <= j)%nat -> suspended x (st j) = true).
Proof.
  intros Hx. pose proof (lv_at _ (trace_lock_inv n) x k Hx) as Hk. destruct x as [a|j]; simpl in Hk.
  - destruct (ll_main_kind a _ k (base_inv n) Hk) as (κ & Hfk & <- & Hm).
    destruct (fl_kind _ _ _ _ Hf κ Hfk n) as (m & Hle & [[(e & He & Hke) Hs]|Hs]); exists m; (split; [done|]); [left|by right].
    split; [|done]. exists e. split_and!; [done|by apply ll_of|by apply Hm].
  - pose proof (lv_reader _ (trace_lock_inv n) j k Hx) as Hj.
    destruct (fl_reader _ _ _ _ Hf j Hj n) as (m & Hle & [[He Hs]|Hs]); exists m; (split; [done|]); [by left|by right].
Qed.

(** The holder goes on while the others queue up behind it. *)
Lemma holder_goes_on_by d : forall n k x q, waiters (st n) k = x :: q ->
  (attempts x (n + d)%nat \/ forall j, (n + d <= j)%nat -> suspended x (st j) = true) ->
  exists m q', (n <= m)%nat /\ waiters (st m) k = (x :: q) ++ q' /\ attempts x m.
Proof.
  induction d as [|d IH]; intros n k x q Hw Hd; destruct (decide (attempts x n)) as [Ha|Ha];
    try (exists n, []; by rewrite app_nil_r).
  - rewrite Nat.add_0_r in Hd. destruct Hd as [?|Hs]; [done|]. specialize (Hs n ltac:(lia)).
    rewrite (not_suspended x k (st n) (trace_lock_inv n)) in Hs; [done|]. rewrite Hw. left.
  - destruct (holder_keeps n k x q Hw Ha) as [q1 Hw1]. rewrite Nat.add_succ_r in Hd.
    destruct (IH (S n) k x (q ++ q1) Hw1) as (m & q2 & Hm & Hw2 & Ha2); [done|].
    exists m, (q1 ++ q2). split; [lia|]. split; [|done]. rewrite Hw2. simpl. by rewrite <-app_assoc.
Qed.

Lemma holder_goes_on n k x q : waiters (st n) k = x :: q ->
  exists m q', (n <= m)%nat /\ waiters (st m) k = (x :: q) ++ q' /\ attempts x m.
Proof.
  intros Hw. destruct (party_fair x k n) as (m & Hm & Ht); [rewrite Hw; left|].
  apply (holder_goes_on_by (m - n) n k x q Hw). replace (n + (m - n))%nat with m by lia. naive_solver.
Qed.

(** Whoever waits for a lock gets it, and goes on. *)
Lemma waiter_goes_on k x post pre : forall n, waiters (st n) k = pre ++ x :: post ->
  exists m q, (n <= m)%nat /\ waiters (st m) k = x :: q /\ attempts x m.
Proof.
  revert post. induction pre as [|y pre IH]; intros post n Hw.
  - destruct (holder_goes_on n k x post Hw) as (m & q & ? & ? & ?). eauto.
  - destruct (holder_goes_on n k y (pre ++ x :: post) Hw) as (m & q & Hm & Hwm & Ha).
    destruct (holder_leaves m k y ((pre ++ x :: post) ++ q) Hwm Ha) as [Hs _]. rewrite <-app_assoc in Hs.
    destruct (IH (post ++ q) (S m) Hs) as (m' & q' & Hm' & ? & ?). exists m', q'. split; [lia|done].
Qed.

(** An unsuspended turn of an agent leads to its step. *)
Lemma turn_steps n e : sched n = Ev e -> suspended (inl (lk_agent e)) (st n) = false ->
  exists m e', (n <= m)%nat /\ emitted (done_at m) = Some e' /\ lk_kind e' = lk_kind e /\ lk_agent e' = lk_agent e.
Proof.
  intros He Hs. assert (forall k, inl (lk_agent e) ∈ waiters (st n) k \/ inl (lk_agent e) ∈ waiters (st (S n)) k -> lk_main e = true ->
    exists m e', (n <= m)%nat /\ emitted (done_at m) = Some e' /\ lk_kind e' = lk_kind e /\ lk_agent e' = lk_agent e) as Hwait.
  { intros k Hin Hm. assert (exists n0, (n <= n0)%nat /\ inl (lk_agent e) ∈ waiters (st n0) k) as (n0 & Hn0 & Hin0) by (destruct Hin; eauto).
    apply list_elem_of_split in Hin0 as (pre & post & Hw). destruct (waiter_goes_on k _ post pre n0 Hw) as (m & q & Hnm & Hwm & Ha).
    destruct (holder_leaves m k _ q Hwm Ha) as [_ (e' & He' & Hag & Hme)]. exists m, e'. split; [lia|]. split; [done|]. split; [|done].
    by apply ll_same_kind. }
  assert (emitted (done_at n) = Some e -> exists m e', (n <= m)%nat /\ emitted (done_at m) = Some e' /\ lk_kind e' = lk_kind e /\ lk_agent e' = lk_agent e)
    as Hnow by (intros H; by exists n, e).
  destruct (lk_main e) eqn:Hm; [|apply Hnow; by rewrite He; simpl; rewrite Hs, Hm].
  destruct (lk_wants (lk_agent e) (base (st n))) as [k|] eqn:Hw; [|apply Hnow; by rewrite He; simpl; rewrite Hs, Hm, Hw].
  destruct (decide (inl (lk_agent e) ∈ waiters (st n) k)) as [Hin|Hin]; [by eapply Hwait; [left|]|].
  destruct (lk_needs e (base (st n))) eqn:Hn; [|apply Hnow; rewrite He; simpl; rewrite Hs, Hm, Hw; simpl; by rewrite bool_decide_false, Hn].
  apply (Hwait k); [|done]. right. cbn [lock_trace]. rewrite He. simpl. rewrite Hs, Hm, Hw. simpl. rewrite bool_decide_false, Hn by done.
  simpl. unfold spin_lock. rewrite decide_True by done. set_solver.
Qed.

(** *** The callback comes to its end *)

Lemma timer_closer n : lk_active (base (st n)) = true ->
  lk_active (base (st (S n))) = false \/ (ticks (base (st (S n))) <= ticks (base (st n)))%nat /\
    (forall e, emitted (done_at n) = Some e -> lk_agent e = lk_timer -> (ticks (base (st (S n))) < ticks (base (st n)))%nat).
Proof.
  intros Ha. destruct (emitted (done_at n)) as [e|] eqn:He; [|right; rewrite base_S, He; by split].
  destruct (decide (lk_agent e = lk_timer)) as [Ht|Ht].
  - destruct (ll_tick e _ (base_inv n) Ha Ht) as (s1 & E1 & Hd).
    destruct (emitted_step n e He) as [[E2 _]|(s' & E2 & Hgd & ->)]; [congruence|]. rewrite E1 in E2. injection E2 as ->.
    destruct (lk_active s') eqn:Ha'; [right|by left]. specialize (Hd Hgd eq_refl). split; [lia|]. intros e' [= <-] _. done.
  - right. destruct (emitted_step n e He) as [[E2 ->]|(s' & E2 & Hgd & ->)]; [split; [done|]; congruence|].
    destruct (ll_others e _ s' (base_inv n) E2 Hgd Ht Ha) as [_ ?]. split; [done|]. congruence.
Qed.

Lemma timer_until d : forall n, lk_active (base (st n)) = true ->
  (exists m, (n <= m)%nat /\ lk_active (base (st m)) = false) \/
  (lk_active (base (st (n + d))) = true /\ (ticks (base (st (n + d))) <= ticks (base (st n)))%nat).
Proof.
  induction d as [|d IH]; intros n Ha; [right; by rewrite Nat.add_0_r|].
  destruct (timer_closer n Ha) as [Hi|[Hle _]]; [left; exists (S n); split; [lia|done]|].
  destruct (lk_active (base (st (S n)))) eqn:Ha'; [|left; exists (S n); split; [lia|done]].
  destruct (IH (S n) Ha') as [(m & ? & ?)|[? ?]]; [left; exists m; split; [lia|done]|right]. rewrite Nat.add_succ_r. split; [done|].
  rewrite <-Nat.add_succ_l. lia.
Qed.

Lemma callback_ends n : exists m, (n <= m)%nat /\ lk_active (base (st m)) = false.
Proof.
  remember (ticks (base (st n))) as t eqn:Ht. revert n Ht. induction (lt_wf t) as [t _ IH]. intros n ->.
  destruct (lk_active (base (st n))) eqn:Ha; [|by exists n].
  destruct ll_timer as (κ & Hfk & Hof & Hmain).
  destruct (fl_kind _ _ _ _ Hf κ Hfk n) as (m & Hm & [[(e & He & Hk) Hs]|Hs]).
  2: { specialize (Hs m ltac:(lia)). rewrite Hof in Hs. unfold suspended in Hs. rewrite bool_decide_false, andb_false_r in Hs; [done|]. naive_solver. }
  destruct (turn_steps m e He) as (m' & e' & Hm' & He' & _ & Hag); [by rewrite (ll_of κ e Hfk Hk)|].
  destruct (timer_until (m' - n) n Ha) as [?|[Ha' Hle]]; [done|]. replace (n + (m' - n))%nat with m' in * by lia.
  destruct (timer_closer m' Ha') as [Hi|[_ Hlt]]; [exists (S m'); split; [lia|done]|].
  assert (ticks (base (st (S m'))) < ticks (base (st n)))%nat as Hdec.
  { specialize (Hlt e' He'). rewrite Hag, (ll_of κ e Hfk Hk), Hof in Hlt. specialize (Hlt eq_refl). lia. }
  destruct (IH _ Hdec (S m') eq_refl) as (m2 & ? & ?). exists m2. split; [lia|done].
Qed.

(** Every kind of event is taken below again and again. *)
Lemma lock_fair κ n : fairk κ -> exists m e, (n <= m)%nat /\ emitted (done_at m) = Some e /\ lk_kind e = κ.
Proof.
  intros Hfk. destruct (fl_kind _ _ _ _ Hf κ Hfk n) as (m & Hm & [[(e & He & Hk) Hs]|Hs]).
  - destruct (turn_steps m e He) as (m' & e' & Hm' & He' & Hk' & _); [by rewrite (ll_of κ e Hfk Hk)|].
    exists m', e'. split; [lia|]. split; [done|]. congruence.
  - destruct (callback_ends m) as (m' & Hm' & Ha). specialize (Hs m' Hm'). unfold suspended in Hs. by rewrite Ha in Hs.
Qed.

(** ** The system below *)

(** The events that are taken; [idle] is one that is not possible. *)
Context (idle : B -> E) (Hidle : forall s, lk_step (idle s) s = None).

Definition below (n : nat) : E := default (idle (base (st n))) (emitted (done_at n)).

Lemma below_step n : base (st (S n)) = lk_advance (below n) (base (st n)).
Proof. rewrite base_S. unfold below. destruct (emitted (done_at n)); [done|]. simpl. unfold lk_advance. by rewrite Hidle. Qed.

Lemma below_guarded n s' : lk_step (below n) (base (st n)) = Some s' -> G (below n) (base (st n)) s'.
Proof.
  unfold below. destruct (emitted (done_at n)) as [e|] eqn:He; simpl; [by apply Hg|]. by rewrite Hidle.
Qed.

Lemma below_fair κ n : fairk κ -> exists m, (n <= m)%nat /\ lk_kind (below m) = κ.
Proof. intros Hfk. destruct (lock_fair κ n Hfk) as (m & e & Hm & He & Hk). exists m. split; [done|]. unfold below. by rewrite He. Qed.
End fairness.

(** ** A CPU of its own for the callback *)

Section apart.
Context {B E A L K : Type} {HA : EqDecision A} {HL : EqDecision L} {HB : Locking B E A L K} (readers : nat).
Context (sched : nat -> turn E A) (σ0 : locked B A L).
Context (Hstay : forall n x c, sched n <> Move x c).
Context (Hcpu : forall x, x <> inl lk_timer -> cpu σ0 x <> cpu σ0 (inl lk_timer)).

Lemma cpu_fixed n : cpu (lock_trace readers sched σ0 n) = cpu σ0.
Proof.
  induction n as [|n IH]; [done|]. cbn [lock_trace]. destruct (act _ _ _) as [|y c| | | |] eqn:Ha; try done. exfalso.
  destruct (sched n) as [e|j|x c'] eqn:Hs; [| |by destruct (Hstay n x c')]; simpl in Ha; repeat case_match; done.
Qed.

Lemma apart_unsuspended n x : suspended x (lock_trace readers sched σ0 n) = false.
Proof.
  unfold suspended. rewrite cpu_fixed. case_bool_decide as Hx; [|by rewrite andb_false_r]. rewrite (proj2 (Nat.eqb_neq _ _) (Hcpu x Hx)).
  by rewrite andb_false_r.
Qed.

Lemma apart_undisturbed : undisturbed readers sched σ0.
Proof. intros n k x _ _ _ Hx. rewrite cpu_fixed. by apply Hcpu. Qed.

Lemma apart_fair x mine : (forall n, exists m, (n <= m)%nat /\ mine (sched m)) -> fair_to readers sched σ0 x mine.
Proof. intros Hm n. destruct (Hm n) as (m & Hle & Hmm). exists m. split; [done|]. left. split; [done|apply apart_unsuspended]. Qed.
End apart.
