(* ===== verification/CoreLock.v ===== *)
(** * The locks of the core

    The critical sections of the throttling core under the locks the code takes
    for them ([Lock.v]): [queue_lock], [junk_lock] and [stats_lock], each with
    plain [spin_lock].  Every call of [stub] returns as long as no callback
    starts on the CPU of code that is at one of these locks ([call_returns]);
    without that proviso the machine can lock up ([softirq_deadlock]). *)

From stdpp Require Import prelude gmap list.
From S2P Require Import Prelude Kernel Store Queue Stats Core CoreProofs CoreLive CoreSpec CoreFair Lock.

Inductive lock := QueueLock | JunkLock | StatsLock.
Inductive agent := AThread (i : nat) | ATimer | ACtl.

#[export] Instance lock_eq_dec : EqDecision lock.
Proof. solve_decision. Defined.
#[export] Instance agent_eq_dec : EqDecision agent.
Proof. solve_decision. Defined.

(** ** Which section takes which lock *)

(** The recording functions return before [spin_lock] for an id outside the
    table. *)
Definition stats_section (sup id : Z) : option lock := if sup <=? u32 id then None else Some StatsLock.

(** [add_to_queue]; [sysThrot_add_ctx_switch], [sysThrot_add_aborted] and
    [sysThrot_add_blocked]. *)
Definition thread_section (sup : Z) (th : thread) : option lock :=
  match th_pc th with
  | PNoToken _ => Some QueueLock
  | PEval _ _ _ _ WCtx | PAbort => stats_section sup (th_nr th)
  | PRecord _ => stats_section sup (s32 (th_nr th))
  | _ => None
  end.

(** [unqueue], [update_epoch_stats] and [free_junk]. *)
Definition timer_section (t : timer_pc) : option lock :=
  match t with TUnqueue => Some QueueLock | TStats _ => Some StatsLock | TJunk _ => Some JunkLock | _ => None end.

(** [wake_up_queue], and [free_junk] in [destroy_queue]. *)
Definition ctl_section (c : ctl_pc) : option lock :=
  match c with COffWake => Some QueueLock | COffDestroy => Some JunkLock | _ => None end.

Definition section_of (sup : Z) (a : agent) (s : state) : option lock :=
  match a with
  | AThread i => th ← threads s !! i; thread_section sup th
  | ATimer => timer_section (timer s)
  | ACtl => ctl_section (ctl s)
  end.

(** [unqueue] and [wake_up_queue] take [junk_lock] inside [queue_lock]. *)
Definition inner_lock (a : agent) (s : state) : option lock :=
  match a, timer s, ctl s with
  | ATimer, TUnqueue, _ => Some JunkLock
  | ACtl, _, COffWake => Some JunkLock
  | _, _, _ => None
  end.

(** [add_to_queue] allocates before it takes the lock, and returns NULL without
    taking it when it cannot. *)
Definition before_lock (i : nat) (s : state) : bool :=
  match threads s !! i with Some (Thread _ _ (PNoToken _)) => true | _ => false end.

Definition reaches_lock (l : label) (s : state) : bool :=
  match l with LThread i c => if before_lock i s then ch_alloc c else true | _ => true end.

Definition inside_lock (s : state) (l : label) : label :=
  match l with
  | LThread i c => if before_lock i s then LThread i (Choice true (ch_now c) (ch_signal c)) else l
  | _ => l
  end.

(** The callback is running. *)
Definition in_callback (s : state) : bool := match timer s with TIdle _ => false | _ => true end.

Definition agent_of (l : label) : agent :=
  match l with LEnter i _ | LThread i _ => AThread i | LTimer => ATimer | _ => ACtl end.

Definition role_agent (r : role) : agent := match r with RThread i => AThread i | RTimer => ATimer | _ => ACtl end.

Definition core_step (sup : Z) (l : label) (s : state) : option state := match step sup l s with Next s' => Some s' | _ => None end.

Definition core_locking (sup : Z) : Locking state label agent lock role := {|
  lk_step := core_step sup;
  lk_agent := agent_of;
  lk_kind := role_of;
  lk_of := role_agent;
  lk_main l := match role_of l with ROther => false | _ => true end;
  lk_wants := section_of sup;
  lk_needs := reaches_lock;
  lk_body := inside_lock;
  lk_nested := inner_lock;
  lk_timer := ATimer;
  lk_active := in_callback;
  lk_reader := StatsLock;
|}.

Abbreviation core_locked := (locked state agent lock).
Abbreviation core_turn := (turn label agent).

(** ** The laws *)

Definition callback_ticks (t : timer_pc) : nat :=
  match t with
  | TIdle _ => 0 | TJunk _ => 1 | TRearm => 2 | TSet _ => 3 | TEpoch _ => 4 | TStats _ => 5 | TWake _ => 6 | TUnqueue => 7
  end.

Lemma section_wake sup th : thread_section sup th = None \/
  thread_section sup (Thread (th_task th) (th_nr th) (wake_pc (th_pc th))) = thread_section sup th.
Proof. destruct th as [t nr []]; simpl; auto. Qed.

Lemma core_step_next sup l s s' : core_step sup l s = Some s' -> step sup l s = Next s'.
Proof. unfold core_step. destruct (step sup l s); by intros [= <-]. Qed.

(** Nobody else touches the running callback. *)
Lemma callback_kept sup l s s' : inv s -> step sup l s = Next s' -> l <> LTimer -> in_callback s = true -> timer s' = timer s.
Proof.
  intros Hinv E Hl Ha. unfold in_callback in Ha. pose proof (iv_ctl _ Hinv) as Hct. unfold ctl_inv in Hct.
  destruct l as [i nr|i c| | | |a|x]; simpl in E; try done.
  - unfold stub_enter in E. destruct (threads s !! i) as [[t n []]|]; try done. by injection E as <-.
  - destruct (threads s !! i) as [th|]; [|done]. by apply (stub_frame _ _ _ _ _ _ Hinv E).
  - unfold turn_on_enter in E. destruct (ctl s); try done. by injection E as <-.
  - unfold turn_off_enter in E. destruct (ctl s); try done. by injection E as <-.
  - unfold ctl_step in E. destruct (ctl s); try done; try (by injection E as <-).
    + destruct Hct as (_ & _ & _ & Ht). by rewrite Ht in Ha.
    + destruct Hct as (_ & _ & _ & Ht). by rewrite Ht in Ha.
    + by destruct (timer s).
    + destruct (wake_up_queue _) as [[]|]; [|done]. by injection E as <-.
    + destruct (destroy_queue _) as [[]|]; [|done]. by injection E as <-.
  - by injection E as <-.
Qed.

(** The administrator's call is moved by itself alone. *)
Lemma ctl_kept sup l s s' k : inv s -> step sup l s = Next s' -> role_of l <> RCtl -> ctl_section (ctl s) = Some k -> ctl s' = ctl s.
Proof.
  intros Hinv E Hl Hk. destruct l as [i nr|i c| | | |a|x]; simpl in E; try done.
  - unfold stub_enter in E. destruct (threads s !! i) as [[t n []]|]; try done. by injection E as <-.
  - destruct (threads s !! i) as [th|]; [|done]. by apply (stub_frame _ _ _ _ _ _ Hinv E).
  - by destruct (timer_frame _ _ E) as (_ & ? & _).
  - unfold turn_on_enter in E. by destruct (ctl s).
  - unfold turn_off_enter in E. by destruct (ctl s).
  - by injection E as <-.
Qed.

(** Only its own steps take an agent away from its section. *)
Lemma section_kept sup l s s' a k : inv s -> step sup l s = Next s' -> role_agent (role_of l) <> a \/ role_of l = ROther ->
  section_of sup a s = Some k -> section_of sup a s' = Some k.
Proof.
  intros Hinv E Hr. destruct a as [i| |]; simpl.
  - destruct (threads s !! i) as [th|] eqn:Hi; [|done]. simpl. intros Hk.
    assert (is_out (th_pc th) = false) as Ho by (destruct th as [? ? []]; done).
    destruct (others_keep sup i l s s' th Hinv Hi Ho E) as (th' & -> & Hth'); [intros He; rewrite He in Hr; naive_solver|]. simpl.
    destruct Hth' as [->| ->]; [done|]. destruct (section_wake sup th); congruence.
  - intros Hk. rewrite (callback_kept sup l s s' Hinv E); [done| |].
    + intros ->. simpl in Hr. naive_solver.
    + unfold in_callback. by destruct (timer s).
  - intros Hk. rewrite (ctl_kept sup l s s' k Hinv E); [done| |done]. intros He. rewrite He in Hr. naive_solver.
Qed.

(** The callback's next step is possible and brings it closer to its end. *)
Lemma callback_moves s : inv s -> in_callback s = true ->
  exists s', timer_step s = Next s' /\ (callback_ticks (timer s') < callback_ticks (timer s))%nat.
Proof.
  intros Hinv Ha. unfold in_callback in Ha. pose proof (inv_timer s Hinv) as Hub. unfold timer_step in *.
  destruct (timer s) as [b| |n|n|n|n| |b]; try done; try (eexists; split; [reflexivity|simpl; lia]).
  - destruct (unqueue _ _) as [[r q]|]; [|done]. eexists. split; [reflexivity|]. simpl. lia.
  - destruct (free_junk _) as [q|]; [|done]. eexists. split; [reflexivity|]. simpl. lia.
Qed.

(** Nobody is at [junk_lock] while somebody is about to take it inside
    [queue_lock]. *)
Lemma inner_free sup a b s k : inv s -> section_of sup a s = Some QueueLock -> inner_lock a s = Some k ->
  k = JunkLock /\ section_of sup b s <> Some JunkLock.
Proof.
  intros Hinv Hs Hi. pose proof (iv_ctl _ Hinv) as Hct. unfold ctl_inv in Hct.
  assert (forall i, section_of sup (AThread i) s <> Some JunkLock) as Hth.
  { intros i. simpl. destruct (threads s !! i) as [th|]; [|done]. simpl. unfold thread_section, stats_section. repeat case_match; done. }
  destruct a as [i| |]; simpl in *; [done|..].
  - destruct (timer s) eqn:Ht; try done. injection Hi as <-. split; [done|]. destruct b as [i| |]; [by apply Hth|simpl; by rewrite Ht|].
    simpl. destruct (ctl s); try done. by destruct Hct as (_ & _ & ? & _).
  - destruct (ctl s) eqn:Hc; try done. destruct Hct as (_ & _ & Ht). injection Hi as <-. split; [done|].
    destruct b as [i| |]; [by apply Hth|simpl; by rewrite Ht|simpl; by rewrite Hc].
Qed.

Definition fair_role_of (N : nat) (r : role) : Prop := match r with RThread i => (i < N)%nat | ROther => False | _ => True end.

Lemma agent_role l : role_of l <> ROther -> agent_of l = role_agent (role_of l).
Proof. by destruct l. Qed.

Lemma section_role sup N a s k : length (threads s) = N -> section_of sup a s = Some k ->
  exists r, fair_role_of N r /\ role_agent r = a /\ r <> ROther.
Proof.
  intros HN. destruct a as [i| |]; simpl; intros Hk; [|by exists RTimer|by exists RCtl].
  destruct (threads s !! i) as [th|] eqn:Hi; [|done]. exists (RThread i). split_and!; try done. simpl. rewrite <-HN. by eapply lookup_lt_Some.
Qed.

#[export] Instance core_laws sup N : LockingLaws (H := core_locking sup) (fun s => inv s /\ length (threads s) = N) timely (fair_role_of N)
  (fun s => callback_ticks (timer s)).
Proof.
  split; simpl.
  - intros l s s' [Hinv HN] E%core_step_next [Ho _]. split; [by eapply inv_step|]. rewrite <-HN. by eapply threads_length.
  - intros l s s' a k [Hinv _] E%core_step_next _ Hm Hk. eapply section_kept; [done..| |done].
    destruct (decide (role_of l = ROther)) as [|Hn]; [by right|left]. rewrite <-agent_role by done. apply Hm. by destruct (role_of l).
  - intros s l. destruct l as [i nr|i c| | | |a|x]; try done. simpl. by destruct (before_lock i s).
  - intros l s [Hinv _] Ha Hl. assert (l = LTimer) as -> by (by destruct l). destruct (callback_moves s Hinv Ha) as (s' & E & Hlt).
    exists s'. split; [|done]. unfold core_step. simpl. by rewrite E.
  - intros l s s' [Hinv _] E%core_step_next _ Hl Ha. assert (timer s' = timer s) as Ht by (eapply callback_kept; [done..|by intros ->|done]).
    rewrite Ht. split; [|done]. unfold in_callback. by rewrite Ht.
  - intros a s k k' [Hinv _] Hk Hi. assert (k = QueueLock) as ->.
    { destruct a as [i| |]; simpl in *; [done|destruct (timer s); naive_solver|destruct (ctl s); naive_solver]. }
    split; [by destruct (inner_free sup a a s k' Hinv Hk Hi) as [-> _]|]. intros b. destruct (inner_free sup a b s k' Hinv Hk Hi) as [-> ?]. done.
  - intros r l Hr <-. apply agent_role. by intros He; rewrite He in Hr.
  - intros a s k [_ HN] Hk. destruct (section_role sup N a s k HN Hk) as (r & Hr & Ha & Hn). exists r. split_and!; [done..|].
    intros l <-. by destruct (role_of l).
  - intros l l' Hl Hl' Hag. destruct l, l'; simpl in *; by simplify_eq.
  - exists RTimer. split_and!; [done..|]. intros l ->. done.
Qed.

(** ** Calls return *)

Section calls.
Context (sup : Z) (readers : nat) (sched : nat -> core_turn) (σ : core_locked).
#[local] Hint Extern 0 (Locking state _ agent lock _) => exact (core_locking sup) : typeclass_instances.
#[local] Abbreviation st := (lock_trace readers sched σ).

(** The labels the core takes. *)
Definition core_sched : nat -> label := below readers sched σ idle.

Lemma core_idle s : core_step sup (idle s) s = None.
Proof. unfold core_step. by rewrite idle_blocked. Qed.

Lemma core_trace n : trace sup core_sched (base σ) n = base (st n).
Proof.
  induction n as [|n IH]; [done|]. rewrite (below_step (HB := core_locking sup) readers sched σ idle core_idle n). cbn [trace]. rewrite IH.
  unfold CoreLive.advance, lk_advance. simpl. unfold core_step. by destruct (step sup _ _).
Qed.

Context (N : nat) (H0 : inv (base σ) /\ length (threads (base σ)) = N) (Hun : unlocked σ).
Context (Hg : guarded readers timely sched σ) (Hq : undisturbed readers sched σ) (Hf : fair_locked readers (fair_role_of N) sched σ).

Lemma core_sched_fair r n : fair_role_of N r -> exists m, (n <= m)%nat /\ role_of (core_sched m) = r.
Proof.
  intros Hr. exact (below_fair (HB := core_locking sup) readers (fun s => inv s /\ length (threads s) = N) timely (fair_role_of N) (fun s => callback_ticks (timer s)) sched σ
    H0 Hun Hg Hq Hf idle r n Hr).
Qed.

Lemma core_fair : fair_all core_sched N.
Proof.
  split; [split|].
  - intros i n Hi. destruct (core_sched_fair (RThread i) n Hi) as (m & Hm & Hr). exists m.
    destruct (core_sched m) as [|j c| | | | |]; try done. injection Hr as ->. by exists c.
  - intros n. destruct (core_sched_fair RCtl n I) as (m & Hm & Hr). exists m.
    destruct (core_sched m) as [| | | | |a|]; try done. by exists a.
  - intros n. destruct (core_sched_fair RTimer n I) as (m & Hm & Hr). exists m. by destruct (core_sched m).
Qed.

Lemma core_timely : timely_trace sup core_sched (base σ).
Proof.
  intros n s'. rewrite core_trace. intros E. apply (below_guarded (HB := core_locking sup) readers timely sched σ Hg idle core_idle n s').
  unfold core_sched in E. simpl. unfold core_step. by rewrite E.
Qed.
End calls.

(** C6: every call of [stub] returns, with the locks as the code takes them: from
    any state a timely run reaches, with no lock held and a positive limit, under
    every schedule of threads, timer, administrator and readers of
    [/proc/SYSTHROT] in which everyone gets turns, whatever calls, signals,
    allocation failures, registrations, switching on and off and migrations are
    interleaved, a thread is outside [stub] again and again: none starves in the
    wait queue, and none spins for ever at a lock.  The proviso is that no
    callback starts on a CPU whose code is at one of the three locks. *)
Theorem call_returns sup m r tasks readers σ sched i n : Z.of_nat (length tasks) < 2 ^ 31 -> 0 < s32 m ->
  reach sup timely (init_state m r tasks) (base σ) -> unlocked σ -> (i < length tasks)%nat ->
  fair_locked (HB := core_locking sup) readers (fair_role_of (length tasks)) sched σ ->
  guarded (HB := core_locking sup) readers timely sched σ -> undisturbed (HB := core_locking sup) readers sched σ ->
  exists n', (n <= n')%nat /\ out i (base (lock_trace (HB := core_locking sup) readers sched σ n')).
Proof.
  intros Hl Hm Hr Hun Hi Hf Hg Hq. pose proof (running_reach _ _ _ _ _ Hl Hm Hr) as Hrun.
  assert (length (threads (base σ)) = length tasks) as HN.
  { remember (base σ) as s eqn:Es. clear -Hl Hm Hr. induction Hr as [|l s s' Hr IH E Ht]; [simpl; apply length_fmap|].
    rewrite <-IH. eapply threads_length; [|done]. by apply rn_inv; eapply running_reach. }
  destruct (calls_out sup (base σ) (core_sched sup readers sched σ) i n Hrun) as (n' & Hn' & Ho); [lia| | |].
  - rewrite HN. by apply core_fair; [split; [apply Hrun|]|..].
  - by apply core_timely.
  - exists n'. split; [done|]. by rewrite core_trace in Ho.
Qed.

(** ** The deadlock *)

Section deadlock.
Context (sup : Z) (readers : nat).
#[local] Hint Extern 0 (Locking state _ agent lock _) => exact (core_locking sup) : typeclass_instances.

(** Thread 0 holds [queue_lock]; the callback, on the same CPU, is next in line
    for it; throttling has not been turned off to the end. *)
Record stuck (σ : core_locked) : Prop := {
  sk_thread : exists th clk, threads (base σ) !! 0%nat = Some th /\ th_pc th = PNoToken clk;
  sk_timer : timer (base σ) = TUnqueue;
  sk_queue : exists q, waiters σ QueueLock = inl (AThread 0) :: inl ATimer :: q;
  sk_cpu : cpu σ (inl (AThread 0)) = cpu σ (inl ATimer);
  sk_ctl : (working (base σ) = true /\ ((exists r, ctl (base σ) = CIdle r) \/ ctl (base σ) = COffWorking)) \/ ctl (base σ) = COffTimer;
}.

Lemma stuck_suspended σ : stuck σ -> suspended (inl (AThread 0)) σ = true.
Proof.
  intros [_ Ht _ Hc _]. unfold suspended. change (lk_timer) with ATimer. rewrite Hc, Nat.eqb_refl, bool_decide_true by done. simpl. unfold in_callback. by rewrite Ht.
Qed.

Lemma stuck_section σ a : stuck σ -> a = AThread 0 \/ a = ATimer -> section_of sup a (base σ) = Some QueueLock /\ inl a ∈ waiters σ QueueLock.
Proof.
  intros [(th & clk & Hi & Hp) Ht (q & Hq) _ _] [-> | ->]; simpl; rewrite ?Hi, ?Ht, Hq; (split; [|set_solver]); [|done].
  simpl. unfold thread_section. by rewrite Hp.
Qed.

(** What anybody else can do leaves thread 0, the callback and the
    administrator's call where they are. *)
Lemma stuck_below l s : (exists th clk, threads s !! 0%nat = Some th /\ th_pc th = PNoToken clk) -> timer s = TUnqueue ->
  ((working s = true /\ ((exists r, ctl s = CIdle r) \/ ctl s = COffWorking)) \/ ctl s = COffTimer) ->
  agent_of l <> AThread 0 -> agent_of l <> ATimer ->
  let s' := lk_advance (HB := core_locking sup) l s in
  (exists th clk, threads s' !! 0%nat = Some th /\ th_pc th = PNoToken clk) /\ timer s' = TUnqueue /\
  ((working s' = true /\ ((exists r, ctl s' = CIdle r) \/ ctl s' = COffWorking)) \/ ctl s' = COffTimer).
Proof.
  intros Hth Ht Hc H0 Hn. unfold lk_advance. simpl. unfold core_step.
  destruct (step sup l s) as [| |s'] eqn:E; simpl; [by split_and!..|].
  destruct l as [i nr|i c| | | |a|x]; simpl in E; try done.
  - assert (i <> 0%nat) by (intros ->; done). unfold stub_enter in E. destruct (threads s !! i) as [[t n []]|]; try done.
    injection E as <-. simpl. rewrite list_lookup_insert_ne by done. by split_and!.
  - assert (i <> 0%nat) as Hi by (intros ->; done). destruct (threads s !! i) as [th|]; [|done].
    unfold stub_step in E. repeat case_match; simplify_eq; simpl; rewrite list_lookup_alter_ne by done; split_and!; naive_solver congruence.
  - unfold turn_on_enter in E. destruct (ctl s); try done. injection E as <-. simpl.
    destruct Hc as [[Hw _]|?]; [|done]. rewrite Hw. split_and!; [done..|]. left. eauto.
  - unfold turn_off_enter in E. destruct (ctl s); try done. injection E as <-. simpl.
    destruct Hc as [[Hw _]|?]; [|done]. rewrite Hw. split_and!; auto.
  - unfold ctl_step in E. destruct Hc as [[Hw [[r Hc]|Hc]]|Hc]; rewrite Hc, ?Ht in E; try done. injection E as <-. split_and!; auto.
  - injection E as <-. by split_and!.
Qed.

Lemma stuck_stays t σ : stuck σ -> stuck (apply_action (act readers t σ) σ).
Proof.
  intros Hs. pose proof Hs as [Hth Ht (q & Hq) Hcpu Hc].
  assert (forall e, t = Ev e -> act readers t σ <> Nothing -> agent_of e <> AThread 0) as Hnot0.
  { intros e -> Ha He. apply Ha. simpl. rewrite He. by rewrite stuck_suspended. }
  destruct (act readers t σ) as [|x c|k x|k|e|k e'] eqn:Ha; simpl.
  - done.
  - destruct (act_place readers t σ x c Ha) as [Hl Htm].
    assert (forall a, a = AThread 0 \/ a = ATimer -> x <> inl a) as Hx.
    { intros a Hax ->. destruct (stuck_section σ a Hs Hax) as [Hsec Hin]. unfold at_lock in Hl. simpl in Hl. rewrite Hsec in Hl.
      by apply bool_decide_eq_false in Hl. }
    split; simpl; [done..|by exists q| |done]. pose proof (Hx (AThread 0) (or_introl eq_refl)). pose proof (Hx ATimer (or_intror eq_refl)). by rewrite !decide_False by congruence.
  - split; simpl; [done..| |done|done]. unfold spin_lock. case_decide as Hk; [rewrite Hq; by exists (q ++ [x])|by exists q].
  - destruct (act_give readers t σ k Ha) as (j & -> & Hh). split; simpl; [done..| |done|done]. by exists q.
  - destruct (act_run readers t σ e Ha) as [-> Hnw].
    assert (agent_of e <> ATimer) as Hnt.
    { intros He. assert (e = LTimer) as -> by (by destruct e). destruct (stuck_section σ ATimer Hs (or_intror eq_refl)) as [Hsec Hin].
      by apply (Hnw QueueLock eq_refl Hsec). }
    destruct (stuck_below e (base σ) Hth Ht Hc (Hnot0 e eq_refl ltac:(done)) Hnt) as (? & ? & ?). split; simpl; [done..|by exists q|done|done].
  - destruct (act_critical readers t σ k e' Ha) as (e & -> & -> & Hm & Hw & Hh). pose proof (Hnot0 e eq_refl ltac:(done)) as H0.
    assert (k <> QueueLock) as Hk by (intros ->; rewrite Hq in Hh; simpl in Hh; injection Hh as Hh; by destruct H0).
    assert (agent_of e <> ATimer) as Hnt.
    { intros He. change (section_of sup (agent_of e) (base σ) = Some k) in Hw. rewrite He in Hw.
      destruct (stuck_section σ ATimer Hs (or_intror eq_refl)) as [Hsec _]. congruence. }
    assert (agent_of (inside_lock (base σ) e) = agent_of e) as Hag by (destruct e; simpl; try done; by destruct (before_lock _ _)).
    destruct (stuck_below (inside_lock (base σ) e) (base σ) Hth Ht Hc ltac:(by rewrite Hag) ltac:(by rewrite Hag)) as (? & ? & ?).
    split; simpl; [done..| |done|done]. unfold spin_unlock. rewrite decide_False by done. by exists q.
Qed.

Lemma stuck_forever sched σ n : stuck σ -> stuck (lock_trace readers sched σ n).
Proof. intros Hs. induction n as [|n IH]; [done|]. by apply stuck_stays. Qed.
End deadlock.

(** All code on one CPU: throttling is turned on, thread 0 calls [stub], finds no
    token and is in [add_to_queue] with [queue_lock] when the first epoch ends. *)
Definition deadlock_turns : list core_turn :=
  Ev <$> turn_on_labels ++ [LEnter 0 1] ++ replicate 5 (LThread 0 ok) ++ [LTimer; LTimer].
Definition one_cpu : core_locked := Locked core_init (fun _ => []) (fun _ => 0%nat).
Definition deadlocked : core_locked :=
  lock_trace (HB := core_locking 462) 0 (fun n => nth n deadlock_turns (Ev LTimer)) one_cpu (length deadlock_turns).

(** The proviso of [call_returns] is needed: in the state this run leads to,
    whatever happens next, in whatever order and with however many readers,
    thread 0 stays in [stub], the callback does not end (no epoch begins any
    more) and a [sysThrot_turn_off] does not return. *)
Theorem softirq_deadlock readers sched n :
  let σ := lock_trace (HB := core_locking 462) readers sched deadlocked n in
  ~ out 0 (base σ) /\ timer (base σ) = TUnqueue /\ (working (base σ) = false -> ctl (base σ) = COffTimer).
Proof.
  intros σ. assert (stuck σ) as [(th & clk & Hi & Hp) Ht _ _ Hc].
  { apply stuck_forever. vm_compute. split; simpl; try reflexivity; [by eexists _, _|by eexists|left; by eauto]. }
  split; [|split; [done|]].
  - intros (th' & r & Hi' & Hp'). congruence.
  - intros Hw. destruct Hc as [[? _]|?]; [congruence|done].
Qed.

(** ** Witness: the callback on a CPU of its own *)

(** The two threads, the administrator, the timer and a reader take turns. *)
Definition lock_robin (n : nat) : core_turn :=
  match (n mod 5)%nat with
  | 0%nat => Ev (LThread 0 ok) | 1%nat => Ev (LThread 1 ok) | 2%nat => Ev (LCtl true) | 3%nat => Ev LTimer | _ => Read 0
  end.

(** Thread 0 sleeps in the queue. *)
Definition demo_locked : core_locked :=
  Locked (demo_state demo_labels) (fun _ => []) (fun x => if decide (x = inl ATimer) then 0%nat else 1%nat).

#[local] Abbreviation demo_trace := (lock_trace (HB := core_locking 462) 1 lock_robin demo_locked).

Lemma lock_robin_at n j : (j < 5)%nat -> lock_robin (5 * n + j) = lock_robin j.
Proof. intros Hj. unfold lock_robin. by rewrite Nat.mul_comm, Nat.add_comm, Nat.Div0.mod_add. Qed.

Lemma lock_robin_cases n : (exists l, lock_robin n = Ev l /\ steady_label l) \/ lock_robin n = Read 0.
Proof.
  unfold lock_robin, steady_label. destruct (n mod 5)%nat as [|[|[|[|k]]]]; [left; eexists; (split; [reflexivity|]); eauto..|by right].
Qed.

Lemma lock_robin_stays n x c : lock_robin n <> Move x c.
Proof. destruct (lock_robin_cases n) as [(l & -> & _)| ->]; done. Qed.

Lemma demo_cpus x : x <> inl ATimer -> cpu demo_locked x <> cpu demo_locked (inl ATimer).
Proof. intros Hx. simpl. by case_decide. Qed.

Lemma demo_emitted n e : emitted (act (HB := core_locking 462) 1 (lock_robin n) (demo_trace n)) = Some e -> steady_label e.
Proof.
  destruct (act _ _ _) as [| | | |e0|k e0] eqn:Ha; intros [= <-]; destruct (lock_robin_cases n) as [(l & Hl & Hs)|Hl]; rewrite Hl in Ha.
  - destruct (act_run _ _ _ _ Ha) as [[= ->] _]. done.
  - by destruct (act_run _ _ _ _ Ha) as [? _].
  - destruct (act_critical _ _ _ _ _ Ha) as (e & [= <-] & -> & _). simpl. destruct Hs as [[i ->]|[->| ->]]; simpl; [|by right; left|by right; right].
    left. exists i. by destruct (before_lock i _).
  - by destruct (act_critical _ _ _ _ _ Ha) as (e & ? & _).
Qed.

Lemma demo_base n : inv (base (demo_trace n)) /\ ctl (base (demo_trace n)) = CIdle (Some 0).
Proof.
  induction n as [|n [IHi IHc]].
  { split; [|vm_compute; reflexivity]. exact (reach_inv _ _ _ (inv_init 1 demo_reg [demo_task; Task 101 1000 [115; 104]] eq_refl) demo_reach). }
  rewrite base_S. destruct (emitted _) as [e|] eqn:He; [|done]. unfold lk_advance. simpl. unfold core_step.
  destruct (step 462 e _) as [| |s'] eqn:E; simpl; [done..|].
  destruct (steady_idle 462 (Some 0) e _ s' (demo_emitted n e He) IHi IHc E) as (? & ? & _). done.
Qed.

Lemma demo_guarded : guarded (HB := core_locking 462) 1 timely lock_robin demo_locked.
Proof.
  intros n e s' He E%core_step_next. destruct (demo_base n) as [Hi Hc].
  by apply (steady_idle 462 (Some 0) e _ s' (demo_emitted n e He) Hi Hc E).
Qed.

Lemma demo_lock_fair : fair_locked (HB := core_locking 462) 1 (fair_role_of 2) lock_robin demo_locked.
Proof.
  assert (forall x j (mine : core_turn -> Prop), (j < 5)%nat -> mine (lock_robin j) ->
    fair_to (HB := core_locking 462) 1 lock_robin demo_locked x mine) as Hf.
  { intros x j mine Hj Hm. apply apart_fair; [exact lock_robin_stays|exact demo_cpus|]. intros n. exists (5 * n + j)%nat.
    split; [lia|]. by rewrite lock_robin_at. }
  split.
  - intros [i| | |] Hr; simpl in Hr; [|apply (Hf _ 3%nat); [lia|by eexists]|apply (Hf _ 2%nat); [lia|by eexists]|done].
    destruct i as [|[|i]]; [apply (Hf _ 0%nat); [lia|by eexists]|apply (Hf _ 1%nat); [lia|by eexists]|lia].
  - intros j Hj. apply (Hf _ 4%nat); [lia|]. replace j with 0%nat by lia. done.
Qed.

Lemma call_returns_witness :
  threads (base demo_locked) !! 0%nat = Some (Thread demo_task 1 (PSleep 1%positive 0)) /\
  exists n, (0 <= n)%nat /\ out 0 (base (demo_trace n)).
Proof.
  split; [vm_compute; reflexivity|].
  apply (call_returns 462 1 demo_reg [demo_task; Task 101 1000 [115; 104]] 1 demo_locked lock_robin 0 0 eq_refl eq_refl demo_reach_timely);
    [intros k; reflexivity|simpl; lia|exact demo_lock_fair|exact demo_guarded|].
  apply apart_undisturbed; [exact lock_robin_stays|exact demo_cpus].
Defined.
