(* ===== verification/Hook.v ===== *)
(** * Syscall hooking ([src/sysThrot.c], [installProbe] and [removeProbe])

    A hook replaces the five bytes at the entry of a syscall's wrapper by
    [CALL rel32] to [stub_trampoline]; a bitmap records which syscalls are
    hooked and [syscall_addresses] caches the wrappers' addresses.  The
    generated table of symbols, the trampoline's address, kprobe registration,
    [kallsyms_lookup_name] and the kernel's number of syscalls are parameters.
    [None] is an access outside an array. *)

From stdpp Require Import prelude gmap list.
From S2P Require Import Prelude.

(** ** Kernel text: a byte per address *)

Abbreviation text := (gmap Z Z).

Fixpoint write_bytes (a : Z) (bs : list Z) (t : text) : text :=
  match bs with
  | [] => t
  | b :: bs => <[a := b]> (write_bytes (a + 1) bs t)
  end.

(** [memcpy] from an [int] on a little-endian machine. *)
Definition le32 (z : Z) : list Z :=
  [u8 z; u8 (Z.shiftr z 8); u8 (Z.shiftr z 16); u8 (Z.shiftr z 24)].

(** What the CPU reads of the operand of [CALL rel32]. *)
Definition rel32 (b0 b1 b2 b3 : Z) : Z :=
  s32 (b0 + b1 * 2 ^ 8 + b2 * 2 ^ 16 + b3 * 2 ^ 24).

(** Where a [CALL rel32] at address [a] goes. *)
Definition call_target (t : text) (a : Z) : option Z :=
  op ← t !! a; b0 ← t !! (a + 1); b1 ← t !! (a + 2); b2 ← t !! (a + 3); b3 ← t !! (a + 4);
  if op =? 232 then Some (u64 (a + 5 + rel32 b0 b1 b2 b3)) else None.

(** ** State *)

Record hook := Hook {
  syscall_presence_bitmap : list Z;       (* char [__NR_syscalls/8+1] *)
  syscall_addresses : list Z;             (* unsigned long [SUPPORTED_SYSCALLS] *)
  kernel_text : text;
  kernel_text_mutex : Z;                  (* pointer, 0 when not resolved *)
  smp_text_poke_single_fn : Z;            (* pointer, 0 when not resolved *)
}.

Definition set_bitmap (b : list Z) (h : hook) : hook :=
  Hook b (syscall_addresses h) (kernel_text h) (kernel_text_mutex h) (smp_text_poke_single_fn h).
Definition set_addresses (a : list Z) (h : hook) : hook :=
  Hook (syscall_presence_bitmap h) a (kernel_text h) (kernel_text_mutex h) (smp_text_poke_single_fn h).
Definition set_text (t : text) (h : hook) : hook :=
  Hook (syscall_presence_bitmap h) (syscall_addresses h) t (kernel_text_mutex h) (smp_text_poke_single_fn h).
Definition set_patch (m f : Z) (h : hook) : hook :=
  Hook (syscall_presence_bitmap h) (syscall_addresses h) (kernel_text h) m f.

(** ** The bitmap *)

Definition bit_of (id : Z) : Z := Z.shiftl 1 (id mod 8).

(** [bitmap[id/8] & (1 << (id % 8))] *)
Definition test_bit (bm : list Z) (id : Z) : option Z :=
  b ← bm !! Z.to_nat (id / 8); Some (Z.land b (bit_of id)).

(** [bitmap[id/8] |= (1 << (id % 8))] on a [char]. *)
Definition set_bit (bm : list Z) (id : Z) : option (list Z) :=
  b ← bm !! Z.to_nat (id / 8); Some (<[Z.to_nat (id / 8) := u8 (Z.lor b (bit_of id))]> bm).

(** [bitmap[id/8] &= ~(1 << (id % 8))] *)
Definition clear_bit (bm : list Z) (id : Z) : option (list Z) :=
  b ← bm !! Z.to_nat (id / 8); Some (<[Z.to_nat (id / 8) := u8 (Z.land b (Z.lnot (bit_of id)))]> bm).

(** Result of registering a kprobe on a symbol: an error or [kp.addr]. *)
Inductive kprobe_result := KpErr (e : Z) | KpAddr (a : Z).

(** The two symbols [my_patch_init] resolves. *)
Inductive patch_symbol := TextMutex | SmpTextPokeSingle.

Section hooking.
Context (SUPPORTED_SYSCALLS NR_syscalls stub_trampoline : Z).
Context (syscall_symbols : Z -> option (list Z)).
Context (register_kprobe : option (list Z) -> kprobe_result).
(** Registering the kprobe on [kallsyms_lookup_name], and that function. *)
Context (kallsyms_probe : kprobe_result) (kallsyms_lookup_name : patch_symbol -> Z).

(** ** Patching the text *)

Definition lookup_symbol (name : patch_symbol) : Z :=
  match kallsyms_probe with
  | KpErr e => if e <? 0 then 0 else kallsyms_lookup_name name
  | KpAddr _ => kallsyms_lookup_name name
  end.

Definition init_patch_locks (h : hook) : Z * hook :=
  let m := lookup_symbol TextMutex in
  (if m =? 0 then - ENOENT else 0, set_patch m (smp_text_poke_single_fn h) h).

Definition my_patch_init (h : hook) : Z * hook :=
  let (_, h) := init_patch_locks h in
  if kernel_text_mutex h =? 0 then (- ENOENT, h)
  else
    let f := lookup_symbol SmpTextPokeSingle in
    (if f =? 0 then - ENOENT else 0, set_patch (kernel_text_mutex h) f h).

Definition apply_smp_patch (target_addr : Z) (insn : list Z) (h : hook) : Z * hook :=
  let h := if smp_text_poke_single_fn h =? 0 then (my_patch_init h).2 else h in
  if negb (smp_text_poke_single_fn h =? 0)
  then (1, set_text (write_bytes target_addr insn (kernel_text h)) h)
  else (- ENOENT, h).

(** ** [installProbe] *)

(** The address of the wrapper: cached, or resolved with a kprobe and cached. *)
Definition resolve (syscall_id : Z) (h : hook) : option (kprobe_result * hook) :=
  cached ← syscall_addresses h !! Z.to_nat syscall_id;
  if negb (cached =? 0) then Some (KpAddr cached, h)
  else
    match register_kprobe (syscall_symbols syscall_id) with
    | KpErr e => Some (KpErr e, h)
    | KpAddr a =>
        Some (KpAddr a, set_addresses (<[Z.to_nat syscall_id := a]> (syscall_addresses h)) h)
    end.

Definition call_instruction (addr_sys : Z) : list Z :=
  232 :: le32 (s32 (stub_trampoline - addr_sys - 5)).

Definition installProbe (syscall_id : Z) (h : hook) : option (Z * hook) :=
  if (syscall_id <? 0) || (SUPPORTED_SYSCALLS <=? syscall_id) then Some (- EINVAL, h)
  else
    present ← test_bit (syscall_presence_bitmap h) syscall_id;
    if negb (present =? 0) then Some (- EEXIST, h)
    else
      '(r, h) ← resolve syscall_id h;
      match r with
      | KpErr e => Some (e, h)
      | KpAddr addr_sys =>
          let (result, h) := apply_smp_patch addr_sys (call_instruction addr_sys) h in
          if result <? 0 then Some (result, h)
          else
            bm ← set_bit (syscall_presence_bitmap h) syscall_id;
            Some (1, set_bitmap bm h)
      end.

(** ** [removeProbe] *)

(** [call_instruction] as the code fills it: bytes 0, 2, 3 and 4 are assigned,
    byte 1 keeps the zero of its initialiser. *)
Definition nop_instruction : list Z := [15; 0; 68; 0; 0].

Definition removeProbe (syscall_id : Z) (h : hook) : option (Z * hook) :=
  if (syscall_id <? 0) || (SUPPORTED_SYSCALLS <=? syscall_id) then Some (- EINVAL, h)
  else
    present ← test_bit (syscall_presence_bitmap h) syscall_id;
    if present =? 0 then Some (- EEXIST, h)
    else
      '(r, h) ← resolve syscall_id h;
      match r with
      | KpErr _ => Some (-1, h)
      | KpAddr addr_sys =>
          let (result, h) := apply_smp_patch addr_sys nop_instruction h in
          if result <? 0 then Some (result, h)
          else
            bm ← clear_bit (syscall_presence_bitmap h) syscall_id;
            Some (1, set_bitmap bm h)
      end.

(** ** The loop of [sysThrot_cleanup] that removes every hook *)

Fixpoint cleanup_byte (i : nat) (js : list nat) (h : hook) : option hook :=
  match js with
  | [] => Some h
  | j :: js =>
      b ← syscall_presence_bitmap h !! i;
      if negb (Z.land b (Z.shiftl 1 (Z.of_nat j)) =? 0) then
        '(_, h) ← removeProbe (Z.of_nat i * 8 + Z.of_nat j) h;
        cleanup_byte i js h
      else cleanup_byte i js h
  end.

Fixpoint cleanup_loop (ids : list nat) (h : hook) : option hook :=
  match ids with
  | [] => Some h
  | i :: ids =>
      b ← syscall_presence_bitmap h !! i;
      h ← (if negb (b =? 0) then cleanup_byte i (seq 0 8) h else Some h);
      cleanup_loop ids h
  end.

Definition cleanup_hooks (h : hook) : option hook :=
  cleanup_loop (seq 0 (Z.to_nat (NR_syscalls / 8 + 1))) h.

(** The driver's state when the module is loaded. *)
Definition hook0 (t : text) : hook :=
  Hook (replicate (Z.to_nat (NR_syscalls / 8 + 1)) 0) (replicate (Z.to_nat SUPPORTED_SYSCALLS) 0) t 0 0.
End hooking.
