(* ===== verification/HookSpec.v ===== *)
(** * Correctness of hooking and unhooking

    The bitmap as a set of syscalls, the five-byte patch and its decoding by
    the CPU, and the invariant that a syscall is marked hooked exactly when its
    wrapper starts with a call to the trampoline. *)

From stdpp Require Import prelude gmap list.
From S2P Require Import Prelude Hook.

(** ** Bits of a byte *)

Lemma u8_testbit z n : 0 <= n -> Z.testbit (u8 z) n = (n <? 8) && Z.testbit z n.
Proof.
  intros Hn. unfold u8. destruct (n <? 8) eqn:E; zbool; simpl.
  - by rewrite Z.mod_pow2_bits_low by lia.
  - by rewrite Z.mod_pow2_bits_high by lia.
Qed.

Lemma testbit_one k n : 0 <= k -> Z.testbit (Z.shiftl 1 k) n = (n =? k).
Proof.
  intros Hk. rewrite Z.shiftl_1_l. destruct (n =? k) eqn:E; zbool.
  - subst. by apply Z.pow2_bits_true.
  - apply Z.pow2_bits_false. lia.
Qed.

Lemma land_bit_zero b k : 0 <= k -> (Z.land b (Z.shiftl 1 k) =? 0) = negb (Z.testbit b k).
Proof.
  intros Hk. destruct (Z.testbit b k) eqn:E; simpl.
  - apply Z.eqb_neq. intros H0. assert (Z.testbit (Z.land b (Z.shiftl 1 k)) k = true) as Hb.
    { by rewrite Z.land_spec, E, testbit_one, Z.eqb_refl by done. }
    by rewrite H0, Z.bits_0 in Hb.
  - apply Z.eqb_eq. apply Z.bits_inj'. intros n _. rewrite Z.land_spec, testbit_one, Z.bits_0 by done.
    destruct (n =? k) eqn:En; zbool; [subst; by rewrite E|apply andb_false_r].
Qed.

(** ** The bitmap as a set of syscalls *)

Definition hooked (bm : list Z) (id : Z) : bool :=
  Z.testbit (default 0 (bm !! Z.to_nat (id / 8))) (id mod 8).

Lemma test_bit_hooked bm id b : 0 <= id -> bm !! Z.to_nat (id / 8) = Some b ->
  exists x, test_bit bm id = Some x /\ (x =? 0) = negb (hooked bm id).
Proof.
  intros Hid Hb. unfold test_bit, hooked, bit_of. rewrite Hb. simpl. eexists. split; [done|].
  apply land_bit_zero. apply Z.mod_pos_bound. lia.
Qed.

Lemma byte_bit_eq id id' : 0 <= id -> 0 <= id' -> Z.to_nat (id / 8) = Z.to_nat (id' / 8) ->
  id mod 8 = id' mod 8 -> id = id'.
Proof. intros ? ? ? ?. Z.div_mod_to_equations. lia. Qed.

(** Writing one byte of the bitmap, seen through [hooked]. *)
Lemma hooked_insert bm id id' x : 0 <= id -> 0 <= id' -> is_Some (bm !! Z.to_nat (id / 8)) ->
  hooked (<[Z.to_nat (id / 8) := x]> bm) id' =
    if decide (Z.to_nat (id / 8) = Z.to_nat (id' / 8)) then Z.testbit x (id' mod 8) else hooked bm id'.
Proof.
  intros Hid Hid' Hb. unfold hooked. case_decide as Hd.
  - rewrite <-Hd, list_lookup_insert_eq; [done|]. by apply lookup_lt_is_Some_1.
  - by rewrite list_lookup_insert_ne.
Qed.

Lemma set_bit_ok bm id : 0 <= id -> is_Some (bm !! Z.to_nat (id / 8)) ->
  exists bm', set_bit bm id = Some bm' /\ length bm' = length bm /\
    forall id', 0 <= id' -> hooked bm' id' = bool_decide (id' = id) || hooked bm id'.
Proof.
  intros Hid [b Hb]. unfold set_bit. rewrite Hb. simpl. eexists. split; [done|].
  split; [apply length_insert|]. intros id' Hid'. rewrite hooked_insert by (done || by eexists).
  pose proof (Z.mod_pos_bound id' 8 ltac:(lia)). pose proof (Z.mod_pos_bound id 8 ltac:(lia)).
  case_decide as Hd.
  - rewrite u8_testbit, Z.lor_spec, (proj2 (Z.ltb_lt _ _)) by lia. unfold bit_of, hooked.
    rewrite testbit_one, <-Hd, Hb by lia. simpl. rewrite orb_comm. f_equal.
    destruct (id' mod 8 =? id mod 8) eqn:E; zbool; symmetry.
    + apply bool_decide_true. by apply byte_bit_eq.
    + apply bool_decide_false. intros ->. lia.
  - rewrite bool_decide_false by (intros ->; lia). done.
Qed.

Lemma clear_bit_ok bm id : 0 <= id -> is_Some (bm !! Z.to_nat (id / 8)) ->
  exists bm', clear_bit bm id = Some bm' /\ length bm' = length bm /\
    forall id', 0 <= id' -> hooked bm' id' = negb (bool_decide (id' = id)) && hooked bm id'.
Proof.
  intros Hid [b Hb]. unfold clear_bit. rewrite Hb. simpl. eexists. split; [done|].
  split; [apply length_insert|]. intros id' Hid'. rewrite hooked_insert by (done || by eexists).
  pose proof (Z.mod_pos_bound id' 8 ltac:(lia)). pose proof (Z.mod_pos_bound id 8 ltac:(lia)).
  case_decide as Hd.
  - rewrite u8_testbit, Z.land_spec, (proj2 (Z.ltb_lt _ _)), Z.lnot_spec by lia. unfold bit_of, hooked.
    rewrite testbit_one, <-Hd, Hb by lia. simpl. rewrite andb_comm. f_equal.
    destruct (id' mod 8 =? id mod 8) eqn:E; zbool; symmetry; simpl.
    + rewrite bool_decide_true; [done|]. by apply byte_bit_eq.
    + rewrite bool_decide_false; [done|]. intros ->. lia.
  - rewrite bool_decide_false by (intros ->; lia). done.
Qed.

(** ** The patch *)

Lemma lookup_write_bytes bs : forall a t x,
  write_bytes a bs t !! x =
    if decide (a <= x < a + Z.of_nat (length bs)) then bs !! Z.to_nat (x - a) else t !! x.
Proof.
  induction bs as [|b bs IH]; intros a t x; cbn [write_bytes length].
  { rewrite decide_False by lia. done. }
  rewrite lookup_insert. case_decide as Hd.
  - subst. rewrite decide_True by lia. by rewrite Z.sub_diag.
  - rewrite IH. destruct (decide (a + 1 <= x < a + 1 + Z.of_nat (length bs))) as [Hx|Hx].
    + rewrite decide_True by lia. replace (Z.to_nat (x - a)) with (S (Z.to_nat (x - (a + 1)))) by lia. done.
    + by rewrite decide_False by lia.
Qed.

(** Bytes outside the patch keep their value. *)
Lemma call_target_frame a bs t a' : length bs = 5%nat -> a + 5 <= a' \/ a' + 5 <= a ->
  call_target (write_bytes a bs t) a' = call_target t a'.
Proof.
  intros Hl Hd. unfold call_target. rewrite !lookup_write_bytes, Hl.
  by rewrite !decide_False by lia.
Qed.

Lemma le32_rel32 z : - 2 ^ 31 <= z < 2 ^ 31 ->
  rel32 (u8 z) (u8 (Z.shiftr z 8)) (u8 (Z.shiftr z 16)) (u8 (Z.shiftr z 24)) = z.
Proof.
  intros Hz. unfold rel32. rewrite !Z.shiftr_div_pow2 by lia.
  assert (u8 z + u8 (z / 2 ^ 8) * 2 ^ 8 + u8 (z / 2 ^ 16) * 2 ^ 16 + u8 (z / 2 ^ 24) * 2 ^ 24 = z mod 2 ^ 32) as ->.
  { unfold u8. Z.div_mod_to_equations. lia. }
  unfold s32. Z.div_mod_to_equations. lia.
Qed.

(** The CPU decodes the patch to a call of the trampoline, wherever both lie
    within 2 GB of each other. *)
Lemma call_target_patch tramp a t : 0 <= tramp < 2 ^ 64 -> - 2 ^ 31 <= tramp - a - 5 < 2 ^ 31 ->
  call_target (write_bytes a (call_instruction tramp a) t) a = Some tramp.
Proof.
  intros Ht Hr. unfold call_target, call_instruction. rewrite s32_id by lia.
  rewrite !lookup_write_bytes. simpl length. rewrite !decide_True by lia.
  replace (Z.to_nat (a - a)) with 0%nat by lia. replace (Z.to_nat (a + 1 - a)) with 1%nat by lia.
  replace (Z.to_nat (a + 2 - a)) with 2%nat by lia. replace (Z.to_nat (a + 3 - a)) with 3%nat by lia.
  replace (Z.to_nat (a + 4 - a)) with 4%nat by lia. cbn -[rel32 u8 Z.shiftr u64 Z.add Z.sub].
  rewrite le32_rel32 by lia. f_equal. replace (a + 5 + (tramp - a - 5)) with tramp by lia.
  by apply u64_id.
Qed.

(** ** The invariant *)

Section invariant.
Context (SUP NR tramp : Z) (symbols : Z -> option (list Z)) (kprobe : option (list Z) -> kprobe_result).
Context (kp0 : kprobe_result) (ksym : patch_symbol -> Z).

(** What hooking relies on: the generated table has no more entries than the
    bitmap has bits; the trampoline is a kernel address; a kprobe resolves a
    wrapper to a non-zero kernel address within reach of a [rel32] call, the
    five-byte entries of different wrappers do not overlap, and a failed
    registration gives a negative error. *)
Record platform : Prop := {
  pf_table : 0 <= SUP <= 8 * (NR / 8 + 1);
  pf_tramp : 0 <= tramp < 2 ^ 64;
  pf_reach id a : kprobe (symbols id) = KpAddr a -> 0 < a < 2 ^ 64 /\ - 2 ^ 31 <= tramp - a - 5 < 2 ^ 31;
  pf_apart id id' a a' : id <> id' -> kprobe (symbols id) = KpAddr a -> kprobe (symbols id') = KpAddr a' ->
    a + 5 <= a' \/ a' + 5 <= a;
  pf_err id e : kprobe (symbols id) = KpErr e -> e < 0;
}.

(** A syscall is marked hooked only when it is in the table, its address is
    known, its wrapper starts with a call to the trampoline, and the routine
    that patched it was resolved. *)
Record hook_inv (h : hook) : Prop := {
  hi_len : length (syscall_presence_bitmap h) = Z.to_nat (NR / 8 + 1);
  hi_alen : length (syscall_addresses h) = Z.to_nat SUP;
  hi_cache id a : 0 <= id < SUP -> syscall_addresses h !! Z.to_nat id = Some a -> a <> 0 ->
    kprobe (symbols id) = KpAddr a;
  hi_range id : 0 <= id -> hooked (syscall_presence_bitmap h) id = true -> id < SUP;
  hi_hooked id : 0 <= id -> hooked (syscall_presence_bitmap h) id = true ->
    exists a, syscall_addresses h !! Z.to_nat id = Some a /\ a <> 0 /\ call_target (kernel_text h) a = Some tramp;
  hi_poke id : 0 <= id -> hooked (syscall_presence_bitmap h) id = true -> smp_text_poke_single_fn h <> 0;
}.

Context (Hpf : platform).

Lemma bitmap_in_range h id : hook_inv h -> 0 <= id < SUP ->
  is_Some (syscall_presence_bitmap h !! Z.to_nat (id / 8)).
Proof.
  intros Hi Hid. apply lookup_lt_is_Some_2. rewrite (hi_len _ Hi). pose proof (pf_table Hpf).
  Z.div_mod_to_equations. lia.
Qed.

(** Resolving keeps the invariant, the bitmap and the text. *)
Lemma resolve_ok id h : hook_inv h -> 0 <= id < SUP ->
  exists r h', resolve symbols kprobe id h = Some (r, h') /\ hook_inv h' /\
    syscall_presence_bitmap h' = syscall_presence_bitmap h /\ kernel_text h' = kernel_text h /\
    smp_text_poke_single_fn h' = smp_text_poke_single_fn h /\ kernel_text_mutex h' = kernel_text_mutex h /\
    (forall j, j <> Z.to_nat id -> syscall_addresses h' !! j = syscall_addresses h !! j) /\
    match r with
    | KpErr e => kprobe (symbols id) = KpErr e
    | KpAddr a => kprobe (symbols id) = KpAddr a /\ syscall_addresses h' !! Z.to_nat id = Some a
    end.
Proof.
  intros Hi Hid. unfold resolve.
  destruct (lookup_lt_is_Some_2 (syscall_addresses h) (Z.to_nat id)) as [c Hc];
    [rewrite (hi_alen _ Hi); lia|]. rewrite Hc. simpl.
  destruct (c =? 0) eqn:E; zbool; simpl.
  - subst c. destruct (kprobe (symbols id)) as [e|a] eqn:Hk; [by exists (KpErr e), h|].
    eexists _, _. split; [done|]. pose proof (pf_reach Hpf id a Hk) as [Ha _].
    split; [|split_and!; try done; [intros j Hj; simpl; by rewrite list_lookup_insert_ne by done|]].
    + destruct Hi as [Hl Hal Hca Hr Hh Hp]. split; simpl; try done.
      * by rewrite length_insert.
      * intros id' a' Hid' [(Hj & -> & _)|[_ H]]%list_lookup_insert_Some; [|by apply Hca].
        intros _. by replace id' with id by lia.
      * intros id' Hid' Hb. destruct (Hh id' Hid' Hb) as (a' & Ha' & Hn & Ht).
        exists a'. rewrite list_lookup_insert_ne; [done|]. intros Heq. rewrite <-Heq, Hc in Ha'. congruence.
    + simpl. apply list_lookup_insert_eq. by eapply lookup_lt_Some.
  - exists (KpAddr c), h. split_and!; try done. by eapply Hi.
Qed.

Lemma my_patch_init_frame h :
  syscall_presence_bitmap (my_patch_init kp0 ksym h).2 = syscall_presence_bitmap h /\
  syscall_addresses (my_patch_init kp0 ksym h).2 = syscall_addresses h /\
  kernel_text (my_patch_init kp0 ksym h).2 = kernel_text h.
Proof. unfold my_patch_init, init_patch_locks. simpl. by destruct (_ =? 0). Qed.

(** [apply_smp_patch] returns 1 and writes exactly the bytes, or -ENOENT and
    writes nothing. *)
Lemma apply_smp_patch_ok a bs h :
  exists r h', apply_smp_patch kp0 ksym a bs h = (r, h') /\
    syscall_presence_bitmap h' = syscall_presence_bitmap h /\ syscall_addresses h' = syscall_addresses h /\
    ((r = 1 /\ kernel_text h' = write_bytes a bs (kernel_text h) /\ smp_text_poke_single_fn h' <> 0) \/
     (r = - ENOENT /\ kernel_text h' = kernel_text h /\ smp_text_poke_single_fn h = 0)).
Proof.
  unfold apply_smp_patch. destruct (my_patch_init_frame h) as (H1 & H2 & H3).
  destruct (smp_text_poke_single_fn h =? 0) eqn:E; zbool.
  - destruct (smp_text_poke_single_fn (my_patch_init kp0 ksym h).2 =? 0) eqn:E2; zbool; simpl.
    + eexists _, _. split; [done|]. auto 6.
    + eexists _, _. split; [done|]. simpl. rewrite H3. auto 6.
  - rewrite (proj2 (Z.eqb_neq _ _) E). simpl. eexists _, _. split; [done|]. auto 6.
Qed.

Lemma call_instruction_length a : length (call_instruction tramp a) = 5%nat.
Proof. done. Qed.

(** Patching the entry of syscall [id] does not touch another hook. *)
Lemma other_hooks_kept h id a bs id' : hook_inv h -> 0 <= id < SUP -> kprobe (symbols id) = KpAddr a ->
  length bs = 5%nat -> 0 <= id' -> id' <> id -> hooked (syscall_presence_bitmap h) id' = true ->
  exists a', syscall_addresses h !! Z.to_nat id' = Some a' /\ a' <> 0 /\
    call_target (write_bytes a bs (kernel_text h)) a' = Some tramp.
Proof.
  intros Hi Hid Ha Hl Hid' Hne Hb. destruct (hi_hooked _ Hi id' Hid' Hb) as (a' & Ha' & Hn & Ht).
  exists a'. split; [done|]. split; [done|]. rewrite call_target_frame; [done|done|].
  pose proof (hi_range _ Hi id' Hid' Hb). eapply (pf_apart Hpf id id'); [done|done|]. by eapply (hi_cache _ Hi).
Qed.

(** A hook installed or failed: the outcome of [installProbe] on an id of the
    table that is not hooked. *)
Lemma install_new id h : hook_inv h -> 0 <= id < SUP -> hooked (syscall_presence_bitmap h) id = false ->
  exists r h', installProbe SUP tramp symbols kprobe kp0 ksym id h = Some (r, h') /\ hook_inv h' /\
    ((r = 1 /\ (forall id', 0 <= id' ->
        hooked (syscall_presence_bitmap h') id' = bool_decide (id' = id) || hooked (syscall_presence_bitmap h) id') /\
        exists a, kprobe (symbols id) = KpAddr a /\ call_target (kernel_text h') a = Some tramp /\
            kernel_text h' = write_bytes a (call_instruction tramp a) (kernel_text h)) \/
     (r < 0 /\ syscall_presence_bitmap h' = syscall_presence_bitmap h /\ kernel_text h' = kernel_text h)).
Proof.
  intros Hi Hid Hn. unfold installProbe.
  replace ((id <? 0) || (SUP <=? id)) with false
    by (symmetry; apply orb_false_iff; split; [apply Z.ltb_ge|apply Z.leb_gt]; lia).
  destruct (bitmap_in_range h id Hi Hid) as [b Hb].
  destruct (test_bit_hooked _ id b ltac:(lia) Hb) as (x & -> & Hx). simpl. rewrite Hx, Hn. simpl.
  destruct (resolve_ok id h Hi Hid) as (r & h1 & -> & Hi1 & Hbm1 & Ht1 & _ & _ & _ & Hr). simpl.
  destruct r as [e|a].
  { exists e, h1. split; [done|]. split; [done|]. right. split; [by eapply (pf_err Hpf id)|done]. }
  destruct Hr as [Hk Ha1]. pose proof (pf_reach Hpf id a Hk) as [Hra Hre].
  destruct (apply_smp_patch_ok a (call_instruction tramp a) h1) as (r & h2 & -> & Hbm2 & Had2 & Hres).
  destruct Hres as [(-> & Ht2 & Hp2)|(-> & Ht2 & Hp2)]; simpl.
  - destruct (set_bit_ok (syscall_presence_bitmap h2) id) as (bm & -> & Hlb & Hset);
      [lia|rewrite Hbm2, Hbm1; by eexists|]. simpl. eexists _, _. split; [done|].
    assert (forall id', 0 <= id' -> hooked bm id' = bool_decide (id' = id) || hooked (syscall_presence_bitmap h) id') as Hset'.
    { intros id' Hid'. by rewrite Hset, Hbm2, Hbm1. }
    assert (call_target (kernel_text h2) a = Some tramp) as Hct.
    { rewrite Ht2. apply call_target_patch; [apply Hpf|done]. }
    split; [|left; split; [done|]; split; [exact Hset'|exists a; split_and!; [done|done|rewrite <-Ht1; exact Ht2]]].
    destruct Hi1 as [L1 L2 L3 L4 L5 L6] eqn:HH. clear HH. split; simpl; rewrite ?Had2; try done.
    + by rewrite Hlb, Hbm2.
    + intros id' Hid'. rewrite Hset' by done. case_bool_decide as Hd; [subst; lia|]. simpl.
      rewrite <-Hbm1. by apply L4.
    + intros id' Hid'. rewrite Hset' by done. case_bool_decide as Hd; simpl.
      * subst id'. intros _. exists a. split; [done|]. split; [lia|done].
      * rewrite <-Hbm1, Ht2. intros Hh. by eapply (other_hooks_kept h1 id a).
  - eexists _, _. split; [done|].
    split; [|right; split; [done|]; split; congruence].
    destruct Hi1 as [L1 L2 L3 L4 L5 L6]. split; rewrite ?Hbm2, ?Had2, ?Ht2; try done.
    intros id' Hid' Hh. by destruct (L6 id' Hid' Hh).
Qed.

(** The outcome of [removeProbe] on a hooked syscall. *)
Lemma remove_hooked id h : hook_inv h -> 0 <= id -> hooked (syscall_presence_bitmap h) id = true ->
  exists h', removeProbe SUP symbols kprobe kp0 ksym id h = Some (1, h') /\ hook_inv h' /\
    (forall id', 0 <= id' ->
       hooked (syscall_presence_bitmap h') id' = negb (bool_decide (id' = id)) && hooked (syscall_presence_bitmap h) id') /\
    exists a, kprobe (symbols id) = KpAddr a /\ kernel_text h' = write_bytes a nop_instruction (kernel_text h).
Proof.
  intros Hi Hid0 Hn. pose proof (hi_poke _ Hi id Hid0 Hn) as Hpoke. pose proof (hi_range _ Hi id Hid0 Hn) as Hlt. unfold removeProbe.
  replace ((id <? 0) || (SUP <=? id)) with false
    by (symmetry; apply orb_false_iff; split; [apply Z.ltb_ge|apply Z.leb_gt]; lia).
  destruct (bitmap_in_range h id Hi ltac:(lia)) as [b Hb].
  destruct (test_bit_hooked _ id b ltac:(lia) Hb) as (x & -> & Hx). simpl. rewrite Hx, Hn. simpl.
  destruct (hi_hooked _ Hi id Hid0 Hn) as (a & Ha & Ha0 & _).
  unfold resolve. rewrite Ha. simpl. rewrite (proj2 (Z.eqb_neq _ _) Ha0). simpl.
  pose proof (hi_cache _ Hi id a ltac:(lia) Ha Ha0) as Hk.
  destruct (apply_smp_patch_ok a nop_instruction h) as (r & h2 & -> & Hbm2 & Had2 & Hres).
  destruct Hres as [(-> & Ht2 & Hp2)|(-> & _ & ?)]; [|done]. simpl.
  destruct (clear_bit_ok (syscall_presence_bitmap h2) id) as (bm & -> & Hlb & Hset);
    [lia|rewrite Hbm2; by eexists|]. simpl. eexists. split; [done|].
  rewrite Hbm2 in Hset, Hlb. split; [|split; [exact Hset|by exists a]].
  destruct Hi as [L1 L2 L3 L4 L5 L6] eqn:HH. clear HH. split; simpl; rewrite ?Had2; try done.
  - by rewrite Hlb.
  - intros id' Hid'. rewrite Hset by done. intros [_ ?]%andb_true_iff. by apply L4.
  - intros id' Hid'. rewrite Hset by done. case_bool_decide as Hd; [done|]. simpl. rewrite Ht2. intros Hh.
    by eapply (other_hooks_kept h id a).
Qed.

(** ** The cleanup loop *)

Lemma hooked_byte bm i j b : bm !! i = Some b -> (j < 8)%nat ->
  hooked bm (Z.of_nat i * 8 + Z.of_nat j) = Z.testbit b (Z.of_nat j).
Proof.
  intros Hb Hj. unfold hooked.
  replace ((Z.of_nat i * 8 + Z.of_nat j) / 8) with (Z.of_nat i) by (Z.div_mod_to_equations; lia).
  replace ((Z.of_nat i * 8 + Z.of_nat j) mod 8) with (Z.of_nat j) by (Z.div_mod_to_equations; lia).
  by rewrite Nat2Z.id, Hb.
Qed.

Lemma cleanup_byte_ok i js : forall h, hook_inv h -> (i < Z.to_nat (NR / 8 + 1))%nat ->
  Forall (fun j => (j < 8)%nat) js ->
  exists h', cleanup_byte SUP symbols kprobe kp0 ksym i js h = Some h' /\ hook_inv h' /\
    forall id, 0 <= id -> hooked (syscall_presence_bitmap h') id = true <->
      hooked (syscall_presence_bitmap h) id = true /\
      ~ (exists j, j ∈ js /\ id = Z.of_nat i * 8 + Z.of_nat j).
Proof.
  induction js as [|j js IH]; intros h Hi Hr Hjs; simpl.
  { exists h. split; [done|]. split; [done|]. intros id _. split; [|tauto]. intros ?. split; [done|].
    by intros (j & ?%not_elem_of_nil & _). }
  apply Forall_cons in Hjs as [Hj Hjs].
  destruct (lookup_lt_is_Some_2 (syscall_presence_bitmap h) i) as [b Hb]; [by rewrite (hi_len _ Hi)|].
  rewrite Hb. simpl. rewrite land_bit_zero, <-(hooked_byte _ _ _ _ Hb Hj) by lia.
  set (id0 := Z.of_nat i * 8 + Z.of_nat j).
  destruct (hooked (syscall_presence_bitmap h) id0) eqn:Hh; simpl.
  - destruct (remove_hooked id0 h Hi ltac:(unfold id0; lia) Hh) as (h1 & -> & Hi1 & Hs1 & _). simpl.
    destruct (IH h1 Hi1 Hr Hjs) as (h' & -> & Hi' & Hs'). exists h'. split; [done|]. split; [done|].
    intros id Hid. rewrite Hs', Hs1 by done. case_bool_decide as Hd; simpl.
    + split; [intros [? _]; done|]. intros [_ Hn]. destruct Hn. exists j. split; [left|done].
    + split; (intros [H1 H2]; split; [done|]); intros (j' & Hin & ->); apply H2; [|exists j'; split; [by right|done]].
      apply elem_of_cons in Hin as [->|Hin]; [done|by exists j'].
  - destruct (IH h Hi Hr Hjs) as (h' & -> & Hi' & Hs'). exists h'. split; [done|]. split; [done|].
    intros id Hid. rewrite Hs' by done.
    split; (intros [H1 H2]; split; [done|]); intros (j' & Hin & ->); [|apply H2; exists j'; split; [by right|done]].
    apply elem_of_cons in Hin as [->|Hin]; [unfold id0 in Hh; congruence|apply H2; by exists j'].
Qed.

Lemma cleanup_loop_ok ids : forall h, hook_inv h -> Forall (fun i => (i < Z.to_nat (NR / 8 + 1))%nat) ids ->
  exists h', cleanup_loop SUP symbols kprobe kp0 ksym ids h = Some h' /\ hook_inv h' /\
    forall id, 0 <= id -> hooked (syscall_presence_bitmap h') id = true ->
      hooked (syscall_presence_bitmap h) id = true /\ Z.to_nat (id / 8) ∉ ids.
Proof.
  induction ids as [|i ids IH]; intros h Hi Hr; cbn [cleanup_loop].
  { exists h. split; [done|]. split; [done|]. intros id _ ?. split; [done|apply not_elem_of_nil]. }
  apply Forall_cons in Hr as [Hr Hrs].
  destruct (lookup_lt_is_Some_2 (syscall_presence_bitmap h) i) as [b Hb]; [by rewrite (hi_len _ Hi)|].
  rewrite Hb. cbn [mbind option_bind].
  assert (exists h1, (if negb (b =? 0) then cleanup_byte SUP symbols kprobe kp0 ksym i (seq 0 8) h else Some h) = Some h1 /\
    hook_inv h1 /\ forall id, 0 <= id -> hooked (syscall_presence_bitmap h1) id = true ->
      hooked (syscall_presence_bitmap h) id = true /\ Z.to_nat (id / 8) <> i) as (h1 & -> & Hi1 & Hs1).
  { destruct (b =? 0) eqn:E; zbool; cbn [negb].
    - exists h. split; [done|]. split; [done|]. intros id Hid Hh. split; [done|]. intros <-.
      unfold hooked in Hh. rewrite Hb, E in Hh. simpl in Hh. by rewrite Z.bits_0 in Hh.
    - destruct (cleanup_byte_ok i (seq 0 8) h Hi Hr) as (h1 & -> & Hi1 & Hs1).
      { apply Forall_forall. intros j Hj%elem_of_seq. lia. }
      exists h1. split; [done|]. split; [done|]. intros id Hid [Hh Hn]%Hs1; [|done]. split; [done|].
      intros Hq. apply Hn. exists (Z.to_nat (id mod 8)).
      pose proof (Z.mod_pos_bound id 8 ltac:(lia)). split; [apply elem_of_seq; lia|].
      Z.div_mod_to_equations. lia. }
  cbn [mbind option_bind]. destruct (IH h1 Hi1 Hrs) as (h' & -> & Hi' & Hs'). exists h'.
  split; [done|]. split; [done|]. intros id Hid Hh. destruct (Hs' id Hid Hh) as [H1 H2].
  destruct (Hs1 id Hid H1) as [H3 H4]. split; [done|]. by apply not_elem_of_cons.
Qed.

Lemma hook0_inv t : hook_inv (hook0 SUP NR t).
Proof.
  assert (forall id, hooked (syscall_presence_bitmap (hook0 SUP NR t)) id = false) as Hz.
  { intros id. unfold hooked. simpl. destruct (_ !! _) as [b|] eqn:E; simpl; [|apply Z.bits_0].
    apply lookup_replicate_1 in E as [-> _]. apply Z.bits_0. }
  split; try (intros id ?; rewrite Hz; done).
  - apply length_replicate.
  - apply length_replicate.
  - intros id a _ [-> _]%lookup_replicate_1. done.
Qed.
End invariant.

(** ** Every call is defined *)

Section total.
Context (SUP NR tramp : Z) (symbols : Z -> option (list Z)) (kprobe : option (list Z) -> kprobe_result).
Context (kp0 : kprobe_result) (ksym : patch_symbol -> Z).
Context (Hpf : platform SUP NR tramp symbols kprobe).

(** The two tests at the start of [installProbe] and [removeProbe]. *)
Lemma probe_tests id h : hook_inv SUP NR tramp symbols kprobe h ->
  (~ 0 <= id < SUP /\ (id <? 0) || (SUP <=? id) = true) \/
  (0 <= id < SUP /\ (id <? 0) || (SUP <=? id) = false /\
   exists x, test_bit (syscall_presence_bitmap h) id = Some x /\ (x =? 0) = negb (hooked (syscall_presence_bitmap h) id)).
Proof.
  intros Hi. destruct (decide (0 <= id < SUP)) as [Hid|Hid].
  - right. destruct (bitmap_in_range _ _ _ _ _ Hpf h id Hi Hid) as [b Hb].
    split; [done|]. split; [by rewrite (proj2 (Z.ltb_ge _ _)), (proj2 (Z.leb_gt _ _)) by lia|].
    eapply test_bit_hooked; [lia|done].
  - left. split; [done|]. apply orb_true_iff. rewrite Z.ltb_lt, Z.leb_le. lia.
Qed.

Lemma installProbe_total id h : hook_inv SUP NR tramp symbols kprobe h ->
  exists r h', installProbe SUP tramp symbols kprobe kp0 ksym id h = Some (r, h') /\
    hook_inv SUP NR tramp symbols kprobe h' /\
    (id < 0 \/ SUP <= id -> r = - EINVAL /\ h' = h) /\
    (0 <= id < SUP -> hooked (syscall_presence_bitmap h) id = true -> r = - EEXIST /\ h' = h) /\
    (0 <= id < SUP -> hooked (syscall_presence_bitmap h) id = false ->
       (r = 1 /\ (forall id', 0 <= id' -> hooked (syscall_presence_bitmap h') id' =
            bool_decide (id' = id) || hooked (syscall_presence_bitmap h) id') /\
          exists a, kprobe (symbols id) = KpAddr a /\ call_target (kernel_text h') a = Some tramp /\
            kernel_text h' = write_bytes a (call_instruction tramp a) (kernel_text h)) \/
       (r < 0 /\ syscall_presence_bitmap h' = syscall_presence_bitmap h /\ kernel_text h' = kernel_text h)).
Proof.
  intros Hi. destruct (probe_tests id h Hi) as [[Hid Ht]|(Hid & Ht & x & Hx & Hx0)].
  - exists (- EINVAL), h. unfold installProbe. rewrite Ht. split_and!; auto; lia.
  - destruct (hooked (syscall_presence_bitmap h) id) eqn:Hh.
    + exists (- EEXIST), h. split; [|split; [done|split; [lia|split; [done|congruence]]]].
      unfold installProbe. rewrite Ht, Hx. simpl. by rewrite Hx0.
    + destruct (install_new SUP NR tramp symbols kprobe kp0 ksym Hpf id h Hi Hid Hh) as (r & h' & E & Hi' & Hr).
      exists r, h'. split; [done|]. split; [done|]. split; [lia|]. split; [congruence|done].
Qed.

Lemma removeProbe_total id h : hook_inv SUP NR tramp symbols kprobe h ->
  exists r h', removeProbe SUP symbols kprobe kp0 ksym id h = Some (r, h') /\
    hook_inv SUP NR tramp symbols kprobe h' /\
    (id < 0 \/ SUP <= id -> r = - EINVAL /\ h' = h) /\
    (0 <= id < SUP -> hooked (syscall_presence_bitmap h) id = false -> r = - EEXIST /\ h' = h) /\
    (0 <= id < SUP -> hooked (syscall_presence_bitmap h) id = true ->
       r = 1 /\ (forall id', 0 <= id' -> hooked (syscall_presence_bitmap h') id' =
         negb (bool_decide (id' = id)) && hooked (syscall_presence_bitmap h) id') /\
       exists a, kprobe (symbols id) = KpAddr a /\
         kernel_text h' = write_bytes a nop_instruction (kernel_text h)).
Proof.
  intros Hi. destruct (probe_tests id h Hi) as [[Hid Ht]|(Hid & Ht & x & Hx & Hx0)].
  - exists (- EINVAL), h. unfold removeProbe. rewrite Ht. split_and!; auto; lia.
  - destruct (hooked (syscall_presence_bitmap h) id) eqn:Hh.
    + destruct (remove_hooked SUP NR tramp symbols kprobe kp0 ksym Hpf id h Hi ltac:(lia) Hh)
        as (h' & E & Hi' & Hs & Ha).
      exists 1, h'. split; [done|]. split; [done|]. split; [lia|]. split; [done|]. done.
    + exists (- EEXIST), h. split; [|split; [done|split; [lia|split; [done|congruence]]]].
      unfold removeProbe. rewrite Ht, Hx. simpl. by rewrite Hx0.
Qed.
End total.

(** ** Properties *)

(** C19: [installProbe] on any id: -EINVAL outside the table and -EEXIST for a
    hooked syscall, changing nothing; otherwise it returns 1, marks exactly that
    syscall hooked and its wrapper starts with a [CALL rel32] that the CPU
    decodes to [stub_trampoline] (no other byte of the text changes), or it
    returns a negative error with bitmap and text unchanged.  The bitmap/text invariant is kept and every access is in
    bounds. *)
Theorem installProbe_hooks SUP NR tramp symbols kprobe kp0 ksym id h :
  platform SUP NR tramp symbols kprobe -> hook_inv SUP NR tramp symbols kprobe h ->
  exists r h', installProbe SUP tramp symbols kprobe kp0 ksym id h = Some (r, h') /\
    hook_inv SUP NR tramp symbols kprobe h' /\
    (id < 0 \/ SUP <= id -> r = - EINVAL /\ h' = h) /\
    (0 <= id < SUP -> hooked (syscall_presence_bitmap h) id = true -> r = - EEXIST /\ h' = h) /\
    (0 <= id < SUP -> hooked (syscall_presence_bitmap h) id = false ->
       (r = 1 /\ (forall id', 0 <= id' -> hooked (syscall_presence_bitmap h') id' =
            bool_decide (id' = id) || hooked (syscall_presence_bitmap h) id') /\
          exists a, kprobe (symbols id) = KpAddr a /\ call_target (kernel_text h') a = Some tramp /\
            kernel_text h' = write_bytes a (call_instruction tramp a) (kernel_text h)) \/
       (r < 0 /\ syscall_presence_bitmap h' = syscall_presence_bitmap h /\ kernel_text h' = kernel_text h)).
Proof. intros Hpf Hi. by apply installProbe_total. Qed.

(** [removeProbe] on any id: -EINVAL outside the table, -EEXIST for a
    syscall that is not hooked, changing nothing; for a hooked syscall it
    returns 1, unmarks exactly that syscall and rewrites exactly the five bytes
    of its wrapper, and every other hook stays in place. *)
Theorem removeProbe_unhooks SUP NR tramp symbols kprobe kp0 ksym id h :
  platform SUP NR tramp symbols kprobe -> hook_inv SUP NR tramp symbols kprobe h ->
  exists r h', removeProbe SUP symbols kprobe kp0 ksym id h = Some (r, h') /\
    hook_inv SUP NR tramp symbols kprobe h' /\
    (id < 0 \/ SUP <= id -> r = - EINVAL /\ h' = h) /\
    (0 <= id < SUP -> hooked (syscall_presence_bitmap h) id = false -> r = - EEXIST /\ h' = h) /\
    (0 <= id < SUP -> hooked (syscall_presence_bitmap h) id = true ->
       r = 1 /\ (forall id', 0 <= id' -> hooked (syscall_presence_bitmap h') id' =
         negb (bool_decide (id' = id)) && hooked (syscall_presence_bitmap h) id') /\
       exists a, kprobe (symbols id) = KpAddr a /\
         kernel_text h' = write_bytes a nop_instruction (kernel_text h)).
Proof. intros Hpf Hi. by apply removeProbe_total. Qed.

(** The loop of [sysThrot_cleanup] removes every hook: it stays in bounds,
    terminates, and leaves no syscall marked hooked. *)
Theorem cleanup_unhooks_all SUP NR tramp symbols kprobe kp0 ksym h :
  platform SUP NR tramp symbols kprobe -> hook_inv SUP NR tramp symbols kprobe h ->
  exists h', cleanup_hooks SUP NR symbols kprobe kp0 ksym h = Some h' /\
    forall id, 0 <= id -> hooked (syscall_presence_bitmap h') id = false.
Proof.
  intros Hpf Hi.
  destruct (cleanup_loop_ok SUP NR tramp symbols kprobe kp0 ksym Hpf (seq 0 (Z.to_nat (NR / 8 + 1))) h Hi)
    as (h' & E & Hi' & Hs).
  { apply Forall_forall. intros i ?%elem_of_seq. lia. }
  exists h'. split; [done|]. intros id Hid. destruct (hooked (syscall_presence_bitmap h') id) eqn:Hh; [|done].
  destruct (Hs id Hid Hh) as [_ Hn]. destruct Hn. apply elem_of_seq.
  pose proof (hi_range _ _ _ _ _ _ Hi' id Hid Hh). pose proof (pf_table _ _ _ _ _ Hpf).
  Z.div_mod_to_equations. lia.
Qed.

(** The multi-byte NOP the wrapper started with (Readme, "Unhooking"). *)
Definition documented_nop : list Z := [15; 31; 68; 0; 0].

(** Unhooking does not restore the wrapper: after installing and removing
    the hook of a wrapper that started with the documented NOP
    [0F 1F 44 00 00], its second byte is 0 instead of 1F. *)
Theorem unhook_not_restored SUP NR tramp symbols kprobe kp0 ksym id h h' a :
  platform SUP NR tramp symbols kprobe -> hook_inv SUP NR tramp symbols kprobe h ->
  0 <= id < SUP -> hooked (syscall_presence_bitmap h) id = true -> kprobe (symbols id) = KpAddr a ->
  removeProbe SUP symbols kprobe kp0 ksym id h = Some (1, h') ->
  kernel_text h' !! (a + 1) = Some 0 /\ kernel_text h' !! (a + 1) <> documented_nop !! 1%nat.
Proof.
  intros Hpf Hi Hid Hh Ha E. assert (kernel_text h' !! (a + 1) = Some 0) as ->; [|done].
  destruct (remove_hooked SUP NR tramp symbols kprobe kp0 ksym Hpf id h Hi ltac:(lia) Hh)
    as (h2 & E2 & _ & _ & a2 & Ha2 & Ht).
  rewrite E in E2. injection E2 as <-. rewrite Ha in Ha2. injection Ha2 as <-.
  rewrite Ht, lookup_write_bytes. simpl length. rewrite decide_True by lia.
  by replace (Z.to_nat (a + 1 - a)) with 1%nat by lia.
Qed.

(** ** A concrete platform: 462 wrappers 16 bytes apart, the trampoline 1 GB above. *)

Definition demo_symbols (id : Z) : option (list Z) := Some [id].
Definition demo_base : Z := 2 ^ 64 - 2 ^ 31.
Definition demo_kprobe (s : option (list Z)) : kprobe_result :=
  match s with
  | Some [id] => if (0 <=? id) && (id <? 462) then KpAddr (demo_base + 16 * id) else KpErr (- ENOENT)
  | _ => KpErr (- EINVAL)
  end.
Definition demo_tramp : Z := 2 ^ 64 - 2 ^ 30.
Definition demo_ksym (s : patch_symbol) : Z := match s with TextMutex => 1 | SmpTextPokeSingle => 2 end.

Lemma demo_kprobe_addr id a : demo_kprobe (demo_symbols id) = KpAddr a -> a = demo_base + 16 * id /\ 0 <= id < 462.
Proof.
  unfold demo_kprobe, demo_symbols. destruct ((0 <=? id) && (id <? 462)) eqn:E; [|done].
  intros [= <-]. zbool. lia.
Qed.

Lemma demo_platform : platform 462 462 demo_tramp demo_symbols demo_kprobe.
Proof.
  split.
  - vm_compute. split; discriminate.
  - unfold demo_tramp. lia.
  - intros id a [-> Hid]%demo_kprobe_addr. unfold demo_tramp, demo_base. lia.
  - intros id id' a a' Hne [-> _]%demo_kprobe_addr [-> _]%demo_kprobe_addr. lia.
  - intros id e. unfold demo_kprobe, demo_symbols. destruct (_ && _); [done|]. intros [= <-]. done.
Qed.

Definition demo_hook : hook := hook0 462 462 ∅.

(** [getpid] (39) hooked. *)
Definition demo_hooked : hook :=
  match installProbe 462 demo_tramp demo_symbols demo_kprobe (KpAddr 1) demo_ksym 39 demo_hook with
  | Some (_, h) => h
  | None => demo_hook
  end.

Lemma demo_hooked_inv : hook_inv 462 462 demo_tramp demo_symbols demo_kprobe demo_hooked.
Proof.
  destruct (install_new 462 462 demo_tramp demo_symbols demo_kprobe (KpAddr 1) demo_ksym demo_platform 39 demo_hook
    (hook0_inv _ _ _ _ _ _) ltac:(lia) eq_refl) as (r & h' & E & Hi & _).
  unfold demo_hooked. by rewrite E.
Qed.

Lemma installProbe_hooks_witness :
  exists r h', installProbe 462 demo_tramp demo_symbols demo_kprobe (KpAddr 1) demo_ksym 39 demo_hooked = Some (r, h') /\
    r = - EEXIST /\ h' = demo_hooked.
Proof.
  destruct (installProbe_hooks 462 462 demo_tramp demo_symbols demo_kprobe (KpAddr 1) demo_ksym 39 demo_hooked
    demo_platform demo_hooked_inv) as (r & h' & E & _ & _ & H & _).
  exists r, h'. split; [exact E|]. apply H; [lia|vm_compute; reflexivity].
Defined.

Lemma removeProbe_unhooks_witness :
  exists r h', removeProbe 462 demo_symbols demo_kprobe (KpAddr 1) demo_ksym 39 demo_hooked = Some (r, h') /\ r = 1.
Proof.
  destruct (removeProbe_unhooks 462 462 demo_tramp demo_symbols demo_kprobe (KpAddr 1) demo_ksym 39 demo_hooked
    demo_platform demo_hooked_inv) as (r & h' & E & _ & _ & _ & H).
  exists r, h'. split; [exact E|]. apply H; [lia|vm_compute; reflexivity].
Defined.

Lemma cleanup_unhooks_all_witness :
  exists h', cleanup_hooks 462 462 demo_symbols demo_kprobe (KpAddr 1) demo_ksym demo_hooked = Some h' /\
    forall id, 0 <= id -> hooked (syscall_presence_bitmap h') id = false.
Proof.
  exact (cleanup_unhooks_all 462 462 demo_tramp demo_symbols demo_kprobe (KpAddr 1) demo_ksym demo_hooked
    demo_platform demo_hooked_inv).
Defined.

Lemma unhook_not_restored_witness :
  exists h', removeProbe 462 demo_symbols demo_kprobe (KpAddr 1) demo_ksym 39 demo_hooked = Some (1, h') /\
    kernel_text h' !! (demo_base + 16 * 39 + 1) = Some 0.
Proof.
  eexists. split; [vm_compute; reflexivity|].
  eapply (unhook_not_restored 462 462 demo_tramp demo_symbols demo_kprobe (KpAddr 1) demo_ksym 39 demo_hooked _
    (demo_base + 16 * 39) demo_platform demo_hooked_inv); [lia|vm_compute; reflexivity..].
Defined.
