(* ===== verification/Trampoline.v ===== *)
(** * The assembly trampoline ([src/sysThrot.c], [stub_trampoline])

    The instructions of [stub_trampoline] on a small x86-64 machine: the
    registers it touches, the zero flag, 8-byte stack words and the counter
    [sysThrot_stub_counter].  The compiled C function [stub] is a parameter: a
    transformation of the machine that obeys the System V calling convention.
    [None] is a read of a stack word that was never written. *)

From stdpp Require Import prelude gmap list.
From S2P Require Import Prelude.

Inductive reg := RAX | RBX | RCX | RDX | RSI | RDI | R8 | R9 | R10 | R11 | RSP.

#[export] Instance reg_eq_dec : EqDecision reg.
Proof. solve_decision. Defined.

Record machine := Machine {
  regs : reg -> Z;
  zf : bool;
  stack : gmap Z Z;                 (* 64-bit words by address *)
  stub_counter : Z;                 (* sysThrot_stub_counter *)
}.

Definition set_reg (r : reg) (v : Z) (m : machine) : machine :=
  Machine (fun r' => if decide (r' = r) then v else regs m r') (zf m) (stack m) (stub_counter m).

Definition set_zf (b : bool) (m : machine) : machine :=
  Machine (regs m) b (stack m) (stub_counter m).

Definition set_counter (c : Z) (m : machine) : machine :=
  Machine (regs m) (zf m) (stack m) (s32 c).

Definition push (v : Z) (m : machine) : machine :=
  let sp := regs m RSP - 8 in
  set_reg RSP sp (Machine (regs m) (zf m) (<[sp := v]> (stack m)) (stub_counter m)).

Definition pop (r : reg) (m : machine) : option machine :=
  v ← stack m !! regs m RSP;
  Some (set_reg r v (set_reg RSP (regs m RSP + 8) m)).

Inductive instr :=
| LockIncl | LockDecl                     (* lock incl/decl sysThrot_stub_counter(%rip) *)
| Pushq (r : reg) | Popq (r : reg)
| CallStub                                (* call stub *)
| Movq (src dst : reg)
| Testq (a b : reg)
| Jz (target : nat)
| AddRsp (k : Z)                          (* addq $k, %rsp *)
| Ret.

(** The listing; [Jz 29] is [jz 1f], the label [1:] is at index 29. *)
Definition stub_trampoline : list instr :=
  [ LockIncl;
    Pushq RBX; Pushq RAX; Pushq RDI; Pushq RSI; Pushq RDX; Pushq RCX; Pushq R11; Pushq R10; Pushq R9; Pushq R8;
    CallStub;
    Movq RAX RBX;
    Popq R8; Popq R9; Popq R10; Popq R11; Popq RCX; Popq RDX; Popq RSI; Popq RDI; Popq RAX;
    Testq RBX RBX;
    Jz 29;
    Movq RBX RAX;
    Popq RBX;
    AddRsp 8;
    LockDecl;
    Ret;
    Popq RBX;
    LockDecl;
    Ret ].

Section machine.
Context (stub : machine -> machine).

Inductive result :=
| Running (pc : nat) (m : machine)
| Returned (ip : Z) (m : machine).        (* [ret] popped the address [ip] *)

Definition exec (i : instr) (pc : nat) (m : machine) : option result :=
  match i with
  | LockIncl => Some (Running (S pc) (set_counter (stub_counter m + 1) m))
  | LockDecl => Some (Running (S pc) (set_counter (stub_counter m - 1) m))
  | Pushq r => Some (Running (S pc) (push (regs m r) m))
  | Popq r => m ← pop r m; Some (Running (S pc) m)
  | CallStub => Some (Running (S pc) (stub m))
  | Movq s d => Some (Running (S pc) (set_reg d (regs m s) m))
  | Testq a b => Some (Running (S pc) (set_zf (Z.land (regs m a) (regs m b) =? 0) m))
  | Jz t => Some (Running (if zf m then t else S pc) m)
  | AddRsp k => Some (Running (S pc) (set_reg RSP (regs m RSP + k) m))
  | Ret => v ← stack m !! regs m RSP; Some (Returned v (set_reg RSP (regs m RSP + 8) m))
  end.

(** Runs until [ret]; the listing has no loop, so its length bounds the steps. *)
Fixpoint run_code (fuel : nat) (code : list instr) (pc : nat) (m : machine) : option (Z * machine) :=
  match fuel with
  | O => None
  | S fuel =>
      i ← code !! pc;
      r ← exec i pc m;
      match r with
      | Running pc m => run_code fuel code pc m
      | Returned ip m => Some (ip, m)
      end
  end.

Definition trampoline (m : machine) : option (Z * machine) :=
  run_code (length stub_trampoline) stub_trampoline 0 m.

(** The calling convention: [stub] returns with the stack pointer and [rbx]
    as they were and the caller's part of the stack intact, and it does not
    touch [sysThrot_stub_counter]. *)
Record stub_abi : Prop := {
  abi_rsp m : regs (stub m) RSP = regs m RSP;
  abi_rbx m : regs (stub m) RBX = regs m RBX;
  abi_stack m a : regs m RSP <= a -> stack (stub m) !! a = stack m !! a;
  abi_counter m : stub_counter (stub m) = stub_counter m;
}.
End machine.

(** ** Symbolic execution *)

Lemma get_set r r' v m : regs (set_reg r v m) r' = if decide (r' = r) then v else regs m r'.
Proof. done. Qed.

Lemma get_push v r' m : regs (push v m) r' = if decide (r' = RSP) then regs m RSP - 8 else regs m r'.
Proof. done. Qed.

(** The registers in the order they are pushed. *)
Definition saved : list reg := [RBX; RAX; RDI; RSI; RDX; RCX; R11; R10; R9; R8].

Definition push_all (rs : list reg) (m : machine) : machine :=
  foldl (fun m r => push (regs m r) m) m rs.

(** The machine on which [stub] is called. *)
Definition at_stub (m : machine) : machine := push_all saved (set_counter (stub_counter m + 1) m).

Lemma push_all_regs rs : forall m r, RSP ∉ rs -> r <> RSP -> regs (push_all rs m) r = regs m r.
Proof.
  induction rs as [|x rs IH]; intros m r Hn Hr; [done|]. simpl. apply not_elem_of_cons in Hn as [Hx Hn].
  change (foldl _ _ rs) with (push_all rs (push (regs m x) m)).
  rewrite IH by done. rewrite get_push. by rewrite decide_False.
Qed.

Lemma push_all_rsp rs : forall m, regs (push_all rs m) RSP = regs m RSP - 8 * Z.of_nat (length rs).
Proof.
  induction rs as [|x rs IH]; intros m; [simpl; lia|]. simpl.
  change (foldl _ _ rs) with (push_all rs (push (regs m x) m)).
  rewrite IH, get_push, decide_True by done. lia.
Qed.

Lemma push_all_above rs : forall m a, regs m RSP <= a -> stack (push_all rs m) !! a = stack m !! a.
Proof.
  induction rs as [|x rs IH]; intros m a Ha; [done|]. simpl.
  change (foldl _ _ rs) with (push_all rs (push (regs m x) m)).
  rewrite IH by (rewrite get_push, decide_True by done; lia).
  simpl. by rewrite lookup_insert_ne by lia.
Qed.

(** The word of the register pushed in position [k]. *)
Lemma push_all_word rs : forall m k r, RSP ∉ rs -> rs !! k = Some r ->
  stack (push_all rs m) !! (regs m RSP - 8 * (Z.of_nat k + 1)) = Some (regs m r).
Proof.
  induction rs as [|x rs IH]; intros m k r Hn Hk; [done|]. simpl. apply not_elem_of_cons in Hn as [Hx Hn].
  change (foldl _ _ rs) with (push_all rs (push (regs m x) m)). destruct k as [|k]; simpl in Hk.
  - injection Hk as ->. rewrite push_all_above by (rewrite get_push, decide_True by done; lia).
    simpl. replace (regs m RSP - 8 * (0 + 1)) with (regs m RSP - 8) by lia. apply lookup_insert_eq.
  - specialize (IH (push (regs m x) m) k r Hn Hk). rewrite !get_push in IH. rewrite decide_True in IH by done.
    rewrite decide_False in IH by (intros ->; apply Hn; by eapply list_elem_of_lookup_2).
    rewrite <-IH. f_equal. lia.
Qed.

(** Popping registers in turn: each gets the next word. *)
Lemma pop_ok r v m : stack m !! regs m RSP = Some v -> r <> RSP ->
  exists m', pop r m = Some m' /\ regs m' RSP = regs m RSP + 8 /\ stack m' = stack m /\
    stub_counter m' = stub_counter m /\ zf m' = zf m /\
    forall r', r' <> RSP -> regs m' r' = if decide (r' = r) then v else regs m r'.
Proof.
  intros Hv Hr. unfold pop. rewrite Hv. simpl. eexists. split; [done|]. split; [|split; [done|split; [done|split; [done|]]]].
  - rewrite get_set, decide_False by done. rewrite get_set. by rewrite decide_True.
  - intros r' Hr'. rewrite get_set. destruct (decide (r' = r)); [done|]. rewrite get_set. by rewrite decide_False.
Qed.

Fixpoint pop_all (rs : list reg) (m : machine) : option machine :=
  match rs with [] => Some m | r :: rs => m ← pop r m; pop_all rs m end.

Lemma pop_all_ok rs : forall m (val : reg -> Z), NoDup rs -> RSP ∉ rs ->
  (forall k r, rs !! k = Some r -> stack m !! (regs m RSP + 8 * Z.of_nat k) = Some (val r)) ->
  exists m', pop_all rs m = Some m' /\ regs m' RSP = regs m RSP + 8 * Z.of_nat (length rs) /\
    stack m' = stack m /\ stub_counter m' = stub_counter m /\ zf m' = zf m /\
    forall r, r <> RSP -> regs m' r = if decide (r ∈ rs) then val r else regs m r.
Proof.
  induction rs as [|x rs IH]; intros m val Hnd Hn Hw; cbn [pop_all].
  { exists m. split; [done|]. split; [cbn [length]; lia|]. split; [done|]. split; [done|]. split; [done|].
    intros r _. by rewrite decide_False by apply not_elem_of_nil. }
  apply NoDup_cons in Hnd as [Hx Hnd]. apply not_elem_of_cons in Hn as [Hxs Hn].
  destruct (pop_ok x (val x) m) as (m1 & -> & Hsp & Hst & Hc & Hz & Hr); [|done|].
  { rewrite <-(Hw 0%nat x eq_refl). f_equal. lia. }
  simpl. destruct (IH m1 val Hnd Hn) as (m' & -> & Hsp' & Hst' & Hc' & Hz' & Hr').
  { intros k r Hk. rewrite Hst, Hsp, <-(Hw (S k) r Hk). f_equal. lia. }
  exists m'. split; [done|]. split; [rewrite Hsp', Hsp; cbn [length]; lia|].
  split; [congruence|]. split; [congruence|]. split; [congruence|].
  intros r Hrr. rewrite Hr', Hr by done. destruct (decide (r ∈ rs)) as [Hin|Hin].
  - by rewrite decide_True by by right.
  - destruct (decide (r = x)) as [->|Hne]; [by rewrite decide_True by left|].
    by rewrite decide_False by (apply not_elem_of_cons; done).
Qed.

Definition restored : list reg := [R8; R9; R10; R11; RCX; RDX; RSI; RDI; RAX].

Section trampoline.
Context (stub : machine -> machine) (Habi : stub_abi stub).

(** Up to the return of [stub], its value moved to [rbx]. *)
Definition after_stub (m : machine) : machine :=
  set_reg RBX (regs (stub (at_stub m)) RAX) (stub (at_stub m)).

Lemma run_to_stub m :
  trampoline stub m = run_code stub 19 stub_trampoline 13 (after_stub m).
Proof. reflexivity. Qed.

Lemma run_pops m :
  run_code stub 19 stub_trampoline 13 m =
    match pop_all restored m with Some m' => run_code stub 10 stub_trampoline 22 m' | None => None end.
Proof.
  do 9 (cbn -[pop]; match goal with |- context [pop ?r ?x] => destruct (pop r x) as [?m|]; [|reflexivity] end).
  reflexivity.
Qed.

(** The value [stub] returns in [rax]. *)
Definition stub_value (m : machine) : Z := regs (stub (at_stub m)) RAX.

Lemma at_stub_rsp m : regs (at_stub m) RSP = regs m RSP - 80.
Proof. unfold at_stub. by rewrite push_all_rsp. Qed.

(** The words on the stack when [stub] has returned. *)
Lemma after_stub_word m k r : saved !! k = Some r ->
  stack (after_stub m) !! (regs m RSP - 8 * (Z.of_nat k + 1)) = Some (regs m r).
Proof.
  intros Hk. unfold after_stub. simpl. pose proof (lookup_lt_Some _ _ _ Hk) as Hl. simpl in Hl.
  rewrite (abi_stack _ Habi) by (rewrite at_stub_rsp; lia).
  apply (push_all_word saved (set_counter (stub_counter m + 1) m) k r); [|done].
  intros H. repeat (apply elem_of_cons in H as [?|H]; [done|]). by apply not_elem_of_nil in H.
Qed.

Lemma after_stub_above m a : regs m RSP <= a -> stack (after_stub m) !! a = stack m !! a.
Proof.
  intros Ha. unfold after_stub. simpl. rewrite (abi_stack _ Habi) by (rewrite at_stub_rsp; lia).
  unfold at_stub. by rewrite push_all_above by (simpl; lia).
Qed.

Lemma after_stub_rsp m : regs (after_stub m) RSP = regs m RSP - 80.
Proof. unfold after_stub. rewrite get_set, decide_False by done. by rewrite (abi_rsp _ Habi), at_stub_rsp. Qed.

(** The nine pops give back the saved registers; the value of [stub] is in
    [rbx] and the caller's [rbx] on top of the stack. *)
Lemma pops_restore m : exists m1, pop_all restored (after_stub m) = Some m1 /\
  regs m1 RSP = regs m RSP - 8 /\ stack m1 = stack (after_stub m) /\
  stub_counter m1 = s32 (stub_counter m + 1) /\ regs m1 RBX = stub_value m /\
  forall r, r <> RSP -> r <> RBX -> regs m1 r = regs m r.
Proof.
  destruct (pop_all_ok restored (after_stub m) (regs m)) as (m1 & E & Hsp & Hst & Hc & _ & Hr).
  - repeat constructor; set_solver.
  - set_solver.
  - intros k r Hk. rewrite after_stub_rsp. pose proof (lookup_lt_Some _ _ _ Hk) as Hl. simpl in Hl.
    rewrite <-(after_stub_word m (9 - k) r); [f_equal; lia|].
    do 9 (destruct k as [|k]; [exact Hk|]). lia.
  - exists m1. split; [done|]. rewrite Hsp, after_stub_rsp. split; [simpl; lia|]. split; [done|].
    split; [|split].
    + rewrite Hc. unfold after_stub. simpl. rewrite (abi_counter _ Habi). done.
    + rewrite Hr by done. rewrite decide_False by set_solver. done.
    + intros r H1 H2. rewrite Hr by done. destruct (decide (r ∈ restored)) as [|Hn]; [done|].
      destruct Hn. destruct r; try done; unfold restored; set_solver.
Qed.
End trampoline.

Lemma counter_balanced c : - 2 ^ 31 <= c < 2 ^ 31 -> s32 (s32 (c + 1) - 1) = c.
Proof. intros Hc. wrap_lia. Qed.

(** The last instructions when [stub] returned 0. *)
Lemma run_continue stub m1 ip rbx : zf m1 = true -> stack m1 !! regs m1 RSP = Some rbx ->
  stack m1 !! (regs m1 RSP + 8) = Some ip ->
  exists m', run_code stub 8 stub_trampoline 29 m1 = Some (ip, m') /\ regs m' RSP = regs m1 RSP + 16 /\
    regs m' RBX = rbx /\ (forall r, r <> RSP -> r <> RBX -> regs m' r = regs m1 r) /\
    stack m' = stack m1 /\ stub_counter m' = s32 (stub_counter m1 - 1).
Proof.
  intros Hz Hb Hip. cbn -[pop set_reg s32].
  destruct (pop_ok RBX rbx m1 Hb) as (m2 & -> & Hsp & Hst & Hc & _ & Hr); [done|]. cbn -[set_reg s32 Z.add].
  rewrite Hst, Hsp, Hip. cbn -[set_reg s32 Z.add].
  eexists. split; [done|]. split; [|split; [|split; [|split]]].
  - rewrite get_set, decide_True by done. simpl. lia.
  - rewrite get_set, decide_False by done. simpl. rewrite Hr by done. by rewrite decide_True.
  - intros r H1 H2. rewrite get_set, decide_False by done. simpl. rewrite Hr by done. by rewrite decide_False.
  - done.
  - simpl. by rewrite Hc.
Qed.

(** And when it returned an error: the wrapper's return address is dropped. *)
Lemma run_skip stub m1 caller rbx : stack m1 !! regs m1 RSP = Some rbx ->
  stack m1 !! (regs m1 RSP + 16) = Some caller ->
  exists m', run_code stub 8 stub_trampoline 24 m1 = Some (caller, m') /\ regs m' RSP = regs m1 RSP + 24 /\
    regs m' RBX = rbx /\ regs m' RAX = regs m1 RBX /\
    (forall r, r <> RSP -> r <> RBX -> r <> RAX -> regs m' r = regs m1 r) /\
    stack m' = stack m1 /\ stub_counter m' = s32 (stub_counter m1 - 1).
Proof.
  intros Hb Hip. cbn -[pop set_reg s32 Z.add]. set (ma := set_reg RAX (regs m1 RBX) m1).
  destruct (pop_ok RBX rbx ma Hb) as (m2 & -> & Hsp & Hst & Hc & _ & Hr); [done|]. cbn -[set_reg s32 Z.add].
  set (mb := set_reg RSP (regs m2 RSP + 8) m2). cbn -[set_reg s32 Z.add].
  assert (regs mb RSP = regs m1 RSP + 16) as Hsb.
  { unfold mb. rewrite get_set, decide_True by done. rewrite Hsp. simpl. lia. }
  rewrite Hsb. unfold mb at 1. simpl stack. rewrite Hst. simpl stack. rewrite Hip. cbn -[set_reg s32 Z.add].
  eexists. split; [done|]. split; [|split; [|split; [|split; [|split]]]].
  - rewrite get_set, decide_True by done. lia.
  - rewrite get_set, decide_False by done. unfold mb. simpl. rewrite Hr by done. by rewrite decide_True.
  - rewrite get_set, decide_False by done. unfold mb. simpl. rewrite Hr by done.
    rewrite decide_False by done. unfold ma. by rewrite get_set, decide_True.
  - intros r H1 H2 H3. rewrite get_set, decide_False by done. unfold mb. simpl.
    rewrite decide_False, Hr, decide_False by done. unfold ma. by rewrite get_set, decide_False.
  - simpl. by rewrite Hst.
  - simpl. by rewrite Hc.
Qed.

(** ** Properties *)

(** Both ways out of the trampoline. *)
Lemma trampoline_ok stub m ip caller : stub_abi stub ->
  stack m !! regs m RSP = Some ip -> stack m !! (regs m RSP + 8) = Some caller ->
  - 2 ^ 31 <= stub_counter m < 2 ^ 31 ->
  exists ip' m', trampoline stub m = Some (ip', m') /\ stub_counter m' = stub_counter m /\
    (forall a, regs m RSP <= a -> stack m' !! a = stack m !! a) /\
    (stub_value stub m = 0 -> ip' = ip /\ regs m' RSP = regs m RSP + 8 /\
       forall r, r <> RSP -> regs m' r = regs m r) /\
    (stub_value stub m <> 0 -> ip' = caller /\ regs m' RSP = regs m RSP + 16 /\
       regs m' RAX = stub_value stub m /\ forall r, r <> RSP -> r <> RAX -> regs m' r = regs m r).
Proof.
  intros Habi Hip Hca Hcnt. rewrite run_to_stub, run_pops.
  destruct (pops_restore stub Habi m) as (m1 & -> & Hsp & Hst & Hc & Hbx & Hr).
  assert (stack m1 !! regs m1 RSP = Some (regs m RBX)) as Hw.
  { rewrite Hst, Hsp, <-(after_stub_word stub Habi m 0 RBX eq_refl). f_equal. }
  assert (forall a, regs m RSP <= a -> stack m1 !! a = stack m !! a) as Habove.
  { intros a Ha. rewrite Hst. by apply after_stub_above. }
  cbn -[run_code stub_trampoline]. change (run_code stub 10 stub_trampoline 22 m1) with
    (run_code stub 8 stub_trampoline (if Z.land (regs m1 RBX) (regs m1 RBX) =? 0 then 29 else 24)
       (set_zf (Z.land (regs m1 RBX) (regs m1 RBX) =? 0) m1)).
  rewrite Z.land_diag, Hbx. destruct (stub_value stub m =? 0) eqn:E; zbool.
  - destruct (run_continue stub (set_zf true m1) ip (regs m RBX)) as (m' & -> & Hs' & Hb' & Hr' & Hst' & Hc');
      [done|done|simpl; rewrite Habove by lia; rewrite <-Hip; f_equal; lia|].
    exists ip, m'. split; [done|]. split; [rewrite Hc'; simpl; rewrite Hc; by apply counter_balanced|].
    split; [intros a Ha; rewrite Hst'; by apply Habove|]. split; [|done]. intros _. split; [done|].
    split; [rewrite Hs'; simpl; lia|]. intros r Hrsp. destruct (decide (r = RBX)) as [->|]; [done|].
    rewrite Hr' by done. simpl. by apply Hr.
  - destruct (run_skip stub (set_zf false m1) caller (regs m RBX)) as (m' & -> & Hs' & Hb' & Ha' & Hr' & Hst' & Hc');
      [done|simpl; rewrite Habove by lia; rewrite <-Hca; f_equal; lia|].
    exists caller, m'. split; [done|]. split; [rewrite Hc'; simpl; rewrite Hc; by apply counter_balanced|].
    split; [intros a Ha; rewrite Hst'; by apply Habove|]. split; [done|]. intros _. split; [done|].
    split; [rewrite Hs'; simpl; lia|]. split; [by rewrite Ha'|]. intros r H1 H2.
    destruct (decide (r = RBX)) as [->|]; [done|]. rewrite Hr' by done. simpl. by apply Hr.
Qed.

(** C20: the trampoline is transparent: when [stub] returns 0 it returns into
    the wrapper right after the patched call with every register as it was and
    the stack balanced; when [stub] returns another value it returns to the
    wrapper's caller with that value in [rax] and every other register as it
    was, so the body of the syscall is skipped.  On both paths
    [sysThrot_stub_counter] is back at its value and the caller's stack is
    intact. *)
Theorem trampoline_transparent stub m ip caller : stub_abi stub ->
  stack m !! regs m RSP = Some ip -> stack m !! (regs m RSP + 8) = Some caller ->
  - 2 ^ 31 <= stub_counter m < 2 ^ 31 ->
  exists ip' m', trampoline stub m = Some (ip', m') /\ stub_counter m' = stub_counter m /\
    (forall a, regs m RSP <= a -> stack m' !! a = stack m !! a) /\
    (stub_value stub m = 0 -> ip' = ip /\ regs m' RSP = regs m RSP + 8 /\
       forall r, r <> RSP -> regs m' r = regs m r) /\
    (stub_value stub m <> 0 -> ip' = caller /\ regs m' RSP = regs m RSP + 16 /\
       regs m' RAX = stub_value stub m /\ forall r, r <> RSP -> r <> RAX -> regs m' r = regs m r).
Proof. apply trampoline_ok. Qed.

(** The error a blocked caller gets is not -EAGAIN: [stub] is declared
    [int], so a compiled [return -EAGAIN] writes [eax] and clears the upper half
    of [rax]; the trampoline passes the 64-bit register on, and the caller gets
    4294967285. *)
Theorem trampoline_error_truncated stub m ip caller : stub_abi stub ->
  stack m !! regs m RSP = Some ip -> stack m !! (regs m RSP + 8) = Some caller ->
  - 2 ^ 31 <= stub_counter m < 2 ^ 31 ->
  stub_value stub m = u32 (- EAGAIN) ->
  exists m', trampoline stub m = Some (caller, m') /\
    s64 (regs m' RAX) = 4294967285 /\ s64 (regs m' RAX) <> - EAGAIN.
Proof.
  intros Habi Hip Hca Hcnt Hv. rewrite run_to_stub, run_pops.
  destruct (pops_restore stub Habi m) as (m1 & -> & Hsp & Hst & Hc & Hbx & Hr).
  change (run_code stub 10 stub_trampoline 22 m1) with
    (run_code stub 8 stub_trampoline (if Z.land (regs m1 RBX) (regs m1 RBX) =? 0 then 29 else 24)
       (set_zf (Z.land (regs m1 RBX) (regs m1 RBX) =? 0) m1)).
  rewrite Z.land_diag, Hbx, Hv. change (u32 (- EAGAIN) =? 0) with false. cbn iota.
  destruct (run_skip stub (set_zf false m1) caller (regs m RBX)) as (m' & E & _ & _ & Ha' & _).
  - simpl. by rewrite Hst, Hsp, <-(after_stub_word stub Habi m 0 RBX eq_refl).
  - simpl. rewrite Hst, after_stub_above by (done || lia). rewrite <-Hca. f_equal. lia.
  - exists m'. rewrite E, Ha'. simpl. rewrite Hbx, Hv. done.
Qed.

(** ** A concrete machine *)

Definition demo_machine : machine :=
  Machine (fun r => match r with RSP => 4096 | RAX => 39 | RBX => 7 | _ => 1 end) false
    {[ 4096 := 1000; 4104 := 2000 ]} 0.

(** A compiled [stub] that returns [v] and clobbers the caller-saved registers. *)
Definition demo_stub (v : Z) (m : machine) : machine :=
  set_reg RCX 99 (set_reg RDI 99 (set_reg RAX v m)).

Lemma demo_stub_abi v : stub_abi (demo_stub v).
Proof. by split. Qed.

Lemma trampoline_transparent_witness :
  exists ip' m', trampoline (demo_stub 0) demo_machine = Some (ip', m') /\ ip' = 1000 /\ regs m' RDI = 1.
Proof.
  destruct (trampoline_transparent (demo_stub 0) demo_machine 1000 2000 (demo_stub_abi 0) eq_refl eq_refl)
    as (ip' & m' & E & _ & _ & H0 & _); [vm_compute; split; [discriminate|reflexivity]|].
  exists ip', m'. split; [exact E|]. destruct (H0 eq_refl) as (Hi & _ & Hr). split; [exact Hi|].
  rewrite Hr; [reflexivity|discriminate].
Defined.

Lemma trampoline_error_truncated_witness :
  exists m', trampoline (demo_stub 4294967285) demo_machine = Some (2000, m') /\
    s64 (regs m' RAX) = 4294967285 /\ s64 (regs m' RAX) <> - EAGAIN.
Proof.
  apply (trampoline_error_truncated (demo_stub 4294967285) demo_machine 1000 2000 (demo_stub_abi _)
    eq_refl eq_refl); [vm_compute; split; [discriminate|reflexivity]|reflexivity].
Defined.
