(* ===== verification/Ioctl.v ===== *)
(** * The administrative interface ([src/sysThrot_ioctl.c])

    Command numbers, the root check, the dispatch and the eight commands.  The
    caller's memory is a finite map of mapped bytes; [copy_from_user] and
    [strncpy_from_user] follow the kernel's documentation.  Turning throttling
    on and off starts a call that runs interleaved with the threads of the
    module (see [Core.v]); every other command is a function of the driver's
    state.  [None] is undefined behaviour. *)

From stdpp Require Import prelude gmap list.
From S2P Require Import Prelude Kernel Store StoreProofs StoreSpec Queue Stats Core Hook HookSpec.

(** ** Command numbers ([linux/ioctl.h], [lib/sysThrot_ioctl.h]) *)

Definition IOC (dir type nr size : Z) : Z :=
  Z.lor (Z.shiftl dir 30) (Z.lor (Z.shiftl type 8) (Z.lor nr (Z.shiftl size 16))).
Definition IO (type nr : Z) : Z := IOC 0 type nr 0.
Definition IOW (type nr size : Z) : Z := IOC 1 type nr size.

Definition sysThrot_IOC_MAGIC : Z := 45.
Definition sizeof_ptr : Z := 8.

Definition sysThrot_IOC_REGISTER_USER : Z := IOW sysThrot_IOC_MAGIC 1 sizeof_ptr.
Definition sysThrot_IOC_DEREGISTER_USER : Z := IOW sysThrot_IOC_MAGIC 2 sizeof_ptr.
Definition sysThrot_IOC_REGISTER_PROGRAM : Z := IOW sysThrot_IOC_MAGIC 3 sizeof_ptr.
Definition sysThrot_IOC_DEREGISTER_PROGRAM : Z := IOW sysThrot_IOC_MAGIC 4 sizeof_ptr.
Definition sysThrot_IOC_REGISTER_SYSCALL : Z := IOW sysThrot_IOC_MAGIC 5 sizeof_ptr.
Definition sysThrot_IOC_DEREGISTER_SYSCALL : Z := IOW sysThrot_IOC_MAGIC 6 sizeof_ptr.
Definition sysThrot_IOC_TURN_ON : Z := IO sysThrot_IOC_MAGIC 7.
Definition sysThrot_IOC_TURN_OFF : Z := IO sysThrot_IOC_MAGIC 8.

(** ** The caller's memory *)

Abbreviation umem := (gmap Z Z).

(** [copy_from_user(&v, arg, sizeof(int))]; [None]: some byte is not mapped. *)
Definition copy_int_from_user (u : umem) (a : Z) : option Z :=
  b0 ← u !! a; b1 ← u !! (a + 1); b2 ← u !! (a + 2); b3 ← u !! (a + 3);
  Some (rel32 b0 b1 b2 b3).

(** The bytes before the first NUL, at most [n]. *)
Fixpoint read_string (u : umem) (a : Z) (n : nat) : option (list Z) :=
  match n with
  | O => Some []
  | S n =>
      b ← u !! a;
      if b =? 0 then Some [] else s ← read_string u (a + 1) n; Some (b :: s)
  end.

(** The length copied (the bound when there is no NUL within it), or -EFAULT. *)
Definition strncpy_from_user (u : umem) (a : Z) (count : nat) : Z * list Z :=
  match read_string u a count with
  | Some s => (Z.of_nat (length s), s)
  | None => (- EFAULT, [])
  end.

Definition check_root_user (uid : Z) : Z := if uid =? 0 then 1 else 0.

(** ** The commands on the store *)

Section commands.
Context (u : umem).

(** [sysThrot_register_user] and [sysThrot_deregister_user] around the store's
    operation [op]: buffer, copy, operation, free. *)
Definition user_command (op : loc -> loc -> K Z) (store_p : loc) (arg : Z) : K Z :=
  p ← kmalloc OUninit;
  match p with
  | None => mret (- ENOMEM)
  | Some user_id_ptr =>
      match copy_int_from_user u arg with
      | None => kfree (Some user_id_ptr) ;; mret (- EFAULT)
      | Some v =>
          Kernel.store user_id_ptr (OInt v) ;;
          ret ← op store_p user_id_ptr;
          kfree (Some user_id_ptr) ;; mret ret
      end
  end.

Definition sysThrot_register_user := user_command add_user_to_store.
Definition sysThrot_deregister_user := user_command remove_user_from_store.

(** [sysThrot_register_program] and [sysThrot_deregister_program]; the buffer
    is an [OStr] of the bytes before the NUL. *)
Definition program_command (op : loc -> loc -> K Z) (store_p : loc) (arg : Z) : K Z :=
  p ← kmalloc OUninit;
  match p with
  | None => mret (- ENOMEM)
  | Some user_id_ptr =>
      let (res, name) := strncpy_from_user u arg Store.TASK_COMM_LEN in
      if (res <=? 0) || (Z.of_nat Store.TASK_COMM_LEN <=? res) then
        kfree (Some user_id_ptr) ;; mret (if res <=? 0 then res else - EINVAL)
      else
        Kernel.store user_id_ptr (OStr name) ;;
        res ← op store_p user_id_ptr;
        kfree (Some user_id_ptr) ;; mret res
  end.

Definition sysThrot_register_program := program_command add_program_to_store.
Definition sysThrot_deregister_program := program_command remove_program_from_store.

(** ** The commands on the hooks *)

Definition syscall_command (op : Z -> hook -> option (Z * hook)) (arg : Z) (σ : mem obj) (h : hook)
    : option (Z * mem obj * hook) :=
  '(p, σ) ← kmalloc OUninit σ;
  match p with
  | None => Some (- ENOMEM, σ, h)
  | Some syscall_id_ptr =>
      match copy_int_from_user u arg with
      | None => '(_, σ) ← kfree (Some syscall_id_ptr) σ; Some (- EFAULT, σ, h)
      | Some v =>
          '(_, σ) ← Kernel.store syscall_id_ptr (OInt v) σ;
          '(id, σ) ← load_int syscall_id_ptr σ;
          '(result, h) ← op id h;
          '(_, σ) ← kfree (Some syscall_id_ptr) σ;
          Some (result, σ, h)
      end
  end.
End commands.

(** ** The dispatch *)

Record driver := Driver {
  d_mem : mem obj;
  d_store : loc;
  d_hook : hook;
  d_core : state;
}.

(** A command returns at once, or has started a call of [Core.v]. *)
Inductive reply := Ret (r : Z) | Started.

Section ioctl.
Context (SUPPORTED_SYSCALLS stub_trampoline : Z) (syscall_symbols : Z -> option (list Z)).
Context (register_kprobe : option (list Z) -> kprobe_result).
Context (kallsyms_probe : kprobe_result) (kallsyms_lookup_name : patch_symbol -> Z).

Definition sysThrot_register_syscall (u : umem) :=
  syscall_command u (installProbe SUPPORTED_SYSCALLS stub_trampoline syscall_symbols register_kprobe
    kallsyms_probe kallsyms_lookup_name).
Definition sysThrot_deregister_syscall (u : umem) :=
  syscall_command u (removeProbe SUPPORTED_SYSCALLS syscall_symbols register_kprobe
    kallsyms_probe kallsyms_lookup_name).

Definition on_store (d : driver) (k : K Z) : option (reply * driver) :=
  '(r, σ) ← k (d_mem d); Some (Ret r, Driver σ (d_store d) (d_hook d) (d_core d)).

Definition on_hooks (d : driver) (k : mem obj -> hook -> option (Z * mem obj * hook)) : option (reply * driver) :=
  '(r, σ, h) ← k (d_mem d) (d_hook d); Some (Ret r, Driver σ (d_store d) h (d_core d)).

(** The core answers -EALREADY at once or enters its first step. *)
Definition on_core (d : driver) (o : outcome) : option (reply * driver) :=
  match o with
  | Next s =>
      Some (match ctl s with CIdle (Some r) => Ret r | _ => Started end,
            Driver (d_mem d) (d_store d) (d_hook d) s)
  | _ => None
  end.

(** [uid] is the caller's [current_uid().val]. *)
Definition sysThrot_ioctl (u : umem) (uid cmd arg : Z) (d : driver) : option (reply * driver) :=
  let guard k := if check_root_user uid =? 0 then Some (Ret (- EPERM), d) else k in
  if cmd =? sysThrot_IOC_REGISTER_USER then guard (on_store d (sysThrot_register_user u (d_store d) arg))
  else if cmd =? sysThrot_IOC_DEREGISTER_USER then guard (on_store d (sysThrot_deregister_user u (d_store d) arg))
  else if cmd =? sysThrot_IOC_REGISTER_PROGRAM then guard (on_store d (sysThrot_register_program u (d_store d) arg))
  else if cmd =? sysThrot_IOC_DEREGISTER_PROGRAM then guard (on_store d (sysThrot_deregister_program u (d_store d) arg))
  else if cmd =? sysThrot_IOC_REGISTER_SYSCALL then guard (on_hooks d (sysThrot_register_syscall u arg))
  else if cmd =? sysThrot_IOC_DEREGISTER_SYSCALL then guard (on_hooks d (sysThrot_deregister_syscall u arg))
  else if cmd =? sysThrot_IOC_TURN_ON then guard (on_core d (turn_on_enter (d_core d)))
  else if cmd =? sysThrot_IOC_TURN_OFF then guard (on_core d (turn_off_enter (d_core d)))
  else Some (Ret (- EINVAL), d).
End ioctl.

(** ** The frame around the store *)

(** A cell that is free or belongs to the frame may be allocated, written or
    freed without touching the store. *)
Lemma store_rep_frame F σ σ' sp U P p o : store_rep F σ sp U P ->
  heap σ !! p = None \/ is_Some (F !! p) ->
  heap σ' = partial_alter (fun _ => o) p (heap σ) -> mem_wf σ' ->
  store_rep (partial_alter (fun _ => o) p F) σ' sp U P.
Proof.
  intros (um & pm & mu & mq & []) Hp Hh Hwf. exists um, pm, mu, mq.
  assert (p <> sp /\ p <> um /\ p <> pm /\ (forall k, ~ has mu k p) /\ (forall k, ~ has mq k p)) as (N1 & N2 & N3 & N4 & N5).
  { destruct Hp as [Hp|[v Hv]]; [|by destruct (sr_frame _ _ Hv) as (_ & ?)].
    split_and!; try congruence; intros k Hk.
    - destruct (mo_item _ _ sr_uok k p Hk) as (x & Hx & _). congruence.
    - destruct (mo_item _ _ sr_pok k p Hk) as (x & Hx & _). congruence. }
  assert (forall l, l <> p -> heap σ' !! l = heap σ !! l) as Hne.
  { intros l Hl. by rewrite Hh, lookup_partial_alter_ne. }
  assert (forall k l, has mu k l -> heap σ' !! l = heap σ !! l) as Hu.
  { intros k l Hl. apply Hne. intros ->. by apply (N4 k). }
  assert (forall k l, has mq k l -> heap σ' !! l = heap σ !! l) as Hq.
  { intros k l Hl. apply Hne. intros ->. by apply (N5 k). }
  split; try done; rewrite ?Hne by done; try done.
  - by apply (map_ok_frame (X:=user) (heap σ)).
  - by apply (map_ok_frame (X:=program) (heap σ)).
  - intros x. by rewrite (member_frame (X:=user) (heap σ)).
  - intros x. by rewrite (member_frame (X:=program) (heap σ)).
  - intros l v. destruct (decide (p = l)) as [<-|Hd].
    + rewrite lookup_partial_alter_eq, Hh, lookup_partial_alter_eq. done.
    + rewrite lookup_partial_alter_ne by done. rewrite Hne by done. apply sr_frame.
  - intros l. destruct (decide (p = l)) as [<-|Hd].
    + rewrite lookup_partial_alter_eq, Hh, lookup_partial_alter_eq. auto.
    + rewrite lookup_partial_alter_ne by done. rewrite Hne by done. apply sr_dom.
Qed.

(** ** What the commands on the store do *)

(** The outcome of a command that takes a uid, in terms of the set operation
    [out] it stands for. *)
Definition user_outcome (out : gset user -> user -> Z -> gset user -> Prop) (u : umem) (arg : Z)
    (U : gset user) (r : Z) (U' : gset user) : Prop :=
  (r = - ENOMEM /\ U' = U) \/
  match copy_int_from_user u arg with
  | None => r = - EFAULT /\ U' = U
  | Some v => out U v r U'
  end.

(** The outcome of a command that takes a program name. *)
Definition program_outcome (out : gset program -> program -> Z -> gset program -> Prop) (u : umem) (arg : Z)
    (P : gset program) (r : Z) (P' : gset program) : Prop :=
  (r = - ENOMEM /\ P' = P) \/
  match read_string u arg Store.TASK_COMM_LEN with
  | None => r = - EFAULT /\ P' = P
  | Some [] => r = 0 /\ P' = P
  | Some name =>
      if decide (length name = Store.TASK_COMM_LEN) then r = - EINVAL /\ P' = P else out P name r P'
  end.

Section frame.
Context (F : gmap loc obj) (sp : loc).

Lemma frame_fresh σ U P : store_rep F σ sp U P -> mem_wf σ /\ heap σ !! next σ = None /\ F !! next σ = None.
Proof.
  intros (um & pm & mu & mq & []). pose proof (mem_wf_fresh σ sr_wf) as Hf. split_and!; [done|done|].
  destruct (F !! next σ) eqn:E; [|done]. destruct (sr_frame _ _ E) as [? _]. congruence.
Qed.

(** A buffer allocated next to the store, and freed again. *)
Lemma rep_alloc σ U P v o : store_rep F σ sp U P ->
  store_rep (<[next σ := v]> F) (Mem (<[next σ := v]> (heap σ)) (Pos.succ (next σ)) o) sp U P.
Proof.
  intros Hr. destruct (frame_fresh σ U P Hr) as (Hwf & Hn & _).
  eapply (store_rep_frame F σ _ sp U P (next σ) (Some v)); [done|by left|done|]. by apply mem_wf_alloc.
Qed.

Lemma rep_write σ U P p v w : store_rep (<[p := v]> F) σ sp U P ->
  wp (Kernel.store p w) (fun _ σ' => store_rep (<[p := w]> F) σ' sp U P) σ.
Proof.
  intros Hr. pose proof Hr as (um & pm & mu & mq & []).
  destruct (sr_frame p v) as [Hp _]; [apply lookup_insert_eq|].
  eapply wp_store; [done|].
  rewrite <-(insert_insert_eq F p w v). eapply (store_rep_frame _ σ); [done|right; rewrite lookup_insert_eq; eauto|done|].
  by eapply mem_wf_store.
Qed.

Lemma rep_free σ U P p v : store_rep (<[p := v]> F) σ sp U P -> F !! p = None ->
  wp (kfree (Some p)) (fun _ σ' => store_rep F σ' sp U P) σ.
Proof.
  intros Hr Hn. pose proof Hr as (um & pm & mu & mq & []).
  destruct (sr_frame p v) as [Hp _]; [apply lookup_insert_eq|].
  eapply wp_kfree; [done|]. rewrite <-(delete_insert_id F p v Hn).
  eapply (store_rep_frame _ σ); [done|right; rewrite lookup_insert_eq; eauto|done|].
  eapply mem_wf_sub; [|done]. intros l [x Hx]. apply lookup_delete_Some in Hx as [_ Hx]. eauto.
Qed.

(** The common part of the four commands: an operation that meets its
    specification for any frame, on a buffer that is freed afterwards. *)
Lemma buffered_ok {A} (op : loc -> loc -> K Z) (v : obj) (rep : A -> mem obj -> gmap loc obj -> Prop)
    (out : A -> Z -> A -> Prop) (a : A) p σ :
  (forall σ, rep a σ (<[p := v]> F) -> wp (op sp p) (fun r σ' => exists a', out a r a' /\ rep a' σ' (<[p := v]> F)) σ) ->
  (forall a' σ, rep a' σ (<[p := v]> F) -> wp (kfree (Some p)) (fun _ σ' => rep a' σ' F) σ) ->
  rep a σ (<[p := v]> F) ->
  wp (ret ← op sp p; kfree (Some p) ;; mret ret) (fun r σ' => exists a', out a r a' /\ rep a' σ' F) σ.
Proof.
  intros Hop Hfree Hr. apply wp_bind. eapply wp_mono; [by apply Hop|]. intros r σ1 (a' & Ho & Hr1).
  apply wp_bind. eapply wp_mono; [by apply Hfree|]. intros ? σ2 Hr2. apply wp_ret. eauto.
Qed.

Lemma user_command_ok u op out arg σ U P :
  (forall F σ U x id, store_rep F σ sp U P -> F !! id = Some (OInt x) ->
     wp (op sp id) (fun r σ' => exists U', out U x r U' /\ store_rep F σ' sp U' P) σ) ->
  store_rep F σ sp U P ->
  wp (user_command u op sp arg)
    (fun r σ' => exists U', user_outcome out u arg U r U' /\ store_rep F σ' sp U' P) σ.
Proof.
  intros Hop Hr. destruct (frame_fresh σ U P Hr) as (Hwf & Hn & Hfn).
  unfold user_command, user_outcome. apply wp_bind, wp_kmalloc; intros o.
  - apply wp_ret. exists U. split; [by left|].
    destruct Hr as (um & pm & mu & mq & []). exists um, pm, mu, mq. by split.
  - pose proof (rep_alloc σ U P OUninit o Hr) as Hr1.
    destruct (copy_int_from_user u arg) as [v|].
    + apply wp_bind. eapply wp_mono; [by eapply rep_write|]. intros ? σ2 Hr2.
      eapply wp_mono; [eapply (buffered_ok op (OInt v) (fun U σ F => store_rep F σ sp U P) (fun U r U' => out U v r U') U)|].
      * intros σ3 Hr3. eapply Hop; [done|apply lookup_insert_eq].
      * intros U' σ3 Hr3. by eapply rep_free.
      * done.
      * simpl. intros r σ3 (U' & Ho & Hr3). exists U'. auto.
    + apply wp_bind. eapply wp_mono; [by eapply rep_free|]. intros ? σ2 Hr2. apply wp_ret. exists U. auto.
Qed.

Lemma read_string_length u n : forall a s, read_string u a n = Some s -> (length s <= n)%nat.
Proof.
  induction n as [|n IH]; intros a s; simpl; [by intros [= <-]|].
  destruct (u !! a) as [b|]; [|done]. simpl. destruct (b =? 0); [intros [= <-]; simpl; lia|].
  destruct (read_string u (a + 1) n) as [s'|] eqn:E; [|done]. simpl. intros [= <-].
  apply IH in E. simpl. lia.
Qed.

Lemma program_command_ok u op out arg σ U P :
  (forall F σ P x id, store_rep F σ sp U P -> F !! id = Some (OStr x) ->
     wp (op sp id) (fun r σ' => exists P', out P x r P' /\ store_rep F σ' sp U P') σ) ->
  store_rep F σ sp U P ->
  wp (program_command u op sp arg)
    (fun r σ' => exists P', program_outcome out u arg P r P' /\ store_rep F σ' sp U P') σ.
Proof.
  intros Hop Hr. destruct (frame_fresh σ U P Hr) as (Hwf & Hn & Hfn).
  unfold program_command, program_outcome, strncpy_from_user. apply wp_bind, wp_kmalloc; intros o.
  - apply wp_ret. exists P. split; [by left|].
    destruct Hr as (um & pm & mu & mq & []). exists um, pm, mu, mq. by split.
  - pose proof (rep_alloc σ U P OUninit o Hr) as Hr1.
    assert (forall r, (r = - EFAULT \/ r = 0 \/ r = - EINVAL) ->
      wp (kfree (Some (next σ)) ;; mret r) (fun r' σ' => r' = r /\ store_rep F σ' sp U P)
        (Mem (<[next σ:=OUninit]> (heap σ)) (Pos.succ (next σ)) o)) as Hfail.
    { intros r _. apply wp_bind. eapply wp_mono; [by eapply rep_free|]. intros ? σ2 Hr2. by apply wp_ret. }
    destruct (read_string u arg Store.TASK_COMM_LEN) as [s|] eqn:Es.
    + pose proof (read_string_length _ _ _ _ Es) as Hl. destruct s as [|b s].
      { eapply wp_mono; [apply (Hfail 0); auto|]. intros r σ2 [-> Hr2]. exists P. auto. }
      set (name := b :: s) in *. assert (0 < length name)%nat by (simpl; lia).
      rewrite (proj2 (Z.leb_gt _ _)) by lia. rewrite orb_false_l. destruct (decide (length name = Store.TASK_COMM_LEN)) as [He|He].
      * rewrite He, Z.leb_refl. eapply wp_mono; [apply (Hfail (- EINVAL)); auto|].
        intros r σ2 [-> Hr2]. exists P. auto.
      * rewrite (proj2 (Z.leb_gt _ _)) by lia.
        apply wp_bind. eapply wp_mono; [by eapply rep_write|]. intros ? σ2 Hr2.
        eapply wp_mono; [eapply (buffered_ok op (OStr name) (fun P σ F => store_rep F σ sp U P) (fun P r P' => out P name r P') P)|].
        -- intros σ3 Hr3. eapply Hop; [done|apply lookup_insert_eq].
        -- intros P' σ3 Hr3. by eapply rep_free.
        -- done.
        -- simpl. intros r σ3 (P' & Ho & Hr3). exists P'. auto.
    + eapply wp_mono; [apply (Hfail (- EFAULT)); auto|]. intros r σ2 [-> Hr2]. exists P. auto.
Qed.
End frame.

(** The commands on the store report a lack of memory only if an allocation
    failed. *)
Lemma user_command_lucky u op sp arg :
  (forall p id, ensures (op p id) (fun r => r <> - ENOMEM)) ->
  ensures (user_command u op sp arg) (fun r => r <> - ENOMEM).
Proof.
  intros Hop. unfold user_command. ens_step. ens_some. ens_step; [|by repeat ens_step]. ens_step.
  eapply ens_bind; [apply Hop|]. intros r Hr. by repeat ens_step.
Qed.

Lemma program_command_lucky u op sp arg :
  (forall p id, ensures (op p id) (fun r => r <> - ENOMEM)) ->
  ensures (program_command u op sp arg) (fun r => r <> - ENOMEM).
Proof.
  intros Hop. unfold program_command. ens_step. ens_some.
  destruct (strncpy_from_user u arg Store.TASK_COMM_LEN) as [res name] eqn:E.
  assert (res <> - ENOMEM) as Hres.
  { unfold strncpy_from_user in E. destruct (read_string u arg Store.TASK_COMM_LEN); injection E as <- <-; [|done].
    unfold ENOMEM. lia. }
  ens_step; [ens_step; by destruct (res <=? 0); repeat ens_step|]. ens_step.
  eapply ens_bind; [apply Hop|]. intros r Hr. by repeat ens_step.
Qed.

(** The commands on hooks: the buffer is freed, and the outcome is that of the
    hooking function on the id the caller passed. *)
Lemma syscall_command_ok u op arg F sp σ U P h :
  store_rep F σ sp U P -> (forall id, is_Some (op id h)) ->
  exists r σ' h', syscall_command u op arg σ h = Some (r, σ', h') /\ store_rep F σ' sp U P /\
    ((~ lucky σ /\ h' = h /\ r = - ENOMEM) \/
     match copy_int_from_user u arg with
     | None => h' = h /\ r = - EFAULT
     | Some id => op id h = Some (r, h')
     end).
Proof.
  intros Hr Hop. destruct (frame_fresh F sp σ U P Hr) as (Hwf & Hn & Hfn).
  unfold syscall_command.
  assert (wp (kmalloc OUninit) (fun p σ1 => (p = None /\ ~ lucky σ /\ store_rep F σ1 sp U P) \/
    (exists l, p = Some l /\ F !! l = None /\ store_rep (<[l := OUninit]> F) σ1 sp U P)) σ) as Hk.
  { apply wp_kmalloc_unlucky; intros o.
    - left. split; [done|]. split; [done|]. destruct Hr as (um & pm & mu & mq & []). exists um, pm, mu, mq. by split.
    - right. exists (next σ). split; [done|]. split; [done|]. by apply rep_alloc. }
  apply wp_inv in Hk as (p & σ1 & -> & Hp). cbn [mbind option_bind].
  destruct Hp as [(-> & Hu & Hr1)|(l & -> & Hl & Hr1)].
  { eexists _, _, _. split; [done|]. split; [done|]. by left. }
  destruct (copy_int_from_user u arg) as [v|].
  - destruct (wp_inv _ _ _ (rep_write F sp σ1 U P l OUninit (OInt v) Hr1)) as (t2 & σ2 & -> & Hr2). cbn [mbind option_bind].
    assert (heap σ2 !! l = Some (OInt v)) as Hh.
    { destruct Hr2 as (? & ? & ? & ? & []). apply sr_frame, lookup_insert_eq. }
    assert (load_int l σ2 = Some (v, σ2)) as -> by (unfold load_int, mbind, M_bind, load; by rewrite Hh).
    cbn [mbind option_bind]. destruct (Hop v) as [[r h'] E]. rewrite E. cbn [mbind option_bind].
    destruct (wp_inv _ _ _ (rep_free F sp σ2 U P l (OInt v) Hr2 Hl)) as (t3 & σ3 & -> & Hr3). cbn [mbind option_bind].
    eexists _, _, _. split; [done|]. split; [done|]. by right.
  - destruct (wp_inv _ _ _ (rep_free F sp σ1 U P l OUninit Hr1 Hl)) as (t2 & σ2 & -> & Hr2). cbn [mbind option_bind].
    eexists _, _, _. split; [done|]. split; [done|]. by right.
Qed.

(** ** Properties *)

Section properties.
Context (SUP tramp : Z) (symbols : Z -> option (list Z)) (kprobe : option (list Z) -> kprobe_result).
Context (kp0 : kprobe_result) (ksym : patch_symbol -> Z).
#[local] Abbreviation ioctl := (sysThrot_ioctl SUP tramp symbols kprobe kp0 ksym).

(** C22: only root can use the interface: for any other caller every command,
    known or not, returns -EPERM or -EINVAL and leaves the driver as it was. *)
Theorem ioctl_requires_root u uid cmd arg d : ~ uid = 0 ->
  exists r, ioctl u uid cmd arg d = Some (Ret r, d) /\ (r = - EPERM \/ r = - EINVAL).
Proof.
  intros Huid. unfold sysThrot_ioctl. replace (check_root_user uid =? 0) with true
    by (unfold check_root_user; by rewrite (proj2 (Z.eqb_neq _ _) Huid)).
  repeat (destruct (cmd =? _); [eexists; split; [done|by left]|]). eexists. split; [done|by right].
Qed.

(** C21: the four registration commands, called by root, refine the set
    operations on the registered users and programs: with the id or name the
    caller passed, or -EFAULT for an unmapped argument, -EINVAL for a name of
    [TASK_COMM_LEN] bytes or more, and -ENOMEM only if an allocation fails; no temporary buffer is leaked and
    hooks and core are not touched. *)
Theorem ioctl_registrations_refine u arg F d U P : store_rep F (d_mem d) (d_store d) U P ->
  (exists r σ' U', ioctl u 0 sysThrot_IOC_REGISTER_USER arg d = Some (Ret r, Driver σ' (d_store d) (d_hook d) (d_core d)) /\
     user_outcome add_user_outcome u arg U r U' /\ (lucky (d_mem d) -> r <> - ENOMEM) /\ store_rep F σ' (d_store d) U' P) /\
  (exists r σ' U', ioctl u 0 sysThrot_IOC_DEREGISTER_USER arg d = Some (Ret r, Driver σ' (d_store d) (d_hook d) (d_core d)) /\
     user_outcome remove_outcome u arg U r U' /\ (lucky (d_mem d) -> r <> - ENOMEM) /\ store_rep F σ' (d_store d) U' P) /\
  (exists r σ' P', ioctl u 0 sysThrot_IOC_REGISTER_PROGRAM arg d = Some (Ret r, Driver σ' (d_store d) (d_hook d) (d_core d)) /\
     program_outcome add_program_outcome u arg P r P' /\ (lucky (d_mem d) -> r <> - ENOMEM) /\ store_rep F σ' (d_store d) U P') /\
  (exists r σ' P', ioctl u 0 sysThrot_IOC_DEREGISTER_PROGRAM arg d = Some (Ret r, Driver σ' (d_store d) (d_hook d) (d_core d)) /\
     program_outcome remove_outcome u arg P r P' /\ (lucky (d_mem d) -> r <> - ENOMEM) /\ store_rep F σ' (d_store d) U P').
Proof.
  intros Hr. unfold sysThrot_ioctl, on_store. simpl. split_and!.
  - pose proof (user_command_ok F (d_store d) u add_user_to_store add_user_outcome arg (d_mem d) U P) as Hw.
    destruct (wp_inv _ _ _ (Hw (fun F σ U x id => add_user_ok F (d_store d) U P x id σ) Hr)) as (r & σ' & E & U' & Ho & Hr').
    exists r, σ', U'. split; [by unfold sysThrot_register_user; rewrite E|]. split; [done|]. split; [|done].
    intros Hl. by apply (user_command_lucky _ _ _ _ add_to_store_lucky _ _ _ Hl E).
  - pose proof (user_command_ok F (d_store d) u remove_user_from_store remove_outcome arg (d_mem d) U P) as Hw.
    destruct (wp_inv _ _ _ (Hw (fun F σ U x id => remove_user_ok F (d_store d) U P x id σ) Hr)) as (r & σ' & E & U' & Ho & Hr').
    exists r, σ', U'. split; [by unfold sysThrot_deregister_user; rewrite E|]. split; [done|]. split; [|done].
    intros Hl. by apply (user_command_lucky _ _ _ _ remove_from_store_lucky _ _ _ Hl E).
  - pose proof (program_command_ok F (d_store d) u add_program_to_store add_program_outcome arg (d_mem d) U P) as Hw.
    destruct (wp_inv _ _ _ (Hw (fun F σ P x id => add_program_ok F (d_store d) U P x id σ) Hr)) as (r & σ' & E & P' & Ho & Hr').
    exists r, σ', P'. split; [by unfold sysThrot_register_program; rewrite E|]. split; [done|]. split; [|done].
    intros Hl. by apply (program_command_lucky _ _ _ _ add_to_store_lucky _ _ _ Hl E).
  - pose proof (program_command_ok F (d_store d) u remove_program_from_store remove_outcome arg (d_mem d) U P) as Hw.
    destruct (wp_inv _ _ _ (Hw (fun F σ P x id => remove_program_ok F (d_store d) U P x id σ) Hr)) as (r & σ' & E & P' & Ho & Hr').
    exists r, σ', P'. split; [by unfold sysThrot_deregister_program; rewrite E|]. split; [done|]. split; [|done].
    intros Hl. by apply (program_command_lucky _ _ _ _ remove_from_store_lucky _ _ _ Hl E).
Qed.

(** The hooking commands, called by root, hook or unhook exactly the
    syscall whose number the caller passed (-EFAULT for an unmapped argument,
    -ENOMEM only if the buffer cannot be allocated), keep the hooking invariant and the store, and leak no buffer. *)
Theorem ioctl_hooks u arg F d U P NR : store_rep F (d_mem d) (d_store d) U P ->
  platform SUP NR tramp symbols kprobe -> hook_inv SUP NR tramp symbols kprobe (d_hook d) ->
  exists r σ' h' r2 σ2 h2,
    ioctl u 0 sysThrot_IOC_REGISTER_SYSCALL arg d = Some (Ret r, Driver σ' (d_store d) h' (d_core d)) /\
    ioctl u 0 sysThrot_IOC_DEREGISTER_SYSCALL arg d = Some (Ret r2, Driver σ2 (d_store d) h2 (d_core d)) /\
    store_rep F σ' (d_store d) U P /\ store_rep F σ2 (d_store d) U P /\
    ((~ lucky (d_mem d) /\ h' = d_hook d /\ r = - ENOMEM) \/
     match copy_int_from_user u arg with
     | None => h' = d_hook d /\ r = - EFAULT
     | Some id => installProbe SUP tramp symbols kprobe kp0 ksym id (d_hook d) = Some (r, h')
     end) /\
    ((~ lucky (d_mem d) /\ h2 = d_hook d /\ r2 = - ENOMEM) \/
     match copy_int_from_user u arg with
     | None => h2 = d_hook d /\ r2 = - EFAULT
     | Some id => removeProbe SUP symbols kprobe kp0 ksym id (d_hook d) = Some (r2, h2)
     end).
Proof.
  intros Hr Hpf Hi.
  destruct (syscall_command_ok u (installProbe SUP tramp symbols kprobe kp0 ksym) arg F (d_store d) (d_mem d) U P (d_hook d) Hr)
    as (r & σ' & h' & E & Hr' & Ho).
  { intros id. destruct (installProbe_total SUP NR tramp symbols kprobe kp0 ksym Hpf id (d_hook d) Hi) as (? & ? & -> & _). eauto. }
  destruct (syscall_command_ok u (removeProbe SUP symbols kprobe kp0 ksym) arg F (d_store d) (d_mem d) U P (d_hook d) Hr)
    as (r2 & σ2 & h2 & E2 & Hr2 & Ho2).
  { intros id. destruct (removeProbe_total SUP NR tramp symbols kprobe kp0 ksym Hpf id (d_hook d) Hi) as (? & ? & -> & _). eauto. }
  exists r, σ', h', r2, σ2, h2.
  split; [|split; [|done]]; unfold sysThrot_ioctl, on_hooks; simpl;
    unfold sysThrot_register_syscall, sysThrot_deregister_syscall; rewrite ?E, ?E2; done.
Qed.

(** An empty program name is accepted: when the buffer can be allocated,
    registering it as root returns 0 (success), and no name is registered. *)
Theorem ioctl_empty_name u arg F d U P : store_rep F (d_mem d) (d_store d) U P ->
  u !! arg = Some 0 -> oracle (d_mem d) = [] ->
  exists σ', ioctl u 0 sysThrot_IOC_REGISTER_PROGRAM arg d =
      Some (Ret 0, Driver σ' (d_store d) (d_hook d) (d_core d)) /\
    store_rep F σ' (d_store d) U P.
Proof.
  intros Hr Hu Ho. destruct (frame_fresh F (d_store d) (d_mem d) U P Hr) as (Hwf & Hn & Hfn).
  pose proof (rep_alloc F (d_store d) (d_mem d) U P OUninit [] Hr) as Hr1.
  destruct (wp_inv _ _ _ (rep_free F (d_store d) _ U P (next (d_mem d)) OUninit Hr1 Hfn)) as (t & σ' & E & Hr').
  exists σ'. split; [|done]. unfold sysThrot_ioctl, on_store. simpl.
  assert (sysThrot_register_program u (d_store d) arg (d_mem d) = Some (0, σ')) as ->; [|done].
  assert (kmalloc OUninit (d_mem d) =
    Some (Some (next (d_mem d)), Mem (<[next (d_mem d):=OUninit]> (heap (d_mem d))) (Pos.succ (next (d_mem d))) [])) as Ek.
  { unfold kmalloc. by rewrite Ho. }
  unfold sysThrot_register_program, program_command, strncpy_from_user.
  replace (read_string u arg Store.TASK_COMM_LEN) with (Some ([] : list Z)) by (simpl; by rewrite Hu).
  unfold mbind at 1, M_bind at 1. rewrite Ek. cbn [length].
  change ((Z.of_nat 0 <=? 0) || (Z.of_nat Store.TASK_COMM_LEN <=? Z.of_nat 0)) with true. cbn iota.
  unfold mbind, M_bind. by rewrite E.
Qed.

(** [TURN_ON] while throttling is on and [TURN_OFF] while it is off return
    -EALREADY and change nothing; otherwise the call starts. *)
Theorem ioctl_on_off u arg d r : ctl (d_core d) = CIdle r ->
  (exists d1, ioctl u 0 sysThrot_IOC_TURN_ON arg d =
     Some (if working (d_core d) then Ret (- EALREADY) else Started, d1) /\
     d_core d1 = set_ctl (if working (d_core d) then CIdle (Some (- EALREADY)) else COnInit) (d_core d)) /\
  (exists d2, ioctl u 0 sysThrot_IOC_TURN_OFF arg d =
     Some (if working (d_core d) then Started else Ret (- EALREADY), d2) /\
     d_core d2 = set_ctl (if working (d_core d) then COffWorking else CIdle (Some (- EALREADY))) (d_core d)).
Proof.
  intros Hc. unfold sysThrot_ioctl, on_core, turn_on_enter, turn_off_enter. simpl. rewrite Hc.
  destruct (working (d_core d)); split; eexists; done.
Qed.
End properties.

(** ** Witnesses: root on the driver of the demonstration store and platform *)

Definition demo_driver : driver := Driver demo_store 3 demo_hooked (init_state 5 (Registry ∅ ∅) []).
(** The int 1000 at address 64, an empty string at 128. *)
Definition demo_umem : umem := {[ 64 := 232; 65 := 3; 66 := 0; 67 := 0; 128 := 0 ]}.
#[local] Abbreviation demo_ioctl := (sysThrot_ioctl 462 demo_tramp demo_symbols demo_kprobe (KpAddr 1) demo_ksym).

Lemma ioctl_requires_root_witness : exists r,
  demo_ioctl demo_umem 1000 sysThrot_IOC_TURN_OFF 0 demo_driver = Some (Ret r, demo_driver) /\
  (r = - EPERM \/ r = - EINVAL).
Proof.
  apply (ioctl_requires_root 462 demo_tramp demo_symbols demo_kprobe (KpAddr 1) demo_ksym). discriminate.
Defined.

Lemma ioctl_registrations_refine_witness : exists r σ' U',
  demo_ioctl demo_umem 0 sysThrot_IOC_REGISTER_USER 64 demo_driver =
    Some (Ret r, Driver σ' 3 demo_hooked (init_state 5 (Registry ∅ ∅) [])) /\
  user_outcome add_user_outcome demo_umem 64 ∅ r U' /\ (lucky demo_store -> r <> - ENOMEM) /\ store_rep demo_frame σ' 3 U' ∅.
Proof.
  exact (proj1 (ioctl_registrations_refine 462 demo_tramp demo_symbols demo_kprobe (KpAddr 1) demo_ksym
    demo_umem 64 demo_frame demo_driver ∅ ∅ demo_store_rep)).
Defined.

Lemma ioctl_hooks_witness : exists r σ' h' r2 σ2 h2,
  demo_ioctl demo_umem 0 sysThrot_IOC_REGISTER_SYSCALL 64 demo_driver =
    Some (Ret r, Driver σ' 3 h' (init_state 5 (Registry ∅ ∅) [])) /\
  demo_ioctl demo_umem 0 sysThrot_IOC_DEREGISTER_SYSCALL 64 demo_driver =
    Some (Ret r2, Driver σ2 3 h2 (init_state 5 (Registry ∅ ∅) [])).
Proof.
  destruct (ioctl_hooks 462 demo_tramp demo_symbols demo_kprobe (KpAddr 1) demo_ksym demo_umem 64
    demo_frame demo_driver ∅ ∅ 462 demo_store_rep demo_platform demo_hooked_inv)
    as (r & σ' & h' & r2 & σ2 & h2 & E & E2 & _).
  exists r, σ', h', r2, σ2, h2. split; [exact E|exact E2].
Defined.

Lemma ioctl_empty_name_witness : exists σ',
  demo_ioctl demo_umem 0 sysThrot_IOC_REGISTER_PROGRAM 128 demo_driver =
    Some (Ret 0, Driver σ' 3 demo_hooked (init_state 5 (Registry ∅ ∅) [])) /\
  store_rep demo_frame σ' 3 ∅ ∅.
Proof.
  exact (ioctl_empty_name 462 demo_tramp demo_symbols demo_kprobe (KpAddr 1) demo_ksym demo_umem 128
    demo_frame demo_driver ∅ ∅ demo_store_rep eq_refl eq_refl).
Defined.

Lemma ioctl_on_off_witness : exists d2,
  demo_ioctl demo_umem 0 sysThrot_IOC_TURN_OFF 0 demo_driver = Some (Ret (- EALREADY), d2).
Proof.
  destruct (ioctl_on_off 462 demo_tramp demo_symbols demo_kprobe (KpAddr 1) demo_ksym demo_umem 0 demo_driver None
    eq_refl) as [_ (d2 & E & _)].
  exists d2. exact E.
Defined.
