(* ===== verification/Device.v ===== *)
(** * The character device ([src/sysThrot.c])

    Opening and closing the device under every interleaving of processes,
    reading the module's status, and registering the device with the kernel.
    The generated table of symbols is a parameter. *)

From Stdlib Require Import String Ascii.
From stdpp Require Import prelude gmap list.
From S2P Require Import Prelude Kernel Store StoreProofs StoreSpec Queue Stats Core Hook HookSpec Ioctl.

(** ** [sysThrot_open] and [sysThrot_release]

    [atomic_dec_and_test] and the [atomic_inc] of the failing path are two
    steps, so that other processes may run in between. *)

Inductive open_pc :=
| FClosed (r : option Z)                (* no descriptor; what the last call returned *)
| FFailing                              (* decremented, about to undo it *)
| FOpen.                                (* holds the device *)

Record device := Device { dev_available : Z; procs : list open_pc }.

Inductive dev_label := DStep (i : nat) | DClose (i : nat).

(** The next step of process [i]: of its [open] call, or its [release]. *)
Definition dev_step (l : dev_label) (d : device) : option device :=
  match l with
  | DStep i =>
      match procs d !! i with
      | Some (FClosed _) =>
          let v := s32 (dev_available d - 1) in
          Some (Device v (<[i := if v =? 0 then FOpen else FFailing]> (procs d)))
      | Some FFailing =>
          Some (Device (s32 (dev_available d + 1)) (<[i := FClosed (Some (- EBUSY))]> (procs d)))
      | _ => None
      end
  | DClose i =>
      match procs d !! i with
      | Some FOpen => Some (Device (s32 (dev_available d + 1)) (<[i := FClosed (Some 0)]> (procs d)))
      | _ => None
      end
  end.

Definition device0 (n : nat) : device := Device 1 (replicate n (FClosed None)).

(** A run of labels that must all be enabled. *)
Fixpoint dev_run (ls : list dev_label) (d : device) : option device :=
  match ls with [] => Some d | l :: ls => d ← dev_step l d; dev_run ls d end.

Definition weight (p : open_pc) : Z := match p with FClosed _ => 0 | _ => 1 end.
Definition opened (p : open_pc) : Z := match p with FOpen => 1 | _ => 0 end.
Definition total (f : open_pc -> Z) (l : list open_pc) : Z := sum_z (f <$> l).

Lemma total_insert f l i p q : l !! i = Some p -> total f (<[i := q]> l) = total f l - f p + f q.
Proof.
  unfold total. revert i. induction l as [|x l IH]; intros [|i] Hi; simplify_eq/=; rewrite !sum_z_cons.
  - lia.
  - rewrite (IH i Hi). lia.
Qed.

Lemma total_range f l : (forall p, 0 <= f p <= 1) -> 0 <= total f l <= Z.of_nat (length l).
Proof.
  intros Hf. unfold total. induction l as [|x l IH]; [done|].
  rewrite fmap_cons, sum_z_cons. cbn [length]. specialize (Hf x). lia.
Qed.

Lemma opened_01 p : 0 <= opened p <= 1.
Proof. destruct p; simpl; lia. Qed.

Lemma weight_01 p : 0 <= weight p <= 1.
Proof. destruct p; simpl; lia. Qed.

Lemma opened_le l : total opened l <= total weight l.
Proof.
  unfold total. induction l as [|x l IH]; [done|]. rewrite !fmap_cons, !sum_z_cons.
  assert (opened x <= weight x) by (destruct x; simpl; lia). lia.
Qed.

(** [dev_available] is 1 minus the processes that hold the device or are about
    to undo a failed attempt; at most one holds it. *)
Record dev_inv (d : device) : Prop := {
  dv_small : Z.of_nat (length (procs d)) < 2 ^ 31 - 1;
  dv_count : dev_available d = 1 - total weight (procs d);
  dv_one : total opened (procs d) <= 1;
}.

Lemma dev_inv_step l d d' : dev_inv d -> dev_step l d = Some d' -> dev_inv d'.
Proof.
  intros [Hs Hc Ho].
  assert (forall i p q, procs d !! i = Some p -> 0 <= total weight (<[i := q]> (procs d)) < 2 ^ 31 - 1) as Hr.
  { intros i p q Hi. pose proof (total_range weight (<[i := q]> (procs d)) weight_01) as H.
    rewrite length_insert in H. lia. }
  pose proof (opened_le (procs d)) as Hle. pose proof (total_range opened (procs d) opened_01).
  destruct l as [i|i]; simpl; destruct (procs d !! i) as [[r| |]|] eqn:Hi; try done.
  - pose proof (total_insert weight _ _ _ (if s32 (dev_available d - 1) =? 0 then FOpen else FFailing) Hi) as Hti.
    pose proof (Hr i _ (if s32 (dev_available d - 1) =? 0 then FOpen else FFailing) Hi) as Hrr.
    assert (weight (if s32 (dev_available d - 1) =? 0 then FOpen else FFailing) = 1) as Hw1 by by destruct (_ =? 0).
    rewrite Hw1 in Hti. simpl in Hti.
    assert (s32 (dev_available d - 1) = dev_available d - 1) as Hv by (apply s32_id; lia).
    intros [= <-]. split; simpl; [by rewrite length_insert|lia|].
    rewrite (total_insert opened _ _ _ _ Hi), Hv. destruct (dev_available d - 1 =? 0) eqn:E; zbool; cbn [opened]; lia.
  - pose proof (total_insert weight _ _ _ (FClosed (Some (- EBUSY))) Hi) as Hti. simpl in Hti.
    pose proof (Hr i _ (FClosed (Some (- EBUSY))) Hi) as Hrr.
    intros [= <-]. split; simpl; [by rewrite length_insert| |].
    + rewrite s32_id; lia.
    + rewrite (total_insert opened _ _ _ _ Hi). cbn [opened]. lia.
  - pose proof (total_insert weight _ _ _ (FClosed (Some 0)) Hi) as Hti. simpl in Hti.
    pose proof (Hr i _ (FClosed (Some 0)) Hi) as Hrr.
    intros [= <-]. split; simpl; [by rewrite length_insert| |].
    + rewrite s32_id; lia.
    + rewrite (total_insert opened _ _ _ _ Hi). cbn [opened]. lia.
Qed.

Lemma dev_inv0 n : Z.of_nat n < 2 ^ 31 - 1 -> dev_inv (device0 n).
Proof.
  intros Hn. assert (forall f, f (FClosed None) = 0 -> total f (replicate n (FClosed None)) = 0) as Hz.
  { intros f Hf. unfold total. induction n as [|k IH]; [done|]. cbn [replicate].
    rewrite fmap_cons, sum_z_cons, IH by lia. lia. }
  split; simpl; [by rewrite length_replicate|by rewrite Hz|by rewrite Hz].
Qed.

Lemma dev_run_inv ls : forall d d', dev_inv d -> dev_run ls d = Some d' -> dev_inv d'.
Proof.
  induction ls as [|l ls IH]; intros d d' Hd; simpl; [by intros [= <-]|].
  destruct (dev_step l d) as [d1|] eqn:E; [|done]. simpl. intros Hr. eapply IH; [|done]. by eapply dev_inv_step.
Qed.

(** Two holders would count twice. *)
Lemma total_two l i j : l !! i = Some FOpen -> l !! j = Some FOpen -> i <> j -> 2 <= total opened l.
Proof.
  intros Hi Hj Hne. pose proof (total_insert opened l i FOpen (FClosed None) Hi) as H1. simpl in H1.
  assert (<[i := FClosed None]> l !! j = Some FOpen) as Hj' by by rewrite list_lookup_insert_ne.
  pose proof (total_insert opened _ j FOpen (FClosed None) Hj') as H2. simpl in H2.
  pose proof (total_range opened (<[j := FClosed None]> (<[i := FClosed None]> l)) opened_01). lia.
Qed.

(** ** Text *)

Definition str (s : string) : list Z := (fun c => Z.of_N (N_of_ascii c)) <$> list_ascii_of_string s.

(** Decimal digits, most significant first; [fuel] bounds their number. *)
Fixpoint digits (fuel : nat) (n : Z) (acc : list Z) : list Z :=
  match fuel with
  | O => acc
  | S fuel => if n <? 10 then (48 + n) :: acc else digits fuel (n / 10) ((48 + n mod 10) :: acc)
  end.

(** [%d] of an [int]: at most ten digits. *)
Definition print_int (z : Z) : list Z :=
  if z <? 0 then 45 :: digits 10 (- z) [] else digits 10 z [].

(** [scnprintf(buf + len, buf_size - len, ...)] of the text [s] on a buffer of
    [length buf] bytes: writes what fits and a NUL, returns how much. *)
Definition scnprintf (len : nat) (s : list Z) (buf : list Z) : list Z * nat :=
  let size := (length buf - len)%nat in
  if decide (size = 0%nat) then (buf, 0%nat)
  else
    let n := Nat.min (length s) (size - 1) in
    (take len buf ++ take n s ++ [0] ++ drop (len + n + 1) buf, n).

(** [len += scnprintf(buf + len, buf_size - len, ...)] *)
Definition emit (st : list Z * nat) (s : list Z) : list Z * nat :=
  let '(buf, len) := st in
  let '(buf, n) := scnprintf len s buf in (buf, (len + n)%nat).

Definition buf_size : nat := Z.to_nat (4096 * 4).

(** ** [sysThrot_read] *)

Section read.
Context (SUPPORTED_SYSCALLS : Z) (syscall_symbols : Z -> option (list Z)).

Definition title_line : list Z := str "=== Syscall Throttling Module Status ===" ++ [10].
Definition working_line (working : bool) : list Z :=
  str "Throttling is " ++ str (if working then "ON" else "OFF") ++ [10].
Definition max_line (m : Z) : list Z := str "Max syscalls per epoch: " ++ print_int m ++ [10].
Definition users_line (n : nat) : list Z :=
  str "=== Registered Users (" ++ print_int (Z.of_nat n) ++ str ") ===" ++ [10].
Definition user_line (uid : Z) : list Z := str "  UID: " ++ print_int uid ++ [10].
Definition programs_line (n : nat) : list Z :=
  [10] ++ str "=== Registered Programs (" ++ print_int (Z.of_nat n) ++ str ") ===" ++ [10].
Definition program_line (name : list Z) : list Z := str "  " ++ name ++ [10].
Definition syscalls_line : list Z := [10] ++ str "=== Monitored Syscalls ===" ++ [10].
Definition syscall_line (i : Z) (name : list Z) : list Z :=
  str "  [" ++ print_int i ++ str "] " ++ name ++ [10].

(** The loop over the table: a line for every marked syscall that has a symbol;
    [None] is a reading outside the bitmap. *)
Fixpoint hooked_lines (bitmap : list Z) (ids : list Z) : option (list (list Z)) :=
  match ids with
  | [] => Some []
  | i :: ids =>
      b ← test_bit bitmap i;
      ls ← hooked_lines bitmap ids;
      Some (match syscall_symbols i with
            | Some name => if negb (b =? 0) then syscall_line i name :: ls else ls
            | None => ls
            end)
  end.

(** The buffer the code fills; the first [scnprintf] does not advance [len]. *)
Definition fill (working : bool) (max_syscalls : Z) (users : list Z) (programs : list (list Z))
    (bitmap : list Z) (buf : list Z) : option (list Z * nat) :=
  let '(buf, _) := scnprintf 0 title_line buf in
  let st := emit (buf, 0%nat) (working_line working) in
  let st := emit st (max_line max_syscalls) in
  let st := emit st (users_line (length users)) in
  let st := foldl emit st (user_line <$> users) in
  let st := emit st (programs_line (length programs)) in
  let st := foldl emit st (program_line <$> programs) in
  let st := emit st syscalls_line in
  ls ← hooked_lines bitmap (seqZ 0 SUPPORTED_SYSCALLS);
  Some (foldl emit st ls).

(** [simple_read_from_buffer]: the bytes delivered, the result, the new position. *)
Definition simple_read_from_buffer (from : list Z) (count ppos : Z) : list Z * Z * Z :=
  let available := Z.of_nat (length from) in
  if ppos <? 0 then ([], - EINVAL, ppos)
  else if (available <=? ppos) || (count =? 0) then ([], 0, ppos)
  else
    let n := Z.min count (available - ppos) in
    (take (Z.to_nat n) (drop (Z.to_nat ppos) from), n, ppos + n).

(** The 64 buffers for names, up to the first that cannot be allocated. *)
Fixpoint alloc_programs (n : nat) : K (list ptr * bool) :=
  match n with
  | O => mret ([], true)
  | S n =>
      p ← kmalloc OUninit;
      match p with
      | None => mret (replicate (S n) None, false)
      | Some _ => '(ps, done) ← alloc_programs n; mret (p :: ps, done)
      end
  end.

Definition free_all (ps : list ptr) : K unit := for_each ps kfree.

(** Delivered bytes, result and new file position. *)
Definition sysThrot_read (uid : Z) (working : bool) (max_syscalls : Z) (store_p : loc) (bitmap : list Z)
    (buf0 : list Z) (count ppos : Z) : K (list Z * Z * Z) :=
  if negb (uid =? 0) then mret ([], - EPERM, ppos)
  else
    buf ← kmalloc OUninit;
    match buf with
    | None => mret ([], - ENOMEM, ppos)
    | Some _ =>
        users ← kmalloc OUninit;
        match users with
        | None => free_all [users; buf] ;; mret ([], - ENOMEM, ppos)
        | Some _ =>
            programs ← kmalloc OUninit;
            match programs with
            | None => free_all [users; buf] ;; mret ([], - ENOMEM, ppos)
            | Some _ =>
                '(ps, allocated) ← alloc_programs MAX_STORE_PROGRAMS;
                if negb (allocated : bool) then free_all (ps ++ [programs; users; buf]) ;; mret ([], - ENOMEM, ppos)
                else
                  '(us, num_users) ← get_all_users_from_store store_p (replicate MAX_STORE_USERS 0);
                  '(names, num_programs) ← get_all_programs_from_store store_p (replicate MAX_STORE_PROGRAMS []);
                  match fill working max_syscalls (take num_users us) (take num_programs names) bitmap buf0 with
                  | None => fun _ => None
                  | Some (text, len) =>
                      let res := simple_read_from_buffer (take len text) count ppos in
                      free_all (ps ++ [programs; users; buf]) ;; mret res
                  end
            end
        end
    end.

(** ** What the buffer holds *)

(** The lines of the hooked syscalls that have a symbol. *)
Definition monitored_lines (bitmap : list Z) : list (list Z) :=
  omap (fun i => name ← syscall_symbols i; if hooked bitmap i then Some (syscall_line i name) else None) (seqZ 0 SUPPORTED_SYSCALLS).

(** The bitmap has a bit for every syscall of the table. *)
Definition covers (bitmap : list Z) : Prop := SUPPORTED_SYSCALLS <= 8 * Z.of_nat (length bitmap).

Lemma hooked_lines_ok bm : covers bm -> hooked_lines bm (seqZ 0 SUPPORTED_SYSCALLS) = Some (monitored_lines bm).
Proof.
  unfold covers, monitored_lines. intros Hc.
  assert (Forall (fun i => 0 <= i < 8 * Z.of_nat (length bm)) (seqZ 0 SUPPORTED_SYSCALLS)) as H.
  { apply Forall_forall. intros i Hi%elem_of_seqZ. lia. }
  induction H as [|i ids Hi _ IH]; [done|]. cbn [hooked_lines omap list_omap].
  destruct (lookup_lt_is_Some_2 bm (Z.to_nat (i / 8))) as [b Hb]; [Z.div_mod_to_equations; lia|].
  destruct (test_bit_hooked bm i b (proj1 Hi) Hb) as (x & -> & Hx). cbn [mbind option_bind]. rewrite IH, Hx, negb_involutive.
  destruct (syscall_symbols i); [|done]. cbn [mbind option_bind]. by destruct (hooked bm i).
Qed.

(** The text without its title. *)
Definition status_text (working : bool) (max_syscalls : Z) (users : list Z) (programs : list (list Z))
    (bitmap : list Z) : list Z :=
  working_line working ++ max_line max_syscalls ++ users_line (length users) ++
  concat (user_line <$> users) ++ programs_line (length programs) ++
  concat (program_line <$> programs) ++ syscalls_line ++
  concat (monitored_lines bitmap).

(** The buffer holds the first [size - 1] bytes of [t]. *)
Definition holds_text (size : nat) (t : list Z) (st : list Z * nat) : Prop :=
  length st.1 = size /\ (st.2 < size)%nat /\ take st.2 st.1 = take (size - 1) t.

Lemma length_scnprintf len s buf : (len <= length buf)%nat -> length (scnprintf len s buf).1 = length buf.
Proof.
  intros Hl. unfold scnprintf. case_decide; [done|]. cbn [fst].
  rewrite !length_app, !length_take, length_drop. cbn [length]. lia.
Qed.

Lemma emit_holds size t st s : holds_text size t st -> holds_text size (t ++ s) (emit st s).
Proof.
  destruct st as [buf len]. unfold holds_text, emit, scnprintf. cbn [fst snd]. intros (Hl & Hlt & Ht).
  assert (length (take len buf) = len) as Htl by (rewrite length_take; lia).
  assert (Nat.min (size - 1) (length t) = len) as Hmin by (rewrite <-(length_take t), <-Ht; done).
  rewrite Hl. rewrite decide_False by lia. set (n := Nat.min (length s) (size - len - 1)). cbn [fst snd].
  split; [|split].
  - rewrite !length_app, length_take, length_take, length_drop. simpl. lia.
  - lia.
  - rewrite take_app, Htl, take_take. replace (Nat.min (len + n) len) with len by lia.
    replace (len + n - len)%nat with n by lia. rewrite take_app_le by (rewrite length_take; lia).
    rewrite take_take, Ht, Nat.min_id. rewrite (take_app t s). f_equal.
    destruct (decide (length t <= size - 1)%nat).
    + destruct (decide (length s <= size - len - 1)%nat); [rewrite !take_ge by lia; done|f_equal; lia].
    + assert (n = 0%nat) as -> by lia. by replace (size - 1 - length t)%nat with 0%nat by lia.
Qed.

Lemma emits_hold size ss : forall t st, holds_text size t st ->
  holds_text size (t ++ concat ss) (foldl emit st ss).
Proof.
  induction ss as [|s ss IH]; intros t st Hst; simpl; [by rewrite app_nil_r|].
  rewrite app_assoc. by apply IH, emit_holds.
Qed.

Lemma fill_holds w m us ps bm buf : covers bm -> (0 < length buf)%nat ->
  exists st, fill w m us ps bm buf = Some st /\ holds_text (length buf) (status_text w m us ps bm) st.
Proof.
  intros Hcv Hb. unfold fill, status_text.
  destruct (scnprintf 0 title_line buf) as [buf1 n] eqn:E.
  assert (length buf1 = length buf) as Hl.
  { pose proof (length_scnprintf 0 title_line buf ltac:(lia)) as H. by rewrite E in H. }
  assert (holds_text (length buf) [] (buf1, 0%nat)) as H0.
  { split; [done|]. split; [simpl; lia|]. by rewrite take_nil. }
  rewrite (hooked_lines_ok bm Hcv). eexists. split; [reflexivity|].
  rewrite <-(app_nil_l (working_line w ++ _)), !app_assoc.
  repeat first [apply emits_hold | apply emit_holds]. done.
Qed.

(** ** The temporary buffers *)

(** A frame with uninitialised buffers at [ps]. *)
Definition extra (ps : list loc) (F : gmap loc obj) : gmap loc obj :=
  foldr (fun p F => <[p := OUninit]> F) F ps.

Lemma extra_app ps qs F : extra (ps ++ qs) F = extra ps (extra qs F).
Proof. apply foldr_app. Qed.

Lemma extra_fresh ps F p : p ∉ ps -> extra ps F !! p = F !! p.
Proof.
  induction ps as [|q ps IH]; intros Hp; [done|]. apply not_elem_of_cons in Hp as [? ?]. cbn [extra foldr].
  rewrite lookup_insert_ne by done. by apply IH.
Qed.

Lemma extra_insert ps F p : p ∉ ps -> extra ps (<[p := OUninit]> F) = <[p := OUninit]> (extra ps F).
Proof.
  induction ps as [|q ps IH]; intros Hp; [done|]. apply not_elem_of_cons in Hp as [? ?]. cbn [extra foldr].
  fold (extra ps (<[p:=OUninit]> F)) (extra ps F). rewrite IH by done. by apply insert_insert_ne.
Qed.

Definition live_ptrs (ps : list ptr) : list loc := omap id ps.

(** Distinct buffers that are not part of [F]. *)
Definition fresh_in (F : gmap loc obj) (ps : list loc) : Prop := NoDup ps /\ Forall (fun p => F !! p = None) ps.

Section buffers.
Context (sp : loc) (U : gset user) (P : gset program).

Lemma rep_oracle F σ o : store_rep F σ sp U P -> store_rep F (Mem (heap σ) (next σ) o) sp U P.
Proof. intros (um & pm & mu & mq & []). exists um, pm, mu, mq. by split. Qed.

(** Allocating one buffer. *)
Lemma rep_kmalloc F σ : store_rep F σ sp U P ->
  wp (kmalloc OUninit) (fun p σ' =>
    match p with
    | None => store_rep F σ' sp U P
    | Some l => F !! l = None /\ store_rep (<[l := OUninit]> F) σ' sp U P
    end) σ.
Proof.
  intros Hr. destruct (frame_fresh F sp σ U P Hr) as (_ & _ & Hn).
  apply wp_kmalloc; intros o; [by apply rep_oracle|]. split; [done|]. by apply rep_alloc.
Qed.

Lemma live_nones n : live_ptrs (replicate n None) = [].
Proof. by induction n. Qed.

Lemma alloc_programs_ok n : forall F σ, store_rep F σ sp U P ->
  wp (alloc_programs n) (fun r σ' =>
    fresh_in F (live_ptrs r.1) /\ store_rep (extra (live_ptrs r.1) F) σ' sp U P) σ.
Proof.
  induction n as [|n IH]; intros F σ Hr; cbn [alloc_programs].
  { apply wp_ret. split; [split; constructor|done]. }
  apply wp_bind. eapply wp_mono; [by apply rep_kmalloc|]. intros [p|] σ1; cbn beta iota.
  - intros [Hn Hr1]. apply wp_bind. eapply wp_mono; [by apply IH|].
    intros [ps ok] σ2 ([Hnd Hf] & Hr2). cbn [fst snd] in *. apply wp_ret. cbn [fst snd].
    assert (p ∉ live_ptrs ps) as Hp.
    { intros Hin. pose proof (proj1 (Forall_forall _ _) Hf p Hin) as H. simpl in H.
      by rewrite lookup_insert_eq in H. }
    change (live_ptrs (Some p :: ps)) with (p :: live_ptrs ps). split; [split|].
    + by apply NoDup_cons.
    + constructor; [done|]. eapply Forall_impl; [exact Hf|]. intros q Hq. simpl in Hq.
      apply lookup_insert_None in Hq as [? _]. done.
    + change (extra (p :: live_ptrs ps) F) with (<[p := OUninit]> (extra (live_ptrs ps) F)).
      by rewrite <-extra_insert by done.
  - intros Hr1. apply wp_ret. cbn [fst]. rewrite live_nones. split; [split; constructor|done].
Qed.

Lemma free_all_ok ps : forall F σ, fresh_in F (live_ptrs ps) ->
  store_rep (extra (live_ptrs ps) F) σ sp U P ->
  wp (free_all ps) (fun _ σ' => store_rep F σ' sp U P) σ.
Proof.
  induction ps as [|[p|] ps IH]; intros F σ [Hnd Hf] Hr; unfold free_all; cbn [for_each].
  - by apply wp_ret.
  - change (live_ptrs (Some p :: ps)) with (p :: live_ptrs ps) in *.
    apply NoDup_cons in Hnd as [Hp Hnd]. apply Forall_cons in Hf as [Hpf Hf].
    apply wp_bind. eapply wp_mono.
    + apply (rep_free (extra (live_ptrs ps) F) sp σ U P p OUninit); [exact Hr|]. by rewrite extra_fresh.
    + intros ? σ1 Hr1. by apply IH.
  - apply wp_bind, wp_ret. by apply IH.
Qed.
End buffers.

(** The result of a read, for a caller [uid] and the registered sets. *)
Definition read_outcome (uid : Z) (w : bool) (m : Z) (bm : list Z) (U : gset user) (P : gset program)
    (count ppos : Z) (res : list Z * Z * Z) : Prop :=
  (uid <> 0 /\ res = ([], - EPERM, ppos)) \/
  (uid = 0 /\ res = ([], - ENOMEM, ppos)) \/
  (uid = 0 /\ exists us names, us ≡ₚ elements U /\ NoDup names /\ (forall x, x ∈ names -> x ∈ P) /\
     length names = Nat.min MAX_STORE_PROGRAMS (size P) /\
     res = simple_read_from_buffer (take (buf_size - 1) (status_text w m us (comm_of <$> names) bm)) count ppos).

Lemma read_body_ok F σ sp U P ps w m bm buf0 count ppos :
  fresh_in F (live_ptrs ps) -> store_rep (extra (live_ptrs ps) F) σ sp U P -> length buf0 = buf_size -> covers bm ->
  wp ('(us, num_users) ← get_all_users_from_store sp (replicate MAX_STORE_USERS 0);
      '(names, num_programs) ← get_all_programs_from_store sp (replicate MAX_STORE_PROGRAMS []);
      match fill w m (take num_users us) (take num_programs names) bm buf0 with
      | None => fun _ => None
      | Some (text, len) =>
          let res := simple_read_from_buffer (take len text) count ppos in
          free_all ps ;; mret res
      end)
    (fun res σ' => read_outcome 0 w m bm U P count ppos res /\ store_rep F σ' sp U P) σ.
Proof.
  intros Hf Hr Hb Hcv. apply wp_bind.
  destruct (get_all_users_ok _ _ _ _ _ (replicate MAX_STORE_USERS 0) Hr (length_replicate _ _))
    as (out & n & E & _ & _ & Hperm).
  unfold wp at 1. rewrite E. apply wp_bind.
  destruct (get_all_programs_ok _ _ _ _ _ (replicate MAX_STORE_PROGRAMS []) Hr (length_replicate _ _))
    as (names & out2 & n2 & E2 & Hnd & Hsub & Hlen & Hn2 & Htk).
  unfold wp at 1. rewrite E2, Htk.
  assert (0 < length buf0)%nat as Hpos by (rewrite Hb; unfold buf_size; lia).
  destruct (fill_holds w m (take n out) (comm_of <$> names) bm buf0 Hcv Hpos) as ([text len] & -> & _ & _ & Ht).
  cbn [fst snd] in Ht. rewrite Ht, Hb.
  apply wp_bind. eapply wp_mono; [by apply free_all_ok|]. intros ? σ2 Hr2. apply wp_ret.
  split; [|done]. right. right. split; [done|]. exists (take n out), names. split_and!; try done. congruence.
Qed.

Lemma NoDup_three (a b c : loc) : c <> a -> c <> b -> b <> a -> NoDup [a; b; c].
Proof. intros ? ? ?. repeat (apply NoDup_cons; split; [set_solver|]). constructor. Qed.

Lemma read_ok F σ sp U P uid w m bm buf0 count ppos :
  store_rep F σ sp U P -> length buf0 = buf_size -> covers bm ->
  wp (sysThrot_read uid w m sp bm buf0 count ppos)
    (fun res σ' => read_outcome uid w m bm U P count ppos res /\ store_rep F σ' sp U P) σ.
Proof.
  intros Hr Hb Hcv. unfold sysThrot_read. destruct (uid =? 0) eqn:Eu; zbool; cbn [negb].
  2: { apply wp_ret. split; [by left|done]. }
  subst uid. assert (read_outcome 0 w m bm U P count ppos ([], - ENOMEM, ppos)) as Hno by (right; by left).
  apply wp_bind. eapply wp_mono; [by apply rep_kmalloc|]. intros [b|] σ1; cbn beta iota; [|intros H1; by apply wp_ret].
  intros [Hb1 H1]. apply wp_bind. eapply wp_mono; [by apply rep_kmalloc|].
  intros [us|] σ2; cbn beta iota.
  2: { intros H2. apply wp_bind. eapply wp_mono; [apply (free_all_ok sp U P [None; Some b] F)|].
       - split; [apply NoDup_singleton|by repeat constructor].
       - done.
       - intros ? σ3 H3. by apply wp_ret. }
  intros [Hu2 H2]. apply wp_bind. eapply wp_mono; [by apply rep_kmalloc|].
  apply lookup_insert_None in Hu2 as Hu3. destruct Hu3 as [Hu3 Hbu].
  intros [g|] σ3; cbn beta iota.
  2: { intros H3. apply wp_bind. eapply wp_mono; [apply (free_all_ok sp U P [Some us; Some b] F)|].
       - split; [|by repeat constructor]. apply NoDup_cons. split; [set_solver|apply NoDup_singleton].
       - done.
       - intros ? σ4 H4. by apply wp_ret. }
  intros [Hg3 H3]. apply lookup_insert_None in Hg3 as [Hg3 Hug]. apply lookup_insert_None in Hg3 as [Hg3 Hbg].
  apply wp_bind. eapply wp_mono; [by apply alloc_programs_ok|].
  intros [ps ok] σ4 ([Hnd Hf] & H4). cbn [fst snd] in *.
  assert (live_ptrs (ps ++ [Some g; Some us; Some b]) = live_ptrs ps ++ [g; us; b]) as Hlv.
  { unfold live_ptrs. by rewrite omap_app. }
  assert (fresh_in F (live_ptrs (ps ++ [Some g; Some us; Some b]))) as Hfr.
  { rewrite Hlv. split.
    - apply NoDup_app. split; [done|]. split; [|by apply NoDup_three].
      intros q Hq Hin. pose proof (proj1 (Forall_forall _ _) Hf q Hq) as H. simpl in H.
      rewrite !lookup_insert_None in H. set_solver.
    - apply Forall_app. split; [|by repeat constructor]. eapply Forall_impl; [exact Hf|].
      intros q Hq. simpl in Hq. rewrite !lookup_insert_None in Hq. tauto. }
  assert (store_rep (extra (live_ptrs (ps ++ [Some g; Some us; Some b])) F) σ4 sp U P) as H5.
  { rewrite Hlv, extra_app. exact H4. }
  destruct ok; cbn [negb].
  - by apply read_body_ok.
  - apply wp_bind. eapply wp_mono; [by apply free_all_ok|]. intros ? σ5 H6. by apply wp_ret.
Qed.
(** A lack of memory is reported only if an allocation failed. *)
Lemma alloc_programs_lucky n : ensures (alloc_programs n) (fun r => r.2 = true).
Proof.
  induction n as [|n IH]; cbn [alloc_programs]; [by apply ens_ret|]. ens_step. ens_some.
  eapply ens_bind; [apply IH|]. intros [ps ok] Hok. by apply ens_ret.
Qed.

Lemma free_all_lucky ps : ensures (free_all ps) (fun _ => True).
Proof. apply ens_for_each. intros i. apply ens_kfree. Qed.

Lemma simple_read_ok from count ppos : 0 <= count -> (simple_read_from_buffer from count ppos).1.2 <> - ENOMEM.
Proof.
  intros Hc. unfold simple_read_from_buffer. destruct (ppos <? 0); [done|].
  destruct (_ || _) eqn:E; [done|]. cbn [fst snd]. zbool. unfold ENOMEM. lia.
Qed.

Lemma read_lucky uid w m sp bm buf0 count ppos : 0 <= count ->
  ensures (sysThrot_read uid w m sp bm buf0 count ppos) (fun res => res.1.2 <> - ENOMEM).
Proof.
  intros Hc. unfold sysThrot_read. destruct (negb (uid =? 0)); [by apply ens_ret|].
  do 3 (ens_step; ens_some). eapply ens_bind; [apply alloc_programs_lucky|]. intros [ps ok] Hok.
  cbn [snd] in Hok. subst ok. cbn [negb].
  eapply ens_bind; [apply get_all_users_lucky|]. intros [us nu] _.
  eapply ens_bind; [apply get_all_programs_lucky|]. intros [names np] _.
  destruct (fill _ _ _ _ _ _) as [[text len]|]; [|by intros ???].
  eapply ens_bind; [apply free_all_lucky|]. intros _ _. by apply ens_ret, simple_read_ok.
Qed.
End read.

(** ** Loading the module *)

(** What the module has registered with the kernel. *)
Record resources := Res {
  res_region : bool;                     (* alloc_chrdev_region *)
  res_cdev : bool;                       (* cdev_add *)
  res_class : bool;                      (* class_create *)
  res_device : bool;                     (* device_create *)
  res_proc : bool;                       (* proc_create *)
}.

Definition no_resources : resources := Res false false false false false.

(** The results of the kernel's registration functions. *)
Record kernel_results := Results {
  kr_region : Z;                         (* alloc_chrdev_region *)
  kr_cdev : Z;                           (* cdev_add *)
  kr_class : Z;                          (* PTR_ERR of class_create, 0 for no error *)
  kr_device : bool;                      (* device_create succeeds *)
  kr_proc : bool;                        (* proc_create succeeds *)
  kr_cache : bool;                       (* kmem_cache_create succeeds *)
}.

Definition device_driver_init (k : kernel_results) (r : resources) : Z * resources :=
  if kr_region k <? 0 then (kr_region k, r)
  else
    let r := Res true (res_cdev r) (res_class r) (res_device r) (res_proc r) in
    if kr_cdev k <? 0 then (kr_cdev k, Res false (res_cdev r) (res_class r) (res_device r) (res_proc r))
    else
      let r := Res (res_region r) true (res_class r) (res_device r) (res_proc r) in
      if negb (kr_class k =? 0) then (kr_class k, Res false false (res_class r) (res_device r) (res_proc r))
      else
        let r := Res (res_region r) (res_cdev r) true (res_device r) (res_proc r) in
        if negb (kr_device k) then (-1, Res false false false (res_device r) (res_proc r))
        else (0, Res (res_region r) (res_cdev r) (res_class r) true (res_proc r)).

Definition device_driver_cleanup (r : resources) : Z * resources :=
  (0, Res false false false false (res_proc r)).

Record module := Module {
  m_mem : mem obj;
  m_store : ptr;
  m_res : resources;
  m_core : state;
}.

(** [sysThrot_turn_on] run to its end: nothing is hooked yet, so no thread of
    the module interferes. *)
Definition turn_on_alone (cache_ok : bool) (s : state) : Z * state :=
  match run 0 [LOn; LCtl cache_ok; LCtl true; LCtl true; LCtl true] s with
  | Next s' => (match ctl s' with CIdle (Some r) => r | _ => 0 end, s')
  | _ => (0, s)
  end.

Definition sysThrot_init (k : kernel_results) (max_calls_monitor : Z) (tasks : list task) (σ : mem obj)
    : option (Z * module) :=
  '((_, store_p), σ) ← init_sysThrot_store σ;
  let core := init_state max_calls_monitor (Registry ∅ ∅) tasks in
  let '(ret, r) := device_driver_init k no_resources in
  if ret <? 0 then Some (ret, Module σ store_p r core)
  else
    let '(ret, mon) := sysThrot_statmonitor_init (kr_proc k) (stats core) in
    if ret <? 0 then Some (ret, Module σ store_p (device_driver_cleanup r).2 core)
    else
      let r := Res (res_region r) (res_cdev r) (res_class r) (res_device r) true in
      let '(ret, core) := turn_on_alone (kr_cache k) (set_stats mon core) in
      if ret <? 0 then
        Some (ret, Module σ store_p
          (device_driver_cleanup (Res (res_region r) (res_cdev r) (res_class r) (res_device r) false)).2
          (set_stats (sysThrot_statmonitor_exit (stats core)) core))
      else Some (0, Module σ store_p r core).

(** Documented results: an error is negative. *)
Definition results_ok (k : kernel_results) : Prop := kr_class k <= 0.

(** The device can be registered; and also the /proc file. *)
Definition driver_registers (k : kernel_results) : bool :=
  (0 <=? kr_region k) && (0 <=? kr_cdev k) && (kr_class k =? 0) && kr_device k.

Definition can_register (k : kernel_results) : bool := driver_registers k && kr_proc k.

Lemma device_driver_init_ok k : results_ok k ->
  if driver_registers k
  then (device_driver_init k no_resources).1 = 0 /\
    (device_driver_init k no_resources).2 = Res true true true true false
  else (device_driver_init k no_resources).1 < 0 /\ (device_driver_init k no_resources).2 = no_resources.
Proof.
  unfold results_ok, device_driver_init, driver_registers. intros Hk. rewrite !Z.leb_antisym.
  destruct (kr_region k <? 0) eqn:E1; zbool; [done|]. destruct (kr_cdev k <? 0) eqn:E2; zbool; [done|].
  destruct (kr_class k =? 0) eqn:E3; zbool; cbn [negb andb]; [|simpl; split; [lia|done]].
  by destruct (kr_device k).
Qed.

Lemma turn_on_alone_ok c m r tasks mon :
  (turn_on_alone c (set_stats mon (init_state m r tasks))).1 = 0 /\
  let s := (turn_on_alone c (set_stats mon (init_state m r tasks))).2 in
  working s = true /\ timer s = TIdle true /\ ctl s = CIdle (Some 0) /\ queue_cache (waitq s) = c /\
  max_syscalls_for_epoch s = s32 m.
Proof. by destruct c. Qed.

(** A text of at least one byte delivers its first byte. *)
Lemma read_first SUP symbols w m us names bm count : 0 < count ->
  (simple_read_from_buffer (take (buf_size - 1) (status_text SUP symbols w m us names bm)) count 0).1.1 !! 0%nat =
  Some 84.
Proof.
  intros Hc.
  assert (exists t, take (buf_size - 1) (status_text SUP symbols w m us names bm) = 84 :: t) as [t ->].
  { assert (exists n, buf_size - 1 = S n)%nat as [n ->] by (exists (buf_size - 2)%nat; unfold buf_size; lia).
    unfold status_text, working_line. by eexists. }
  unfold simple_read_from_buffer. cbn [length]. rewrite (proj2 (Z.leb_gt _ _)) by lia.
  rewrite (proj2 (Z.eqb_neq _ _)) by lia. change (0 <? 0) with false. cbn [orb fst]. cbn iota.
  rewrite drop_0. assert (exists n, Z.to_nat (Z.min count (Z.of_nat (S (length t)) - 0)) = S n) as [n Hn].
  { exists (Z.to_nat (Z.min count (Z.of_nat (S (length t)) - 0)) - 1)%nat. lia. }
  cbn [fst]. by rewrite Hn.
Qed.

(** ** Properties *)

(** C26: under every interleaving of opens and closes by any processes, at
    most one of them holds the device, and [dev_available] never leaves the
    range of an [int]. *)
Theorem device_exclusive n ls d i j : Z.of_nat n < 2 ^ 31 - 1 -> dev_run ls (device0 n) = Some d ->
  procs d !! i = Some FOpen -> procs d !! j = Some FOpen -> i = j.
Proof.
  intros Hn Hr Hi Hj. pose proof (dev_run_inv _ _ _ (dev_inv0 n Hn) Hr) as [_ _ Ho].
  destruct (decide (i = j)) as [|Hne]; [done|]. pose proof (total_two _ _ _ Hi Hj Hne). lia.
Qed.

(** C27: reading the device, whose bitmap has a bit for every syscall of the
    table: -EPERM for anyone but root; -ENOMEM, only
    when a buffer cannot be allocated; otherwise the requested part of a text that lists
    every registered user, up to 64 registered programs and exactly the hooked
    syscalls, cut to the buffer's size.  Whatever happens, all temporary
    buffers are freed and the store is unchanged. *)
Theorem read_shows_status SUP symbols F σ sp U P uid w m bm buf0 count ppos :
  store_rep F σ sp U P -> length buf0 = buf_size -> covers SUP bm -> 0 <= count ->
  exists res σ', sysThrot_read SUP symbols uid w m sp bm buf0 count ppos σ = Some (res, σ') /\
    read_outcome SUP symbols uid w m bm U P count ppos res /\ (lucky σ -> res.1.2 <> - ENOMEM) /\
    store_rep F σ' sp U P.
Proof.
  intros Hr Hb Hcv Hc.
  destruct (wp_inv _ _ _ (read_ok SUP symbols F σ sp U P uid w m bm buf0 count ppos Hr Hb Hcv)) as (res & σ' & E & Ho & Hr').
  exists res, σ'. split_and!; try done. intros Hl. by apply (read_lucky _ _ _ _ _ _ _ _ _ _ Hc _ _ _ Hl E).
Qed.

(** The title line is lost: the first [scnprintf] of [sysThrot_read] does
    not advance [len], so when root reads from the start of the file (with no
    allocation failing) the first character is the T of the second line, not
    the = of the title. *)
Theorem read_title_lost SUP symbols F σ sp U P w m bm buf0 count :
  store_rep F σ sp U P -> length buf0 = buf_size -> covers SUP bm -> 0 < count -> lucky σ ->
  exists res σ', sysThrot_read SUP symbols 0 w m sp bm buf0 count 0 σ = Some (res, σ') /\
    title_line !! 0%nat = Some 61 /\ res.1.1 !! 0%nat = Some 84.
Proof.
  intros Hr Hb Hcv Hc Hl.
  destruct (wp_inv _ _ _ (read_ok SUP symbols F σ sp U P 0 w m bm buf0 count 0 Hr Hb Hcv)) as (res & σ' & E & Ho & _).
  assert (0 <= count) as Hc0 by lia.
  destruct (read_lucky _ _ _ _ _ _ _ _ _ _ Hc0 _ _ _ Hl E) as [Hm _].
  exists res, σ'. split; [done|]. split; [done|].
  destruct Ho as [[? _]|[[_ ->]|(_ & us & names & _ & _ & _ & _ & ->)]]; [done|done|]. by apply read_first.
Qed.

(** C28: loading the module succeeds exactly when the device and the /proc file
    can be registered: it then holds every kernel resource, with throttling on
    and the epoch timer armed; a failed load has released all of them.  The
    store is not part of it: its creation may fail without failing the load,
    and a failed load leaves it allocated. *)
Theorem init_all_or_nothing k m tasks σ : results_ok k -> mem_wf σ ->
  exists r md, sysThrot_init k m tasks σ = Some (r, md) /\
    (if can_register k
     then r = 0 /\ m_res md = Res true true true true true /\ working (m_core md) = true /\
          timer (m_core md) = TIdle true
     else r < 0 /\ m_res md = no_resources) /\
    ((exists sp, m_store md = Some sp /\ store_rep (heap σ) (m_mem md) sp ∅ ∅) \/
     (~ lucky σ /\ heap (m_mem md) = heap σ)).
Proof.
  intros Hk Hwf. unfold sysThrot_init.
  destruct (wp_inv _ _ _ (init_store_ok σ Hwf)) as ([r0 p] & σ1 & E0 & Hst). rewrite E0. cbn [mbind option_bind fst snd] in *.
  assert ((exists sp, p = Some sp /\ store_rep (heap σ) σ1 sp ∅ ∅) \/ (~ lucky σ /\ heap σ1 = heap σ)) as Hsp.
  { destruct Hst as [(_ & Hp)|[-> Hh]]; [by left|right]. split; [|done].
    intros Hl. by destruct (init_store_lucky _ _ _ Hl E0). }
  pose proof (device_driver_init_ok k Hk) as Hdev. unfold can_register.
  destruct (device_driver_init k no_resources) as [ret res]. cbn [fst snd] in Hdev.
  destruct (driver_registers k); destruct Hdev as [Hret ->].
  2: { rewrite (proj2 (Z.ltb_lt _ _) Hret). eexists _, _. by split. }
  subst ret. change (0 <? 0) with false. cbn iota.
  unfold sysThrot_statmonitor_init. destruct (kr_proc k); cbn [andb]; cbn iota.
  - change (0 <? 0) with false. cbn iota.
    pose proof (turn_on_alone_ok (kr_cache k) m (Registry ∅ ∅) tasks
      (Monitor (syscall_list (stats (init_state m (Registry ∅ ∅) tasks))) 0)) as (H0 & Hw & Ht & _).
    destruct (turn_on_alone _ _) as [ret2 core]. cbn [fst snd] in *. subst ret2. change (0 <? 0) with false. cbn iota.
    eexists _, _. by split.
  - change (- ENOMEM <? 0) with true. cbn iota. eexists _, _. by split.
Qed.

(** ** Witnesses *)

Lemma device_exclusive_witness : exists d,
  dev_run [DStep 0; DStep 1] (device0 2) = Some d /\ procs d !! 0%nat = Some FOpen /\
  procs d !! 1%nat = Some FFailing /\ forall j, procs d !! j = Some FOpen -> 0%nat = j.
Proof.
  eexists. split; [reflexivity|]. split; [reflexivity|]. split; [reflexivity|]. intros j Hj.
  refine (device_exclusive 2 [DStep 0; DStep 1] _ 0 j _ eq_refl eq_refl Hj). reflexivity.
Defined.

(** Syscall 1 is hooked and has a symbol. *)
Definition demo_names (i : Z) : option (list Z) := if i =? 1 then Some (str "__x64_sys_write") else None.
Definition demo_bitmap : list Z := 2 :: replicate 57 0.

Lemma read_shows_status_witness : exists res σ',
  sysThrot_read 462 demo_names 0 true 5 3 demo_bitmap (replicate buf_size 0) 4096 0 demo_store = Some (res, σ') /\
  read_outcome 462 demo_names 0 true 5 demo_bitmap ∅ ∅ 4096 0 res /\ (lucky demo_store -> res.1.2 <> - ENOMEM) /\
  store_rep demo_frame σ' 3 ∅ ∅.
Proof.
  apply (read_shows_status 462 demo_names demo_frame demo_store 3 ∅ ∅ 0 true 5 demo_bitmap (replicate buf_size 0) 4096 0);
    [exact demo_store_rep|apply length_replicate|vm_compute; discriminate|discriminate].
Defined.

Lemma read_title_lost_witness : exists res σ',
  sysThrot_read 462 demo_names 0 true 5 3 demo_bitmap (replicate buf_size 0) 4096 0 demo_store = Some (res, σ') /\
  title_line !! 0%nat = Some 61 /\ res.1.1 !! 0%nat = Some 84.
Proof.
  apply (read_title_lost 462 demo_names demo_frame demo_store 3 ∅ ∅ true 5 demo_bitmap (replicate buf_size 0) 4096);
    [exact demo_store_rep|apply length_replicate|vm_compute; discriminate|reflexivity|]. intros H. inversion H.
Defined.

Lemma init_all_or_nothing_witness : exists r md,
  sysThrot_init (Results 0 0 0 true true true) 5 [] demo_init = Some (r, md) /\ r = 0 /\
  m_res md = Res true true true true true.
Proof.
  destruct (init_all_or_nothing (Results 0 0 0 true true true) 5 [] demo_init) as (r & md & E & (H1 & H2 & _) & _);
    [discriminate|exact demo_init_wf|]. by exists r, md.
Defined.
