(* ===== verification/Unload.v ===== *)
(** * The life of the module ([src/sysThrot.c], [sysThrot_cleanup])

    The components put together, from the end of [sysThrot_init] to the moment
    the kernel frees the module's text: threads that run into a hooked wrapper,
    go through [stub_trampoline] into [stub] and back, the epoch timer, the
    administrator's ioctl calls, and [sysThrot_cleanup].  As in [Core.v] a
    transition is one access to shared data, so a run is an interleaving.  The
    trampoline is cut at its accesses to [sysThrot_stub_counter] and around the
    call of [stub]; what it does to registers and stack is in [Trampoline.v]. *)

From stdpp Require Import prelude gmap list.
From S2P Require Import Prelude Kernel Store Queue Stats Core Hook Ioctl Device.

(** ** What the store holds *)

(** The items of a map, decoded from the heap. *)
Definition items_of {X} (dec : obj -> option X) (h : gmap loc obj) (mp : ptr) : list X :=
  match p ← mp; h !! p with
  | Some (OMap m) =>
      omap (fun sl => if occupied sl then p ← item sl; o ← h !! p; dec o else None) (table0 m ++ table1 m)
  | _ => []
  end.

Definition dec_user (o : obj) : option user := match o with OInt z => Some z | _ => None end.
Definition dec_program (o : obj) : option program := match o with OStr s => Some s | _ => None end.

Definition registry_of (h : gmap loc obj) (sp : loc) : registry :=
  match h !! sp with
  | Some (OStore st) =>
      Registry (list_to_set (items_of dec_user h (syscall_user_map st)))
        (list_to_set (items_of dec_program h (syscall_program_map st)))
  | _ => Registry ∅ ∅
  end.

(** ** State *)

(** Where a thread is on its way through the trampoline. *)
Inductive tramp_pc :=
| TOut                       (* not in the module *)
| TCalled (nr : Z)           (* the wrapper's call is done, before [lock incl] *)
| TCounted (nr : Z)          (* counted, before [call stub] *)
| TStub                      (* in [stub]: see the thread's [pc] *)
| TBack                      (* [stub] has returned, before [lock decl] *)
| TLeaving.                  (* before [ret] *)

#[export] Instance tramp_pc_eq_dec : EqDecision tramp_pc.
Proof. solve_decision. Defined.

(** Where [sysThrot_cleanup] is. *)
Inductive exit_pc :=
| XLoaded                    (* not called yet *)
| XTurnOff                   (* in [sysThrot_turn_off] *)
| XByte (i : nat)            (* outer loop *)
| XBit (i j : nat)           (* inner loop *)
| XWait                      (* before reading [sysThrot_stub_counter] *)
| XRcu                       (* before [synchronize_rcu] *)
| XStore                     (* before [destroy_sysThrot_store] *)
| XDevice                    (* before [device_driver_cleanup] *)
| XProc                      (* before [sysThrot_statmonitor_exit] *)
| XGone.                     (* returned: the module is freed *)

Record life := Life {
  l_drv : driver;
  l_tramp : list tramp_pc;
  l_counter : Z;             (* sysThrot_stub_counter *)
  l_res : resources;
  l_exit : exit_pc;
}.

Inductive fate := Stuck | Wrong | Go (l : life).

Definition set_drv (d : driver) (l : life) : life := Life d (l_tramp l) (l_counter l) (l_res l) (l_exit l).
Definition set_core (s : state) (l : life) : life :=
  set_drv (Driver (d_mem (l_drv l)) (d_store (l_drv l)) (d_hook (l_drv l)) s) l.
Definition set_hook (h : hook) (l : life) : life :=
  set_drv (Driver (d_mem (l_drv l)) (d_store (l_drv l)) h (d_core (l_drv l))) l.
Definition set_mem (σ : mem obj) (l : life) : life :=
  set_drv (Driver σ (d_store (l_drv l)) (d_hook (l_drv l)) (d_core (l_drv l))) l.
Definition set_tramp (i : nat) (t : tramp_pc) (l : life) : life :=
  Life (l_drv l) (<[i := t]> (l_tramp l)) (l_counter l) (l_res l) (l_exit l).
Definition set_stub_counter (z : Z) (l : life) : life :=
  Life (l_drv l) (l_tramp l) (s32 z) (l_res l) (l_exit l).
Definition set_res (r : resources) (l : life) : life :=
  Life (l_drv l) (l_tramp l) (l_counter l) r (l_exit l).
Definition set_exit (x : exit_pc) (l : life) : life :=
  Life (l_drv l) (l_tramp l) (l_counter l) (l_res l) x.

Abbreviation core l := (d_core (l_drv l)).

Section life.
Context (SUPPORTED_SYSCALLS NR_syscalls tramp_addr : Z) (syscall_symbols : Z -> option (list Z)).
Context (register_kprobe : option (list Z) -> kprobe_result).
Context (kallsyms_probe : kprobe_result) (kallsyms_lookup_name : patch_symbol -> Z).

(** The wrapper of syscall [nr] starts with a call of the trampoline. *)
Definition intercepted (h : hook) (nr : Z) : bool :=
  match register_kprobe (syscall_symbols nr) with
  | KpAddr a => bool_decide (call_target (kernel_text h) a = Some tramp_addr)
  | KpErr _ => false
  end.

(** ** Threads *)

Definition call_wrapper (i : nat) (nr : Z) (l : life) : fate :=
  match l_tramp l !! i with
  | Some TOut => if intercepted (d_hook (l_drv l)) nr then Go (set_tramp i (TCalled nr) l) else Stuck
  | _ => Stuck
  end.

(** Where thread [i] is once [stub] has taken it to the core state [s]. *)
Definition tramp_of (s : state) (i : nat) : tramp_pc :=
  match threads s !! i with Some (Thread _ _ (POut _)) => TBack | _ => TStub end.

Definition lift_thread (i : nat) (o : outcome) (l : life) : fate :=
  match o with
  | Blocked => Stuck
  | UB => Wrong
  | Next s => Go (set_tramp i (tramp_of s i) (set_core s l))
  end.

(** Instructions of the trampoline; they are gone with the module's text. *)
Definition tramp_step (i : nat) (l : life) : fate :=
  match l_tramp l !! i, l_exit l with
  | None, _ | Some TOut, _ | Some TStub, _ => Stuck
  | Some _, XGone => Wrong
  | Some (TCalled nr), _ => Go (set_tramp i (TCounted nr) (set_stub_counter (l_counter l + 1) l))
  | Some (TCounted nr), _ => lift_thread i (stub_enter i nr (core l)) l
  | Some TBack, _ => Go (set_tramp i TLeaving (set_stub_counter (l_counter l - 1) l))
  | Some TLeaving, _ => Go (set_tramp i TOut l)
  end.

(** The points of [stub] that read the store. *)
Definition reads_store (p : pc) : bool := match p with PInside | PUser => true | _ => false end.

Definition in_stub_step (i : nat) (c : choice) (l : life) : fate :=
  match l_tramp l !! i, threads (core l) !! i with
  | Some TStub, Some th =>
      match l_exit l with
      | XGone => Wrong
      | _ =>
          if reads_store (th_pc th) && negb (bool_decide (is_Some (heap (d_mem (l_drv l)) !! d_store (l_drv l))))
          then Wrong
          else lift_thread i (stub_step SUPPORTED_SYSCALLS i th c (core l)) l
      end
  | _, _ => Stuck
  end.

Definition lift_core (o : outcome) (l : life) : fate :=
  match o with Blocked => Stuck | UB => Wrong | Next s => Go (set_core s l) end.

Definition epoch_step (l : life) : fate :=
  match l_exit l, timer (core l) with
  | XGone, TIdle false => Stuck
  | XGone, _ => Wrong
  | _, _ => lift_core (timer_step (core l)) l
  end.

(** ** The administrator *)

(** A call of the interface while no other is under way; the core then works
    with the items the store has become. *)
Definition ioctl_step (u : umem) (uid cmd arg : Z) (l : life) : fate :=
  match l_exit l, ctl (core l) with
  | XLoaded, CIdle _ =>
      match sysThrot_ioctl SUPPORTED_SYSCALLS tramp_addr syscall_symbols register_kprobe
              kallsyms_probe kallsyms_lookup_name u uid cmd arg (l_drv l) with
      | Some (_, d) =>
          Go (set_drv (Driver (d_mem d) (d_store d) (d_hook d)
                (set_reg (registry_of (heap (d_mem d)) (d_store d)) (d_core d))) l)
      | None => Wrong
      end
  | _, _ => Stuck
  end.

(** A call of [sysThrot_turn_on] or [sysThrot_turn_off] goes on. *)
Definition call_step (alloc_ok : bool) (l : life) : fate :=
  match l_exit l with
  | XLoaded | XTurnOff => lift_core (ctl_step alloc_ok (core l)) l
  | _ => Stuck
  end.

(** ** [sysThrot_cleanup] *)

(** The kernel calls it when nobody has the device open. *)
Definition exit_enter (l : life) : fate :=
  match l_exit l, ctl (core l) with
  | XLoaded, CIdle _ => lift_core (turn_off_enter (core l)) (set_exit XTurnOff l)
  | _, _ => Stuck
  end.

Definition cleanup_step (l : life) : fate :=
  let h := d_hook (l_drv l) in
  match l_exit l with
  | XLoaded | XGone => Stuck
  | XTurnOff => match ctl (core l) with CIdle _ => Go (set_exit (XByte 0) l) | _ => Stuck end
  | XByte i =>
      if (i <? Z.to_nat (NR_syscalls / 8 + 1))%nat then
        match syscall_presence_bitmap h !! i with
        | None => Wrong
        | Some b => Go (set_exit (if negb (b =? 0) then XBit i 0 else XByte (S i)) l)
        end
      else Go (set_exit XWait l)
  | XBit i j =>
      if (j <? 8)%nat then
        match syscall_presence_bitmap h !! i with
        | None => Wrong
        | Some b =>
            if negb (Z.land b (Z.shiftl 1 (Z.of_nat j)) =? 0) then
              match removeProbe SUPPORTED_SYSCALLS syscall_symbols register_kprobe
                      kallsyms_probe kallsyms_lookup_name (Z.of_nat i * 8 + Z.of_nat j) h with
              | None => Wrong
              | Some (_, h) => Go (set_exit (XBit i (S j)) (set_hook h l))
              end
            else Go (set_exit (XBit i (S j)) l)
        end
      else Go (set_exit (XByte (S i)) l)
  | XWait => if 0 <? l_counter l then Go l else Go (set_exit XRcu l)
  | XRcu => Go (set_exit XStore l)
  | XStore =>
      match destroy_sysThrot_store (Some (d_store (l_drv l))) (d_mem (l_drv l)) with
      | None => Wrong
      | Some (_, σ) => Go (set_exit XDevice (set_mem σ l))
      end
  | XDevice => Go (set_exit XProc (set_res (device_driver_cleanup (l_res l)).2 l))
  | XProc =>
      let r := l_res l in
      Go (set_exit XGone
        (set_res (Res (res_region r) (res_cdev r) (res_class r) (res_device r) false)
          (set_core (set_stats (sysThrot_statmonitor_exit (stats (core l))) (core l)) l)))
  end.

(** ** The transition system *)

Inductive event :=
| ECall (i : nat) (nr : Z)
| ETramp (i : nat)
| EStub (i : nat) (c : choice)
| ETimer
| EIoctl (u : umem) (uid cmd arg : Z)
| ECtl (alloc_ok : bool)
| EExit
| ECleanup.

Definition life_step (e : event) (l : life) : fate :=
  match e with
  | ECall i nr => call_wrapper i nr l
  | ETramp i => tramp_step i l
  | EStub i c => in_stub_step i c l
  | ETimer => epoch_step l
  | EIoctl u uid cmd arg => ioctl_step u uid cmd arg l
  | ECtl a => call_step a l
  | EExit => exit_enter l
  | ECleanup => cleanup_step l
  end.

Fixpoint live (es : list event) (l : life) : fate :=
  match es with
  | [] => Go l
  | e :: es =>
      match life_step e l with
      | Stuck => live es l
      | Wrong => Wrong
      | Go l' => live es l'
      end
  end.

(** The module as [sysThrot_init] leaves it, with its store at [sp]; nothing
    is hooked and the kernel's text is [t].  ([sysThrot_init] also returns 0 when
    the store or the slab cache could not be created; those loads have no [sp].) *)
Definition life0 (md : module) (sp : loc) (t : text) : life :=
  Life (Driver (m_mem md) sp (hook0 SUPPORTED_SYSCALLS NR_syscalls t) (m_core md))
    (replicate (length (threads (m_core md))) TOut) 0 (m_res md) XLoaded.
End life.
