(* ===== verification/UnloadProofs.v ===== *)
(** * Invariant of the module's life

    What holds from the end of [sysThrot_init] to the end of
    [sysThrot_cleanup], whatever the interleaving (see [Unload.v]): the
    invariants of the components, that they agree with each other, and what
    each stage of the cleanup has established. *)

From stdpp Require Import prelude gmap list.
From S2P Require Import Prelude Kernel Store StoreProofs StoreSpec Queue Stats Core CoreProofs Hook HookSpec.
From S2P Require Import Ioctl Device Unload.

(** ** The store's contents *)

Lemma items_of_member {X} `{ItemLaws X} (dec : obj -> option X) h mp m x :
  (forall o y, dec o = Some y <-> o = enc y) -> h !! mp = Some (OMap m) ->
  x ∈ items_of dec h (Some mp) <-> member X h m x.
Proof.
  intros Hdec Hm. unfold items_of. simpl. rewrite Hm, list_elem_of_omap. split.
  - intros (sl & Hin & Hf). destruct sl as [[p|] k []]; simpl in Hf; try done.
    destruct (h !! p) as [o|] eqn:Ho; [|done]. simpl in Hf. apply Hdec in Hf as ->.
    exists k, p. split; [|done].
    apply elem_of_app in Hin as [Hin|Hin]; apply list_elem_of_lookup_1 in Hin as [i Hi].
    + by exists T0, i.
    + by exists T1, i.
  - intros (k & p & (s & i & Hat) & Hx). exists (Slot (Some p) k true). split.
    + apply elem_of_app. apply list_elem_of_lookup_2 in Hat. destruct s; [by left|by right].
    + simpl. rewrite Hx. simpl. by apply Hdec.
Qed.

Lemma registry_of_rep F σ sp U P : store_rep F σ sp U P -> registry_of (heap σ) sp = Registry U P.
Proof.
  intros (um & pm & mu & mq & Hst). pose proof Hst as [_ Hs Hum Hpm _ _ _ HU HP _ _].
  unfold registry_of. rewrite Hs. simpl. f_equal; apply set_eq; intros x; rewrite elem_of_list_to_set.
  - rewrite HU. apply (items_of_member (X:=user)); [|done]. intros [] y; simpl; naive_solver.
  - rewrite HP. apply (items_of_member (X:=program)); [|done]. intros [] y; simpl; naive_solver.
Qed.

(** ** What the steps of the core leave alone *)

Definition outs (s : state) : list bool := (fun th => is_out (th_pc th)) <$> threads s.

Lemma stub_step_frame sup i th c s s' : stub_step sup i th c s = Next s' ->
  exists p sx, s' = set_pc i p sx /\ threads sx = threads s /\ working sx = working s /\
    ctl sx = ctl s /\ timer sx = timer s /\ reg sx = reg s.
Proof.
  unfold stub_step. intros Hs.
  repeat match type of Hs with
    | context [match ?x with _ => _ end] => destruct x eqn:?; try done
    end; injection Hs as <-; eexists _, _; (split; [reflexivity|]); by split_and!.
Qed.

Lemma outs_wake s : outs (wake_up_interruptible s) = outs s.
Proof.
  unfold outs, wake_up_interruptible. simpl. rewrite <-list_fmap_compose. apply list_fmap_ext.
  intros i th _. apply is_out_wake.
Qed.

Lemma timer_step_frame s s' : timer_step s = Next s' ->
  outs s' = outs s /\ working s' = working s /\ ctl s' = ctl s /\ reg s' = reg s.
Proof.
  unfold timer_step. intros Hs.
  repeat match type of Hs with
    | context [match ?x with _ => _ end] => destruct x eqn:?; try done
    end; injection Hs as <-; split_and!; try done; try apply outs_wake.
Qed.

Lemma ctl_step_frame a s s' : ctl_step a s = Next s' -> outs s' = outs s /\ reg s' = reg s.
Proof.
  unfold ctl_step. intros Hs.
  repeat match type of Hs with
    | context [match ?x with _ => _ end] => destruct x eqn:?; try done
    end; injection Hs as <-; split_and!; try done; try apply outs_wake.
Qed.

(** ** Hooks and the text *)

Section life.
Context (SUP NR tramp : Z) (symbols : Z -> option (list Z)) (kprobe : option (list Z) -> kprobe_result).
Context (kp0 : kprobe_result) (ksym : patch_symbol -> Z).
Context (Hpf : platform SUP NR tramp symbols kprobe).

#[local] Abbreviation hook_inv := (hook_inv SUP NR tramp symbols kprobe).
#[local] Abbreviation intercepted := (intercepted tramp symbols kprobe).

Definition marked (h : hook) (id : Z) : bool := (0 <=? id) && hooked (syscall_presence_bitmap h) id.

(** Only hooked wrappers call the trampoline. *)
Definition text_ok (h : hook) : Prop := forall id, marked h id = false -> intercepted h id = false.

Lemma text_ok_same h h' : syscall_presence_bitmap h' = syscall_presence_bitmap h ->
  kernel_text h' = kernel_text h -> text_ok h -> text_ok h'.
Proof. unfold text_ok, marked, Unload.intercepted. by intros -> ->. Qed.

Lemma intercepted_other h h' id a bs id' : kprobe (symbols id) = KpAddr a -> length bs = 5%nat ->
  kernel_text h' = write_bytes a bs (kernel_text h) -> id' <> id -> intercepted h' id' = intercepted h id'.
Proof.
  intros Ha Hl Ht Hne. unfold Unload.intercepted. destruct (kprobe (symbols id')) as [e|a'] eqn:Ha'; [done|].
  rewrite Ht, call_target_frame; [done|done|]. by eapply (pf_apart _ _ _ _ _ Hpf id id').
Qed.

Lemma install_text_ok id h r h' : hook_inv h -> text_ok h ->
  installProbe SUP tramp symbols kprobe kp0 ksym id h = Some (r, h') -> text_ok h'.
Proof.
  intros Hi Ht E.
  destruct (installProbe_total SUP NR tramp symbols kprobe kp0 ksym Hpf id h Hi) as (r1 & h1 & E1 & _ & H1 & H2 & H3).
  rewrite E in E1. injection E1 as <- <-.
  destruct (decide (0 <= id < SUP)) as [Hid|Hid]; [|by destruct H1 as [_ ->]; [lia|]].
  destruct (hooked (syscall_presence_bitmap h) id) eqn:Hh; [by destruct H2 as [_ ->]|].
  destruct (H3 Hid eq_refl) as [(_ & Hset & a & Ha & _ & Htx)|(_ & Hb & Htx)]; [|by eapply text_ok_same].
  intros id' Hm. unfold marked in Hm. destruct (decide (id' = id)) as [->|Hne].
  - rewrite Hset, bool_decide_true, (proj2 (Z.leb_le _ _)) in Hm by (done || lia). done.
  - rewrite (intercepted_other h h' id a (call_instruction tramp a) id' Ha eq_refl Htx Hne). apply Ht. unfold marked.
    destruct (0 <=? id') eqn:E0; [|done]. zbool. rewrite Hset, bool_decide_false in Hm by done. done.
Qed.

Lemma remove_text_ok id h r h' : hook_inv h -> text_ok h ->
  removeProbe SUP symbols kprobe kp0 ksym id h = Some (r, h') -> text_ok h'.
Proof.
  intros Hi Ht E.
  destruct (removeProbe_total SUP NR tramp symbols kprobe kp0 ksym Hpf id h Hi) as (r1 & h1 & E1 & _ & H1 & H2 & H3).
  rewrite E in E1. injection E1 as <- <-.
  destruct (decide (0 <= id < SUP)) as [Hid|Hid]; [|by destruct H1 as [_ ->]; [lia|]].
  destruct (hooked (syscall_presence_bitmap h) id) eqn:Hh; [|by destruct H2 as [_ ->]].
  destruct (H3 Hid eq_refl) as (_ & Hset & a & Ha & Htx).
  intros id' Hm. unfold marked in Hm. destruct (decide (id' = id)) as [->|Hne].
  - unfold Unload.intercepted. rewrite Ha, Htx. apply bool_decide_eq_false_2. unfold call_target.
    rewrite (lookup_write_bytes _ a _ a), decide_True by (cbn [length nop_instruction]; lia). rewrite Z.sub_diag. simpl.
    by repeat match goal with |- context [?x ≫= _] => destruct x; simpl end.
  - rewrite (intercepted_other h h' id a nop_instruction id' Ha eq_refl Htx Hne). apply Ht. unfold marked.
    destruct (0 <=? id') eqn:E0; [|done]. zbool. rewrite Hset, bool_decide_false in Hm by done. done.
Qed.

(** ** The invariant *)

Context (F : gmap loc obj).

Definition in_stub (t : tramp_pc) : bool := match t with TStub => true | _ => false end.
Definition counted (t : tramp_pc) : bool :=
  match t with TCounted _ | TStub | TBack => true | _ => false end.
Definition count (ts : list tramp_pc) : Z := sum_z ((fun t => if counted t then 1 else 0) <$> ts).

Definition rep (l : life) : Prop :=
  store_rep F (d_mem (l_drv l)) (d_store (l_drv l)) (reg_users (reg (core l))) (reg_programs (reg (core l))).

(** Throttling is off and no call is under way. *)
Definition off_idle (s : state) : Prop := working s = false /\ exists r, ctl s = CIdle r.

(** [sysThrot_turn_off] is running or has returned. *)
Definition going_off (s : state) : Prop :=
  match ctl s with
  | CIdle _ => working s = false
  | COnInit | COnSetup | COnArm | COnWorking => False
  | _ => True
  end.

Definition unhooked_below (h : hook) (n : nat) : Prop :=
  forall id, 0 <= id < Z.of_nat n -> hooked (syscall_presence_bitmap h) id = false.
Definition unhooked (h : hook) : Prop :=
  forall id, 0 <= id -> hooked (syscall_presence_bitmap h) id = false.

Definition store_inv (l : life) : Prop :=
  match l_exit l with XDevice | XProc | XGone => heap (d_mem (l_drv l)) = F | _ => rep l end.

Definition off_inv (l : life) : Prop :=
  match l_exit l with
  | XLoaded => True
  | XTurnOff => going_off (core l)
  | _ => off_idle (core l)
  end.

Definition unhook_inv (l : life) : Prop :=
  let h := d_hook (l_drv l) in
  match l_exit l with
  | XLoaded | XTurnOff => True
  | XByte i => unhooked_below h (8 * i)
  | XBit i j => unhooked_below h (8 * i + j) /\ (i < Z.to_nat (NR / 8 + 1))%nat /\ (j <= 8)%nat
  | _ => unhooked h
  end.

(** After the last reading of the counter. *)
Definition past_wait (x : exit_pc) : bool :=
  match x with XRcu | XStore | XDevice | XProc | XGone => true | _ => false end.
Definition empty (ts : list tramp_pc) : Prop := Forall (fun t => t = TOut) ts.

Definition res_inv (l : life) : Prop :=
  match l_exit l with
  | XProc => l_res l = Res false false false false (res_proc (l_res l))
  | XGone => l_res l = no_resources /\ syscall_list (stats (core l)) = []
  | _ => True
  end.

Record life_inv (l : life) : Prop := {
  li_core : inv (core l);
  li_where : in_stub <$> l_tramp l = negb <$> outs (core l);
  li_count : l_counter l = count (l_tramp l);
  li_hook : hook_inv (d_hook (l_drv l));
  li_text : text_ok (d_hook (l_drv l));
  li_store : store_inv l;
  li_off : off_inv l;
  li_unhook : unhook_inv l;
  li_empty : past_wait (l_exit l) = true -> empty (l_tramp l);
  li_res : res_inv l;
}.

(** Not between the wrapper's call and [lock incl], nor between [lock decl]
    and [ret]: the two places where a thread runs the module's text uncounted. *)
Definition settled (t : tramp_pc) : Prop :=
  match t with TCalled _ | TLeaving => False | _ => True end.

(** The runs considered: those of [Core.v] that are orderly, and in which no
    thread is at one of the two places when the cleanup reads the counter for
    the last time. *)
Definition calm (e : event) (l l' : life) : Prop :=
  quiet (core l') /\ (e = ECtl false -> ctl (core l) <> COnInit) /\
  (l_exit l = XWait -> l_exit l' = XRcu -> Forall settled (l_tramp l)).

(** *** Consequences *)

Lemma count_cons t ts : count (t :: ts) = (if counted t then 1 else 0) + count ts.
Proof. done. Qed.

Lemma count_range ts : 0 <= count ts <= Z.of_nat (length ts).
Proof.
  induction ts as [|t ts IH]; [done|]. rewrite count_cons. cbn [length]. destruct (counted t); lia.
Qed.

Lemma count_insert i t t' ts : ts !! i = Some t ->
  count (<[i := t']> ts) = count ts - (if counted t then 1 else 0) + (if counted t' then 1 else 0).
Proof.
  revert i. induction ts as [|t0 ts IH]; intros [|i] Hi; simplify_eq/=.
  - rewrite !count_cons. lia.
  - rewrite !count_cons, (IH i Hi). lia.
Qed.

Lemma count_zero ts t : count ts = 0 -> t ∈ ts -> counted t = false.
Proof.
  induction ts as [|t' ts IH]; intros Hc Hin; [by apply not_elem_of_nil in Hin|].
  rewrite count_cons in Hc. pose proof (count_range ts).
  apply elem_of_cons in Hin as [->|Hin]; destruct (counted t') eqn:E; try lia; try done.
  apply IH; [lia|done].
Qed.

Lemma lengths l : life_inv l -> length (l_tramp l) = length (threads (core l)).
Proof.
  intros Hl. pose proof (f_equal length (li_where _ Hl)) as H.
  unfold outs in H. by rewrite !length_fmap in H.
Qed.

Lemma count_small l : life_inv l -> count (l_tramp l) <= Z.of_nat (length (l_tramp l)) < 2 ^ 31.
Proof.
  intros Hl. pose proof (count_range (l_tramp l)). pose proof (iv_small _ (li_core _ Hl)).
  rewrite (lengths l Hl) in *. lia.
Qed.

Lemma where_lookup l i t : life_inv l -> l_tramp l !! i = Some t ->
  exists th, threads (core l) !! i = Some th /\ in_stub t = negb (is_out (th_pc th)).
Proof.
  intros Hl Ht. pose proof (f_equal (fun x => x !! i) (li_where _ Hl)) as H. simpl in H.
  unfold outs in H. rewrite !list_lookup_fmap, Ht in H. simpl in H.
  destruct (threads (core l) !! i) as [th|]; [|done]. exists th. simpl in H. split; [done|congruence].
Qed.

Lemma off_idle_out s : inv s -> off_idle s -> all_out (threads s) /\ timer s = TIdle false.
Proof.
  intros Hi [Hw [r Hc]]. pose proof (iv_ctl _ Hi) as H. unfold ctl_inv in H.
  rewrite Hc, Hw in H. tauto.
Qed.

(** A thread is in [stub] only before the cleanup has turned throttling off. *)
Lemma in_stub_early l i : life_inv l -> l_tramp l !! i = Some TStub -> l_exit l = XLoaded \/ l_exit l = XTurnOff.
Proof.
  intros Hl Ht. destruct (where_lookup l i TStub Hl Ht) as (th & Hth & Ho). simpl in Ho.
  pose proof (li_off _ Hl) as Hoff. unfold off_inv in Hoff.
  destruct (l_exit l); auto; exfalso; destruct (off_idle_out _ (li_core _ Hl) Hoff) as [Hall _];
    eapply (all_out_not _ _ _ Hall Hth); by destruct (is_out _).
Qed.

Lemma early_rep l : life_inv l -> l_exit l = XLoaded \/ l_exit l = XTurnOff -> rep l.
Proof. intros Hl Hx. pose proof (li_store _ Hl) as H. unfold store_inv in H. by destruct Hx as [Hx|Hx]; rewrite Hx in H. Qed.

Lemma rep_live l : rep l -> is_Some (heap (d_mem (l_drv l)) !! d_store (l_drv l)).
Proof. intros (? & ? & ? & ? & H). eexists. apply H. Qed.

(** *** Threads and the timer *)

Lemma off_same l s' : working s' = working (core l) -> ctl s' = ctl (core l) -> off_inv l ->
  off_inv (set_core s' l).
Proof. unfold off_inv, going_off, off_idle. simpl. by intros -> ->. Qed.

(** Steps before the last reading of the counter that change only the core
    and the threads' places. *)
Lemma life_inv_move l s' ts : life_inv l -> past_wait (l_exit l) = false -> inv s' ->
  in_stub <$> ts = negb <$> outs s' -> reg s' = reg (core l) -> off_inv (set_core s' l) ->
  life_inv (Life (l_drv (set_core s' l)) ts (count ts) (l_res l) (l_exit l)).
Proof.
  intros [] Hp Hinv Hw Hr Ho. split; try done; simpl.
  - unfold store_inv, rep in *. simpl. rewrite Hr. done.
  - by rewrite Hp.
  - unfold res_inv in *. simpl in *. by destruct (l_exit l).
Qed.

Lemma in_stub_put l i t t' : life_inv l -> l_tramp l !! i = Some t -> in_stub t' = in_stub t ->
  in_stub <$> <[i := t']> (l_tramp l) = negb <$> outs (core l).
Proof.
  intros Hl Ht He. rewrite list_fmap_insert, He, <-(li_where _ Hl). apply list_insert_id.
  by rewrite list_lookup_fmap, Ht.
Qed.

(** A thread moves within the trampoline. *)
Lemma life_inv_tramp l i t t' : life_inv l -> past_wait (l_exit l) = false -> l_tramp l !! i = Some t ->
  in_stub t' = in_stub t ->
  life_inv (set_tramp i t' (set_stub_counter
    (l_counter l + (if counted t' then 1 else 0) - (if counted t then 1 else 0)) l)).
Proof.
  intros Hl Hp Ht He. pose proof (count_insert i t t' (l_tramp l) Ht) as Hc.
  pose proof (count_small l Hl) as Hs. pose proof (count_range (<[i := t']> (l_tramp l))) as Hr. rewrite length_insert in Hr.
  rewrite (li_count _ Hl).
  replace (count (l_tramp l) + (if counted t' then 1 else 0) - (if counted t then 1 else 0))
    with (count (<[i := t']> (l_tramp l))) by lia.
  unfold set_tramp, set_stub_counter. simpl. rewrite s32_id by lia.
  pose proof (life_inv_move l (core l) (<[i := t']> (l_tramp l)) Hl Hp (li_core _ Hl)
    (in_stub_put l i t t' Hl Ht He) eq_refl) as H.
  assert (set_core (core l) l = l) as Hid by (by destruct l as [[] ? ? ? ?]).
  rewrite Hid in H. by apply H, (li_off _ Hl).
Qed.

Lemma life_inv_tramp_same l i t t' : life_inv l -> past_wait (l_exit l) = false -> l_tramp l !! i = Some t ->
  in_stub t' = in_stub t -> counted t' = counted t -> life_inv (set_tramp i t' l).
Proof.
  intros Hl Hp Ht He Hc. pose proof (life_inv_tramp l i t t' Hl Hp Ht He) as H.
  pose proof (count_small l Hl) as Hs. pose proof (count_range (l_tramp l)).
  rewrite Hc, Z.add_simpl_r, (li_count _ Hl) in H. unfold set_stub_counter in H. rewrite s32_id in H by lia.
  rewrite <-(li_count _ Hl) in H. by destruct l.
Qed.

(** A thread in the trampoline shows that the counter was not read as 0. *)
Lemma inside_not_past l i t : life_inv l -> l_tramp l !! i = Some t -> t <> TOut -> past_wait (l_exit l) = false.
Proof.
  intros Hl Ht Hn. destruct (past_wait (l_exit l)) eqn:Hp; [|done]. exfalso.
  pose proof (li_empty _ Hl Hp) as He. by apply Hn, (Forall_lookup_1 _ _ _ _ He Ht).
Qed.

Lemma not_gone l : past_wait (l_exit l) = false -> l_exit l <> XGone.
Proof. by destruct (l_exit l). Qed.

(** A step of the core by thread [i], which is counted. *)
Lemma life_inv_lift l i t s' p : life_inv l -> l_tramp l !! i = Some t -> counted t = true -> inv s' ->
  outs s' = <[i := is_out p]> (outs (core l)) -> (exists th, threads s' !! i = Some th /\ th_pc th = p) ->
  working s' = working (core l) -> ctl s' = ctl (core l) -> reg s' = reg (core l) ->
  life_inv (set_tramp i (tramp_of s' i) (set_core s' l)).
Proof.
  intros Hl Ht Hc Hinv Ho (th & Hth & Hp) Hw Hct Hr.
  assert (in_stub (tramp_of s' i) = negb (is_out p) /\ counted (tramp_of s' i) = true) as [Hs Hcn].
  { unfold tramp_of. rewrite Hth. destruct th as [tk nr p0]. simpl in Hp. subst p0. by destruct p. }
  assert (past_wait (l_exit l) = false) as Hpw by (eapply inside_not_past; [done..|by intros ->]).
  pose proof (life_inv_move l s' (<[i := tramp_of s' i]> (l_tramp l)) Hl Hpw Hinv) as H.
  rewrite (count_insert i t _ _ Ht), Hc, Hcn, Z.sub_add, <-(li_count _ Hl) in H. apply H; [|done|].
  - by rewrite list_fmap_insert, Hs, Ho, list_fmap_insert, (li_where _ Hl).
  - apply off_same; [done..|apply Hl].
Qed.

(** *** One lemma per event: no undefined behaviour, and the invariant is kept *)

Definition good (e : event) (l : life) (f : fate) : Prop :=
  match f with Stuck => True | Wrong => False | Go l' => calm e l l' -> life_inv l' end.

Lemma good_call i nr l : life_inv l -> good (ECall i nr) l (call_wrapper tramp symbols kprobe i nr l).
Proof.
  intros Hl. unfold call_wrapper. destruct (l_tramp l !! i) as [[]|] eqn:Ht; try done.
  destruct (Unload.intercepted _ _ _ _ nr) eqn:Hi; [|done]. intros _.
  apply (life_inv_tramp_same l i TOut); try done.
  destruct (past_wait (l_exit l)) eqn:Hp; [|done]. exfalso.
  assert (marked (d_hook (l_drv l)) nr = false) as Hm.
  { unfold marked. destruct (0 <=? nr) eqn:E; [|done]. zbool. simpl.
    pose proof (li_unhook _ Hl) as Hu. unfold unhook_inv in Hu. destruct (l_exit l); try done; by apply Hu. }
  apply (li_text _ Hl) in Hm. congruence.
Qed.

Lemma outs_set_pc i p s : outs (set_pc i p s) = alter (fun _ => is_out p) i (outs s).
Proof.
  unfold outs. simpl. generalize (threads s) as ths. intros ths. revert i.
  induction ths as [|th ths IH]; intros [|i]; simpl; [done..|]. f_equal. apply IH.
Qed.

Lemma good_enter i nr l : life_inv l -> l_tramp l !! i = Some (TCounted nr) ->
  good (ETramp i) l (lift_thread i (stub_enter i nr (core l)) l).
Proof.
  intros Hl Ht. destruct (where_lookup l i _ Hl Ht) as ([t0 nr0 p0] & Hth & Ho). simpl in Ho.
  unfold stub_enter. rewrite Hth. destruct p0 as [r| | | | | | | | | | | | |]; try done. simpl. intros (Hq & _).
  set (p := if working (core l) then PEntered else POut (Some 0)).
  assert (i < length (threads (core l)))%nat as Hlt by (by eapply lookup_lt_Some).
  eapply (life_inv_lift l i (TCounted nr) _ p Hl Ht); try done.
  - pose proof (inv_step SUP (LEnter i nr) (core l)) as H. simpl in H. unfold stub_enter in H. rewrite Hth in H.
    eapply H; [apply Hl|done|]. by split.
  - unfold outs. simpl. by rewrite list_fmap_insert.
  - exists (Thread t0 nr p). simpl. by rewrite list_lookup_insert_eq.
Qed.

Lemma good_tramp i l : life_inv l -> good (ETramp i) l (tramp_step i l).
Proof.
  intros Hl. unfold tramp_step. destruct (l_tramp l !! i) as [t|] eqn:Ht; [|done].
  destruct (decide (t = TOut \/ t = TStub)) as [[->| ->]|Hn]; [done..|].
  assert (past_wait (l_exit l) = false) as Hp by (eapply inside_not_past; [done..|naive_solver]).
  assert (forall f, good (ETramp i) l f ->
    good (ETramp i) l (match l_exit l with XGone => Wrong | _ => f end)) as Hg.
  { intros f Hf. by destruct (l_exit l). }
  destruct t as [|nr|nr| | |]; try (destruct Hn; auto; fail).
  - apply Hg. intros _. pose proof (life_inv_tramp l i (TCalled nr) (TCounted nr) Hl Hp Ht eq_refl) as H.
    simpl in H. by rewrite Z.sub_0_r in H.
  - apply Hg. by apply good_enter.
  - apply Hg. intros _. pose proof (life_inv_tramp l i TBack TLeaving Hl Hp Ht eq_refl) as H.
    simpl in H. by rewrite Z.add_0_r in H.
  - apply Hg. intros _. by apply (life_inv_tramp_same l i TLeaving TOut).
Qed.

Lemma good_stub i c l : life_inv l -> good (EStub i c) l (in_stub_step SUP i c l).
Proof.
  intros Hl. unfold in_stub_step. destruct (l_tramp l !! i) as [[]|] eqn:Ht; try done.
  destruct (threads (core l) !! i) as [th|] eqn:Hth; [|done].
  pose proof (in_stub_early l i Hl Ht) as Hx. pose proof (rep_live l (early_rep l Hl Hx)) as Hlive.
  assert (good (EStub i c) l (lift_thread i (stub_step SUP i th c (core l)) l)) as Hg.
  { pose proof (inv_no_ub SUP (LThread i c) (core l) (li_core _ Hl)) as Hub. simpl in Hub. rewrite Hth in Hub.
    destruct (stub_step SUP i th c (core l)) as [| |s'] eqn:E; [done|done|]. simpl. intros (Hq & _).
    destruct (stub_step_frame _ _ _ _ _ _ E) as (p & sx & -> & Hts & Hw & Hc & _ & Hr).
    eapply (life_inv_lift l i TStub _ p Hl Ht); try done.
    - pose proof (inv_step SUP (LThread i c) (core l) (set_pc i p sx)) as H. simpl in H. rewrite Hth in H.
      apply H; [apply Hl|done|]. by split.
    - rewrite outs_set_pc. replace (outs sx) with (outs (core l)) by (unfold outs; by rewrite Hts).
      apply list_eq. intros j. destruct (decide (i = j)) as [<-|Hne].
      + rewrite list_lookup_alter_eq, list_lookup_insert_eq; unfold outs; [|by rewrite length_fmap; eapply lookup_lt_Some].
        by rewrite list_lookup_fmap, Hth.
      + by rewrite list_lookup_alter_ne, list_lookup_insert_ne.
    - exists (Thread (th_task th) (th_nr th) p). simpl. by rewrite list_lookup_alter_eq, Hts, Hth. }
  rewrite bool_decide_true, andb_false_r by done. by destruct Hx as [-> | ->].
Qed.

Lemma good_timer l : life_inv l -> good ETimer l (epoch_step l).
Proof.
  intros Hl.
  assert (past_wait (l_exit l) = true -> timer (core l) = TIdle false) as Hp.
  { intros H. pose proof (li_off _ Hl) as Hoff. unfold off_inv in Hoff.
    apply off_idle_out; [apply Hl|]. by destruct (l_exit l). }
  assert (good ETimer l (lift_core (timer_step (core l)) l)) as Hg.
  { pose proof (inv_no_ub SUP LTimer (core l) (li_core _ Hl)) as Hub. simpl in Hub.
    destruct (timer_step (core l)) as [| |s'] eqn:E; [done|done|]. simpl. intros (Hq & _).
    destruct (past_wait (l_exit l)) eqn:Hpw; [unfold timer_step in E; by rewrite Hp in E|].
    destruct (timer_step_frame _ _ E) as (Ho & Hw & Hc & Hr).
    unfold set_core, set_drv. rewrite (li_count _ Hl).
    apply (life_inv_move l s' (l_tramp l) Hl Hpw); [|by rewrite Ho; apply Hl|done|by apply off_same; [..|apply Hl]].
    eapply (inv_step SUP LTimer); [apply Hl|done|]. by split. }
  unfold epoch_step. destruct (l_exit l) eqn:Hx; try done. by rewrite Hp.
Qed.

Lemma going_off_step a s s' : inv s -> going_off s -> ctl_step a s = Next s' -> going_off s'.
Proof.
  intros Hi Hg Hs. pose proof (iv_ctl _ Hi) as Hct. unfold ctl_inv in Hct. unfold going_off, ctl_step in *.
  destruct (ctl s) eqn:E; try done; simpl in Hs.
  - by injection Hs as <-.
  - destruct (timer s); try done. by injection Hs as <-.
  - destruct (wake_up_queue _) as [[]|]; [|done]. by injection Hs as <-.
  - injection Hs as <-. simpl. by destruct (0 <? _).
  - by injection Hs as <-.
  - destruct (destroy_queue _) as [[]|]; [|done]. injection Hs as <-. simpl. tauto.
Qed.

Lemma good_ctl a l : life_inv l -> good (ECtl a) l (call_step a l).
Proof.
  intros Hl. unfold call_step.
  assert (l_exit l = XLoaded \/ l_exit l = XTurnOff -> good (ECtl a) l (lift_core (ctl_step a (core l)) l)) as Hg.
  { intros Hx. pose proof (inv_no_ub SUP (LCtl a) (core l) (li_core _ Hl)) as Hub. simpl in Hub.
    destruct (ctl_step a (core l)) as [| |s'] eqn:E; [done|done|]. simpl. intros (Hq & Ha & _).
    destruct (ctl_step_frame _ _ _ E) as (Ho & Hr).
    unfold set_core, set_drv. rewrite (li_count _ Hl).
    apply (life_inv_move l s' (l_tramp l) Hl); [by destruct Hx as [-> | ->]| |by rewrite Ho; apply Hl|done|].
    - eapply (inv_step SUP (LCtl a)); [apply Hl|done|]. split; [done|]. intros [= ->]. by apply Ha.
    - pose proof (li_off _ Hl) as Hoff. unfold off_inv in *. simpl.
      destruct Hx as [Hx|Hx]; rewrite Hx in *; [done|]. by eapply going_off_step; [apply Hl|..]. }
  destruct (l_exit l); auto; done.
Qed.

(** *** The interface *)

#[local] Abbreviation ioctl := (sysThrot_ioctl SUP tramp symbols kprobe kp0 ksym).

(** What any call of the interface can do to the driver. *)
Definition ioctl_effect (d d' : driver) : Prop :=
  d_store d' = d_store d /\ hook_inv (d_hook d') /\ text_ok (d_hook d') /\
  (exists U' P', store_rep F (d_mem d') (d_store d) U' P') /\
  (d_core d' = d_core d \/ turn_on_enter (d_core d) = Next (d_core d') \/ turn_off_enter (d_core d) = Next (d_core d')).

Section effect.
Context (d : driver) (U : gset user) (P : gset program).
Context (Hh : hook_inv (d_hook d)) (Ht : text_ok (d_hook d)) (Hr : store_rep F (d_mem d) (d_store d) U P).

Lemma effect_none : ioctl_effect d d.
Proof. split_and!; eauto. Qed.

Lemma effect_store k : wp k (fun _ σ' => exists U' P', store_rep F σ' (d_store d) U' P') (d_mem d) ->
  exists r d', on_store d k = Some (r, d') /\ ioctl_effect d d'.
Proof.
  intros (r & σ' & E & Hr')%wp_inv. unfold on_store. rewrite E. eexists _, _. split; [done|]. split_and!; auto.
Qed.

Lemma effect_user u op out arg :
  (forall F σ U x id, store_rep F σ (d_store d) U P -> F !! id = Some (OInt x) ->
     wp (op (d_store d) id) (fun r σ' => exists U', out U x r U' /\ store_rep F σ' (d_store d) U' P) σ) ->
  exists r d', on_store d (user_command u op (d_store d) arg) = Some (r, d') /\ ioctl_effect d d'.
Proof.
  intros Hop. apply effect_store. eapply wp_mono; [by apply (user_command_ok F (d_store d) u op out arg _ U P)|].
  simpl. intros r σ' (U' & _ & H). eauto.
Qed.

Lemma effect_program u op out arg :
  (forall F σ P x id, store_rep F σ (d_store d) U P -> F !! id = Some (OStr x) ->
     wp (op (d_store d) id) (fun r σ' => exists P', out P x r P' /\ store_rep F σ' (d_store d) U P') σ) ->
  exists r d', on_store d (program_command u op (d_store d) arg) = Some (r, d') /\ ioctl_effect d d'.
Proof.
  intros Hop. apply effect_store. eapply wp_mono; [by apply (program_command_ok F (d_store d) u op out arg _ U P)|].
  simpl. intros r σ' (P' & _ & H). eauto.
Qed.

Lemma effect_hooks u op arg :
  (forall id, exists r h', op id (d_hook d) = Some (r, h') /\ hook_inv h' /\ text_ok h') ->
  exists r d', on_hooks d (syscall_command u op arg) = Some (r, d') /\ ioctl_effect d d'.
Proof.
  intros Hop. destruct (syscall_command_ok u op arg F (d_store d) (d_mem d) U P (d_hook d) Hr) as (r & σ' & h' & E & Hr' & Ho).
  { intros id. destruct (Hop id) as (? & ? & -> & _). eauto. }
  unfold on_hooks. rewrite E. eexists _, _. split; [done|].
  assert (hook_inv h' /\ text_ok h') as [Hh' Ht'].
  { destruct Ho as [(_ & -> & _)|Ho]; [done|]. destruct (copy_int_from_user u arg) as [id|]; [|by destruct Ho as [-> _]].
    destruct (Hop id) as (? & ? & E1 & ?). rewrite Ho in E1. by injection E1 as <- <-. }
  split_and!; eauto.
Qed.

Lemma effect_core s' r : ctl (d_core d) = CIdle r ->
  turn_on_enter (d_core d) = Next s' \/ turn_off_enter (d_core d) = Next s' ->
  exists r d', on_core d (Next s') = Some (r, d') /\ ioctl_effect d d'.
Proof.
  intros Hc Hs. unfold on_core. eexists _, _. split; [done|]. split_and!; eauto.
Qed.
End effect.

Lemma ioctl_total u uid cmd arg d U P r : hook_inv (d_hook d) -> text_ok (d_hook d) ->
  store_rep F (d_mem d) (d_store d) U P -> ctl (d_core d) = CIdle r ->
  exists r d', ioctl u uid cmd arg d = Some (r, d') /\ ioctl_effect d d'.
Proof.
  intros Hh Ht Hr Hc. unfold sysThrot_ioctl.
  assert (forall k, (exists r d', k = Some (r, d') /\ ioctl_effect d d') ->
    exists r d', (if check_root_user uid =? 0 then Some (Ret (- EPERM), d) else k) = Some (r, d') /\ ioctl_effect d d') as Hg.
  { intros k Hk. destruct (check_root_user uid =? 0); [|done]. eexists _, _. split; [done|]. exact (effect_none d U P Hh Ht Hr). }
  destruct (cmd =? _).
  { apply Hg, (effect_user d U P Hh Ht Hr u add_user_to_store add_user_outcome arg). intros F' σ U0 x id. apply add_user_ok. }
  destruct (cmd =? _).
  { apply Hg, (effect_user d U P Hh Ht Hr u remove_user_from_store remove_outcome arg). intros F' σ U0 x id. apply remove_user_ok. }
  destruct (cmd =? _).
  { apply Hg, (effect_program d U P Hh Ht Hr u add_program_to_store add_program_outcome arg). intros F' σ P0 x id. apply add_program_ok. }
  destruct (cmd =? _).
  { apply Hg, (effect_program d U P Hh Ht Hr u remove_program_from_store remove_outcome arg). intros F' σ P0 x id. apply remove_program_ok. }
  destruct (cmd =? _).
  { apply Hg, (effect_hooks d U P Hh Ht Hr). intros id.
    destruct (installProbe_total SUP NR tramp symbols kprobe kp0 ksym Hpf id _ Hh) as (x & h' & E & Hi' & _).
    exists x, h'. split; [exact E|]. split; [exact Hi'|]. exact (install_text_ok id _ x h' Hh Ht E). }
  destruct (cmd =? _).
  { apply Hg, (effect_hooks d U P Hh Ht Hr). intros id.
    destruct (removeProbe_total SUP NR tramp symbols kprobe kp0 ksym Hpf id _ Hh) as (x & h' & E & Hi' & _).
    exists x, h'. split; [exact E|]. split; [exact Hi'|]. exact (remove_text_ok id _ x h' Hh Ht E). }
  destruct (cmd =? _); [apply Hg|].
  { unfold turn_on_enter. rewrite Hc. eapply (effect_core d U P Hh Ht Hr); [exact Hc|]. left. unfold turn_on_enter. by rewrite Hc. }
  destruct (cmd =? _); [apply Hg|].
  { unfold turn_off_enter. rewrite Hc. eapply (effect_core d U P Hh Ht Hr); [exact Hc|]. right. unfold turn_off_enter. by rewrite Hc. }
  eexists _, _. split; [done|]. exact (effect_none d U P Hh Ht Hr).
Qed.

(** Starting a call changes only the controller. *)
Lemma enter_frame s s' : turn_on_enter s = Next s' \/ turn_off_enter s = Next s' ->
  threads s' = threads s /\ reg s' = reg s.
Proof. unfold turn_on_enter, turn_off_enter. destruct (ctl s); intros [Hs|Hs]; try done; by injection Hs as <-. Qed.

Lemma inv_enter_ctl s s' : inv s -> quiet s' -> turn_on_enter s = Next s' \/ turn_off_enter s = Next s' -> inv s'.
Proof.
  intros Hi Hq [Hs|Hs].
  - eapply (inv_step SUP LOn); [done|done|]. by split.
  - eapply (inv_step SUP LOff); [done|done|]. by split.
Qed.

Lemma good_ioctl u uid cmd arg l : life_inv l ->
  good (EIoctl u uid cmd arg) l (ioctl_step SUP tramp symbols kprobe kp0 ksym u uid cmd arg l).
Proof.
  intros Hl. unfold ioctl_step. destruct (l_exit l) eqn:Hx; try done. destruct (ctl (core l)) as [r0| | | | | | | | | |] eqn:Hc; try done.
  destruct (ioctl_total u uid cmd arg (l_drv l) _ _ r0 (li_hook _ Hl) (li_text _ Hl) (early_rep l Hl (or_introl Hx)) Hc)
    as (r & d & -> & Hs & Hh & Ht & (U' & P' & Hr) & Hcore).
  intros (Hq & _). simpl in Hq.
  assert (inv (d_core d) /\ threads (d_core d) = threads (core l)) as [Hinv Hth].
  { destruct Hcore as [-> |Hcore]; [by split; [apply Hl|]|]. split; [|by apply enter_frame].
    eapply inv_enter_ctl; [apply Hl|done|done]. }
  rewrite Hs in *. rewrite (registry_of_rep _ _ _ _ _ Hr). split; try done; simpl.
  - by apply (inv_step SUP (LRegister (Registry U' P')) (d_core d)); [done|done|split].
  - unfold outs. simpl. rewrite Hth. apply Hl.
  - apply Hl.
  - unfold store_inv, rep. simpl. by rewrite Hx.
  - unfold off_inv. simpl. by rewrite Hx.
  - unfold unhook_inv. simpl. by rewrite Hx.
  - by rewrite Hx.
  - unfold res_inv. simpl. by rewrite Hx.
Qed.

Lemma good_exit l : life_inv l -> good EExit l (exit_enter l).
Proof.
  intros Hl. unfold exit_enter. destruct (l_exit l) eqn:Hx; try done.
  destruct (ctl (core l)) as [r0| | | | | | | | | |] eqn:Hc; try done.
  pose proof (early_rep l Hl (or_introl Hx)) as Hr.
  assert (exists s', turn_off_enter (core l) = Next s' /\ going_off s') as (s' & E & Hg).
  { unfold turn_off_enter. rewrite Hc. eexists. split; [done|]. unfold going_off. simpl.
    destruct (working (core l)) eqn:Hw; simpl; done. }
  rewrite E. intros (Hq & _). simpl in Hq. destruct (enter_frame (core l) s' (or_intror E)) as [Hth Hreg].
  split; simpl; try (by apply Hl); try done.
  - by eapply inv_enter_ctl; [apply Hl|done|right].
  - unfold outs. rewrite Hth. apply Hl.
  - unfold store_inv, rep in *. simpl. by rewrite Hreg.
Qed.

(** *** [sysThrot_cleanup] *)

(** A step that changes only where the cleanup is. *)
Lemma life_inv_exit l x : life_inv l -> store_inv (set_exit x l) -> off_inv (set_exit x l) ->
  unhook_inv (set_exit x l) -> (past_wait x = true -> empty (l_tramp l)) -> res_inv (set_exit x l) ->
  life_inv (set_exit x l).
Proof. intros [] ? ? ? ? ?. by split. Qed.

Lemma bitmap_byte l i : life_inv l -> (i < Z.to_nat (NR / 8 + 1))%nat ->
  exists b, syscall_presence_bitmap (d_hook (l_drv l)) !! i = Some b.
Proof. intros Hl Hi. apply lookup_lt_is_Some_2. by rewrite (hi_len _ _ _ _ _ _ (li_hook _ Hl)). Qed.

Lemma good_byte i l : life_inv l -> l_exit l = XByte i ->
  good ECleanup l (cleanup_step SUP NR symbols kprobe kp0 ksym l).
Proof.
  intros Hl Hx. unfold cleanup_step. rewrite Hx.
  pose proof (li_store _ Hl) as Hs. pose proof (li_off _ Hl) as Ho. pose proof (li_unhook _ Hl) as Hu.
  unfold store_inv, off_inv, unhook_inv in Hs, Ho, Hu. rewrite Hx in Hs, Ho, Hu.
  destruct (Nat.ltb_spec i (Z.to_nat (NR / 8 + 1))) as [Hi|Hi].
  - destruct (bitmap_byte l i Hl Hi) as [b Hb]. rewrite Hb. intros _.
    destruct (b =? 0) eqn:E; zbool; simpl; apply life_inv_exit; try done.
    + intros id Hid. destruct (decide (id < Z.of_nat (8 * i))) as [Hlt|Hge]; [apply Hu; lia|].
      change (hooked (syscall_presence_bitmap (d_hook (l_drv l))) id = false).
      unfold hooked. replace (Z.to_nat (id / 8)) with i by (Z.div_mod_to_equations; lia).
      rewrite Hb, E. apply Z.bits_0.
    + split; [|split; [done|lia]]. simpl. by rewrite Nat.add_0_r.
  - intros _. apply life_inv_exit; try done. intros id Hid. simpl.
    destruct (hooked _ id) eqn:Hh; [|done]. rewrite <-Hh. apply Hu. split; [done|].
    pose proof (hi_range _ _ _ _ _ _ (li_hook _ Hl) id Hid Hh). pose proof (pf_table _ _ _ _ _ Hpf). lia.
Qed.

Lemma good_bit i j l : life_inv l -> l_exit l = XBit i j ->
  good ECleanup l (cleanup_step SUP NR symbols kprobe kp0 ksym l).
Proof.
  intros Hl Hx. unfold cleanup_step. rewrite Hx.
  pose proof (li_store _ Hl) as Hs. pose proof (li_off _ Hl) as Ho. pose proof (li_unhook _ Hl) as Hu.
  unfold store_inv, off_inv, unhook_inv in Hs, Ho, Hu. rewrite Hx in Hs, Ho, Hu. destruct Hu as (Hu & Hi & Hj).
  destruct (Nat.ltb_spec j 8) as [Hj8|Hj8].
  2: { intros _. apply life_inv_exit; try done. intros id Hid. apply Hu. lia. }
  destruct (bitmap_byte l i Hl Hi) as [b Hb]. rewrite Hb.
  rewrite land_bit_zero, <-(hooked_byte _ _ _ _ Hb Hj8) by lia. rewrite negb_involutive.
  set (id0 := Z.of_nat i * 8 + Z.of_nat j).
  destruct (hooked (syscall_presence_bitmap (d_hook (l_drv l))) id0) eqn:Hh.
  - destruct (remove_hooked SUP NR tramp symbols kprobe kp0 ksym Hpf id0 _ (li_hook _ Hl) ltac:(unfold id0; lia) Hh)
      as (h' & E & Hi' & Hset & _).
    rewrite E. intros _. pose proof (remove_text_ok _ _ _ _ (li_hook _ Hl) (li_text _ Hl) E) as Ht'.
    destruct Hl as []. split; try done. simpl. split; [|split; [done|lia]]. simpl.
    intros id Hid. rewrite Hset by lia. case_bool_decide as Hd; [done|]. simpl. apply Hu. unfold id0 in Hd. lia.
  - intros _. apply life_inv_exit; try done. split; [|split; [done|lia]]. simpl.
    intros id Hid. destruct (decide (id = id0)) as [-> |Hd]; [done|]. apply Hu. unfold id0 in Hd. lia.
Qed.

Lemma settled_out t : counted t = false -> settled t -> t = TOut.
Proof. by destruct t. Qed.

Lemma good_wait l : life_inv l -> l_exit l = XWait ->
  good ECleanup l (cleanup_step SUP NR symbols kprobe kp0 ksym l).
Proof.
  intros Hl Hx. unfold cleanup_step. rewrite Hx.
  destruct (0 <? l_counter l) eqn:Hc; zbool; [by intros _|]. intros (_ & _ & Hset).
  specialize (Hset Hx eq_refl). pose proof (li_store _ Hl) as Hs. pose proof (li_off _ Hl) as Ho.
  pose proof (li_unhook _ Hl) as Hu. unfold store_inv, off_inv, unhook_inv in Hs, Ho, Hu. rewrite Hx in Hs, Ho, Hu.
  apply life_inv_exit; try done. intros _. apply Forall_forall. intros t Ht.
  pose proof (proj1 (Forall_forall _ _) Hset t Ht) as Hst. simpl in Hst. apply settled_out; [|done].
  apply (count_zero (l_tramp l)); [|done]. rewrite <-(li_count _ Hl).
  pose proof (count_range (l_tramp l)). rewrite (li_count _ Hl) in *. lia.
Qed.

(** After the wait: the store, the device and the /proc file in turn. *)
Lemma good_teardown l : life_inv l -> past_wait (l_exit l) = true ->
  good ECleanup l (cleanup_step SUP NR symbols kprobe kp0 ksym l).
Proof.
  intros Hl Hp. unfold cleanup_step. pose proof (li_empty _ Hl Hp) as He.
  pose proof (li_store _ Hl) as Hs. pose proof (li_off _ Hl) as Ho. pose proof (li_unhook _ Hl) as Hu.
  pose proof (li_res _ Hl) as Hr.
  unfold store_inv, off_inv, unhook_inv, res_inv in Hs, Ho, Hu, Hr.
  destruct (l_exit l) eqn:Hx; try done.
  - intros _. by apply life_inv_exit.
  - destruct (wp_inv _ _ _ (destroy_store_ok _ _ _ _ _ Hs)) as (r & σ' & E & _ & Hh). rewrite E. intros _.
    destruct Hl as []. by split.
  - intros _. destruct Hl as []. by split.
  - intros _. destruct Hl as []. split; try done; simpl.
    + by eapply inv_same.
    + unfold res_inv. simpl. rewrite Hr. done.
Qed.

Lemma good_turned_off l : life_inv l -> l_exit l = XTurnOff ->
  good ECleanup l (cleanup_step SUP NR symbols kprobe kp0 ksym l).
Proof.
  intros Hl Hx. unfold cleanup_step. rewrite Hx. destruct (ctl (core l)) as [r| | | | | | | | | |] eqn:Hc; try done.
  intros _. pose proof (early_rep l Hl (or_intror Hx)) as Hr.
  pose proof (li_off _ Hl) as Ho. unfold off_inv, going_off in Ho. rewrite Hx, Hc in Ho.
  apply life_inv_exit; try done.
  - unfold off_inv, off_idle. simpl. eauto.
  - intros id Hid. lia.
Qed.

Lemma good_step e l : life_inv l -> good e l (life_step SUP NR tramp symbols kprobe kp0 ksym e l).
Proof.
  intros Hl. destruct e; simpl.
  - by apply good_call.
  - by apply good_tramp.
  - by apply good_stub.
  - by apply good_timer.
  - by apply good_ioctl.
  - by apply good_ctl.
  - by apply good_exit.
  - destruct (past_wait (l_exit l)) eqn:Hp; [by apply good_teardown|].
    destruct (l_exit l) eqn:Hx; try done; [unfold cleanup_step; by rewrite Hx|..].
    + by apply good_turned_off.
    + by eapply good_byte.
    + by eapply good_bit.
    + by apply good_wait.
Qed.
End life.
