(* ===== verification/UnloadLive.v ===== *)
(** * [sysThrot_cleanup] terminates

    Once [sysThrot_turn_off] has returned, every fair schedule brings the
    cleanup to its end: the unhooking loop is bounded, afterwards no thread
    enters the trampoline any more and those inside leave it, so the loop on
    [sysThrot_stub_counter] ends. *)

From stdpp Require Import prelude gmap list.
From S2P Require Import Prelude Kernel Store StoreProofs StoreSpec Queue Stats Core CoreProofs Hook HookSpec.
From S2P Require Import Ioctl Device Unload UnloadProofs.

Section live.
Context (SUP NR tramp : Z) (symbols : Z -> option (list Z)) (kprobe : option (list Z) -> kprobe_result).
Context (kp0 : kprobe_result) (ksym : patch_symbol -> Z).
Context (Hpf : platform SUP NR tramp symbols kprobe) (F : gmap loc obj).

#[local] Abbreviation step := (life_step SUP NR tramp symbols kprobe kp0 ksym).
#[local] Abbreviation life_inv := (life_inv SUP NR tramp symbols kprobe F).

(** One scheduled event; one that is not enabled changes nothing. *)
Definition advance (e : event) (l : life) : life :=
  match step e l with Go l' => l' | _ => l end.

Definition recurring (n : nat) (e : event) : Prop :=
  e = ECleanup \/ exists i, (i < n)%nat /\ e = ETramp i.

(** Every thread and the cleanup are scheduled again and again. *)
Definition fair (sched : nat -> event) (n : nat) : Prop :=
  forall e k, recurring n e -> exists m, (k <= m)%nat /\ sched m = e.

(** No event adds or removes a thread. *)
Lemma advance_length e l : length (l_tramp (advance e l)) = length (l_tramp l).
Proof.
  unfold advance. destruct e as [i nr|i|i c| |u uid cmd arg|a| |]; simpl.
  - unfold call_wrapper. repeat case_match; simplify_eq; try done. apply length_insert.
  - unfold tramp_step, lift_thread. repeat case_match; simplify_eq; try done; apply length_insert.
  - unfold in_stub_step, lift_thread. repeat case_match; simplify_eq; try done; apply length_insert.
  - unfold epoch_step, lift_core. repeat case_match; simplify_eq; done.
  - unfold ioctl_step. repeat case_match; simplify_eq; done.
  - unfold call_step, lift_core. repeat case_match; simplify_eq; done.
  - unfold exit_enter, lift_core. repeat case_match; simplify_eq; done.
  - unfold cleanup_step. repeat case_match; simplify_eq; done.
Qed.

Lemma run_length sched l n : length (l_tramp (sched_run advance sched l n)) = length (l_tramp l).
Proof. induction n as [|n IH]; [done|]. cbn [sched_run]. by rewrite advance_length. Qed.

(** ** The unhooking loop *)

Definition unhooking (x : exit_pc) : bool := match x with XByte _ | XBit _ _ => true | _ => false end.

Definition loop_rank (l : life) : nat :=
  let n := Z.to_nat (NR / 8 + 1) in
  match l_exit l with
  | XByte i => 10 * (n - i) + 1
  | XBit i j => 10 * (n - i) - j
  | _ => 0
  end.

(** Only the cleanup moves the cleanup. *)
Lemma exit_kept e l : unhooking (l_exit l) = true \/ past_wait (l_exit l) = true \/ l_exit l = XWait ->
  e = ECleanup \/ l_exit (advance e l) = l_exit l.
Proof.
  intros Hx.
  assert (l_exit l <> XLoaded /\ l_exit l <> XTurnOff) as [H1 H2].
  { split; intros He; rewrite He in Hx; simpl in Hx; naive_solver. }
  destruct e as [i nr|i|i c| |u uid cmd arg|a| |]; [right..|by left]; unfold advance; simpl.
  - unfold call_wrapper. destruct (l_tramp l !! i) as [[]|]; try done. by destruct (intercepted _ _ _ _ _).
  - unfold tramp_step, lift_thread. destruct (l_tramp l !! i) as [[]|]; try done; destruct (l_exit l) eqn:E; simpl; try done;
      destruct (stub_enter _ _ _); simpl; done.
  - unfold in_stub_step, lift_thread. destruct (l_tramp l !! i) as [[]|]; try done.
    destruct (threads (core l) !! i); [|done]. destruct (l_exit l) eqn:E; try done;
      destruct (_ && _); simpl; try done; destruct (stub_step _ _ _ _ _); done.
  - unfold epoch_step, lift_core.
    destruct (l_exit l) eqn:E, (timer (core l)) as [[]| | | | | | |]; try done; destruct (timer_step _); done.
  - unfold ioctl_step. destruct (l_exit l) eqn:E; simpl; congruence.
  - unfold call_step. destruct (l_exit l) eqn:E; simpl; congruence.
  - unfold exit_enter. destruct (l_exit l) eqn:E; simpl; congruence.
Qed.

(** In these phases every event but the last reading of the counter is calm. *)
Lemma calm_off e l l' : life_inv l -> unhooking (l_exit l) = true -> step e l = Go l' -> calm e l l'.
Proof.
  intros Hl Hu Hs.
  assert (off_idle (core l)) as [Hw [r Hc]].
  { pose proof (li_off _ _ _ _ _ _ _ Hl) as H. unfold off_inv in H. by destruct (l_exit l). }
  split_and!.
  - assert (exists r, ctl (core l') = CIdle r) as [r' Hr]; [|intros Hd; congruence].
    destruct e as [i nr|i|i c| |u uid cmd arg|a| |]; simpl in Hs.
    + unfold call_wrapper in Hs. destruct (l_tramp l !! i) as [[]|]; try done.
      destruct (intercepted _ _ _ _ _); [|done]. injection Hs as <-. by exists r.
    + unfold tramp_step in Hs. destruct (l_tramp l !! i) as [[]|]; try done; destruct (l_exit l); try done;
        unfold lift_thread, stub_enter in Hs; repeat case_match; simplify_eq; by exists r.
    + unfold in_stub_step in Hs. destruct (l_tramp l !! i) as [[]|] eqn:Ht; try done.
      destruct (in_stub_early _ _ _ _ _ _ l i Hl Ht) as [Hx|Hx]; by rewrite Hx in Hu.
    + unfold epoch_step in Hs. destruct (off_idle_out _ (li_core _ _ _ _ _ _ _ Hl) (conj Hw (ex_intro _ _ Hc))) as [_ Ht].
      unfold timer_step in Hs. rewrite Ht in Hs. by destruct (l_exit l).
    + unfold ioctl_step in Hs. by destruct (l_exit l).
    + unfold call_step in Hs. by destruct (l_exit l).
    + unfold exit_enter in Hs. by destruct (l_exit l).
    + unfold cleanup_step in Hs. destruct (l_exit l); try done; repeat case_match; simplify_eq; by exists r.
  - by rewrite Hc.
  - intros Hx. by rewrite Hx in Hu.
Qed.

Lemma advance_inv e l : life_inv l -> unhooking (l_exit l) = true -> life_inv (advance e l).
Proof.
  intros Hl Hu. pose proof (good_step SUP NR tramp symbols kprobe kp0 ksym Hpf F e l Hl) as Hg.
  unfold advance. destruct (step e l) as [| |l'] eqn:E; try done. apply Hg. by apply calm_off.
Qed.

(** The cleanup's own step lowers the rank, and moves on within the loop or
    to the wait. *)
Lemma unhook_step l : life_inv l -> unhooking (l_exit l) = true ->
  (loop_rank (advance ECleanup l) < loop_rank l)%nat /\
  (unhooking (l_exit (advance ECleanup l)) = true \/ l_exit (advance ECleanup l) = XWait).
Proof.
  intros Hl Hu. pose proof (good_step SUP NR tramp symbols kprobe kp0 ksym Hpf F ECleanup l Hl) as Hg.
  pose proof (li_unhook _ _ _ _ _ _ _ Hl) as Hun. unfold unhook_inv in Hun.
  unfold advance, loop_rank. simpl in *. unfold cleanup_step in *.
  destruct (l_exit l) as [| |i|i j| | | | | |] eqn:Hx; try done.
  - destruct (Nat.ltb_spec i (Z.to_nat (NR / 8 + 1))) as [Hi|Hi]; [|simpl; split; [lia|by right]].
    destruct (_ !! i) as [b|]; [|done]. destruct (negb (b =? 0)); simpl; (split; [lia|by left]).
  - destruct Hun as (_ & Hi & Hj). destruct (Nat.ltb_spec j 8) as [Hj8|Hj8]; [|simpl; split; [lia|by left]].
    destruct (_ !! i) as [b|]; [|done]. destruct (negb (_ =? 0)); [|simpl; split; [lia|by left]].
    destruct (removeProbe _ _ _ _ _ _ _) as [[]|]; [|done]. simpl. split; [lia|by left].
Qed.

Lemma unhooking_ends sched n l k : fair sched n ->
  life_inv (sched_run advance sched l k) -> unhooking (l_exit (sched_run advance sched l k)) = true ->
  exists m, life_inv (sched_run advance sched l m) /\ l_exit (sched_run advance sched l m) = XWait.
Proof.
  intros Hf Hl Hu.
  apply (fair_reaches advance (fun l => life_inv l /\ unhooking (l_exit l) = true)
    (fun l => life_inv l /\ l_exit l = XWait) loop_rank (recurring n)) with (n := k); try done.
  - intros e l0 [Hl0 Hu0]. pose proof (advance_inv e l0 Hl0 Hu0).
    destruct (exit_kept e l0 (or_introl Hu0)) as [-> |He]; [|left; by rewrite He].
    destruct (unhook_step l0 Hl0 Hu0) as [_ [?|?]]; auto.
  - intros e l0 [Hl0 Hu0]. destruct (exit_kept e l0 (or_introl Hu0)) as [-> |He].
    + pose proof (unhook_step l0 Hl0 Hu0). lia.
    + unfold loop_rank. by rewrite He.
  - intros l0 [Hl0 Hu0]. right. exists ECleanup. split; [by left|]. by apply unhook_step.
  - intros e e' l0 [Hl0 Hu0] [Hl1 Hu1] He Heq. unfold helpful in *.
    destruct (exit_kept e l0 (or_introl Hu0)) as [-> |He0]; [by apply unhook_step|].
    exfalso. unfold loop_rank in He. rewrite He0 in He. lia.
Qed.

(** ** The wait and the rest *)

Definition tramp_rank (t : tramp_pc) : nat :=
  match t with TOut | TStub => 0 | TLeaving => 1 | TBack => 2 | TCounted _ => 3 | TCalled _ => 4 end.
Definition exit_rank (x : exit_pc) : nat :=
  match x with XWait => 5 | XRcu => 4 | XStore => 3 | XDevice => 2 | XProc => 1 | _ => 0 end.
Definition end_rank (l : life) : nat :=
  (sum_list (tramp_rank <$> l_tramp l) + exit_rank (l_exit l))%nat.

(** What is left of the invariant without the proviso on the last reading of
    the counter. *)
Record winding (n : nat) (l : life) : Prop := {
  wd_exit : l_exit l = XWait \/ past_wait (l_exit l) = true;
  wd_calls nr : intercepted tramp symbols kprobe (d_hook (l_drv l)) nr = false;
  wd_off : off_idle (core l);
  wd_out : all_out (threads (core l));
  wd_timer : timer (core l) = TIdle false;
  wd_stub : Forall (fun t => t <> TStub) (l_tramp l);
  wd_len : length (l_tramp l) = n /\ length (threads (core l)) = n;
  wd_small : Z.of_nat n < 2 ^ 31;
  wd_count : l_counter l = count (l_tramp l);
  wd_store : store_inv F l;
}.

Lemma life_inv_winding l : life_inv l -> l_exit l = XWait -> winding (length (l_tramp l)) l.
Proof.
  intros Hl Hx. pose proof (li_off _ _ _ _ _ _ _ Hl) as Hoff. unfold off_inv in Hoff. rewrite Hx in Hoff.
  destruct (off_idle_out _ (li_core _ _ _ _ _ _ _ Hl) Hoff) as [Hall Ht].
  pose proof (lengths _ _ _ _ _ _ _ Hl) as Hlen. split; try done.
  - by left.
  - intros nr. apply (li_text _ _ _ _ _ _ _ Hl). unfold marked. destruct (0 <=? nr) eqn:E; [|done]. zbool.
    pose proof (li_unhook _ _ _ _ _ _ _ Hl) as Hu. unfold unhook_inv in Hu. rewrite Hx in Hu. by apply Hu.
  - apply Forall_forall. intros t Hin ->. apply list_elem_of_lookup_1 in Hin as [i Hi].
    destruct (in_stub_early _ _ _ _ _ _ _ _ Hl Hi); congruence.
  - pose proof (iv_small _ (li_core _ _ _ _ _ _ _ Hl)). lia.
  - apply Hl.
  - apply Hl.
Qed.

Lemma sum_insert i t t' (ts : list tramp_pc) : ts !! i = Some t ->
  (sum_list (tramp_rank <$> <[i := t']> ts) + tramp_rank t = sum_list (tramp_rank <$> ts) + tramp_rank t')%nat.
Proof. revert i. induction ts as [|t0 ts IH]; intros [|i] Hi; simplify_eq/=; [lia|]. specialize (IH i Hi). lia. Qed.

(** A step of a thread that only moves it down the trampoline. *)
Lemma winding_move n l i t t' z s' : winding n l -> l_tramp l !! i = Some t -> t' <> TStub ->
  (tramp_rank t' < tramp_rank t)%nat ->
  z = l_counter l + (if counted t' then 1 else 0) - (if counted t then 1 else 0) ->
  off_idle s' -> all_out (threads s') -> timer s' = TIdle false -> length (threads s') = n ->
  reg s' = reg (core l) ->
  let l' := set_tramp i t' (set_stub_counter z (set_core s' l)) in winding n l' /\ (end_rank l' < end_rank l)%nat.
Proof.
  intros [] Ht Hn Hr -> Ho Ha Htm Hlen Hreg l'. pose proof (count_insert i t t' (l_tramp l) Ht) as Hc.
  pose proof (count_range (<[i := t']> (l_tramp l))) as Hcr. rewrite length_insert in Hcr.
  split; [split|]; try done; simpl.
  - by apply Forall_insert.
  - rewrite length_insert. tauto.
  - rewrite wd_count0, s32_id; lia.
  - unfold store_inv, rep in *. simpl. by rewrite Hreg.
  - unfold end_rank. simpl. pose proof (sum_insert i t t' (l_tramp l) Ht). lia.
Qed.

Lemma winding_tramp n i l : winding n l ->
  advance (ETramp i) l = l \/ (winding n (advance (ETramp i) l) /\ (end_rank (advance (ETramp i) l) < end_rank l)%nat).
Proof.
  intros Hw. unfold advance. simpl. unfold tramp_step. destruct (l_tramp l !! i) as [t|] eqn:Ht; [|by left].
  assert (set_core (core l) l = l) as Hid by (by destruct l as [[] ? ? ? ?]).
  pose proof (winding_move n l i t) as Hm. pose proof Hw as [Hx Hcalls Ho Ha Htm Hs Hlen Hsm Hct Hst].
  assert (forall f, match l_exit l with XGone => Wrong | _ => f end = Wrong \/
    match l_exit l with XGone => Wrong | _ => f end = f) as Hg by (intros f; destruct (l_exit l); auto).
  destruct t as [|nr|nr| | |]; [by left| | |by left| |].
  - destruct (Hg (Go (set_tramp i (TCounted nr) (set_stub_counter (l_counter l + 1) l)))) as [-> | ->]; [by left|right].
    destruct (Hm (TCounted nr) (l_counter l + 1) (core l)) as [H1 H2]; simpl; try done; try lia; try tauto.
    by rewrite Hid in H1, H2.
  - destruct (Hg (lift_thread i (stub_enter i nr (core l)) l)) as [-> | ->]; [by left|right].
    destruct (lookup_lt_is_Some_2 (threads (core l)) i) as [[tk nr0 p0] Hth].
    { destruct Hlen as [H1 H2]. rewrite H2, <-H1. by eapply lookup_lt_Some. }
    pose proof (Forall_lookup_1 _ _ _ _ Ha Hth) as Hp. simpl in Hp. destruct p0 as [r| | | | | | | | | | | | |]; try done.
    unfold stub_enter. rewrite Hth. rewrite (proj1 Ho). simpl.
    assert (i < length (threads (core l)))%nat as Hlt by (by eapply lookup_lt_Some).
    set (s' := set_threads (<[i := Thread tk nr (POut (Some 0))]> (threads (core l))) (core l)).
    replace (tramp_of s' i) with TBack by (unfold tramp_of; simpl; by rewrite list_lookup_insert_eq).
    assert (set_stub_counter (l_counter l) (set_core s' l) = set_core s' l) as Hid'.
    { unfold set_stub_counter. simpl. pose proof (count_range (l_tramp l)). rewrite Hct, s32_id by lia. by rewrite <-Hct. }
    destruct (Hm TBack (l_counter l) s') as [H1 H2]; simpl; try done; try lia.
    + by apply Forall_insert.
    + rewrite length_insert. tauto.
    + by rewrite Hid' in H1, H2.
  - destruct (Hg (Go (set_tramp i TLeaving (set_stub_counter (l_counter l - 1) l)))) as [-> | ->]; [by left|right].
    destruct (Hm TLeaving (l_counter l - 1) (core l)) as [H1 H2]; simpl; try done; try lia; try tauto.
    by rewrite Hid in H1, H2.
  - destruct (Hg (Go (set_tramp i TOut l))) as [-> | ->]; [by left|right].
    destruct (Hm TOut (l_counter l) (core l)) as [H1 H2]; simpl; try done; try lia; try tauto.
    assert (set_stub_counter (l_counter l) l = l) as Hid'.
    { unfold set_stub_counter. pose proof (count_range (l_tramp l)). rewrite Hct, s32_id by lia. rewrite <-Hct. by destruct l. }
    by rewrite Hid, Hid' in H1, H2.
Qed.

Lemma winding_cleanup n l : winding n l ->
  (advance ECleanup l = l /\ (l_exit l = XGone \/ l_exit l = XWait /\ 0 < l_counter l)) \/
  (winding n (advance ECleanup l) /\ (end_rank (advance ECleanup l) < end_rank l)%nat).
Proof.
  intros Hw. pose proof Hw as [Hx _ Ho _ _ _ _ _ _ Hst]. unfold advance. simpl. unfold cleanup_step.
  unfold end_rank, store_inv in *. destruct (l_exit l) eqn:E; try (by destruct Hx as [?|?]).
  - destruct (0 <? l_counter l) eqn:Hc; zbool; [left; auto|right]. simpl. split; [|simpl; lia].
    destruct Hw. split; try done; try by right.
  - right. split; [|simpl; lia]. destruct Hw. split; try done; try by right.
  - destruct (wp_inv _ _ _ (destroy_store_ok _ _ _ _ _ Hst)) as (r & σ' & -> & _ & Hh). right. split; [|simpl; lia].
    destruct Hw. split; try done; try by right.
  - right. split; [|simpl; lia]. destruct Hw. split; try done; try by right.
  - right. split; [|simpl; lia]. destruct Hw. split; try done; try by right.
  - left. auto.
Qed.

(** Nothing else is enabled. *)
Lemma winding_step n e l : winding n l ->
  advance e l = l \/ (winding n (advance e l) /\ (end_rank (advance e l) < end_rank l)%nat).
Proof.
  intros Hw. pose proof Hw as [Hx Hcalls Ho Ha Htm Hs Hlen Hsm Hct Hst].
  destruct e as [i nr|i|i c| |u uid cmd arg|a| |]; unfold advance; simpl.
  - left. unfold call_wrapper. rewrite Hcalls. by destruct (l_tramp l !! i) as [[]|].
  - by apply winding_tramp.
  - left. unfold in_stub_step. destruct (l_tramp l !! i) as [[]|] eqn:Ht; try done.
    by pose proof (Forall_lookup_1 _ _ _ _ Hs Ht).
  - left. unfold epoch_step, timer_step. rewrite Htm. by destruct (l_exit l).
  - left. unfold ioctl_step. destruct (l_exit l); try done. by destruct Hx.
  - left. unfold call_step. destruct (l_exit l); try done; by destruct Hx.
  - left. unfold exit_enter. destruct (l_exit l); try done. by destruct Hx.
  - destruct (winding_cleanup n l Hw) as [[? _]|?]; auto.
Qed.

Lemma count_pos ts : 0 < count ts -> exists i t, ts !! i = Some t /\ counted t = true.
Proof.
  induction ts as [|t ts IH]; [done|]. rewrite count_cons. destruct (counted t) eqn:E.
  - intros _. by exists 0%nat, t.
  - intros H. destruct IH as (i & t' & Hi & Hc); [lia|]. by exists (S i), t'.
Qed.

(** Until the end some thread or the cleanup can take a useful step. *)
Lemma winding_help n l : winding n l ->
  l_exit l = XGone \/ exists e, recurring n e /\ helpful advance end_rank e l.
Proof.
  intros Hw. destruct (winding_cleanup n l Hw) as [[_ [?|[Hx Hc]]]|[_ Hr]]; [by left| |].
  - right. pose proof Hw as [_ _ _ _ _ Hs Hlen _ Hct _]. rewrite Hct in Hc.
    destruct (count_pos _ Hc) as (i & t & Hi & Ht). exists (ETramp i). split.
    + right. exists i. split; [|done]. rewrite <-(proj1 Hlen). by eapply lookup_lt_Some.
    + destruct (winding_tramp n i l Hw) as [Heq|[_ ?]]; [|done]. exfalso.
      pose proof (Forall_lookup_1 _ _ _ _ Hs Hi) as Hns.
      assert (l_tramp (advance (ETramp i) l) !! i <> Some t) as Hne; [|by rewrite Heq in Hne].
      assert (i < length (l_tramp l))%nat as Hlt by (by eapply lookup_lt_Some).
      unfold advance. simpl. unfold tramp_step. rewrite Hi, Hx. destruct t as [|nr|nr| | |]; try done; simpl.
      * destruct (lookup_lt_is_Some_2 (threads (core l)) i) as [[tk nr0 p0] Hth]; [destruct Hlen; lia|].
        pose proof (Forall_lookup_1 _ _ _ _ (wd_out _ _ Hw) Hth) as Hp. simpl in Hp. destruct p0; try done.
        unfold stub_enter. rewrite Hth. simpl. rewrite list_lookup_insert_eq by done. unfold tramp_of. by repeat case_match.
      * by rewrite list_lookup_insert_eq.
  - right. exists ECleanup. split; [by left|done].
Qed.

Lemma winding_ends sched n l k : fair sched n -> winding n (sched_run advance sched l k) ->
  exists m, l_exit (sched_run advance sched l m) = XGone.
Proof.
  intros Hf Hw.
  apply (fair_reaches advance (winding n) (fun l => l_exit l = XGone) end_rank (recurring n)) with (n := k); try done.
  - intros e l0 H0. left. destruct (winding_step n e l0 H0) as [-> |[? _]]; done.
  - intros e l0 H0. destruct (winding_step n e l0 H0) as [-> |[_ ?]]; lia.
  - apply winding_help.
  - intros e e' l0 H0 _ He Heq. destruct (winding_step n e' l0 H0) as [-> |[_ ?]]; [done|lia].
Qed.
End live.
