(* ===== verification/UnloadSpec.v ===== *)
(** * Properties of the module's life

    From [sysThrot_init] to the end of [sysThrot_cleanup], with all components
    running (see [Unload.v]): nothing is used after it was freed and nothing is
    left behind, provided no thread is at one of the two places where it runs
    the module's text uncounted; and what happens when one is. *)

From stdpp Require Import prelude gmap list.
From S2P Require Import Prelude Kernel Store StoreProofs StoreSpec Queue Stats Core CoreProofs CoreSpec Hook HookSpec.
From S2P Require Import Ioctl Device Unload UnloadProofs UnloadLive.

(** ** The module after loading *)

Lemma turn_on_inv m r tasks mon : Z.of_nat (length tasks) < 2 ^ 31 ->
  inv (turn_on_alone true (set_stats mon (init_state m r tasks))).2.
Proof.
  intros Hl. pose proof (inv_init m r tasks Hl) as H0.
  set (s0 := set_stats mon (init_state m r tasks)).
  assert (inv s0) as H by (by apply (inv_same (init_state m r tasks))).
  assert (forall l s, inv s -> match step 0 l s with Next s' => ctl s' <> COffDestroy /\ l <> LCtl false -> inv s' | _ => True end) as Hs.
  { intros l s Hi. destruct (step 0 l s) eqn:E; try done. intros [Hd Hn].
    eapply inv_step; [done|done|]. split; [by intros ?|by intros ->]. }
  pose proof (Hs LOn s0 H ltac:(done)) as H1.
  pose proof (Hs (LCtl true) _ H1 ltac:(done)) as H2.
  pose proof (Hs (LCtl true) _ H2 ltac:(done)) as H3.
  pose proof (Hs (LCtl true) _ H3 ltac:(done)) as H4.
  exact (Hs (LCtl true) _ H4 ltac:(done)).
Qed.

Lemma turn_on_threads c m r tasks mon :
  outs (turn_on_alone c (set_stats mon (init_state m r tasks))).2 = replicate (length tasks) true /\
  reg (turn_on_alone c (set_stats mon (init_state m r tasks))).2 = r.
Proof.
  assert (outs (init_state m r tasks) = replicate (length tasks) true) as <-.
  { unfold outs. simpl. induction tasks as [|t ts IH]; [done|]. simpl. f_equal. exact IH. }
  by destruct c.
Qed.

Section loaded.
Context (SUP NR tramp : Z) (symbols : Z -> option (list Z)) (kprobe : option (list Z) -> kprobe_result).
Context (kp0 : kprobe_result) (ksym : patch_symbol -> Z).

#[local] Abbreviation step := (life_step SUP NR tramp symbols kprobe kp0 ksym).

(** The module was loaded, its store and its slab cache could be created, and
    no wrapper of the kernel's text [t] called the trampoline before. *)
Record loaded (k : kernel_results) (m : Z) (tasks : list task) (σ : mem obj) (md : module) (sp : loc) (t : text) : Prop := {
  ld_init : sysThrot_init k m tasks σ = Some (0, md);
  ld_store : exists σ', init_sysThrot_store σ = Some ((0, Some sp), σ');
  ld_cache : kr_cache k = true;
  ld_wf : mem_wf σ;
  ld_small : Z.of_nat (length tasks) < 2 ^ 31;
  ld_text nr : intercepted tramp symbols kprobe (hook0 SUP NR t) nr = false;
}.

Lemma loaded_module k m tasks σ md sp t : loaded k m tasks σ md sp t ->
  store_rep (heap σ) (m_mem md) sp ∅ ∅ /\
  m_core md = (turn_on_alone true (set_stats (Monitor [] 0) (init_state m (Registry ∅ ∅) tasks))).2.
Proof.
  intros [Hi [σ1 E] Hc Hwf _ _]. unfold sysThrot_init in Hi. rewrite E, Hc in Hi. cbn [mbind option_bind] in Hi.
  destruct (wp_inv _ _ _ (init_store_ok σ Hwf)) as ([r0 p] & σ2 & E2 & Hst). rewrite E in E2.
  injection E2 as <- <- <-. cbn [fst snd] in Hst.
  destruct Hst as [(_ & sp0 & [= <-] & Hr)|[H0 _]]; [|done].
  destruct (device_driver_init k no_resources) as [ret res].
  destruct (ret <? 0) eqn:Hret; [injection Hi as -> _; done|].
  destruct (sysThrot_statmonitor_init _ _) as [ret2 mon] eqn:Em. injection Em as _ <-.
  destruct (ret2 <? 0) eqn:Hret2; [injection Hi as -> _; done|].
  destruct (turn_on_alone true _) as [ret3 s] eqn:Et.
  destruct (ret3 <? 0) eqn:Hret3; [injection Hi as -> _; done|].
  injection Hi as <-. cbn [m_mem m_core]. by split.
Qed.

Lemma loaded_length k m tasks σ md sp t : loaded k m tasks σ md sp t -> length (l_tramp (life0 SUP NR md sp t)) = length tasks.
Proof.
  intros Hl. destruct (loaded_module _ _ _ _ _ _ _ Hl) as [_ Hm]. simpl. rewrite length_replicate.
  pose proof (turn_on_threads true m (Registry ∅ ∅) tasks (Monitor [] 0)) as [Ho _]. rewrite <-Hm in Ho.
  apply (f_equal length) in Ho. unfold outs in Ho. by rewrite length_fmap, length_replicate in Ho.
Qed.

Lemma loaded_inv k m tasks σ md sp t : loaded k m tasks σ md sp t ->
  life_inv SUP NR tramp symbols kprobe (heap σ) (life0 SUP NR md sp t).
Proof.
  intros Hl. destruct (loaded_module _ _ _ _ _ _ _ Hl) as [Hr Hm]. destruct Hl as [Hi Hs Hc Hwf Hsm Ht].
  pose proof (turn_on_threads true m (Registry ∅ ∅) tasks (Monitor [] 0)) as [Ho Hreg]. rewrite <-Hm in Ho, Hreg.
  split; simpl; try done.
  - rewrite Hm. by apply turn_on_inv.
  - rewrite Ho, !fmap_replicate. f_equal. pose proof (f_equal length Ho) as H. unfold outs in H.
    by rewrite length_fmap, length_replicate in H.
  - unfold count. rewrite fmap_replicate. by induction (length (threads (m_core md))).
  - apply hook0_inv.
  - intros nr _. apply Ht.
  - unfold store_inv, rep. simpl. by rewrite Hreg.
Qed.

(** The states of a calm life. *)
Inductive lives (l0 : life) : life -> Prop :=
| lives_refl : lives l0 l0
| lives_step e l l' : lives l0 l -> step e l = Go l' -> calm e l l' -> lives l0 l'.

Context (Hpf : platform SUP NR tramp symbols kprobe).

Lemma lives_inv F l0 l : life_inv SUP NR tramp symbols kprobe F l0 -> lives l0 l ->
  life_inv SUP NR tramp symbols kprobe F l.
Proof.
  intros H0. induction 1 as [|e l l' _ IH Hs Hc]; [done|].
  pose proof (good_step SUP NR tramp symbols kprobe kp0 ksym Hpf F e l IH) as Hg. rewrite Hs in Hg. by apply Hg.
Qed.

(** ** The cleanup's steps and its loop *)

Lemma live_app es1 es2 l : live SUP NR tramp symbols kprobe kp0 ksym (es1 ++ es2) l =
  match live SUP NR tramp symbols kprobe kp0 ksym es1 l with
  | Go l' => live SUP NR tramp symbols kprobe kp0 ksym es2 l'
  | f => f
  end.
Proof.
  revert l. induction es1 as [|e es1 IH]; intros l; [done|]. simpl. by destruct (step e l).
Qed.

#[local] Abbreviation live := (live SUP NR tramp symbols kprobe kp0 ksym).

(** Running on from where [k] steps of the cleanup have led. *)
Lemma cleanup_more l l' f : (exists n, live (replicate n ECleanup) l = Go l') ->
  (exists n, live (replicate n ECleanup) l' = f) -> exists n, live (replicate n ECleanup) l = f.
Proof. intros [n Hn] [k Hk]. exists (n + k)%nat. by rewrite replicate_add, live_app, Hn. Qed.

Lemma cleanup_one l f : step ECleanup l = f -> f <> Stuck -> exists n, live (replicate n ECleanup) l = f.
Proof. intros Hs Hn. exists 1%nat. cbn [replicate Unload.live]. rewrite Hs. by destruct f. Qed.

Lemma live_bits i : forall k j l, (j + k = 8)%nat -> l_exit l = XBit i j ->
  exists n, live (replicate n ECleanup) l =
    match cleanup_byte SUP symbols kprobe kp0 ksym i (seq j k) (d_hook (l_drv l)) with
    | Some h' => Go (set_exit (XByte (S i)) (set_hook h' l))
    | None => Wrong
    end.
Proof.
  induction k as [|k IH]; intros j l Hj Hx.
  - simpl. apply cleanup_one; [|done]. simpl. unfold cleanup_step. rewrite Hx. replace j with 8%nat by lia. simpl.
    by destruct l as [[] ? ? ? ?].
  - simpl. destruct (_ !! i) as [b|] eqn:Hb; simpl.
    2: { apply cleanup_one; [|done]. simpl. unfold cleanup_step. rewrite Hx, Hb.
         by rewrite (proj2 (Nat.ltb_lt _ _)) by lia. }
    destruct (negb (Z.land b (Z.shiftl 1 (Z.of_nat j)) =? 0)) eqn:Hbit.
    + destruct (removeProbe _ _ _ _ _ _ _) as [[r h]|] eqn:E; simpl.
      * eapply cleanup_more.
        { apply cleanup_one; [|done]. simpl. unfold cleanup_step. rewrite Hx, Hb, Hbit, E.
          by rewrite (proj2 (Nat.ltb_lt _ _)) by lia. }
        exact (IH (S j) (set_exit (XBit i (S j)) (set_hook h l)) ltac:(lia) eq_refl).
      * apply cleanup_one; [|done]. simpl. unfold cleanup_step. rewrite Hx, Hb, Hbit, E.
        by rewrite (proj2 (Nat.ltb_lt _ _)) by lia.
    + eapply cleanup_more.
      { apply cleanup_one; [|done]. simpl. unfold cleanup_step. rewrite Hx, Hb, Hbit.
        by rewrite (proj2 (Nat.ltb_lt _ _)) by lia. }
      exact (IH (S j) (set_exit (XBit i (S j)) l) ltac:(lia) eq_refl).
Qed.

Lemma live_bytes : forall k i l, (i + k = Z.to_nat (NR / 8 + 1))%nat -> l_exit l = XByte i ->
  exists n, live (replicate n ECleanup) l =
    match cleanup_loop SUP symbols kprobe kp0 ksym (seq i k) (d_hook (l_drv l)) with
    | Some h' => Go (set_exit XWait (set_hook h' l))
    | None => Wrong
    end.
Proof.
  induction k as [|k IH]; intros i l Hi Hx.
  - cbn [cleanup_loop seq]. apply cleanup_one; [|done]. simpl. unfold cleanup_step. rewrite Hx.
    rewrite (proj2 (Nat.ltb_ge _ _)) by lia. by destruct l as [[] ? ? ? ?].
  - change (seq i (S k)) with (i :: seq (S i) k). cbn [cleanup_loop]. assert (i <? Z.to_nat (NR / 8 + 1) = true)%nat as Hlt by (apply Nat.ltb_lt; lia).
    destruct (syscall_presence_bitmap (d_hook (l_drv l)) !! i) as [b|] eqn:Hb; cbn [mbind option_bind].
    2: { apply cleanup_one; [|done]. simpl. unfold cleanup_step. by rewrite Hx, Hlt, Hb. }
    destruct (negb (b =? 0)) eqn:Hz.
    + eapply cleanup_more.
      { apply cleanup_one; [|done]. simpl. unfold cleanup_step. by rewrite Hx, Hlt, Hb, Hz. }
      destruct (live_bits i 8 0 (set_exit (XBit i 0) l) eq_refl eq_refl) as [n Hn]. cbn [l_drv set_exit] in Hn.
      destruct (cleanup_byte SUP symbols kprobe kp0 ksym i (seq 0 8) (d_hook (l_drv l))) as [h|]; cbn [mbind option_bind].
      * eapply cleanup_more; [by exists n|].
        exact (IH (S i) (set_exit (XByte (S i)) (set_hook h (set_exit (XBit i 0) l))) ltac:(lia) eq_refl).
      * by exists n.
    + eapply cleanup_more.
      { apply cleanup_one; [|done]. simpl. unfold cleanup_step. by rewrite Hx, Hlt, Hb, Hz. }
      exact (IH (S i) (set_exit (XByte (S i)) l) ltac:(lia) eq_refl).
Qed.

(** ** Properties *)

(** C4: from the end of [sysThrot_init] to the end of [sysThrot_cleanup], in
    every calm interleaving of threads in hooked syscalls, timer, ioctl calls
    and the cleanup, no event is undefined behaviour: no thread reads the
    destroyed store or a freed queue element, or runs the freed text of the
    module, and no array access of the cleanup is out of bounds. *)
Theorem module_life_safe k m tasks σ md sp t l e : loaded k m tasks σ md sp t ->
  lives (life0 SUP NR md sp t) l -> step e l <> Wrong.
Proof.
  intros Hl Hr Hw. pose proof (lives_inv _ _ _ (loaded_inv _ _ _ _ _ _ _ Hl) Hr) as Hi.
  pose proof (good_step SUP NR tramp symbols kprobe kp0 ksym Hpf (heap σ) e l Hi) as Hg. by rewrite Hw in Hg.
Qed.

(** C10: the components agree while the module is loaded: the sets [stub]
    consults are those the store represents on the heap (and nothing else was
    allocated), [sysThrot_stub_counter] is the number of threads between their
    increment and their decrement, a thread is counted in [stub] exactly when
    its trampoline has called it, and a wrapper calls the trampoline only if
    the bitmap marks it hooked. *)
Theorem components_agree k m tasks σ md sp t l : loaded k m tasks σ md sp t ->
  lives (life0 SUP NR md sp t) l -> l_exit l = XLoaded ->
  store_rep (heap σ) (d_mem (l_drv l)) (d_store (l_drv l)) (reg_users (reg (core l))) (reg_programs (reg (core l))) /\
  l_counter l = count (l_tramp l) /\
  in_stub <$> l_tramp l = (fun th => negb (is_out (th_pc th))) <$> threads (core l) /\
  forall nr, intercepted tramp symbols kprobe (d_hook (l_drv l)) nr = true ->
    0 <= nr /\ hooked (syscall_presence_bitmap (d_hook (l_drv l))) nr = true.
Proof.
  intros Hl Hr Hx. pose proof (lives_inv _ _ _ (loaded_inv _ _ _ _ _ _ _ Hl) Hr) as Hi. split_and!.
  - pose proof (li_store _ _ _ _ _ _ _ Hi) as Hs. unfold store_inv in Hs. by rewrite Hx in Hs.
  - apply Hi.
  - rewrite (li_where _ _ _ _ _ _ _ Hi). unfold outs. by rewrite <-list_fmap_compose.
  - intros nr Hn. destruct (marked (d_hook (l_drv l)) nr) eqn:Hm.
    + unfold marked in Hm. zbool. done.
    + apply (li_text _ _ _ _ _ _ _ Hi) in Hm. congruence.
Qed.

(** C9: [sysThrot_cleanup] terminates once [sysThrot_turn_off] has returned:
    under every fair schedule, whatever the threads that are still in the
    trampoline do and however many enter while hooks are being removed, the
    cleanup reaches its end. *)
Theorem cleanup_terminates k m tasks σ md sp t l sched : loaded k m tasks σ md sp t ->
  lives (life0 SUP NR md sp t) l -> l_exit l = XByte 0 ->
  fair sched (length (l_tramp l)) ->
  exists n, l_exit (sched_run (advance SUP NR tramp symbols kprobe kp0 ksym) sched l n) = XGone.
Proof.
  intros Hl Hr Hx Hf. pose proof (lives_inv _ _ _ (loaded_inv _ _ _ _ _ _ _ Hl) Hr) as Hi.
  destruct (unhooking_ends SUP NR tramp symbols kprobe kp0 ksym Hpf (heap σ) sched _ l 0 Hf) as (n & Hn & Hw);
    [done|simpl; by rewrite Hx|].
  eapply (winding_ends SUP NR tramp symbols kprobe kp0 ksym (heap σ)); [|by apply (life_inv_winding SUP NR)].
  by rewrite run_length.
Qed.

(** The cleanup's steps are its loop: taken alone from the start of the
    loop they do what [cleanup_hooks] computes, and are undefined exactly when
    it is. *)
Theorem cleanup_steps_loop l : l_exit l = XByte 0 ->
  exists n, live (replicate n ECleanup) l =
    match cleanup_hooks SUP NR symbols kprobe kp0 ksym (d_hook (l_drv l)) with
    | Some h' => Go (set_exit XWait (set_hook h' l))
    | None => Wrong
    end.
Proof. intros Hx. by apply live_bytes. Qed.
End loaded.

(** ** Concrete lives *)

Section demo.
#[local] Abbreviation demo_step := (life_step 462 462 demo_tramp demo_symbols demo_kprobe (KpAddr 1) demo_ksym).
#[local] Abbreviation demo_live := (live 462 462 demo_tramp demo_symbols demo_kprobe (KpAddr 1) demo_ksym).

(** One thread of user 1000, five calls per epoch, nothing in the kernel's text. *)
Definition demo_module : module :=
  match sysThrot_init (Results 0 0 0 true true true) 5 [demo_task] demo_init with
  | Some (_, md) => md
  | None => Module demo_init None no_resources (init_state 5 (Registry ∅ ∅) [])
  end.

Definition demo_life : life := life0 462 462 demo_module 3 ∅.

(** The int 1000 at address 64 and the int 39 at address 72. *)
Definition demo_args : umem :=
  {[ 64 := 232; 65 := 3; 66 := 0; 67 := 0; 72 := 39; 73 := 0; 74 := 0; 75 := 0 ]}.

(** User 1000 is registered and [getpid] (39) hooked. *)
Definition ev_setup : list event :=
  [EIoctl demo_args 0 sysThrot_IOC_REGISTER_USER 64; EIoctl demo_args 0 sysThrot_IOC_REGISTER_SYSCALL 72].
(** An epoch begins, and thread 0 calls [getpid] and gets a token. *)
Definition ev_pass : list event :=
  replicate 8 ETimer ++ [ECall 0 39; ETramp 0; ETramp 0] ++ replicate 5 (EStub 0 ok) ++ [ETramp 0; ETramp 0].
(** [sysThrot_cleanup] up to its loop; the loop and the rest. *)
Definition ev_turn_off : list event := EExit :: replicate 5 (ECtl true) ++ [ECleanup].
Definition ev_rest : list event := replicate 73 ECleanup.

(** Without the proviso on the last reading of [sysThrot_stub_counter] the
    unload frees text a thread is about to run: once when a thread has
    executed the wrapper's call but not yet [lock incl], and once when it has
    executed [lock decl] but not yet [ret].  In both runs the module is gone
    and the thread's next instruction is in the freed text. *)
Theorem unload_race :
  (exists l, demo_live (ev_setup ++ [ECall 0 39] ++ ev_turn_off ++ ev_rest) demo_life = Go l /\
     l_exit l = XGone /\ l_tramp l = [TCalled 39] /\ demo_step (ETramp 0) l = Wrong) /\
  (exists l, demo_live (ev_setup ++ ev_turn_off ++ [ECall 0 39; ETramp 0; ETramp 0; ETramp 0] ++ ev_rest) demo_life = Go l /\
     l_exit l = XGone /\ l_tramp l = [TLeaving] /\ demo_step (ETramp 0) l = Wrong).
Proof.
  assert (forall es, match demo_live es demo_life with Go l => true | _ => false end = true ->
    exists l, demo_live es demo_life = Go l /\ Go l = demo_live es demo_life) as Hgo.
  { intros es H. destruct (demo_live es demo_life) as [| |l] eqn:E; try done. by exists l. }
  split.
  - destruct (Hgo (ev_setup ++ [ECall 0 39] ++ ev_turn_off ++ ev_rest)) as (l & E & Hl); [vm_compute; reflexivity|].
    exists l. split; [exact E|]. clear E. vm_compute in Hl. injection Hl as ->. repeat split.
  - destruct (Hgo (ev_setup ++ ev_turn_off ++ [ECall 0 39; ETramp 0; ETramp 0; ETramp 0] ++ ev_rest)) as (l & E & Hl);
      [vm_compute; reflexivity|].
    exists l. split; [exact E|]. clear E. vm_compute in Hl. injection Hl as ->. repeat split.
Qed.

(** *** Executing calm lives *)

Definition settledb (t : tramp_pc) : bool := match t with TCalled _ | TLeaving => false | _ => true end.

Definition calmb (e : event) (l l' : life) : bool :=
  quietb (core l') && match e, ctl (core l) with ECtl false, COnInit => false | _, _ => true end &&
  match l_exit l, l_exit l' with XWait, XRcu => forallb settledb (l_tramp l) | _, _ => true end.

Lemma calmb_ok e l l' : calmb e l l' = true -> calm e l l'.
Proof.
  unfold calmb, calm. intros [[Hq He]%andb_true_iff Hs]%andb_true_iff. split_and!.
  - apply (orderlyb_ok LTimer (core l) (core l')). unfold orderlyb. by rewrite Hq.
  - intros -> Hc. by rewrite Hc in He.
  - intros Hx Hx'. rewrite Hx, Hx' in Hs. apply Forall_forall. intros t Ht.
    rewrite forallb_forall in Hs. specialize (Hs t ltac:(by apply list_elem_of_In)). by destruct t.
Qed.

(** Events that must all be enabled, defined and calm. *)
Fixpoint live_calm (es : list event) (l : life) : option life :=
  match es with
  | [] => Some l
  | e :: es =>
      match demo_step e l with
      | Go l' => if calmb e l l' then live_calm es l' else None
      | _ => None
      end
  end.

Definition demo_after (es : list event) : life := default demo_life (live_calm es demo_life).

Lemma demo_lives es : match live_calm es demo_life with Some _ => true | None => false end = true ->
  lives 462 462 demo_tramp demo_symbols demo_kprobe (KpAddr 1) demo_ksym demo_life (demo_after es).
Proof.
  unfold demo_after. intros H.
  assert (forall l l', lives 462 462 demo_tramp demo_symbols demo_kprobe (KpAddr 1) demo_ksym demo_life l ->
    live_calm es l = Some l' ->
    lives 462 462 demo_tramp demo_symbols demo_kprobe (KpAddr 1) demo_ksym demo_life l') as Hr.
  { clear H. induction es as [|e es IH]; simpl; intros l l' Hl; [by intros [= <-]|].
    destruct (demo_step e l) as [| |l1] eqn:E; try done. destruct (calmb e l l1) eqn:Hc; [|done].
    apply IH. eapply lives_step; [done..|]. by apply calmb_ok. }
  destruct (live_calm es demo_life) as [l|] eqn:E; [|done]. simpl. eapply Hr; [apply lives_refl|done].
Qed.

Lemma demo_loaded :
  loaded 462 462 demo_tramp demo_symbols demo_kprobe (Results 0 0 0 true true true) 5 [demo_task] demo_init demo_module 3 ∅.
Proof.
  split.
  - vm_compute. reflexivity.
  - eexists. vm_compute. reflexivity.
  - reflexivity.
  - apply demo_init_wf.
  - reflexivity.
  - intros nr. unfold intercepted. destruct (demo_kprobe (demo_symbols nr)); done.
Qed.

(** ** Witnesses *)

(** After the whole life, with a call that was throttled and let through. *)
Definition demo_gone : life := demo_after (ev_setup ++ ev_pass ++ ev_turn_off ++ ev_rest).

Lemma module_life_safe_witness : l_tramp demo_gone = [TOut] /\ demo_step (ETramp 0) demo_gone <> Wrong.
Proof.
  split; [vm_compute; reflexivity|].
  apply (module_life_safe 462 462 demo_tramp demo_symbols demo_kprobe (KpAddr 1) demo_ksym demo_platform
    (Results 0 0 0 true true true) 5 [demo_task] demo_init demo_module 3 ∅ _ _ demo_loaded).
  apply demo_lives. vm_compute. reflexivity.
Defined.

(** User 1000 registered, getpid hooked, thread 0 in [stub]. *)
Definition demo_inside : life := demo_after (ev_setup ++ [ECall 0 39; ETramp 0; ETramp 0]).

Lemma components_agree_witness : l_counter demo_inside = 1 /\ l_counter demo_inside = count (l_tramp demo_inside) /\
  in_stub <$> l_tramp demo_inside = [true].
Proof.
  destruct (components_agree 462 462 demo_tramp demo_symbols demo_kprobe (KpAddr 1) demo_ksym demo_platform
    (Results 0 0 0 true true true) 5 [demo_task] demo_init demo_module 3 ∅ demo_inside demo_loaded) as (_ & H1 & H2 & _);
    [apply demo_lives; vm_compute; reflexivity|vm_compute; reflexivity|].
  split; [vm_compute; reflexivity|]. split; [exact H1|]. rewrite H2. vm_compute. reflexivity.
Defined.

(** The cleanup and the thread take turns. *)
Definition demo_turns (n : nat) : event := if Nat.even n then ECleanup else ETramp 0.

Lemma demo_turns_fair : fair demo_turns 1.
Proof.
  intros e k [-> |(i & Hi & ->)].
  - exists (2 * k)%nat. split; [lia|]. unfold demo_turns. by rewrite Nat.even_even.
  - exists (2 * k + 1)%nat. split; [lia|]. unfold demo_turns. rewrite Nat.even_odd.
    replace i with 0%nat by lia. done.
Qed.

(** A thread is in the trampoline when the cleanup starts. *)
Definition demo_leaving : life := demo_after (ev_setup ++ [ECall 0 39; ETramp 0] ++ ev_turn_off).

Lemma cleanup_terminates_witness : l_tramp demo_leaving = [TCounted 39] /\ exists n,
  l_exit (sched_run (advance 462 462 demo_tramp demo_symbols demo_kprobe (KpAddr 1) demo_ksym) demo_turns demo_leaving n) = XGone.
Proof.
  split; [vm_compute; reflexivity|].
  apply (cleanup_terminates 462 462 demo_tramp demo_symbols demo_kprobe (KpAddr 1) demo_ksym demo_platform
    (Results 0 0 0 true true true) 5 [demo_task] demo_init demo_module 3 ∅ demo_leaving demo_turns demo_loaded);
    [apply demo_lives; vm_compute; reflexivity|vm_compute; reflexivity|exact demo_turns_fair].
Defined.

Lemma cleanup_steps_loop_witness : exists n, demo_live (replicate n ECleanup) demo_leaving =
  match cleanup_hooks 462 462 demo_symbols demo_kprobe (KpAddr 1) demo_ksym (d_hook (l_drv demo_leaving)) with
  | Some h' => Go (set_exit XWait (set_hook h' demo_leaving))
  | None => Wrong
  end.
Proof.
  apply (cleanup_steps_loop 462 462 demo_tramp demo_symbols demo_kprobe (KpAddr 1) demo_ksym demo_leaving).
  vm_compute. reflexivity.
Defined.
End demo.
