(* ===== verification/UnloadCore.v ===== *)
(** * The life of the module as a run of the core

    Every step of the module's life ([Unload.v]) is a step of the transition
    system of [Core.v], or leaves the core alone: what is shown of the core
    therefore holds for the loaded module, with its trampoline, its interface
    and its removal.  With the liveness of the core this gives the module's
    promise to a thread whose syscall is hooked: it comes back. *)

From stdpp Require Import prelude gmap list.
From S2P Require Import Prelude Kernel Store StoreProofs StoreSpec Queue Stats Core CoreProofs CoreLive CoreSpec CoreFair CoreLeak.
From S2P Require Import Hook HookSpec Ioctl Device Unload UnloadProofs UnloadLive UnloadSpec.

#[export] Instance exit_pc_eq_dec : EqDecision exit_pc.
Proof. solve_decision. Defined.

(** The registry the interface leaves behind. *)
Definition refresh (o : option registry) (s : state) : state := from_option (fun r => set_reg r s) s o.

Definition role_of_event (e : event) : role :=
  match e with EStub i _ => RThread i | ETimer => RTimer | ECtl _ => RCtl | _ => ROther end.

Section core.
Context (SUP NR tramp : Z) (symbols : Z -> option (list Z)) (kprobe : option (list Z) -> kprobe_result).
Context (kp0 : kprobe_result) (ksym : patch_symbol -> Z).
Context (Hpf : platform SUP NR tramp symbols kprobe) (F : gmap loc obj).

#[local] Abbreviation lstep := (life_step SUP NR tramp symbols kprobe kp0 ksym).
#[local] Abbreviation ladvance := (UnloadLive.advance SUP NR tramp symbols kprobe kp0 ksym).
#[local] Abbreviation life_inv := (life_inv SUP NR tramp symbols kprobe F).

(** ** Simulation *)

(** The core follows an event with the label [lab] and the registry [o]; the
    events that move a thread in [stub], the timer and the administrator's call
    are the labels that do, as long as a thread is in [stub]. *)
Record follows (e : event) (l : life) (lab : label) (o : option registry) : Prop := {
  fo_core : core (ladvance e l) = refresh o (CoreLive.advance SUP lab (core l));
  fo_orderly s' : step SUP lab (core l) = Next s' -> orderly lab (core l) s' /\ exists l', lstep e l = Go l';
  fo_who s' : step SUP lab (core l) = Next s' -> role_of lab = ROther \/ role_of lab = role_of_event e;
  fo_timer : lab = LTimer -> e = ETimer;
  fo_role i : l_tramp l !! i = Some TStub -> role_of_event e = RThread i \/ role_of_event e = RTimer \/ role_of_event e = RCtl ->
    role_of lab = role_of_event e;
}.

Lemma follows_idle e l : core (ladvance e l) = core l ->
  (forall i, l_tramp l !! i = Some TStub -> role_of_event e = RThread i \/ role_of_event e = RTimer \/ role_of_event e = RCtl -> False) ->
  follows e l (idle (core l)) None.
Proof.
  intros Hc Hr. split; [by rewrite idle_advance|by rewrite idle_blocked|by rewrite idle_blocked|done|]. intros i Hi Hx. by destruct (Hr i Hi Hx).
Qed.

(** An event that lifts the core's label [lab]. *)
Lemma follows_label e l lab : life_inv l -> (lab = LTimer -> e = ETimer) ->
  (role_of_event e = ROther /\ role_of lab = ROther \/ role_of lab = role_of_event e) ->
  match step SUP lab (core l) with
  | Blocked => lstep e l = Stuck
  | UB => True
  | Next s => exists l', lstep e l = Go l' /\ core l' = s /\ (calm e l l' -> orderly lab (core l) s)
  end ->
  (forall l', lstep e l = Go l' -> calm e l l') -> follows e l lab None.
Proof.
  intros Hl Ht Hr Hs Hc. pose proof (inv_no_ub SUP lab (core l) (li_core _ _ _ _ _ _ _ Hl)) as Hub.
  split; [|intros s' Es|naive_solver|done|].
  - unfold UnloadLive.advance, CoreLive.advance. simpl.
    destruct (step SUP lab (core l)) as [| |s]; [by rewrite Hs|done|]. by destruct Hs as (l' & -> & -> & _).
  - rewrite Es in Hs. destruct Hs as (l' & El & _ & Ho). split; [apply Ho, Hc, El|by exists l'].
  - intros i _ Hx. destruct Hr as [[Hr _]|Hr]; [|done]. rewrite Hr in Hx. naive_solver.
Qed.

Lemma follows_tramp i l : life_inv l -> (forall l', lstep (ETramp i) l = Go l' -> calm (ETramp i) l l') ->
  exists lab, follows (ETramp i) l lab None.
Proof.
  intros Hl Hc. assert (core (ladvance (ETramp i) l) = core l -> exists lab, follows (ETramp i) l lab None) as Hidle.
  { intros H. exists (idle (core l)). apply follows_idle; [done|]. simpl. naive_solver. }
  destruct (l_tramp l !! i) as [[|nr|nr| | |]|] eqn:Ht;
    try (apply Hidle; unfold UnloadLive.advance; simpl; unfold tramp_step; rewrite Ht; by destruct (l_exit l)).
  assert (past_wait (l_exit l) = false) as Hp by (by eapply inside_not_past).
  exists (LEnter i nr). apply follows_label; [done|done|by left| |done]. simpl. unfold tramp_step. rewrite Ht.
  destruct (stub_enter i nr (core l)) as [| |s] eqn:E; [by destruct (l_exit l)|done|].
  exists (set_tramp i (tramp_of s i) (set_core s l)). split; [by destruct (l_exit l)|]. split; [done|].
  intros (Hq & _). by split.
Qed.

Lemma follows_stub i c l : life_inv l -> (forall l', lstep (EStub i c) l = Go l' -> calm (EStub i c) l l') ->
  exists lab, follows (EStub i c) l lab None.
Proof.
  intros Hl Hc. destruct (l_tramp l !! i) as [t|] eqn:Ht; [destruct (decide (t = TStub)) as [->|Hn]|].
  - exists (LThread i c). destruct (where_lookup _ _ _ _ _ _ l i TStub Hl Ht) as (th & Hth & _).
    pose proof (in_stub_early _ _ _ _ _ _ l i Hl Ht) as Hx.
    pose proof (rep_live _ l (early_rep _ _ _ _ _ _ l Hl Hx)) as Hlive.
    apply follows_label; [done|done|by right| |done]. simpl. unfold in_stub_step. rewrite Ht, Hth.
    rewrite bool_decide_true, andb_false_r by done.
    destruct (stub_step SUP i th c (core l)) as [| |s]; [by destruct Hx as [-> | ->]|done|].
    exists (set_tramp i (tramp_of s i) (set_core s l)). split; [by destruct Hx as [-> | ->]|]. split; [done|].
    intros (Hq & _). by split.
  - exists (idle (core l)). apply follows_idle; [unfold UnloadLive.advance; simpl; unfold in_stub_step; rewrite Ht; by destruct t|].
    simpl. intros j Hj [[= <-]|[?|?]]; congruence.
  - exists (idle (core l)). apply follows_idle; [unfold UnloadLive.advance; simpl; unfold in_stub_step; by rewrite Ht|].
    simpl. intros j Hj [[= <-]|[?|?]]; congruence.
Qed.

Lemma follows_timer l : life_inv l -> (forall l', lstep ETimer l = Go l' -> calm ETimer l l') ->
  exists lab, follows ETimer l lab None.
Proof.
  intros Hl Hc. destruct (decide (l_exit l = XGone)) as [Hx|Hx].
  - exists (idle (core l)). apply follows_idle.
    + unfold UnloadLive.advance. simpl. unfold epoch_step. rewrite Hx. by destruct (timer (core l)) as [[]| | | | | | |].
    + intros i Hi _. destruct (in_stub_early _ _ _ _ _ _ l i Hl Hi); congruence.
  - exists LTimer. apply follows_label; [done|done|by right| |done]. simpl. unfold epoch_step, lift_core.
    destruct (timer_step (core l)) as [| |s]; [by destruct (l_exit l)|done|].
    exists (set_core s l). split; [by destruct (l_exit l)|]. split; [done|]. intros (Hq & _). by split.
Qed.

Lemma follows_ctl a l : life_inv l -> (forall l', lstep (ECtl a) l = Go l' -> calm (ECtl a) l l') ->
  exists lab, follows (ECtl a) l lab None.
Proof.
  intros Hl Hc. destruct (decide (l_exit l = XLoaded \/ l_exit l = XTurnOff)) as [Hx|Hx].
  - exists (LCtl a). apply follows_label; [done|done|by right| |done]. simpl. unfold call_step, lift_core.
    destruct (ctl_step a (core l)) as [| |s]; [by destruct Hx as [-> | ->]|done|].
    exists (set_core s l). split; [by destruct Hx as [-> | ->]|]. split; [done|]. intros (Hq & Ha & _).
    split; [done|]. intros [= ->]. by apply Ha.
  - exists (idle (core l)). apply follows_idle.
    + unfold UnloadLive.advance. simpl. unfold call_step. destruct (l_exit l); naive_solver.
    + intros i Hi _. by apply Hx, (in_stub_early _ _ _ _ _ _ l i Hl Hi).
Qed.

Lemma follows_exit l : life_inv l -> (forall l', lstep EExit l = Go l' -> calm EExit l l') ->
  exists lab, follows EExit l lab None.
Proof.
  intros Hl Hc. assert (lstep EExit l = Stuck \/ lstep EExit l = lift_core (turn_off_enter (core l)) (set_exit XTurnOff l)) as [H|H].
  { simpl. unfold exit_enter. destruct (l_exit l), (ctl (core l)); auto. }
  - exists (idle (core l)). apply follows_idle; [unfold UnloadLive.advance; by rewrite H|simpl; naive_solver].
  - exists LOff. apply follows_label; [done|done|by left| |done]. rewrite H. change (step SUP LOff (core l)) with (turn_off_enter (core l)).
    destruct (turn_off_enter (core l)) as [| |s]; [done|done|]. eexists. split; [done|]. split; [done|]. intros (Hq & _). by split.
Qed.

Lemma follows_ioctl u uid cmd arg l : life_inv l ->
  (forall l', lstep (EIoctl u uid cmd arg) l = Go l' -> calm (EIoctl u uid cmd arg) l l') ->
  exists lab o, follows (EIoctl u uid cmd arg) l lab o.
Proof.
  intros Hl Hc. destruct (lstep (EIoctl u uid cmd arg) l) as [| |l'] eqn:E.
  1, 2: exists (idle (core l)), None; apply follows_idle; [unfold UnloadLive.advance; by rewrite E|simpl; naive_solver].
  destruct (Hc l' eq_refl) as (Hq & _). simpl in E. unfold ioctl_step in E.
  destruct (l_exit l) eqn:Hx; try done. destruct (ctl (core l)) as [r0| | | | | | | | | |] eqn:Hi; try done.
  destruct (ioctl_total SUP NR tramp symbols kprobe kp0 ksym Hpf F u uid cmd arg (l_drv l) _ _ r0 (li_hook _ _ _ _ _ _ _ Hl)
    (li_text _ _ _ _ _ _ _ Hl) (early_rep _ _ _ _ _ _ l Hl (or_introl Hx)) Hi) as (r & d & Ed & _ & _ & _ & _ & Hcore).
  rewrite Ed in E. injection E as <-. simpl in Hq.
  assert (forall lab, CoreLive.advance SUP lab (core l) = d_core d -> (forall s', step SUP lab (core l) = Next s' -> s' = d_core d) ->
    (forall s', step SUP lab (core l) = Next s' -> role_of lab = ROther) -> lab <> LTimer -> (forall a, lab <> LCtl a) -> exists lab o, follows (EIoctl u uid cmd arg) l lab o) as Hlab.
  { intros lab Ha Hn Hro Ht Hlc. exists lab, (Some (registry_of (heap (d_mem d)) (d_store d))). split; [|intros s' Es|intros s' Es; left; by eapply Hro|done|simpl; naive_solver].
    - unfold UnloadLive.advance. simpl. unfold ioctl_step. rewrite Hx, Hi, Ed. simpl. by rewrite Ha.
    - rewrite (Hn _ Es). split; [split; [done|]; intros ->; by destruct (Hlc false)|]. simpl. unfold ioctl_step. rewrite Hx, Hi, Ed. by eexists. }
  destruct Hcore as [Hd|[Hd|Hd]].
  - apply (Hlab (idle (core l))); [by rewrite idle_advance|by rewrite idle_blocked|by rewrite idle_blocked|done..].
  - apply (Hlab LOn); unfold CoreLive.advance; simpl; rewrite ?Hd; naive_solver.
  - apply (Hlab LOff); unfold CoreLive.advance; simpl; rewrite ?Hd; naive_solver.
Qed.

Lemma follows_cleanup l : l_exit (ladvance ECleanup l) <> XGone -> exists lab, follows ECleanup l lab None.
Proof.
  intros Hx. exists (idle (core l)). apply follows_idle; [|simpl; naive_solver].
  revert Hx. unfold UnloadLive.advance. simpl. unfold cleanup_step. repeat case_match; simplify_eq; done.
Qed.

Lemma event_follows e l : life_inv l -> l_exit (ladvance e l) <> XGone ->
  (forall l', lstep e l = Go l' -> calm e l l') -> exists lab o, follows e l lab o.
Proof.
  intros Hl Hx Hc. destruct e as [i nr|i|i c| |u uid cmd arg|a| |].
  - exists (idle (core l)), None. apply follows_idle; [|simpl; naive_solver].
    unfold UnloadLive.advance. simpl. unfold call_wrapper. repeat case_match; by simplify_eq.
  - destruct (follows_tramp i l Hl Hc) as [lab ?]. by exists lab, None.
  - destruct (follows_stub i c l Hl Hc) as [lab ?]. by exists lab, None.
  - destruct (follows_timer l Hl Hc) as [lab ?]. by exists lab, None.
  - by apply follows_ioctl.
  - destruct (follows_ctl a l Hl Hc) as [lab ?]. by exists lab, None.
  - destruct (follows_exit l Hl Hc) as [lab ?]. by exists lab, None.
  - destruct (follows_cleanup l Hx) as [lab ?]. by exists lab, None.
Qed.

(** ** The loaded module *)

Lemma gone_stays e l l' : l_exit l = XGone -> lstep e l = Go l' -> l_exit l' = XGone.
Proof.
  intros Hx. destruct e as [i nr|i|i c| |u uid cmd arg|a| |]; simpl;
    unfold call_wrapper, tramp_step, in_stub_step, epoch_step, ioctl_step, call_step, exit_enter, cleanup_step, lift_thread, lift_core;
    rewrite ?Hx; repeat case_match; intros ?; by simplify_eq.
Qed.

(** How the module gets to be gone. *)
Lemma gone_before e l l' : lstep e l = Go l' -> l_exit l' = XGone ->
  (l_exit l = XGone /\ core l' = core l) \/ (l_exit l = XProc /\ exists f, core l' = set_stats f (core l)).
Proof.
  intros E Hx. destruct (decide (l_exit l = XGone)) as [Hg|Hg]; [left|right].
  - split; [done|]. destruct e as [i nr|i|i c| |u uid cmd arg|a| |]; simpl in E;
      unfold call_wrapper, tramp_step, in_stub_step, epoch_step, ioctl_step, call_step, exit_enter, cleanup_step in E;
      rewrite ?Hg in E; repeat case_match; by simplify_eq.
  - destruct e as [i nr|i|i c| |u uid cmd arg|a| |]; simpl in E;
      unfold call_wrapper, tramp_step, in_stub_step, epoch_step, ioctl_step, call_step, exit_enter, lift_thread, lift_core in E;
      try (repeat case_match; simplify_eq; simpl in Hx; congruence).
    unfold cleanup_step in E. repeat case_match; simplify_eq; simpl in Hx; try congruence. split; [done|]. by eexists.
Qed.

Lemma ladvance_go e l l' : lstep e l = Go l' -> ladvance e l = l'.
Proof. unfold UnloadLive.advance. by intros ->. Qed.

Lemma reach_follows e l lab o s0 : follows e l lab o -> reach SUP orderly s0 (core l) -> quiet (core (ladvance e l)) ->
  reach SUP orderly s0 (core (ladvance e l)).
Proof.
  intros [-> Ho _ _ _] Hr Hq. assert (reach SUP orderly s0 (CoreLive.advance SUP lab (core l))) as H.
  { unfold CoreLive.advance. destruct (step SUP lab (core l)) as [| |s'] eqn:E; [done..|]. by eapply reach_step; [..|apply Ho]. }
  destruct o as [r|]; [|done]. eapply (reach_step _ _ _ (LRegister r)); [done|done|]. by split.
Qed.

#[local] Abbreviation lives := (lives SUP NR tramp symbols kprobe kp0 ksym).

Lemma lives_reach s0 l0 l : life_inv l0 -> reach SUP orderly s0 (core l0) -> lives l0 l -> l_exit l <> XGone ->
  reach SUP orderly s0 (core l).
Proof.
  intros H0 Hr. induction 1 as [|e l l' Hlv IH E Hc]; intros Hx; [done|].
  assert (life_inv l) as Hl by (by eapply lives_inv).
  pose proof (ladvance_go _ _ _ E) as <-. destruct (event_follows e l Hl) as (lab & o & Hf); [done|intros l'; rewrite E; by intros [= <-]|].
  eapply reach_follows; [done| |apply Hc]. apply IH. intros Hg. by destruct Hx; eapply gone_stays.
Qed.
End core.

(** What [sysThrot_init] leaves is the core after [sysThrot_turn_on]. *)
Lemma turn_on_reach sup g m r tasks : (forall l s s', (l = LOn \/ l = LCtl true) -> ctl s' <> COffDestroy -> g l s s') ->
  reach sup g (init_state m r tasks) (turn_on_alone true (set_stats (Monitor [] 0) (init_state m r tasks))).2.
Proof.
  intros Hg. set (s0 := init_state m r tasks).
  assert (forall l s, (l = LOn \/ l = LCtl true) -> reach sup g s0 s ->
    match step sup l s with Next s' => ctl s' <> COffDestroy -> reach sup g s0 s' | _ => True end) as Hs.
  { intros l s Hl Hr. destruct (step sup l s) eqn:E; [done..|]. intros Hc. eapply reach_step; [done..|by apply Hg]. }
  pose proof (Hs LOn s0 (or_introl eq_refl) (reach_refl _ _ _) ltac:(done)) as H1.
  pose proof (Hs (LCtl true) _ (or_intror eq_refl) H1 ltac:(done)) as H2.
  pose proof (Hs (LCtl true) _ (or_intror eq_refl) H2 ltac:(done)) as H3.
  pose proof (Hs (LCtl true) _ (or_intror eq_refl) H3 ltac:(done)) as H4.
  exact (Hs (LCtl true) _ (or_intror eq_refl) H4 ltac:(done)).
Qed.

(** The limit of every epoch is the one the module was loaded with. *)
Lemma quota_reach sup m r tasks s : Z.of_nat (length tasks) < 2 ^ 31 -> reach sup orderly (init_state m r tasks) s ->
  max_syscalls_for_epoch s = s32 m /\ (g_quota (gh s) = 0 \/ g_quota (gh s) = s32 m).
Proof.
  intros Hl. induction 1 as [|l s s' Hr [IHm IHq] E Ho]; [by split; [|left]|].
  pose proof (reach_inv _ _ _ (inv_init m r tasks Hl) Hr) as Hinv.
  assert (max_syscalls_for_epoch s' = max_syscalls_for_epoch s /\
    (g_quota (gh s') = g_quota (gh s) \/ g_quota (gh s') = max_syscalls_for_epoch s)) as [-> [-> | ->]]; [|naive_solver..].
  destruct l as [i nr|i c| | | |a|x]; simpl in E.
  - unfold stub_enter in E. destruct (threads s !! i) as [[t n []]|]; try done. injection E as <-. auto.
  - destruct (threads s !! i) as [th|]; [|done]. split; [apply (stub_frame _ _ _ _ _ _ Hinv E)|left].
    unfold stub_step in E. repeat case_match; simplify_eq; done.
  - split; [by destruct (timer_frame _ _ E) as (_ & _ & ? & _)|]. unfold timer_step in E. repeat case_match; simplify_eq; auto.
  - unfold turn_on_enter in E. destruct (ctl s); try done. injection E as <-. auto.
  - unfold turn_off_enter in E. destruct (ctl s); try done. injection E as <-. auto.
  - split; [by destruct (ctl_frame _ _ _ E)|left]. unfold ctl_step in E. repeat case_match; simplify_eq; done.
  - injection E as <-. auto.
Qed.

Section loaded.
Context (SUP NR tramp : Z) (symbols : Z -> option (list Z)) (kprobe : option (list Z) -> kprobe_result).
Context (kp0 : kprobe_result) (ksym : patch_symbol -> Z).
Context (Hpf : platform SUP NR tramp symbols kprobe).

#[local] Abbreviation lives := (lives SUP NR tramp symbols kprobe kp0 ksym).
#[local] Abbreviation loaded := (loaded SUP NR tramp symbols kprobe).

Lemma loaded_reach g k m tasks σ md sp t : (forall l s s', (l = LOn \/ l = LCtl true) -> ctl s' <> COffDestroy -> g l s s') ->
  loaded k m tasks σ md sp t -> reach SUP g (init_state m (Registry ∅ ∅) tasks) (core (life0 SUP NR md sp t)).
Proof.
  intros Hg Hl. destruct (loaded_module _ _ _ _ _ _ _ _ _ _ _ _ Hl) as [_ Hm]. simpl. rewrite Hm. by apply turn_on_reach.
Qed.

(** C5: the loaded module is the core: whatever the threads do in the hooked
    wrappers and the trampoline, whatever the administrator asks of the
    interface and however far [sysThrot_cleanup] has got, the core is in a state
    that a run of its own transition system reaches from its initial state, one
    orderly step or none for each event (two when the interface switches
    throttling: the call's first step and the store as it has become).  The
    number of calls let through in an epoch therefore obeys the limit the module
    was loaded with, until the module's text is freed. *)
Theorem module_refines_core k m tasks σ md sp t l : loaded k m tasks σ md sp t ->
  lives (life0 SUP NR md sp t) l -> l_exit l <> XGone ->
  reach SUP orderly (init_state m (Registry ∅ ∅) tasks) (core l) /\
  (g_decs (gh (core l)) <= 2 ^ 31 + g_tokens (gh (core l)) ->
     g_woken (gh (core l)) + g_granted (gh (core l)) <= Z.max 0 (s32 m)).
Proof.
  intros Hl Hr Hx. pose proof (loaded_inv SUP NR tramp symbols kprobe _ _ _ _ _ _ _ Hl) as H0.
  assert (reach SUP orderly (init_state m (Registry ∅ ∅) tasks) (core l)) as H.
  { eapply (lives_reach SUP NR tramp symbols kprobe kp0 ksym Hpf); [done| |done|done].
    eapply loaded_reach; [|done]. intros x s s' [->| ->] Hc; (split; [by intros ?|done]). }
  split; [done|]. intros Hd. pose proof (budget_reach _ _ _ _ _ _ (reach_anything _ _ _ _ H)) as [? Hsv Hw ? ? ? Hg ?].
  destruct (quota_reach _ _ _ _ _ (ld_small _ _ _ _ _ _ _ _ _ _ _ _ Hl) H) as [_ Hq].
  specialize (Hg Hd). unfold g_tokens in *. lia.
Qed.

(** The last steps of the cleanup leave the wait queue alone. *)
Lemma lives_gone_core l0 l : lives l0 l -> l_exit l = XGone -> l_exit l0 <> XGone ->
  exists l1, lives l0 l1 /\ l_exit l1 = XProc /\ exists f, core l = set_stats f (core l1).
Proof.
  intros Hr Hx H0. induction Hr as [|e l l' Hr IH E Hc]; [done|].
  destruct (gone_before _ _ _ _ _ _ _ _ _ _ E Hx) as [[Hg ->]|[Hp Hf]]; [by apply IH|by exists l].
Qed.

(** The wait queue of the unloaded module. *)
Lemma gone_queue k m tasks σ md sp t l : loaded k m tasks σ md sp t -> lives (life0 SUP NR md sp t) l -> l_exit l = XGone ->
  queue_cache (waitq (core l)) = false /\ forall e, is_Some (elems (waitq (core l)) !! e) <-> leaked (core l) e.
Proof.
  intros Hl Hr Hx. pose proof (loaded_inv SUP NR tramp symbols kprobe _ _ _ _ _ _ _ Hl) as H0.
  destruct (lives_gone_core _ _ Hr Hx) as (l1 & Hr1 & Hx1 & f & ->); [done|].
  pose proof (lives_inv _ _ _ _ _ _ _ Hpf _ _ _ H0 Hr1) as Hi.
  assert (clean (core l1)) as Hcl.
  { eapply clean_reach; [apply Hl|]. eapply (lives_reach SUP NR tramp symbols kprobe kp0 ksym Hpf); [exact H0| |exact Hr1|congruence].
    eapply loaded_reach; [|done]. intros x s s' [->| ->] Hc; (split; [by intros ?|done]). }
  pose proof (li_off _ _ _ _ _ _ _ Hi) as Ho. unfold off_inv in Ho. rewrite Hx1 in Ho. destruct Ho as [Hw Hc].
  pose proof (iv_ctl _ (li_core _ _ _ _ _ _ _ Hi)) as Hct. unfold ctl_inv in Hct. destruct Hc as [r Hc]. rewrite Hc, Hw in Hct.
  split; [apply Hct|]. intros e. exact (off_elements (core l1) e (li_core _ _ _ _ _ _ _ Hi) Hcl Hw (ex_intro _ r Hc)).
Qed.

(** C7: what is left when [sysThrot_cleanup] has returned, of every kind of
    thing the module ever asked the kernel for: the memory from [kmalloc] is as
    before the load, every registration with the kernel is undone, no wrapper
    calls the trampoline, no thread is in the trampoline or in [stub], the
    timer is shut down, the statistics are freed, and the module has given up
    its slab cache, in which exactly the elements are left that waiters
    abandoned when throttling was turned off ([queue_memory] says when that
    happens); if there is none, nothing at all is left. *)
Theorem unload_leaves_nothing k m tasks σ md sp t l : loaded k m tasks σ md sp t ->
  lives (life0 SUP NR md sp t) l -> l_exit l = XGone ->
  heap (d_mem (l_drv l)) = heap σ /\ l_res l = no_resources /\
  (forall nr, intercepted tramp symbols kprobe (d_hook (l_drv l)) nr = false) /\
  Forall (fun t => t = TOut) (l_tramp l) /\ all_out (threads (core l)) /\
  timer (core l) = TIdle false /\ syscall_list (stats (core l)) = [] /\
  queue_cache (waitq (core l)) = false /\
  (forall e, is_Some (elems (waitq (core l)) !! e) <-> leaked (core l) e) /\
  ((forall e, ~ leaked (core l) e) -> elems (waitq (core l)) = ∅).
Proof.
  intros Hl Hr Hx. destruct (gone_queue _ _ _ _ _ _ _ _ Hl Hr Hx) as [Hqc Hel].
  pose proof (lives_inv _ _ _ _ _ _ _ Hpf _ _ _ (loaded_inv _ _ _ _ _ _ _ _ _ _ _ _ Hl) Hr) as Hi.
  destruct Hi as [Hc _ _ _ Ht Hs Ho Hu He Hrs].
  unfold store_inv, off_inv, unhook_inv, res_inv in Hs, Ho, Hu, Hrs. rewrite Hx in Hs, Ho, Hu, He, Hrs.
  destruct (off_idle_out _ Hc Ho) as [Hall Htm]. destruct Hrs as [Hres Hst].
  split_and!; try done; [|by apply He|].
  - intros nr. apply Ht. unfold marked. destruct (0 <=? nr) eqn:E; [|done]. zbool. by apply Hu.
  - intros Hn. apply map_eq. intros e. rewrite lookup_empty. destruct (elems _ !! e) eqn:E; [|done].
    destruct (Hn e). apply Hel. by rewrite E.
Qed.
End loaded.

(** Thread 0 blocks before the first epoch begins, is still waiting when the
    module is removed, and leaves while throttling is turned off. *)
Definition ev_waiting : list event := [ECall 0 39; ETramp 0; ETramp 0] ++ replicate 11 (EStub 0 ok).
Definition ev_off_waiting : list event :=
  EExit :: replicate 5 (ECtl true) ++ replicate 4 (EStub 0 ok) ++ [ETramp 0; ETramp 0; ECtl true; ECtl true; ECleanup].
Definition demo_gone_leaky : life := demo_after (ev_setup ++ ev_waiting ++ ev_off_waiting ++ ev_rest).

Lemma unload_leaves_nothing_witness : heap (d_mem (l_drv demo_gone_leaky)) = heap demo_init /\
  l_res demo_gone_leaky = no_resources /\ leaked (core demo_gone_leaky) 1%positive.
Proof.
  destruct (unload_leaves_nothing 462 462 demo_tramp demo_symbols demo_kprobe (KpAddr 1) demo_ksym demo_platform
    (Results 0 0 0 true true true) 5 [demo_task] demo_init demo_module 3 ∅ demo_gone_leaky demo_loaded)
    as (H1 & H2 & _ & _ & _ & _ & _ & _ & H3 & _);
    [apply demo_lives; vm_compute; reflexivity|vm_compute; reflexivity|].
  split; [exact H1|]. split; [exact H2|]. apply H3. vm_compute. eexists. reflexivity.
Defined.

Lemma module_refines_core_witness :
  threads_in_module (core demo_inside) = 0 /\ in_stub <$> l_tramp demo_inside = [true] /\
  reach 462 orderly (init_state 5 (Registry ∅ ∅) [demo_task]) (core demo_inside).
Proof.
  split; [vm_compute; reflexivity|]. split; [vm_compute; reflexivity|].
  refine (proj1 (module_refines_core 462 462 demo_tramp demo_symbols demo_kprobe (KpAddr 1) demo_ksym demo_platform
    (Results 0 0 0 true true true) 5 [demo_task] demo_init demo_module 3 ∅ demo_inside demo_loaded _ _)).
  - apply demo_lives. vm_compute. reflexivity.
  - vm_compute. discriminate.
Defined.
