(* ===== verification/UnloadFair.v ===== *)
(** * A hooked call comes back

    The liveness of the core ([CoreFair.v]) carried over to the loaded module:
    a thread that has run into a hooked wrapper goes through the trampoline and
    [stub] and returns from the trampoline, under every fair schedule of
    threads, timer and administrator, also while the module is being removed.
    Critical sections are single steps here; [UnloadLock.v] puts the locks under
    them. *)

From stdpp Require Import prelude gmap list.
From S2P Require Import Prelude Kernel Store StoreProofs StoreSpec Queue Stats Core CoreProofs CoreLive CoreSpec CoreFair.
From S2P Require Import Hook HookSpec Ioctl Device Unload UnloadProofs UnloadLive UnloadSpec UnloadCore.

(** A calm event, and the first epoch does not end inside [sysThrot_turn_on]. *)
Definition punctual (e : event) (l l' : life) : Prop :=
  calm e l l' /\ (e = ETimer -> ctl (core l) <> COnWorking).

(** Every thread, in the trampoline and in [stub], the timer and the
    administrator's call get their turn again and again. *)
Record fair_life (sched : nat -> event) (n : nat) : Prop := {
  fl_tramp i k : (i < n)%nat -> exists m, (k <= m)%nat /\ sched m = ETramp i;
  fl_stub i k : (i < n)%nat -> exists m c, (k <= m)%nat /\ sched m = EStub i c;
  fl_timer k : exists m, (k <= m)%nat /\ sched m = ETimer;
  fl_ctl k : exists m a, (k <= m)%nat /\ sched m = ECtl a;
}.

Section fair.
Context (SUP NR tramp : Z) (symbols : Z -> option (list Z)) (kprobe : option (list Z) -> kprobe_result).
Context (kp0 : kprobe_result) (ksym : patch_symbol -> Z).
Context (Hpf : platform SUP NR tramp symbols kprobe) (F : gmap loc obj).

#[local] Abbreviation lstep := (life_step SUP NR tramp symbols kprobe kp0 ksym).
#[local] Abbreviation ladvance := (UnloadLive.advance SUP NR tramp symbols kprobe kp0 ksym).
#[local] Abbreviation life_inv := (life_inv SUP NR tramp symbols kprobe F).
#[local] Abbreviation follows := (follows SUP NR tramp symbols kprobe kp0 ksym).

(** ** The trampoline *)

(** A thread's own step in the trampoline takes it further. *)
Lemma tramp_moves i l t : life_inv l -> l_tramp l !! i = Some t -> t <> TOut -> t <> TStub ->
  exists t', l_tramp (ladvance (ETramp i) l) !! i = Some t' /\ (t' = TStub \/ (tramp_rank t' < tramp_rank t)%nat) /\
    ((tramp_rank t < 3)%nat -> t' <> TStub).
Proof.
  intros Hl Ht Hn1 Hn2. assert (past_wait (l_exit l) = false) as Hp by (by eapply inside_not_past).
  assert (i < length (l_tramp l))%nat as Hlt by (by eapply lookup_lt_Some).
  assert (forall f, match l_exit l with XGone => Wrong | _ => f end = f) as Hg by (intros f; by destruct (l_exit l)).
  unfold UnloadLive.advance. simpl. unfold tramp_step. rewrite Ht. destruct t as [|nr|nr| | |]; try done; rewrite Hg.
  - exists (TCounted nr). simpl. rewrite list_lookup_insert_eq by done. split_and!; [done|right; lia|lia].
  - destruct (where_lookup _ _ _ _ _ _ l i _ Hl Ht) as ([tk nr0 p0] & Hth & Ho). simpl in Ho.
    unfold stub_enter. rewrite Hth. destruct p0; try done. simpl.
    eexists. rewrite list_lookup_insert_eq by done. split; [done|]. unfold tramp_of. simpl.
    rewrite list_lookup_insert_eq by by eapply lookup_lt_Some. destruct (working (core l)); (split; [simpl; auto|lia]).
  - exists TLeaving. simpl. rewrite list_lookup_insert_eq by done. split_and!; [done|right; lia|done].
  - exists TOut. simpl. rewrite list_lookup_insert_eq by done. split_and!; [done|right; lia|done].
Qed.

Lemma tramp_kept e i l t : l_tramp l !! i = Some t -> t <> TOut -> t <> TStub -> e <> ETramp i ->
  l_tramp (ladvance e l) !! i = Some t.
Proof.
  intros Ht Hn1 Hn2 He. unfold UnloadLive.advance. destruct e as [j nr|j|j c| |u uid cmd arg|a| |]; simpl.
  - unfold call_wrapper. destruct (l_tramp l !! j) as [[]|] eqn:Hj; try done. destruct (intercepted _ _ _ _ _); [|done]. simpl.
    rewrite list_lookup_insert_ne; [done|congruence].
  - assert (j <> i) as Hne by congruence. unfold tramp_step, lift_thread. repeat case_match; simplify_eq; try done; simpl; by rewrite list_lookup_insert_ne.
  - unfold in_stub_step, lift_thread. destruct (l_tramp l !! j) as [[]|] eqn:Hj; try done.
    assert (j <> i) as Hne by congruence. repeat case_match; simplify_eq; try done; simpl; by rewrite list_lookup_insert_ne.
  - unfold epoch_step, lift_core. by repeat case_match; simplify_eq.
  - unfold ioctl_step. by repeat case_match; simplify_eq.
  - unfold call_step, lift_core. by repeat case_match; simplify_eq.
  - unfold exit_enter, lift_core. by repeat case_match; simplify_eq.
  - unfold cleanup_step. by repeat case_match; simplify_eq.
Qed.

(** A step of anybody leaves a thread in [stub] there, or takes it back. *)
Lemma stub_kept e i l : life_inv l -> l_tramp l !! i = Some TStub ->
  l_tramp (ladvance e l) !! i = Some TStub \/ l_tramp (ladvance e l) !! i = Some TBack.
Proof.
  intros Hl Ht. assert (i < length (l_tramp l))%nat as Hlt by (by eapply lookup_lt_Some).
  unfold UnloadLive.advance. destruct e as [j nr|j|j c| |u uid cmd arg|a| |]; simpl.
  - unfold call_wrapper. destruct (l_tramp l !! j) as [[]|] eqn:Hj; auto. destruct (intercepted _ _ _ _ _); [|auto]. simpl.
    left. rewrite list_lookup_insert_ne; [done|congruence].
  - left. destruct (decide (j = i)) as [->|Hne]; [unfold tramp_step; by rewrite Ht|].
    unfold tramp_step, lift_thread. repeat case_match; simplify_eq; try done; simpl; by rewrite list_lookup_insert_ne.
  - unfold in_stub_step. destruct (l_tramp l !! j) as [[]|]; auto. destruct (threads (core l) !! j) as [th|]; auto.
    assert (forall o, match lift_thread j o l with Go l' => l_tramp l' !! i | _ => l_tramp l !! i end = Some TStub \/
      match lift_thread j o l with Go l' => l_tramp l' !! i | _ => l_tramp l !! i end = Some TBack) as Hlift.
    { intros [| |s]; simpl; [auto..|]. destruct (decide (j = i)) as [->|Hne]; [|rewrite list_lookup_insert_ne; auto].
      rewrite list_lookup_insert_eq by done. unfold tramp_of. repeat case_match; auto. }
    destruct (_ && _); [by destruct (l_exit l); left|]. specialize (Hlift (stub_step SUP j th c (core l))).
    destruct (l_exit l), (lift_thread j _ l); auto.
  - left. unfold epoch_step, lift_core. by repeat case_match; simplify_eq.
  - left. unfold ioctl_step. by repeat case_match; simplify_eq.
  - left. unfold call_step, lift_core. by repeat case_match; simplify_eq.
  - left. unfold exit_enter, lift_core. by repeat case_match; simplify_eq.
  - left. unfold cleanup_step. by repeat case_match; simplify_eq.
Qed.

(** ** Runs of a schedule *)

Lemma running_refresh o s : running s -> running (refresh o s).
Proof. intros Hr. destruct o as [r|]; [|done]. apply (running_same s); try done. apply (inv_same s); try apply Hr; done. Qed.

Lemma follows_timely e l lab o : follows e l lab o -> (forall l', lstep e l = Go l' -> punctual e l l') ->
  forall s', step SUP lab (core l) = Next s' -> timely lab (core l) s'.
Proof.
  intros Hf Hp s' Es. destruct (fo_orderly _ _ _ _ _ _ _ _ _ _ _ Hf s' Es) as [Ho [l' El]]. split; [done|].
  intros ->. pose proof (fo_timer _ _ _ _ _ _ _ _ _ _ _ Hf eq_refl) as ->. by apply (proj2 (Hp l' El)).
Qed.

Lemma running_event e l : life_inv l -> running (core l) -> (forall l', lstep e l = Go l' -> punctual e l l') ->
  l_exit (ladvance e l) <> XGone -> running (core (ladvance e l)).
Proof.
  intros Hl Hr Hp Hx.
  destruct (event_follows SUP NR tramp symbols kprobe kp0 ksym Hpf F e l Hl Hx) as (lab & o & Hf); [intros l' E; by apply Hp|].
  rewrite (fo_core _ _ _ _ _ _ _ _ _ _ _ Hf). apply running_refresh. unfold CoreLive.advance.
  destruct (step SUP lab (core l)) as [| |s'] eqn:E; [done..|]. eapply running_step; [done..|]. by eapply follows_timely.
Qed.

Section runs.
Context (sched : nat -> event) (l0 : life) (N i : nat) (Hf : fair_life sched N) (Hi : (i < N)%nat).
#[local] Abbreviation st := (sched_run ladvance sched l0).
Context (H0 : life_inv l0) (Hrun0 : l_exit l0 <> XGone -> running (core l0)).
Context (Htm : forall n l', lstep (sched n) (st n) = Go l' -> punctual (sched n) (st n) l').

Lemma st_inv n : life_inv (st n).
Proof.
  induction n as [|n IH]; [done|]. cbn [sched_run]. unfold UnloadLive.advance at 1.
  pose proof (good_step SUP NR tramp symbols kprobe kp0 ksym Hpf F (sched n) (st n) IH) as Hg.
  destruct (lstep (sched n) (st n)) as [| |l'] eqn:E; [done..|]. by apply Hg, Htm.
Qed.

Lemma st_running n : l_exit (st n) <> XGone -> running (core (st n)).
Proof.
  induction n as [|n IH]; [done|]. intros Hx. cbn [sched_run] in *. apply running_event; [apply st_inv| |apply Htm|done].
  apply IH. intros Hg. destruct Hx. unfold UnloadLive.advance at 1.
  destruct (lstep (sched n) (st n)) as [| |l'] eqn:E; [done..|]. by eapply gone_stays.
Qed.

Lemma inside_not_gone n t : l_tramp (st n) !! i = Some t -> t <> TOut -> l_exit (st n) <> XGone.
Proof. intros Ht Hn. eapply not_gone, inside_not_past; [apply st_inv|done..]. Qed.

Lemma fair_event r n : r = RThread i \/ r = RTimer \/ r = RCtl -> exists m, (n <= m)%nat /\ role_of_event (sched m) = r.
Proof.
  intros [->|[->| ->]].
  - destruct (fl_stub _ _ Hf i n Hi) as (m & c & Hm & E). exists m. by rewrite E.
  - destruct (fl_timer _ _ Hf n) as (m & Hm & E). exists m. by rewrite E.
  - destruct (fl_ctl _ _ Hf n) as (m & a & Hm & E). exists m. by rewrite E.
Qed.

(** A progress argument about the core holds for the module while the thread
    is in [stub]. *)
Section lift.
Context (P Q : state -> Prop) (mu : state -> nat) (dec : state -> role).
Context (Hdec : forall s, P s -> dec s = RThread i \/ dec s = RTimer \/ dec s = RCtl).
Context (Hstep : forall lab s, P s -> (forall s', step SUP lab s = Next s' -> timely lab s s') ->
  let s' := CoreLive.advance SUP lab s in
  Q s \/ Q s' \/ (P s' /\ ((mu s' < mu s)%nat \/ (mu s' = mu s /\ dec s' = dec s /\ role_of lab <> dec s)))).
Context (Hreg : forall r s, (P s -> P (set_reg r s)) /\ (Q s -> Q (set_reg r s)) /\ mu (set_reg r s) = mu s /\ dec (set_reg r s) = dec s).

Lemma refresh_same o s : (P s -> P (refresh o s)) /\ (Q s -> Q (refresh o s)) /\ mu (refresh o s) = mu s /\ dec (refresh o s) = dec s.
Proof. destruct o as [r|]; [apply Hreg|done]. Qed.

Lemma in_stub_reach n : l_tramp (st n) !! i = Some TStub -> P (core (st n)) ->
  exists m, (n <= m)%nat /\ (l_tramp (st m) !! i = Some TBack \/ (l_tramp (st m) !! i = Some TStub /\ Q (core (st m)))).
Proof.
  intros Ht Hp.
  apply (roles_reach st (fun n => role_of_event (sched n)) (fun l => l_tramp l !! i = Some TStub /\ P (core l))
    (fun l => l_tramp l !! i = Some TBack \/ (l_tramp l !! i = Some TStub /\ Q (core l)))
    (fun l => mu (core l)) (fun l => dec (core l))); [|clear n Ht Hp; intros n [Ht Hp]|done].
  - intros l m [_ Hl]. by apply fair_event, Hdec.
  - destruct (stub_kept (sched n) i (st n) (st_inv n) Ht) as [Ht'|Ht']; [|by right; left; left].
    assert (l_exit (st (S n)) <> XGone) as Hx by (by eapply inside_not_gone).
    destruct (event_follows SUP NR tramp symbols kprobe kp0 ksym Hpf F (sched n) (st n) (st_inv n) Hx) as (lab & o & Hfo);
      [intros l' E; by apply Htm|].
    pose proof (follows_timely _ _ _ _ Hfo (Htm n)) as Htl. pose proof (fo_core _ _ _ _ _ _ _ _ _ _ _ Hfo) as Hc.
    cbn [sched_run]. rewrite Hc. destruct (refresh_same o (CoreLive.advance SUP lab (core (st n)))) as (HP & HQ & -> & ->).
    destruct (Hstep lab (core (st n)) Hp Htl) as [Hq|[Hq|[Hp' Hm]]]; [by left; right|right; left; right; split; [done|by apply HQ]|].
    right. right. split; [split; [done|by apply HP]|]. destruct Hm as [Hm|(Hm & Hd & Hr)]; [by left|right]. split_and!; [done..|].
    intros He. apply Hr. rewrite <-He. eapply (fo_role _ _ _ _ _ _ _ _ _ _ _ Hfo i Ht). rewrite He. by apply Hdec.
Qed.
End lift.

Lemma draining_reg j r s : draining j s -> draining j (set_reg r s).
Proof. intros [Hr Hw Hth]. split; [by apply (running_refresh (Some r))|done|done]. Qed.
Lemma queued_reg j r s : queued j s -> queued j (set_reg r s).
Proof. intros [Hr Hw Hth]. split; [by apply (running_refresh (Some r))|done|done]. Qed.
Lemma arriving_reg j r s : arriving j s -> arriving j (set_reg r s).
Proof. intros [Hr Hw Hth]. split; [by apply (running_refresh (Some r))|done|done]. Qed.
Lemma on_its_way_reg j r s : on_its_way j s -> on_its_way j (set_reg r s).
Proof. intros [?|?]; [by left|right; by apply draining_reg]. Qed.

Lemma stub_not_out n : l_tramp (st n) !! i = Some TStub -> out i (core (st n)) -> False.
Proof.
  intros Ht (th & r & Hth & Hp). destruct (where_lookup _ _ _ _ _ _ _ _ _ (st_inv n) Ht) as (th' & Hth' & Ho).
  rewrite Hth in Hth'. injection Hth' as <-. rewrite Hp in Ho. done.
Qed.

(** *** In [stub] *)

Lemma drained_back n : l_tramp (st n) !! i = Some TStub -> draining i (core (st n)) ->
  exists m, (n <= m)%nat /\ l_tramp (st m) !! i = Some TBack.
Proof.
  intros Ht Hd. destruct (in_stub_reach (draining i) (out i) (drain_distance i) (drain_helper i)) with (n := n)
    as (m & Hm & [?|[Ht' Ho]]); [| | |done|done|by exists m|by destruct (stub_not_out m Ht' Ho)].
  - intros s _. unfold drain_helper. destruct (asleep i s), (ctl s), (timer s); auto.
  - intros lab s Hs Htl. right. by apply draining_step.
  - intros r s. split; [by apply draining_reg|]. done.
Qed.

Lemma queued_back n : l_tramp (st n) !! i = Some TStub -> queued i (core (st n)) ->
  exists m, (n <= m)%nat /\ l_tramp (st m) !! i = Some TBack.
Proof.
  intros Ht Hd. destruct (in_stub_reach (queued i) (on_its_way i) (distance_at i) (helper_at i)) with (n := n)
    as (m & Hm & [?|[Ht' [Ho|Hdr]]]); [| | |done|done|by exists m|by destruct (stub_not_out m Ht' Ho)|].
  - intros s [_ _ (th & Hth & Hl)]. unfold helper_at. rewrite Hth. simpl.
    unfold helper; destruct (th_pc th); try destruct (flagged _ _); naive_solver.
  - intros lab s Hs Htl. right. by apply queued_step.
  - intros r s. split; [by apply queued_reg|]. split; [by apply on_its_way_reg|]. done.
  - destruct (drained_back m Ht' Hdr) as (m' & ? & ?). exists m'. split; [lia|done].
Qed.

Lemma stub_back n : l_tramp (st n) !! i = Some TStub -> exists m, (n <= m)%nat /\ l_tramp (st m) !! i = Some TBack.
Proof.
  intros Ht. assert (running (core (st n))) as Hr by (apply st_running; by eapply inside_not_gone).
  destruct (where_lookup _ _ _ _ _ _ _ _ _ (st_inv n) Ht) as (th & Hth & Ho). simpl in Ho.
  assert (exists th, threads (core (st n)) !! i = Some th /\ is_out (th_pc th) = false) as Hin by (exists th; by destruct (is_out _)).
  destruct (working (core (st n))) eqn:Hw; [|by apply drained_back].
  destruct (in_stub_reach (arriving i) (fun s => queued i s \/ on_its_way i s) (rank_at i) (fun _ => RThread i)) with (n := n)
    as (m & Hm & [?|[Ht' Hq]]); [| | |done|done|by exists m|].
  - auto.
  - intros lab s Hs Htl. destruct (arriving_step SUP i lab s Hs Htl) as [?|[?|[? [?|[? ?]]]]]; naive_solver.
  - intros r s. split; [by apply arriving_reg|]. split; [|done].
    intros [?|?]; [left; by apply queued_reg|right; by apply on_its_way_reg].
  - assert (exists m', (m <= m')%nat /\ l_tramp (st m') !! i = Some TBack) as (m' & ? & ?); [|exists m'; split; [lia|done]].
    destruct Hq as [Hq|[Hx|Hd]]; [by apply queued_back|by destruct (stub_not_out m Ht' Hx)|by apply drained_back].
Qed.

(** *** In the trampoline *)

Definition passing (k : nat) (l : life) : Prop :=
  exists t, l_tramp l !! i = Some t /\ t <> TOut /\ t <> TStub /\ (tramp_rank t < k)%nat.
Definition passed (k : nat) (l : life) : Prop :=
  l_tramp l !! i = Some TOut \/ (l_tramp l !! i = Some TStub /\ (3 < k)%nat).

Lemma tramp_reach k n : passing k (st n) -> exists m, (n <= m)%nat /\ passed k (st m).
Proof.
  apply (roles_reach st sched (passing k) (passed k) (fun l => from_option tramp_rank 0%nat (l_tramp l !! i)) (fun _ => ETramp i)).
  - intros _ m _. by apply (fl_tramp _ _ Hf).
  - intros m (t & Ht & Hn1 & Hn2 & Hk). right. cbn [sched_run].
    assert (sched m = ETramp i \/ sched m <> ETramp i) as [He|He].
    { destruct (sched m) as [|j| | | | | |]; try (by right). destruct (decide (j = i)) as [->|]; [by left|right; congruence]. }
    + rewrite He. destruct (tramp_moves i _ t (st_inv m) Ht Hn1 Hn2) as (t' & Ht' & Hlt & H3). unfold passing, passed. rewrite Ht', Ht.
      destruct (decide (t' = TStub)) as [->|Hs]; [left; right; split; [done|]; destruct (decide (tramp_rank t < 3)%nat); [by destruct H3|lia]|].
      destruct (decide (t' = TOut)) as [->|Ho]; [left; by left|]. destruct Hlt as [?|Hlt]; [done|]. right. simpl. split; [|by left].
      exists t'. split_and!; [done..|lia].
    + right. rewrite (tramp_kept _ i _ t Ht Hn1 Hn2 He), Ht. split; [exists t; by rewrite (tramp_kept _ i _ t Ht Hn1 Hn2 He)|]. by right.
Qed.

Lemma back_out n : l_tramp (st n) !! i = Some TBack -> exists m, (n <= m)%nat /\ l_tramp (st m) !! i = Some TOut.
Proof.
  intros Ht. destruct (tramp_reach 3 n) as (m & Hm & [?|[_ ?]]); [exists TBack; split_and!; [done..|simpl; lia]|by exists m|lia].
Qed.

Lemma call_out n t : l_tramp (st n) !! i = Some t -> exists m, (n <= m)%nat /\ l_tramp (st m) !! i = Some TOut.
Proof.
  intros Ht. destruct (decide (t = TOut)) as [->|Hn]; [by exists n|].
  assert (exists m, (n <= m)%nat /\ passed 5 (st m)) as (m & Hm & [?|[Hs _]]); [|by exists m|].
  - destruct (decide (t = TStub)) as [->|Hs]; [exists n; split; [done|right; split; [done|lia]]|].
    apply tramp_reach. exists t. split_and!; [done..|]. destruct t; simpl; lia.
  - destruct (stub_back m Hs) as (m1 & ? & Hb). destruct (back_out m1 Hb) as (m2 & ? & ?). exists m2. split; [lia|done].
Qed.
End runs.
End fair.

Section loaded.
Context (SUP NR tramp : Z) (symbols : Z -> option (list Z)) (kprobe : option (list Z) -> kprobe_result).
Context (kp0 : kprobe_result) (ksym : patch_symbol -> Z).
Context (Hpf : platform SUP NR tramp symbols kprobe).

#[local] Abbreviation lstep := (life_step SUP NR tramp symbols kprobe kp0 ksym).
#[local] Abbreviation ladvance := (UnloadLive.advance SUP NR tramp symbols kprobe kp0 ksym).
#[local] Abbreviation loaded := (loaded SUP NR tramp symbols kprobe).

(** A run of the module, event by event, in which every event is punctual. *)
Definition punctual_run (sched : nat -> event) (l0 : life) : Prop :=
  forall n l', lstep (sched n) (sched_run ladvance sched l0 n) = Go l' -> punctual (sched n) (sched_run ladvance sched l0 n) l'.

(** When critical sections are single steps, every thread is out of the module
    again and again. *)
Lemma hooked_calls_out k m tasks σ md sp t sched i n : loaded k m tasks σ md sp t -> 0 < s32 m ->
  (i < length tasks)%nat -> fair_life sched (length tasks) -> punctual_run sched (life0 SUP NR md sp t) ->
  exists n', (n <= n')%nat /\ l_tramp (sched_run ladvance sched (life0 SUP NR md sp t) n') !! i = Some TOut.
Proof.
  intros Hl Hm Hi Hf Hp. pose proof (loaded_inv SUP NR tramp symbols kprobe _ _ _ _ _ _ _ Hl) as H0.
  assert (running (core (life0 SUP NR md sp t))) as Hr.
  { eapply (running_reach SUP m (Registry ∅ ∅) tasks); [apply Hl|done|]. eapply loaded_reach; [|done].
    intros x s s' [->| ->] Hc; (split; [split; [by intros ?|done]|done]). }
  destruct (lookup_lt_is_Some_2 (l_tramp (sched_run ladvance sched (life0 SUP NR md sp t) n)) i) as [x Hx].
  { rewrite run_length. by rewrite (loaded_length SUP NR tramp symbols kprobe _ _ _ _ _ _ _ Hl). }
  eapply (call_out SUP NR tramp symbols kprobe kp0 ksym Hpf (heap σ)); [done..|by intros _|done|exact Hx].
Qed.
End loaded.

(** ** A run *)

Definition steady (e : event) : bool := match e with ETramp _ | EStub _ _ | ETimer | ECtl _ | ECall _ _ => true | _ => false end.

(** Threads and timer leave the loaded module and an idle administrator alone. *)
Lemma steady_step SUP NR tramp symbols kprobe kp0 ksym e l l' r : steady e = true -> l_exit l = XLoaded -> ctl (core l) = CIdle r ->
  life_step SUP NR tramp symbols kprobe kp0 ksym e l = Go l' -> l_exit l' = XLoaded /\ ctl (core l') = CIdle r /\ punctual e l l'.
Proof.
  intros He Hx Hc E. assert (l_exit l' = XLoaded /\ ctl (core l') = CIdle r) as [Hx' Hc'].
  { destruct e as [i nr|i|i c| |u uid cmd arg|a| |]; try done; simpl in E.
    - unfold call_wrapper in E. repeat case_match; by simplify_eq.
    - unfold tramp_step, lift_thread, stub_enter in E. repeat case_match; by simplify_eq.
    - unfold in_stub_step in E. destruct (l_tramp l !! i) as [[]|]; try done. destruct (threads (core l) !! i) as [th|]; [|done].
      rewrite Hx in E. destruct (_ && _); [done|]. destruct (stub_step SUP i th c (core l)) as [| |s] eqn:Es; try done. injection E as <-.
      destruct (stub_step_frame _ _ _ _ _ _ Es) as (p & sx & -> & _ & _ & Hsc & _). simpl. by rewrite Hsc.
    - unfold epoch_step in E. rewrite Hx in E. destruct (timer_step (core l)) as [| |s] eqn:Es; try done. injection E as <-.
      destruct (timer_step_frame _ _ Es) as (_ & _ & Hsc & _). simpl. by rewrite Hsc.
    - unfold call_step in E. rewrite Hx in E. unfold ctl_step in E. by rewrite Hc in E. }
  split; [done|]. split; [done|]. split; [|intros _; by rewrite Hc]. split_and!.
  - intros Hd. congruence.
  - intros _. by rewrite Hc.
  - congruence.
Qed.
