(* ===== verification/UnloadLock.v ===== *)
(** * The locks of the loaded module

    The module's life ([Unload.v]) under the locks its code takes ([Lock.v]): a
    thread that has run into a hooked wrapper leaves the module again, with spin
    locks, CPUs and the softirq in the picture. *)

From stdpp Require Import prelude gmap list.
From S2P Require Import Prelude Kernel Store StoreProofs StoreSpec Queue Stats Core CoreProofs CoreLive CoreSpec CoreFair Lock CoreLock.
From S2P Require Import Hook HookSpec Ioctl Device Unload UnloadProofs UnloadLive UnloadSpec UnloadCore UnloadFair.

(** ** The module as a system with locks *)

Inductive event_kind := KTramp (i : nat) | KStub (i : nat) | KTimer | KCtl | KOther.

Definition kind_of (e : event) : event_kind :=
  match e with ETramp i => KTramp i | EStub i _ => KStub i | ETimer => KTimer | ECtl _ => KCtl | _ => KOther end.

Definition kind_agent (κ : event_kind) : agent :=
  match κ with KTramp i | KStub i => AThread i | KTimer => ATimer | _ => ACtl end.

(** Who moves: a thread, the callback, or the administrator (with [rmmod]). *)
Definition event_agent (e : event) : agent :=
  match e with ECall i _ | ETramp i | EStub i _ => AThread i | ETimer => ATimer | _ => ACtl end.

(** The events that go on inside the code that takes the locks. *)
Definition takes_locks (e : event) : bool := match e with EStub _ _ | ETimer | ECtl _ => true | _ => false end.

Definition event_reaches_lock (e : event) (l : life) : bool :=
  match e with EStub i c => reaches_lock (LThread i c) (core l) | _ => true end.

Definition event_inside_lock (l : life) (e : event) : event :=
  match e with
  | EStub i c => if before_lock i (core l) then EStub i (Choice true (ch_now c) (ch_signal c)) else e
  | _ => e
  end.

(** An event that is never possible. *)
Definition no_event (l : life) : event := ETramp (length (l_tramp l)).

Definition fair_kind (N : nat) (κ : event_kind) : Prop :=
  match κ with KTramp i | KStub i => (i < N)%nat | KOther => False | _ => True end.

Abbreviation life_locked := (locked life agent lock).
Abbreviation life_turn := (turn event agent).

Section life.
Context (SUP NR tramp : Z) (symbols : Z -> option (list Z)) (kprobe : option (list Z) -> kprobe_result).
Context (kp0 : kprobe_result) (ksym : patch_symbol -> Z).

#[local] Abbreviation lstep := (life_step SUP NR tramp symbols kprobe kp0 ksym).
#[local] Abbreviation ladvance := (UnloadLive.advance SUP NR tramp symbols kprobe kp0 ksym).

Definition life_step_of (e : event) (l : life) : option life := match lstep e l with Go l' => Some l' | _ => None end.

Definition life_locking : Locking life event agent lock event_kind := {|
  lk_step := life_step_of;
  lk_agent := event_agent;
  lk_kind := kind_of;
  lk_of := kind_agent;
  lk_main := takes_locks;
  lk_wants a l := section_of SUP a (core l);
  lk_needs := event_reaches_lock;
  lk_body := event_inside_lock;
  lk_nested a l := inner_lock a (core l);
  lk_timer := ATimer;
  lk_active l := in_callback (core l);
  lk_reader := StatsLock;
|}.

#[local] Hint Extern 0 (Locking life _ agent lock _) => exact life_locking : typeclass_instances.

Context (Hpf : platform SUP NR tramp symbols kprobe) (F : gmap loc obj).
#[local] Abbreviation life_inv := (life_inv SUP NR tramp symbols kprobe F).
#[local] Abbreviation follows := (follows SUP NR tramp symbols kprobe kp0 ksym).

(** ** The laws *)

Lemma life_step_go e l l' : life_step_of e l = Some l' -> lstep e l = Go l'.
Proof. unfold life_step_of. destruct (lstep e l); by intros [= <-]. Qed.

(** With throttling off and no call under way nobody is at a lock. *)
Lemma off_no_section a s : inv s -> off_idle s -> section_of SUP a s = None /\ in_callback s = false.
Proof.
  intros Hi Ho. destruct (off_idle_out s Hi Ho) as [Hall Ht]. destruct Ho as [_ [r Hc]]. unfold in_callback. rewrite Ht. split; [|done].
  destruct a as [i| |]; simpl; [|by rewrite Ht|by rewrite Hc]. destruct (threads s !! i) as [th|] eqn:E; [|done]. simpl.
  pose proof (Forall_lookup_1 _ _ _ _ Hall E) as Hout. simpl in Hout. destruct th as [t nr []]; done.
Qed.

(** The core follows every punctual event up to the last. *)
Lemma event_cases e l l' : life_inv l -> lstep e l = Go l' -> punctual e l l' ->
  (forall a, section_of SUP a (core l) = None) /\ in_callback (core l) = false \/
  exists lab o, follows e l lab o /\ core l' = refresh o (CoreLive.advance SUP lab (core l)).
Proof.
  intros Hl E [Hc _]. destruct (decide (l_exit l' = XGone)) as [Hx|Hx].
  - left. assert (off_idle (core l)) as Ho.
    { pose proof (li_off _ _ _ _ _ _ _ Hl) as H. unfold off_inv in H.
      destruct (gone_before _ _ _ _ _ _ _ _ _ _ E Hx) as [[Hg _]|[Hg _]]; by rewrite Hg in H. }
    split; [intros a; apply (off_no_section a)|apply (off_no_section ACtl)]; done || apply Hl.
  - right. pose proof (ladvance_go _ _ _ _ _ _ _ _ _ _ E) as Ha.
    destruct (event_follows SUP NR tramp symbols kprobe kp0 ksym Hpf F e l Hl) as (lab & o & Hf);
      [by rewrite Ha|intros l1; rewrite E; by intros [= <-]|].
    exists lab, o. split; [done|]. rewrite <-Ha. apply Hf.
Qed.

Lemma event_role e : takes_locks e = true -> role_agent (role_of_event e) = event_agent e.
Proof. by destruct e. Qed.

(** The label is the event's, or one that takes no lock. *)
Lemma follows_label_of e l lab o s' a : follows e l lab o -> step SUP lab (core l) = Next s' ->
  (takes_locks e = true -> event_agent e <> a) -> role_agent (role_of lab) <> a \/ role_of lab = ROther.
Proof.
  intros Hf E Ha. destruct (fo_who _ _ _ _ _ _ _ _ _ _ _ Hf s' E) as [?|Hr]; [by right|]. rewrite Hr.
  destruct (takes_locks e) eqn:Ht; [left; rewrite event_role by done; by apply Ha|right]. by destruct e.
Qed.

Lemma section_refresh a o s : section_of SUP a (refresh o s) = section_of SUP a s.
Proof. by destruct o. Qed.

Lemma life_section_kept e l l' a k : life_inv l -> lstep e l = Go l' -> punctual e l l' ->
  (takes_locks e = true -> event_agent e <> a) -> section_of SUP a (core l) = Some k -> section_of SUP a (core l') = Some k.
Proof.
  intros Hl E Hp Ha Hk. destruct (event_cases e l l' Hl E Hp) as [[Hn _]|(lab & o & Hf & ->)]; [by rewrite Hn in Hk|].
  rewrite section_refresh. unfold CoreLive.advance. destruct (step SUP lab (core l)) as [| |s'] eqn:Es; [done..|].
  eapply section_kept; [apply Hl|done| |done]. by eapply follows_label_of.
Qed.

Lemma life_callback_kept e l l' : life_inv l -> lstep e l = Go l' -> punctual e l l' -> e <> ETimer ->
  in_callback (core l) = true -> timer (core l') = timer (core l).
Proof.
  intros Hl E Hp He Ha. destruct (event_cases e l l' Hl E Hp) as [[_ Hn]|(lab & o & Hf & ->)]; [congruence|].
  transitivity (timer (CoreLive.advance SUP lab (core l))); [by destruct o|]. unfold CoreLive.advance.
  destruct (step SUP lab (core l)) as [| |s'] eqn:Es; [done..|]. eapply callback_kept; [apply Hl|done| |done].
  intros ->. by apply He, (fo_timer _ _ _ _ _ _ _ _ _ _ _ Hf).
Qed.

Lemma life_callback_moves l : life_inv l -> in_callback (core l) = true ->
  exists l', lstep ETimer l = Go l' /\ (callback_ticks (timer (core l')) < callback_ticks (timer (core l)))%nat.
Proof.
  intros Hl Ha. destruct (callback_moves (core l) (li_core _ _ _ _ _ _ _ Hl) Ha) as (s' & E & Hlt). exists (set_core s' l). split; [|done].
  simpl. unfold epoch_step. rewrite E. pose proof (li_off _ _ _ _ _ _ _ Hl) as Ho. unfold off_inv in Ho.
  destruct (l_exit l); try done. destruct (off_no_section ACtl _ (li_core _ _ _ _ _ _ _ Hl) Ho). congruence.
Qed.

Lemma life_length l : life_inv l -> length (threads (core l)) = length (l_tramp l).
Proof. intros Hl. pose proof (f_equal length (li_where _ _ _ _ _ _ _ Hl)) as H. unfold outs in H. by rewrite !length_fmap in H. Qed.

#[export] Instance life_laws N : LockingLaws (H := life_locking) (fun l => life_inv l /\ length (l_tramp l) = N) punctual (fair_kind N)
  (fun l => callback_ticks (timer (core l))).
Proof.
  split; simpl.
  - intros e l l' [Hl HN] E%life_step_go [Hc _]. split.
    + pose proof (good_step SUP NR tramp symbols kprobe kp0 ksym Hpf F e l Hl) as Hg. rewrite E in Hg. by apply Hg.
    + rewrite <-HN, <-(ladvance_go _ _ _ _ _ _ _ _ _ _ E). apply advance_length.
  - intros e l l' a k [Hl _] E%life_step_go Hp Hm Hk. by eapply life_section_kept.
  - intros l e. destruct e as [i nr|i|i c| |u uid cmd arg|a| |]; try done. simpl. by destruct (before_lock i (core l)).
  - intros e l [Hl _] Ha He. assert (e = ETimer) as -> by (by destruct e). destruct (life_callback_moves l Hl Ha) as (l' & E & Hlt).
    exists l'. split; [|done]. unfold life_step_of. by rewrite E.
  - intros e l l' [Hl _] E%life_step_go Hp He Ha.
    assert (timer (core l') = timer (core l)) as Ht by (eapply life_callback_kept; [done..|by intros ->|done]).
    rewrite Ht. split; [|done]. unfold in_callback. by rewrite Ht.
  - intros a l k k' [Hl _] Hk Hi. exact (@ll_nested _ _ _ _ _ _ _ _ _ _ (core_laws SUP _) a (core l) k k' (conj (li_core _ _ _ _ _ _ _ Hl) eq_refl) Hk Hi).
  - intros κ e Hk <-. by destruct e.
  - intros a l k [Hl HN] Hk. destruct a as [i| |]; [|by exists KTimer; split_and!; [..|intros []]|by exists KCtl; split_and!; [..|intros []]].
    exists (KStub i). split_and!; [|done|by intros []]. simpl in *. rewrite <-HN, <-life_length by done.
    destruct (threads (core l) !! i) eqn:Hi; [|done]. by eapply lookup_lt_Some.
  - intros e e' He He' Hag. destruct e, e'; simpl in *; by simplify_eq.
  - exists KTimer. split_and!; [done..|]. by intros [].
Qed.

(** ** The events the module takes *)

Section runs.
Context (readers : nat) (sched : nat -> life_turn) (σ : life_locked).
#[local] Abbreviation st := (lock_trace readers sched σ).

Definition life_sched : nat -> event := below readers sched σ no_event.

Lemma no_event_stuck l : life_step_of (no_event l) l = None.
Proof. unfold life_step_of, no_event. simpl. unfold tramp_step. by rewrite lookup_ge_None_2. Qed.

Lemma life_trace n : sched_run ladvance life_sched (base σ) n = base (st n).
Proof.
  induction n as [|n IH]; [done|]. rewrite (below_step (HB := life_locking) readers sched σ no_event no_event_stuck n). cbn [sched_run]. rewrite IH.
  unfold UnloadLive.advance, lk_advance. unfold life_sched. generalize (below readers sched σ no_event n). intros e. simpl. unfold life_step_of. by destruct (lstep e _).
Qed.

Context (N : nat) (H0 : life_inv (base σ) /\ length (l_tramp (base σ)) = N) (Hun : unlocked σ).
Context (Hg : guarded readers punctual sched σ) (Hq : undisturbed readers sched σ) (Hf : fair_locked readers (fair_kind N) sched σ).

Lemma life_sched_fair κ n : fair_kind N κ -> exists m, (n <= m)%nat /\ kind_of (life_sched m) = κ.
Proof.
  intros Hk. exact (below_fair (HB := life_locking) readers (fun l => life_inv l /\ length (l_tramp l) = N) punctual (fair_kind N)
    (fun l => callback_ticks (timer (core l))) sched σ H0 Hun Hg Hq Hf no_event κ n Hk).
Qed.

Lemma life_fair : fair_life life_sched N.
Proof.
  split.
  - intros i n Hi. destruct (life_sched_fair (KTramp i) n Hi) as (m & Hm & Hr). exists m. destruct (life_sched m); try done. by injection Hr as ->.
  - intros i n Hi. destruct (life_sched_fair (KStub i) n Hi) as (m & Hm & Hr). exists m. destruct (life_sched m) as [| |j c| | | | |]; try done.
    injection Hr as ->. by exists c.
  - intros n. destruct (life_sched_fair KTimer n I) as (m & Hm & Hr). exists m. by destruct (life_sched m).
  - intros n. destruct (life_sched_fair KCtl n I) as (m & Hm & Hr). exists m. destruct (life_sched m) as [| | | | |a| |]; try done. by exists a.
Qed.

Lemma life_punctual : punctual_run SUP NR tramp symbols kprobe kp0 ksym life_sched (base σ).
Proof.
  intros n l'. rewrite life_trace. intros E. apply (below_guarded (HB := life_locking) readers punctual sched σ Hg no_event no_event_stuck n l').
  unfold life_sched in E. simpl. unfold life_step_of. by rewrite E.
Qed.
End runs.
End life.

Section loaded.
Context (SUP NR tramp : Z) (symbols : Z -> option (list Z)) (kprobe : option (list Z) -> kprobe_result).
Context (kp0 : kprobe_result) (ksym : patch_symbol -> Z).
Context (Hpf : platform SUP NR tramp symbols kprobe).

#[local] Abbreviation loaded := (loaded SUP NR tramp symbols kprobe).
#[local] Hint Extern 0 (Locking life _ agent lock _) => exact (life_locking SUP NR tramp symbols kprobe kp0 ksym) : typeclass_instances.

(** C3: a syscall of a hooked wrapper comes back: from the moment the module is
    loaded, with a positive limit, with the locks as the code takes them and
    under every punctual schedule in which threads, timer, administrator and
    readers of [/proc/SYSTHROT] get turns, whatever the other threads call,
    whatever the administrator registers, hooks, unhooks and switches, wherever
    code migrates, and even when the module is being removed, a thread that is
    anywhere in the trampoline or in [stub] has left the module's text after
    finitely many further steps.  The proviso is that no callback starts on a CPU
    whose code is at one of the module's spin locks. *)
Theorem hooked_call_returns k m tasks σ md sp t readers cpus sched i n : loaded k m tasks σ md sp t -> 0 < s32 m ->
  (i < length tasks)%nat ->
  let σ0 : life_locked := Locked (life0 SUP NR md sp t) (fun _ => []) cpus in
  fair_locked readers (fair_kind (length tasks)) sched σ0 -> guarded readers punctual sched σ0 -> undisturbed readers sched σ0 ->
  exists n', (n <= n')%nat /\ l_tramp (base (lock_trace readers sched σ0 n')) !! i = Some TOut.
Proof.
  intros Hl Hm Hi σ0 Hf Hg Hq. pose proof (loaded_inv SUP NR tramp symbols kprobe _ _ _ _ _ _ _ Hl) as H0.
  pose proof (loaded_length SUP NR tramp symbols kprobe _ _ _ _ _ _ _ Hl) as HN.
  destruct (hooked_calls_out SUP NR tramp symbols kprobe kp0 ksym Hpf k m tasks σ md sp t
    (life_sched SUP NR tramp symbols kprobe kp0 ksym readers sched σ0) i n Hl Hm Hi) as (n' & Hn' & Ho).
  - by apply (life_fair SUP NR tramp symbols kprobe kp0 ksym Hpf (heap σ)).
  - by apply (life_punctual SUP NR tramp symbols kprobe kp0 ksym readers sched σ0).
  - exists n'. split; [done|]. rewrite (life_trace SUP NR tramp symbols kprobe kp0 ksym readers sched σ0) in Ho. done.
Qed.
End loaded.

(** ** A run *)

(** User 1000 is registered and [getpid] hooked, thread 0 calls it; then the
    thread, the timer, the administrator and a reader take turns. *)
Definition calling (n : nat) : life_turn :=
  match n with
  | 0 => Ev (EIoctl demo_args 0 sysThrot_IOC_REGISTER_USER 64)
  | 1 => Ev (EIoctl demo_args 0 sysThrot_IOC_REGISTER_SYSCALL 72)
  | 2 => Ev (ECall 0 39)
  | _ => match (n mod 5)%nat with
         | 0 => Ev (ETramp 0) | 1 => Ev (EStub 0 ok) | 2 => Ev ETimer | 3 => Ev (ECtl true) | _ => Read 0
         end
  end%nat.

(** The callback has a CPU of its own. *)
Definition calling_cpus (x : party agent) : nat := if decide (x = inl ATimer) then 0%nat else 1%nat.

#[local] Abbreviation demo_locking := (life_locking 462 462 demo_tramp demo_symbols demo_kprobe (KpAddr 1) demo_ksym).
#[local] Abbreviation demo_step := (life_step 462 462 demo_tramp demo_symbols demo_kprobe (KpAddr 1) demo_ksym).
#[local] Abbreviation demo_start := (Locked demo_life (fun _ => []) calling_cpus : life_locked).
#[local] Abbreviation demo_run := (lock_trace (HB := demo_locking) 1 calling demo_start).

Lemma calling_late n : (3 <= n)%nat -> calling n =
  match (n mod 5)%nat with 0 => Ev (ETramp 0) | 1 => Ev (EStub 0 ok) | 2 => Ev ETimer | 3 => Ev (ECtl true) | _ => Read 0 end%nat.
Proof. intros Hn. do 3 (destruct n as [|n]; [lia|]). done. Qed.

Lemma calling_at n j : (j < 5)%nat -> calling (5 * (n + 1) + j) =
  match j with 0 => Ev (ETramp 0) | 1 => Ev (EStub 0 ok) | 2 => Ev ETimer | 3 => Ev (ECtl true) | _ => Read 0 end%nat.
Proof.
  intros Hj. rewrite calling_late by lia. rewrite (Nat.mul_comm 5), (Nat.add_comm _ j), Nat.Div0.mod_add, Nat.mod_small by lia. done.
Qed.

Lemma calling_stays n x c : calling n <> Move x c.
Proof.
  destruct (decide (3 <= n)%nat) as [Hn|Hn]; [rewrite calling_late by done; by destruct (n mod 5)%nat as [|[|[|[|]]]]|].
  destruct n as [|[|[|n]]]; [done..|lia].
Qed.

Lemma calling_apart x : x <> inl ATimer -> calling_cpus x <> calling_cpus (inl ATimer).
Proof. intros Hx. unfold calling_cpus. by case_decide. Qed.

Lemma calling_fair : fair_locked (HB := demo_locking) 1 (fair_kind 1) calling demo_start.
Proof.
  assert (forall x j (mine : life_turn -> Prop), (j < 5)%nat ->
    mine (match j with 0 => Ev (ETramp 0) | 1 => Ev (EStub 0 ok) | 2 => Ev ETimer | 3 => Ev (ECtl true) | _ => Read 0 end)%nat ->
    fair_to (HB := demo_locking) 1 calling demo_start x mine) as Hf.
  { intros x j mine Hj Hm. apply apart_fair; [exact calling_stays|exact calling_apart|]. intros n. exists (5 * (n + 1) + j)%nat.
    split; [lia|]. by rewrite calling_at. }
  split.
  - intros [i|i| | |] Hr; simpl in Hr; try done; try (replace i with 0%nat by lia).
    + apply (Hf _ 0%nat); [lia|by eexists].
    + apply (Hf _ 1%nat); [lia|by eexists].
    + apply (Hf _ 2%nat); [lia|by eexists].
    + apply (Hf _ 3%nat); [lia|by eexists].
  - intros j Hj. apply (Hf _ 4%nat); [lia|]. by replace j with 0%nat by lia.
Qed.

(** What is taken after the second call of the interface leaves the loaded
    module and an idle administrator alone. *)
Lemma calling_emitted n e : (2 <= n)%nat -> emitted (act (HB := demo_locking) 1 (calling n) (demo_run n)) = Some e -> steady e = true.
Proof.
  intros Hn He.
  assert ((exists e0, calling n = Ev e0 /\ steady e0 = true) \/ calling n = Read 0) as Hc.
  { destruct (decide (3 <= n)%nat) as [H3|H3]; [rewrite calling_late by done|replace n with 2%nat by lia; left; by eexists].
    destruct (n mod 5)%nat as [|[|[|[|k]]]]; [left; by eexists..|by right]. }
  destruct (act _ _ _) as [| | | |e0|k e0] eqn:Ha; simplify_eq/=; destruct Hc as [(e1 & Hc & Hs)|Hc]; rewrite Hc in Ha.
  - by destruct (act_run _ _ _ _ Ha) as [[= ->] _].
  - by destruct (act_run _ _ _ _ Ha) as [? _].
  - destruct (act_critical _ _ _ _ _ Ha) as (e2 & [= <-] & -> & _). simpl. destruct e1; try done. simpl. by destruct (before_lock _ _).
  - by destruct (act_critical _ _ _ _ _ Ha) as (e2 & ? & _).
Qed.

Lemma calling_steady n : l_exit (base (demo_run (2 + n))) = XLoaded /\ ctl (core (base (demo_run (2 + n)))) = CIdle (Some 0).
Proof.
  induction n as [|n [IHx IHc]]; [split; vm_compute; reflexivity|]. rewrite Nat.add_succ_r, base_S.
  destruct (emitted _) as [e|] eqn:He; [|done]. pose proof (calling_emitted (2 + n) e ltac:(lia) He) as Hs. clear He.
  generalize dependent (base (demo_run (2 + n))). intros l IHx IHc. unfold lk_advance. simpl. unfold life_step_of.
  destruct (demo_step e l) as [| |l'] eqn:E; [done..|].
  by destruct (steady_step _ _ _ _ _ _ _ _ _ _ _ Hs IHx IHc E) as (? & ? & _).
Qed.

Lemma calling_guarded : guarded (HB := demo_locking) 1 punctual calling demo_start.
Proof.
  intros n e l' He E%life_step_go. destruct (decide (2 <= n)%nat) as [Hn|Hn].
  - pose proof (calling_emitted n e Hn He) as Hs. destruct (calling_steady (n - 2)) as [Hx Hc].
    replace (2 + (n - 2))%nat with n in Hx, Hc by lia. by destruct (steady_step _ _ _ _ _ _ _ _ _ _ _ Hs Hx Hc E) as (_ & _ & ?).
  - assert (forall n e, emitted (act (HB := demo_locking) 1 (calling n) (demo_run n)) = Some e ->
      match demo_step e (base (demo_run n)) with Go l' => calmb e (base (demo_run n)) l' | _ => true end = true -> e <> ETimer -> forall l',
      demo_step e (base (demo_run n)) = Go l' -> punctual e (base (demo_run n)) l') as Hb.
    { intros n1 e1 _ Hb He1 l1 E1. rewrite E1 in Hb. split; [by apply calmb_ok|done]. }
    destruct n as [|[|n]]; [..|lia]; (assert (e = _) as Heq by (symmetry; apply (inj Some); etransitivity; [|exact He]; vm_compute; reflexivity));
      subst e; (eapply Hb; [exact He|vm_compute; reflexivity|done|exact E]).
Qed.

Lemma hooked_call_returns_witness : l_tramp (base (demo_run 3)) = [TCalled 39] /\
  exists n, (3 <= n)%nat /\ l_tramp (base (demo_run n)) !! 0%nat = Some TOut.
Proof.
  split; [vm_compute; reflexivity|].
  apply (hooked_call_returns 462 462 demo_tramp demo_symbols demo_kprobe (KpAddr 1) demo_ksym demo_platform
    (Results 0 0 0 true true true) 5 [demo_task] demo_init demo_module 3 ∅ 1 calling_cpus calling 0 3 demo_loaded eq_refl);
    [simpl; lia|exact calling_fair|exact calling_guarded|].
  apply apart_undisturbed; [exact calling_stays|exact calling_apart].
Defined.
