(* ===== verification/Protect.v ===== *)
(** * Patching with write protection off ([src/lib/sysThrot.h], memory
      protection functions; [apply_mmap_patch] of [src/sysThrot.c])

    The other way to patch the kernel text, compiled when
    [USE_TEXT_POKE_SINGLE] is 0: [CR0.WP] is cleared around a [memcpy].  The
    model is one CPU with its two control registers and its preemption counter,
    the mutex and the kernel text, whose pages are read-only.  The processor's
    rules for the registers are those of its manual: [CR4.CET] may be set only
    while [CR0.WP] is, and [CR0.WP] cleared only while [CR4.CET] is clear; a
    write that breaks one raises a general protection fault. *)

From stdpp Require Import prelude gmap list.
From S2P Require Import Prelude Hook HookSpec.

Definition X86_CR0_WP : Z := 2 ^ 16.
Definition X86_CR4_CET : Z := 2 ^ 23.

Record cpu := Cpu {
  cr0 : Z; cr4 : Z;                        (* unsigned long *)
  preempt_count : Z;
  text_patch_lock : bool;
  cpu_text : text;
}.

Inductive fault := GeneralProtection | PageFault | Deadlock.

(** A step of the kernel on this CPU. *)
Definition K (A : Type) : Type := cpu -> fault + A * cpu.

#[export] Instance K_ret : MRet K := fun A a s => inr (a, s).
#[export] Instance K_bind : MBind K := fun A B k m s =>
  match m s with inl f => inl f | inr (a, s) => k a s end.

(** ** The machine *)

Definition wp_on (c0 : Z) : bool := negb (Z.land c0 X86_CR0_WP =? 0).
Definition cet_on (c4 : Z) : bool := negb (Z.land c4 X86_CR4_CET =? 0).

Definition read_cr0 : K Z := fun s => inr (cr0 s, s).
Definition native_read_cr4 : K Z := fun s => inr (cr4 s, s).

Definition mov_cr0 (v : Z) : K unit := fun s =>
  if cet_on (cr4 s) && negb (wp_on v) then inl GeneralProtection
  else inr (tt, Cpu v (cr4 s) (preempt_count s) (text_patch_lock s) (cpu_text s)).
Definition mov_cr4 (v : Z) : K unit := fun s =>
  if cet_on v && negb (wp_on (cr0 s)) then inl GeneralProtection
  else inr (tt, Cpu (cr0 s) v (preempt_count s) (text_patch_lock s) (cpu_text s)).

Definition add_preempt (n : Z) : K unit := fun s =>
  inr (tt, Cpu (cr0 s) (cr4 s) (preempt_count s + n) (text_patch_lock s) (cpu_text s)).
Definition preempt_disable : K unit := add_preempt 1.
Definition preempt_enable : K unit := add_preempt (-1).

Definition mutex_lock : K unit := fun s =>
  if text_patch_lock s then inl Deadlock
  else inr (tt, Cpu (cr0 s) (cr4 s) (preempt_count s) true (cpu_text s)).
Definition mutex_unlock : K unit := fun s =>
  inr (tt, Cpu (cr0 s) (cr4 s) (preempt_count s) false (cpu_text s)).

(** [memcpy] into read-only pages; it returns its first argument. *)
Definition memcpy_text (target : Z) (insn : list Z) : K Z := fun s =>
  if wp_on (cr0 s) then inl PageFault
  else inr (target, Cpu (cr0 s) (cr4 s) (preempt_count s) (text_patch_lock s) (write_bytes target insn (cpu_text s))).

(** ** The source *)

Definition write_cr0_forced (val : Z) : K unit := mov_cr0 val.

Definition protect_memory : K unit :=
  cr0 ← read_cr0; write_cr0_forced cr0.

Definition unprotect_memory : K unit :=
  cr0 ← read_cr0; write_cr0_forced (Z.ldiff cr0 X86_CR0_WP).

Definition write_cr4_forced (val : Z) : K unit := mov_cr4 val.

Definition conditional_cet_disable (cr4 : Z) : K unit :=
  if cet_on cr4 then write_cr4_forced (Z.ldiff cr4 X86_CR4_CET) else mret ().

Definition conditional_cet_enable (cr4 : Z) : K unit :=
  if cet_on cr4 then write_cr4_forced cr4 else mret ().

Definition being_sys_call_hacking : K (Z * Z) :=
  preempt_disable ;;
  cr0 ← read_cr0;
  cr4 ← native_read_cr4;
  conditional_cet_disable cr4 ;;
  unprotect_memory ;;
  mret (cr0, cr4).

(** [cr0] is not used. *)
Definition end_sys_call_hacking (cr0 cr4 : Z) : K unit :=
  protect_memory ;;
  conditional_cet_enable cr4 ;;
  preempt_enable.

Definition apply_mmap_patch (target_addr : Z) (insn : list Z) : K Z :=
  mutex_lock ;;
  preempt_disable ;;
  '(cr0, cr4) ← being_sys_call_hacking;
  result ← memcpy_text target_addr insn;
  end_sys_call_hacking cr0 cr4 ;;
  preempt_enable ;;
  mutex_unlock ;;
  mret (if negb (result =? target_addr) then - EFAULT else 1).

(** ** What a patch does *)

Lemma mask_cleared v m : Z.land (Z.ldiff v m) m = 0.
Proof.
  apply Z.bits_inj'. intros n Hn. rewrite Z.land_spec, Z.ldiff_spec, Z.bits_0.
  by destruct (Z.testbit v n), (Z.testbit m n).
Qed.

Lemma wp_cleared v : wp_on (Z.ldiff v X86_CR0_WP) = false.
Proof. unfold wp_on. by rewrite mask_cleared. Qed.

Lemma cet_cleared v : cet_on (Z.ldiff v X86_CR4_CET) = false.
Proof. unfold cet_on. by rewrite mask_cleared. Qed.

(** Between the two halves the text can be written. *)
Lemma being_ok s :
  being_sys_call_hacking s =
  inr ((cr0 s, cr4 s),
       Cpu (Z.ldiff (cr0 s) X86_CR0_WP) (if cet_on (cr4 s) then Z.ldiff (cr4 s) X86_CR4_CET else cr4 s)
         (preempt_count s + 1) (text_patch_lock s) (cpu_text s)).
Proof.
  unfold being_sys_call_hacking, conditional_cet_disable, unprotect_memory, write_cr0_forced, write_cr4_forced, mbind, K_bind.
  cbn. destruct (cet_on (cr4 s)) eqn:E; cbn; unfold mov_cr4, mov_cr0; cbn.
  - by rewrite cet_cleared; cbn; rewrite cet_cleared.
  - by rewrite E.
Qed.

(** The end writes back the [CR0] it finds: write protection stays off, so that
    CET cannot be switched on again. *)
Lemma end_ok c0 c4 s : wp_on (cr0 s) = false -> cet_on (cr4 s) = false ->
  end_sys_call_hacking c0 c4 s =
  if cet_on c4 then inl GeneralProtection
  else inr (tt, Cpu (cr0 s) (cr4 s) (preempt_count s - 1) (text_patch_lock s) (cpu_text s)).
Proof.
  intros Hw Hc. unfold end_sys_call_hacking, protect_memory, conditional_cet_enable, write_cr0_forced, write_cr4_forced, mbind, K_bind.
  cbn. unfold mov_cr0. rewrite Hc. cbn. destruct (cet_on c4) eqn:E; [|done]. unfold mov_cr4. cbn. by rewrite E, Hw.
Qed.

Lemma mmap_patch_ok target insn s : text_patch_lock s = false ->
  apply_mmap_patch target insn s =
  if cet_on (cr4 s) then inl GeneralProtection
  else inr (1, Cpu (Z.ldiff (cr0 s) X86_CR0_WP) (cr4 s) (preempt_count s) false (write_bytes target insn (cpu_text s))).
Proof.
  intros Hl. unfold apply_mmap_patch, mbind, K_bind at 1. unfold mutex_lock. rewrite Hl. unfold K_bind. cbn [preempt_disable add_preempt].
  rewrite being_ok. cbn. unfold memcpy_text. cbn. rewrite wp_cleared.
  rewrite end_ok; [|apply wp_cleared|cbn; destruct (cet_on (cr4 s)) eqn:E; [apply cet_cleared|done]].
  destruct (cet_on (cr4 s)); [done|]. cbn. rewrite Z.eqb_refl. unfold mret, K_ret. cbn. do 3 f_equal. lia.
Qed.

(** C40: [apply_mmap_patch] with the mutex free.  On a CPU without CET it returns
    1 with exactly the bytes of the instruction written, the same text as
    [apply_smp_patch] writes when that finds its symbols, and with the mutex,
    the preemption counter and CR4 as before; but [CR0.WP] is left cleared.  On
    a CPU with CET it ends in a general protection fault, because
    [protect_memory] does not set [CR0.WP] before CET is switched on again. *)
Theorem mmap_patch_effect target insn s : text_patch_lock s = false ->
  if cet_on (cr4 s) then apply_mmap_patch target insn s = inl GeneralProtection
  else exists s', apply_mmap_patch target insn s = inr (1, s') /\
    cpu_text s' = write_bytes target insn (cpu_text s) /\
    (forall kp ksym h, kernel_text h = cpu_text s -> (apply_smp_patch kp ksym target insn h).1 = 1 ->
      kernel_text (apply_smp_patch kp ksym target insn h).2 = cpu_text s') /\
    text_patch_lock s' = false /\ preempt_count s' = preempt_count s /\ cr4 s' = cr4 s /\
    cr0 s' = Z.ldiff (cr0 s) X86_CR0_WP /\ wp_on (cr0 s') = false.
Proof.
  intros Hl. rewrite mmap_patch_ok by done. destruct (cet_on (cr4 s)); [done|]. eexists. split; [reflexivity|]. cbn.
  split; [done|]. split.
  { intros kp ksym h Ht. unfold apply_smp_patch. destruct (negb _); cbn; [|done]. intros _.
    rewrite <-Ht. f_equal. by destruct (smp_text_poke_single_fn h =? 0); unfold my_patch_init; repeat case_match. }
  split_and!; [done..|apply wp_cleared].
Qed.

(** A CPU with [WP] and nothing else set, and the five bytes of a call. *)
Definition demo_cpu : cpu := Cpu X86_CR0_WP 0 0 false {[ 4096 := 144 ]}.

Lemma mmap_patch_effect_witness : exists s', apply_mmap_patch 4096 [232; 1; 2; 3; 4] demo_cpu = inr (1, s') /\
  cpu_text s' = write_bytes 4096 [232; 1; 2; 3; 4] {[ 4096 := 144 ]} /\ wp_on (cr0 s') = false.
Proof.
  destruct (mmap_patch_effect 4096 [232; 1; 2; 3; 4] demo_cpu eq_refl) as (s' & E & Ht & _ & _ & _ & _ & _ & Hw).
  exists s'. split; [exact E|]. split; [exact Ht|exact Hw].
Defined.
