(* ===== verification/Log.v ===== *)
(** * Logging ([src/sysThrot_log.c] and the [LOG] macros of
      [src/lib/sysThrot.h])

    A message is the text its format and arguments stand for ([vsnprintf] is
    the C library's); the log is the list of what [printk] was given. *)

From stdpp Require Import prelude list.
From S2P Require Import Prelude.

Definition LOG_CORE : Z := 1.
Definition LOG_IOCTL : Z := Z.shiftl 1 1.
Definition LOG_ADMIN_COMMANDS : Z := Z.shiftl 1 2.
Definition LOG_STATS : Z := Z.shiftl 1 4.
Definition LOG_STUB : Z := Z.shiftl 1 5.
Definition LOG_CHECK_IF_LIMITED : Z := Z.shiftl 1 6.
Definition LOG_STORE : Z := Z.shiftl 1 7.
Definition LOG_QUEUE : Z := Z.shiftl 1 8.

Definition LOG_LEVEL : Z :=
  Z.lor (Z.lor (Z.lor (Z.lor LOG_CORE LOG_STORE) LOG_IOCTL) LOG_ADMIN_COMMANDS) LOG_STATS.

(** [sizeof(kfmt)] *)
Definition kfmt_size : nat := 256.

(** A buffer up to its NUL. *)
Fixpoint until_nul (s : list Z) : list Z :=
  match s with [] => [] | c :: s => if c =? 0 then [] else c :: until_nul s end.

(** [vsnprintf] stores at most [size - 1] bytes and a NUL. *)
Definition vsnprintf (size : nat) (s : list Z) : list Z :=
  match size with O => [] | S n => take n s ++ [0] end.

Definition sysThrot_log (message : list Z) (log : list (list Z)) : list (list Z) :=
  let kfmt := vsnprintf kfmt_size message in
  log ++ [until_nul kfmt].

Definition LOG (level : Z) (message : list Z) (log : list (list Z)) : list (list Z) :=
  if negb (Z.land LOG_LEVEL level =? 0) then sysThrot_log message log else log.

(** What follows a NUL does not matter. *)
Lemma until_nul_app s s' : until_nul (s ++ 0 :: s') = until_nul s.
Proof. induction s as [|c s IH]; [done|]. simpl. by rewrite IH. Qed.

Lemma until_nul_id s : Forall (fun c => c <> 0) s -> until_nul s = s.
Proof. induction 1 as [|c s Hc Hs IH]; simpl; [done|]. rewrite (proj2 (Z.eqb_neq c 0) Hc). by rewrite IH. Qed.

(** A message of an enabled class is logged up to its first 255 bytes; one of
    the classes of the hot paths ([stub], the queue) is not. *)
Lemma LOG_spec message log : Forall (fun c => c <> 0) message ->
  (forall level, level ∈ [LOG_CORE; LOG_IOCTL; LOG_ADMIN_COMMANDS; LOG_STATS; LOG_STORE] ->
    LOG level message log = log ++ [take 255 message]) /\
  (forall level, level ∈ [LOG_STUB; LOG_CHECK_IF_LIMITED; LOG_QUEUE] -> LOG level message log = log).
Proof.
  intros Hm. assert (sysThrot_log message log = log ++ [take 255 message]) as Hl.
  { unfold sysThrot_log. cbn [vsnprintf kfmt_size]. rewrite until_nul_app, until_nul_id; [done|by apply Forall_take]. }
  split; intros level Hin; repeat (apply elem_of_cons in Hin as [->|Hin]; [first [exact Hl|reflexivity]|]); by apply elem_of_nil in Hin.
Qed.
