(* ===== verification/UserLib.v ===== *)
(** * The user-space library and command-line tool
      ([src/user/lib/sysThrot.h], [src/user/systhrot.c])

    The functions that open the device, issue one command and close it again,
    and the tool that calls them.  They are written against an interface of
    system calls ([SysCalls]); [world] implements it with the driver of
    [Ioctl.v], so that the tool and the module run together.  A system call
    that fails sets [errno] and returns -1.  [None] is undefined behaviour of
    the module.  The command numbers are those of [Ioctl.v]: both headers define
    them by the same macros.  Messages printed are not modelled. *)

From stdpp Require Import prelude gmap list strings.
From S2P Require Import Prelude Kernel Store Queue Stats Core Hook Ioctl Device Unload.

(** ** System calls *)

(** What a process asks of the kernel: a result, negative for an error.  All
    descriptors of the tool are of the one device. *)
Class SysCalls (W : Type) := {
  sys_open : W -> Z * W;
  sys_ioctl : Z -> umem -> Z -> Z -> W -> option (Z * W);     (* fd, the caller's memory, cmd, arg *)
  sys_close : Z -> W -> W;
}.

(** A process: its [errno] and the rest of the machine. *)
Record proc (W : Type) := Proc { errno : Z; machine_of : W }.
Arguments Proc {W} _ _.
Arguments errno {W} _.
Arguments machine_of {W} _.

Definition U (W A : Type) : Type := proc W -> option (A * proc W).

#[export] Instance U_ret W : MRet (U W) := fun A a s => Some (a, s).
#[export] Instance U_bind W : MBind (U W) := fun A B k m s =>
  match m s with Some (a, s') => k a s' | None => None end.

(** The C library's wrapper around the result of a system call. *)
Definition libc_ret {W} (r : Z) (e : Z) (w : W) : Z * proc W :=
  if (- 4095 <=? r) && (r <? 0) then (-1, Proc (- r) w) else (r, Proc e w).

Section lib.
Context {W : Type} `{SysCalls W}.

Definition open_ : U W Z := fun s =>
  let (r, w) := sys_open (machine_of s) in Some (libc_ret r (errno s) w).
Definition ioctl_ (fd : Z) (u : umem) (cmd arg : Z) : U W Z := fun s =>
  match sys_ioctl fd u cmd arg (machine_of s) with
  | Some (r, w) => Some (libc_ret r (errno s) w)
  | None => None
  end.
Definition close_ (fd : Z) : U W unit := fun s => Some (tt, Proc (errno s) (sys_close fd (machine_of s))).

(** ** [src/user/lib/sysThrot.h] *)

(** [syscall_symbols] of the generated header. *)
Context (table : list (option (list Z))).
(** Where the argument of [ioctl] is in the caller's memory. *)
Context (arg_addr : Z).

Fixpoint find_loop (i : Z) (l : list (option (list Z))) (syscall_name : list Z) : Z :=
  match l with
  | [] => -1
  | sym :: l =>
      if match sym with Some s => bool_decide (s = syscall_name) | None => false end then i
      else find_loop (i + 1) l syscall_name
  end.

Definition find_syscall_id (syscall_name : list Z) : Z := find_loop 0 table syscall_name.

(** *** The generated table

    [entries] are the numbers and symbols both Makefiles extract, in the order
    of the numbers.  The Makefile of the module writes each symbol at the index
    of its number, the one in [src/user] writes the symbols one after the
    other. *)
Definition indexed_table (entries : list (Z * list Z)) (size : nat) : list (option (list Z)) :=
  (fun i => (list_to_map entries : gmap Z (list Z)) !! Z.of_nat i) <$> seq 0 size.
Definition positional_table (entries : list (Z * list Z)) : list (option (list Z)) :=
  (fun e => Some e.2) <$> entries.

(** An [int] variable, and a string, as the kernel reads them. *)
Definition int_mem (v : Z) : umem := write_bytes arg_addr (le32 v) ∅.
Definition str_mem (s : list Z) : umem := write_bytes arg_addr (s ++ [0]) ∅.

(** The shape of the eight functions: open, one command, close. *)
Definition device_call (u : umem) (cmd arg : Z) : U W Z :=
  fd ← open_;
  if fd <? 0 then mret (-1)
  else
    r ← ioctl_ fd u cmd arg;
    if r <? 0 then close_ fd ;; mret (-1)
    else close_ fd ;; mret 0.

Definition syscall_call (cmd : Z) (syscall : list Z) : U W Z :=
  let syscall_id := find_syscall_id syscall in
  if syscall_id =? -1 then mret (-1) else device_call (int_mem syscall_id) cmd arg_addr.

Definition register_syscall (syscall : list Z) : U W Z := syscall_call sysThrot_IOC_REGISTER_SYSCALL syscall.
Definition deregister_syscall (syscall : list Z) : U W Z := syscall_call sysThrot_IOC_DEREGISTER_SYSCALL syscall.

(** No argument is passed: the kernel does not look at it. *)
Definition turn_off_monitor : U W Z := device_call ∅ sysThrot_IOC_TURN_OFF 0.
Definition turn_on_monitor : U W Z := device_call ∅ sysThrot_IOC_TURN_ON 0.

Definition register_program (program_name : list Z) : U W Z :=
  device_call (str_mem program_name) sysThrot_IOC_REGISTER_PROGRAM arg_addr.
Definition register_user (user_id : Z) : U W Z := device_call (int_mem user_id) sysThrot_IOC_REGISTER_USER arg_addr.
Definition deregister_user (user_id : Z) : U W Z := device_call (int_mem user_id) sysThrot_IOC_DEREGISTER_USER arg_addr.
Definition deregister_program (program_name : list Z) : U W Z :=
  device_call (str_mem program_name) sysThrot_IOC_DEREGISTER_PROGRAM arg_addr.

Definition double_open_test : U W Z :=
  fd1 ← open_;
  if fd1 <? 0 then mret (-1)
  else
    fd2 ← open_;
    if fd2 <? 0 then close_ fd1 ;; mret (-1)
    else close_ fd1 ;; close_ fd2 ;; mret 0.

(** ** [src/user/systhrot.c] *)

(** [atoi] of the C library: [strtol], which stops at the bounds of a [long],
    cast to [int]. *)
Definition is_space (c : Z) : bool := (c =? 32) || ((9 <=? c) && (c <=? 13)).
Definition is_digit (c : Z) : bool := (48 <=? c) && (c <=? 57).

Fixpoint skip_space (s : list Z) : list Z :=
  match s with c :: s' => if is_space c then skip_space s' else s | [] => [] end.

Fixpoint read_digits (acc : Z) (s : list Z) : Z :=
  match s with c :: s => if is_digit c then read_digits (acc * 10 + (c - 48)) s else acc | [] => acc end.

Definition strtol (s : list Z) : Z :=
  let v :=
    match skip_space s with
    | 45 :: s => - read_digits 0 s
    | 43 :: s => read_digits 0 s
    | s => read_digits 0 s
    end in
  Z.max (- 2 ^ 63) (Z.min (2 ^ 63 - 1) v).

Definition atoi (s : list Z) : Z := s32 (strtol s).

Definition EXIT_SUCCESS : Z := 0.
Definition EXIT_FAILURE : Z := 1.

Definition exit_status (m : U W Z) : U W Z :=
  r ← m; mret (if r <? 0 then EXIT_FAILURE else EXIT_SUCCESS).

(** A command that needs [argv[2]]. *)
Definition with_arg (argv : list (list Z)) (k : list Z -> U W Z) : U W Z :=
  match argv !! 2%nat with None => mret EXIT_FAILURE | Some a => exit_status (k a) end.

Definition systhrot_main (argv : list (list Z)) : U W Z :=
  match argv !! 1%nat with
  | None => mret EXIT_FAILURE
  | Some cmd =>
      if bool_decide (cmd = str "register-user") then with_arg argv (fun a => register_user (atoi a))
      else if bool_decide (cmd = str "deregister-user") then with_arg argv (fun a => deregister_user (atoi a))
      else if bool_decide (cmd = str "register-program") then with_arg argv register_program
      else if bool_decide (cmd = str "deregister-program") then with_arg argv deregister_program
      else if bool_decide (cmd = str "register-syscall") then with_arg argv register_syscall
      else if bool_decide (cmd = str "deregister-syscall") then with_arg argv deregister_syscall
      else if bool_decide (cmd = str "on") then exit_status turn_on_monitor
      else if bool_decide (cmd = str "off") then exit_status turn_off_monitor
      else mret EXIT_FAILURE
  end.
End lib.

(** ** The module below *)

(** [dev_available], how many descriptors of the device the process has open,
    its uid, and the driver. *)
Record world := World { w_available : Z; w_fds : nat; w_uid : Z; w_drv : driver }.

Section world.
Context (SUPPORTED_SYSCALLS stub_trampoline : Z) (syscall_symbols : Z -> option (list Z)).
Context (register_kprobe : option (list Z) -> kprobe_result).
Context (kallsyms_probe : kprobe_result) (kallsyms_lookup_name : patch_symbol -> Z).
(** How a call of [sysThrot_turn_on] or [sysThrot_turn_off] that was started
    ends, with the threads of the module running: its result and the core. *)
Context (complete : state -> Z * state).

(** [sysThrot_open] by a process with no other file open: its descriptors of
    the device are 3, 4, ... *)
Definition world_open (w : world) : Z * world :=
  let v := s32 (w_available w - 1) in
  if v =? 0 then (3 + Z.of_nat (w_fds w), World v (S (w_fds w)) (w_uid w) (w_drv w))
  else (- EBUSY, World (s32 (v + 1)) (w_fds w) (w_uid w) (w_drv w)).

(** [sysThrot_release] when the descriptor is one of them; closing another one
    is EBADF and reaches nothing. *)
Definition world_close (fd : Z) (w : world) : world :=
  if (3 <=? fd) && (fd <? 3 + Z.of_nat (w_fds w))
  then World (s32 (w_available w + 1)) (Nat.pred (w_fds w)) (w_uid w) (w_drv w)
  else w.

(** The core works with the items the store has become. *)
Definition refresh (d : driver) : driver :=
  Driver (d_mem d) (d_store d) (d_hook d) (set_reg (registry_of (heap (d_mem d)) (d_store d)) (d_core d)).

Definition world_ioctl (fd : Z) (u : umem) (cmd arg : Z) (w : world) : option (Z * world) :=
  match sysThrot_ioctl SUPPORTED_SYSCALLS stub_trampoline syscall_symbols register_kprobe
          kallsyms_probe kallsyms_lookup_name u (w_uid w) cmd arg (w_drv w) with
  | Some (Ret r, d) => Some (r, World (w_available w) (w_fds w) (w_uid w) (refresh d))
  | Some (Started, d) =>
      let (r, s) := complete (d_core d) in
      Some (r, World (w_available w) (w_fds w) (w_uid w) (Driver (d_mem d) (d_store d) (d_hook d) s))
  | None => None
  end.

Definition world_calls : SysCalls world :=
  {| sys_open := world_open; sys_ioctl := world_ioctl; sys_close := world_close |}.
End world.
