(* ===== verification/UserSpec.v ===== *)
(** * Properties of the user-space library and tool

    The library on top of the module ([UserLib.v]): what each call does to the
    registered sets and the hooks, that the device is always given back, and
    what the tool reports. *)

From stdpp Require Import prelude gmap list strings.
From S2P Require Import Prelude Kernel Store StoreProofs StoreSpec Queue Stats Core Hook HookSpec Ioctl Device.
From S2P Require Import Unload UnloadProofs UserLib.

(** ** Arguments in the caller's memory *)

Lemma copy_int_mem a v : - 2 ^ 31 <= v < 2 ^ 31 -> copy_int_from_user (int_mem a v) a = Some v.
Proof.
  intros Hv. unfold copy_int_from_user, int_mem. rewrite !lookup_write_bytes.
  rewrite !decide_True by (cbn [length le32]; lia).
  replace (a - a) with 0 by lia. replace (a + 1 - a) with 1 by lia. replace (a + 2 - a) with 2 by lia.
  replace (a + 3 - a) with 3 by lia. simpl. by rewrite le32_rel32.
Qed.

(** A C string: no NUL byte. *)
Definition c_string (s : list Z) : Prop := Forall (fun b => b <> 0) s.

Lemma read_string_mem s : forall a n (u : umem), c_string s ->
  (forall k b, (s ++ [0]) !! k = Some b -> u !! (a + Z.of_nat k) = Some b) ->
  read_string u a n = Some (take n s).
Proof.
  induction s as [|b s IH]; intros a n u Hs Hu; destruct n as [|n]; try done.
  - simpl. pose proof (Hu 0%nat 0 eq_refl) as H0. rewrite Z.add_0_r in H0. by rewrite H0.
  - apply Forall_cons in Hs as [Hb Hs]. simpl.
    pose proof (Hu 0%nat b eq_refl) as H0. rewrite Z.add_0_r in H0. rewrite H0. simpl.
    rewrite (proj2 (Z.eqb_neq _ _) Hb). rewrite (IH (a + 1) n u Hs); [done|].
    intros k c Hk. rewrite <-(Hu (S k) c Hk). f_equal. lia.
Qed.

Lemma read_str_mem a s n : c_string s -> read_string (str_mem a s) a n = Some (take n s).
Proof.
  intros Hs. apply read_string_mem; [done|]. intros k b Hk. unfold str_mem. rewrite lookup_write_bytes.
  pose proof (lookup_lt_Some _ _ _ Hk). rewrite decide_True by lia.
  replace (a + Z.of_nat k - a) with (Z.of_nat k) by lia. by rewrite Nat2Z.id.
Qed.

(** ** One call of the device *)

(** What the functions return for the kernel's result, and the [errno] they
    leave. *)
Definition api_ret (r : Z) : Z := if r <? 0 then -1 else 0.
Definition api_errno (r e : Z) : Z := if r <? 0 then - r else e.

(** Nobody has the device open. *)
Definition free (w : world) : Prop := w_available w = 1.

Section spec.
Context (SUP NR tramp : Z) (symbols : Z -> option (list Z)) (kprobe : option (list Z) -> kprobe_result).
Context (kp0 : kprobe_result) (ksym : patch_symbol -> Z) (complete : state -> Z * state).
Context (table : list (option (list Z))) (addr : Z).

#[local] Hint Extern 0 (SysCalls world) =>
  exact (world_calls SUP tramp symbols kprobe kp0 ksym complete) : typeclass_instances.
#[local] Abbreviation kioctl := (sysThrot_ioctl SUP tramp symbols kprobe kp0 ksym).

Definition with_drv (d : driver) (w : world) : world := World (w_available w) (w_fds w) (w_uid w) d.

(** The descriptor that was opened last is closed. *)
Definition closed (w : world) : world := World (s32 (w_available w + 1)) (Nat.pred (w_fds w)) (w_uid w) (w_drv w).

Lemma world_close_last fds w : w_fds w = S fds -> world_close (3 + Z.of_nat fds) w = closed w.
Proof. intros Hw. unfold world_close. rewrite Hw, (proj2 (Z.leb_le _ _)), (proj2 (Z.ltb_lt _ _)) by lia. by rewrite <-Hw. Qed.

Lemma world_ioctl_fds fd u cmd arg w r w' :
  world_ioctl SUP tramp symbols kprobe kp0 ksym complete fd u cmd arg w = Some (r, w') -> w_fds w' = w_fds w.
Proof. unfold world_ioctl. repeat case_match; by intros [= <- <-]. Qed.

(** On a free device the call is the command, with the device closed again
    whatever it answers. *)
Lemma device_call_free u cmd arg e fds uid d :
  device_call u cmd arg (Proc e (World 1 fds uid d)) =
  match world_ioctl SUP tramp symbols kprobe kp0 ksym complete (3 + Z.of_nat fds) u cmd arg (World 0 (S fds) uid d) with
  | Some (r, w) =>
      let (r, p) := libc_ret r e w in
      Some (if r <? 0 then -1 else 0, Proc (errno p) (closed (machine_of p)))
  | None => None
  end.
Proof.
  unfold device_call, mbind, U_bind, open_. cbn [sys_open world_calls machine_of errno].
  unfold world_open. cbn [w_available w_fds w_uid w_drv]. change (s32 (1 - 1) =? 0) with true. cbn iota.
  unfold libc_ret at 1. replace ((-4095 <=? 3 + Z.of_nat fds) && (3 + Z.of_nat fds <? 0)) with false
    by (symmetry; apply andb_false_iff; right; apply Z.ltb_ge; lia).
  cbn iota. rewrite (proj2 (Z.ltb_ge (3 + Z.of_nat fds) 0)) by lia. cbn iota.
  unfold ioctl_. cbn [sys_ioctl world_calls machine_of errno]. change (s32 (1 - 1)) with 0.
  destruct (world_ioctl _ _ _ _ _ _ _ _ _ _ _ _) as [[r w]|] eqn:Ew; [|done]. apply world_ioctl_fds in Ew.
  destruct (libc_ret r e w) as [r' [e' w']] eqn:El. assert (w' = w) as -> by (unfold libc_ret in El; by case_match; simplify_eq).
  pose proof (world_close_last fds w Ew) as Hc. by destruct (r' <? 0); cbn; rewrite <-Hc.
Qed.

(** A command the module answers at once, on a free device. *)
Lemma device_call_ret u cmd arg e w r d : free w ->
  kioctl u (w_uid w) cmd arg (w_drv w) = Some (Ret r, d) -> - 4095 <= r ->
  device_call u cmd arg (Proc e w) = Some (api_ret r, Proc (api_errno r e) (with_drv (refresh d) w)).
Proof.
  intros Hf Hk Hr. destruct w as [av fds uid drv]. unfold free in Hf. simpl in Hf. subst av.
  rewrite device_call_free. unfold world_ioctl, libc_ret. simpl in *. rewrite Hk. unfold api_ret, api_errno.
  destruct (r <? 0) eqn:E; zbool.
  - replace (-4095 <=? r) with true by (symmetry; apply Z.leb_le; lia). done.
  - rewrite andb_false_r. rewrite (proj2 (Z.ltb_ge r 0)) by lia. done.
Qed.

(** The device is in use: -1 with EBUSY, nothing changed. *)
Lemma device_call_busy u cmd arg e w : - 2 ^ 31 < w_available w <= 0 ->
  device_call u cmd arg (Proc e w) = Some (-1, Proc EBUSY w).
Proof.
  intros Hb. destruct w as [av fds uid drv]. simpl in Hb.
  unfold device_call, mbind, U_bind, open_, libc_ret. simpl. unfold world_open. simpl.
  rewrite (s32_id (av - 1)) by lia. rewrite (proj2 (Z.eqb_neq (av - 1) 0)) by lia. simpl.
  rewrite Z.sub_add, s32_id by lia. done.
Qed.

(** What holds of the process after any call: the device and the uid are as
    before. *)
Definition kept (w : world) (p : proc world) : Prop :=
  w_available (machine_of p) = w_available w /\ w_fds (machine_of p) = w_fds w /\ w_uid (machine_of p) = w_uid w.

Lemma device_call_kept u cmd arg e w : - 2 ^ 31 < w_available w <= 1 ->
  match device_call u cmd arg (Proc e w) with
  | Some (r, p) => (r = -1 \/ r = 0) /\ kept w p
  | None => kioctl u (w_uid w) cmd arg (w_drv w) = None
  end.
Proof.
  intros Hb. destruct (decide (w_available w = 1)) as [Hf|Hf].
  2: { rewrite device_call_busy by lia. split; [by left|done]. }
  destruct w as [av fds uid drv]. simpl in Hf. subst av.
  rewrite device_call_free. unfold world_ioctl, libc_ret. simpl.
  destruct (kioctl u uid cmd arg drv) as [[[r|] d]|]; [| |done].
  - destruct ((-4095 <=? r) && (r <? 0)); simpl; [split; [by left|done]|].
    destruct (r <? 0); simpl; (split; [auto|done]).
  - destruct (complete (d_core d)) as [r c].
    destruct ((-4095 <=? r) && (r <? 0)); simpl; [split; [by left|done]|].
    destruct (r <? 0); simpl; (split; [auto|done]).
Qed.

(** ** Registrations *)

Context (F : gmap loc obj).

(** A function of the library that takes a uid (or a program name) refines the
    operation [out] on the set of users (of programs): on a free device, as
    root, it changes the represented set as [out] says, returns 0 or -1 with
    the matching [errno], keeps the rest of the driver and gives the device
    back; the core works with the new sets. *)
Definition refines_user (f : Z -> U world Z) (out : gset user -> user -> Z -> gset user -> Prop) : Prop :=
  forall id e w A P, - 2 ^ 31 <= id < 2 ^ 31 -> free w -> w_uid w = 0 ->
    store_rep F (d_mem (w_drv w)) (d_store (w_drv w)) A P ->
    exists r σ' A', f id (Proc e w) = Some (api_ret r, Proc (api_errno r e)
        (with_drv (Driver σ' (d_store (w_drv w)) (d_hook (w_drv w)) (set_reg (Registry A' P) (d_core (w_drv w)))) w)) /\
      ((r = - ENOMEM /\ A' = A) \/ out A id r A') /\ (lucky (d_mem (w_drv w)) -> r <> - ENOMEM) /\
      store_rep F σ' (d_store (w_drv w)) A' P.

Definition refines_program (f : list Z -> U world Z) (out : gset program -> program -> Z -> gset program -> Prop) : Prop :=
  forall name e w A P, c_string name -> free w -> w_uid w = 0 ->
    store_rep F (d_mem (w_drv w)) (d_store (w_drv w)) A P ->
    exists r σ' P', f name (Proc e w) = Some (api_ret r, Proc (api_errno r e)
        (with_drv (Driver σ' (d_store (w_drv w)) (d_hook (w_drv w)) (set_reg (Registry A P') (d_core (w_drv w)))) w)) /\
      ((r = - ENOMEM /\ P' = P) \/
       (if decide (name = []) then r = 0 /\ P' = P
        else if decide (length name < Store.TASK_COMM_LEN)%nat then out P name r P'
        else r = - EINVAL /\ P' = P)) /\
      (lucky (d_mem (w_drv w)) -> r <> - ENOMEM) /\ store_rep F σ' (d_store (w_drv w)) A P'.

Lemma small_errors {X} `{Countable X} key (A : gset X) x r A' :
  add_outcome key A x r A' \/ remove_outcome A x r A' -> - 4095 <= r.
Proof. intros [[(-> & _)|(_ & Hr)]|[(-> & _)|(_ & Hr)]]; unfold EEXIST, ENOMEM, ENOSPC, EINVAL in *; lia. Qed.

Lemma refines_user_of cmd op out :
  (forall u arg d, kioctl u 0 cmd arg d = on_store d (user_command u op (d_store d) arg)) ->
  (forall p id, ensures (op p id) (fun r => r <> - ENOMEM)) ->
  (forall A x r A', out A x r A' -> - 4095 <= r) ->
  (forall F sp A P x id σ, store_rep F σ sp A P -> F !! id = Some (OInt x) ->
     wp (op sp id) (fun r σ' => exists A', out A x r A' /\ store_rep F σ' sp A' P) σ) ->
  refines_user (fun id => device_call (int_mem addr id) cmd addr) out.
Proof.
  intros Hk Hl Hsm Hop id e w A P Hid Hf Hu Hst.
  destruct (wp_inv _ _ _ (user_command_ok F (d_store (w_drv w)) (int_mem addr id) op out addr (d_mem (w_drv w)) A P
    (fun F σ A x p => Hop F (d_store (w_drv w)) A P x p σ) Hst)) as (r & σ' & E & A' & Ho & Hst').
  unfold user_outcome in Ho. rewrite copy_int_mem in Ho by done.
  assert (- 4095 <= r) as Hr by (destruct Ho as [[-> _]|Ho]; [unfold ENOMEM; lia|by eapply Hsm]).
  exists r, σ', A'. split_and!; [|done| |done].
  - rewrite (device_call_ret _ _ _ _ _ r (Driver σ' (d_store (w_drv w)) (d_hook (w_drv w)) (d_core (w_drv w)))); [|done| |done].
    + unfold refresh. simpl. by rewrite (registry_of_rep _ _ _ _ _ Hst').
    + rewrite Hu, Hk. unfold on_store. by rewrite E.
  - intros Hlk. by apply (user_command_lucky _ _ _ _ Hl _ _ _ Hlk E).
Qed.

Lemma refines_program_of cmd op out :
  (forall u arg d, kioctl u 0 cmd arg d = on_store d (program_command u op (d_store d) arg)) ->
  (forall p id, ensures (op p id) (fun r => r <> - ENOMEM)) ->
  (forall A x r A', out A x r A' -> - 4095 <= r) ->
  (forall F sp A P x id σ, store_rep F σ sp A P -> F !! id = Some (OStr x) ->
     wp (op sp id) (fun r σ' => exists P', out P x r P' /\ store_rep F σ' sp A P') σ) ->
  refines_program (fun name => device_call (str_mem addr name) cmd addr) out.
Proof.
  intros Hk Hl Hsm Hop name e w A P Hid Hf Hu Hst.
  destruct (wp_inv _ _ _ (program_command_ok F (d_store (w_drv w)) (str_mem addr name) op out addr (d_mem (w_drv w)) A P
    (fun F σ P x p => Hop F (d_store (w_drv w)) A P x p σ) Hst)) as (r & σ' & E & P' & Ho & Hst').
  unfold program_outcome in Ho. rewrite read_str_mem in Ho by done.
  assert ((r = - ENOMEM /\ P' = P) \/
    (if decide (name = []) then r = 0 /\ P' = P
     else if decide (length name < Store.TASK_COMM_LEN)%nat then out P name r P'
     else r = - EINVAL /\ P' = P)) as Ho'.
  { destruct Ho as [Ho|Ho]; [by left|right]. destruct name as [|b s]; [by rewrite decide_True|].
    rewrite decide_False by done. change (take Store.TASK_COMM_LEN (b :: s)) with (b :: take (Store.TASK_COMM_LEN - 1) s) in Ho.
    assert (length (b :: take (Store.TASK_COMM_LEN - 1) s) = Nat.min Store.TASK_COMM_LEN (length (b :: s))) as Hlen.
    { cbn [length]. rewrite length_take. unfold Store.TASK_COMM_LEN. lia. }
    destruct (decide (length (b :: s) < Store.TASK_COMM_LEN)%nat) as [Hlt|Hge].
    - rewrite decide_False in Ho by lia. by rewrite take_ge in Ho by (cbn [length] in Hlt; lia).
    - by rewrite decide_True in Ho by lia. }
  assert (- 4095 <= r) as Hr.
  { clear Ho. destruct Ho' as [[-> _]|Ho']; [unfold ENOMEM; lia|].
    repeat case_decide; [lia|by eapply Hsm|unfold EINVAL in *; lia]. }
  exists r, σ', P'. split_and!; [|done| |done].
  - rewrite (device_call_ret _ _ _ _ _ r (Driver σ' (d_store (w_drv w)) (d_hook (w_drv w)) (d_core (w_drv w)))); [|done| |done].
    + unfold refresh. simpl. by rewrite (registry_of_rep _ _ _ _ _ Hst').
    + rewrite Hu, Hk. unfold on_store. by rewrite E.
  - intros Hlk. by apply (program_command_lucky _ _ _ _ Hl _ _ _ Hlk E).
Qed.

Lemma register_user_refines : refines_user (register_user addr) add_user_outcome.
Proof.
  apply (refines_user_of _ add_user_to_store); [done|apply add_to_store_lucky| |].
  - intros A x r A' Ho. eapply small_errors. by left.
  - intros F0 sp A P x id σ. apply add_user_ok.
Qed.

Lemma deregister_user_refines : refines_user (deregister_user addr) remove_outcome.
Proof.
  apply (refines_user_of _ remove_user_from_store); [done|apply remove_from_store_lucky| |].
  - intros A x r A' Ho. eapply (small_errors (fun x => x)). by right.
  - intros F0 sp A P x id σ. apply remove_user_ok.
Qed.

Lemma register_program_refines : refines_program (register_program addr) add_program_outcome.
Proof.
  apply (refines_program_of _ add_program_to_store); [done|apply add_to_store_lucky| |].
  - intros A x r A' Ho. eapply small_errors. by left.
  - intros F0 sp A P x id σ. apply add_program_ok.
Qed.

Lemma deregister_program_refines : refines_program (deregister_program addr) remove_outcome.
Proof.
  apply (refines_program_of _ remove_program_from_store); [done|apply remove_from_store_lucky| |].
  - intros A x r A' Ho. eapply (small_errors program_key). by right.
  - intros F0 sp A P x id σ. apply remove_program_ok.
Qed.

(** ** Names of syscalls *)

Lemma find_loop_spec name : forall l i, 0 <= i ->
  (find_loop i l name = -1 /\ (forall k, l !! k <> Some (Some name))) \/
  exists k, find_loop i l name = i + Z.of_nat k /\ l !! k = Some (Some name) /\
    forall j, (j < k)%nat -> l !! j <> Some (Some name).
Proof.
  induction l as [|sym l IH]; intros i Hi; [by left|]. simpl.
  destruct (decide (sym = Some name)) as [->|Hne].
  { rewrite bool_decide_true by done. right. exists 0%nat. split_and!; [lia|done|lia]. }
  replace (match sym with Some s => bool_decide (s = name) | None => false end) with false
    by (destruct sym as [s|]; [|done]; symmetry; apply bool_decide_eq_false_2; congruence).
  destruct (IH (i + 1) ltac:(lia)) as [[E Hn]|(k & E & Hk & Hn)].
  - left. split; [done|]. intros [|k]; [simpl; congruence|apply Hn].
  - right. exists (S k). split_and!; [lia|done|]. intros [|j] Hj; [simpl; congruence|apply Hn; lia].
Qed.

Lemma find_syscall_id_first name k : table !! k = Some (Some name) ->
  (forall j, (j < k)%nat -> table !! j <> Some (Some name)) -> find_syscall_id table name = Z.of_nat k.
Proof.
  intros Hk Hn. unfold find_syscall_id. destruct (find_loop_spec name table 0 ltac:(lia)) as [[_ Ha]|(j & E & Hj & Hm)].
  - by destruct (Ha k).
  - rewrite E. destruct (lt_eq_lt_dec j k) as [[Hlt| ->]|Hgt]; [by destruct (Hn j Hlt)|lia|by destruct (Hm k Hgt)].
Qed.

(** The hooking functions, when the tables of the tool and of the module have
    the name at the same index. *)
Context (Hpf : platform SUP NR tramp symbols kprobe).

Lemma syscall_call_ok cmd op name e w A P :
  (forall u arg d, kioctl u 0 cmd arg d = on_hooks d (syscall_command u op arg)) ->
  (forall id, exists r h', op id (d_hook (w_drv w)) = Some (r, h') /\ - 4095 <= r) ->
  Z.of_nat (length table) <= 2 ^ 31 -> free w -> w_uid w = 0 ->
  store_rep F (d_mem (w_drv w)) (d_store (w_drv w)) A P ->
  (find_syscall_id table name = -1 /\ syscall_call table addr cmd name (Proc e w) = Some (-1, Proc e w)) \/
  exists r σ' h', find_syscall_id table name <> -1 /\
    syscall_call table addr cmd name (Proc e w) = Some (api_ret r, Proc (api_errno r e)
      (with_drv (Driver σ' (d_store (w_drv w)) h' (set_reg (Registry A P) (d_core (w_drv w)))) w)) /\
    store_rep F σ' (d_store (w_drv w)) A P /\
    ((~ lucky (d_mem (w_drv w)) /\ h' = d_hook (w_drv w) /\ r = - ENOMEM) \/
     op (find_syscall_id table name) (d_hook (w_drv w)) = Some (r, h')).
Proof.
  intros Hk Hop Hlen Hf Hu Hst. unfold syscall_call. destruct (find_syscall_id table name =? -1) eqn:E; zbool; [by left|right].
  assert (0 <= find_syscall_id table name < 2 ^ 31) as Hid.
  { unfold find_syscall_id in *. destruct (find_loop_spec name table 0 ltac:(lia)) as [[? _]|(k & -> & Hk' & _)]; [done|].
    apply lookup_lt_Some in Hk'. lia. }
  destruct (syscall_command_ok (int_mem addr (find_syscall_id table name)) op addr F (d_store (w_drv w)) (d_mem (w_drv w))
    A P (d_hook (w_drv w)) Hst) as (r & σ' & h' & Ec & Hst' & Ho).
  { intros id. destruct (Hop id) as (? & ? & -> & _). eauto. }
  rewrite copy_int_mem in Ho by lia. exists r, σ', h'.
  assert (- 4095 <= r) as Hr.
  { destruct Ho as [(_ & _ & ->)|Ho]; [unfold ENOMEM; lia|].
    destruct (Hop (find_syscall_id table name)) as (? & ? & E1 & ?). rewrite Ho in E1. by injection E1 as <- <-. }
  split; [done|]. split; [|done].
  rewrite (device_call_ret _ _ _ _ _ r (Driver σ' (d_store (w_drv w)) h' (d_core (w_drv w)))); [|done| |done].
  - unfold refresh. simpl. by rewrite (registry_of_rep _ _ _ _ _ Hst').
  - rewrite Hu, Hk. unfold on_hooks. by rewrite Ec.
Qed.

(** ** The tool *)

Definition keeps (m : U world Z) (e : Z) (w : world) : Prop :=
  match m (Proc e w) with Some (_, p) => kept w p | None => True end.

Lemma device_call_keeps u cmd arg e w : - 2 ^ 31 < w_available w <= 1 -> keeps (device_call u cmd arg) e w.
Proof.
  intros Hb. unfold keeps. pose proof (device_call_kept u cmd arg e w Hb) as H.
  destruct (device_call u cmd arg (Proc e w)) as [[r p]|]; [apply H|done].
Qed.

Lemma syscall_call_keeps cmd name e w : - 2 ^ 31 < w_available w <= 1 -> keeps (syscall_call table addr cmd name) e w.
Proof.
  intros Hb. unfold syscall_call. destruct (_ =? -1); [done|]. by apply device_call_keeps.
Qed.

Lemma exit_status_kept m e w r p : keeps m e w -> exit_status m (Proc e w) = Some (r, p) ->
  (r = EXIT_SUCCESS \/ r = EXIT_FAILURE) /\ kept w p.
Proof.
  unfold keeps, exit_status, mbind, U_bind. destruct (m (Proc e w)) as [[r0 p0]|]; [|done].
  intros Hk [= <- <-]. split; [|done]. destruct (r0 <? 0); auto.
Qed.

Lemma with_arg_kept argv k e w r p : (forall a, keeps (k a) e w) -> with_arg argv k (Proc e w) = Some (r, p) ->
  (r = EXIT_SUCCESS \/ r = EXIT_FAILURE) /\ kept w p /\ (argv !! 2%nat = None -> r = EXIT_FAILURE /\ p = Proc e w).
Proof.
  intros Hk. unfold with_arg. destruct (argv !! 2%nat) as [a|].
  - intros H. destruct (exit_status_kept _ _ _ _ _ (Hk a) H). by split_and!.
  - intros [= <- <-]. split_and!; auto; done.
Qed.

Definition tool_commands : list (list Z) :=
  str <$> ["register-user"; "deregister-user"; "register-program"; "deregister-program";
           "register-syscall"; "deregister-syscall"; "on"; "off"].

(** ** Properties *)

(** C31: the four registration functions of the library, run as root on a free
    device, refine the operations on the sets of users and programs: 0 when
    the set was changed, -1 with errno EEXIST, EINVAL, ENOSPC, or ENOMEM only
    if an allocation failed, otherwise; a name of 16 bytes or more is refused
    with EINVAL, and an empty name is reported as success without being
    registered.  The device is given back on every path, and the throttling
    core then works with the new sets. *)
Theorem library_refines_sets :
  refines_user (register_user addr) add_user_outcome /\ refines_user (deregister_user addr) remove_outcome /\
  refines_program (register_program addr) add_program_outcome /\ refines_program (deregister_program addr) remove_outcome.
Proof.
  split_and!.
  - apply register_user_refines.
  - apply deregister_user_refines.
  - apply register_program_refines.
  - apply deregister_program_refines.
Qed.

(** C34: whatever the arguments of the tool and whatever the module answers, the
    tool has closed the device when it returns, its exit status is 0 or 1, and
    without a command, with an unknown one or with a missing argument it
    returns 1 and has not touched the module at all. *)
Theorem tool_releases_device argv e w r p : - 2 ^ 31 < w_available w <= 1 ->
  systhrot_main table addr argv (Proc e w) = Some (r, p) ->
  (r = EXIT_SUCCESS \/ r = EXIT_FAILURE) /\ kept w p /\
  (match argv !! 1%nat with
   | Some cmd => cmd ∉ tool_commands \/ (argv !! 2%nat = None /\ cmd <> str "on" /\ cmd <> str "off")
   | None => True
   end -> r = EXIT_FAILURE /\ p = Proc e w).
Proof.
  intros Hb. unfold systhrot_main. destruct (argv !! 1%nat) as [cmd|]; [|intros [= <- <-]; split_and!; auto; done].
  assert (forall k, (forall a, keeps (k a) e w) -> cmd ∈ tool_commands -> with_arg argv k (Proc e w) = Some (r, p) ->
    (r = EXIT_SUCCESS \/ r = EXIT_FAILURE) /\ kept w p /\
    (cmd ∉ tool_commands \/ (argv !! 2%nat = None /\ cmd <> str "on" /\ cmd <> str "off") ->
      r = EXIT_FAILURE /\ p = Proc e w)) as Harg.
  { intros k Hk Hin H. destruct (with_arg_kept _ _ _ _ _ _ Hk H) as (H1 & H2 & H3). split_and!; try done.
    intros [Hn|[Hn _]]; [done|by apply H3]. }
  assert (forall k, tool_commands !! k = Some cmd -> cmd ∈ tool_commands) as Hmem by (intros k; apply list_elem_of_lookup_2).
  case_bool_decide as Hc0; [apply Harg; [intros a; by apply device_call_keeps|by apply (Hmem 0%nat); rewrite Hc0]|].
  case_bool_decide as Hc1; [apply Harg; [intros a; by apply device_call_keeps|by apply (Hmem 1%nat); rewrite Hc1]|].
  case_bool_decide as Hc2; [apply Harg; [intros a; by apply device_call_keeps|by apply (Hmem 2%nat); rewrite Hc2]|].
  case_bool_decide as Hc3; [apply Harg; [intros a; by apply device_call_keeps|by apply (Hmem 3%nat); rewrite Hc3]|].
  case_bool_decide as Hc4; [apply Harg; [intros a; by apply syscall_call_keeps|by apply (Hmem 4%nat); rewrite Hc4]|].
  case_bool_decide as Hc5; [apply Harg; [intros a; by apply syscall_call_keeps|by apply (Hmem 5%nat); rewrite Hc5]|].
  assert (forall m, keeps m e w -> cmd ∈ tool_commands -> (cmd = str "on" \/ cmd = str "off") ->
    exit_status m (Proc e w) = Some (r, p) ->
    (r = EXIT_SUCCESS \/ r = EXIT_FAILURE) /\ kept w p /\
    (cmd ∉ tool_commands \/ (argv !! 2%nat = None /\ cmd <> str "on" /\ cmd <> str "off") ->
      r = EXIT_FAILURE /\ p = Proc e w)) as Hsw.
  { intros m Hk Hin Hc H. destruct (exit_status_kept _ _ _ _ _ Hk H) as (H1 & H2). split_and!; try done.
    intros [Hn|(_ & ? & ?)]; [done|by destruct Hc]. }
  case_bool_decide as Hc6; [apply Hsw; [by apply device_call_keeps|by apply (Hmem 6%nat); rewrite Hc6|auto]|].
  case_bool_decide as Hc7; [apply Hsw; [by apply device_call_keeps|by apply (Hmem 7%nat); rewrite Hc7|auto]|].
  intros [= <- <-]. split_and!; auto; done.
Qed.

(** Errors of the kernel are at least -4095. *)
Context (Herr : forall id e, kprobe (symbols id) = KpErr e -> - 4095 <= e).

Lemma patch_small a bs h : - 4095 <= (apply_smp_patch kp0 ksym a bs h).1.
Proof. unfold apply_smp_patch. destruct (negb _); simpl; [lia|]. unfold ENOENT. lia. Qed.

Lemma install_small id h r h' : installProbe SUP tramp symbols kprobe kp0 ksym id h = Some (r, h') -> - 4095 <= r.
Proof.
  unfold installProbe. destruct (_ || _); [intros [= <- _]; unfold EINVAL; lia|].
  destruct (test_bit _ id) as [b|]; [|done]. simpl. destruct (negb _); [intros [= <- _]; unfold EEXIST; lia|].
  unfold resolve. destruct (_ !! _) as [c|]; [|done]. simpl. destruct (negb (c =? 0)); simpl.
  - pose proof (patch_small c (call_instruction tramp c) h) as Hp. destruct (apply_smp_patch _ _ _ _ _) as [x h1].
    simpl in Hp. destruct (x <? 0); [by intros [= <- _]|]. destruct (set_bit _ _); [|done]. intros [= <- _]. lia.
  - destruct (kprobe (symbols id)) as [er|a] eqn:Ek; simpl; [intros [= <- _]; by eapply Herr|].
    match goal with |- context [apply_smp_patch kp0 ksym a ?bs ?x] => pose proof (patch_small a bs x) as Hp end.
    destruct (apply_smp_patch _ _ _ _ _) as [x h1].
    simpl in Hp. destruct (x <? 0); [by intros [= <- _]|]. destruct (set_bit _ _); [|done]. intros [= <- _]. lia.
Qed.

Lemma remove_small id h r h' : removeProbe SUP symbols kprobe kp0 ksym id h = Some (r, h') -> - 4095 <= r.
Proof.
  unfold removeProbe. destruct (_ || _); [intros [= <- _]; unfold EINVAL; lia|].
  destruct (test_bit _ id) as [b|]; [|done]. simpl. destruct (_ =? 0); [intros [= <- _]; unfold EEXIST; lia|].
  destruct (resolve _ _ _ _) as [[[er|a] h1]|]; simpl; [intros [= <- _]; lia| |done].
  pose proof (patch_small a nop_instruction h1) as Hp. destruct (apply_smp_patch _ _ _ _ _) as [x h2].
  simpl in Hp. destruct (x <? 0); [by intros [= <- _]|]. destruct (clear_bit _ _); [|done]. intros [= <- _]. lia.
Qed.

(** C35: hooking by name: with the same table in the tool and in the module,
    [register_syscall] and [deregister_syscall] hook and unhook exactly the
    syscall whose symbol is the given name, with the module's result turned
    into 0 or -1 and [errno]; an unknown name gives -1 with the process (and
    [errno]) unchanged. *)
Theorem library_hooks_named name e w A P : (forall i, (i < length table)%nat -> symbols (Z.of_nat i) = mjoin (table !! i)) ->
  SUP = Z.of_nat (length table) -> SUP <= 2 ^ 31 -> free w -> w_uid w = 0 ->
  store_rep F (d_mem (w_drv w)) (d_store (w_drv w)) A P -> hook_inv SUP NR tramp symbols kprobe (d_hook (w_drv w)) ->
  let outcome (f : list Z -> U world Z) (op : Z -> hook -> option (Z * hook)) :=
    (f name (Proc e w) = Some (-1, Proc e w) /\ forall id, 0 <= id < SUP -> symbols id <> Some name) \/
    exists id r σ' h', 0 <= id < SUP /\ symbols id = Some name /\
      f name (Proc e w) = Some (api_ret r, Proc (api_errno r e)
        (with_drv (Driver σ' (d_store (w_drv w)) h' (set_reg (Registry A P) (d_core (w_drv w)))) w)) /\
      store_rep F σ' (d_store (w_drv w)) A P /\
      ((~ lucky (d_mem (w_drv w)) /\ h' = d_hook (w_drv w) /\ r = - ENOMEM) \/ op id (d_hook (w_drv w)) = Some (r, h')) in
  outcome (register_syscall table addr) (installProbe SUP tramp symbols kprobe kp0 ksym) /\
  outcome (deregister_syscall table addr) (removeProbe SUP symbols kprobe kp0 ksym).
Proof.
  intros Hag HS Hlen Hf Hu Hst Hh outcome. rewrite HS in Hlen.
  assert (forall cmd op, (forall u arg d, kioctl u 0 cmd arg d = on_hooks d (syscall_command u op arg)) ->
    (forall id, exists r h', op id (d_hook (w_drv w)) = Some (r, h') /\ - 4095 <= r) ->
    outcome (syscall_call table addr cmd) op) as Hgen.
  { intros cmd op Hk Hop.
    destruct (syscall_call_ok cmd op name e w A P Hk Hop Hlen Hf Hu Hst) as [[Hid Hc]|(r & σ' & h' & Hf1 & Hc & Hst' & Ho)];
      unfold find_syscall_id in *; destruct (find_loop_spec name table 0 ltac:(lia)) as [[E Hn]|(k & E & Hk' & _)].
    - left. split; [done|]. intros id Hi Hs. rewrite <-(Z2Nat.id id) in Hs by lia. rewrite Hag in Hs by lia.
      destruct (table !! Z.to_nat id) as [[x|]|] eqn:Ex; simplify_eq/=. by apply (Hn (Z.to_nat id)).
    - lia.
    - done.
    - right. exists (0 + Z.of_nat k), r, σ', h'. pose proof (lookup_lt_Some _ _ _ Hk').
      split_and!; [lia|lia| |done..|by rewrite <-E]. by rewrite Z.add_0_l, Hag, Hk' by lia. }
  split; apply Hgen; try done; intros id.
  - destruct (installProbe_total SUP NR tramp symbols kprobe kp0 ksym Hpf id _ Hh) as (x & h' & E & _).
    exists x, h'. split; [done|]. by eapply install_small.
  - destruct (removeProbe_total SUP NR tramp symbols kprobe kp0 ksym Hpf id _ Hh) as (x & h' & E & _).
    exists x, h'. split; [done|]. by eapply remove_small.
Qed.

(** [double_open_test] shows the device is exclusive: on a free device its
    second [open] fails with EBUSY, and the device is free again afterwards. *)
Theorem double_open_fails e w : free w -> double_open_test (Proc e w) = Some (-1, Proc EBUSY w).
Proof.
  intros Hf. destruct w as [av fds uid drv]. unfold free in Hf. simpl in Hf. subst av.
  unfold double_open_test, mbind, U_bind, open_, libc_ret. simpl.
  replace ((-4095 <=? 3 + Z.of_nat fds) && (3 + Z.of_nat fds <? 0)) with false
    by (symmetry; apply andb_false_iff; right; apply Z.ltb_ge; lia).
  cbn iota. rewrite (proj2 (Z.ltb_ge (3 + Z.of_nat fds) 0)) by lia.
  pose proof (world_close_last fds (World 0 (S fds) uid drv) eq_refl) as Hc. unfold closed in Hc. simpl in Hc |- *.
  cbv [close_ libc_ret]. simpl. change (s32 (s32 (s32 (1 - 1) - 1) + 1)) with 0. by rewrite Hc.
Qed.
End spec.

(** ** The generated tables *)

(** The numbers grow along the list and no symbol is listed twice. *)
Record entries_ok (entries : list (Z * list Z)) : Prop := {
  eo_nonneg k e : entries !! k = Some e -> 0 <= e.1;
  eo_sorted j k e f : (j < k)%nat -> entries !! j = Some e -> entries !! k = Some f -> e.1 < f.1;
  eo_names j k e f : entries !! j = Some e -> entries !! k = Some f -> e.2 = f.2 -> j = k;
}.

Lemma entry_ge entries : entries_ok entries -> forall k e, entries !! k = Some e -> Z.of_nat k <= e.1.
Proof.
  intros Hok. induction k as [|k IH]; intros e He; [by eapply (eo_nonneg _ Hok)|].
  destruct (lookup_lt_is_Some_2 entries k) as [f Hf]; [apply lookup_lt_Some in He; lia|].
  pose proof (IH f Hf). pose proof (eo_sorted _ Hok k (S k) f e ltac:(lia) Hf He). lia.
Qed.

(** Without a gap below [n], the first [n] positions hold the numbers. *)
Lemma entry_dense entries n : entries_ok entries ->
  (forall m, 0 <= m < n -> exists j e, entries !! j = Some e /\ e.1 = m) ->
  forall k, Z.of_nat k < n -> exists e, entries !! k = Some e /\ e.1 = Z.of_nat k.
Proof.
  intros Hok Hall k. induction (lt_wf k) as [k _ IH]. intros Hk.
  destruct (Hall (Z.of_nat k) ltac:(lia)) as (j & e & Hj & Hm). pose proof (entry_ge _ Hok j e Hj) as Hge.
  destruct (decide (j = k)) as [-> |Hne]; [by exists e|].
  destruct (IH j ltac:(lia) ltac:(lia)) as (f & Hf & Hfm). rewrite Hj in Hf. injection Hf as <-. lia.
Qed.

Lemma entry_position entries k nr name : entries_ok entries -> entries !! k = Some (nr, name) ->
  (Z.of_nat k = nr <-> forall m, 0 <= m < nr -> exists j e, entries !! j = Some e /\ e.1 = m).
Proof.
  intros Hok Hk. pose proof (entry_ge _ Hok k _ Hk) as Hge. simpl in Hge. split.
  - intros Heq m Hm. exists (Z.to_nat m).
    destruct (lookup_lt_is_Some_2 entries (Z.to_nat m)) as [e He]; [apply lookup_lt_Some in Hk; lia|].
    exists e. split; [done|]. pose proof (entry_ge _ Hok _ _ He).
    assert (forall d f, entries !! (Z.to_nat m + d)%nat = Some f -> e.1 + Z.of_nat d <= f.1) as Hup.
    { induction d as [|d IHd]; intros f Hf; [rewrite Nat.add_0_r, He in Hf; injection Hf as ->; lia|].
      destruct (lookup_lt_is_Some_2 entries (Z.to_nat m + d)) as [g Hg]; [apply lookup_lt_Some in Hf; lia|].
      pose proof (IHd g Hg). rewrite Nat.add_succ_r in Hf. 
      pose proof (eo_sorted _ Hok (Z.to_nat m + d)%nat (S (Z.to_nat m + d)) g f ltac:(lia) Hg Hf). lia. }
    specialize (Hup (k - Z.to_nat m)%nat (nr, name)). simpl in Hup.
    replace (Z.to_nat m + (k - Z.to_nat m))%nat with k in Hup by lia. specialize (Hup Hk). lia.
  - intros Hall. destruct (decide (Z.of_nat k = nr)) as [|Hne]; [done|].
    destruct (entry_dense _ nr Hok Hall k ltac:(lia)) as (e & He & Hm). rewrite Hk in He. injection He as <-. simpl in Hm. lia.
Qed.

(** What [find_syscall_id] translates a name to depends on which Makefile
    generated the table: with the module's it is the syscall's number; with
    the one of [src/user] it is the name's position, which is the number
    exactly when no smaller number is missing.  (After the first gap the tool
    hooks another syscall than the one named.) *)
Theorem table_translates entries k nr name size : entries_ok entries -> entries !! k = Some (nr, name) ->
  nr < Z.of_nat size ->
  find_syscall_id (indexed_table entries size) name = nr /\
  find_syscall_id (positional_table entries) name = Z.of_nat k /\
  (Z.of_nat k = nr <-> forall m, 0 <= m < nr -> exists j e, entries !! j = Some e /\ e.1 = m).
Proof.
  intros Hok Hk Hs. pose proof (eo_nonneg _ Hok _ _ Hk) as H0. simpl in H0.
  assert (NoDup entries.*1) as Hnd.
  { apply NoDup_alt. intros i j n. rewrite !list_lookup_fmap.
    intros (e & He & ->)%fmap_Some (f & Hf & Hef)%fmap_Some.
    destruct (lt_eq_lt_dec i j) as [[Hlt|?]|Hgt]; [|done|].
    - pose proof (eo_sorted _ Hok i j e f Hlt ltac:(done) ltac:(done)). lia.
    - pose proof (eo_sorted _ Hok j i f e Hgt ltac:(done) ltac:(done)). lia. }
  assert (forall n s, (list_to_map entries : gmap Z (list Z)) !! n = Some s <-> (n, s) ∈ entries) as Hmap.
  { intros n x. symmetry. by apply elem_of_list_to_map. }
  split_and!.
  - rewrite <-(Z2Nat.id nr) by done. apply find_syscall_id_first.
    + unfold indexed_table. rewrite list_lookup_fmap, lookup_seq_lt by lia. simpl. f_equal. rewrite Z2Nat.id by done.
      apply Hmap. by eapply list_elem_of_lookup_2.
    + intros j Hj. unfold indexed_table. rewrite list_lookup_fmap, lookup_seq_lt by lia. simpl. intros [= Hx].
      apply Hmap in Hx. apply list_elem_of_lookup_1 in Hx as [i Hi].
      assert (i = k) as -> by (by eapply (eo_names _ Hok i k)). rewrite Hk in Hi. injection Hi as ->. lia.
  - apply find_syscall_id_first.
    + unfold positional_table. by rewrite list_lookup_fmap, Hk.
    + intros j Hj. unfold positional_table. rewrite list_lookup_fmap. intros (e & He & [= Hn])%fmap_Some.
      assert (j = k) by (by eapply (eo_names _ Hok j k e)). lia.
  - by eapply entry_position.
Qed.

(** ** Numbers as text *)

Lemma read_digits_print fuel : forall n a tail, (0 < fuel)%nat -> 0 <= n < 10 ^ Z.of_nat fuel ->
  exists m, 0 <= m /\ read_digits a (digits fuel n tail) = read_digits (a * 10 ^ m + n) tail.
Proof.
  induction fuel as [|fuel IH]; intros n a tail Hf Hn; [lia|]. simpl.
  destruct (n <? 10) eqn:E; zbool.
  - exists 1. split; [lia|]. simpl. unfold is_digit. replace ((48 <=? 48 + n) && (48 + n <=? 57)) with true
      by (symmetry; apply andb_true_iff; split; apply Z.leb_le; lia).
    f_equal. lia.
  - rewrite Nat2Z.inj_succ, Z.pow_succ_r in Hn by lia.
    assert (0 < fuel)%nat as Hf' by (destruct fuel; [simpl in Hn; lia|lia]).
    destruct (IH (n / 10) a ((48 + n mod 10) :: tail) Hf') as (m & Hm & ->).
    { split; [apply Z.div_pos; lia|]. apply Z.div_lt_upper_bound; lia. }
    exists (m + 1). split; [lia|]. simpl. pose proof (Z.mod_pos_bound n 10 ltac:(lia)).
    unfold is_digit. replace ((48 <=? 48 + n mod 10) && (48 + n mod 10 <=? 57)) with true
      by (symmetry; apply andb_true_iff; split; apply Z.leb_le; lia).
    f_equal. rewrite Z.pow_add_r by lia. pose proof (Z.div_mod n 10 ltac:(lia)). lia.
Qed.

Lemma digits_head fuel : forall n tail, (0 < fuel)%nat -> 0 <= n < 10 ^ Z.of_nat fuel ->
  exists c t, digits fuel n tail = c :: t /\ 48 <= c <= 57.
Proof.
  induction fuel as [|fuel IH]; intros n tail Hf Hn; [lia|]. simpl.
  destruct (n <? 10) eqn:E; zbool; [exists (48 + n), tail; split; [done|lia]|].
  rewrite Nat2Z.inj_succ, Z.pow_succ_r in Hn by lia.
  apply IH; [destruct fuel; [simpl in Hn; lia|lia]|].
  split; [apply Z.div_pos; lia|]. apply Z.div_lt_upper_bound; lia.
Qed.

(** [atoi] of the text [%d] prints for an [int] is that [int]. *)
Lemma atoi_print_int z : - 2 ^ 31 <= z < 2 ^ 31 -> atoi (print_int z) = z.
Proof.
  intros Hz. assert (forall n, 0 <= n <= 2 ^ 31 -> read_digits 0 (digits 10 n []) = n) as Hr.
  { intros n Hn. destruct (read_digits_print 10 n 0 [] ltac:(lia) ltac:(simpl; lia)) as (m & _ & ->). simpl. lia. }
  unfold atoi, strtol, print_int. destruct (z <? 0) eqn:E; zbool.
  - change (skip_space (45 :: digits 10 (- z) [])) with (45 :: digits 10 (- z) []). cbn iota. rewrite Hr by lia. rewrite s32_id; lia.
  - destruct (digits_head 10 z [] ltac:(lia) ltac:(simpl; lia)) as (c & t & Hd & Hc).
    specialize (Hr z ltac:(lia)). rewrite Hd in *.
    assert (match skip_space (c :: t) with 45 :: s => - read_digits 0 s | 43 :: s => read_digits 0 s | s => read_digits 0 s end
      = read_digits 0 (c :: t)) as ->.
    { assert (c = 48 \/ c = 49 \/ c = 50 \/ c = 51 \/ c = 52 \/ c = 53 \/ c = 54 \/ c = 55 \/ c = 56 \/ c = 57) as Hcs by lia.
      by repeat destruct Hcs as [-> |Hcs]; try subst c. }
    rewrite Hr, s32_id; lia.
Qed.

(** A uid survives the way from the device's text to the tool: the line of
    the device for a user contains its decimal notation, and [register-user]
    and [deregister-user] with that notation act on exactly that uid. *)
Theorem tool_reads_uid {W} `{SysCalls W} table addr prog uid (p : proc W) : - 2 ^ 31 <= uid < 2 ^ 31 ->
  exists text, user_line uid = str "  UID: " ++ text ++ [10] /\
    systhrot_main table addr [prog; str "register-user"; text] p = exit_status (register_user addr uid) p /\
    systhrot_main table addr [prog; str "deregister-user"; text] p = exit_status (deregister_user addr uid) p.
Proof.
  intros Hu. pose proof (atoi_print_int uid Hu) as Ha. exists (print_int uid). split; [done|]. split.
  - transitivity (exit_status (register_user addr (atoi (print_int uid))) p); [reflexivity|by rewrite Ha].
  - transitivity (exit_status (deregister_user addr (atoi (print_int uid))) p); [reflexivity|by rewrite Ha].
Qed.

(** ** Witnesses: root on the demonstration driver *)

Section demo.
(** A started call runs to its end with no thread in the module. *)
Definition demo_complete (s : state) : Z * state :=
  match run 462 (replicate 5 (LCtl true)) s with Next s' => (0, s') | _ => (0, s) end.
Definition demo_table : list (option (list Z)) := (fun i => Some [Z.of_nat i]) <$> seq 0 462.
Definition demo_world : world := World 1 0 0 demo_driver.

#[local] Abbreviation demo_calls := (world_calls 462 demo_tramp demo_symbols demo_kprobe (KpAddr 1) demo_ksym demo_complete).

Lemma library_refines_sets_witness : exists r σ' A',
  register_user (H := demo_calls) 64 1000 (Proc 0 demo_world) = Some (api_ret r, Proc (api_errno r 0)
    (with_drv (Driver σ' 3 demo_hooked (set_reg (Registry A' ∅) (init_state 5 (Registry ∅ ∅) []))) demo_world)) /\
  ((r = - ENOMEM /\ A' = ∅) \/ add_user_outcome ∅ 1000 r A') /\ (lucky demo_store -> r <> - ENOMEM) /\
  store_rep demo_frame σ' 3 A' ∅.
Proof.
  apply (proj1 (library_refines_sets 462 demo_tramp demo_symbols demo_kprobe (KpAddr 1) demo_ksym demo_complete 64 demo_frame)
    1000 0 demo_world ∅ ∅); [lia|reflexivity|reflexivity|exact demo_store_rep].
Defined.

Lemma tool_releases_device_witness : exists r p,
  systhrot_main (H := demo_calls) demo_table 64 [str "systhrot"; str "register-user"; str "1000"] (Proc 0 demo_world) = Some (r, p) /\
  r = 0 /\ kept demo_world p.
Proof.
  destruct (systhrot_main (H := demo_calls) demo_table 64 [str "systhrot"; str "register-user"; str "1000"] (Proc 0 demo_world))
    as [[r p]|] eqn:E; [|vm_compute in E; discriminate].
  exists r, p. split; [reflexivity|]. split; [vm_compute in E; by injection E|].
  refine (proj1 (proj2 (tool_releases_device 462 demo_tramp demo_symbols demo_kprobe (KpAddr 1) demo_ksym demo_complete
    demo_table 64 _ 0 demo_world r p _ E))). split; [reflexivity|discriminate].
Defined.

Lemma demo_kprobe_err id er : demo_kprobe (demo_symbols id) = KpErr er -> - 4095 <= er.
Proof. unfold demo_kprobe, demo_symbols. repeat case_match; intros [= <-]; unfold ENOENT, EINVAL; lia. Qed.

Lemma library_hooks_named_witness : exists id r σ' h', 0 <= id < 462 /\ demo_symbols id = Some [39] /\
  register_syscall (H := demo_calls) demo_table 64 [39] (Proc 0 demo_world) = Some (api_ret r, Proc (api_errno r 0)
    (with_drv (Driver σ' 3 h' (set_reg (Registry ∅ ∅) (init_state 5 (Registry ∅ ∅) []))) demo_world)).
Proof.
  destruct (proj1 (library_hooks_named 462 462 demo_tramp demo_symbols demo_kprobe (KpAddr 1) demo_ksym demo_complete
    demo_table 64 demo_frame demo_platform
    demo_kprobe_err
    [39] 0 demo_world ∅ ∅
    ltac:(intros i Hi; unfold demo_table; rewrite list_lookup_fmap, lookup_seq_lt by (exact Hi); reflexivity)
    eq_refl ltac:(lia) eq_refl eq_refl demo_store_rep demo_hooked_inv)) as [[_ Hn]|(id & r & σ' & h' & Hid & Hs & E & _)].
  - destruct (Hn 39 ltac:(lia)). reflexivity.
  - exists id, r, σ', h'. split; [exact Hid|]. split; [exact Hs|exact E].
Defined.

Lemma double_open_fails_witness :
  double_open_test (H := demo_calls) (Proc 0 demo_world) = Some (-1, Proc EBUSY demo_world).
Proof. exact (double_open_fails 462 demo_tramp demo_symbols demo_kprobe (KpAddr 1) demo_ksym demo_complete 0 demo_world eq_refl). Defined.

(** Number 1 has no symbol: [b] is at position 1 and has number 2. *)
Definition demo_entries : list (Z * list Z) := [(0, [97]); (2, [98])].

Lemma demo_entries_ok : entries_ok demo_entries.
Proof.
  split.
  - intros [|[|k]] e He; simplify_eq/=; lia.
  - intros [|[|j]] [|[|k]] e f Hlt He Hf; simplify_eq/=; lia.
  - intros [|[|j]] [|[|k]] e f He Hf Hn; simplify_eq/=; done.
Qed.

Lemma table_translates_witness : find_syscall_id (indexed_table demo_entries 3) [98] = 2 /\
  find_syscall_id (positional_table demo_entries) [98] = 1.
Proof.
  destruct (table_translates demo_entries 1 2 [98] 3 demo_entries_ok eq_refl ltac:(lia)) as (H1 & H2 & _).
  split; [exact H1|exact H2].
Defined.

Lemma tool_reads_uid_witness : exists text, user_line (-1000) = str "  UID: " ++ text ++ [10] /\
  systhrot_main (H := demo_calls) demo_table 64 [str "systhrot"; str "register-user"; text] (Proc 0 demo_world) =
    exit_status (register_user (H := demo_calls) 64 (-1000)) (Proc 0 demo_world).
Proof.
  destruct (tool_reads_uid (H := demo_calls) demo_table 64 (str "systhrot") (-1000) (Proc 0 demo_world) ltac:(lia)) as (text & H1 & H2 & _).
  exists text. split; [exact H1|exact H2].
Defined.
End demo.
