(* ===== verification/Build.v ===== *)
(** * The generated symbol tables ([src/Makefile], [src/user/Makefile])

    The two recipes that extract syscall numbers and symbols from the kernel's
    header and from [/proc/kallsyms] and write [syscalls.h]: the pipelines of
    grep, sort and awk as functions on lists of lines.  Files are lists of lines
    without their newlines. *)

From stdpp Require Import prelude gmap list strings sorting.
From S2P Require Import Prelude Device UserLib UserSpec.

(** ** Lines *)

Fixpoint strip (p s : list Z) : option (list Z) :=
  match p, s with
  | [], _ => Some s
  | x :: p, y :: s => if x =? y then strip p s else None
  | _ :: _, [] => None
  end.

(** The longest prefix of characters that satisfy [f], and the rest. *)
Fixpoint span (f : Z -> bool) (s : list Z) : list Z * list Z :=
  match s with
  | c :: s' => if f c then let (a, b) := span f s' in (c :: a, b) else ([], s)
  | [] => ([], [])
  end.

Definition sym_prefix : list Z := str "__x64_sys_".

(** [grep -oE '__x64_sys_\[^ \]*']: the matches in a line from left to right; [skip]
    characters belong to the last one. *)
Fixpoint grep_symbols (skip : nat) (line : list Z) : list (list Z) :=
  match line with
  | [] => []
  | _ :: rest =>
      match skip with
      | S k => grep_symbols k rest
      | O =>
          match strip sym_prefix line with
          | Some s =>
              let m := sym_prefix ++ (span (fun c => negb (c =? 32)) s).1 in
              m :: grep_symbols (length m - 1) rest
          | None => grep_symbols 0 rest
          end
      end
  end.

(** [/tmp/st_kallsyms.txt]; of [sort -u] only the set of lines matters. *)
Definition kallsyms_symbols (kallsyms : list (list Z)) : list (list Z) := kallsyms ≫= grep_symbols 0.

Definition is_name (c : Z) : bool := ((97 <=? c) && (c <=? 122)) || (c =? 95) || is_digit c.

(** A line that matches [^#define __NR_\[a-z_0-9\]+ \[0-9\]+], and what awk makes of
    its second and third field: the number and the symbol. *)
Definition define_of (line : list Z) : option (Z * list Z) :=
  s ← strip (str "#define __NR_") line;
  let (name, rest) := span is_name s in
  match name, rest with
  | _ :: _, 32 :: c :: digits => if is_digit c then Some (read_digits 0 (c :: digits), sym_prefix ++ name) else None
  | _, _ => None
  end.

(** ** The module's table *)

(** [sort -k1 -n -u]: by number, of equal numbers the first. *)
Fixpoint insert_nr (e : Z * list Z) (l : list (Z * list Z)) : list (Z * list Z) :=
  match l with
  | [] => [e]
  | f :: l' => if e.1 <? f.1 then e :: l else if e.1 =? f.1 then l else f :: insert_nr e l'
  end.
Definition sort_nu (l : list (Z * list Z)) : list (Z * list Z) := foldl (fun acc e => insert_nr e acc) [] l.

(** [sys_calls_symbols.txt]: the numbers whose symbol the kernel has. *)
Definition module_entries (kallsyms header : list (list Z)) : list (Z * list Z) :=
  filter (fun e => e.2 ∈ kallsyms_symbols kallsyms) (sort_nu (omap define_of header)).

(** [SUPPORTED_SYSCALLS]: the number of the last line, plus one. *)
Definition supported (entries : list (Z * list Z)) : nat := S (Z.to_nat (default 0 (fst <$> last entries))).

Definition module_table (kallsyms header : list (list Z)) : list (option (list Z)) :=
  let entries := module_entries kallsyms header in indexed_table entries (supported entries).

(** ** The table of the tools *)

Fixpoint lex (s t : list Z) : bool :=
  match s, t with
  | [], _ => true
  | _ :: _, [] => false
  | x :: s, y :: t => (x <? y) || ((x =? y) && lex s t)
  end.

(** [sort -k1 -n]: by number, then by the whole line. *)
Fixpoint insert_line (e : Z * list Z) (l : list (Z * list Z)) : list (Z * list Z) :=
  match l with
  | [] => [e]
  | f :: l' => if (e.1 <? f.1) || ((e.1 =? f.1) && lex e.2 f.2) then e :: l else f :: insert_line e l'
  end.

(** The lines of all headers found, without repetitions ([sort -u]), sorted; the
    names that are lines of [/tmp/st_kallsyms.txt]. *)
Definition user_entries (kallsyms : list (list Z)) (headers : list (list (list Z))) : list (Z * list Z) :=
  filter (fun e => e.2 ∈ kallsyms_symbols kallsyms)
    (foldr insert_line [] (omap define_of (remove_dups (filter (fun line => is_Some (define_of line)) (mjoin headers))))).

Definition user_table (kallsyms : list (list Z)) (headers : list (list (list Z))) : list (option (list Z)) :=
  positional_table (user_entries kallsyms headers).

(** ** Sorting *)

Abbreviation below := (fun e f : Z * list Z => e.1 < f.1).

Lemma insert_nr_spec e l : StronglySorted below l ->
  StronglySorted below (insert_nr e l) /\
  forall f, f ∈ insert_nr e l <-> f ∈ l \/ (f = e /\ e.1 ∉ l.*1).
Proof.
  induction 1 as [|f l Hs [IHs IHm] Hf]; simpl.
  { split; [repeat constructor|]. intros g. rewrite list_elem_of_singleton. set_solver. }
  destruct (e.1 <? f.1) eqn:E1; zbool; [|destruct (e.1 =? f.1) eqn:E2; zbool].
  - split.
    + constructor; [by constructor|]. constructor; [done|]. eapply Forall_impl; [exact Hf|]. simpl. lia.
    + intros g. rewrite elem_of_cons. split; [intros [->|?]; [right|by left]|set_solver]. split; [done|].
      rewrite not_elem_of_cons. split; [lia|]. intros (x & Hx & Hin)%list_elem_of_fmap.
      pose proof (proj1 (Forall_forall _ _) Hf x Hin) as Hlt. simpl in Hlt. lia.
  - split; [by constructor|]. intros g. split; [by left|]. intros [?|[-> Hn]]; [done|]. rewrite E2 in Hn. set_solver.
  - split.
    + constructor; [done|]. apply Forall_forall. intros g Hg. apply IHm in Hg as [Hg|[-> _]]; [by apply (proj1 (Forall_forall _ _) Hf)|simpl; lia].
    + intros g. rewrite !elem_of_cons, IHm. tauto.
Qed.

Lemma insert_line_spec e l : StronglySorted below l -> e.1 ∉ l.*1 ->
  StronglySorted below (insert_line e l) /\ forall f, f ∈ insert_line e l <-> f ∈ l \/ f = e.
Proof.
  induction 1 as [|f l Hs IH Hf]; simpl; intros Hn.
  { split; [repeat constructor|]. intros g. rewrite list_elem_of_singleton. set_solver. }
  apply not_elem_of_cons in Hn as [Hne Hn]. destruct (IH Hn) as [IHs IHm].
  replace (e.1 =? f.1) with false by (symmetry; by apply Z.eqb_neq). rewrite andb_false_l, orb_false_r.
  destruct (e.1 <? f.1) eqn:E1; zbool.
  - split; [|set_solver]. constructor; [by constructor|]. constructor; [done|]. eapply Forall_impl; [exact Hf|]. simpl. lia.
  - split; [|intros g; rewrite !elem_of_cons, IHm; tauto].
    constructor; [done|]. apply Forall_forall. intros g Hg. apply IHm in Hg as [Hg| ->]; [by apply (proj1 (Forall_forall _ _) Hf)|simpl; lia].
Qed.

Lemma sort_nu_spec l : NoDup l.*1 -> StronglySorted below (sort_nu l) /\ forall f, f ∈ sort_nu l <-> f ∈ l.
Proof.
  intros Hnd. unfold sort_nu. enough (forall acc, StronglySorted below acc -> (forall e, e ∈ l -> e.1 ∉ acc.*1) ->
    let r := foldl (fun acc e => insert_nr e acc) acc l in StronglySorted below r /\ forall f, f ∈ r <-> f ∈ acc \/ f ∈ l) as H.
  { destruct (H [] ltac:(constructor) ltac:(set_solver)) as [H1 H2]. split; [done|]. intros f. rewrite H2. set_solver. }
  revert Hnd. induction l as [|e l IH]; intros Hnd acc Hs Hd; [split; [done|]; set_solver|].
  apply NoDup_cons in Hnd as [Hn Hnd]. destruct (insert_nr_spec e acc Hs) as [Hs' Hm']. simpl.
  pose proof (Hd e ltac:(by left)) as He. destruct (IH Hnd (insert_nr e acc) Hs') as [H1 H2].
  - intros f Hf (g & Hg & [Hin|[-> _]]%Hm')%list_elem_of_fmap.
    + apply (Hd f ltac:(by right)). rewrite Hg. by apply list_elem_of_fmap_2.
    + apply Hn. rewrite <-Hg. by apply list_elem_of_fmap_2.
  - split; [done|]. intros f. rewrite H2, Hm', elem_of_cons. naive_solver.
Qed.

Lemma sort_lines_spec l : NoDup l.*1 -> StronglySorted below (foldr insert_line [] l) /\ forall f, f ∈ foldr insert_line [] l <-> f ∈ l.
Proof.
  induction l as [|e l IH]; intros Hnd; [split; [constructor|]; done|]. apply NoDup_cons in Hnd as [Hn Hnd].
  destruct (IH Hnd) as [Hs Hm]. simpl. destruct (insert_line_spec e (foldr insert_line [] l) Hs) as [Hs' Hm'].
  { intros (f & Hf & Hin)%list_elem_of_fmap. apply Hn. rewrite Hf. apply list_elem_of_fmap_2. by apply Hm. }
  split; [done|]. intros f. rewrite Hm', Hm, elem_of_cons. tauto.
Qed.

Lemma sorted_filter (P : Z * list Z -> Prop) `{forall e, Decision (P e)} l : StronglySorted below l -> StronglySorted below (filter P l).
Proof.
  induction 1 as [|f l Hs IH Hf]; [constructor|]. rewrite filter_cons. case_decide; [|done]. constructor; [done|].
  apply Forall_forall. intros g [_ Hg]%list_elem_of_filter. by apply (proj1 (Forall_forall _ _) Hf).
Qed.

(** Lists sorted by number with the same elements are the same. *)
Lemma sorted_same l l' : StronglySorted below l -> StronglySorted below l' -> (forall e, e ∈ l <-> e ∈ l') -> l = l'.
Proof.
  intros Hs Hs' Hm. assert (forall k, StronglySorted below k -> NoDup k) as Hnd.
  { induction 1 as [|f k _ IH Hf]; constructor; [|done]. intros Hin. pose proof (proj1 (Forall_forall _ _) Hf f Hin) as Hlt. simpl in Hlt. lia. }
  eapply StronglySorted_unique_strong; [|exact Hs|exact Hs'|by apply NoDup_Permutation; auto].
  intros e f _ _ H1 H2. simpl in *. lia.
Qed.

Lemma sorted_entries l : StronglySorted below l -> (forall e, e ∈ l -> 0 <= e.1) -> NoDup l.*2 -> entries_ok l.
Proof.
  intros Hs H0 Hn. split.
  - intros k e He. by eapply H0, list_elem_of_lookup_2.
  - induction Hs as [|g l Hs IH Hf]; [done|]. intros [|j] [|k] e f Hjk Hj Hk; simpl in *; try lia.
    + injection Hj as ->. by eapply (Forall_lookup_1 _ _ _ _ Hf).
    + apply (IH ltac:(set_solver) ltac:(by apply NoDup_cons in Hn as [_ ?]) j k); [lia|done|done].
  - intros j k e f Hj Hk Hef. eapply (NoDup_lookup l.*2); [done|by rewrite list_lookup_fmap, Hj|by rewrite list_lookup_fmap, Hk, Hef].
Qed.

(** ** The headers *)

(** A header defines no number and no name twice. *)
Definition header_ok (header : list (list Z)) : Prop :=
  NoDup (omap define_of header).*1 /\ NoDup (omap define_of header).*2.

Lemma read_digits_nonneg s : forall a, 0 <= a -> 0 <= read_digits a s.
Proof.
  induction s as [|c s IH]; intros a Ha; [done|]. simpl. destruct (is_digit c) eqn:E; [|done]. apply IH.
  unfold is_digit in E. zbool. lia.
Qed.

Lemma define_nonneg line e : define_of line = Some e -> 0 <= e.1.
Proof.
  unfold define_of. destruct (strip _ line) as [s|]; [|done]. cbn [mbind option_bind]. destruct (span is_name s) as [name rest].
  repeat case_match; intros [= <-]. apply (read_digits_nonneg (_ :: _)). lia.
Qed.

(** Lines with the same number are the same line. *)
Lemma define_inj (l : list (list Z)) x y e f : NoDup (omap define_of l).*1 -> x ∈ l -> y ∈ l ->
  define_of x = Some e -> define_of y = Some f -> e.1 = f.1 -> x = y.
Proof.
  intros Hnd. assert (forall z g l', define_of z = Some g -> z ∈ l' -> g.1 ∈ (omap define_of l').*1) as Hin.
  { intros z g l' Hz Hl. apply list_elem_of_fmap_2, list_elem_of_omap. by exists z. }
  induction l as [|z l IH]; intros Hx Hy He Hf Hef; [by apply not_elem_of_nil in Hx|].
  apply elem_of_cons in Hx as [->|Hx], Hy as [->|Hy]; [done|..]; simpl in Hnd.
  - rewrite He in Hnd. apply NoDup_cons in Hnd as [Hn _]. destruct Hn. rewrite Hef. by eapply Hin.
  - rewrite Hf in Hnd. apply NoDup_cons in Hnd as [Hn _]. destruct Hn. rewrite <-Hef. by eapply Hin.
  - apply IH; try done. destruct (define_of z); [by apply NoDup_cons in Hnd as [_ ?]|done].
Qed.

Lemma define_nodup (l l' : list (list Z)) : NoDup (omap define_of l).*1 -> NoDup l' -> (forall x, x ∈ l' -> x ∈ l) ->
  NoDup (omap define_of l').*1.
Proof.
  intros Hnd. induction 1 as [|x l' Hx _ IH]; intros Hs; [constructor|]. simpl.
  specialize (IH ltac:(set_solver)). destruct (define_of x) as [e|] eqn:He; [|done]. constructor; [|done].
  intros (f & Hef & (y & Hy & Hf)%list_elem_of_omap)%list_elem_of_fmap. apply Hx.
  by rewrite (define_inj l x y e f Hnd ltac:(set_solver) ltac:(set_solver) He Hf Hef).
Qed.

Lemma sorted_last l k e : StronglySorted below l -> l !! k = Some e -> e.1 <= default 0 (fst <$> last l).
Proof.
  intros Hs. revert k e. induction Hs as [|f l Hs IH Hf]; intros k e Hk; [done|].
  destruct l as [|g l]; [destruct k; simplify_eq/=; lia|]. rewrite last_cons_cons.
  destruct k as [|k]; [|by apply (IH k)]. injection Hk as ->.
  pose proof (proj1 (Forall_forall _ _) Hf g ltac:(by left)). pose proof (IH 0%nat g eq_refl). simpl in *. lia.
Qed.

Section tables.
Context (kallsyms header : list (list Z)) (headers : list (list (list Z))).
Context (Hh : header_ok header) (Hsame : forall line, line ∈ mjoin headers <-> line ∈ header).
#[local] Abbreviation entries := (module_entries kallsyms header).

Lemma module_entries_spec : StronglySorted below entries /\
  forall e, e ∈ entries <-> e ∈ omap define_of header /\ e.2 ∈ kallsyms_symbols kallsyms.
Proof.
  destruct Hh as [H1 _]. destruct (sort_nu_spec _ H1) as [Hs Hm]. split; [by apply sorted_filter|].
  intros e. unfold module_entries. rewrite list_elem_of_filter, Hm. tauto.
Qed.

Lemma user_entries_same : user_entries kallsyms headers = entries.
Proof.
  destruct module_entries_spec as [Hs Hm]. unfold user_entries.
  set (lines := remove_dups (filter (fun line => is_Some (define_of line)) (mjoin headers))).
  assert (forall x, x ∈ lines <-> x ∈ header /\ is_Some (define_of x)) as Hl.
  { intros x. unfold lines. rewrite elem_of_remove_dups, list_elem_of_filter, Hsame. tauto. }
  destruct (sort_lines_spec (omap define_of lines)) as [Hs' Hm'].
  { apply (define_nodup header); [apply Hh|apply NoDup_remove_dups|]. intros x Hx. by apply Hl in Hx as [? _]. }
  apply sorted_same; [by apply sorted_filter|done|]. intros e. rewrite list_elem_of_filter, Hm', Hm, !list_elem_of_omap.
  setoid_rewrite Hl. naive_solver.
Qed.

Lemma module_entries_ok : entries_ok entries.
Proof.
  destruct module_entries_spec as [Hs Hm]. apply sorted_entries; [done|..].
  - intros e (Hd & _)%Hm. apply list_elem_of_omap in Hd as (line & _ & Hd). by eapply define_nonneg.
  - apply (NoDup_fmap_2_strong snd).
    + intros e f He%Hm Hf%Hm Hef. destruct He as [He _], Hf as [Hf _].
      apply list_elem_of_lookup_1 in He as [i Hi], Hf as [j Hj].
      assert (i = j) as ->; [|congruence].
      eapply (NoDup_lookup (omap define_of header).*2); [apply Hh|by rewrite list_lookup_fmap, Hi|by rewrite list_lookup_fmap, Hj, Hef].
    + clear Hm. induction Hs as [|f k _ IH Hf]; constructor; [|done]. intros Hin.
      pose proof (proj1 (Forall_forall _ _) Hf f Hin) as Hlt. simpl in Hlt. lia.
Qed.
End tables.

(** C36: the tables the two Makefiles generate from one kernel: both hold exactly
    the syscalls whose number the header defines and whose wrapper
    [/proc/kallsyms] lists, in the order of the numbers, however many copies of
    the header are found.  A name is translated by the module's table to its
    number, which is below [SUPPORTED_SYSCALLS]; by the one of [src/user] to its
    position, which is the number exactly when every smaller number is in the
    table.  (After the first gap the tool hooks another syscall than the one
    named.) *)
Theorem generated_tables kallsyms header headers : header_ok header -> (forall line, line ∈ mjoin headers <-> line ∈ header) ->
  let entries := module_entries kallsyms header in
  (forall nr name, (nr, name) ∈ entries <-> (nr, name) ∈ omap define_of header /\ name ∈ kallsyms_symbols kallsyms) /\
  forall k nr name, entries !! k = Some (nr, name) ->
    0 <= nr < Z.of_nat (supported entries) /\
    find_syscall_id (module_table kallsyms header) name = nr /\
    find_syscall_id (user_table kallsyms headers) name = Z.of_nat k /\
    (Z.of_nat k = nr <-> forall n, 0 <= n < nr -> exists j e, entries !! j = Some e /\ e.1 = n).
Proof.
  intros Hh Hsame entries. destruct (module_entries_spec kallsyms header Hh) as [Hs Hm].
  pose proof (module_entries_ok kallsyms header Hh) as Hok. split; [intros nr name; apply Hm|]. intros k nr name Hk.
  pose proof (eo_nonneg _ Hok _ _ Hk) as H0. pose proof (sorted_last _ _ _ Hs Hk) as Hl. cbn [fst] in H0, Hl.
  assert (nr < Z.of_nat (supported entries)) as Hlt by (unfold supported, entries; lia).
  split; [done|]. unfold user_table. rewrite (user_entries_same kallsyms header headers Hh Hsame).
  exact (table_translates entries k nr name (supported entries) Hok Hk Hlt).
Qed.

(** A header without [__NR_write], as numbers 0 and 2, and a kernel with three
    of its symbols. *)
Definition demo_header : list (list Z) :=
  str <$> ["#ifndef _ASM_UNISTD_64_H"; "#define __NR_open 2"; "#define __NR_read 0"; "#define __NR_stat 4"; "#endif"].
Definition demo_kallsyms : list (list Z) :=
  str <$> ["ffffffff81000000 T __x64_sys_read"; "ffffffff81000010 T __x64_sys_open"; "ffffffff81000020 T __x64_sys_newstat"].

Lemma generated_tables_witness :
  module_entries demo_kallsyms demo_header = [(0, str "__x64_sys_read"); (2, str "__x64_sys_open")] /\
  find_syscall_id (module_table demo_kallsyms demo_header) (str "__x64_sys_open") = 2 /\
  find_syscall_id (user_table demo_kallsyms [demo_header; demo_header]) (str "__x64_sys_open") = 1.
Proof.
  split; [vm_compute; reflexivity|].
  destruct (generated_tables demo_kallsyms demo_header [demo_header; demo_header]) as [_ H].
  - split; refine (bool_decide_unpack _ _); vm_compute; exact I.
  - intros line. cbn [mjoin list_join]. set_solver.
  - destruct (H 1%nat 2 (str "__x64_sys_open")) as (_ & H1 & H2 & _); [vm_compute; reflexivity|]. split; [exact H1|exact H2].
Defined.
