(* ===== verification/ProcText.v ===== *)
(** * The text of [/proc/SYSTHROT] ([src/sysThrot_statmonitor.c])

    What [my_seq_start] and [my_seq_show] print of the values modelled in
    [Stats.v], byte by byte, and that a reader gets the values back from it.
    The generated table of symbols is a parameter. *)

From stdpp Require Import prelude gmap list strings.
From S2P Require Import Prelude Stats Device UserLib UserSpec.

(** ** Formats *)

Definition spaces (n : nat) : list Z := replicate n 32.

(** [%4s] and [%-22s] *)
Definition padl (w : nat) (s : list Z) : list Z := spaces (w - length s) ++ s.
Definition padr (w : nat) (s : list Z) : list Z := s ++ spaces (w - length s).

(** [%lu]: at most twenty digits *)
Definition print_ulong (n : Z) : list Z := digits 20 n [].

(** [%02lu] of a number below 100 *)
Definition print_02 (n : Z) : list Z := [48 + n / 10; 48 + n mod 10].

Definition EPOCH_DURATION_MS : Z := 1000.

(** Into a buffer of [size] bytes. *)
Definition format_ms (ns : Z) (size : nat) : list Z :=
  let m := ns / 10000 in
  take (size - 1) (print_ulong (m / 100) ++ [46] ++ print_02 (m mod 100)).

(** ** Lines, without their newline *)

Definition header_lines (m : monitor) : list (list Z) :=
  [str "=== Syscall Throttling Statistics ===";
   str "  epochs elapsed: " ++ print_ulong (epoch_count m) ++ str "   window: " ++ print_int HISTORY_LEN ++
     str " epochs   epoch duration: " ++ print_int EPOCH_DURATION_MS ++ str " ms";
   spaces 2 ++ padl 4 (str "NR") ++ 32 :: padr 22 (str "SYSCALL") ++ 32 :: padl 10 (str "TOTAL") ++
     32 :: padl 8 (str "LAST") ++ 32 :: padl 10 (str "AVG/EPOCH") ++ 32 :: padl 9 (str "MEAN(ms)") ++
     32 :: padl 9 (str "PEAK(ms)") ++ 32 :: padl 6 (str "ABORT") ++ 32 :: padl 9 (str "CTX/EPOCH") ++
     32 :: padl 9 (str "CTX PEAK") ++ spaces 2 ++ str "PEAK PROC (PID:UID)";
   spaces 2 ++ replicate 97 45].

Section text.
Context (syscall_symbols : Z -> option (list Z)).

Definition symbol_of (id : Z) : list Z := default (str "?") (syscall_symbols id).

(** [peak_delay_uid] is unsigned, its conversion [%d]. *)
Definition row_line (r : row) : list Z :=
  let mean_ms := format_ms (r_mean_ns r) 16 in
  let peak_ms := format_ms (r_peak_ns r) 16 in
  spaces 2 ++ padl 4 (print_ulong (r_nr r)) ++ 32 :: padr 22 (symbol_of (r_nr r)) ++
    32 :: padl 10 (print_ulong (r_total r)) ++ 32 :: padl 8 (print_ulong (r_last r)) ++
    32 :: padl 10 (print_ulong (r_avg_epoch r)) ++ 32 :: padl 9 mean_ms ++ 32 :: padl 9 peak_ms ++
    32 :: padl 6 (print_ulong (r_abort r)) ++ 32 :: padl 9 (print_ulong (r_avg_ctx r)) ++
    32 :: padl 9 (print_ulong (r_ctx_peak r)) ++ spaces 2 ++ r_comm r ++
    32 :: str "(" ++ print_int (r_pid r) ++ str ":" ++ print_int (s32 (r_uid r)) ++ str ")".

Definition with_newlines (l : list (list Z)) : list Z := concat ((fun s => s ++ [10]) <$> l).

(** One reading of the file, from the start; [fuel] bounds the calls of
    [my_seq_next]. *)
Definition proc_text (fuel : nat) (m : monitor) : option (list Z) :=
  let (header, v) := my_seq_start m 0 in
  rows ← seq_traverse fuel m v 0;
  Some (with_newlines (if header then header_lines m else []) ++ with_newlines (row_line <$> rows)).
End text.

(** ** A reader *)

Fixpoint split_on (c : Z) (s : list Z) : list (list Z) :=
  match s with
  | [] => [[]]
  | x :: s =>
      if x =? c then [] :: split_on c s
      else match split_on c s with [] => [[x]] | f :: fs => (x :: f) :: fs end
  end.

Definition words (s : list Z) : list (list Z) := filter (fun w => w <> []) (split_on 32 s).

(** A decimal with two places, in hundredths. *)
Definition read_ms (s : list Z) : option Z :=
  match split_on 46 s with [w; f] => Some (read_digits 0 w * 100 + read_digits 0 f) | _ => None end.

Fixpoint drop_while (p : Z -> bool) (s : list Z) : list Z :=
  match s with c :: t => if p c then drop_while p t else s | [] => [] end.

(** What follows the first [n] words. *)
Fixpoint after_words (n : nat) (s : list Z) : list Z :=
  match n with
  | O => s
  | S n => after_words n (drop_while (fun c => negb (c =? 32)) (drop_while (fun c => c =? 32) s))
  end.

(** Around the last occurrence of [c]. *)
Fixpoint split_last (c : Z) (s : list Z) : option (list Z * list Z) :=
  match s with
  | [] => None
  | x :: s =>
      match split_last c s with
      | Some (a, b) => Some (x :: a, b)
      | None => if x =? c then Some ([], s) else None
      end
  end.

(** The last column: a command, which may contain spaces, and the pair
    [(pid:uid)]. *)
Definition read_proc (s : list Z) : option (list Z * Z * Z) :=
  '(comm, ids) ← split_last 32 s;
  match split_on 58 ids with
  | [40 :: pid; uid] => Some (comm, atoi pid, atoi (take (length uid - 1) uid))
  | _ => None
  end.

(** The symbol, the numbers in the order of the columns and the command of a
    line; delays in units of 0.01 ms. *)
Definition read_row (line : list Z) : option (list Z * list Z * list Z) :=
  match words line with
  | nr :: sym :: total :: last :: avg :: mean :: peak :: ab :: ctx :: cpeak :: _ =>
      mean ← read_ms mean; peak ← read_ms peak;
      '(comm, pid, uid) ← read_proc (drop 2 (after_words 10 line));
      Some (sym, [read_digits 0 nr; read_digits 0 total; read_digits 0 last; read_digits 0 avg; mean; peak;
                  read_digits 0 ab; read_digits 0 ctx; read_digits 0 cpeak; pid; uid], comm)
  | _ => None
  end.

(** ** Lemmas *)

Lemma split_on_nonempty c s : split_on c s <> [].
Proof. destruct s as [|x s]; simpl; [done|]. destruct (x =? c); [done|]. by destruct (split_on c s). Qed.

Lemma split_on_app c a b : split_on c (a ++ c :: b) = split_on c a ++ split_on c b.
Proof.
  induction a as [|x a IH]; simpl; [by rewrite Z.eqb_refl|]. destruct (x =? c); [by rewrite IH|]. rewrite IH.
  pose proof (split_on_nonempty c a). by destruct (split_on c a).
Qed.

Lemma split_on_none c s : c ∉ s -> split_on c s = [s].
Proof.
  induction s as [|x s IH]; simpl; [done|]. intros [Hx Hs]%not_elem_of_cons. rewrite (proj2 (Z.eqb_neq x c)) by done.
  by rewrite IH.
Qed.

Lemma words_app a b : words (a ++ 32 :: b) = words a ++ words b.
Proof. unfold words. by rewrite split_on_app, filter_app. Qed.

Lemma words_space s : words (32 :: s) = words s.
Proof. exact (words_app [] s). Qed.

Lemma words_spaces n : words (spaces n) = [].
Proof. induction n as [|n IH]; [done|]. cbn [spaces replicate app]. by rewrite words_space. Qed.

Lemma words_left n s : words (spaces n ++ s) = words s.
Proof. induction n as [|n IH]; [done|]. cbn [spaces replicate app]. by rewrite words_space. Qed.

Lemma words_right n s : words (s ++ spaces n) = words s.
Proof.
  destruct n as [|n]; [by rewrite app_nil_r|]. change (spaces (S n)) with (32 :: spaces n).
  by rewrite words_app, words_spaces, app_nil_r.
Qed.

Lemma words_padl w s : words (padl w s) = words s.
Proof. apply words_left. Qed.

Lemma words_padr w s : words (padr w s) = words s.
Proof. apply words_right. Qed.

Lemma words_word s : s <> [] -> 32 ∉ s -> words s = [s].
Proof. intros Hs H. unfold words. rewrite split_on_none by done. by rewrite filter_cons, decide_True. Qed.

(** *** The last column *)

Lemma after_left n k s : after_words (S n) (spaces k ++ s) = after_words (S n) s.
Proof. induction k as [|k IH]; [done|]. cbn [spaces replicate app]. exact IH. Qed.

Lemma drop_word w s : 32 ∉ w -> drop_while (fun c => negb (c =? 32)) (w ++ 32 :: s) = 32 :: s.
Proof.
  induction w as [|c w IH]; [done|]. intros [Hc Hw]%not_elem_of_cons. simpl. rewrite (proj2 (Z.eqb_neq c 32)) by done. by apply IH.
Qed.

Lemma after_word n w s : w <> [] -> 32 ∉ w -> after_words (S n) (w ++ 32 :: s) = after_words n (32 :: s).
Proof.
  intros Hw Hs. destruct w as [|c w]; [done|]. cbn [after_words]. f_equal. pose proof Hs as [Hc _]%not_elem_of_cons.
  cbn [app drop_while]. rewrite (proj2 (Z.eqb_neq c 32)) by done. exact (drop_word (c :: w) s Hs).
Qed.

Lemma after_padl n k w s : w <> [] -> 32 ∉ w -> after_words (S n) (32 :: padl k w ++ 32 :: s) = after_words n (32 :: s).
Proof.
  intros Hw Hs. unfold padl. rewrite <-app_assoc. change (32 :: spaces (k - length w) ++ ?x) with (spaces (S (k - length w)) ++ x).
  rewrite after_left. by apply after_word.
Qed.

Lemma after_padr n k w s : w <> [] -> 32 ∉ w -> after_words (S (S n)) (32 :: padr k w ++ 32 :: s) = after_words (S n) (32 :: s).
Proof.
  intros Hw Hs. unfold padr. rewrite <-app_assoc. change (32 :: ?x) with (spaces 1 ++ x) at 1. rewrite after_left.
  destruct (k - length w)%nat as [|m]; cbn [spaces replicate app]; rewrite after_word by done; [done|].
  exact (after_left n (S m) (32 :: s)).
Qed.

Lemma split_last_none c s : c ∉ s -> split_last c s = None.
Proof.
  induction s as [|x s IH]; [done|]. intros [Hx Hs]%not_elem_of_cons. simpl. by rewrite IH, (proj2 (Z.eqb_neq x c)) by done.
Qed.

Lemma split_last_app c a b : c ∉ b -> split_last c (a ++ c :: b) = Some (a, b).
Proof. intros Hb. induction a as [|x a IH]; simpl; [by rewrite split_last_none, Z.eqb_refl|by rewrite IH]. Qed.

(** *** Numbers *)

Definition is_num (s : list Z) : Prop := s <> [] /\ Forall (fun c => 48 <= c <= 57) s.

Lemma digits_num fuel : forall n tail, 0 <= n -> Forall (fun c => 48 <= c <= 57) tail ->
  Forall (fun c => 48 <= c <= 57) (digits fuel n tail).
Proof.
  induction fuel as [|fuel IH]; intros n tail Hn Ht; simpl; [done|]. destruct (n <? 10) eqn:E; zbool; [constructor; [lia|done]|].
  pose proof (Z.mod_pos_bound n 10 ltac:(lia)). apply IH; [apply Z.div_pos; lia|]. constructor; [lia|done].
Qed.

Lemma digits_short fuel : forall k n tail, (0 < k)%nat -> 0 <= n < 10 ^ Z.of_nat k ->
  (length (digits fuel n tail) <= k + length tail)%nat.
Proof.
  induction fuel as [|fuel IH]; intros k n tail Hk Hn; simpl; [lia|]. destruct (n <? 10) eqn:E; zbool; [simpl; lia|].
  destruct k as [|k]; [lia|]. rewrite Nat2Z.inj_succ, Z.pow_succ_r in Hn by lia.
  assert (0 < k)%nat by (destruct k; [simpl in Hn; lia|lia]).
  specialize (IH k (n / 10) ((48 + n mod 10) :: tail) ltac:(lia)). simpl in IH. etransitivity; [apply IH|lia].
  split; [apply Z.div_pos; lia|]. apply Z.div_lt_upper_bound; lia.
Qed.

Lemma print_ulong_num n : 0 <= n < 2 ^ 64 -> is_num (print_ulong n).
Proof.
  intros Hn. split; [|apply digits_num; [lia|constructor]].
  by destruct (digits_head 20 n [] ltac:(lia) ltac:(simpl; lia)) as (c & t & E & _); unfold print_ulong; rewrite E.
Qed.

Lemma read_print_ulong n : 0 <= n < 2 ^ 64 -> read_digits 0 (print_ulong n) = n.
Proof. intros Hn. destruct (read_digits_print 20 n 0 [] ltac:(lia) ltac:(simpl; lia)) as (m & _ & E). unfold print_ulong. by rewrite E. Qed.

Lemma num_without c s : is_num s -> ~ 48 <= c <= 57 -> c ∉ s.
Proof. intros [_ Hs] Hc Hin. by apply Hc, (proj1 (Forall_forall _ _) Hs). Qed.

Lemma words_ulong n : 0 <= n < 2 ^ 64 -> words (print_ulong n) = [print_ulong n].
Proof.
  intros Hn. pose proof (print_ulong_num n Hn) as H. apply words_word; [by destruct H|].
  apply num_without; [done|lia].
Qed.

Lemma print_int_without c z : ~ 48 <= c <= 57 -> c <> 45 -> c ∉ print_int z.
Proof.
  intros Hc Hm Hin. assert (forall n, 0 <= n -> c ∉ digits 10 n []) as Hd.
  { intros n Hn H. by apply Hc, (proj1 (Forall_forall _ _) (digits_num 10 n [] Hn (Forall_nil_2 _))). }
  unfold print_int in Hin. destruct (z <? 0) eqn:E; zbool; [apply elem_of_cons in Hin as [->|Hin]; [done|]|];
    eapply Hd; [|exact Hin| |exact Hin]; lia.
Qed.

Lemma read_proc_text comm pid uid : - 2 ^ 31 <= pid < 2 ^ 31 -> - 2 ^ 31 <= uid < 2 ^ 31 ->
  read_proc (comm ++ 32 :: str "(" ++ print_int pid ++ str ":" ++ print_int uid ++ str ")") = Some (comm, pid, uid).
Proof.
  intros Hp Hu. change (str "(") with [40]. change (str ":") with [58]. change (str ")") with [41]. cbn [app].
  unfold read_proc. rewrite split_last_app.
  - cbn [mbind option_bind]. rewrite app_comm_cons, split_on_app, !split_on_none.
    + cbn [app]. rewrite length_app. cbn [length]. rewrite Nat.add_sub, take_app_length. by rewrite !atoi_print_int.
    + rewrite not_elem_of_app. split; [by apply print_int_without; lia|by apply not_elem_of_cons; split; [|apply not_elem_of_nil]].
    + rewrite not_elem_of_cons. split; [done|]. by apply print_int_without; lia.
  - rewrite not_elem_of_cons, not_elem_of_app, not_elem_of_cons, not_elem_of_app. split_and!; try done; try (by apply print_int_without; lia).
    by apply not_elem_of_cons; split; [|apply not_elem_of_nil].
Qed.

(** Delays below 10^18 ns (31 years) fit the buffer. *)
Lemma format_ms_whole ns : 0 <= ns < 10 ^ 18 ->
  format_ms ns 16 = print_ulong (ns / 10000 / 100) ++ [46] ++ print_02 (ns / 10000 mod 100).
Proof.
  intros Hn. unfold format_ms. rewrite take_ge; [done|]. rewrite !length_app. simpl.
  assert (0 <= ns / 10000 / 100 < 10 ^ Z.of_nat 12) as H by (change (Z.of_nat 12) with 12; Z.div_mod_to_equations; lia).
  apply (digits_short 20 12 _ []) in H; [|lia]. unfold print_ulong. cbn [length] in H. lia.
Qed.

Lemma print_02_num n : 0 <= n < 100 -> is_num (print_02 n).
Proof. intros Hn. split; [done|]. unfold print_02. repeat constructor; Z.div_mod_to_equations; lia. Qed.

Lemma read_format_ms ns : 0 <= ns < 10 ^ 18 -> read_ms (format_ms ns 16) = Some (ns / 10000).
Proof.
  intros Hn. rewrite format_ms_whole by done. set (m := ns / 10000).
  assert (0 <= m < 10 ^ 14) as Hm by (unfold m; Z.div_mod_to_equations; lia). clearbody m.
  assert (0 <= m / 100 < 2 ^ 64) as Hw by (Z.div_mod_to_equations; lia).
  pose proof (Z.mod_pos_bound m 100 ltac:(lia)) as Hr. pose proof (print_02_num _ Hr) as H2.
  unfold read_ms. change ([46] ++ print_02 (m mod 100)) with (46 :: print_02 (m mod 100)).
  rewrite split_on_app, !split_on_none by (apply num_without; [by apply print_ulong_num || done|lia]). cbn [app]. cbn iota.
  rewrite read_print_ulong by done. f_equal. unfold print_02. cbn [read_digits]. unfold is_digit.
  destruct H2 as [_ H2]. unfold print_02 in H2. rewrite !Forall_cons in H2. destruct H2 as (Ha & Hb & _).
  rewrite !(proj2 (Z.leb_le _ _)) by lia. simpl. Z.div_mod_to_equations. lia.
Qed.

Lemma format_ms_space ns : 0 <= ns < 10 ^ 18 -> 32 ∉ format_ms ns 16.
Proof.
  intros Hn. rewrite format_ms_whole by done.
  assert (0 <= ns / 10000 / 100 < 2 ^ 64) as Hw by (Z.div_mod_to_equations; lia).
  pose proof (Z.mod_pos_bound (ns / 10000) 100 ltac:(lia)) as Hr. rewrite !not_elem_of_app, list_elem_of_singleton.
  split_and!; [apply num_without; [by apply print_ulong_num|lia]|done|apply num_without; [by apply print_02_num|lia]].
Qed.

Lemma words_ms ns : 0 <= ns < 10 ^ 18 -> words (format_ms ns 16) = [format_ms ns 16].
Proof.
  intros Hn. apply words_word; [|by apply format_ms_space]. rewrite format_ms_whole by done. by destruct (print_ulong _).
Qed.

(** ** What a reader gets *)

Section readable.
Context (syscall_symbols : Z -> option (list Z)).

(** The values of a line are of their C types, the delays fit their buffers, and
    names contain neither space nor newline (a command name no newline). *)
Record row_ok (r : row) : Prop := {
  ro_nr : 0 <= r_nr r < 2 ^ 32;
  ro_counts : Forall (fun n => 0 <= n < 2 ^ 64) [r_total r; r_last r; r_avg_epoch r; r_abort r; r_avg_ctx r; r_ctx_peak r];
  ro_delays : Forall (fun n => 0 <= n < 10 ^ 18) [r_mean_ns r; r_peak_ns r];
  ro_pid : - 2 ^ 31 <= r_pid r < 2 ^ 31;
  ro_symbol s : syscall_symbols (r_nr r) = Some s -> s <> [] /\ 32 ∉ s /\ 10 ∉ s;
  ro_comm : 10 ∉ r_comm r;
}.

Lemma symbol_word r : row_ok r -> symbol_of syscall_symbols (r_nr r) <> [] /\ 32 ∉ symbol_of syscall_symbols (r_nr r) /\
  10 ∉ symbol_of syscall_symbols (r_nr r).
Proof.
  intros H. unfold symbol_of. destruct (syscall_symbols (r_nr r)) as [s|] eqn:E; [by apply (ro_symbol r H)|].
  simpl. split_and!; [done|by apply not_elem_of_cons; split; [|apply not_elem_of_nil]..].
Qed.

(** The numbers a line shows; the uid as an [int]. *)
Definition row_values (r : row) : list Z :=
  [r_nr r; r_total r; r_last r; r_avg_epoch r; r_mean_ns r / 10000; r_peak_ns r / 10000; r_abort r; r_avg_ctx r; r_ctx_peak r;
   r_pid r; s32 (r_uid r)].

Lemma row_last_column r : row_ok r -> exists tail,
  drop 2 (after_words 10 (row_line syscall_symbols r)) = tail /\ read_proc tail = Some (r_comm r, r_pid r, s32 (r_uid r)).
Proof.
  intros H. destruct (symbol_word r H) as (Hs1 & Hs2 & _). destruct H as [Hn Hc Hd Hp _ _].
  repeat (apply Forall_cons in Hc as [? Hc]). repeat (apply Forall_cons in Hd as [? Hd]).
  assert (forall n, 0 <= n < 2 ^ 64 -> print_ulong n <> [] /\ 32 ∉ print_ulong n) as Hu.
  { intros n Hn'. pose proof (print_ulong_num n Hn') as Hnum. split; [by destruct Hnum|]. apply num_without; [done|lia]. }
  assert (forall n, 0 <= n < 10 ^ 18 -> format_ms n 16 <> [] /\ 32 ∉ format_ms n 16) as Hf.
  { intros n Hn'. pose proof (words_ms n Hn') as Hw. split; [by intros E; rewrite E in Hw|by apply format_ms_space]. }
  eexists. split; [|apply read_proc_text; [done|apply s32_range]].
  unfold row_line. change (spaces 2) with [32; 32]. cbn zeta. cbn [app].
  change (32 :: 32 :: ?x) with (spaces 1 ++ 32 :: x) at 1. rewrite after_left.
  do 9 (first [rewrite after_padl by (first [apply Hu|apply Hf]; done || lia)|rewrite after_padr by done]).
  rewrite after_padl by (apply Hu; done || lia). done.
Qed.

Lemma read_row_line r : row_ok r ->
  read_row (row_line syscall_symbols r) = Some (symbol_of syscall_symbols (r_nr r), row_values r, r_comm r).
Proof.
  intros H. destruct (row_last_column r H) as (tail & Et & Ht). unfold read_row. rewrite Et, Ht. clear Et Ht tail.
  destruct (symbol_word r H) as (Hs1 & Hs2 & _). destruct H as [Hn Hc Hd _ _ _].
  repeat (apply Forall_cons in Hc as [? Hc]). repeat (apply Forall_cons in Hd as [? Hd]).
  unfold row_line. rewrite words_left. change (spaces 2) with [32; 32]. cbn [app].
  repeat (rewrite words_app; rewrite ?words_space, ?words_padl, ?words_padr).
  rewrite (words_word _ Hs1 Hs2), !words_ms, !words_ulong by (done || lia). cbn [app].
  rewrite !read_format_ms by done. cbn [mbind option_bind]. rewrite !read_print_ulong by (done || lia). done.
Qed.

(** *** Lines *)

Lemma split_lines l rest : Forall (fun s => 10 ∉ s) l -> split_on 10 (with_newlines l ++ rest) = l ++ split_on 10 rest.
Proof.
  unfold with_newlines. induction 1 as [|s l Hs Hl IH]; [done|]. cbn [fmap list_fmap concat]. rewrite <-!app_assoc. cbn [app].
  by rewrite split_on_app, split_on_none, IH by done.
Qed.

Lemma header_no_newline m : 0 <= epoch_count m < 2 ^ 64 -> Forall (fun s => 10 ∉ s) (header_lines m).
Proof.
  intros Hm. assert (10 ∉ print_ulong (epoch_count m)) as Hp by (apply num_without; [by apply print_ulong_num|lia]).
  unfold header_lines. repeat apply Forall_cons_2; [| | | |apply Forall_nil_2].
  1, 3, 4: refine (bool_decide_unpack _ _); vm_compute; exact I.
  rewrite !not_elem_of_app. split_and!; try done; refine (bool_decide_unpack _ _); vm_compute; exact I.
Qed.

Lemma format_ms_line ns : 0 <= ns < 10 ^ 18 -> 10 ∉ format_ms ns 16.
Proof.
  intros Hn. rewrite format_ms_whole by done.
  assert (0 <= ns / 10000 / 100 < 2 ^ 64) as Hw by (Z.div_mod_to_equations; lia).
  pose proof (Z.mod_pos_bound (ns / 10000) 100 ltac:(lia)) as Hr. rewrite !not_elem_of_app, list_elem_of_singleton.
  split_and!; [apply num_without; [by apply print_ulong_num|lia]|done|apply num_without; [by apply print_02_num|lia]].
Qed.

Lemma ulong_line n : 0 <= n < 2 ^ 64 -> 10 ∉ print_ulong n.
Proof. intros Hn. apply num_without; [by apply print_ulong_num|lia]. Qed.

Lemma spaces_line n : 10 ∉ spaces n.
Proof. unfold spaces. intros H. by apply elem_of_replicate in H as [? _]. Qed.

Lemma row_no_newline r : row_ok r -> 10 ∉ row_line syscall_symbols r.
Proof.
  intros H. destruct (symbol_word r H) as (_ & _ & Hs). destruct H as [Hn Hc Hd _ _ Hcm].
  repeat (apply Forall_cons in Hc as [? Hc]). repeat (apply Forall_cons in Hd as [? Hd]).
  unfold row_line, padl, padr. repeat (rewrite not_elem_of_app || rewrite not_elem_of_cons).
  repeat split; try done; try apply spaces_line; try (apply ulong_line; done || lia); try (by apply format_ms_line);
    try (apply print_int_without; lia); refine (bool_decide_unpack _ _); vm_compute; exact I.
Qed.

(** C39: round trip through the text of [/proc/SYSTHROT]: a read returns (one
    call of [my_seq_next] per entry and one more are enough) four header lines
    and one line per entry, in the order of the list, and reading a line
    column by column gives back the symbol, every number of the entry (the
    process id and the user id of the longest wait included) and the command of
    that wait, delays rounded down to 0.01 ms and the user id as an [int] (an id
    from [2 ^ 31] up is shown negative). *)
Theorem proc_text_reads_back m : 0 <= epoch_count m < 2 ^ 64 ->
  Forall row_ok (show_entry (epoch_count m) <$> syscall_list m) ->
  exists text lines, proc_text syscall_symbols (S (length (syscall_list m))) m = Some text /\
    split_on 10 text = header_lines m ++ lines ++ [[]] /\ length (header_lines m) = 4%nat /\
    read_row <$> lines =
      (fun e => Some (symbol_of syscall_symbols (syscall_id e), row_values (show_entry (epoch_count m) e),
                      peak_delay_comm (stat e))) <$> syscall_list m.
Proof.
  intros He Hr. set (rows := show_entry (epoch_count m) <$> syscall_list m) in *.
  exists (with_newlines (header_lines m) ++ with_newlines (row_line syscall_symbols <$> rows)), (row_line syscall_symbols <$> rows).
  split_and!; [| |done|].
  - unfold proc_text, my_seq_start. cbn zeta. pose proof (seq_traverse_from m 0 (S (length (syscall_list m))) ltac:(lia) ltac:(lia)) as Ht.
    change (Z.of_nat 0) with 0 in Ht. rewrite Ht. done.
  - rewrite split_lines by (by apply header_no_newline). f_equal.
    rewrite <-(app_nil_r (with_newlines _)), split_lines; [done|]. apply Forall_fmap. eapply Forall_impl; [exact Hr|].
    intros r. apply row_no_newline.
  - unfold rows in *. rewrite <-!list_fmap_compose. apply list_fmap_ext. intros i e Hi. unfold compose.
    rewrite read_row_line.
    + unfold show_entry. by destruct (window_loop _ _ _).
    + apply (proj1 (Forall_fmap _ _ _)) in Hr. exact (Forall_lookup_1 _ _ _ _ Hr Hi).
Qed.
End readable.

(** ** Witness: the demonstration log *)

Definition demo_sym (id : Z) : option (list Z) := if id =? 1 then Some (str "__x64_sys_write") else None.
Definition demo_row : row := Row 1 1 0 0 2000000 2000000 1 0 1 [115; 104] 100 1000.

Example demo_line : row_line demo_sym demo_row =
  str "     1 __x64_sys_write                 1        0          0      2.00      2.00      1         0         1  sh (100:1000)".
Proof. vm_compute. reflexivity. Qed.

(** The user id [4294967294] is shown as [-2]. *)
Example demo_line_uid : read_row (row_line demo_sym (Row 1 1 0 0 2000000 2000000 1 0 1 [97; 32; 98] 100 4294967294)) =
  Some (str "__x64_sys_write", [1; 1; 0; 0; 200; 200; 1; 0; 1; 100; -2], [97; 32; 98]).
Proof. vm_compute. reflexivity. Qed.

Lemma demo_row_ok : row_ok demo_sym demo_row.
Proof.
  split; [simpl; lia|repeat constructor; simpl; lia|repeat constructor; simpl; lia|simpl; lia| |].
  - intros s [= <-]. split; [discriminate|]. split; refine (bool_decide_unpack _ _); vm_compute; exact I.
  - refine (bool_decide_unpack _ _); vm_compute; exact I.
Qed.

Lemma proc_text_reads_back_witness : exists text lines,
  proc_text demo_sym 2 (run_events 462 demo_events) = Some text /\
  split_on 10 text = header_lines (run_events 462 demo_events) ++ lines ++ [[]] /\
  read_row <$> lines = [Some (str "__x64_sys_write", [1; 1; 0; 0; 200; 200; 1; 0; 1; 100; 1000], [115; 104])].
Proof.
  destruct (proc_text_reads_back demo_sym (run_events 462 demo_events)) as (text & lines & E & Hs & _ & Hr).
  - vm_compute. split; [discriminate|reflexivity].
  - exact (Forall_cons_2 _ _ _ demo_row_ok (Forall_nil_2 _)).
  - exists text, lines. split; [exact E|]. split; [exact Hs|]. rewrite Hr. vm_compute. reflexivity.
Defined.
