(* ===== verification/Client.v ===== *)
(** * The load generator ([src/user/client.c])

    Options and lists, setting throttling up and tearing it down, the loop
    that starts the worker threads, what a worker counts, and the totals.  What
    the environment decides is an argument: which allocations and thread
    creations fail, the readings of the clock, the results of the workers'
    system calls and whether they ever return, whether [main]'s own [getuid] and
    [getpid] (both among the default syscalls to hook) return, what is read from
    [/proc/SYSTHROT].  [main] waits for its workers: a call that never returns
    makes it wait for ever, which is an ending of its own.  The other system
    calls of [main] ([open], [ioctl], [nanosleep], [write]) are taken to return.
    Of what is printed the results and the dump of the statistics are modelled. *)

From stdpp Require Import prelude gmap list strings.
From S2P Require Import Prelude Store Device Log UserLib.

Definition DEFAULT_THREADS : Z := 16.
Definition DEFAULT_DURATION : Z := 5.
Definition DEFAULT_KILL_AFTER : Z := 0.
Definition MAX_SYSCALLS : nat := 16.
Definition MAX_PROGRAMS : nat := 8.

Definition default_syscalls : list (list Z) :=
  str <$> ["__x64_sys_getpid"; "__x64_sys_getuid"; "__x64_sys_getppid";
           "__x64_sys_getgid"; "__x64_sys_geteuid"; "__x64_sys_gettid"].
Definition default_programs : list (list Z) := str <$> ["st_load_gen1"; "st_load_gen2"; "st_load_gen3"].

(** ** [split_list] *)

(** [strchr(p, ',')] as an index. *)
Fixpoint find_comma (p : list Z) : option nat :=
  match p with
  | [] => None
  | c :: p => if c =? 44 then Some 0%nat else S <$> find_comma p
  end.

(** [alloc]: the outcomes of [strndup] and [strdup] (an empty list: success).
    [room] is [max - n]; a copy that failed is [None], a NULL pointer. *)
Fixpoint split_loop (room : nat) (p : list Z) (alloc : list bool) (out : list (option (list Z)))
    : Z * list (option (list Z)) :=
  match p, room with
  | [], _ | _, O => (Z.of_nat (length out), out)
  | _, S room =>
      match find_comma p with
      | Some i =>
          if negb (default true (head alloc)) then (-1, out)
          else split_loop room (drop (S i) p) (tail alloc) (out ++ [Some (take i p)])
      | None =>
          let buf := if default true (head alloc) then Some p else None in
          (Z.of_nat (S (length out)), out ++ [buf])
      end
  end.

(** The list (NULL when the option was not given) into at most [max] names. *)
Definition split_list (l : option (list Z)) (max : nat) (alloc : list bool) : Z * list (option (list Z)) :=
  match l with
  | None | Some [] => (0, [])
  | Some p => split_loop max p alloc []
  end.

(** ** Options *)

Record options := Options {
  o_threads : Z; o_duration : Z; o_kill_after : Z;
  o_setup : bool; o_teardown : bool;
  o_syscalls : option (list Z); o_programs : option (list Z);
}.

Definition options0 : options :=
  Options DEFAULT_THREADS DEFAULT_DURATION DEFAULT_KILL_AFTER false false None None.

(** The loop over [argv]; [None]: the usage is printed and the program fails. *)
Fixpoint parse (args : list (list Z)) (o : options) : option options :=
  match args with
  | [] => Some o
  | a :: rest =>
      let flag :=
        if bool_decide (a = str "--setup") then
          parse rest (Options (o_threads o) (o_duration o) (o_kill_after o) true (o_teardown o) (o_syscalls o) (o_programs o))
        else if bool_decide (a = str "--teardown") then
          parse rest (Options (o_threads o) (o_duration o) (o_kill_after o) (o_setup o) true (o_syscalls o) (o_programs o))
        else None in
      match rest with
      | [] => flag
      | v :: rest' =>
          if bool_decide (a = str "-t") then
            parse rest' (Options (atoi v) (o_duration o) (o_kill_after o) (o_setup o) (o_teardown o) (o_syscalls o) (o_programs o))
          else if bool_decide (a = str "-d") then
            parse rest' (Options (o_threads o) (atoi v) (o_kill_after o) (o_setup o) (o_teardown o) (o_syscalls o) (o_programs o))
          else if bool_decide (a = str "-k") then
            parse rest' (Options (o_threads o) (o_duration o) (atoi v) (o_setup o) (o_teardown o) (o_syscalls o) (o_programs o))
          else if bool_decide (a = str "-s") then
            parse rest' (Options (o_threads o) (o_duration o) (o_kill_after o) (o_setup o) (o_teardown o) (Some v) (o_programs o))
          else if bool_decide (a = str "-p") then
            parse rest' (Options (o_threads o) (o_duration o) (o_kill_after o) (o_setup o) (o_teardown o) (o_syscalls o) (Some v))
          else flag
      end
  end.

(** [argv] after the program's name. *)
Definition parse_options (args : list (list Z)) : option options :=
  match args with
  | [] => None
  | _ =>
      o ← parse args options0;
      if (o_threads o <=? 0) || (o_duration o <=? 0) || (o_kill_after o <? 0) then None else Some o
  end.

(** What the run works with. *)
Record config := Config {
  c_threads : Z; c_duration : Z; c_kill_after : Z;
  c_setup : bool; c_teardown : bool;
  c_syscalls : list (list Z); c_programs : list (list Z); c_nr : list Z;
}.

(** The names to use: those given, or the defaults; [None] when the list could
    not be copied. *)
Definition names_of (l : option (list Z)) (max : nat) (alloc : list bool) (defaults : list (list Z))
    : option (list (option (list Z))) :=
  let (n, out) := split_list l max alloc in
  if n <? 0 then None else if n =? 0 then Some (Some <$> defaults) else Some out.

Section client.
Context (table : list (option (list Z))).

(** The numbers of the syscalls; [None]: one is not found.  [Some None] is
    [strcmp] of a NULL name. *)
Fixpoint nr_of (syscalls : list (option (list Z))) : option (option (list Z)) :=
  match syscalls with
  | [] => Some (Some [])
  | None :: _ => Some None
  | Some s :: l =>
      let n := find_syscall_id table s in
      if n <? 0 then None else ns ← nr_of l; Some (option_map (cons n) ns)
  end.

(** [main] up to the setup; [None]: it has failed, [Some None]: undefined
    behaviour (a name that could not be copied is used). *)
Definition configure (args : list (list Z)) (alloc_s alloc_p : list bool) : option (option config) :=
  o ← parse_options args;
  ss ← names_of (o_syscalls o) MAX_SYSCALLS alloc_s default_syscalls;
  ps ← names_of (o_programs o) MAX_PROGRAMS alloc_p default_programs;
  nr ← nr_of ss;
  Some (nr ← nr; ss ← mapM id ss; ps ← mapM id ps;
        Some (Config (o_threads o) (o_duration o) (o_kill_after o) (o_setup o) (o_teardown o) ss ps nr)).

(** ** [setup_throttle] and [teardown_throttle] *)

Context {W : Type} `{SysCalls W} (arg_addr : Z) (getuid : Z).

Definition get_errno : U W Z := fun s => Some (errno s, s).

Definition is_already_done (e : Z) : bool := (e =? EEXIST) || (e =? EALREADY) || (e =? EINVAL).

(** [if (m != 0 && !tolerated(errno)) return -1; ... k] *)
Definition must (m : U W Z) (tolerated : Z -> bool) (k : U W Z) : U W Z :=
  r ← m;
  e ← get_errno;
  if negb (r =? 0) && negb (tolerated e) then mret (-1) else k.

Fixpoint must_all (f : list Z -> U W Z) (tolerated : Z -> bool) (l : list (list Z)) (k : U W Z) : U W Z :=
  match l with
  | [] => k
  | x :: l => must (f x) tolerated (must_all f tolerated l k)
  end.

Definition setup_throttle (progs syscalls : list (list Z)) : U W Z :=
  must (register_user arg_addr getuid) (fun e => e =? EEXIST)
    (must_all (register_program arg_addr) (fun e => e =? EEXIST) progs
      (must_all (register_syscall table arg_addr) (fun e => e =? EEXIST) syscalls
        (must turn_on_monitor (fun e => e =? EALREADY) (mret 0)))).

Definition teardown_throttle (progs syscalls : list (list Z)) : U W Z :=
  must turn_off_monitor (fun e => e =? EALREADY)
    (must_all (deregister_syscall table arg_addr) (fun e => e =? EEXIST) syscalls
      (must_all (deregister_program arg_addr) is_already_done progs
        (must (deregister_user arg_addr getuid) is_already_done (mret 0)))).
End client.

(** ** The workers *)

Record worker_arg := Worker { syscall_nr : Z; comm : list Z; ok : Z; eagain : Z }.

(** [threads * duration] as an [int]; [None] when it overflows. *)
Definition nslots (c : config) : option nat :=
  if c_threads c * c_duration c <? 2 ^ 31 then Some (Z.to_nat (c_threads c * c_duration c)) else None.

Definition slot_of (c : config) (i : nat) : worker_arg :=
  Worker (nth (i mod length (c_nr c)) (c_nr c) 0) (nth (i mod length (c_programs c)) (c_programs c) []) 0 0.

Definition init_args (c : config) (n : nat) : list worker_arg := slot_of c <$> seq 0 n.

(** [raw] is what the system call leaves in [rax]; [syscall()] turns an error
    into -1, and the result is cut to an [int]. *)
Definition worker_job (raw : Z) (a : worker_arg) : worker_arg :=
  let r := s32 (if (- 4095 <=? raw) && (raw <? 0) then -1 else raw) in
  if r =? - EAGAIN then Worker (syscall_nr a) (comm a) (ok a) (eagain a + 1)
  else Worker (syscall_nr a) (comm a) (ok a + 1) (eagain a).

(** The workers' updates in the order in which they happen. *)
Definition run_workers (raw : nat -> Z) (order : list nat) (args : list worker_arg) : list worker_arg :=
  foldl (fun args i => alter (worker_job (raw i)) i args) args order.

(** ** The loop of [main] *)

(** [now_ms] of a [timespec]. *)
Definition now_ms (ts : Z * Z) : Z := ts.1 * 1000 + ts.2 / 1000000.

Record loop := Loop { next_spawn : Z; spawned : nat; killed : bool }.

Inductive turn := Break | Again (s : loop) | CreateFailed (at_ : nat).

Section loop.
Context (c : config) (slots : nat) (create_ok : nat -> bool).

(** [for (j = 0; j < threads && spawned < nslots; j++, spawned++)] *)
Fixpoint spawn (j : nat) (s : nat) : nat + nat :=
  match j with
  | O => inl s
  | S j => if (s <? slots)%nat then (if create_ok s then spawn j (S s) else inr s) else inl s
  end.

Definition iteration (start now : Z) (s : loop) : turn :=
  let end_ := start + c_duration c * 1000 in
  let kill_at := if 0 <? c_kill_after c then start + c_kill_after c * 1000 else -1 in
  if (end_ <=? now) && ((c_kill_after c <=? 0) || killed s) then Break
  else
    let r :=
      if (now <? end_) && (next_spawn s <=? now) then
        match spawn (Z.to_nat (c_threads c)) (spawned s) with
        | inl n => inl (Loop (next_spawn s + 1000) n (killed s))
        | inr n => inr n
        end
      else inl s in
    match r with
    | inr n => CreateFailed n
    | inl s =>
        Again (if negb (killed s) && (0 <? kill_at) && (kill_at <=? now)
               then Loop (next_spawn s) (spawned s) true else s)
    end.

(** [clock n]: the [n]-th reading inside the loop. *)
Fixpoint run_loop (fuel : nat) (start : Z) (clock : nat -> Z) (n : nat) (s : loop) : option (loop + nat) :=
  match fuel with
  | O => None
  | S fuel =>
      match iteration start (clock n) s with
      | Break => Some (inl s)
      | Again s => run_loop fuel start clock (S n) s
      | CreateFailed k => Some (inr k)
      end
  end.
End loop.

(** ** The results *)

Definition total_ok (args : list worker_arg) : Z := foldl (fun t a => t + ok a) 0 args.
Definition total_eagain (args : list worker_arg) : Z := foldl (fun t a => t + eagain a) 0 args.

(** The line of a syscall: its own workers. *)
Definition row_ok (nr : Z) (args : list worker_arg) : Z :=
  foldl (fun t a => if syscall_nr a =? nr then t + ok a else t) 0 args.
Definition row_eagain (nr : Z) (args : list worker_arg) : Z :=
  foldl (fun t a => if syscall_nr a =? nr then t + eagain a else t) 0 args.

Record report := Report { rp_ok : Z; rp_eagain : Z; rp_rows : list (Z * Z); rp_monitor : list Z }.

(** What is printed after [n] threads were spawned and joined; [dump]: by
    [read_monitor]. *)
Definition results (c : config) (n : nat) (args : list worker_arg) (dump : list Z) : report :=
  let args := take n args in
  Report (total_ok args) (total_eagain args) ((fun nr => (row_ok nr args, row_eagain nr args)) <$> c_nr c) dump.

(** ** [read_monitor] *)

(** [opened]: [open] succeeds; [got]: the bytes [read] stores, [None] when it
    fails; [buf]: the buffer, uninitialised, whose [sizeof(buf) - 1] bytes are
    asked for.  The result and what is printed; [None]: [buf\[n\]] is outside. *)
Definition read_monitor (opened : bool) (got : option (list Z)) (buf : list Z) : option (Z * list Z) :=
  if negb opened then Some (-1, [])
  else
    match got with
    | None => Some (-1, [])
    | Some bytes =>
        let n := length bytes in
        if (n <? length buf)%nat then Some (0, until_nul (<[n := 0]> (bytes ++ drop n buf)) ++ [10]) else None
    end.

(** ** [main] *)

(** What the environment decides of a run. *)
Record environment := Environment {
  e_alloc_s : list bool; e_alloc_p : list bool;   (* copies in the two calls of [split_list] *)
  e_calloc : bool;                                (* both [calloc] succeed *)
  e_create : nat -> bool;                         (* [pthread_create] of a slot succeeds *)
  e_start : Z; e_clock : nat -> Z;                (* [now_ms] before and in the loop *)
  e_getuid : bool; e_getpid : bool;               (* [main]'s own calls return *)
  e_raw : nat -> option Z;                        (* the system call of a slot's worker; [None]: it never returns *)
  e_order : nat -> list nat;                      (* the order in which the first so many workers count *)
  e_open : bool; e_read : option (list Z);        (* [open] and [read] of [read_monitor] *)
  e_buf : list Z;                                 (* its uninitialised buffer *)
}.

(** How [main] ends: with an exit status and the results, if they are printed, or
    not at all, in a call that does not return. *)
Inductive ending := Exit (status : Z) (rp : option report) | Hangs.

(** [for (i = 0; i < k; i++) pthread_join(tids\[i\], NULL);] the results of the
    workers' calls, or [None] when one of the joins does not return. *)
Definition join_all (env : environment) (k : nat) : option (list Z) := mapM (e_raw env) (seq 0 k).

Section main.
Context (table : list (option (list Z))).
Context {W : Type} `{SysCalls W} (arg_addr getuid : Z).

(** [None] is undefined behaviour, or a run longer than [fuel] turns of the
    loop. *)
Definition client_main (fuel : nat) (env : environment) (args : list (list Z)) : U W ending :=
  match configure table args (e_alloc_s env) (e_alloc_p env) with
  | None => mret (Exit EXIT_FAILURE None)
  | Some None => fun _ => None
  | Some (Some c) =>
      if c_setup c && negb (e_getuid env) then mret Hangs
      else
        r ← if c_setup c then setup_throttle table arg_addr getuid (c_programs c) (c_syscalls c) else mret 0;
        if negb (r =? 0) then mret (Exit EXIT_FAILURE None)
        else
          match nslots c with
          | None => fun _ => None
          | Some n =>
              if negb (e_calloc env) then mret (Exit EXIT_FAILURE None)
              else if negb (e_getpid env) then mret Hangs
              else
                match run_loop c n (e_create env) fuel (e_start env) (e_clock env) 0 (Loop (e_start env) 0 false) with
                | None => fun _ => None
                | Some (inr k) =>
                    match join_all env k with
                    | None => mret Hangs
                    | Some _ => mret (Exit EXIT_FAILURE None)
                    end
                | Some (inl s) =>
                    match join_all env (spawned s) with
                    | None => mret Hangs
                    | Some raws =>
                        let args := run_workers (fun i => nth i raws 0) (e_order env (spawned s)) (init_args c n) in
                        match read_monitor (e_open env) (e_read env) (e_buf env) with
                        | None => fun _ => None
                        | Some (_, dump) =>
                            let rp := results c (spawned s) args dump in
                            r ← if c_teardown c then teardown_throttle table arg_addr getuid (c_programs c) (c_syscalls c) else mret 0;
                            mret (Exit (if negb (r =? 0) then EXIT_FAILURE else EXIT_SUCCESS) (Some rp))
                        end
                    end
                end
          end
  end.
End main.
