(* ===== verification/ClientSpec.v ===== *)
(** * Properties of the load generator ([Client.v]) *)

From stdpp Require Import prelude gmap list strings.
From S2P Require Import Prelude Kernel Store StoreProofs StoreSpec Queue Stats Core Hook HookSpec Ioctl Device.
From S2P Require Import Unload UnloadProofs Log UserLib UserSpec Client.

(** ** Comma-separated lists *)

(** The reference: the fields between commas, the last one possibly empty. *)
Fixpoint fields (s : list Z) : list (list Z) :=
  match s with
  | [] => [[]]
  | c :: s =>
      if c =? 44 then [] :: fields s
      else match fields s with f :: fs => (c :: f) :: fs | [] => [[c]] end
  end.

(** An empty last field is dropped. *)
Definition trim (l : list (list Z)) : list (list Z) :=
  match last l with Some [] => take (length l - 1) l | _ => l end.

Definition join_with_commas (l : list (list Z)) : list Z :=
  match l with [] => [] | x :: l => x ++ concat ((fun y => 44 :: y) <$> l) end.

Lemma fields_comma s i : find_comma s = Some i -> fields s = take i s :: fields (drop (S i) s).
Proof.
  revert i. induction s as [|c s IH]; intros i; [done|]. simpl. destruct (c =? 44); [by intros [= <-]|].
  destruct (find_comma s) as [j|]; [|done]. intros [= <-]. by rewrite (IH j eq_refl).
Qed.

Lemma fields_none s : find_comma s = None -> fields s = [s].
Proof.
  induction s as [|c s IH]; [done|]. simpl. destruct (c =? 44); [done|].
  destruct (find_comma s); [done|]. intros _. by rewrite IH.
Qed.

Lemma find_comma_length s i : find_comma s = Some i -> (i < length s)%nat.
Proof.
  revert i. induction s as [|c s IH]; intros i; [done|]. simpl. destruct (c =? 44); [intros [= <-]; lia|].
  destruct (find_comma s) as [j|]; [|done]. intros [= <-]. pose proof (IH j eq_refl). lia.
Qed.

Lemma fields_nonempty s : exists f fs, fields s = f :: fs.
Proof. destruct s as [|c s]; [by eexists _, _|]. simpl. destruct (c =? 44); [by eexists _, _|]. by destruct (fields s); eexists _, _. Qed.

Lemma trim_cons x l : l <> [] -> trim (x :: l) = x :: trim l.
Proof.
  intros Hl. unfold trim. destruct l as [|y l]; [done|]. rewrite last_cons_cons.
  destruct (last (y :: l)) as [[|c f]|]; [|done|done]. cbn [length]. rewrite !Nat.sub_succ, !Nat.sub_0_r. done.
Qed.

Lemma trim_single x : trim [x] = match x with [] => [] | _ => [x] end.
Proof. by destruct x. Qed.

Lemma split_loop_fields room : forall p out, split_loop room p [] out =
  (Z.of_nat (length (out ++ (Some <$> take room (trim (fields p))))), out ++ (Some <$> take room (trim (fields p)))).
Proof.
  induction room as [|room IH]; intros p out.
  { destruct p; simpl; by rewrite app_nil_r. }
  destruct p as [|c p]; [simpl; by rewrite app_nil_r|].
  cbn [split_loop]. destruct (find_comma (c :: p)) as [i|] eqn:E.
  - cbn [head default negb tail]. simpl (negb _). cbn iota. rewrite (IH _ _), (fields_comma _ _ E).
    destruct (fields_nonempty (drop (S i) (c :: p))) as (f & fs & Hf).
    rewrite trim_cons by (by rewrite Hf). cbn [take fmap list_fmap]. by rewrite <-!app_assoc.
  - rewrite (fields_none _ E), trim_single. simpl (default true _). cbn iota. cbn [take fmap list_fmap].
    rewrite take_nil. f_equal. rewrite length_app. cbn [length fmap list_fmap]. lia.
Qed.

Lemma fields_join l : l <> [] -> Forall (fun x => 44 ∉ x) l -> fields (join_with_commas l) = l.
Proof.
  destruct l as [|x l]; [done|]. intros _ [Hx Hl]%Forall_cons. simpl. revert x Hx.
  induction l as [|y l IH]; intros x Hx.
  - rewrite app_nil_r. apply fields_none. induction x as [|c x IHx]; [done|]. simpl.
    apply not_elem_of_cons in Hx as [Hc Hx]. rewrite (proj2 (Z.eqb_neq c 44)) by congruence. by rewrite IHx.
  - apply Forall_cons in Hl as [Hy Hl]. simpl. induction x as [|c x IHx]; simpl; [f_equal; by apply IH|].
    apply not_elem_of_cons in Hx as [Hc Hx]. rewrite (proj2 (Z.eqb_neq c 44)) by congruence. by rewrite IHx.
Qed.

(** C38: [split_list] computes the fields between the commas, the first [max] of
    them, without a last field that is empty. *)
Theorem split_list_fields s max :
  split_list (Some s) max [] =
    (Z.of_nat (length (take max (trim (fields s)))), Some <$> take max (trim (fields s))).
Proof.
  unfold split_list. destruct s as [|c s]; [by destruct max|]. rewrite split_loop_fields. simpl.
  by rewrite length_fmap.
Qed.

(** Round trip: joining up to [max] names without commas, the last one not
    empty, and splitting the text again gives the names. *)
Theorem split_join l max : Forall (fun x => 44 ∉ x) l -> last l <> Some [] -> (length l <= max)%nat ->
  split_list (Some (join_with_commas l)) max [] = (Z.of_nat (length l), Some <$> l).
Proof.
  intros Hl Hlast Hm. destruct l as [|x l]; [done|].
  assert (split_list (Some (join_with_commas (x :: l))) max [] = split_loop max (join_with_commas (x :: l)) [] []) as ->.
  { unfold split_list. destruct (join_with_commas (x :: l)); [|done]. by destruct max. }
  rewrite split_loop_fields, fields_join by done.
  assert (trim (x :: l) = x :: l) as ->.
  { unfold trim. destruct (last (x :: l)) as [[|c f]|]; done. }
  simpl app. by rewrite take_ge, length_fmap by done.
Qed.

(** ** Configuration *)

Lemma split_loop_bound room : forall p alloc out n r, split_loop room p alloc out = (n, r) ->
  n = -1 \/ (n = Z.of_nat (length r) /\ (length r <= length out + room)%nat).
Proof.
  induction room as [|room IH]; intros p alloc out n r.
  { destruct p; intros [= <- <-]; right; (split; [done|lia]). }
  destruct p as [|c p]; [intros [= <- <-]; right; split; [done|lia]|]. cbn [split_loop].
  destruct (find_comma (c :: p)) as [i|].
  - destruct (negb _); [intros [= <- _]; by left|]. intros [?|[? Hl]]%IH; [by left|right]. split; [done|].
    rewrite length_app in Hl. simpl in Hl. lia.
  - intros [= <- <-]. right. rewrite length_app. simpl. split; [f_equal; lia|lia].
Qed.

Lemma names_of_bound l max alloc d ps : names_of l max alloc d = Some ps -> (0 < length d <= max)%nat ->
  (0 < length ps <= max)%nat.
Proof.
  unfold names_of. intros H Hd. destruct (split_list l max alloc) as [n out] eqn:E.
  destruct (n <? 0) eqn:En; zbool; [done|]. destruct (n =? 0) eqn:E0; zbool.
  - injection H as <-. by rewrite length_fmap.
  - injection H as <-. unfold split_list in E. destruct l as [[|c s]|]; try (injection E as <- <-; done).
    destruct (split_loop_bound _ _ _ _ _ _ E) as [->|[-> Hl]]; [done|]. simpl in Hl. lia.
Qed.

Lemma nr_of_ok table ss nr : nr_of table ss = Some (Some nr) ->
  length nr = length ss /\ Forall (fun n => 0 <= n) nr /\
  forall i s, ss !! i = Some (Some s) -> nr !! i = Some (find_syscall_id table s).
Proof.
  revert nr. induction ss as [|[s|] ss IH]; intros nr; simpl; [by intros [= <-]| |done].
  destruct (find_syscall_id table s <? 0) eqn:E; zbool; [done|].
  destruct (nr_of table ss) as [[ns|]|]; simpl; try done. intros [= <-].
  destruct (IH ns eq_refl) as (H1 & H2 & H3). split_and!; [simpl; lia|by constructor|].
  intros [|i] x Hx; [by injection Hx as ->|]. by apply H3.
Qed.

Lemma mapM_id {A} (l : list (option A)) k : mapM id l = Some k -> l = Some <$> k.
Proof.
  intros Hm. apply mapM_Some in Hm. induction Hm as [|x y l k Hxy _ IH]; [done|]. simpl in *. unfold id in Hxy.
  by rewrite Hxy, IH.
Qed.

(** A configuration [main] can work with. *)
Record config_ok (table : list (option (list Z))) (c : config) : Prop := {
  co_threads : 0 < c_threads c;
  co_duration : 0 < c_duration c;
  co_kill : 0 <= c_kill_after c;
  co_syscalls : (0 < length (c_syscalls c) <= MAX_SYSCALLS)%nat;
  co_programs : (0 < length (c_programs c) <= MAX_PROGRAMS)%nat;
  co_nr : length (c_nr c) = length (c_syscalls c);
  co_known i s : c_syscalls c !! i = Some s -> c_nr c !! i = Some (find_syscall_id table s) /\ 0 <= find_syscall_id table s;
}.

Lemma configure_ok table args alloc_s alloc_p c :
  configure table args alloc_s alloc_p = Some (Some c) -> config_ok table c.
Proof.
  unfold configure, parse_options. destruct args as [|a args]; [done|].
  destruct (parse (a :: args) options0) as [o|]; [|done]. cbn [mbind option_bind].
  destruct (_ || _) eqn:E; [done|]. cbn [mbind option_bind]. rewrite !orb_false_iff in E. destruct E as [[E1 E2] E3]. zbool.
  destruct (names_of (o_syscalls o) MAX_SYSCALLS alloc_s default_syscalls) as [ss|] eqn:Es; [|done]. cbn [mbind option_bind].
  destruct (names_of (o_programs o) MAX_PROGRAMS alloc_p default_programs) as [ps|] eqn:Ep; [|done]. cbn [mbind option_bind].
  destruct (nr_of table ss) as [[nr|]|] eqn:En; cbn [mbind option_bind]; [|done|done].
  destruct (mapM id ss) as [ss'|] eqn:Ms; cbn [mbind option_bind]; [|done].
  destruct (mapM id ps) as [ps'|] eqn:Mp; cbn [mbind option_bind]; [|done]. intros [= <-].
  apply mapM_id in Ms as ->. apply mapM_id in Mp as ->.
  pose proof (names_of_bound _ _ _ _ _ Es ltac:(unfold MAX_SYSCALLS; simpl; lia)) as Hs.
  pose proof (names_of_bound _ _ _ _ _ Ep ltac:(unfold MAX_PROGRAMS; simpl; lia)) as Hp.
  destruct (nr_of_ok _ _ _ En) as (Hl & Hn & Hk). rewrite length_fmap in *.
  split; simpl; try done; try lia.
  intros i s Hi. assert (nr !! i = Some (find_syscall_id table s)) as Hni.
  { apply Hk. by rewrite list_lookup_fmap, Hi. }
  split; [done|]. exact (Forall_lookup_1 _ _ _ _ Hn Hni).
Qed.

(** C37: a configuration that [main] accepts is well formed: the arrays of
    [MAX_SYSCALLS] and [MAX_PROGRAMS] names are not overrun and not empty (so
    that [i % nsys] and [i % nprog] are defined), threads and duration are
    positive, and every syscall was found in the table. *)
Theorem configure_well_formed table args alloc_s alloc_p c :
  configure table args alloc_s alloc_p = Some (Some c) -> config_ok table c.
Proof. apply configure_ok. Qed.

(** ** The loop *)

Section loop.
Context (c : config) (slots : nat) (create_ok : nat -> bool) (start : Z).
Context (Hth : 0 < c_threads c) (Hslots : Z.of_nat slots = c_threads c * c_duration c).

Lemma spawn_ok j : forall s, match spawn slots create_ok j s with
  | inl n => n = Nat.min (s + j) (Nat.max s slots)
  | inr n => (s <= n < slots)%nat /\ create_ok n = false
  end.
Proof.
  induction j as [|j IH]; intros s; simpl; [lia|].
  destruct (Nat.ltb_spec s slots) as [Hs|Hs]; [|lia]. destruct (create_ok s) eqn:Ec; [|split; [lia|done]].
  specialize (IH (S s)). destruct (spawn slots create_ok j (S s)); [lia|]. destruct IH. split; [lia|done].
Qed.

(** After [b] batches. *)
Definition loop_inv (b : Z) (s : loop) : Prop :=
  0 <= b <= c_duration c /\ next_spawn s = start + 1000 * b /\ Z.of_nat (spawned s) = c_threads c * b.

Lemma iteration_ok now s b : loop_inv b s ->
  match iteration c slots create_ok start now s with
  | Break => True
  | Again s' => exists b', b <= b' <= b + 1 /\ loop_inv b' s'
  | CreateFailed n => (n < slots)%nat /\ create_ok n = false
  end.
Proof.
  intros (Hb & Hn & Hs). unfold iteration. destruct (_ && _); [done|].
  assert (forall b' s', loop_inv b' s' -> b <= b' <= b + 1 ->
    exists b'', b <= b'' <= b + 1 /\ loop_inv b'' (if negb (killed s') && (0 <? (if 0 <? c_kill_after c then start + c_kill_after c * 1000 else -1)) &&
      ((if 0 <? c_kill_after c then start + c_kill_after c * 1000 else -1) <=? now)
      then Loop (next_spawn s') (spawned s') true else s')) as Hkill.
  { intros b' s' Hi Hbb. exists b'. split; [done|]. by destruct (_ && _). }
  destruct ((now <? start + c_duration c * 1000) && (next_spawn s <=? now)) eqn:E.
  - zbool. assert (b < c_duration c) as Hlt by lia.
    pose proof (spawn_ok (Z.to_nat (c_threads c)) (spawned s)) as Hsp.
    destruct (spawn _ _ _ _) as [n|n]; [|split; [lia|by destruct Hsp]].
    apply (Hkill (b + 1)); [|lia]. unfold loop_inv. simpl. split_and!; [lia|lia|lia|].
    assert (c_threads c * (b + 1) <= Z.of_nat slots) by (rewrite Hslots; nia). lia.
  - apply (Hkill b); [done|lia].
Qed.

(** When the clock has passed both ends, at most one more turn is taken. *)
Lemma iteration_late now s : start + c_duration c * 1000 <= now -> start + c_kill_after c * 1000 <= now -> 0 <= start ->
  iteration c slots create_ok start now s = Break \/
  iteration c slots create_ok start now s = Again (Loop (next_spawn s) (spawned s) true) /\ 0 < c_kill_after c.
Proof.
  intros H1 H2 H0. unfold iteration. rewrite (proj2 (Z.leb_le _ _) H1).
  destruct (c_kill_after c <=? 0) eqn:Ek; zbool; [by left|].
  destruct (killed s) eqn:Hk; [by left|]. right. simpl. rewrite (proj2 (Z.ltb_ge now _) H1). simpl.
  rewrite (proj2 (Z.ltb_lt 0 (c_kill_after c))) by lia. rewrite Hk. simpl.
  rewrite (proj2 (Z.ltb_lt 0 _)) by lia. rewrite (proj2 (Z.leb_le _ _) H2). done.
Qed.

Lemma run_loop_ok fuel : forall clock n s b, loop_inv b s ->
  match run_loop c slots create_ok fuel start clock n s with
  | None => True
  | Some (inl s') => (exists b', loop_inv b' s') /\ (c_kill_after c <= 0 \/ killed s' = true)
  | Some (inr k) => (k < slots)%nat /\ create_ok k = false
  end.
Proof.
  induction fuel as [|fuel IH]; intros clock n s b Hi; simpl; [done|].
  pose proof (iteration_ok (clock n) s b Hi) as Hit.
  destruct (iteration c slots create_ok start (clock n) s) eqn:E; [|destruct Hit as (b' & _ & Hi'); by eapply IH|done].
  split; [by exists b|]. unfold iteration in E. destruct (_ && _) eqn:Eb.
  - zbool. match goal with H : _ || _ = true |- _ => apply orb_true_iff in H as [H|H] end; [zbool; by left|by right].
  - repeat case_match; simplify_eq.
Qed.

(** The loop has not ended after [k] turns. *)
Lemma run_loop_late fuel : forall clock n s, 0 <= start -> (forall i j, (i <= j)%nat -> clock i <= clock j) ->
  (exists k, (n <= k)%nat /\ (k + 2 <= n + fuel)%nat /\
     start + c_duration c * 1000 <= clock k /\ start + c_kill_after c * 1000 <= clock k) ->
  run_loop c slots create_ok fuel start clock n s <> None.
Proof.
  induction fuel as [|fuel IH]; intros clock n s H0 Hm (k & Hnk & Hf & H1 & H2); [lia|]. simpl.
  destruct (decide (n = k)) as [->|Hne].
  - destruct (iteration_late (clock k) s H1 H2 H0) as [->|[-> Hk]]; [done|].
    destruct fuel as [|fuel]; [lia|]. simpl. pose proof (Hm k (S k) ltac:(lia)).
    destruct (iteration_late (clock (S k)) (Loop (next_spawn s) (spawned s) true) ltac:(lia) ltac:(lia) H0) as [->|[Hc _]]; [done|].
    exfalso. unfold iteration in Hc. simpl in Hc. rewrite (proj2 (Z.leb_le _ _)), orb_true_r in Hc by lia. done.
  - destruct (iteration c slots create_ok start (clock n) s); [done| |done].
    apply IH; [done|done|]. exists k. split_and!; [lia|lia|done|done].
Qed.
End loop.

(** The loop of [main] ends once the (monotonic) clock has passed the
    duration and the time of the signal, at the latest one turn later.  It has
    then started whole batches of [threads] workers, at most [duration] of
    them, so never more than there are slots, and the signal was sent if one
    was asked for; or it stopped at the first thread that could not be
    created, at an index within the slots. *)
Lemma client_loop_ends table c n create_ok clock start k : config_ok table c -> nslots c = Some n ->
  0 <= start -> (forall i j, (i <= j)%nat -> clock i <= clock j) ->
  start + c_duration c * 1000 <= clock k -> start + c_kill_after c * 1000 <= clock k ->
  exists r, run_loop c n create_ok (k + 2) start clock 0 (Loop start 0 false) = Some r /\
    match r with
    | inl s => (spawned s <= n)%nat /\ (c_kill_after c <= 0 \/ killed s = true) /\
        exists b, 0 <= b <= c_duration c /\ Z.of_nat (spawned s) = c_threads c * b
    | inr i => (i < n)%nat /\ create_ok i = false
    end.
Proof.
  intros [Ht Hd Hk _ _ _ _] Hn H0 Hm H1 H2. unfold nslots in Hn.
  destruct (c_threads c * c_duration c <? 2 ^ 31); [|done]. injection Hn as <-.
  assert (Z.of_nat (Z.to_nat (c_threads c * c_duration c)) = c_threads c * c_duration c) as Hs by nia.
  pose proof (run_loop_late c (Z.to_nat (c_threads c * c_duration c)) create_ok start (k + 2) clock 0 (Loop start 0 false) H0 Hm)
    as Hend.
  pose proof (run_loop_ok c _ create_ok start Ht Hs (k + 2) clock 0 (Loop start 0 false) 0) as Hok.
  destruct (run_loop _ _ _ _ _ _ _ _) as [r|]; [|destruct Hend; [|done]; exists k; split_and!; [lia|lia|done|done]].
  exists r. split; [done|]. specialize (Hok ltac:(split_and!; simpl; lia)).
  destruct r as [s|i]; [|done]. destruct Hok as [(b & Hb & _ & Hsp) Hkl]. split_and!; [|done|by exists b].
  assert (c_threads c * b <= c_threads c * c_duration c) by nia. lia.
Qed.

(** ** The results *)

(** The call was refused with EAGAIN, as a worker sees it. *)
Definition refused (raw : Z) : bool :=
  s32 (if (- 4095 <=? raw) && (raw <? 0) then -1 else raw) =? - EAGAIN.

Lemma foldl_sum {A} (f : A -> Z) l : forall t, foldl (fun t a => t + f a) t l = t + sum_z (f <$> l).
Proof.
  induction l as [|x l IH]; intros t; cbn [foldl]; [unfold sum_z; simpl; lia|].
  rewrite IH, fmap_cons, sum_z_cons. lia.
Qed.

Lemma foldl_sum_if {A} (p : A -> bool) (f : A -> Z) l : forall t,
  foldl (fun t a => if p a then t + f a else t) t l = t + sum_z ((fun a => if p a then f a else 0) <$> l).
Proof.
  induction l as [|x l IH]; intros t; cbn [foldl]; [unfold sum_z; simpl; lia|].
  rewrite IH, fmap_cons, sum_z_cons. destruct (p x); lia.
Qed.

Lemma sum_z_zero {A} (l : list A) : sum_z ((fun _ => 0) <$> l) = 0.
Proof. induction l as [|x l IH]; [done|]. by rewrite fmap_cons, sum_z_cons, IH. Qed.

Lemma sum_z_pick (n v : Z) (nrs : list Z) : NoDup nrs ->
  sum_z ((fun nr => if n =? nr then v else 0) <$> nrs) = if decide (n ∈ nrs) then v else 0.
Proof.
  induction 1 as [|x nrs Hx _ IH]; [by rewrite decide_False by apply not_elem_of_nil|].
  rewrite fmap_cons, sum_z_cons, IH. destruct (n =? x) eqn:E; zbool.
  - subst. rewrite decide_False by done. rewrite decide_True by left. lia.
  - destruct (decide (n ∈ nrs)); [rewrite decide_True by by right|rewrite decide_False by (apply not_elem_of_cons; done)]; lia.
Qed.

(** The lines of the syscalls add up to the total. *)
Lemma sum_rows (f : worker_arg -> Z) nrs args : NoDup nrs -> Forall (fun a => syscall_nr a ∈ nrs) args ->
  sum_z ((fun nr => sum_z ((fun a => if syscall_nr a =? nr then f a else 0) <$> args)) <$> nrs) = sum_z (f <$> args).
Proof.
  intros Hnd. induction 1 as [|a args Ha _ IH]; [apply sum_z_zero|].
  rewrite fmap_cons, sum_z_cons, <-IH. pose proof (sum_z_pick (syscall_nr a) (f a) nrs Hnd) as Hp.
  rewrite decide_True in Hp by done. rewrite <-Hp, <-sum_z_add. done.
Qed.

Lemma lookup_run_workers raw order : forall args i, NoDup order ->
  run_workers raw order args !! i = if decide (i ∈ order) then worker_job (raw i) <$> args !! i else args !! i.
Proof.
  induction order as [|j order IH]; intros args i Hnd; [by rewrite decide_False by apply not_elem_of_nil|].
  apply NoDup_cons in Hnd as [Hj Hnd]. simpl. rewrite IH by done. destruct (decide (i = j)) as [->|Hne].
  - rewrite decide_False by done. rewrite decide_True by left. apply list_lookup_alter_eq.
  - rewrite list_lookup_alter_ne by done. destruct (decide (i ∈ order)).
    + by rewrite decide_True by by right.
    + by rewrite decide_False by (apply not_elem_of_cons; done).
Qed.

(** What the workers leave, in whatever order they ran. *)
Lemma workers_done raw c n k order : order ≡ₚ seq 0 k -> (k <= n)%nat ->
  take k (run_workers raw order (init_args c n)) = (fun i => worker_job (raw i) (slot_of c i)) <$> seq 0 k.
Proof.
  intros Hp Hk. apply list_eq. intros i. rewrite list_lookup_fmap.
  assert (NoDup order) as Hnd by (rewrite Hp; apply NoDup_seq).
  destruct (decide (i < k)%nat) as [Hi|Hi].
  - rewrite lookup_take_lt, lookup_seq_lt, lookup_run_workers by done.
    rewrite decide_True by (rewrite Hp; apply elem_of_seq; lia).
    unfold init_args. by rewrite list_lookup_fmap, lookup_seq_lt by lia.
  - rewrite lookup_take_ge, lookup_seq_ge by lia. done.
Qed.

Lemma count_refused raw c k :
  sum_z ((fun i => ok (worker_job (raw i) (slot_of c i))) <$> seq 0 k) =
    Z.of_nat (length (filter (fun i => refused (raw i) = false) (seq 0 k))) /\
  sum_z ((fun i => eagain (worker_job (raw i) (slot_of c i))) <$> seq 0 k) =
    Z.of_nat (length (filter (fun i => refused (raw i) = true) (seq 0 k))).
Proof.
  generalize (seq 0 k) as l. induction l as [|i l [IH1 IH2]]; [done|]. rewrite !fmap_cons, !sum_z_cons, IH1, IH2, !filter_cons.
  unfold worker_job. fold (refused (raw i)). destruct (refused (raw i)) eqn:E; simpl; rewrite ?decide_True, ?decide_False by done;
    cbn [length]; lia.
Qed.

(** The report is exact whatever the order in which the workers finish: OK
    and EAGAIN add up to the number of threads spawned, EAGAIN is the number
    of calls that were refused, and the lines of the syscalls add up to the
    totals when no syscall is listed twice. *)
Lemma report_exact table c n k raw order dump : config_ok table c -> nslots c = Some n -> (k <= n)%nat ->
  order ≡ₚ seq 0 k ->
  let rp := results c k (run_workers raw order (init_args c n)) dump in
  rp_ok rp + rp_eagain rp = Z.of_nat k /\
  rp_eagain rp = Z.of_nat (length (filter (fun i => refused (raw i) = true) (seq 0 k))) /\
  (NoDup (c_nr c) -> sum_z (rp_rows rp).*1 = rp_ok rp /\ sum_z (rp_rows rp).*2 = rp_eagain rp).
Proof.
  intros [_ _ _ Hs _ Hl _] Hn Hk Hp. cbn zeta. unfold results. cbn [rp_ok rp_eagain rp_rows].
  rewrite (workers_done raw c n k order Hp Hk). unfold total_ok, total_eagain. rewrite !foldl_sum, <-!list_fmap_compose.
  destruct (count_refused raw c k) as [H1 H2]. unfold compose. rewrite H1, H2. split_and!; [|lia|].
  - rewrite Z.add_0_l, Z.add_0_l, <-Nat2Z.inj_add. f_equal.
    rewrite <-(length_seq k 0) at 3. generalize (seq 0 k) as l. induction l as [|i l IH]; [done|]. rewrite !filter_cons.
    destruct (refused (raw i)); rewrite ?decide_True, ?decide_False by done; simpl; lia.
  - intros Hnd.
    assert (Forall (fun a => syscall_nr a ∈ c_nr c) ((fun i => worker_job (raw i) (slot_of c i)) <$> seq 0 k)) as Hin.
    { apply Forall_fmap, Forall_forall. intros i _. unfold worker_job, slot_of. simpl.
      assert (nth (i mod length (c_nr c)) (c_nr c) 0 ∈ c_nr c); [|by destruct (_ =? _)].
      apply list_elem_of_In, nth_In. apply Nat.mod_upper_bound. lia. }
    unfold row_ok, row_eagain. split.
    + pose proof (sum_rows ok (c_nr c) _ Hnd Hin) as Hr. rewrite <-(list_fmap_compose _ ok) in Hr. unfold compose in Hr.
      rewrite H1 in Hr. rewrite Z.add_0_l, <-Hr. f_equal. apply list_fmap_ext.
      intros j nr _. unfold compose. simpl. by rewrite foldl_sum_if.
    + pose proof (sum_rows eagain (c_nr c) _ Hnd Hin) as Hr. rewrite <-(list_fmap_compose _ eagain) in Hr. unfold compose in Hr.
      rewrite H2 in Hr. rewrite Z.add_0_l, <-Hr. f_equal. apply list_fmap_ext.
      intros j nr _. unfold compose. simpl. by rewrite foldl_sum_if.
Qed.

(** A worker takes a call for refused exactly when the low half of the
    result is that of -EAGAIN and the C library does not take the result for
    an error: so it recognises the value [stub_trampoline] delivers for
    -EAGAIN (4294967285), and would count a correct -EAGAIN as OK. *)
Theorem worker_recognises raw : - 2 ^ 63 <= raw < 2 ^ 63 ->
  (refused raw = true <-> raw mod 2 ^ 32 = 4294967285 /\ ~ - 4095 <= raw < 0) /\
  refused (u32 (- EAGAIN)) = true /\ refused (- EAGAIN) = false.
Proof.
  intros Hr. split; [|done]. unfold refused, EAGAIN. destruct ((-4095 <=? raw) && (raw <? 0)) eqn:E.
  - zbool. split; [done|]. intros [_ Hn]. destruct Hn. lia.
  - apply andb_false_iff in E. rewrite Z.leb_gt, Z.ltb_ge in E. split.
    + intros Hs. zbool. split; [|lia]. unfold s32 in Hs. Z.div_mod_to_equations. lia.
    + intros [Hm _]. apply Z.eqb_eq. unfold s32. Z.div_mod_to_equations. lia.
Qed.

(** ** Setting up and tearing down *)

Lemma must_ok {W} (m k : U W Z) tolerated p p2 : must m tolerated k p = Some (0, p2) ->
  exists r p1, m p = Some (r, p1) /\ (r = 0 \/ tolerated (errno p1) = true) /\ k p1 = Some (0, p2).
Proof.
  unfold must, mbind, U_bind, get_errno. destruct (m p) as [[r p1]|]; [|done].
  destruct (r =? 0) eqn:E; zbool; simpl.
  - intros Hk. exists r, p1. auto.
  - destruct (tolerated (errno p1)) eqn:Et; simpl; [|done]. intros Hk. exists r, p1. auto.
Qed.

Section setup.
Context (SUP NR tramp : Z) (symbols : Z -> option (list Z)) (kprobe : option (list Z) -> kprobe_result).
Context (kp0 : kprobe_result) (ksym : patch_symbol -> Z) (complete : state -> Z * state).
Context (table : list (option (list Z))) (addr uid : Z) (F : gmap loc obj).
Context (Hpf : platform SUP NR tramp symbols kprobe).
(** Errors of the kernel are at least -4095, and registering a kprobe does not
    fail with EEXIST. *)
Context (Herr : forall id e, kprobe (symbols id) = KpErr e -> - 4095 <= e /\ e <> - EEXIST).
Context (Hlen : Z.of_nat (length table) <= 2 ^ 31) (Huid : - 2 ^ 31 <= uid < 2 ^ 31).
(** A started call that has ended is no longer under way. *)
Context (Hcomplete : forall s, exists r, ctl (complete s).2 = CIdle r).

#[local] Hint Extern 0 (SysCalls world) =>
  exact (world_calls SUP tramp symbols kprobe kp0 ksym complete) : typeclass_instances.

(** A free device, root, no call under way, the registered sets [A] and [P], and the hooks [hb]. *)
Record standing (A : gset user) (P : gset program) (hb : Z -> bool) (p : proc world) : Prop := {
  sd_free : free (machine_of p);
  sd_root : w_uid (machine_of p) = 0;
  sd_idle : exists r, ctl (d_core (w_drv (machine_of p))) = CIdle r;
  sd_rep : store_rep F (d_mem (w_drv (machine_of p))) (d_store (w_drv (machine_of p))) A P;
  sd_hook : hook_inv SUP NR tramp symbols kprobe (d_hook (w_drv (machine_of p)));
  sd_hooked id : 0 <= id -> hooked (syscall_presence_bitmap (d_hook (w_drv (machine_of p)))) id = hb id;
}.

Lemma standing_drv A P hb e e' w σ' A' P' c : standing A P hb (Proc e w) ->
  store_rep F σ' (d_store (w_drv w)) A' P' ->
  standing A' P' hb (Proc e' (with_drv (Driver σ' (d_store (w_drv w)) (d_hook (w_drv w)) (set_reg c (d_core (w_drv w)))) w)).
Proof. intros [] Hr. by split. Qed.

Lemma standing_ext A A' P P' hb hb' p : standing A P hb p -> A = A' -> P = P' -> (forall id, 0 <= id -> hb id = hb' id) ->
  standing A' P' hb' p.
Proof. intros [] <- <- Hb. split; try done. intros id Hid. by rewrite sd_hooked0, Hb. Qed.

(** The result of a function of the library, when it returned 0 or its [errno]
    was tolerated. *)
Lemma api_tolerated r e (tol : Z -> bool) : api_ret r = 0 \/ tol (api_errno r e) = true ->
  0 <= r \/ (r < 0 /\ tol (- r) = true).
Proof. unfold api_ret, api_errno. destruct (r <? 0) eqn:E; zbool; intros [?|?]; auto; done. Qed.

Lemma setup_user A P hb p r p1 : standing A P hb p -> register_user addr uid p = Some (r, p1) ->
  r = 0 \/ (errno p1 =? EEXIST) = true -> standing ({[uid]} ∪ A) P hb p1.
Proof.
  intros Hs E Ht. destruct p as [e w]. pose proof Hs as [Hf Hr _ Hst _ _]. simpl in *.
  destruct (register_user_refines SUP tramp symbols kprobe kp0 ksym complete addr F uid e w A P Huid Hf Hr Hst)
    as (rk & σ' & A' & E' & Ho & _ & Hst'). rewrite E' in E. injection E as <- <-. simpl in Ht.
  apply (api_tolerated _ _ (fun e => e =? EEXIST)) in Ht. cbn beta in Ht.
  assert (A' = {[uid]} ∪ A) as <-; [|by apply (standing_drv A P hb e)].
  unfold add_outcome in Ho. unfold ENOMEM, EEXIST, ENOSPC in *. rewrite Z.eqb_eq in Ht.
  destruct Ho as [[-> ->]|[(-> & _ & ->)|(-> & [[-> Hin]|[[->|[-> _]] _]])]]; try (exfalso; lia); [done|]. set_solver.
Qed.

Lemma teardown_user A P hb p r p1 : standing A P hb p -> deregister_user addr uid p = Some (r, p1) ->
  r = 0 \/ is_already_done (errno p1) = true -> standing (A ∖ {[uid]}) P hb p1.
Proof.
  intros Hs E Ht. destruct p as [e w]. pose proof Hs as [Hf Hr _ Hst _ _]. simpl in *.
  destruct (deregister_user_refines SUP tramp symbols kprobe kp0 ksym complete addr F uid e w A P Huid Hf Hr Hst)
    as (rk & σ' & A' & E' & Ho & _ & Hst'). rewrite E' in E. injection E as <- <-. simpl in Ht.
  apply (api_tolerated _ _ is_already_done) in Ht.
  assert (A' = A ∖ {[uid]}) as <-; [|by apply (standing_drv A P hb e)].
  unfold remove_outcome in Ho. unfold is_already_done, ENOMEM, EEXIST, EALREADY, EINVAL in *.
  destruct Ho as [[-> ->]|[(-> & _ & ->)|(-> & [[-> Hin]|[-> _]])]]; try (destruct Ht as [?|[_ ?]]; done). set_solver.
Qed.

(** The names that are registered: the kernel ignores an empty one. *)
Definition named (progs : list (list Z)) : gset program := list_to_set (filter (fun n => n <> []) progs).

Lemma named_cons n progs : named (n :: progs) = (if decide (n = []) then ∅ else {[n]}) ∪ named progs.
Proof.
  unfold named. rewrite filter_cons. destruct (decide (n = [])) as [Hn|Hn].
  - rewrite decide_False by (intros ?; done). by rewrite union_empty_l_L.
  - rewrite decide_True by done. done.
Qed.

Definition short (n : list Z) : Prop := n = [] \/ (length n < Store.TASK_COMM_LEN)%nat.

Lemma setup_program n A P hb p r p1 : c_string n -> standing A P hb p -> register_program addr n p = Some (r, p1) ->
  r = 0 \/ (errno p1 =? EEXIST) = true -> short n /\ standing A (named [n] ∪ P) hb p1.
Proof.
  intros Hn Hs E Ht. destruct p as [e w]. pose proof Hs as [Hf Hr _ Hst _ _]. simpl in *.
  destruct (register_program_refines SUP tramp symbols kprobe kp0 ksym complete addr F n e w A P Hn Hf Hr Hst)
    as (rk & σ' & P' & E' & Ho & _ & Hst'). rewrite E' in E. injection E as <- <-. simpl in Ht.
  apply (api_tolerated _ _ (fun e => e =? EEXIST)) in Ht. cbn beta in Ht.
  assert (short n /\ P' = named [n] ∪ P) as [Hsh <-]; [|split; [done|by apply (standing_drv A P hb e)]].
  rewrite named_cons. unfold add_outcome in Ho. unfold short, ENOMEM, EEXIST, ENOSPC, EINVAL in *. rewrite Z.eqb_eq in Ht.
  destruct Ho as [[-> ->]|Ho]; [lia|]. destruct (decide (n = [])) as [->|Hne]; [destruct Ho as [_ ->]; split; [by left|set_solver]|].
  destruct (decide (length n < Store.TASK_COMM_LEN)%nat); [|destruct Ho as [-> _]; lia]. split; [by right|].
  destruct Ho as [(-> & _ & ->)|(-> & [[-> Hin]|[[->|[-> _]] _]])]; try (exfalso; lia); set_solver.
Qed.

Lemma teardown_program n A P hb p r p1 : c_string n -> short n -> standing A P hb p ->
  deregister_program addr n p = Some (r, p1) ->
  r = 0 \/ is_already_done (errno p1) = true -> standing A (P ∖ named [n]) hb p1.
Proof.
  intros Hn Hsh Hs E Ht. destruct p as [e w]. pose proof Hs as [Hf Hr _ Hst _ _]. simpl in *.
  destruct (deregister_program_refines SUP tramp symbols kprobe kp0 ksym complete addr F n e w A P Hn Hf Hr Hst)
    as (rk & σ' & P' & E' & Ho & _ & Hst'). rewrite E' in E. injection E as <- <-. simpl in Ht.
  apply (api_tolerated _ _ is_already_done) in Ht.
  assert (P' = P ∖ named [n]) as <-; [|by apply (standing_drv A P hb e)].
  rewrite named_cons. unfold remove_outcome in Ho. unfold is_already_done, ENOMEM, EEXIST, EALREADY, EINVAL in *.
  destruct Ho as [[-> ->]|Ho]; [destruct Ht as [?|[_ ?]]; done|].
  destruct (decide (n = [])) as [->|Hne]; [destruct Ho as [_ ->]; set_solver|].
  rewrite decide_True in Ho by (by destruct Hsh).
  destruct Ho as [(-> & _ & ->)|(-> & [[-> Hin]|[-> _]])]; try (destruct Ht as [?|[_ ?]]; done); set_solver.
Qed.

(** Hooks added and removed; an id of -1 (an unknown name) is none. *)
Definition hooks_with (ids : list Z) (hb : Z -> bool) (x : Z) : bool := bool_decide (x ∈ ids) || hb x.
Definition hooks_without (ids : list Z) (hb : Z -> bool) (x : Z) : bool := negb (bool_decide (x ∈ ids)) && hb x.

#[local] Abbreviation id_of := (find_syscall_id table).

Lemma standing_hook A P hb hb' e e' w σ' h' c : standing A P hb (Proc e w) ->
  store_rep F σ' (d_store (w_drv w)) A P -> hook_inv SUP NR tramp symbols kprobe h' ->
  (forall id, 0 <= id -> hooked (syscall_presence_bitmap h') id = hb' id) ->
  standing A P hb' (Proc e' (with_drv (Driver σ' (d_store (w_drv w)) h' (set_reg c (d_core (w_drv w)))) w)).
Proof. intros [] Hr Hh Hb. by split. Qed.

Lemma hooks_with_skip x id hb : 0 <= x -> id = -1 \/ (id = x -> hb x = true) -> hooks_with [id] hb x = hb x.
Proof.
  intros Hx Hid. unfold hooks_with. case_bool_decide as Hin; [|done]. apply list_elem_of_singleton in Hin as ->.
  destruct Hid as [->|Hid]; [lia|]. by rewrite Hid.
Qed.

Lemma hooks_without_skip x id hb : 0 <= x -> id = -1 \/ (id = x -> hb x = false) -> hooks_without [id] hb x = hb x.
Proof.
  intros Hx Hid. unfold hooks_without. case_bool_decide as Hin; [|done]. apply list_elem_of_singleton in Hin as ->.
  destruct Hid as [->|Hid]; [lia|]. by rewrite Hid.
Qed.

Lemma install_eexist id h h' : hook_inv SUP NR tramp symbols kprobe h -> 0 <= id < SUP ->
  installProbe SUP tramp symbols kprobe kp0 ksym id h = Some (- EEXIST, h') -> hooked (syscall_presence_bitmap h) id = true.
Proof.
  intros Hh Hid. unfold installProbe.
  destruct (probe_tests SUP NR tramp symbols kprobe Hpf id h Hh) as [[? _]|(_ & -> & x & -> & Hx)]; [done|].
  simpl. rewrite Hx, negb_involutive. destruct (hooked _ id); [done|]. simpl.
  unfold resolve. destruct (_ !! _) as [c|]; [|done]. simpl.
  assert (forall a bs h0 o, (let (result, h1) := apply_smp_patch kp0 ksym a bs h0 in
    if result <? 0 then Some (result, h1) else bm ← o h1; Some (1, set_bitmap bm h1)) = Some (- EEXIST, h') -> false = true) as Hp.
  { intros a bs h0 o. unfold apply_smp_patch. destruct (negb (_ =? 0)); simpl; [|done]. by destruct (o _). }
  destruct (negb (c =? 0)); simpl; [apply (Hp _ _ _ (fun h1 => set_bit (syscall_presence_bitmap h1) id))|].
  destruct (kprobe (symbols id)) as [er|a] eqn:Ek; simpl.
  - intros [= -> _]. by destruct (Herr id (- EEXIST) Ek).
  - apply (Hp _ _ _ (fun h1 => set_bit (syscall_presence_bitmap h1) id)).
Qed.

Lemma setup_syscall n A P hb p r p1 : standing A P hb p -> register_syscall table addr n p = Some (r, p1) ->
  r = 0 \/ (errno p1 =? EEXIST) = true -> standing A P (hooks_with [id_of n] hb) p1.
Proof.
  intros Hs E Ht. destruct p as [e w]. pose proof Hs as [Hf Hr _ Hst Hh Hb]. simpl in *.
  destruct (syscall_call_ok SUP tramp symbols kprobe kp0 ksym complete table addr F sysThrot_IOC_REGISTER_SYSCALL
    (installProbe SUP tramp symbols kprobe kp0 ksym) n e w A P) as [[Hid E']|(rk & σ' & h' & Hid & E' & Hst' & Ho)]; try done.
  { intros id. destruct (installProbe_total SUP NR tramp symbols kprobe kp0 ksym Hpf id _ Hh) as (x & h' & Ei & _).
    exists x, h'. split; [done|]. eapply install_small; [|done]. intros. by eapply Herr. }
  - unfold register_syscall in E. rewrite E' in E. injection E as <- <-. eapply standing_ext; [done..|]. intros x Hx. symmetry. by apply hooks_with_skip; auto.
  - unfold register_syscall in E. rewrite E' in E. injection E as <- <-. simpl in Ht. apply (api_tolerated _ _ (fun e => e =? EEXIST)) in Ht.
    cbn beta in Ht. rewrite Z.eqb_eq in Ht.
    destruct Ho as [(_ & _ & ->)|Ho]; [unfold ENOMEM, EEXIST in Ht; lia|].
    destruct (installProbe_total SUP NR tramp symbols kprobe kp0 ksym Hpf (id_of n) _ Hh) as (x & h1 & Ei & Hh' & H1 & H2 & H3).
    rewrite Ho in Ei. injection Ei as <- <-. eapply standing_hook; [done..|]. intros x Hx.
    destruct (decide (0 <= id_of n < SUP)) as [Hr0|Hr0]; [|destruct H1 as [-> _]; [lia|unfold EINVAL, EEXIST in Ht; lia]].
    destruct (hooked (syscall_presence_bitmap (d_hook (w_drv w))) (id_of n)) eqn:Hk.
    + destruct (H2 Hr0 eq_refl) as [_ ->]. rewrite Hb by done. symmetry. apply hooks_with_skip; [done|]. right.
      intros <-. by rewrite <-Hb.
    + destruct (H3 Hr0 eq_refl) as [(-> & Hset & _)|(Hneg & Hbm & _)].
      * rewrite Hset, Hb by done. unfold hooks_with. f_equal. apply bool_decide_ext. by rewrite list_elem_of_singleton.
      * exfalso. destruct Ht as [?|[_ Ht]]; [lia|]. assert (rk = - EEXIST) as -> by lia.
        apply install_eexist in Ho; [congruence|done|done].
Qed.

Lemma teardown_syscall n A P hb p r p1 : standing A P hb p -> deregister_syscall table addr n p = Some (r, p1) ->
  r = 0 \/ (errno p1 =? EEXIST) = true -> standing A P (hooks_without [id_of n] hb) p1.
Proof.
  intros Hs E Ht. destruct p as [e w]. pose proof Hs as [Hf Hr _ Hst Hh Hb]. simpl in *.
  destruct (syscall_call_ok SUP tramp symbols kprobe kp0 ksym complete table addr F sysThrot_IOC_DEREGISTER_SYSCALL
    (removeProbe SUP symbols kprobe kp0 ksym) n e w A P) as [[Hid E']|(rk & σ' & h' & Hid & E' & Hst' & Ho)]; try done.
  { intros id. destruct (removeProbe_total SUP NR tramp symbols kprobe kp0 ksym Hpf id _ Hh) as (x & h' & Ei & _).
    exists x, h'. split; [done|]. by eapply remove_small. }
  - unfold deregister_syscall in E. rewrite E' in E. injection E as <- <-.
    eapply standing_ext; [done..|]. intros x Hx. symmetry. by apply hooks_without_skip; auto.
  - unfold deregister_syscall in E. rewrite E' in E. injection E as <- <-. simpl in Ht.
    apply (api_tolerated _ _ (fun e => e =? EEXIST)) in Ht. cbn beta in Ht. rewrite Z.eqb_eq in Ht.
    destruct Ho as [(_ & _ & ->)|Ho]; [unfold ENOMEM, EEXIST in Ht; lia|].
    destruct (removeProbe_total SUP NR tramp symbols kprobe kp0 ksym Hpf (id_of n) _ Hh) as (x & h1 & Ei & Hh' & H1 & H2 & H3).
    rewrite Ho in Ei. injection Ei as <- <-. eapply standing_hook; [done..|]. intros x Hx.
    destruct (decide (0 <= id_of n < SUP)) as [Hr0|Hr0]; [|destruct H1 as [-> _]; [lia|unfold EINVAL, EEXIST in Ht; lia]].
    destruct (hooked (syscall_presence_bitmap (d_hook (w_drv w))) (id_of n)) eqn:Hk.
    + destruct (H3 Hr0 eq_refl) as (_ & Hset & _). rewrite Hset, Hb by done. unfold hooks_without. do 2 f_equal.
      apply bool_decide_ext. by rewrite list_elem_of_singleton.
    + destruct (H2 Hr0 eq_refl) as [_ ->]. rewrite Hb by done. symmetry. apply hooks_without_skip; [done|]. right.
      intros <-. by rewrite <-Hb.
Qed.

(** Turning on and off returns, and touches neither store nor hooks. *)
Lemma switch_standing u cmd arg A P hb p : cmd = sysThrot_IOC_TURN_ON \/ cmd = sysThrot_IOC_TURN_OFF ->
  standing A P hb p -> exists r p1, device_call u cmd arg p = Some (r, p1) /\ standing A P hb p1.
Proof.
  intros Hc [Hf Hr [ri Hi] Hst Hh Hb]. destruct p as [e [av fds ui d]]. unfold free in Hf. simpl in *. subst av ui.
  assert (exists s, sysThrot_ioctl SUP tramp symbols kprobe kp0 ksym u 0 cmd arg d = on_core d (Next s)) as [s Ho].
  { destruct Hc as [-> | ->]; eexists;
      [transitivity (on_core d (turn_on_enter (d_core d)))|transitivity (on_core d (turn_off_enter (d_core d)))];
      [reflexivity| |reflexivity|]; unfold turn_on_enter, turn_off_enter; rewrite Hi; reflexivity. }
  assert (exists r c, (exists rc, ctl c = CIdle rc) /\
    world_ioctl SUP tramp symbols kprobe kp0 ksym complete (3 + Z.of_nat fds) u cmd arg (World 0 (S fds) 0 d) =
      Some (r, World 0 (S fds) 0 (Driver (d_mem d) (d_store d) (d_hook d) c))) as (r & c & Hidle & Hw).
  { unfold world_ioctl. simpl w_uid. simpl w_drv. rewrite Ho. unfold on_core. destruct (Hcomplete s) as [rc Hrc].
    destruct (ctl s) as [[r|]| | | | | | | | | |] eqn:Ecs; simpl; [|destruct (complete s) as [r s'] eqn:Ec..];
      eexists _, _; (split; [|reflexivity]); simpl in *; eauto. }
  rewrite device_call_free, Hw. destruct (libc_ret r e _) as [r' p'] eqn:El. eexists _, _. split; [reflexivity|].
  unfold libc_ret in El. destruct ((-4095 <=? r) && (r <? 0)); injection El as <- <-; by split.
Qed.

Lemma switch_keeps u cmd arg A P hb p r p1 : cmd = sysThrot_IOC_TURN_ON \/ cmd = sysThrot_IOC_TURN_OFF ->
  standing A P hb p -> device_call u cmd arg p = Some (r, p1) -> standing A P hb p1.
Proof.
  intros Hc Hs E. destruct (switch_standing u cmd arg A P hb p Hc Hs) as (r' & p' & E' & Hs').
  rewrite E' in E. by injection E as <- <-.
Qed.

(** A loop of the two functions. *)
Lemma must_all_ok (I : list (list Z) -> proc world -> Prop) (Q : list Z -> Prop) f tol k p2 l : forall done_ p,
  must_all f tol l k p = Some (0, p2) -> Forall Q l ->
  (forall n d p r p1, Q n -> I d p -> f n p = Some (r, p1) -> r = 0 \/ tol (errno p1) = true -> I (d ++ [n]) p1) ->
  I done_ p -> exists p1, I (done_ ++ l) p1 /\ k p1 = Some (0, p2).
Proof.
  induction l as [|n l IH]; intros d p Hm HQ Hf Hi; simpl in Hm.
  { exists p. by rewrite app_nil_r. }
  apply Forall_cons in HQ as [Hn HQ]. apply must_ok in Hm as (r & p1 & E & Ht & Hm).
  destruct (IH (d ++ [n]) p1 Hm HQ Hf (Hf n d p r p1 Hn Hi E Ht)) as (p3 & H3 & Hk).
  exists p3. by rewrite <-app_assoc in H3.
Qed.

Lemma setup_standing progs syscalls A P hb p p1 : Forall c_string progs -> standing A P hb p ->
  setup_throttle table addr uid progs syscalls p = Some (0, p1) ->
  Forall short progs /\ standing ({[uid]} ∪ A) (named progs ∪ P) (hooks_with (id_of <$> syscalls) hb) p1.
Proof.
  intros Hc Hs Hm. unfold setup_throttle in Hm. apply must_ok in Hm as (r0 & q0 & E0 & T0 & Hm).
  pose proof (setup_user A P hb p r0 q0 Hs E0 T0) as S0.
  destruct (must_all_ok (fun d q => Forall short d /\ standing ({[uid]} ∪ A) (named d ∪ P) hb q)
    c_string _ _ _ _ _ [] _ Hm Hc) as (q1 & [Hsh S1] & Hm1).
  { intros n d q r q' Hn [Hd Hq] E T. destruct (setup_program n _ _ _ _ _ _ Hn Hq E T) as [Hs1 S1]. split; [by apply Forall_app; split; [|constructor]|].
    eapply standing_ext; [done|done| |done]. unfold named. rewrite filter_app, list_to_set_app_L. set_solver. }
  { split; [done|]. eapply standing_ext; [done|done| |done]. unfold named. simpl. set_solver. }
  simpl in Hsh, S1.
  destruct (must_all_ok (fun d q => standing ({[uid]} ∪ A) (named progs ∪ P) (hooks_with (id_of <$> d) hb) q)
    (fun _ => True) _ _ _ _ _ [] _ Hm1) as (q2 & S2 & Hm2); [by apply Forall_true| | |].
  { intros n d q r q' _ Hq E T. eapply standing_ext; [by eapply setup_syscall|done|done|].
    intros x Hx. unfold hooks_with. rewrite fmap_app. repeat case_bool_decide; simpl; try done; set_solver. }
  { eapply standing_ext; [done..|]. intros x Hx. unfold hooks_with. case_bool_decide as Hn; [set_solver|done]. }
  simpl in S2. apply must_ok in Hm2 as (r3 & q3 & E3 & _ & Hm3). injection Hm3 as <-. split; [done|].
  eapply switch_keeps; [by left|exact S2|exact E3].
Qed.

Lemma teardown_standing progs syscalls A P hb p p1 : Forall c_string progs -> Forall short progs -> standing A P hb p ->
  teardown_throttle table addr uid progs syscalls p = Some (0, p1) ->
  standing (A ∖ {[uid]}) (P ∖ named progs) (hooks_without (id_of <$> syscalls) hb) p1.
Proof.
  intros Hc Hsh Hs Hm. unfold teardown_throttle in Hm. apply must_ok in Hm as (r0 & q0 & E0 & _ & Hm).
  pose proof (switch_keeps _ _ _ _ _ _ _ _ _ (or_intror eq_refl) Hs E0) as S0.
  destruct (must_all_ok (fun d q => standing A P (hooks_without (id_of <$> d) hb) q)
    (fun _ => True) _ _ _ _ _ [] _ Hm) as (q1 & S1 & Hm1); [by apply Forall_true| | |].
  { intros n d q r q' _ Hq E T. eapply standing_ext; [by eapply teardown_syscall|done|done|].
    intros x Hx. unfold hooks_without. rewrite fmap_app. repeat case_bool_decide; simpl; try done; set_solver. }
  { eapply standing_ext; [done..|]. intros x Hx. unfold hooks_without. case_bool_decide as Hn; [set_solver|done]. }
  destruct (must_all_ok (fun d q => standing A (P ∖ named d) (hooks_without (id_of <$> syscalls) hb) q)
    (fun n => c_string n /\ short n) _ _ _ _ _ [] _ Hm1) as (q2 & S2 & Hm2); [by apply Forall_and| | |].
  { intros n d q r q' [Hn Hn2] Hq E T. eapply standing_ext; [by eapply teardown_program|done| |done].
    unfold named. rewrite filter_app, list_to_set_app_L. set_solver. }
  { eapply standing_ext; [done|done| |done]. unfold named. simpl. set_solver. }
  apply must_ok in Hm2 as (r3 & q3 & E3 & T3 & Hm3). injection Hm3 as <-. by eapply teardown_user.
Qed.

(** Every call returns, in a state of this kind again. *)
Definition alive (p : proc world) : Prop := exists A P hb, standing A P hb p.
Definition returns (m : U world Z) : Prop := forall p, alive p -> exists r p1, m p = Some (r, p1) /\ alive p1.

Lemma user_returns f out : refines_user F f out -> returns (f uid).
Proof.
  intros Hf [e w] (A & P & hb & Hs). pose proof Hs as [Hfr Hr _ Hst _ _].
  destruct (Hf uid e w A P Huid Hfr Hr Hst) as (rk & σ' & A' & E' & _ & _ & Hst').
  eexists _, _. split; [exact E'|]. eexists _, _, _. by eapply standing_drv.
Qed.

Lemma program_returns f out n : refines_program F f out -> c_string n -> returns (f n).
Proof.
  intros Hf Hn [e w] (A & P & hb & Hs). pose proof Hs as [Hfr Hr _ Hst _ _].
  destruct (Hf n e w A P Hn Hfr Hr Hst) as (rk & σ' & P' & E' & _ & _ & Hst').
  eexists _, _. split; [exact E'|]. eexists _, _, _. by eapply standing_drv.
Qed.

(** [op] is the module's function behind the command. *)
Lemma syscall_returns cmd op n :
  (forall u arg d, sysThrot_ioctl SUP tramp symbols kprobe kp0 ksym u 0 cmd arg d = on_hooks d (syscall_command u op arg)) ->
  (forall id h, hook_inv SUP NR tramp symbols kprobe h ->
    exists r h', op id h = Some (r, h') /\ - 4095 <= r /\ hook_inv SUP NR tramp symbols kprobe h') ->
  returns (syscall_call table addr cmd n).
Proof.
  intros Hk Hop [e w] (A & P & hb & Hs). pose proof Hs as [Hf Hr _ Hst Hh Hb]. simpl in *.
  destruct (syscall_call_ok SUP tramp symbols kprobe kp0 ksym complete table addr F cmd op n e w A P)
    as [[_ E]|(rk & σ' & h' & _ & E & Hst' & Ho)]; try done.
  { intros id. destruct (Hop id _ Hh) as (r & h' & ? & ? & _). by exists r, h'. }
  - rewrite E. eexists _, _. split; [reflexivity|]. by exists A, P, hb.
  - rewrite E. eexists _, _. split; [reflexivity|]. eexists A, P, _. eapply standing_hook; [done..| |by intros].
    destruct Ho as [(_ & -> & _)|Ho]; [done|]. destruct (Hop (find_syscall_id table n) _ Hh) as (r & h1 & E1 & _ & H1).
    rewrite E1 in Ho. by injection Ho as _ <-.
Qed.

Lemma register_syscall_returns n : returns (register_syscall table addr n).
Proof.
  apply (syscall_returns _ (installProbe SUP tramp symbols kprobe kp0 ksym)); [done|]. intros id h Hh.
  destruct (installProbe_total SUP NR tramp symbols kprobe kp0 ksym Hpf id h Hh) as (r & h' & E & Hh' & _).
  exists r, h'. split_and!; [done| |done]. eapply install_small; [|done]. intros. by eapply Herr.
Qed.

Lemma deregister_syscall_returns n : returns (deregister_syscall table addr n).
Proof.
  apply (syscall_returns _ (removeProbe SUP symbols kprobe kp0 ksym)); [done|]. intros id h Hh.
  destruct (removeProbe_total SUP NR tramp symbols kprobe kp0 ksym Hpf id h Hh) as (r & h' & E & Hh' & _).
  exists r, h'. split_and!; [done| |done]. by eapply remove_small.
Qed.

Lemma switch_returns u cmd arg : cmd = sysThrot_IOC_TURN_ON \/ cmd = sysThrot_IOC_TURN_OFF -> returns (device_call u cmd arg).
Proof.
  intros Hc p (A & P & hb & Hs). destruct (switch_standing u cmd arg A P hb p Hc Hs) as (r & p1 & E & Hs1).
  exists r, p1. split; [done|]. by exists A, P, hb.
Qed.

Lemma mret_returns (x : Z) : returns (mret x).
Proof. intros p Hp. by exists x, p. Qed.

Lemma must_returns m tol k : returns m -> returns k -> returns (must m tol k).
Proof.
  intros Hm Hk p Hp. destruct (Hm p Hp) as (r & p1 & E & Hp1). unfold must, mbind, U_bind, get_errno. rewrite E.
  destruct (_ && _); [by apply mret_returns|by apply Hk].
Qed.

Lemma must_all_returns f tol l k : Forall (fun n => returns (f n)) l -> returns k -> returns (must_all f tol l k).
Proof. intros Hf Hk. induction Hf; simpl; [done|by apply must_returns]. Qed.

Lemma setup_returns progs syscalls : Forall c_string progs -> returns (setup_throttle table addr uid progs syscalls).
Proof.
  intros Hc. unfold setup_throttle. apply must_returns; [eapply user_returns, register_user_refines|].
  apply must_all_returns.
  { eapply Forall_impl; [exact Hc|]. intros n. eapply program_returns, register_program_refines. }
  apply must_all_returns; [apply Forall_true, register_syscall_returns|].
  apply must_returns; [apply switch_returns; by left|apply mret_returns].
Qed.

Lemma teardown_returns progs syscalls : Forall c_string progs -> returns (teardown_throttle table addr uid progs syscalls).
Proof.
  intros Hc. unfold teardown_throttle. apply must_returns; [apply switch_returns; by right|].
  apply must_all_returns; [apply Forall_true, deregister_syscall_returns|]. apply must_all_returns.
  { eapply Forall_impl; [exact Hc|]. intros n. eapply program_returns, deregister_program_refines. }
  apply must_returns; [eapply user_returns, deregister_user_refines|apply mret_returns].
Qed.

(** C33: setting up and tearing down again is a round trip: both calls return,
    with the device free and store and hooks consistent whatever fails; after a
    successful [setup_throttle] the uid, the programs and the syscalls are
    registered and hooked besides those from before, and after a successful
    [teardown_throttle] the registered sets and the hooks are those from before
    without them. *)
Theorem setup_teardown progs syscalls A P hb p : Forall c_string progs -> standing A P hb p ->
  exists r1 p1 r2 p2,
    setup_throttle table addr uid progs syscalls p = Some (r1, p1) /\ alive p1 /\
    teardown_throttle table addr uid progs syscalls p1 = Some (r2, p2) /\ alive p2 /\
    (r1 = 0 -> standing ({[uid]} ∪ A) (named progs ∪ P) (hooks_with (id_of <$> syscalls) hb) p1 /\
      (r2 = 0 -> standing (A ∖ {[uid]}) (P ∖ named progs) (hooks_without (id_of <$> syscalls) hb) p2)).
Proof.
  intros Hc Hs. destruct (setup_returns progs syscalls Hc p) as (r1 & p1 & E1 & A1); [by exists A, P, hb|].
  destruct (teardown_returns progs syscalls Hc p1 A1) as (r2 & p2 & E2 & A2).
  exists r1, p1, r2, p2. split_and!; [done..|]. intros ->.
  destruct (setup_standing _ _ _ _ _ _ _ Hc Hs E1) as [Hsh S1]. split; [done|]. intros ->.
  eapply standing_ext; [by eapply teardown_standing|set_solver|set_solver|].
  intros x Hx. unfold hooks_without, hooks_with. by case_bool_decide.
Qed.

(** The clock is monotonic, and its [k]-th reading is past the duration and the
    time of the signal; the workers whose call returns count in some order. *)
Record env_ok (c : config) (env : environment) (k : nat) : Prop := {
  eo_start : 0 <= e_start env;
  eo_clock i j : (i <= j)%nat -> e_clock env i <= e_clock env j;
  eo_duration : e_start env + c_duration c * 1000 <= e_clock env k;
  eo_kill : e_start env + c_kill_after c * 1000 <= e_clock env k;
  eo_order m : e_order env m ≡ₚ filter (fun i => is_Some (e_raw env i)) (seq 0 m);
  eo_buf : Z.of_nat (length (e_buf env)) = 16384;
  eo_read bytes : e_read env = Some bytes -> Z.of_nat (length bytes) <= 16384 - 1;
}.

(** What [read_monitor] prints: what was read, up to a NUL. *)
Definition dumped (env : environment) : list Z :=
  if e_open env then from_option (fun bytes => until_nul bytes ++ [10]) [] (e_read env) else [].

(** The byte after what was read is inside the buffer. *)
Lemma read_monitor_ok env : Z.of_nat (length (e_buf env)) = 16384 -> (forall bytes, e_read env = Some bytes -> Z.of_nat (length bytes) <= 16384 - 1) ->
  exists r, read_monitor (e_open env) (e_read env) (e_buf env) = Some (r, dumped env).
Proof.
  intros Hb Hr. unfold read_monitor, dumped. destruct (e_open env); [|by eexists]. cbn [negb]. destruct (e_read env) as [bytes|]; [|by eexists].
  specialize (Hr bytes eq_refl). rewrite (proj2 (Nat.ltb_lt _ _)) by lia. eexists. do 3 f_equal. simpl.
  destruct (drop (length bytes) (e_buf env)) as [|x l] eqn:E; [apply (f_equal length) in E; rewrite length_drop in E; simpl in E; lia|].
  rewrite insert_app_r_alt, Nat.sub_diag by lia. simpl. by rewrite until_nul_app.
Qed.

(** The optional setup and teardown of [main]. *)
Lemma optional_returns (b : bool) m : returns m -> returns (if b then m else mret 0).
Proof. intros Hm. destruct b; [done|apply mret_returns]. Qed.

(** What a run leaves behind when it exits with success. *)
Definition left_behind (c : config) (A : gset user) (P : gset program) (hb : Z -> bool) (p' : proc world) : Prop :=
  let A1 := if c_setup c then {[uid]} ∪ A else A in
  let P1 := if c_setup c then named (c_programs c) ∪ P else P in
  let hb1 := if c_setup c then hooks_with (id_of <$> c_syscalls c) hb else hb in
  if c_teardown c then standing (A1 ∖ {[uid]}) (P1 ∖ named (c_programs c)) (hooks_without (id_of <$> c_syscalls c) hb1) p'
  else standing A1 P1 hb1 p'.

(** The calls of the first [k] workers return. *)
Definition all_return (env : environment) (k : nat) : Prop := forall i, (i < k)%nat -> is_Some (e_raw env i).

(** What [main] does: it never runs into undefined behaviour and leaves the
    device free; it waits for ever only for one of its own two calls or for one
    of its at most [n] workers, and on success none of these is missing and the
    results are those of [b] batches. *)
Definition run_ok (c : config) (n : nat) (env : environment) (A : gset user) (P : gset program) (hb : Z -> bool)
    (x : option (ending * proc world)) : Prop :=
  exists en p', x = Some (en, p') /\ alive p' /\
    match en with
    | Hangs => (c_setup c = true /\ e_getuid env = false) \/ e_getpid env = false \/ ~ all_return env n
    | Exit st rp =>
        st = EXIT_SUCCESS -> exists b r k, rp = Some r /\ 0 <= b <= c_duration c /\ Z.of_nat k = c_threads c * b /\
          (c_setup c = true -> e_getuid env = true) /\ e_getpid env = true /\ all_return env k /\
          rp_ok r + rp_eagain r = Z.of_nat k /\
          rp_eagain r = Z.of_nat (length (filter (fun i => refused (default 0 (e_raw env i)) = true) (seq 0 k))) /\
          rp_monitor r = dumped env /\ left_behind c A P hb p'
    end.

Lemma run_failed c n env A P hb rp p' : alive p' -> run_ok c n env A P hb (Some (Exit EXIT_FAILURE rp, p')).
Proof. intros Hp. by exists (Exit EXIT_FAILURE rp), p'. Qed.

(** The joins return exactly when all calls do. *)
Lemma join_all_some env k raws : join_all env k = Some raws -> length raws = k /\ forall i, (i < k)%nat -> e_raw env i = Some (nth i raws 0).
Proof.
  unfold join_all. intros Hj%mapM_Some. pose proof (Forall2_length _ _ _ Hj) as Hl. rewrite length_seq in Hl.
  split; [done|]. intros i Hi. destruct (lookup_lt_is_Some_2 raws i ltac:(lia)) as [v Hv].
  rewrite (nth_lookup_Some raws i 0 v Hv). eapply Forall2_lookup_lr in Hj; [exact Hj| |exact Hv]. by apply lookup_seq_lt.
Qed.

Lemma join_all_none env k n : join_all env k = None -> (k <= n)%nat -> ~ all_return env n.
Proof.
  unfold join_all. intros Hj%mapM_None Hk Ha. apply Exists_exists in Hj as (i & Hi%elem_of_seq & He).
  destruct (Ha i ltac:(lia)) as [v Hv]. congruence.
Qed.

Lemma left_ok c A P hb p p1 p2 : Forall c_string (c_programs c) -> Forall short (c_programs c) -> standing A P hb p ->
  (if c_setup c then setup_throttle table addr uid (c_programs c) (c_syscalls c) else mret 0) p = Some (0, p1) ->
  (if c_teardown c then teardown_throttle table addr uid (c_programs c) (c_syscalls c) else mret 0) p1 = Some (0, p2) ->
  left_behind c A P hb p2.
Proof.
  intros Hc Hsh Hs E1 E2. unfold left_behind.
  assert (standing (if c_setup c then {[uid]} ∪ A else A) (if c_setup c then named (c_programs c) ∪ P else P)
    (if c_setup c then hooks_with (id_of <$> c_syscalls c) hb else hb) p1) as S1.
  { destruct (c_setup c); [by eapply setup_standing|]. by injection E1 as <-. }
  destruct (c_teardown c); [by eapply teardown_standing|]. by injection E2 as <-.
Qed.

End setup.

(** ** Witnesses *)

Lemma split_join_witness : split_list (Some (join_with_commas [str "a"; []; str "bc"])) 8 [] =
  (3, Some <$> [str "a"; []; str "bc"]).
Proof.
  apply (split_join [str "a"; []; str "bc"] 8); [|discriminate|simpl; lia].
  refine (bool_decide_unpack _ _). vm_compute. exact I.
Defined.

(** [-t 2 -d 1 -s "'" -p abc --setup --teardown] with the demonstration table,
    whose symbols are single bytes. *)
Definition demo_args : list (list Z) :=
  [str "-t"; str "2"; str "-d"; str "1"; str "-s"; [39]; str "-p"; str "abc"; str "--setup"; str "--teardown"].
Definition demo_config : config := Config 2 1 0 true true [[39]] [str "abc"] [39].

Lemma demo_configure : configure demo_table demo_args [] [] = Some (Some demo_config).
Proof. vm_compute. reflexivity. Qed.

Lemma configure_well_formed_witness : configure demo_table demo_args [] [] = Some (Some demo_config) /\ config_ok demo_table demo_config.
Proof. split; [exact demo_configure|]. apply (configure_well_formed demo_table demo_args [] []). exact demo_configure. Defined.

Lemma worker_recognises_witness : - 2 ^ 63 <= 4294967285 < 2 ^ 63 /\
  (refused 4294967285 = true <-> 4294967285 mod 2 ^ 32 = 4294967285 /\ ~ - 4095 <= 4294967285 < 0).
Proof. split; [lia|]. apply (worker_recognises 4294967285). lia. Defined.

Section demo.
(** A call that has ended leaves the administrator idle. *)
Definition client_complete (s : state) : Z * state := (0, set_ctl (CIdle (Some 0)) (demo_complete s).2).

Lemma client_complete_idle s : exists r, ctl (client_complete s).2 = CIdle r.
Proof. by exists (Some 0). Qed.

#[local] Abbreviation client_calls :=
  (world_calls 462 demo_tramp demo_symbols demo_kprobe (KpAddr 1) demo_ksym client_complete).
#[local] Abbreviation client_hooks := (hooked (syscall_presence_bitmap demo_hooked)).
#[local] Abbreviation demo_standing := (standing 462 462 demo_tramp demo_symbols demo_kprobe demo_frame).

Lemma client_kprobe_err id e : demo_kprobe (demo_symbols id) = KpErr e -> - 4095 <= e /\ e <> - EEXIST.
Proof. unfold demo_kprobe, demo_symbols. repeat case_match; intros [= <-]; unfold ENOENT, EINVAL, EEXIST; lia. Qed.

Lemma demo_stands : demo_standing ∅ ∅ client_hooks (Proc 0 demo_world).
Proof. split; [reflexivity|reflexivity|by exists None|exact demo_store_rep|exact demo_hooked_inv|done]. Qed.

Lemma demo_names : Forall (fun name => c_string name /\ short name) [str "abc"].
Proof.
  constructor; [|constructor]. split; [|right; vm_compute; lia].
  refine (bool_decide_unpack _ _). vm_compute. exact I.
Qed.

Definition demo_env : environment :=
  Environment [] [] true (fun _ => true) 0 (fun i => 1000 * Z.of_nat i) true true
    (fun i => Some (if (i =? 0)%nat then 4294967285 else 7)) (seq 0) true (Some (str "Epochs")) (replicate (Z.to_nat 16384) 0).

Lemma demo_env_ok : env_ok demo_config demo_env 1.
Proof. split; [|intros i j Hij|..|intros m; by rewrite list_filter_id by eauto|unfold demo_env, e_buf; by rewrite length_replicate, Z2Nat.id|by intros ? [= <-]; simpl; lia]; simpl; lia. Qed.

Lemma setup_teardown_witness : exists p1 p2,
  setup_throttle (H := client_calls) demo_table 64 1000 [str "abc"] [[39]] (Proc 0 demo_world) = Some (0, p1) /\
  teardown_throttle (H := client_calls) demo_table 64 1000 [str "abc"] [[39]] p1 = Some (0, p2) /\
  demo_standing ({[1000]} ∪ ∅) (named [str "abc"] ∪ ∅) (hooks_with [39] client_hooks) p1 /\
  demo_standing (∅ ∖ {[1000]}) (∅ ∖ named [str "abc"]) (hooks_without [39] client_hooks) p2.
Proof.
  destruct (setup_teardown 462 462 demo_tramp demo_symbols demo_kprobe (KpAddr 1) demo_ksym client_complete demo_table 64 1000
    demo_frame demo_platform client_kprobe_err ltac:(apply Z.leb_le; vm_compute; reflexivity) ltac:(lia) client_complete_idle
    [str "abc"] [[39]] ∅ ∅ client_hooks (Proc 0 demo_world) (Forall_impl _ _ _ demo_names (fun _ H => proj1 H)) demo_stands)
    as (r1 & p1 & r2 & p2 & E1 & _ & E2 & _ & H1).
  assert (r1 = 0) as Hr1.
  { enough (fst <$> setup_throttle (H := client_calls) demo_table 64 1000 [str "abc"] [[39]] (Proc 0 demo_world) = Some 0) as He
      by (rewrite E1 in He; by injection He). vm_compute. reflexivity. }
  assert (r2 = 0) as Hr2.
  { enough (fst <$> (setup_throttle (H := client_calls) demo_table 64 1000 [str "abc"] [[39]] (Proc 0 demo_world) ≫= fun x =>
      teardown_throttle (H := client_calls) demo_table 64 1000 [str "abc"] [[39]] x.2) = Some 0) as He
      by (rewrite E1 in He; simpl in He; rewrite E2 in He; by injection He). vm_compute. reflexivity. }
  subst r1 r2. destruct (H1 eq_refl) as [S1 S2]. exists p1, p2. split; [exact E1|]. split; [exact E2|].
  split; [exact S1|exact (S2 eq_refl)].
Defined.


(** The second worker's call never returns, and neither does [main]: the
    teardown is not reached. *)
Example client_hangs : fst <$> client_main (H := client_calls) demo_table 64 1000 3
  (Environment [] [] true (fun _ => true) 0 (fun i => 1000 * Z.of_nat i) true true
    (fun i => if (i =? 0)%nat then Some 7 else None) (fun _ => [0%nat]) true None []) demo_args (Proc 0 demo_world) = Some Hangs.
Proof. vm_compute. reflexivity. Qed.
End demo.
