(* ===== verification/ClientModule.v ===== *)
(** * The load generator against the module

    What a worker of the client gets from a hooked system call, through
    [stub_trampoline] and the wrapper, and what the client counts: the calls
    [stub] refused. *)

From stdpp Require Import prelude gmap list strings.
From S2P Require Import Prelude Kernel Store Queue Stats Core CoreProofs CoreSpec Trampoline Device UserLib UserSpec Client ClientSpec.

(** ** What [stub] returns *)

(** The results a thread may carry. *)
Definition result_ok (p : pc) : Prop :=
  match p with POut (Some r) | PDec r => r = 0 \/ r = - EAGAIN | _ => True end.

Lemma results_put i p s : Forall (fun th => result_ok (th_pc th)) (threads s) -> result_ok p ->
  Forall (fun th => result_ok (th_pc th)) (alter (fun th => Thread (th_task th) (th_nr th) p) i (threads s)).
Proof.
  intros Hs Hp. apply Forall_alter; [done|]. by intros th _ _.
Qed.

Lemma results_wake l : Forall (fun th => result_ok (th_pc th)) l ->
  Forall (fun th => result_ok (th_pc th)) ((fun th => Thread (th_task th) (th_nr th) (wake_pc (th_pc th))) <$> l).
Proof. intros Hl. apply Forall_fmap. eapply Forall_impl; [exact Hl|]. intros [t n p]. simpl. by destruct p. Qed.

(** In every interleaving [stub] returns 0 or -EAGAIN. *)
Lemma stub_results sup m r tasks s : reach sup anything (init_state m r tasks) s ->
  Forall (fun th => result_ok (th_pc th)) (threads s).
Proof.
  induction 1 as [|l s s' _ IH E _]; [by apply Forall_fmap, Forall_forall|].
  destruct l as [i nr|i c| | | |a|x]; simpl in E.
  - unfold stub_enter in E. destruct (threads s !! i) as [[t n []]|]; try done. injection E as <-. simpl.
    apply Forall_insert; [done|]. simpl. destruct (working s); simpl; auto.
  - destruct (threads s !! i) as [th|] eqn:Hi; [|done]. pose proof (Forall_lookup_1 _ _ _ _ IH Hi) as Hth. simpl in Hth.
    unfold stub_step in E. repeat case_match; simplify_eq; simpl; apply results_put; simpl; auto.
  - unfold timer_step in E. repeat case_match; simplify_eq; simpl; auto. by apply results_wake.
  - unfold turn_on_enter in E. by destruct (ctl s); simplify_eq.
  - unfold turn_off_enter in E. by destruct (ctl s); simplify_eq.
  - unfold ctl_step in E. repeat case_match; simplify_eq; simpl; auto. by apply results_wake.
  - by simplify_eq.
Qed.

(** ** What the worker gets *)

(** A system call through a wrapper that starts with a call of the trampoline:
    [ip] is the address after that call, [body] the result of the rest of the
    wrapper.  A return to another address ends the wrapper with [rax]. *)
Definition answer (stub : machine -> machine) (m : machine) (ip : Z) (body : machine -> Z) : option Z :=
  '(ip', m') ← trampoline stub m; Some (if ip' =? ip then body m' else s64 (regs m' RAX)).

(** The call of a worker whose [stub] returned [r]: the compiled function leaves
    the [int] in [eax] and clears the rest of [rax]. *)
Record called (stub : machine -> machine) (m : machine) (ip : Z) (r : Z) : Prop := {
  cl_abi : stub_abi stub;
  cl_ip : stack m !! regs m RSP = Some ip;
  cl_caller : exists caller, stack m !! (regs m RSP + 8) = Some caller /\ caller <> ip;
  cl_counter : - 2 ^ 31 <= stub_counter m < 2 ^ 31;
  cl_value : stub_value stub m = u32 r;
}.

(** A call that was let through gives the result of the syscall, one that was
    refused gives 4294967285, and the worker tells them apart if the former is
    an [int] that is no error. *)
Lemma answer_refused stub m ip r body raw : called stub m ip r -> r = 0 \/ r = - EAGAIN ->
  (forall m', 0 <= body m' < 2 ^ 31) -> answer stub m ip body = Some raw -> refused raw = true <-> r = - EAGAIN.
Proof.
  intros [Ha Hi (caller & Hc & Hne) Hn Hv] Hr Hb. unfold answer.
  destruct (trampoline_ok stub m ip caller Ha Hi Hc Hn) as (ip' & m' & -> & _ & _ & H0 & H1). cbn [mbind option_bind].
  destruct Hr as [->| ->].
  - destruct H0 as (-> & _ & _); [by rewrite Hv|]. rewrite Z.eqb_refl. intros [= <-]. split; [|done]. intros Hx. specialize (Hb m').
    unfold refused in Hx. replace ((-4095 <=? body m') && (body m' <? 0)) with false in Hx by (symmetry; apply andb_false_iff; right; apply Z.ltb_ge; lia).
    rewrite s32_id in Hx by lia. apply Z.eqb_eq in Hx. unfold EAGAIN in Hx. lia.
  - destruct H1 as (-> & _ & Hrax & _); [by rewrite Hv|]. rewrite (proj2 (Z.eqb_neq caller ip) Hne), Hrax, Hv. intros [= <-].
    by split.
Qed.

(** Every element satisfies exactly one of the two. *)
Lemma count_two {A} (P Q : A -> Prop) `{forall x, Decision (P x), forall x, Decision (Q x)} l :
  (forall x, x ∈ l -> (P x \/ Q x) /\ ~ (P x /\ Q x)) -> (length (filter P l) + length (filter Q l) = length l)%nat.
Proof.
  induction l as [|x l IH]; intros Hx; [done|]. rewrite !filter_cons. specialize (IH ltac:(set_solver)).
  pose proof (Hx x ltac:(by left)). do 2 case_decide; simpl; try lia; naive_solver.
Qed.

(** C32: the client's counts are the module's decisions: when [k] workers have
    each made a hooked system call, in any interleaving of the module, the
    report's EAGAIN is the number of workers [stub] refused and its OK the number
    it let through, whatever the order in which the workers count.  (The module
    delivers -EAGAIN as 4294967285 and the client compares with -EAGAIN after a
    conversion to [int]: the two deviations cancel.) *)
Theorem client_counts_refusals table c n k order dump sup lim reg tasks s r raw :
  config_ok table c -> nslots c = Some n -> (k <= n)%nat -> order ≡ₚ seq 0 k ->
  reach sup anything (init_state lim reg tasks) s ->
  (forall i, (i < k)%nat -> exists th stub m ip body, threads s !! i = Some th /\ th_pc th = POut (Some (r i)) /\
     called stub m ip (r i) /\ (forall m', 0 <= body m' < 2 ^ 31) /\ answer stub m ip body = Some (raw i)) ->
  let rp := results c k (run_workers raw order (init_args c n)) dump in
  rp_eagain rp = Z.of_nat (length (filter (fun i => r i = - EAGAIN) (seq 0 k))) /\
  rp_ok rp = Z.of_nat (length (filter (fun i => r i = 0) (seq 0 k))).
Proof.
  intros Hc Hn Hk Ho Hr Hw rp. destruct (report_exact table c n k raw order dump Hc Hn Hk Ho) as (Hsum & He & _). fold rp in Hsum, He.
  assert (forall i, i ∈ seq 0 k -> (r i = 0 \/ r i = - EAGAIN) /\ (refused (raw i) = true <-> r i = - EAGAIN)) as Hx.
  { intros i Hi%elem_of_seq. destruct (Hw i ltac:(lia)) as (th & stub & m & ip & body & Hth & Hp & Hcl & Hb & Ha).
    pose proof (Forall_lookup_1 _ _ _ _ (stub_results _ _ _ _ _ Hr) Hth) as Hres. simpl in Hres. rewrite Hp in Hres.
    split; [done|]. by eapply answer_refused. }
  assert (rp_eagain rp = Z.of_nat (length (filter (fun i => r i = - EAGAIN) (seq 0 k)))) as Heq.
  { rewrite He. do 2 f_equal. apply list_filter_ext_in. intros i Hi. by apply Hx. }
  split; [done|]. pose proof (count_two (fun i => r i = - EAGAIN) (fun i => r i = 0) (seq 0 k)) as Hct.
  rewrite length_seq in Hct. unfold EAGAIN in *. specialize (Hct ltac:(intros i Hi; destruct (Hx i Hi) as [[?|?] _]; split; lia)). lia.
Qed.

(** ** A run: one worker is interrupted by a signal while it waits, the other
    gets the token of the next epoch. *)

Definition two_labels : list label :=
  turn_on_labels ++ block_labels 0 ++ replicate 9 (LThread 0 (Choice true 0 true)) ++ epoch_labels ++
  [LEnter 1 39] ++ replicate 5 (LThread 1 CoreSpec.ok).
Definition two_state : state := default core_init (run_if (fun _ _ _ => true) 462 two_labels core_init).

Lemma two_reach : reach 462 anything core_init two_state.
Proof. apply (run_if_reach (fun _ _ _ => true) anything 462 core_init two_labels ltac:(done) core_init); [apply reach_refl|]. vm_compute. reflexivity. Qed.

Lemma demo_called v : called (demo_stub (u32 v)) demo_machine 1000 v.
Proof.
  split; [apply demo_stub_abi|reflexivity| |vm_compute; split; [discriminate|reflexivity]|reflexivity].
  exists 2000. split; [reflexivity|discriminate].
Qed.

Lemma client_counts_refusals_witness :
  rp_eagain (results demo_config 2 (run_workers (fun i => if (i =? 0)%nat then 4294967285 else 7) [1; 0]%nat (init_args demo_config 2)) []) = 1 /\
  rp_ok (results demo_config 2 (run_workers (fun i => if (i =? 0)%nat then 4294967285 else 7) [1; 0]%nat (init_args demo_config 2)) []) = 1.
Proof.
  refine (client_counts_refusals demo_table demo_config 2 2 [1; 0]%nat [] 462 1 demo_reg [demo_task; Task 101 1000 [115; 104]]
    two_state (fun i => if (i =? 0)%nat then - EAGAIN else 0) _ (configure_ok _ _ _ _ _ demo_configure) eq_refl (le_n _) _ two_reach _).
  - apply perm_swap.
  - intros [|[|i]] Hi; [..|lia].
    + exists (Thread demo_task 1 (POut (Some (- EAGAIN)))), (demo_stub (u32 (- EAGAIN))), demo_machine, 1000, (fun _ => 7).
      split; [vm_compute; reflexivity|]. split; [reflexivity|]. split; [apply demo_called|]. split; [lia|]. vm_compute. reflexivity.
    + exists (Thread (Task 101 1000 [115; 104]) 39 (POut (Some 0))), (demo_stub (u32 0)), demo_machine, 1000, (fun _ => 7).
      split; [vm_compute; reflexivity|]. split; [reflexivity|]. split; [apply demo_called|]. split; [lia|]. vm_compute. reflexivity.
Defined.
